(* ===== verification/_CoqProject ===== *)
-Q . S2P
Prelude.v
RadixKey.v
TreeNode.v
KvEvents.v
EventQueue.v
RadixCache.v
RadixInv.v
RadixPages.v
RadixAcct.v
RadixEvents.v
RadixMatch.v
RadixSpec.v
RadixInsert.v
RadixLock.v
RadixEvict.v
Allocator.v
AllocFree.v
AllocCorrect.v
AllocKernel.v
AllocExtend.v
PoolAlloc.v
SwaAlloc.v
SwaInv.v
SwaFree.v
SwaGrow.v
SwaCorrect.v
Requests.v
ReqPool.v
RadixReq.v
RadixContents.v
RadixCorrect.v
BatchAlloc.v
BatchWrite.v
BatchMem.v
BatchTake.v
BatchPrefill.v
BatchDecode.v
SwaWindow.v
SwaPure.v
SwaLife.v
SwaTail.v
SwaSystem.v
SwaReach.v
SwaClaims.v
SwaEvict.v
RadixWitness.v
InputBlocker.v
SchedControl.v
PrefillDelayer.v
FinishState.v
PySort.v
Retract.v
ReleaseCorrect.v
RetractCorrect.v
RetractDecode.v
MemCheck.v
MemCheckCorrect.v
SwaCheck.v
PrefillAdder.v
AdderBudget.v
AdderRadix.v
AdderBatch.v
BatchWitness.v
RetractWitness.v
MemCheckWitness.v
MemoryHazards.v
AdderPreempt.v
SchedulePolicy.v
PolicyCorrect.v
PolicyOrder.v
