(* ===== verification/Prelude.v ===== *)
(** * A verification of the SGLang runtime's memory and scheduling core

    SGLang serves large language models.  Its scheduler keeps the key/value (KV)
    tensors of processed tokens in a pool of pages, shares them between requests
    through a radix tree of token prefixes, and decides in every iteration which
    waiting requests to prefill and when a running one is finished.  This library
    models that core, function by function, and proves what it promises.  Paths
    below are relative to [src/python/sglang/].

    ** How the program is modelled

    - Python objects that are shared and mutated (tree nodes) live in a store, a
      [gmap] from identifiers to records; everything else is explicit state passing.
      Exceptions are the values [Raise e] of the error monad of this file.
    - Integers are unbounded, as in Python; tensors of indices are lists of [Z] or
      [nat]; device kernels are modelled lane by lane.  Floats (ratios, clock
      readings, token estimates scaled by a ratio) are exact rationals [Q].
    - What is outside the program is a parameter: the native hash of a page, the
      salt digest, the readings of the clock, the tokenizer's [decode], the
      regular-expression engine, [random.shuffle], the order of a dict of children,
      the gather over ranks, the contents of a tensor made by [torch.empty], the copy
      of a retracted request's KV to the host.  Theorems that need a property of such a parameter
      state it as a hypothesis and have a witness with a concrete function.
    - Loops that are not structural run on fuel; [OutOfFuel] is never returned:
      descents get one unit per token of the key, walks to the root and tree
      traversals one per node (the depth of a node is below the number of nodes),
      eviction one per node of the tree.  The retraction loop is structural in the
      order of the requests it may drop.
    - Serving under a sliding window is a step relation (admit, decode, evict,
      finish) whose rules call the modelled functions; its invariant is proved by
      induction over reachability.

    ** Files, and the code they model

    Prefix cache ([srt/mem_cache/radix_cache.py], [evict_policy.py], [utils.py]):
    - [RadixKey], [TreeNode]: keys with namespaces and bigram views, node records,
      eviction strategies.  [RadixCache]: [match_prefix], [insert], [_split_node],
      [evict], [inc_lock_ref], [dec_lock_ref], [reset] and their helpers.
    - [RadixInv] (well-formed tree, paths), [RadixPages] (which pages a tree
      stores), [RadixAcct] (sizes, lock counts, evictable leaves), [RadixMatch],
      [RadixInsert], [RadixLock], [RadixEvict]: the invariant and that every
      operation keeps it.
    - [RadixSpec]: the abstract specification, a finite map from page-aligned
      prefixes to KV slots, and the abstraction relation [abs].  [RadixContents]:
      the map of a tree as a function.  [RadixCorrect]: the refinement and safety
      theorems; [RadixWitness]: a concrete cache and the witnesses.
    - [RadixReq]: [cache_finished_req], [cache_unfinished_req] over [Requests]
      ([Req] of [srt/managers/schedule_batch.py]) and [ReqPool]
      ([ReqToTokenPool] of [srt/mem_cache/memory_pool.py]).
    KV cache events ([srt/mem_cache/events.py], [srt/disaggregation/kv_events.py]):
    - [KvEvents], [EventQueue], [RadixEvents].
    Page allocators ([srt/mem_cache/allocator/], [kernels/ops/memory/allocator.py]):
    - [Allocator] (the token and the paged allocator), [AllocFree], [AllocCorrect],
      [AllocKernel] (the Triton kernels and their Python reference), [AllocExtend];
      [PoolAlloc]: the class of allocators that batch allocation is written against,
      with both as instances.
    Memory of a batch ([srt/mem_cache/allocation.py], [common.py],
    [kernels/ops/memory/common.py], [srt/managers/schedule_batch.py]):
    - [BatchAlloc]: [alloc_for_extend], [alloc_for_decode] and what they call.
      [BatchWrite] (the kernel that fills the rows), [BatchMem] (who owns which page:
      tree, free list, rows of running requests), [BatchTake], [BatchPrefill],
      [BatchDecode]: what the two allocations do.  [BatchWitness]: a small server.
    - [Retract]: [check_decode_mem], [retract_decode], [release_req],
      [release_kv_cache], [reset_for_retract].  [ReleaseCorrect] (one request),
      [RetractCorrect] (the loop), [RetractDecode] (the theorems), [RetractWitness].
      [MemoryHazards]: two concrete runs that free a page in use.
    Self-checks ([srt/managers/scheduler_components/invariant_checker.py],
    [pool_stats_observer.py]):
    - [MemCheck]: pool statistics, the busy and the idle check, over the class
      [Monitored] of observable memories.  [MemCheckCorrect]: the check on the radix
      cache; [SwaCheck]: on the hybrid allocator; [MemCheckWitness].
    Sliding windows ([srt/mem_cache/allocator/swa.py], [chunk_cache.py], [common.py],
    [srt/managers/schedule_batch.py], [srt/disaggregation/decode.py]):
    - [SwaAlloc]: the hybrid allocator (a full pool, a window pool and the table that
      translates full slots) and the window-only one.  [SwaInv]: its invariant
      [hybrid m], with [m] the pairs of full and window pages; [SwaFree], [SwaGrow],
      [SwaCorrect]: releases (also grouped) and allocations keep it.
    - [SwaWindow]: [free_swa_out_of_window_slots], [maybe_evict_swa] and the chunk
      caches, over the class [WindowAllocator].  [SwaPure]: a request's life in a
      window-only model; [SwaLife], [SwaSystem], [SwaReach]: running requests, the
      step relation and its invariant; [SwaClaims], [SwaEvict]: the theorems;
      [SwaTail]: preallocation on a decode server.
    Scheduling ([srt/managers/]):
    - [PySort]: Python's stable sort.  [SchedulePolicy]: the policies of
      [schedule_policy.py] over two radix caches; [PolicyCorrect]: in-batch prefix
      caching; [PolicyOrder]: the order of the queue and the depth-first traversal.
    - [PrefillAdder]: the class [PrefillAdder] of [schedule_policy.py], against the
      interface [Pools] of cache and allocator.  [AdderBudget]: the laws the cache
      promises ([PoolsLaws]) and the memory bound; [AdderRadix]: the radix cache
      implements the interface and satisfies the laws; [AdderBatch]: an admitted
      batch gets its memory in [alloc_for_extend]; [AdderPreempt]: preemption, the
      EOS-free estimate, the tile budget.
    - [FinishState]: [Req.update_finish_state] and the checks it calls.
    - [PrefillDelayer] ([prefill_delayer.py]), [InputBlocker]
      ([scheduler_input_blocker.py], [srt/utils/poll_based_barrier.py]),
      [SchedControl] (receive skipper, free-slot delayer, new-token ratio).

    ** What the theorems show

    - The radix cache refines its specification: a lookup returns the slots of the
      longest stored prefix and is otherwise invisible; an insertion adds exactly the
      missing pages; eviction terminates, frees enough or everything that may be
      freed, never touches a locked path, and hands each freed slot to the allocator
      once; locks are exact and invertible; after a request is cached every KV slot
      of its row is in exactly one place.
    - The allocators conserve pages: nothing is lost, handed out twice or freed
      twice, also when frees are grouped or meet inside a page; the Triton kernel of
      [alloc_extend] computes what its Python reference computes.
    - Admission is safe: whatever sequence of waiting requests a pass offers, the
      pages of the admitted ones fit in the memory that is available or evictable at
      the end, and the budget counters are exactly what was charged; chunks are
      page aligned and make progress; a committed preemption makes enough room.
    - Batches get their memory: [alloc_for_extend] raises exactly when the new pages do
      not fit in free and evictable memory, otherwise each request has a row of its
      prefix and of pages nobody else holds; an admitted batch always fits.
      [check_decode_mem] predicts [alloc_for_decode] exactly, and [retract_decode]
      ends with a batch that passes it, after giving back exactly what the dropped
      requests held.
    - Sliding windows conserve both pools in every reachable state, whatever the order
      of admissions, decode steps, evictions and ends of requests; eviction takes whole
      pages behind the window and nothing else, and leaves a request a bounded number
      of window slots; grouped releases equal immediate ones; a transferred prompt
      gets window slots for a page-aligned tail that contains the window.
    - The scheduler's own memory check is exact: it passes on a running batch exactly
      when free, cached and private memory add up to the pool, decode steps and
      retraction do not change its result, and it passes in every reachable state under
      a sliding window without shielded prompts.
    - Scheduling orders: every policy permutes the queue into the order it promises;
      requests are held back for in-batch caching exactly by the stated rule.
    - A request finishes when it should: the output never exceeds its budget and
      ends at the first stop token or stop string of a speculative step.
    - The control components are live and agree across ranks: waits are bounded,
      the input is polled, the ranks leave a barrier together.
    - Events: coalescing is invisible to a consumer, and stores publish a linked
      chain of blocks.

    ** Not modelled

    The hierarchical, Mamba and unified variants of the prefix cache and the radix tree
    with sliding windows (its allocator is modelled, and the adder's use of all of them
    through [Pools]); allocators that borrow their full side, NPU and HiSparse variants;
    the allocation for speculative decoding; the self-checks of Mamba pools and of
    streaming sessions; the scheduler's event loop, process groups
    and ZMQ sockets; model execution and the numeric GPU kernels; HTTP servers and
    tokenizer processes; argument parsing, metrics and logging; load-back of host pages
    is part of [PrefillAdder] but outside the memory bound, which assumes requests
    without host hits.

    This file holds what all components share: the error monad, Python's slices and
    dict-like operations, longest common prefixes, sums over maps, and the tactics
    and hint database [py]. *)

From stdpp Require Import base tactics numbers list gmap sets strings sorting.
From Stdlib Require Import ZArith Lia ZifyNat.

(** ** Exceptions

    Fallible Python code is modelled in an error monad: [Ok v] is a normal
    return and [Raise e] a raised exception.  [OutOfFuel] is not an exception
    of the source: it marks an exhausted recursion bound, and every theorem
    about a fuelled function states that it is not reached. *)

Inductive exn :=
  | ValueError
  | IndexError
  | KeyError
  | AssertionError
  | RuntimeError
  | TypeError
  | AttributeError
  | NotImplementedError
  | ZeroDivisionError
  | OutOfFuel.

Global Instance exn_eq_dec : EqDecision exn.
Proof. solve_decision. Defined.

Inductive res (A : Type) :=
  | Ok (a : A)
  | Raise (e : exn).
Global Arguments Ok {_} _ : assert.
Global Arguments Raise {_} _ : assert.

Global Instance res_eq_dec `{EqDecision A} : EqDecision (res A).
Proof. solve_decision. Defined.

Definition res_bind {A B} (c : res A) (k : A → res B) : res B :=
  match c with Ok a => k a | Raise e => Raise e end.

Definition res_of_option {A} (e : exn) (o : option A) : res A :=
  match o with Some a => Ok a | None => Raise e end.

Definition assert_ (b : bool) : res unit :=
  if b then Ok tt else Raise AssertionError.

Declare Scope py_scope.
Delimit Scope py_scope with py.
Notation "'let!' x ':=' c 'in' k" := (res_bind c (λ x, k))
  (at level 10, x pattern, c at level 100, k at level 200) : py_scope.
Notation "c1 ';;!' c2" := (res_bind c1 (λ _, c2))
  (at level 100, c2 at level 200, right associativity) : py_scope.
Open Scope py_scope.

(** ** Python lists, slices and dicts *)

(** [t[a:b]] for [0 <= a] and [0 <= b] (an out-of-range slice is clipped). *)
Definition pyslice {A} (t : list A) (a b : nat) : list A := take (b - a) (drop a t).

(** [t[::step]], the strided slice, for [0 < step]: one element every [step],
    starting with the first. *)
Fixpoint pystride_aux {A} (step k : nat) (t : list A) : list A :=
  match t with
  | [] => []
  | x :: t => if decide (k = 0) then x :: pystride_aux step (step - 1) t
              else pystride_aux step (k - 1) t
  end.
Definition pystride {A} (step : nat) (t : list A) : list A := pystride_aux step 0 t.

(** [slice(start, stop).indices(len)] with step 1. *)
Definition slice_clip (len i : Z) : Z :=
  let i := if (i <? 0)%Z then (i + len)%Z else i in
  if (i <? 0)%Z then 0%Z else if (len <? i)%Z then len else i.
Definition slice_indices (len : Z) (start stop : option Z) : Z * Z :=
  (match start with None => 0%Z | Some i => slice_clip len i end,
   match stop with None => len | Some i => slice_clip len i end).

(** ** Longest common prefix: the reference for every prefix comparison *)

Fixpoint lcp `{EqDecision A} (l1 l2 : list A) : nat :=
  match l1, l2 with
  | x :: l1, y :: l2 => if decide (x = y) then S (lcp l1 l2) else 0
  | _, _ => 0
  end.

(** [n // p * p] and [(n + p - 1) // p] on naturals. *)
Definition page_floor (p n : nat) : nat := n / p * p.
Definition ceil_div (n p : Z) : Z := (- ((- n) / p))%Z.

Global Arguments Nat.div : simpl never.
Global Arguments Nat.modulo : simpl never.
Global Arguments Nat.sub : simpl nomatch.
Ltac Zify.zify_post_hook ::= Z.div_mod_to_equations.

(** ** Automation *)

(** Run the next step of a computation in the error monad. *)
Ltac res_step := cbn [res_bind res_of_option].

(** Lemmas that the components' proofs use without naming them. *)
Create HintDb py.

(** ** Shared lemmas *)

Lemma res_bind_ok {A B} (c : res A) (k : A → res B) b :
  res_bind c k = Ok b ↔ ∃ a, c = Ok a ∧ k a = Ok b.
Proof.
  destruct c; simpl; [|split; [done|by intros (?&?&?)]].
  split; [by eauto|]. intros (?&[= ->]&?). done.
Qed.

Lemma length_pyslice {A} (t : list A) a b : length (pyslice t a b) = min (b - a) (length t - a).
Proof. unfold pyslice. rewrite length_take, length_drop. lia. Qed.

Lemma pyslice_0 {A} (t : list A) b : pyslice t 0 b = take b t.
Proof. unfold pyslice. rewrite drop_0. f_equal. lia. Qed.

Lemma pyslice_to_end {A} (t : list A) a b : length t ≤ b → pyslice t a b = drop a t.
Proof. intros. unfold pyslice. apply take_ge. rewrite length_drop. lia. Qed.

Lemma pyslice_take {A} (v : list A) a b s : b ≤ s → pyslice (take s v) a b = pyslice v a b.
Proof. intros. unfold pyslice. rewrite skipn_firstn_comm, take_take. f_equal. lia. Qed.

Lemma pyslice_drop {A} (v : list A) a b s : pyslice (drop s v) a b = pyslice v (s + a) (s + b).
Proof. unfold pyslice. rewrite drop_drop. f_equal. lia. Qed.

Lemma pyslice_drop_take {A} (t : list A) a b : a ≤ b → pyslice t a b = drop a (take b t).
Proof. intros ?. unfold pyslice. rewrite take_drop_commute. do 2 f_equal. lia. Qed.

Lemma take_pyslice {A} (t : list A) a b : a ≤ b → take b t = take a t ++ pyslice t a b.
Proof.
  intros ?. rewrite pyslice_drop_take by done. rewrite <-(take_drop a (take b t)) at 1.
  rewrite take_take. do 2 f_equal. lia.
Qed.

Lemma take_tail_zip {A B} (f : A → A → B) (t : list A) n :
  take n (zip_with f t (tail t)) = zip_with f (take (S n) t) (tail (take (S n) t)).
Proof.
  revert n. induction t as [|x [|y t] IH]; intros [|n]; try done.
  simpl. f_equal. apply (IH n).
Qed.

Lemma drop_tail_zip {A B} (f : A → A → B) (t : list A) n :
  drop n (zip_with f t (tail t)) = zip_with f (drop n t) (tail (drop n t)).
Proof.
  revert n. induction t as [|x [|y t] IH]; intros [|n]; try done.
  - simpl. by rewrite !drop_nil.
  - simpl. apply (IH n).
Qed.

Lemma length_zip_tail {A B} (f : A → A → B) (t : list A) :
  length (zip_with f t (tail t)) = length t - 1.
Proof. rewrite length_zip_with. destruct t; cbn [tail length]; lia. Qed.

Section Lcp.
Context `{EqDecision A}.
Implicit Types l : list A.

Lemma lcp_comm l1 l2 : lcp l1 l2 = lcp l2 l1.
Proof.
  revert l2. induction l1 as [|x l1 IH]; intros [|y l2]; simpl; try done.
  repeat case_decide; congruence.
Qed.

Lemma lcp_le_l l1 l2 : lcp l1 l2 ≤ length l1.
Proof.
  revert l2. induction l1 as [|x l1 IH]; intros [|y l2]; simpl; try lia.
  case_decide; [|lia]. specialize (IH l2). lia.
Qed.
Lemma lcp_le_r l1 l2 : lcp l1 l2 ≤ length l2.
Proof. rewrite lcp_comm. apply lcp_le_l. Qed.

(** The characterisation every later proof uses. *)
Lemma lcp_ge_iff l1 l2 n :
  n ≤ lcp l1 l2 ↔ n ≤ length l1 ∧ n ≤ length l2 ∧ take n l1 = take n l2.
Proof.
  revert l2 n. induction l1 as [|x l1 IH]; intros [|y l2] [|n]; simpl;
    try (split; [intros|intros (?&?&?)]; (lia || (repeat split; (done || lia)) )).
  case_decide as Hd.
  - subst. rewrite <-!Nat.succ_le_mono, IH.
    split; intros (?&?&?); split_and!; congruence.
  - split; [lia|]. intros (_&_&?). simplify_eq.
Qed.

Lemma lcp_take_eq l1 l2 : take (lcp l1 l2) l1 = take (lcp l1 l2) l2.
Proof. by apply lcp_ge_iff. Qed.

Lemma lcp_take l1 l2 a b : lcp (take a l1) (take b l2) = min (lcp l1 l2) (min a b).
Proof.
  revert l2 a b. induction l1 as [|x l1 IH]; intros [|y l2] [|a] [|b]; simpl; try lia.
  case_decide; [|lia]. rewrite IH. lia.
Qed.

Lemma lcp_drop l1 l2 n : n ≤ lcp l1 l2 → lcp (drop n l1) (drop n l2) = lcp l1 l2 - n.
Proof.
  revert l2 n. induction l1 as [|x l1 IH]; intros [|y l2] [|n]; simpl; try lia.
  case_decide; [|lia]. intros. rewrite IH; lia.
Qed.

Lemma lcp_app l l1 l2 : lcp (l ++ l1) (l ++ l2) = length l + lcp l1 l2.
Proof. induction l; simpl; [done|]. rewrite decide_True by done. lia. Qed.

Lemma pyslice_eq_lcp l1 l2 lo hi :
  lo ≤ lcp l1 l2 → lo ≤ hi → hi ≤ length l1 → hi ≤ length l2 →
  pyslice l1 lo hi = pyslice l2 lo hi ↔ hi ≤ lcp l1 l2.
Proof.
  intros Hlo Hle H1 H2. unfold pyslice.
  assert (hi - lo ≤ lcp (drop lo l1) (drop lo l2) ↔ hi ≤ lcp l1 l2) as <-.
  { rewrite lcp_drop by done. lia. }
  rewrite lcp_ge_iff, !length_drop. naive_solver lia.
Qed.

Lemma lcp_zip_tail {B} `{EqDecision B} (f : A → A → B) l1 l2 :
  (∀ a b a' b', f a b = f a' b' → a = a' ∧ b = b') →
  lcp (zip_with f l1 (tail l1)) (zip_with f l2 (tail l2)) = lcp l1 l2 - 1.
Proof.
  intros Hf. revert l2. induction l1 as [|x1 [|x2 l1] IH]; intros [|y1 [|y2 l2]]; simpl;
    try done; repeat case_decide; try done; try naive_solver.
  subst. specialize (IH (y2 :: l2)). simpl in IH.
  rewrite decide_True in IH by done. destruct l1, l2; simpl in *; lia.
Qed.
End Lcp.

Lemma lcp_fmap_inj `{EqDecision A, EqDecision B} (f : A → B) `{!Inj (=) (=) f} l1 l2 :
  lcp (f <$> l1) (f <$> l2) = lcp l1 l2.
Proof.
  revert l2. induction l1 as [|x l1 IH]; intros [|y l2]; simpl; try done.
  repeat case_decide; simplify_eq; by rewrite ?IH.
Qed.

Lemma page_floor_le p n : page_floor p n ≤ n.
Proof. unfold page_floor. rewrite Nat.mul_comm. apply Nat.Div0.mul_div_le. Qed.
Lemma page_floor_1 n : page_floor 1 n = n.
Proof. unfold page_floor. rewrite Nat.div_1_r. lia. Qed.

(** Two prefixes of one list are ordered by length. *)
Lemma prefix_le {A} (l1 l2 l : list A) :
  l1 `prefix_of` l → l2 `prefix_of` l → length l1 ≤ length l2 → l1 `prefix_of` l2.
Proof.
  intros [k1 ->] [k2 Hk] Hle. exists (drop (length l1) l2).
  rewrite <-(take_drop (length l1) l2) at 1. f_equal.
  by rewrite <-(take_app_le l2 k2), <-Hk, take_app_length by done.
Qed.

Lemma prefix_take_eq {A} (l l1 l2 : list A) n :
  l1 `prefix_of` l → l2 `prefix_of` l → n ≤ length l1 → n ≤ length l2 → take n l1 = take n l2.
Proof. intros [k1 ->] [k2 Hk] ??. rewrite <-(take_app_le l1 k1), Hk, take_app_le; done. Qed.

(** Distinct multiples of a page are at least a page apart. *)
Lemma aligned_gap p a b : a mod p = 0 → b mod p = 0 → a < b → a + p ≤ b.
Proof.
  intros [x ->]%Nat.Lcm0.mod_divide [y ->]%Nat.Lcm0.mod_divide Hlt.
  destruct (decide (x < y)); [|nia].
  replace y with (x + 1 + (y - x - 1)) by lia. nia.
Qed.

#[export] Hint Resolve page_floor_le : py.

(** ** Sums over finite maps *)

Section Msum.
Context `{Countable K} {A : Type}.
Implicit Types (f g : K → A → Z) (m : gmap K A).

Definition msum f m : Z := map_fold (λ k a acc, (f k a + acc)%Z) 0%Z m.

Lemma msum_empty f : msum f ∅ = 0%Z.
Proof. apply map_fold_empty. Qed.

Lemma msum_insert f m k a : m !! k = None → msum f (<[k := a]> m) = (f k a + msum f m)%Z.
Proof. intros Hk. unfold msum.
  apply (map_fold_insert_L (λ k a acc, (f k a + acc)%Z)); [intros; lia|done]. Qed.

Lemma msum_delete f m k a : m !! k = Some a → msum f (delete k m) = (msum f m - f k a)%Z.
Proof.
  intros Hk. assert (m = <[k := a]> (delete k m)) as Hm by by rewrite insert_delete_id.
  rewrite Hm at 2. rewrite msum_insert by apply lookup_delete_eq. lia.
Qed.

Lemma msum_update f m k a b : m !! k = Some a → msum f (<[k := b]> m) = (msum f m - f k a + f k b)%Z.
Proof.
  intros Hk. rewrite <-insert_delete_eq, msum_insert by apply lookup_delete_eq.
  rewrite (msum_delete f m k a) by done. lia.
Qed.

Lemma msum_ext f g m m' : dom m = dom m' →
  (∀ k a b, m !! k = Some a → m' !! k = Some b → f k a = g k b) → msum f m = msum g m'.
Proof.
  revert m'. induction m as [|k a m Hk IH] using map_ind; intros m' Hd Hfg.
  - symmetry in Hd. rewrite dom_empty_L in Hd. apply dom_empty_inv_L in Hd as ->. by rewrite !msum_empty.
  - assert (is_Some (m' !! k)) as [b Hb] by (apply elem_of_dom; rewrite <-Hd; set_solver).
    rewrite msum_insert by done.
    rewrite (IH (delete k m')).
    + rewrite (msum_delete g m' k b) by done. rewrite (Hfg k a b); [lia|by simplify_map_eq|done].
    + rewrite dom_delete_L, <-Hd, dom_insert_L.
      apply not_elem_of_dom in Hk. set_solver.
    + intros j x y Hx Hy. apply lookup_delete_Some in Hy as [? ?]. eapply Hfg; [|done].
      by rewrite lookup_insert_ne.
Qed.

Lemma msum_nonneg f m : (∀ k a, m !! k = Some a → 0 ≤ f k a)%Z → (0 ≤ msum f m)%Z.
Proof.
  induction m as [|k a m Hk IH] using map_ind; intros Hf; [by rewrite msum_empty|].
  rewrite msum_insert by done.
  pose proof (Hf k a ltac:(by simplify_map_eq)).
  assert (0 ≤ msum f m)%Z; [|lia]. apply IH. intros j b Hj. apply Hf.
  rewrite lookup_insert_ne; [done|]. congruence.
Qed.

Lemma msum_ge f m k a : (∀ k a, m !! k = Some a → 0 ≤ f k a)%Z → m !! k = Some a → (f k a ≤ msum f m)%Z.
Proof.
  intros Hf Hk. assert (0 ≤ msum f (delete k m))%Z as Hd.
  { apply msum_nonneg. intros ?? [??]%lookup_delete_Some. by apply Hf. }
  rewrite (msum_delete f m k a) in Hd by done. lia.
Qed.
End Msum.

Lemma alter_as_insert `{Countable K} {A} (f : A → A) (m : gmap K A) i x :
  m !! i = Some x → alter f i m = <[i := f x]> m.
Proof.
  intros Hi. apply map_eq. intros j. rewrite lookup_alter, lookup_insert.
  case_decide; [subst; by rewrite Hi|done].
Qed.
