(* ===== verification/RadixKey.v ===== *)
(** * Radix keys

    [RadixKey] of [src/python/sglang/srt/mem_cache/radix_cache.py]: a view of a
    token sequence, with an optional cap ([limit]), an optional bigram reading
    and a namespace ([extra_key], [cache_salt]).  The file translates the
    methods and proves them against one reference: the list of logical units
    [RadixKey.iter]. *)

From stdpp Require Import base tactics numbers list gmap strings.
From Stdlib Require Import ZArith Lia ZifyNat.
From S2P Require Import Prelude.

(** A logical unit is what [__iter__] yields: a token, or a pair of adjacent
    tokens in bigram mode. *)
Inductive lunit :=
  | UTok (t : Z)
  | UPair (a b : Z).

Global Instance lunit_eq_dec : EqDecision lunit.
Proof. solve_decision. Defined.

Global Instance UTok_inj : Inj (=) (=) UTok.
Proof. by intros ?? [=]. Qed.
Global Instance UPair_inj : Inj (=) (=) (uncurry UPair).
Proof. intros [] [] [= -> ->]. done. Qed.

Record RadixKey := mkRadixKey {
  token_ids : list Z;
  extra_key : option string;
  cache_salt : option string;
  is_bigram : bool;
  limit : option nat;
}.

(** [__init__]: an empty salt is stored as [None] ([cache_salt or None]). *)
Definition radix_key (token_ids : list Z) (extra_key : option string)
    (is_bigram : bool) (limit : option nat) (cache_salt : option string) : RadixKey :=
  mkRadixKey token_ids extra_key
    (match cache_salt with Some "" => None | s => s end) is_bigram limit.

Definition raw_len (k : RadixKey) : nat :=
  let n := length (token_ids k) in
  match limit k with
  | Some l => if l <? n then l else n
  | None => n
  end.

Definition raw_token_ids (k : RadixKey) : list Z :=
  let n := raw_len k in
  let t := token_ids k in
  if n =? length t then t else take n t.

Definition klen (k : RadixKey) : nat :=
  let n := raw_len k in
  if is_bigram k then (if 0 <? n then n - 1 else 0) else n.

(** [__iter__]. *)
Definition iter (k : RadixKey) : list lunit :=
  let t := token_ids k in
  let n := raw_len k in
  if is_bigram k then
    take (if 0 <? n then n - 1 else 0) (zip_with UPair t (tail t))
  else if n =? length t then UTok <$> t
  else UTok <$> take n t.

(** [__getitem__]: an integer index is normalised to a one-element slice. *)
Inductive index :=
  | IInt (i : Z)
  | ISlice (start stop step : option Z).

Definition getitem (k : RadixKey) (idx : index) : res RadixKey :=
  let len := Z.of_nat (klen k) in
  let! idx := match idx with
              | IInt i =>
                  let i := if (i <? 0)%Z then (i + len)%Z else i in
                  if ((i <? 0) || (len <=? i))%Z then Raise IndexError
                  else Ok (Some i, Some (i + 1)%Z, None)
              | ISlice a b s => Ok (a, b, s)
              end in
  let '(start, stop, step) := idx in
  if decide (default 1%Z step = 1%Z) then
    let '(start, stop) := slice_indices len start stop in
    let start := Z.to_nat start in
    let stop := Z.to_nat stop in
    if is_bigram k then
      let raw := if start <? stop then pyslice (token_ids k) start (stop + 1) else [] in
      Ok (radix_key raw (extra_key k) true None (cache_salt k))
    else
      Ok (radix_key (pyslice (token_ids k) start stop) (extra_key k) false None (cache_salt k))
  else Raise ValueError.

(** [key[:n]] and [key[n:]], the two slices the tree takes. *)
Definition slice_to (k : RadixKey) (n : nat) : RadixKey :=
  match getitem k (ISlice None (Some (Z.of_nat n)) None) with Ok k' => k' | Raise _ => k end.
Definition slice_from (k : RadixKey) (n : nat) : RadixKey :=
  match getitem k (ISlice (Some (Z.of_nat n)) None None) with Ok k' => k' | Raise _ => k end.

Definition page_aligned (k : RadixKey) (page_size : nat) : RadixKey :=
  if page_size =? 1 then k
  else slice_to k (klen k / page_size * page_size).

Definition set_bigram (k : RadixKey) : RadixKey :=
  mkRadixKey (token_ids k) (extra_key k) (cache_salt k) true (limit k).

(** [maybe_to_bigram_view]; the in-place flip is the returned key. *)
Definition maybe_to_bigram_view {V} (k : RadixKey) (is_eagle : bool)
    (value : option (list V)) : RadixKey * option (list V) :=
  if is_eagle && negb (is_bigram k) then
    let k := set_bigram k in (k, (λ v, take (klen k) v) <$> value)
  else (k, value).

Definition check_compatible (self other : RadixKey) : res unit :=
  if negb (bool_decide (extra_key self = extra_key other)) then Raise ValueError
  else if negb (bool_decide (cache_salt self = cache_salt other)) then Raise ValueError
  else Ok tt.

(** The search of [match]: gallop in doubling windows, then bisect the window
    that holds the divergence. *)
Fixpoint bisect_window (fuel : nat) (t0 t1 : list Z) (lo hi : nat) : res nat :=
  match fuel with
  | 0 => Raise OutOfFuel
  | S fuel =>
      if 1 <? hi - lo then
        let mid := (lo + hi) / 2 in
        if bool_decide (pyslice t0 lo mid = pyslice t1 lo mid)
        then bisect_window fuel t0 t1 mid hi
        else bisect_window fuel t0 t1 lo mid
      else Ok lo
  end.

Fixpoint gallop (fuel : nat) (t0 t1 : list Z) (n lo step : nat) : res nat :=
  match fuel with
  | 0 => Raise OutOfFuel
  | S fuel =>
      if lo <? n then
        let hi := if lo + step <? n then lo + step else n in
        if negb (bool_decide (pyslice t0 lo hi = pyslice t1 lo hi))
        then bisect_window (S (hi - lo)) t0 t1 lo hi
        else gallop fuel t0 t1 n hi (step * 2)
      else Ok n
  end.

Definition match_ (self other : RadixKey) (page_size : nat) : res nat :=
  check_compatible self other ;;!
  let t0 := token_ids self in
  let t1 := token_ids other in
  let n := min (length t0) (length t1) in
  let! matched_tokens := gallop (S n) t0 t1 n 0 1 in
  if is_bigram self then
    let matched := min (min (matched_tokens - 1) (klen self)) (klen other) in
    Ok (if 1 <? page_size then matched / page_size * page_size else matched)
  else
    let matched_tokens := min (min matched_tokens (klen self)) (klen other) in
    if page_size =? 1 then Ok matched_tokens
    else Ok (matched_tokens / page_size * page_size).

(** [child_key]: the hashable dict key of the first page.  Python tuples of
    integers and of integer pairs are the constructors of [plain]. *)
Inductive plain :=
  | PInt (t : Z)
  | PTuple (l : list Z)
  | PPairs (l : list (Z * Z)).
Inductive ckey :=
  | CPlain (p : plain)
  | CExtra (e : string) (p : plain)
  | CSalted (e : option string) (s : string) (p : plain).

Definition child_plain (k : RadixKey) (page_size : nat) : res plain :=
  let t := token_ids k in
  if is_bigram k then
    if page_size =? 1 then
      match t with
      | a :: b :: _ => Ok (PTuple [a; b])
      | _ => Raise IndexError
      end
    else if (page_size =? 0) || (page_size <? length t)
         then Ok (PPairs (take page_size (zip t (tail t))))
         else Raise IndexError
  else
    if page_size =? 1 then
      match t with a :: _ => Ok (PInt a) | [] => Raise IndexError end
    else Ok (PTuple (take page_size t)).

Definition child_key (k : RadixKey) (page_size : nat) : res ckey :=
  let! plain := child_plain k page_size in
  Ok (match cache_salt k with
      | Some s => CSalted (extra_key k) s plain
      | None => match extra_key k with
                | None => CPlain plain
                | Some e => CExtra e plain
                end
      end).

(** ** Reference view: keys as lists of logical units *)

Definition namespace (k : RadixKey) : option string * option string :=
  (extra_key k, cache_salt k).

Lemma raw_len_le k : raw_len k ≤ length (token_ids k).
Proof. unfold raw_len. destruct (limit k) as [l|]; [|lia]. destruct (Nat.ltb_spec l (length (token_ids k))); lia. Qed.

Lemma iter_bigram k : is_bigram k = true →
  iter k = take (raw_len k - 1) (zip_with UPair (token_ids k) (tail (token_ids k))).
Proof.
  intros Hb. unfold iter. rewrite Hb.
  by destruct (Nat.ltb_spec 0 (raw_len k)), (raw_len k) eqn:?; try lia.
Qed.

Lemma iter_plain k : is_bigram k = false → iter k = UTok <$> take (raw_len k) (token_ids k).
Proof.
  intros Hb. unfold iter. rewrite Hb.
  destruct (Nat.eqb_spec (raw_len k) (length (token_ids k))) as [->|]; [|done].
  by rewrite firstn_all.
Qed.

Lemma klen_alt k : klen k = if is_bigram k then raw_len k - 1 else raw_len k.
Proof. unfold klen. destruct (is_bigram k); [|done]. destruct (Nat.ltb_spec 0 (raw_len k)); lia. Qed.

(** The length reported by [__len__] is the number of units iterated. *)
Lemma length_iter k : length (iter k) = klen k.
Proof.
  rewrite klen_alt. pose proof (raw_len_le k). destruct (is_bigram k) eqn:Hb.
  - rewrite iter_bigram, length_take, length_zip_tail by done. lia.
  - rewrite iter_plain, length_fmap, length_take by done. lia.
Qed.

Lemma bisect_window_spec fuel t0 t1 lo hi :
  lo ≤ lcp t0 t1 → lcp t0 t1 < hi → hi ≤ length t0 → hi ≤ length t1 →
  hi - lo < fuel → bisect_window fuel t0 t1 lo hi = Ok (lcp t0 t1).
Proof.
  revert lo hi. induction fuel as [|fuel IH]; intros lo hi Hlo Hhi H0 H1 Hf; [lia|]; simpl.
  destruct (Nat.ltb_spec 1 (hi - lo)); [|f_equal; lia].
  assert (lo < (lo + hi) / 2 < hi) as [??] by lia.
  case_bool_decide as Hd; rewrite (pyslice_eq_lcp t0 t1) in Hd by lia; apply IH; lia.
Qed.

Lemma gallop_spec fuel t0 t1 lo step :
  lo ≤ lcp t0 t1 → 1 ≤ step → min (length t0) (length t1) - lo < fuel →
  gallop fuel t0 t1 (min (length t0) (length t1)) lo step = Ok (lcp t0 t1).
Proof.
  pose proof (lcp_le_l t0 t1). pose proof (lcp_le_r t0 t1).
  revert lo step. induction fuel as [|fuel IH]; intros lo step Hlo Hs Hf; [lia|]; cbn [gallop].
  set (n := min _ _) in *.
  destruct (Nat.ltb_spec lo n); [|f_equal; lia].
  set (hi := if lo + step <? n then lo + step else n).
  assert (lo < hi ≤ n) by (subst hi; destruct (Nat.ltb_spec (lo + step) n); lia).
  case_bool_decide as Hd; rewrite (pyslice_eq_lcp t0 t1) in Hd by lia; cbn [negb].
  - apply IH; lia.
  - apply bisect_window_spec; lia.
Qed.

(** The two keys of a comparison read their tokens the same way and live in the
    same namespace. *)
Definition same_mode (k1 k2 : RadixKey) : Prop :=
  is_bigram k1 = is_bigram k2 ∧ namespace k1 = namespace k2.

Lemma check_compatible_ok k1 k2 : namespace k1 = namespace k2 → check_compatible k1 k2 = Ok tt.
Proof.
  unfold namespace, check_compatible. intros [= He Hs].
  by rewrite !bool_decide_true by done.
Qed.

Lemma lcp_iter k1 k2 : is_bigram k1 = is_bigram k2 →
  lcp (iter k1) (iter k2)
  = min (min (if is_bigram k1 then lcp (token_ids k1) (token_ids k2) - 1
              else lcp (token_ids k1) (token_ids k2)) (klen k1)) (klen k2).
Proof.
  intros Hb. rewrite !klen_alt, <-Hb. destruct (is_bigram k1) eqn:Hb1.
  - rewrite !iter_bigram, lcp_take, lcp_zip_tail by naive_solver. lia.
  - rewrite !iter_plain, lcp_fmap_inj, lcp_take by (done || intros ?? [=]; done). lia.
Qed.

(** [match] is total on compatible keys and computes the reference. *)
Lemma match_spec k1 k2 page_size : same_mode k1 k2 → 0 < page_size →
  match_ k1 k2 page_size = Ok (page_floor page_size (lcp (iter k1) (iter k2))).
Proof.
  intros [Hb Hn] Hp. unfold match_. rewrite check_compatible_ok by done. res_step.
  rewrite gallop_spec by lia. res_step. rewrite lcp_iter by done.
  destruct (is_bigram k1).
  - destruct (Nat.ltb_spec 1 page_size); [done|].
    by replace page_size with 1 by lia; rewrite page_floor_1.
  - destruct (Nat.eqb_spec page_size 1) as [->|]; [by rewrite page_floor_1|done].
Qed.

Lemma check_compatible_raise k1 k2 :
  namespace k1 ≠ namespace k2 → check_compatible k1 k2 = Raise ValueError.
Proof.
  unfold namespace, check_compatible. intros Hn.
  repeat (case_bool_decide; simpl; try done). congruence.
Qed.

(** *** Slices *)

(** Keys built by the constructor never hold the empty salt. *)
Definition salt_ok (k : RadixKey) : Prop := cache_salt k ≠ Some "".

Lemma radix_key_salt_ok t e b l s : salt_ok (radix_key t e b l s).
Proof. unfold salt_ok, radix_key. simpl. by destruct s as [[]|]. Qed.

Lemma radix_key_salt t e b l s : s ≠ Some "" → cache_salt (radix_key t e b l s) = s.
Proof. unfold radix_key. simpl. by destruct s as [[]|]. Qed.

Lemma slice_clip_nat len a : slice_clip (Z.of_nat len) (Z.of_nat a) = Z.of_nat (min a len).
Proof.
  unfold slice_clip. destruct (Z.ltb_spec (Z.of_nat a) 0); [lia|].
  destruct (Z.ltb_spec (Z.of_nat a) 0), (Z.ltb_spec (Z.of_nat len) (Z.of_nat a)); lia.
Qed.

Lemma slice_indices_spec len a b :
  slice_indices (Z.of_nat len) (Some (Z.of_nat a)) (Some (Z.of_nat b))
  = (Z.of_nat (min a len), Z.of_nat (min b len)).
Proof. unfold slice_indices. by rewrite !slice_clip_nat. Qed.

(** [key[a:b]] selects the units [a..b). *)
Lemma getitem_slice k a b : salt_ok k →
  ∃ k', getitem k (ISlice (Some (Z.of_nat a)) (Some (Z.of_nat b)) None) = Ok k'
    ∧ iter k' = pyslice (iter k) a b ∧ same_mode k' k ∧ limit k' = None ∧ salt_ok k'.
Proof.
  intros Hs. unfold getitem. cbn [res_bind default]. rewrite decide_True by done.
  rewrite slice_indices_spec, !Nat2Z.id.
  pose proof (raw_len_le k). pose proof (klen_alt k) as Hk. pose proof (length_iter k).
  destruct (is_bigram k) eqn:Hb; eexists; (split; [reflexivity|]); split_and!;
    try apply radix_key_salt_ok; try done;
    try (split; [done|]; unfold namespace; rewrite radix_key_salt by done; done).
  - rewrite iter_bigram by done. unfold raw_len; cbn [radix_key limit token_ids].
    rewrite (iter_bigram k) by done. unfold pyslice.
    destruct (Nat.ltb_spec (min a (klen k)) (min b (klen k))).
    + rewrite skipn_firstn_comm, take_take. unfold pyslice.
      replace (min b (klen k) + 1 - min a (klen k)) with (S (min b (klen k) - a)) by lia.
      rewrite <-take_tail_zip, length_take, length_drop, take_take, drop_tail_zip.
      f_equal; [lia|]. do 2 f_equal; f_equal; lia.
    + simpl. rewrite skipn_firstn_comm, take_take. symmetry. apply length_zero_iff_nil.
      rewrite length_take, length_drop, length_zip_tail. lia.
  - rewrite iter_plain by done. unfold raw_len; cbn [radix_key limit token_ids].
    rewrite firstn_all, (iter_plain k) by done. unfold pyslice.
    rewrite fmap_take, fmap_drop, fmap_take. rewrite skipn_firstn_comm, take_take.
    destruct (decide (a ≤ klen k)).
    + replace (min a (klen k)) with a by lia. f_equal. lia.
    + trans (@nil lunit); [|symmetry]; apply nil_length_inv;
        rewrite ?length_take, ?length_drop, ?length_fmap; lia.
Qed.

Lemma slice_to_spec k n : salt_ok k →
  iter (slice_to k n) = take n (iter k) ∧ same_mode (slice_to k n) k ∧ salt_ok (slice_to k n).
Proof.
  intros Hs. unfold slice_to.
  assert (getitem k (ISlice None (Some (Z.of_nat n)) None)
          = getitem k (ISlice (Some (Z.of_nat 0)) (Some (Z.of_nat n)) None)) as ->.
  { unfold getitem. res_step.
    replace (slice_indices (Z.of_nat (klen k)) None (Some (Z.of_nat n)))
      with (slice_indices (Z.of_nat (klen k)) (Some (Z.of_nat 0)) (Some (Z.of_nat n)));
      [done|]. unfold slice_indices. rewrite !slice_clip_nat. f_equal; lia. }
  destruct (getitem_slice k 0 n Hs) as (k'&->&->&?&_&?). by rewrite pyslice_0.
Qed.

Lemma slice_from_spec k n : salt_ok k →
  iter (slice_from k n) = drop n (iter k) ∧ same_mode (slice_from k n) k ∧ salt_ok (slice_from k n).
Proof.
  intros Hs. unfold slice_from.
  assert (getitem k (ISlice (Some (Z.of_nat n)) None None)
          = getitem k (ISlice (Some (Z.of_nat n)) (Some (Z.of_nat (klen k))) None)) as ->.
  { unfold getitem. res_step.
    replace (slice_indices (Z.of_nat (klen k)) (Some (Z.of_nat n)) None)
      with (slice_indices (Z.of_nat (klen k)) (Some (Z.of_nat n)) (Some (Z.of_nat (klen k))));
      [done|]. unfold slice_indices. rewrite !slice_clip_nat. f_equal; lia. }
  destruct (getitem_slice k n (klen k) Hs) as (k'&->&->&?&_&?).
  by rewrite pyslice_to_end by (rewrite length_iter; lia).
Qed.

Lemma page_aligned_spec k ps : salt_ok k → 0 < ps →
  iter (page_aligned k ps) = take (page_floor ps (klen k)) (iter k)
  ∧ same_mode (page_aligned k ps) k ∧ salt_ok (page_aligned k ps).
Proof.
  intros Hs Hp. unfold page_aligned. destruct (Nat.eqb_spec ps 1) as [->|].
  - rewrite page_floor_1, <-length_iter, firstn_all. by split_and!.
  - by apply slice_to_spec.
Qed.

(** *** Child keys *)

Global Instance plain_eq_dec : EqDecision plain.
Proof. solve_decision. Defined.
Global Instance ckey_eq_dec : EqDecision ckey.
Proof. solve_decision. Defined.
Global Instance plain_countable : Countable plain.
Proof.
  refine (inj_countable'
    (λ p, match p with PInt t => inl t | PTuple l => inr (inl l) | PPairs l => inr (inr l) end)
    (λ s, match s with inl t => PInt t | inr (inl l) => PTuple l | inr (inr l) => PPairs l end) _).
  by intros [].
Defined.
Global Instance ckey_countable : Countable ckey.
Proof.
  refine (inj_countable'
    (λ c, match c with
          | CPlain p => inl p | CExtra e p => inr (inl (e, p)) | CSalted e s p => inr (inr (e, s, p))
          end)
    (λ s, match s with
          | inl p => CPlain p | inr (inl (e, p)) => CExtra e p | inr (inr (e, s, p)) => CSalted e s p
          end) _).
  by intros [].
Defined.

Lemma child_plain_spec k ps : 0 < ps → ps ≤ klen k →
  ∃ p, child_plain k ps = Ok p ∧
    (ps = 1 → is_bigram k = false → ∃ a, p = PInt a ∧ take ps (iter k) = [UTok a]) ∧
    (ps = 1 → is_bigram k = true → ∃ a b, p = PTuple [a; b] ∧ take ps (iter k) = [UPair a b]) ∧
    (ps ≠ 1 → is_bigram k = false → ∃ l, p = PTuple l ∧ take ps (iter k) = UTok <$> l) ∧
    (ps ≠ 1 → is_bigram k = true → ∃ l, p = PPairs l ∧ take ps (iter k) = uncurry UPair <$> l).
Proof.
  intros Hp Hl. rewrite klen_alt in Hl. pose proof (raw_len_le k). unfold child_plain.
  destruct (is_bigram k) eqn:Hb, (Nat.eqb_spec ps 1) as [->|].
  - rewrite iter_bigram, take_take by done.
    destruct (token_ids k) as [|a [|b t]]; cbn [length] in *; try lia.
    replace (1 `min` (raw_len k - 1)) with 1 by lia. simpl.
    eexists; split_and!; [done|..]; intros; try done; by repeat eexists.
  - rewrite iter_bigram, take_take by done. rewrite (proj2 (Nat.eqb_neq ps 0)) by lia.
    rewrite (proj2 (Nat.ltb_lt ps (length (token_ids k)))) by lia. simpl.
    eexists; split_and!; [done|done|done|done|]. intros _ _. eexists; split; [done|].
    rewrite fmap_take. replace (ps `min` (raw_len k - 1)) with ps by lia. f_equal.
    apply zip_with_zip.
  - rewrite iter_plain, <-fmap_take, take_take by done.
    destruct (token_ids k) as [|a t]; cbn [length] in *; [lia|].
    replace (1 `min` raw_len k) with 1 by lia. simpl.
    eexists; split_and!; [done|..]; intros; try done; by repeat eexists.
  - rewrite iter_plain, <-fmap_take, take_take by done.
    replace (ps `min` raw_len k) with ps by lia.
    eexists; split_and!; [done|..]; intros; try done; by repeat eexists.
Qed.

Lemma child_key_Ok k ps : 0 < ps → ps ≤ klen k → ∃ c, child_key k ps = Ok c.
Proof.
  intros Hp Hl. destruct (child_plain_spec k ps Hp Hl) as (p&Hp'&_).
  unfold child_key. rewrite Hp'. by eexists.
Qed.

(** Two keys fall in the same dict slot exactly when they share the namespace
    and the first page. *)
Lemma child_key_inj k1 k2 ps :
  is_bigram k1 = is_bigram k2 → 0 < ps → ps ≤ klen k1 → ps ≤ klen k2 →
  child_key k1 ps = child_key k2 ps ↔
    namespace k1 = namespace k2 ∧ take ps (iter k1) = take ps (iter k2).
Proof.
  intros Hb Hp H1 H2.
  destruct (child_plain_spec k1 ps Hp H1) as (p1&E1&A1&B1&C1&D1).
  destruct (child_plain_spec k2 ps Hp H2) as (p2&E2&A2&B2&C2&D2).
  assert (p1 = p2 ↔ take ps (iter k1) = take ps (iter k2)) as Hpe.
  { destruct (decide (ps = 1)) as [Hps|Hps], (is_bigram k1) eqn:?; symmetry in Hb.
    - destruct (B1 Hps eq_refl) as (?&?&->&->), (B2 Hps Hb) as (?&?&->&->).
      split; by intros [= -> ->].
    - destruct (A1 Hps eq_refl) as (?&->&->), (A2 Hps Hb) as (?&->&->).
      split; by intros [= ->].
    - destruct (D1 Hps eq_refl) as (?&->&->), (D2 Hps Hb) as (?&->&->).
      split; [by intros [= ->]|]. by intros ->%(inj (fmap _)).
    - destruct (C1 Hps eq_refl) as (?&->&->), (C2 Hps Hb) as (?&->&->).
      split; [by intros [= ->]|]. by intros ->%(inj (fmap _)). }
  rewrite <-Hpe. unfold child_key, namespace. rewrite E1, E2. simpl.
  destruct (cache_salt k1), (cache_salt k2), (extra_key k1), (extra_key k2);
    split; [intros [=]; split; congruence| |..]; try (intros [[=] ->]; congruence);
    try (intros [=]; split; congruence).
Qed.
