(* ===== verification/TreeNode.v ===== *)
(** * Tree nodes and eviction strategies

    [TreeNode] of [src/python/sglang/srt/mem_cache/radix_cache.py] and the
    strategies of [src/python/sglang/srt/mem_cache/evict_policy.py].

    A node object is an entry of a store [gmap node_id node]: its identity is the
    value of the class counter at its creation ([TreeNode.id]), so references
    held by parents, children, requests and the evictable set are identifiers and
    aliasing is explicit.  Time stamps are readings of [time.monotonic]; the code
    only compares and negates them, and they are integers here. *)

From stdpp Require Import base tactics numbers list gmap strings.
From Stdlib Require Import ZArith Lia ZifyNat.
From S2P Require Import Prelude RadixKey.

Abbreviation node_id := nat.

Record TreeNode := mkNode {
  children : gmap ckey node_id;
  parent : option node_id;
  key : RadixKey;
  value : option (list Z);
  lock_ref : Z;
  last_access_time : Z;
  creation_time : Z;
  hit_count : Z;
  host_ref_counter : Z;
  host_value : option (list Z);
  hash_value : option (list string);
  event_hash_value : option (list string);
  priority : Z;
}.

Definition empty_key : RadixKey := radix_key [] None false None None.

(** [TreeNode.__init__]; [t0] and [t1] are its two clock readings.  The fields
    [key] and [value] are [None] until assigned; every caller assigns them
    before the node is used. *)
Definition new_TreeNode (prio t0 t1 : Z) : TreeNode :=
  {| children := ∅; parent := None; key := empty_key; value := None;
     lock_ref := 0; last_access_time := t0; creation_time := t1;
     hit_count := 0; host_ref_counter := 0; host_value := None;
     hash_value := None; event_hash_value := None; priority := prio |}.

Definition evicted (n : TreeNode) : bool := bool_decide (value n = None).
Definition backuped (n : TreeNode) : bool := negb (bool_decide (host_value n = None)).

(** Field assignments [node.f = x]. *)
Definition set_children (x : gmap ckey node_id) (n : TreeNode) : TreeNode :=
  mkNode x (parent n) (key n) (value n) (lock_ref n) (last_access_time n) (creation_time n) (hit_count n) (host_ref_counter n) (host_value n) (hash_value n) (event_hash_value n) (priority n).
Definition set_parent (x : option node_id) (n : TreeNode) : TreeNode :=
  mkNode (children n) x (key n) (value n) (lock_ref n) (last_access_time n) (creation_time n) (hit_count n) (host_ref_counter n) (host_value n) (hash_value n) (event_hash_value n) (priority n).
Definition set_key (x : RadixKey) (n : TreeNode) : TreeNode :=
  mkNode (children n) (parent n) x (value n) (lock_ref n) (last_access_time n) (creation_time n) (hit_count n) (host_ref_counter n) (host_value n) (hash_value n) (event_hash_value n) (priority n).
Definition set_value (x : option (list Z)) (n : TreeNode) : TreeNode :=
  mkNode (children n) (parent n) (key n) x (lock_ref n) (last_access_time n) (creation_time n) (hit_count n) (host_ref_counter n) (host_value n) (hash_value n) (event_hash_value n) (priority n).
Definition set_lock_ref (x : Z) (n : TreeNode) : TreeNode :=
  mkNode (children n) (parent n) (key n) (value n) x (last_access_time n) (creation_time n) (hit_count n) (host_ref_counter n) (host_value n) (hash_value n) (event_hash_value n) (priority n).
Definition set_last_access_time (x : Z) (n : TreeNode) : TreeNode :=
  mkNode (children n) (parent n) (key n) (value n) (lock_ref n) x (creation_time n) (hit_count n) (host_ref_counter n) (host_value n) (hash_value n) (event_hash_value n) (priority n).
Definition set_hit_count (x : Z) (n : TreeNode) : TreeNode :=
  mkNode (children n) (parent n) (key n) (value n) (lock_ref n) (last_access_time n) (creation_time n) x (host_ref_counter n) (host_value n) (hash_value n) (event_hash_value n) (priority n).
Definition set_host_ref_counter (x : Z) (n : TreeNode) : TreeNode :=
  mkNode (children n) (parent n) (key n) (value n) (lock_ref n) (last_access_time n) (creation_time n) (hit_count n) x (host_value n) (hash_value n) (event_hash_value n) (priority n).
Definition set_hash_value (x : option (list string)) (n : TreeNode) : TreeNode :=
  mkNode (children n) (parent n) (key n) (value n) (lock_ref n) (last_access_time n) (creation_time n) (hit_count n) (host_ref_counter n) (host_value n) x (event_hash_value n) (priority n).
Definition set_event_hash_value (x : option (list string)) (n : TreeNode) : TreeNode :=
  mkNode (children n) (parent n) (key n) (value n) (lock_ref n) (last_access_time n) (creation_time n) (hit_count n) (host_ref_counter n) (host_value n) (hash_value n) x (priority n).
Definition set_priority (x : Z) (n : TreeNode) : TreeNode :=
  mkNode (children n) (parent n) (key n) (value n) (lock_ref n) (last_access_time n) (creation_time n) (hit_count n) (host_ref_counter n) (host_value n) (hash_value n) (event_hash_value n) x.

Definition protect_host (n : TreeNode) : TreeNode :=
  set_host_ref_counter (host_ref_counter n + 1) n.

Definition release_host (n : TreeNode) : res TreeNode :=
  if (0 <? host_ref_counter n)%Z
  then Ok (set_host_ref_counter (host_ref_counter n - 1) n)
  else Raise RuntimeError.

Definition get_last_hash_value (n : TreeNode) : option string :=
  match hash_value n with
  | None => None
  | Some l => last l
  end.

(** [get_prefix_hash_values]: the hash chain from the root down to [node].  The
    recursion follows parent pointers; [fuel] bounds its depth. *)
Fixpoint get_prefix_hash_values (fuel : nat) (nodes : gmap node_id TreeNode)
    (node : option node_id) : res (list string) :=
  match fuel with
  | 0 => Raise OutOfFuel
  | S fuel =>
      match node with
      | None => Ok []
      | Some i =>
          let! n := res_of_option KeyError (nodes !! i) in
          match hash_value n with
          | None => Ok []
          | Some h =>
              let! pre := get_prefix_hash_values fuel nodes (parent n) in
              Ok (pre ++ h)
          end
      end
  end.

(** [__lt__]. *)
Definition node_lt (a b : TreeNode) : bool := (last_access_time a <? last_access_time b)%Z.

(** ** Eviction strategies

    A priority is a float or a tuple; tuples compare lexicographically, so both
    are lists here. *)
Inductive EvictionStrategy :=
  | LRUStrategy
  | LFUStrategy
  | FIFOStrategy
  | MRUStrategy
  | FILOStrategy
  | PriorityStrategy
  | SLRUStrategy (protected_threshold : Z).

Definition get_priority (s : EvictionStrategy) (n : TreeNode) : list Z :=
  match s with
  | LRUStrategy => [last_access_time n]
  | LFUStrategy => [hit_count n; last_access_time n]
  | FIFOStrategy => [creation_time n]
  | MRUStrategy => [- last_access_time n]%Z
  | FILOStrategy => [- creation_time n]%Z
  | PriorityStrategy => [priority n; last_access_time n]
  | SLRUStrategy t =>
      let is_protected := if (t <=? hit_count n)%Z then 1%Z else 0%Z in
      [is_protected; last_access_time n]
  end.

(** [get_eviction_strategy] after the factory table; [policy] is already lower
    case ([RadixCache.__init__] lowers it, and so does the function). *)
Definition get_eviction_strategy (policy : string) : res EvictionStrategy :=
  if decide (policy = "lru") then Ok LRUStrategy
  else if decide (policy = "lfu") then Ok LFUStrategy
  else if decide (policy = "fifo") then Ok FIFOStrategy
  else if decide (policy = "mru") then Ok MRUStrategy
  else if decide (policy = "filo") then Ok FILOStrategy
  else if decide (policy = "priority") then Ok PriorityStrategy
  else if decide (policy = "slru") then Ok (SLRUStrategy 2)
  else Raise ValueError.

(** Python's comparison of the heap entries [(priority, node)]: lexicographic on
    the priorities, then [node.__lt__]. *)
Fixpoint tuple_compare (a b : list Z) : comparison :=
  match a, b with
  | [], [] => Eq
  | [], _ => Lt
  | _, [] => Gt
  | x :: a, y :: b => match Z.compare x y with Eq => tuple_compare a b | c => c end
  end.

Definition entry_lt (e1 e2 : list Z * TreeNode) : bool :=
  match tuple_compare (fst e1) (fst e2) with
  | Lt => true
  | Gt => false
  | Eq => node_lt (snd e1) (snd e2)
  end.
