(* ===== verification/KvEvents.v ===== *)
(** * KV cache events

    [KVCacheEventRecorder] of [src/python/sglang/srt/mem_cache/events.py] with the
    event records of [disaggregation/kv_events.py] and the hash helpers of
    [mem_cache/utils.py].  Block hashes chain along the tree; consecutive events
    are coalesced in the queue.  The native SHA256 routines are parameters. *)

From stdpp Require Import base tactics numbers list gmap strings.
From Stdlib Require Import ZArith Lia ZifyNat Ascii.
From S2P Require Import Prelude RadixKey TreeNode.

Inductive StorageMedium := GPU | CPU | DISK | EXTERNAL.
Global Instance StorageMedium_eq_dec : EqDecision StorageMedium.
Proof. solve_decision. Defined.

(** [BlockStored]; [metadata] is present for [BlockStoredWithMetadata]. *)
Record BlockStored := mkStored {
  block_hashes : list Z;
  parent_block_hash : option Z;
  ev_token_ids : list lunit;
  block_size : nat;
  lora_id : option Z;
  medium : option StorageMedium;
  metadata : option string;
}.

Inductive KVCacheEvent :=
  | EvStored (b : BlockStored)
  | EvRemoved (hashes : list Z) (m : option StorageMedium)
  | EvAllCleared.

Record KVCacheEventRecorder := mkRecorder {
  enabled : bool;
  rec_page_size : nat;
  queue : list KVCacheEvent;
}.

Definition set_queue (q : list KVCacheEvent) (r : KVCacheEventRecorder) : KVCacheEventRecorder :=
  mkRecorder (enabled r) (rec_page_size r) q.

(** The coalescing step of [enqueue] against the queue tail. *)
Definition coalesce (tail event : KVCacheEvent) : option KVCacheEvent :=
  match tail, event with
  | EvRemoved h1 m1, EvRemoved h2 m2 =>
      if decide (m1 = m2) then Some (EvRemoved (h1 ++ h2) m1) else None
  | EvStored t, EvStored e =>
      if bool_decide (medium t = medium e) && bool_decide (lora_id t = lora_id e)
         && bool_decide (block_size t = block_size e)
         && bool_decide (metadata t = metadata e)
         && bool_decide (block_hashes t ≠ [])
         && bool_decide (parent_block_hash e = last (block_hashes t))
      then Some (EvStored (mkStored (block_hashes t ++ block_hashes e) (parent_block_hash t)
                   (ev_token_ids t ++ ev_token_ids e) (block_size t) (lora_id t)
                   (medium t) (metadata t)))
      else None
  | _, _ => None
  end.

Definition enqueue (event : KVCacheEvent) (r : KVCacheEventRecorder) : KVCacheEventRecorder :=
  match last (queue r) with
  | Some tail =>
      match coalesce tail event with
      | Some tail' => set_queue (take (length (queue r) - 1) (queue r) ++ [tail']) r
      | None => set_queue (queue r ++ [event]) r
      end
  | None => set_queue (queue r ++ [event]) r
  end.

Definition record_all_cleared (r : KVCacheEventRecorder) : KVCacheEventRecorder :=
  if negb (enabled r) then r else enqueue EvAllCleared r.

Definition take_events (r : KVCacheEventRecorder) : list KVCacheEvent * KVCacheEventRecorder :=
  if negb (enabled r) then ([], r) else (queue r, set_queue [] r).

(** [hash_str_to_int64]: the first 16 hex digits as a signed 64-bit integer. *)
Definition hex_digit (c : ascii) : option Z :=
  let n := Z.of_nat (nat_of_ascii c) in
  if ((48 <=? n) && (n <=? 57))%Z then Some (n - 48)%Z
  else if ((97 <=? n) && (n <=? 102))%Z then Some (n - 87)%Z
  else if ((65 <=? n) && (n <=? 70))%Z then Some (n - 55)%Z
  else None.

Fixpoint parse_hex (acc : Z) (l : list ascii) : res Z :=
  match l with
  | [] => Ok acc
  | c :: l => match hex_digit c with
              | Some d => parse_hex (acc * 16 + d)%Z l
              | None => Raise ValueError
              end
  end.

Definition hash_str_to_int64 (hash_str : string) : res Z :=
  let digits := take 16 (String.list_ascii_of_string hash_str) in
  let! uint64_val := match digits with [] => Raise ValueError | _ => parse_hex 0 digits end in
  if (2 ^ 63 <=? uint64_val)%Z then Ok (uint64_val - 2 ^ 64)%Z else Ok uint64_val.

(** [range(0, len, page_size)]. *)
Definition page_starts (len page_size : nat) : list nat :=
  (λ i, i * page_size) <$> seq 0 ((len + page_size - 1) / page_size).

Section Hashing.
(** [get_native_hash(key, prior, page_size)]: one digest per page. *)
Context (native_hash : RadixKey → option string → nat → list string).
(** The hex digest that seeds the chain of a salted namespace. *)
Context (salt_digest : string → string).

Definition get_hash_str (k : RadixKey) (prior_hash : option string) (page_size : nat) : list string :=
  native_hash k (match prior_hash with Some "" => None | p => p end) page_size.

Definition compute_node_hash_values (nodes : gmap node_id TreeNode) (n : TreeNode)
    (page_size : nat) : res (list string) :=
  let! parent_hash :=
    match parent n with
    | None => Ok None
    | Some p =>
        let! pn := res_of_option KeyError (nodes !! p) in
        match hash_value pn with
        | None => Ok None
        | Some h => Ok (if (0 <? klen (key pn)) && (0 <? length h) then last h else None)
        end
    end in
  Ok (get_hash_str (key n) parent_hash page_size).

(** The walk of [compute_node_event_hash_values] up to the first ancestor that
    already has event hashes; returns the nodes passed, nearest first, and the
    node (or end of chain) where it stopped. *)
Fixpoint missing_nodes (fuel : nat) (nodes : gmap node_id TreeNode) (salt : string)
    (current : option node_id) : res (list node_id * option node_id) :=
  match fuel with
  | 0 => Raise OutOfFuel
  | S fuel =>
      match current with
      | None => Ok ([], None)
      | Some c =>
          let! cn := res_of_option KeyError (nodes !! c) in
          if (0 <? klen (key cn)) && bool_decide (event_hash_value cn = None) then
            if negb (bool_decide (cache_salt (key cn) = Some salt)) then Raise ValueError
            else let! rest := missing_nodes fuel nodes salt (parent cn) in
                 Ok (c :: rest.1, rest.2)
          else Ok ([], Some c)
      end
  end.

Fixpoint fill_event_hashes (nodes : gmap node_id TreeNode) (parent_hash : string)
    (missing : list node_id) (page_size : nat) : res (gmap node_id TreeNode) :=
  match missing with
  | [] => Ok nodes
  | c :: missing =>
      let! cn := res_of_option KeyError (nodes !! c) in
      let hash_values := get_hash_str (key cn) (Some parent_hash) page_size in
      fill_event_hashes (<[c := set_event_hash_value (Some hash_values) cn]> nodes)
        (match last hash_values with Some h => h | None => parent_hash end) missing page_size
  end.

Definition compute_node_event_hash_values (nodes : gmap node_id TreeNode) (i : node_id)
    (page_size : nat) : res (gmap node_id TreeNode * list string) :=
  let! n := res_of_option KeyError (nodes !! i) in
  match cache_salt (key n) with
  | None => let! h := compute_node_hash_values nodes n page_size in Ok (nodes, h)
  | Some salt =>
      match event_hash_value n with
      | Some h => Ok (nodes, h)
      | None =>
          let! (missing, stop) := missing_nodes (S (size nodes)) nodes salt (Some i) in
          let! parent_hash :=
            match stop with
            | None => Ok (salt_digest salt)
            | Some c =>
                let! cn := res_of_option KeyError (nodes !! c) in
                if (0 <? klen (key cn)) && negb (bool_decide (cache_salt (key cn) = Some salt))
                then Raise ValueError
                else match event_hash_value cn with
                     | Some h => Ok (default (salt_digest salt) (last h))
                     | None => Ok (salt_digest salt)
                     end
            end in
          let! nodes := fill_event_hashes nodes parent_hash (reverse missing) page_size in
          let! n := res_of_option KeyError (nodes !! i) in
          let! h := res_of_option AssertionError (event_hash_value n) in
          Ok (nodes, h)
      end
  end.

Definition node_event_hash_values (nodes : gmap node_id TreeNode) (i : node_id)
    (page_size : nat) : res (gmap node_id TreeNode * list string) :=
  let! n := res_of_option KeyError (nodes !! i) in
  let! nodes :=
    match hash_value n with
    | Some _ => Ok nodes
    | None => let! h := compute_node_hash_values nodes n page_size in
              Ok (<[i := set_hash_value (Some h) n]> nodes)
    end in
  let! n := res_of_option KeyError (nodes !! i) in
  match cache_salt (key n) with
  | Some _ => compute_node_event_hash_values nodes i page_size
  | None => Ok (nodes, default [] (hash_value n))
  end.

Definition parent_block_hash_of (nodes : gmap node_id TreeNode) (n : TreeNode) : res (option Z) :=
  match parent n with
  | None => Ok None
  | Some p =>
      let! pn := res_of_option KeyError (nodes !! p) in
      match parent pn with
      | None => Ok None
      | Some _ =>
          let! hs :=
            match cache_salt (key n) with
            | Some _ => let! h := res_of_option AssertionError (event_hash_value pn) in Ok (Some h)
            | None => Ok (hash_value pn)
            end in
          match last (default [] hs) with
          | None => Ok None
          | Some h => let! z := hash_str_to_int64 h in Ok (Some z)
          end
      end
  end.

(** The units of one page as the event exposes them. *)
Definition page_tokens (k : RadixKey) (start end_ : nat) : list lunit :=
  let raw := token_ids k in
  if is_bigram k then pyslice (zip_with UPair raw (tail raw)) start end_
  else UTok <$> pyslice raw start end_.

(** The loop of [record_store] over the page starts. *)
Fixpoint store_pages (k : RadixKey) (m : StorageMedium) (hashes : list string) (page_size : nat)
    (page_index : nat) (starts : list nat) (parent_hash : option Z)
    (r : KVCacheEventRecorder) : res KVCacheEventRecorder :=
  match starts with
  | [] => Ok r
  | start :: starts =>
      let end_ := min (start + page_size) (klen k) in
      if end_ <=? start then store_pages k m hashes page_size page_index starts parent_hash r
      else
        let page := page_tokens k start end_ in
        let! h := res_of_option IndexError (hashes !! page_index) in
        let! block_hash := hash_str_to_int64 h in
        let ev := EvStored (mkStored [block_hash] parent_hash page (length page) None
                              (Some m) (cache_salt k)) in
        store_pages k m hashes page_size (S page_index) starts (Some block_hash) (enqueue ev r)
  end.

Definition record_store (nodes : gmap node_id TreeNode) (i : node_id) (m : option StorageMedium)
    (r : KVCacheEventRecorder) : res (gmap node_id TreeNode * KVCacheEventRecorder) :=
  if negb (enabled r) then Ok (nodes, r)
  else
    let m := default GPU m in
    let! (nodes, hashes) := node_event_hash_values nodes i (rec_page_size r) in
    let! n := res_of_option KeyError (nodes !! i) in
    let! parent_hash := parent_block_hash_of nodes n in
    let! r := store_pages (key n) m hashes (rec_page_size r) 0
                (page_starts (klen (key n)) (rec_page_size r)) parent_hash r in
    Ok (nodes, r).

Fixpoint remove_hashes (len page_size : nat) (hashes : list string) (page_index : nat)
    (starts : list nat) : res (list Z) :=
  match starts with
  | [] => Ok []
  | start :: starts =>
      let end_ := min (start + page_size) len in
      if end_ <=? start then remove_hashes len page_size hashes page_index starts
      else
        let! h := res_of_option IndexError (hashes !! page_index) in
        let! block_hash := hash_str_to_int64 h in
        let! rest := remove_hashes len page_size hashes (S page_index) starts in
        Ok (block_hash :: rest)
  end.

(** [i] is the removed node, already detached from its parent's dict but still
    an object, so the store it is read from holds it. *)
Definition record_remove (nodes : gmap node_id TreeNode) (i : node_id) (m : option StorageMedium)
    (r : KVCacheEventRecorder) : res (gmap node_id TreeNode * KVCacheEventRecorder) :=
  if negb (enabled r) then Ok (nodes, r)
  else
    let m := default GPU m in
    let! (nodes, hashes) := node_event_hash_values nodes i (rec_page_size r) in
    let! n := res_of_option KeyError (nodes !! i) in
    let! hs := remove_hashes (klen (key n)) (rec_page_size r) hashes 0
                 (page_starts (klen (key n)) (rec_page_size r)) in
    Ok (nodes, match hs with [] => r | _ => enqueue (EvRemoved hs (Some m)) r end).
End Hashing.
