(* ===== verification/EventQueue.v ===== *)
(** * The event queue: coalescing is invisible

    A KV event batch is read block by block: [event_ops] lists what each event
    says, one operation per block, with the parent each block links to.  The
    recorder merges events in its queue; here this is shown to leave the sequence
    of block operations unchanged, and the page loops of [record_store] and
    [record_remove] are shown to emit one operation per page, linked in order. *)

From stdpp Require Import base tactics numbers list gmap strings.
From Stdlib Require Import ZArith Lia ZifyNat.
From S2P Require Import Prelude RadixKey TreeNode KvEvents.

(** What a consumer applies, one block at a time. *)
Inductive block_op :=
  | OpStore (parent : option Z) (hash : Z) (tokens : list lunit) (lora : option Z)
            (m : option StorageMedium) (meta : option string)
  | OpRemove (hash : Z) (m : option StorageMedium)
  | OpClear.

Fixpoint stored_ops (parent : option Z) (hashes : list Z) (tokens : list lunit) (bs : nat)
    (lora : option Z) (m : option StorageMedium) (meta : option string) : list block_op :=
  match hashes with
  | [] => []
  | h :: hashes =>
      OpStore parent h (take bs tokens) lora m meta
        :: stored_ops (Some h) hashes (drop bs tokens) bs lora m meta
  end.

Definition event_ops (e : KVCacheEvent) : list block_op :=
  match e with
  | EvStored b => stored_ops (parent_block_hash b) (block_hashes b) (ev_token_ids b)
                    (block_size b) (lora_id b) (medium b) (metadata b)
  | EvRemoved hs m => (λ h, OpRemove h m) <$> hs
  | EvAllCleared => [OpClear]
  end.

Definition queue_ops (q : list KVCacheEvent) : list block_op := q ≫= event_ops.

(** A stored event carries a full block of tokens per hash. *)
Definition event_wf (e : KVCacheEvent) : Prop :=
  match e with
  | EvStored b => length (ev_token_ids b) = length (block_hashes b) * block_size b
  | _ => True
  end.

Definition recorder_wf (r : KVCacheEventRecorder) : Prop := Forall event_wf (queue r).

Lemma stored_ops_app parent hs1 hs2 tk1 tk2 bs lora m meta :
  length tk1 = length hs1 * bs → hs1 ≠ [] →
  stored_ops parent (hs1 ++ hs2) (tk1 ++ tk2) bs lora m meta
  = stored_ops parent hs1 tk1 bs lora m meta ++ stored_ops (last hs1) hs2 tk2 bs lora m meta.
Proof.
  revert parent tk1. induction hs1 as [|h hs1 IH]; intros parent tk1 Hl Hne; [done|].
  cbn [stored_ops app length] in *. f_equal.
  - f_equal. rewrite take_app_le by lia. done.
  - rewrite drop_app_le by lia. destruct hs1 as [|h' hs1].
    + cbn [app length last stored_ops] in *. rewrite drop_ge by lia. done.
    + rewrite last_cons_cons. apply IH; [|done]. rewrite length_drop. lia.
Qed.

Lemma coalesce_ops t e t' : event_wf t → event_wf e → coalesce t e = Some t' →
  event_ops t' = event_ops t ++ event_ops e ∧ event_wf t'.
Proof.
  intros Ht He. destruct t as [t|h1 m1|], e as [e|h2 m2|]; simpl; try done.
  - intros Hc. repeat (case_bool_decide; simpl in Hc; try done). injection Hc as <-.
    simpl in *. split.
    + rewrite stored_ops_app by done. congruence.
    + rewrite !length_app, Ht, He, <-H1. lia.
  - intros Hc. case_decide; [|done]. injection Hc as <-. subst. simpl. by rewrite fmap_app.
Qed.

Lemma enqueue_spec e r : recorder_wf r → event_wf e →
  queue_ops (queue (enqueue e r)) = queue_ops (queue r) ++ event_ops e
  ∧ recorder_wf (enqueue e r) ∧ enabled (enqueue e r) = enabled r
  ∧ rec_page_size (enqueue e r) = rec_page_size r.
Proof.
  unfold recorder_wf, enqueue, queue_ops. intros Hr He.
  assert (queue_ops (queue r ++ [e]) = queue_ops (queue r) ++ event_ops e) as Happ.
  { unfold queue_ops. rewrite bind_app. simpl. by rewrite app_nil_r. }
  assert (Forall event_wf (queue r ++ [e])) as Hwf by (apply Forall_app; auto).
  destruct (last (queue r)) as [t|] eqn:Hl; [|done].
  destruct (coalesce t e) as [t'|] eqn:Hc; [|done].
  apply last_Some in Hl as [q Hq]. simpl. rewrite Hq in Hr |- *.
  apply Forall_app in Hr as [Hr [Ht _]%Forall_cons].
  destruct (coalesce_ops t e t' Ht He Hc) as [Ho Hw].
  rewrite length_app, Nat.add_sub, take_app_length, !bind_app.
  cbn [mbind list_bind]. rewrite !app_nil_r, Ho, app_assoc.
  split_and!; [done| |done..]. apply Forall_app. auto.
Qed.

(** ** The page loops *)

Lemma page_tokens_spec k a b : b ≤ klen k → page_tokens k a b = pyslice (iter k) a b.
Proof.
  intros Hb. pose proof (klen_alt k) as Hk. unfold page_tokens. destruct (is_bigram k) eqn:E.
  - unfold iter. rewrite E. fold (klen k). unfold klen in Hb. rewrite E in Hb.
    unfold pyslice. rewrite skipn_firstn_comm, take_take. f_equal. lia.
  - unfold iter. rewrite E. unfold klen in Hb. rewrite E in Hb.
    unfold pyslice. destruct (Nat.eqb_spec (raw_len k) (length (token_ids k))).
    + by rewrite fmap_take, fmap_drop.
    + rewrite <-fmap_drop, <-fmap_take, skipn_firstn_comm, take_take. do 2 f_equal. lia.
Qed.

(** The operations of storing the pages of [k] from page [j] on. *)
Fixpoint page_ops (k : RadixKey) (m : StorageMedium) (ps j : nat) (parent : option Z)
    (hashes : list Z) : list block_op :=
  match hashes with
  | [] => []
  | h :: hashes =>
      OpStore parent h (pyslice (iter k) (j * ps) (j * ps + ps)) None (Some m) (cache_salt k)
        :: page_ops k m ps (S j) (Some h) hashes
  end.

Lemma page_starts_aligned n ps : 0 < ps → page_starts (n * ps) ps = (λ i, i * ps) <$> seq 0 n.
Proof.
  intros Hps. unfold page_starts. do 2 f_equal. symmetry.
  apply (Nat.div_unique _ _ _ (ps - 1)); lia.
Qed.

Lemma store_pages_spec k m ps hs hz n j parent r :
  0 < ps → klen k = (j + n) * ps → length hs = j + n → recorder_wf r →
  Forall2 (λ h z, hash_str_to_int64 h = Ok z) (drop j hs) hz →
  ∃ r', store_pages k m hs ps j ((λ i, i * ps) <$> seq j n) parent r = Ok r'
    ∧ queue_ops (queue r') = queue_ops (queue r) ++ page_ops k m ps j parent hz
    ∧ recorder_wf r' ∧ enabled r' = enabled r ∧ rec_page_size r' = rec_page_size r.
Proof.
  intros Hps. revert j hz parent r. induction n as [|n IH]; intros j hz parent r Hk Hl Hr Hz; cbn [seq fmap list_fmap store_pages].
  - rewrite drop_ge in Hz by lia. apply Forall2_nil_inv_l in Hz as ->.
    exists r. rewrite app_nil_r. done.
  - replace (min (j * ps + ps) (klen k)) with (j * ps + ps) by nia.
    destruct (Nat.leb_spec (j * ps + ps) (j * ps)); [lia|].
    destruct (lookup_lt_is_Some_2 hs j) as [h Hh]; [lia|].
    rewrite (drop_S hs h j Hh) in Hz. apply Forall2_cons_inv_l in Hz as (z&hz'&Hz&Hrest&->).
    rewrite Hh. res_step. rewrite Hz. res_step.
    rewrite page_tokens_spec by nia.
    set (page := pyslice _ _ _). set (ev := EvStored _).
    assert (length page = ps) as Hpl by (unfold page; rewrite length_pyslice, length_iter; nia).
    destruct (enqueue_spec ev r Hr) as (Ho&Hw&He&Hp).
    { simpl. lia. }
    destruct (IH (S j) hz' (Some z) (enqueue ev r)) as (r'&Hs&Hq&?&?&?); [nia|lia|done..|].
    exists r'. split; [done|]. split_and!; [|done|congruence..].
    rewrite Hq, Ho, <-app_assoc. do 2 f_equal. simpl. by rewrite take_ge by lia.
Qed.

Lemma remove_hashes_spec ps hs hz n j len :
  0 < ps → len = (j + n) * ps → length hs = j + n →
  Forall2 (λ h z, hash_str_to_int64 h = Ok z) (drop j hs) hz →
  remove_hashes len ps hs j ((λ i, i * ps) <$> seq j n) = Ok hz.
Proof.
  intros Hps. revert j hz. induction n as [|n IH]; intros j hz Hk Hl Hz; cbn [seq fmap list_fmap remove_hashes].
  - rewrite drop_ge in Hz by lia. by apply Forall2_nil_inv_l in Hz as ->.
  - replace (min (j * ps + ps) len) with (j * ps + ps) by nia.
    destruct (Nat.leb_spec (j * ps + ps) (j * ps)); [lia|].
    destruct (lookup_lt_is_Some_2 hs j) as [h Hh]; [lia|].
    rewrite (drop_S hs h j Hh) in Hz. apply Forall2_cons_inv_l in Hz as (z&hz'&Hz&Hrest&->).
    rewrite Hh. res_step. rewrite Hz. res_step.
    by rewrite (IH (S j) hz') by (done || nia || lia).
Qed.
