(* ===== verification/RadixCache.v ===== *)
(** * The radix cache

    [RadixCache] of [src/python/sglang/srt/mem_cache/radix_cache.py]: the prefix
    tree that maps token prefixes to KV slots.  The state is the node store with
    the cache's counters; every method is one definition, with all its effects:
    time stamps, priorities, hit counts, the evictable set, the size counters,
    the KV events and the calls to the KV allocator. *)

From stdpp Require Import base tactics numbers list gmap strings.
From Stdlib Require Import ZArith Lia ZifyNat.
From S2P Require Import Prelude RadixKey TreeNode KvEvents.

(** What the cache calls of the KV allocator ([BaseTokenToKVPoolAllocator]). *)
Class KvAllocator (A : Type) := {
  free_segment : A → list Z → nat → A;
  free_segments : A → list (list Z * nat) → A;
}.

(** The fields of [RadixCache].  [counter] is the class attribute
    [TreeNode.counter] and [reads] counts the readings of [time.monotonic]. *)
Record RadixCache (A : Type) := mkCache {
  disable : bool;
  page_size : nat;
  is_eagle : bool;
  disable_finished_insert : bool;
  eviction_strategy : EvictionStrategy;
  nodes : gmap node_id TreeNode;
  root_node : node_id;
  counter : node_id;
  reads : nat;
  evictable_size_ : Z;
  protected_size_ : Z;
  evictable_leaves : gset node_id;
  kv_events : KVCacheEventRecorder;
  allocator : A;
}.
Global Arguments mkCache {_} _ _ _ _ _ _ _ _ _ _ _ _ _ _ : assert.
Global Arguments disable {_} _ : assert.
Global Arguments page_size {_} _ : assert.
Global Arguments is_eagle {_} _ : assert.
Global Arguments disable_finished_insert {_} _ : assert.
Global Arguments eviction_strategy {_} _ : assert.
Global Arguments nodes {_} _ : assert.
Global Arguments root_node {_} _ : assert.
Global Arguments counter {_} _ : assert.
Global Arguments reads {_} _ : assert.
Global Arguments evictable_size_ {_} _ : assert.
Global Arguments protected_size_ {_} _ : assert.
Global Arguments evictable_leaves {_} _ : assert.
Global Arguments kv_events {_} _ : assert.
Global Arguments allocator {_} _ : assert.

Definition set_nodes {A} (x : gmap node_id TreeNode) (c : RadixCache A) : RadixCache A :=
  mkCache (disable c) (page_size c) (is_eagle c) (disable_finished_insert c) (eviction_strategy c) x (root_node c) (counter c) (reads c) (evictable_size_ c) (protected_size_ c) (evictable_leaves c) (kv_events c) (allocator c).
Definition set_root_node {A} (x : node_id) (c : RadixCache A) : RadixCache A :=
  mkCache (disable c) (page_size c) (is_eagle c) (disable_finished_insert c) (eviction_strategy c) (nodes c) x (counter c) (reads c) (evictable_size_ c) (protected_size_ c) (evictable_leaves c) (kv_events c) (allocator c).
Definition set_counter {A} (x : node_id) (c : RadixCache A) : RadixCache A :=
  mkCache (disable c) (page_size c) (is_eagle c) (disable_finished_insert c) (eviction_strategy c) (nodes c) (root_node c) x (reads c) (evictable_size_ c) (protected_size_ c) (evictable_leaves c) (kv_events c) (allocator c).
Definition set_reads {A} (x : nat) (c : RadixCache A) : RadixCache A :=
  mkCache (disable c) (page_size c) (is_eagle c) (disable_finished_insert c) (eviction_strategy c) (nodes c) (root_node c) (counter c) x (evictable_size_ c) (protected_size_ c) (evictable_leaves c) (kv_events c) (allocator c).
Definition set_evictable_size_ {A} (x : Z) (c : RadixCache A) : RadixCache A :=
  mkCache (disable c) (page_size c) (is_eagle c) (disable_finished_insert c) (eviction_strategy c) (nodes c) (root_node c) (counter c) (reads c) x (protected_size_ c) (evictable_leaves c) (kv_events c) (allocator c).
Definition set_protected_size_ {A} (x : Z) (c : RadixCache A) : RadixCache A :=
  mkCache (disable c) (page_size c) (is_eagle c) (disable_finished_insert c) (eviction_strategy c) (nodes c) (root_node c) (counter c) (reads c) (evictable_size_ c) x (evictable_leaves c) (kv_events c) (allocator c).
Definition set_evictable_leaves {A} (x : gset node_id) (c : RadixCache A) : RadixCache A :=
  mkCache (disable c) (page_size c) (is_eagle c) (disable_finished_insert c) (eviction_strategy c) (nodes c) (root_node c) (counter c) (reads c) (evictable_size_ c) (protected_size_ c) x (kv_events c) (allocator c).
Definition set_kv_events {A} (x : KVCacheEventRecorder) (c : RadixCache A) : RadixCache A :=
  mkCache (disable c) (page_size c) (is_eagle c) (disable_finished_insert c) (eviction_strategy c) (nodes c) (root_node c) (counter c) (reads c) (evictable_size_ c) (protected_size_ c) (evictable_leaves c) x (allocator c).
Definition set_allocator {A} (x : A) (c : RadixCache A) : RadixCache A :=
  mkCache (disable c) (page_size c) (is_eagle c) (disable_finished_insert c) (eviction_strategy c) (nodes c) (root_node c) (counter c) (reads c) (evictable_size_ c) (protected_size_ c) (evictable_leaves c) (kv_events c) x.

Record MatchResult := mkMatchResult {
  device_indices : list Z;
  last_device_node : node_id;
  last_host_node : node_id;
  best_match_node : node_id;
}.

(** [split_node_hash_value]. *)
Definition split_node_hash_value (child_hash_value : option (list string))
    (split_len page_size : nat) : option (list string) * option (list string) :=
  match child_hash_value with
  | None => (None, None)
  | Some h =>
      let split_pages := if page_size =? 1 then split_len else split_len / page_size in
      (Some (take split_pages h), Some (drop split_pages h))
  end.

Section Ops.
Context {A : Type} `{!KvAllocator A}.
(** The readings of [time.monotonic], in order. *)
Context (monotonic : nat → Z).
Context (native_hash : RadixKey → option string → nat → list string).
Context (salt_digest : string → string).
Implicit Types c : RadixCache A.

Definition get_node c (i : node_id) : res TreeNode := res_of_option KeyError (nodes c !! i).
Definition upd_node (i : node_id) (f : TreeNode → TreeNode) c : RadixCache A :=
  set_nodes (alter f i (nodes c)) c.

Definition now c : Z * RadixCache A := (monotonic (reads c), set_reads (S (reads c)) c).

(** [TreeNode(priority)]: a fresh identifier and two clock readings. *)
Definition alloc_node (prio : Z) c : node_id * RadixCache A :=
  let '(t0, c) := now c in
  let '(t1, c) := now c in
  let i := counter c in
  (i, set_nodes (<[i := new_TreeNode prio t0 t1]> (nodes c)) (set_counter (S i) c)).

(** [reset] also builds the cached empty match result, [empty_match_result]. *)
Definition maxsize : Z := (2 ^ 63 - 1)%Z.
Definition reset c : RadixCache A :=
  let c := set_nodes ∅ c in
  let '(root, c) := alloc_node (- maxsize)%Z c in
  let c := set_root_node root c in
  let c := upd_node root (set_key (radix_key [] None false None None)) c in
  let c := upd_node root (set_value (Some [])) c in
  let c := upd_node root (λ n, mkNode (children n) (parent n) (key n) (value n) (lock_ref n)
              (last_access_time n) (creation_time n) (hit_count n) (host_ref_counter n)
              (Some []) (hash_value n) (event_hash_value n) (TreeNode.priority n)) c in
  let c := upd_node root (set_lock_ref 1) c in
  let c := upd_node root (set_hash_value (Some [])) c in
  let c := set_evictable_size_ 0 c in
  let c := set_protected_size_ 0 c in
  let c := set_evictable_leaves ∅ c in
  set_kv_events (record_all_cleared (kv_events c)) c.

Definition empty_match_result c : MatchResult :=
  mkMatchResult [] (root_node c) (root_node c) (root_node c).

Definition update_leaf_status (i : node_id) c : res (RadixCache A) :=
  let! n := get_node c i in
  if evicted n || (0 <? lock_ref n)%Z then
    Ok (set_evictable_leaves (evictable_leaves c ∖ {[i]}) c)
  else
    let! live := (fix any (l : list (ckey * node_id)) : res bool :=
      match l with
      | [] => Ok false
      | (_, ch) :: l =>
          let! cn := get_node c ch in
          if negb (evicted cn) then Ok true else any l
      end) (map_to_list (children n)) in
    if (live : bool) then Ok (set_evictable_leaves (evictable_leaves c ∖ {[i]}) c)
    else Ok (set_evictable_leaves (evictable_leaves c ∪ {[i]}) c).

Definition split_node (k : RadixKey) (child : node_id) (split_len : nat) c
    : res (RadixCache A * node_id) :=
  let! cn := get_node c child in
  let '(new_node, c) := alloc_node (TreeNode.priority cn) c in
  let! ck := child_key (slice_from k split_len) (page_size c) in
  let! cv := res_of_option TypeError (value cn) in
  let! p := res_of_option AttributeError (parent cn) in
  let '(h1, h2) := split_node_hash_value (hash_value cn) split_len (page_size c) in
  let '(e1, e2) := split_node_hash_value (event_hash_value cn) split_len (page_size c) in
  let c := upd_node new_node (λ n,
    set_event_hash_value e1 (set_hash_value h1
      (set_value (Some (take split_len cv))
        (set_key (slice_to (key cn) split_len)
          (set_lock_ref (lock_ref cn)
            (set_parent (Some p)
              (set_children {[ck := child]}
                (set_hit_count (hit_count cn) n)))))))) c in
  let c := upd_node child (λ n,
    set_event_hash_value e2 (set_hash_value h2
      (set_value (Some (drop split_len cv))
        (set_key (slice_from (key cn) split_len)
          (set_parent (Some new_node) n))))) c in
  let! pk := child_key k (page_size c) in
  let c := upd_node p (λ n, set_children (<[pk := new_node]> (children n)) n) c in
  Ok (c, new_node).

Fixpoint match_loop (fuel : nat) (access_time : Z) (node : node_id) (k : RadixKey)
    (ck : ckey) (acc : list (list Z)) c : res (RadixCache A * list (list Z) * node_id) :=
  match fuel with
  | 0 => Raise OutOfFuel
  | S fuel =>
      let! n := get_node c node in
      match (if 0 <? klen k then children n !! ck else None) with
      | None => Ok (c, acc, node)
      | Some child =>
          let c := upd_node child (set_last_access_time access_time) c in
          let! cn := get_node c child in
          let! prefix_len := match_ (key cn) k (page_size c) in
          if prefix_len <? klen (key cn) then
            let! (c, new_node) := split_node (key cn) child prefix_len c in
            let! nn := get_node c new_node in
            let! v := res_of_option TypeError (value nn) in
            Ok (c, acc ++ [v], new_node)
          else
            let! v := res_of_option TypeError (value cn) in
            let k := slice_from k prefix_len in
            if 0 <? klen k then
              let! ck := child_key k (page_size c) in
              match_loop fuel access_time child k ck (acc ++ [v]) c
            else match_loop fuel access_time child k ck (acc ++ [v]) c
      end
  end.

Definition match_prefix_helper (node : node_id) (k : RadixKey) c
    : res (RadixCache A * list (list Z) * node_id) :=
  let '(access_time, c) := now c in
  let c := upd_node node (set_last_access_time access_time) c in
  let! ck := child_key k (page_size c) in
  match_loop (S (S (klen k))) access_time node k ck [] c.

Definition match_prefix (k : RadixKey) c : res (RadixCache A * MatchResult) :=
  let '(k, _) := maybe_to_bigram_view k (is_eagle c) (@None (list Z)) in
  if disable c || (klen k =? 0) then Ok (c, empty_match_result c)
  else
    let k := page_aligned k (page_size c) in
    if klen k =? 0 then Ok (c, empty_match_result c)
    else
      let! (c, vs, last_node) := match_prefix_helper (root_node c) k c in
      Ok (c, mkMatchResult (concat vs) last_node last_node last_node).

Definition inc_hit_count (i : node_id) (chunked : bool) c : RadixCache A :=
  if chunked then c else upd_node i (λ n, set_hit_count (hit_count n + 1) n) c.

Definition raise_priority (i : node_id) (prio : Z) c : RadixCache A :=
  upd_node i (λ n, set_priority (Z.max (TreeNode.priority n) prio) n) c.

Fixpoint insert_loop (fuel : nat) (access_time : Z) (node : node_id) (k : RadixKey)
    (v : list Z) (ck : ckey) (total : nat) (prio : Z) (chunked : bool) c
    : res (RadixCache A * node_id * RadixKey * list Z * ckey * nat) :=
  match fuel with
  | 0 => Raise OutOfFuel
  | S fuel =>
      let! n := get_node c node in
      match (if 0 <? klen k then children n !! ck else None) with
      | None => Ok (c, node, k, v, ck, total)
      | Some node =>
          let c := upd_node node (set_last_access_time access_time) c in
          let! n := get_node c node in
          let! prefix_len := match_ (key n) k (page_size c) in
          let total := total + prefix_len in
          let k := slice_from k prefix_len in
          let v := drop prefix_len v in
          let! (c, node) :=
            if prefix_len <? klen (key n) then
              let! (c, new_node) := split_node (key n) node prefix_len c in
              Ok (inc_hit_count new_node chunked (raise_priority new_node prio c), new_node)
            else Ok (inc_hit_count node chunked (raise_priority node prio c), node) in
          let! ck := if 0 <? klen k then child_key k (page_size c) else Ok ck in
          insert_loop fuel access_time node k v ck total prio chunked c
      end
  end.

(** The end of [_insert_helper]: the unmatched rest of the key becomes a leaf. *)
Definition insert_leaf (node : node_id) (k : RadixKey) (v : list Z) (ck : ckey) (prio : Z)
    (chunked : bool) c : res (RadixCache A * node_id) :=
  let '(new_node, c) := alloc_node prio c in
  let c := upd_node new_node (λ n, set_value (Some v) (set_key k (set_parent (Some node) n))) c in
  let c := inc_hit_count new_node chunked c in
  let c := upd_node node (λ n, set_children (<[ck := new_node]> (children n)) n) c in
  let c := set_evictable_size_ (evictable_size_ c + Z.of_nat (klen k)) c in
  let! c := update_leaf_status node c in
  let! c := update_leaf_status new_node c in
  let! (ns, ev) := record_store native_hash salt_digest (nodes c) new_node None (kv_events c) in
  Ok (set_kv_events ev (set_nodes ns c), new_node).

Definition insert_helper (node : node_id) (k : RadixKey) (v : list Z) (prio : option Z)
    (chunked : bool) c : res (RadixCache A * nat * node_id) :=
  let prio := default 0%Z prio in
  let '(access_time, c) := now c in
  let c := upd_node node (set_last_access_time access_time) c in
  let c := raise_priority node prio c in
  if klen k =? 0 then Ok (c, 0, node)
  else
    let! ck := child_key k (page_size c) in
    let! (c, node, k, v, ck, total) :=
      insert_loop (S (S (klen k))) access_time node k v ck 0 prio chunked c in
    if 0 <? klen k then
      let! (c, new_node) := insert_leaf node k v ck prio chunked c in
      Ok (c, total, new_node)
    else Ok (c, total, node).

(** [insert]; the second result is [InsertResult.prefix_len], the third
    [last_device_node] ([None] when the cache is disabled). *)
Definition cache_insert (k : RadixKey) (v : option (list Z)) (prio : option Z) (chunked : bool) c
    : res (RadixCache A * nat * option node_id) :=
  if disable c then Ok (c, 0, None)
  else
    let '(k, v) := maybe_to_bigram_view k (is_eagle c) v in
    let k := page_aligned k (page_size c) in
    let v := match v with
             | Some v => take (klen k) v
             | None => take (klen k) (token_ids k)
             end in
    let! (c, prefix_len, last_node) := insert_helper (root_node c) k v prio chunked c in
    Ok (c, prefix_len, Some last_node).

Definition delete_leaf (i : node_id) c : res (RadixCache A) :=
  let! n := get_node c i in
  let! ck := child_key (key n) (page_size c) in
  let! p := res_of_option AttributeError (parent n) in
  let! pn := get_node c p in
  let v := children pn !! ck in
  let c := upd_node p (λ n, set_children (delete ck (children n)) n) c in
  assert_ (bool_decide (v = Some i)) ;;!
  let c := set_evictable_size_ (evictable_size_ c - Z.of_nat (klen (key n))) c in
  let c := set_evictable_leaves (evictable_leaves c ∖ {[i]}) c in
  update_leaf_status p c.

(** [heapq]: the heap is the list of its entries, and [heappop] removes a
    smallest one.  Which of several equal entries comes first depends on the
    iteration order of a Python set; the theorems do not rely on it. *)
Definition heap_lt (ns : gmap node_id TreeNode) (e1 e2 : list Z * node_id) : bool :=
  match ns !! e1.2, ns !! e2.2 with
  | Some n1, Some n2 => entry_lt (e1.1, n1) (e2.1, n2)
  | _, _ => false
  end.

Fixpoint heappop (ns : gmap node_id TreeNode) (h : list (list Z * node_id))
    : option ((list Z * node_id) * list (list Z * node_id)) :=
  match h with
  | [] => None
  | e :: h =>
      match heappop ns h with
      | None => Some (e, [])
      | Some (m, r) => if heap_lt ns m e then Some (m, e :: r) else Some (e, m :: r)
      end
  end.

(** One round of [evict] on the popped node [x].  After it the node object is
    referenced by nothing and leaves the store. *)
Definition evict_node (x : node_id) c : res (RadixCache A * nat * option node_id) :=
  let! xn := get_node c x in
  let! xv := res_of_option TypeError (value xn) in
  let c := set_allocator (free_segment (allocator c) xv 0) c in
  let! c := delete_leaf x c in
  let! p := res_of_option AttributeError (parent xn) in
  let! pn := get_node c p in
  let push := if bool_decide (children pn = ∅) && (lock_ref pn =? 0)%Z then Some p else None in
  let! (ns, ev) := record_remove native_hash salt_digest (nodes c) x None (kv_events c) in
  let c := set_kv_events ev (set_nodes (delete x ns) c) in
  Ok (c, length xv, push).

Fixpoint evict_loop (fuel : nat) (num_tokens num_evicted : nat) (heap : list (list Z * node_id)) c
    : res (RadixCache A * nat) :=
  match fuel with
  | 0 => Raise OutOfFuel
  | S fuel =>
      if num_evicted <? num_tokens then
        match heappop (nodes c) heap with
        | None => Ok (c, num_evicted)
        | Some (e, heap) =>
            let! (c, n, push) := evict_node e.2 c in
            let! heap :=
              match push with
              | None => Ok heap
              | Some p => let! pn := get_node c p in
                          Ok ((get_priority (eviction_strategy c) pn, p) :: heap)
              end in
            evict_loop fuel num_tokens (num_evicted + n) heap c
        end
      else Ok (c, num_evicted)
  end.

Definition initial_heap c : res (list (list Z * node_id)) :=
  (fix go (l : list node_id) : res (list (list Z * node_id)) :=
     match l with
     | [] => Ok []
     | i :: l => let! n := get_node c i in
                 let! h := go l in
                 Ok ((get_priority (eviction_strategy c) n, i) :: h)
     end) (elements (evictable_leaves c)).

Definition evict (num_tokens : nat) c : res (RadixCache A * nat) :=
  if disable c then Ok (c, 0)
  else
    let! heap := initial_heap c in
    evict_loop (S (size (nodes c))) num_tokens 0 heap c.

(** One node of the walks of [inc_lock_ref] and [dec_lock_ref]. *)
Definition inc_lock_node (i : node_id) (delta : Z) c : res (RadixCache A * Z) :=
  let! n := get_node c i in
  let len := Z.of_nat (klen (key n)) in
  let '(c, delta) :=
    if (lock_ref n =? 0)%Z then
      (set_protected_size_ (protected_size_ c + len)
         (set_evictable_size_ (evictable_size_ c - len) c), (delta - len)%Z)
    else (c, delta) in
  let c := upd_node i (λ n, set_lock_ref (lock_ref n + 1) n) c in
  let! c := update_leaf_status i c in
  Ok (c, delta).

Fixpoint inc_lock_loop (fuel : nat) (node : option node_id) (delta : Z) c : res (RadixCache A * Z) :=
  match fuel with
  | 0 => Raise OutOfFuel
  | S fuel =>
      match node with
      | None => Raise AttributeError
      | Some i =>
          if decide (i = root_node c) then Ok (c, delta)
          else
            let! (c, delta) := inc_lock_node i delta c in
            let! n := get_node c i in
            inc_lock_loop fuel (parent n) delta c
      end
  end.

Definition inc_lock_ref (node : node_id) c : res (RadixCache A * Z) :=
  if disable c then Ok (c, 0%Z)
  else inc_lock_loop (S (size (nodes c))) (Some node) 0 c.

Definition dec_lock_node (i : node_id) (delta : Z) c : res (RadixCache A * Z) :=
  let! n := get_node c i in
  let len := Z.of_nat (klen (key n)) in
  let '(c, delta) :=
    if (lock_ref n =? 1)%Z then
      (set_protected_size_ (protected_size_ c - len)
         (set_evictable_size_ (evictable_size_ c + len) c), (delta + len)%Z)
    else (c, delta) in
  let c := upd_node i (λ n, set_lock_ref (lock_ref n - 1) n) c in
  let! c := update_leaf_status i c in
  Ok (c, delta).

Fixpoint dec_lock_loop (fuel : nat) (node : option node_id) (delta : Z) c : res (RadixCache A * Z) :=
  match fuel with
  | 0 => Raise OutOfFuel
  | S fuel =>
      match node with
      | None => Raise AttributeError
      | Some i =>
          if decide (i = root_node c) then Ok (c, delta)
          else
            let! (c, delta) := dec_lock_node i delta c in
            let! n := get_node c i in
            assert_ (negb (bool_decide (parent n = None))) ;;!
            dec_lock_loop fuel (parent n) delta c
      end
  end.

Definition dec_lock_ref (node : node_id) c : res (RadixCache A * Z) :=
  if disable c then Ok (c, 0%Z)
  else dec_lock_loop (S (size (nodes c))) (Some node) 0 c.

Definition evictable_size c : Z := evictable_size_ c.
Definition protected_size c : Z := protected_size_ c.

(** [_total_size_helper]: an explicit stack; children that are evicted are
    skipped.  Each node is pushed once, so the store size bounds the loop. *)
Fixpoint total_size_loop (fuel : nat) (stack : list node_id) (total : nat) c : res nat :=
  match fuel with
  | 0 => Raise OutOfFuel
  | S fuel =>
      match stack with
      | [] => Ok total
      | i :: stack =>
          let! n := get_node c i in
          let! v := res_of_option TypeError (value n) in
          let live := List.filter (λ ch, match nodes c !! ch with
                                         | Some cn => negb (evicted cn)
                                         | None => false
                                         end) (snd <$> map_to_list (children n)) in
          total_size_loop fuel (live ++ stack) (total + length v) c
      end
  end.
Definition total_size c : res nat := total_size_loop (S (size (nodes c))) [root_node c] 0 c.
End Ops.
