(* ===== verification/RadixInv.v ===== *)
(** * Structural invariant of the radix tree

    The store of a radix cache is a tree: parent and child references agree,
    every edge carries a non-empty page-aligned key with one KV slot per unit,
    siblings start with different pages, and an edge never crosses a namespace.
    The ghost function [φ] gives each node its path, the units from the root.
    The main lemma is [path_anc]: inside a namespace the paths determine the
    nodes, so descending by a key finds the longest stored prefix. *)

From stdpp Require Import base tactics numbers list gmap strings.
From Stdlib Require Import ZArith Lia ZifyNat.
From S2P Require Import Prelude RadixKey TreeNode.

(** ** Shapes: the fields the structure depends on *)

Definition sview (n : TreeNode) : gmap ckey node_id * option node_id * RadixKey * option (list Z) :=
  (children n, parent n, key n, value n).

Definition same_shape (ns ns' : gmap node_id TreeNode) : Prop := sview <$> ns = sview <$> ns'.

Global Instance same_shape_equiv : Equivalence same_shape.
Proof. split; red; unfold same_shape; congruence. Qed.

Lemma same_shape_alter f i ns : (∀ n, sview (f n) = sview n) → same_shape (alter f i ns) ns.
Proof.
  intros Hf. unfold same_shape. apply map_eq. intros j. rewrite !lookup_fmap, lookup_alter.
  case_decide; [subst|done]. destruct (ns !! j); simpl; by rewrite ?Hf.
Qed.

Lemma same_shape_lookup ns ns' i n :
  same_shape ns ns' → ns !! i = Some n → ∃ n', ns' !! i = Some n' ∧ sview n' = sview n.
Proof.
  intros Hs Hi. assert ((sview <$> ns) !! i = (sview <$> ns') !! i) as He by by rewrite Hs.
  rewrite !lookup_fmap, Hi in He. destruct (ns' !! i) as [n'|]; simpl in He; [|done].
  exists n'. split; congruence.
Qed.

Lemma same_shape_None ns ns' i : same_shape ns ns' → ns !! i = None → ns' !! i = None.
Proof.
  intros Hs Hi. assert ((sview <$> ns) !! i = (sview <$> ns') !! i) as He by by rewrite Hs.
  rewrite !lookup_fmap, Hi in He. by destruct (ns' !! i).
Qed.

(** ** The invariant *)

Section Tree.
Context (ps : nat) (eagle : bool).
Implicit Types ns : gmap node_id TreeNode.

Record key_ok (k : RadixKey) : Prop := {
  ko_pos : 0 < klen k;
  ko_pages : klen k mod ps = 0;
  ko_mode : is_bigram k = eagle;
  ko_salt : salt_ok k;
}.

Definition node_ok (n : TreeNode) : Prop :=
  key_ok (key n) ∧ ∃ v, value n = Some v ∧ length v = klen (key n).

(** [i] hangs below [p] through its own child key. *)
Record edge ns (root : node_id) (φ : node_id → list lunit) (i : node_id) (n : TreeNode)
    (p : node_id) (pn : TreeNode) : Prop := {
  ed_parent : parent n = Some p;
  ed_lookup : ns !! p = Some pn;
  ed_child : ∃ ck, child_key (key n) ps = Ok ck ∧ children pn !! ck = Some i;
  ed_path : φ i = φ p ++ iter (key n);
  ed_ns : p ≠ root → namespace (key n) = namespace (key pn);
}.

Record wf_tree ns (root : node_id) (φ : node_id → list lunit) : Prop := {
  wt_root : ∃ rn, ns !! root = Some rn ∧ parent rn = None ∧ value rn = Some [];
  wt_root_path : φ root = [];
  wt_node : ∀ i n, ns !! i = Some n → i ≠ root →
    node_ok n ∧ ∃ p pn, edge ns root φ i n p pn;
  wt_child : ∀ p pn ck i, ns !! p = Some pn → children pn !! ck = Some i →
    i ≠ root ∧ ∃ n, ns !! i = Some n ∧ parent n = Some p ∧ child_key (key n) ps = Ok ck;
}.

Lemma wf_tree_shape ns ns' root φ : same_shape ns ns' → wf_tree ns root φ → wf_tree ns' root φ.
Proof.
  intros Hs [Hr Hrp Hn Hc]. symmetry in Hs.
  assert (∀ i n', ns' !! i = Some n' → ∃ n, ns !! i = Some n ∧ sview n = sview n') as Hl
    by (intros; by eapply same_shape_lookup).
  symmetry in Hs.
  split; [|done|..].
  - destruct Hr as (rn&Hr&?&?). destruct (same_shape_lookup _ _ _ _ Hs Hr) as (rn'&?&[=]).
    exists rn'. split_and!; congruence.
  - intros i n' Hi Hne. destruct (Hl _ _ Hi) as (n&Hi'&[= Hch Hpa Hk Hv]).
    destruct (Hn i n Hi' Hne) as [[Hok (v&?&?)] (p&pn&[? Hp (ck&?&?) ? ?])].
    destruct (same_shape_lookup _ _ _ _ Hs Hp) as (pn'&Hp'&[= Hch' Hpa' Hk' Hv']).
    split; [split; [by rewrite <-Hk|exists v; by rewrite <-Hk, <-Hv]|].
    exists p, pn'. split; rewrite <-?Hk, <-?Hpa, ?Hk'; [done|done| |done|done].
    exists ck. by rewrite Hch'.
  - intros p pn' ck i Hp Hck. destruct (Hl _ _ Hp) as (pn&Hp'&[= Hch Hpa Hk Hv]).
    rewrite <-Hch in Hck. destruct (Hc p pn ck i Hp' Hck) as (?&n&Hi&?&?).
    destruct (same_shape_lookup _ _ _ _ Hs Hi) as (n'&?&[= ? Hpa' Hk' ?]).
    split; [done|]. exists n'. by rewrite Hpa', Hk'.
Qed.

Global Instance wf_tree_proper : Proper (same_shape ==> (=) ==> (=) ==> iff) wf_tree.
Proof.
  intros ns ns' Hs ? root -> ? φ ->. split; apply wf_tree_shape; [done|by symmetry].
Qed.

(** ** Ancestors and paths *)

Inductive anc ns : node_id → node_id → Prop :=
  | anc_refl x : anc ns x x
  | anc_step x y n p : ns !! y = Some n → parent n = Some p → anc ns x p → anc ns x y.

Definition in_ns ns (root : node_id) (N : option string * option string) (i : node_id) : Prop :=
  ∃ n, ns !! i = Some n ∧ (i ≠ root → namespace (key n) = N).

Context (Hps : 0 < ps).

Lemma key_ok_page k : key_ok k → ps ≤ klen k.
Proof.
  intros [? Hm ? ?]. destruct (decide (klen k < ps)); [|lia].
  rewrite Nat.mod_small in Hm by done. lia.
Qed.

Lemma key_ok_len k : key_ok k → 0 < length (iter k) ∧ ps ≤ length (iter k).
Proof. intros Hk. rewrite length_iter. split; [apply Hk|by apply key_ok_page]. Qed.

Section Paths.
Context {ns : gmap node_id TreeNode} {root : node_id} {φ : node_id → list lunit}.
Context (Hwf : wf_tree ns root φ).

Lemma root_no_parent n p : ns !! root = Some n → parent n = Some p → False.
Proof. destruct (wt_root _ _ _ Hwf) as (rn&?&?&?). intros. congruence. Qed.

Lemma edge_of i n p : ns !! i = Some n → parent n = Some p →
  i ≠ root ∧ node_ok n ∧ ∃ pn, edge ns root φ i n p pn.
Proof.
  intros Hi Hp. assert (i ≠ root) as Hne by (intros ->; eapply root_no_parent; eauto).
  destruct (wt_node _ _ _ Hwf i n Hi Hne) as [? (p'&pn&He)].
  assert (p' = p) as -> by (destruct He; congruence). eauto.
Qed.

Lemma path_len i n p : ns !! i = Some n → parent n = Some p →
  length (φ i) = length (φ p) + klen (key n) ∧ ps ≤ klen (key n).
Proof.
  intros Hi Hp. destruct (edge_of i n p Hi Hp) as (_&[Hk _]&pn&[]).
  rewrite ed_path0, length_app, length_iter. split; [done|by apply key_ok_page].
Qed.

Lemma path_nil i n : ns !! i = Some n → φ i = [] → i = root.
Proof.
  intros Hi Hnil. destruct (decide (i = root)) as [|Hne]; [done|].
  destruct (wt_node _ _ _ Hwf i n Hi Hne) as [? (p&pn&[])].
  pose proof (path_len i n p Hi ed_parent0) as []. rewrite Hnil in *. simpl in *. lia.
Qed.

Lemma anc_prefix x y : anc ns x y → φ x `prefix_of` φ y.
Proof.
  induction 1 as [|x y n p Hy Hp _ IH]; [done|].
  destruct (edge_of y n p Hy Hp) as (_&_&pn&[]). rewrite ed_path0.
  etrans; [done|]. by eexists.
Qed.

Lemma anc_root y n : ns !! y = Some n → anc ns root y.
Proof.
  remember (length (φ y)) as l eqn:Hl. revert y n Hl.
  induction (lt_wf l) as [l _ IH]; intros y n -> Hy.
  destruct (decide (y = root)) as [->|Hne]; [constructor|].
  destruct (wt_node _ _ _ Hwf y n Hy Hne) as [? (p&pn&[])].
  pose proof (path_len y n p Hy ed_parent0) as [].
  eapply anc_step; [done..|]. eapply (IH (length (φ p))); [lia|done..].
Qed.

Lemma anc_child x y : anc ns x y → x ≠ y →
  ∃ c n, ns !! c = Some n ∧ parent n = Some x ∧ anc ns c y.
Proof.
  induction 1 as [|x y n p Hy Hp Ha IH]; [done|]. intros Hne.
  destruct (decide (x = p)) as [->|Hxp].
  - exists y, n. split_and!; [done..|constructor].
  - destruct (IH Hxp) as (c&cn&?&?&?). exists c, cn. split_and!; [done..|].
    by eapply anc_step.
Qed.

Lemma anc_namespace x y xn yn : anc ns x y → ns !! x = Some xn → ns !! y = Some yn →
  x ≠ root → y ≠ root ∧ namespace (key yn) = namespace (key xn).
Proof.
  intros Ha. revert xn yn. induction Ha as [|x y n p Hy Hp Ha IH]; intros xn yn Hx Hy' Hr.
  { by simplify_eq. }
  assert (yn = n) as -> by congruence.
  destruct (edge_of y n p Hy Hp) as (?&_&pn&[]). split; [done|].
  destruct (IH xn pn) as [Hpr <-]; [done..|]. by apply ed_ns0.
Qed.

(** Two children of one node whose paths agree on the first page are equal. *)
Lemma sibling_unique p i j ni nj q :
  ns !! i = Some ni → ns !! j = Some nj → parent ni = Some p → parent nj = Some p →
  namespace (key ni) = namespace (key nj) →
  φ i `prefix_of` q → φ j `prefix_of` q → i = j.
Proof.
  intros Hi Hj Hpi Hpj Hns [qi Hqi] [qj Hqj].
  destruct (edge_of i ni p Hi Hpi) as (_&[Hki _]&pn&[_ Hp (ci&Hci&Hli) Hφi _]).
  destruct (edge_of j nj p Hj Hpj) as (_&[Hkj _]&pn'&[_ Hp' (cj&Hcj&Hlj) Hφj _]).
  assert (ci = cj) as ->; [|congruence].
  assert (child_key (key ni) ps = child_key (key nj) ps); [|congruence].
  pose proof (key_ok_len _ Hki) as []. pose proof (key_ok_len _ Hkj) as [].
  apply child_key_inj; [by rewrite !ko_mode|done|by apply key_ok_page..|].
  split; [done|]. rewrite Hqi, Hφi, Hφj, <-!app_assoc in Hqj.
  apply app_inv_head in Hqj.
  rewrite <-(take_app_le (iter (key ni)) qi), <-(take_app_le (iter (key nj)) qj) by lia.
  by rewrite Hqj.
Qed.

Lemma path_anc N x y : in_ns ns root N x → in_ns ns root N y →
  φ x `prefix_of` φ y → anc ns x y.
Proof.
  remember (length (φ x)) as l eqn:Hl. revert x Hl.
  induction (lt_wf l) as [l _ IH]; intros x -> (xn&Hx&Hxn) Hy Hpre.
  pose proof Hy as (yn&Hy'&Hyn).
  destruct (decide (x = root)) as [->|Hne]; [by eapply anc_root|].
  destruct (wt_node _ _ _ Hwf x xn Hx Hne) as [? (p&pn&He)]. pose proof He as [Hpa Hp _ Hφ Hens].
  pose proof (path_len x xn p Hx Hpa) as [].
  assert (anc ns p y) as Ha.
  { eapply (IH (length (φ p))); [lia|done| |done|].
    - exists pn. split; [done|]. intros. by rewrite <-Hens, Hxn.
    - etrans; [|done]. rewrite Hφ. by eexists. }
  assert (p ≠ y) as Hpy.
  { intros ->. apply prefix_length in Hpre. lia. }
  destruct (anc_child p y Ha Hpy) as (c&cn&Hc&Hcp&Hcy).
  destruct (edge_of c cn p Hc Hcp) as (Hcr&_).
  destruct (anc_namespace c y cn yn Hcy Hc Hy' Hcr) as [Hyr Hcn].
  assert (x = c) as ->; [|done].
  eapply (sibling_unique p x c xn cn (φ y)); try done; [|by apply anc_prefix].
  rewrite Hxn, <-Hcn, Hyn; done.
Qed.
End Paths.

(** ** The three structural updates *)

Lemma slice_to_ok k s : key_ok k → 0 < s → s < klen k → s mod ps = 0 →
  key_ok (slice_to k s) ∧ klen (slice_to k s) = s ∧ namespace (slice_to k s) = namespace k
  ∧ child_key (slice_to k s) ps = child_key k ps.
Proof.
  intros Hk Hs Hlt Hm. pose proof Hk as [? ? Hb Hsa].
  destruct (slice_to_spec k s Hsa) as (Hit&[Hb' Hn]&Hsa').
  assert (klen (slice_to k s) = s) as Hl.
  { rewrite <-length_iter, Hit, length_take, length_iter. lia. }
  assert (key_ok (slice_to k s)) as Hk' by (split; rewrite ?Hl; congruence || done).
  split_and!; [done..|].
  apply child_key_inj; [done|done|by apply key_ok_page..|].
  split; [done|]. rewrite Hit, take_take. f_equal.
  pose proof (key_ok_page _ Hk'). lia.
Qed.

Lemma slice_from_ok k s : key_ok k → s < klen k → s mod ps = 0 →
  key_ok (slice_from k s) ∧ klen (slice_from k s) = klen k - s
  ∧ namespace (slice_from k s) = namespace k ∧ iter (slice_from k s) = drop s (iter k).
Proof.
  intros Hk Hlt Hm. pose proof Hk as [? Hkm Hb Hsa].
  destruct (slice_from_spec k s Hsa) as (Hit&[Hb' Hn]&Hsa').
  assert (klen (slice_from k s) = klen k - s) as Hl.
  { rewrite <-length_iter, Hit, length_drop, length_iter. lia. }
  split_and!; [|done..]. split; rewrite ?Hl; [lia| |congruence|done].
  apply Nat.Lcm0.mod_divide in Hm as [a ->], Hkm as [b ->].
  rewrite <-Nat.mul_sub_distr_r. apply Nat.Div0.mod_mul.
Qed.

Definition split_map ns (i p new : node_id) (cn' pn' nn : TreeNode) : gmap node_id TreeNode :=
  <[p := pn']> (<[i := cn']> (<[new := nn]> ns)).

Lemma split_lookup ns i p new cn' pn' nn j : split_map ns i p new cn' pn' nn !! j =
  if decide (j = p) then Some pn' else if decide (j = i) then Some cn'
  else if decide (j = new) then Some nn else ns !! j.
Proof. unfold split_map. rewrite !lookup_insert. repeat case_decide; congruence. Qed.

Definition split_path (φ : node_id → list lunit) (new : node_id) (us : list lunit) (j : node_id)
  : list lunit := if decide (j = new) then us else φ j.

Section Split.
Context {ns : gmap node_id TreeNode} {root : node_id} {φ : node_id → list lunit}.
Context (Hwf : wf_tree ns root φ).
Context (i p new : node_id) (cn pn cn' pn' nn : TreeNode) (s : nat) (cv : list Z) (ck1 ck2 : ckey).
Context (Hi : ns !! i = Some cn) (Hpa : parent cn = Some p) (Hp : ns !! p = Some pn).
Context (Hnew : ns !! new = None) (Hs : 0 < s) (Hlt : s < klen (key cn)) (Hm : s mod ps = 0).
Context (Hcv : value cn = Some cv).
Context (Hck1 : child_key (key cn) ps = Ok ck1)
        (Hck2 : child_key (slice_from (key cn) s) ps = Ok ck2).
Context (Hnn : sview nn = ({[ck2 := i]}, Some p, slice_to (key cn) s, Some (take s cv))).
Context (Hcn' : sview cn' = (children cn, Some new, slice_from (key cn) s, Some (drop s cv))).
Context (Hpn' : sview pn' = (<[ck1 := new]> (children pn), parent pn, key pn, value pn)).

Lemma split_distinct : i ≠ p ∧ i ≠ new ∧ p ≠ new ∧ i ≠ root ∧ new ≠ root ∧ children pn !! ck1 = Some i.
Proof.
  destruct (edge_of Hwf i cn p Hi Hpa) as (?&?&pn0&[_ Hp0 (ck&?&?) _ _]).
  pose proof (path_len Hwf i cn p Hi Hpa) as [].
  destruct (wt_root _ _ _ Hwf) as (?&?&_).
  split_and!; try congruence. intros ->. lia.
Qed.

Abbreviation ns' := (split_map ns i p new cn' pn' nn).
Abbreviation φ' := (split_path φ new (φ p ++ take s (iter (key cn)))).

Lemma split_path_old j : j ≠ new → φ' j = φ j.
Proof. intros. unfold split_path. by rewrite decide_False. Qed.

(** The two halves of the edge. *)
Lemma split_lower : node_ok cn' ∧ edge ns' root φ' i cn' new nn.
Proof.
  destruct split_distinct as (Hip&Hin&Hpn&Hir&Hnr&Hch).
  destruct (edge_of Hwf i cn p Hi Hpa) as (_&[Hko (v&?&Hlen)]&_&[_ _ _ Hφi _]).
  destruct (slice_to_ok (key cn) s) as (_&_&Ht3&_); [done..|].
  destruct (slice_from_ok (key cn) s) as (Hf1&Hf2&Hf3&Hf4); [done..|].
  injection Hnn as Hnn1 Hnn2 Hnn3 Hnn4. injection Hcn' as Hcn1 Hcn2 Hcn3 Hcn4. split.
  - split; [by rewrite Hcn3|]. exists (drop s cv). rewrite Hcn3, Hcn4, length_drop, Hf2.
    split; [done|]. assert (v = cv) as -> by congruence. lia.
  - split; rewrite ?Hcn2, ?Hcn3; try done.
    + rewrite split_lookup. by rewrite !decide_False, decide_True by congruence.
    + exists ck2. by rewrite Hnn1, lookup_singleton_eq.
    + rewrite split_path_old by done. unfold split_path. rewrite decide_True by done.
      by rewrite Hf4, Hφi, <-app_assoc, take_drop.
    + intros _. by rewrite Hnn3, Hf3, Ht3.
Qed.

Lemma split_upper : node_ok nn ∧ edge ns' root φ' new nn p pn'.
Proof.
  destruct split_distinct as (Hip&Hin&Hpn&Hir&Hnr&Hch).
  destruct (edge_of Hwf i cn p Hi Hpa) as (_&[Hko (v&?&Hlen)]&pn0&[_ Hp0 _ _ Hns]).
  destruct (slice_to_ok (key cn) s) as (Ht1&Ht2&Ht3&Ht4); [done..|].
  injection Hnn as Hnn1 Hnn2 Hnn3 Hnn4. injection Hpn' as Hpn1 Hpn2 Hpn3 Hpn4. split.
  - split; [by rewrite Hnn3|]. exists (take s cv). rewrite Hnn3, Hnn4, length_take, Ht2.
    split; [done|]. assert (v = cv) as -> by congruence. lia.
  - split; rewrite ?Hnn2, ?Hnn3; try done.
    + by rewrite split_lookup, decide_True.
    + exists ck1. by rewrite Ht4, Hpn1, lookup_insert_eq.
    + rewrite (split_path_old p) by done. unfold split_path. rewrite decide_True by done.
      by destruct (slice_to_spec (key cn) s (ko_salt _ Hko)) as (->&_).
    + intros. rewrite Ht3, Hpn3, Hns by done. congruence.
Qed.

(** An edge that is not split keeps its endpoints, up to the views of [i] and [p]. *)
Lemma split_edge j n n' q qn : edge ns root φ j n q qn → j ≠ i → j ≠ new → q ≠ new →
  parent n' = parent n → key n' = key n → ∃ qn', edge ns' root φ' j n' q qn'.
Proof.
  intros [? Hq (ck&Hck&Hcq) Hφj Hnsj] Hji Hjn Hqn Hpar Hkey.
  destruct split_distinct as (Hip&Hin&Hpn&Hir&Hnr&Hch).
  destruct (edge_of Hwf i cn p Hi Hpa) as (_&[Hko _]&_).
  destruct (slice_from_ok (key cn) s) as (_&_&Hf3&_); [done..|].
  injection Hcn' as Hcn1 Hcn2 Hcn3 Hcn4. injection Hpn' as Hpn1 Hpn2 Hpn3 Hpn4.
  destruct (decide (q = p)) as [->|Hqp]; [|destruct (decide (q = i)) as [->|Hqi]].
  - exists pn'. assert (qn = pn) as -> by congruence.
    split; rewrite ?Hpar, ?Hkey, ?Hpn3, ?split_path_old; try done; [by rewrite split_lookup, decide_True|].
    exists ck. split; [done|]. rewrite Hpn1, lookup_insert_ne; [done|]. congruence.
  - exists cn'. assert (qn = cn) as -> by congruence.
    split; rewrite ?Hpar, ?Hkey, ?Hcn3, ?Hf3, ?split_path_old; try done.
    + by rewrite split_lookup, decide_False, decide_True.
    + exists ck. by rewrite Hcn1.
  - exists qn. split; rewrite ?Hpar, ?Hkey, ?split_path_old; try done; [|by eauto].
    by rewrite split_lookup, !decide_False by congruence.
Qed.

Lemma split_child q qn ck j : ns !! q = Some qn → children qn !! ck = Some j → j ≠ i →
  j ≠ root ∧ ∃ n, ns' !! j = Some n ∧ parent n = Some q ∧ child_key (key n) ps = Ok ck.
Proof.
  intros Hq Hcq Hji. injection Hpn' as _ Hpn2 Hpn3 _.
  destruct (wt_child _ _ _ Hwf q qn ck j Hq Hcq) as (?&n&?&?&?).
  split; [done|]. rewrite split_lookup. destruct (decide (j = p)) as [->|Hd].
  - exists pn'. assert (n = pn) as -> by congruence. by rewrite Hpn2, Hpn3.
  - rewrite !decide_False by congruence. eauto.
Qed.

(** Only [p] has [i] as a child. *)
Lemma split_only_child q qn ck : ns !! q = Some qn → children qn !! ck = Some i → q = p ∧ ck = ck1.
Proof. intros Hq Hc. destruct (wt_child _ _ _ Hwf q qn ck i Hq Hc) as (_&?&?&?&?). split; congruence. Qed.

Lemma wf_tree_split : wf_tree ns' root φ'.
Proof.
  destruct split_distinct as (Hip&Hin&Hpn&Hir&Hnr&Hch). destruct split_lower as [Hokl Hel].
  destruct split_upper as [Hoku Heu]. pose proof Hpn' as [= Hpn1 Hpn2 Hpn3 Hpn4]. split.
  - destruct (wt_root _ _ _ Hwf) as (rn&Hr&?&?). rewrite split_lookup.
    repeat case_decide; subst; try done; eauto. exists pn'. split; [done|]. split; congruence.
  - rewrite split_path_old by congruence. apply Hwf.
  - intros j n Hj Hjr. rewrite split_lookup in Hj.
    case_decide as Hjp; [|case_decide as Hji; [|case_decide as Hjn]]; try (injection Hj as <-; subst j); [|by eauto..|].
    + destruct (wt_node _ _ _ Hwf p pn Hp Hjr) as [[? (v&?&?)] (q&qn&He)].
      split; [split; [by rewrite Hpn3|exists v; by rewrite Hpn3, Hpn4]|].
      exists q. eapply split_edge; try done. destruct He. congruence.
    + destruct (wt_node _ _ _ Hwf j n Hj Hjr) as [? (q&qn&He)].
      split; [done|]. exists q. eapply split_edge; try done. destruct He. congruence.
  - intros q qn ck j Hq Hcq. rewrite split_lookup in Hq.
    case_decide as Hqp; [|case_decide as Hqi; [|case_decide as Hqn]]; try (injection Hq as <-; subst q).
    + rewrite Hpn1 in Hcq. apply lookup_insert_Some in Hcq as [[<- <-]|[Hne Hcq]].
      * split; [done|]. exists nn. rewrite split_lookup, !decide_False, decide_True by congruence.
        destruct Heu as [? _ (ck&Hck&Hc) _ _]. rewrite Hpn1 in Hc. split_and!; try done.
        destruct (slice_to_ok (key cn) s) as (_&_&_&Ht4); [by destruct (edge_of Hwf i cn p Hi Hpa) as (_&[]&_)|done..|].
        injection Hnn as _ _ -> _. by rewrite Ht4.
      * eapply split_child; try done. intros ->. by destruct (split_only_child p pn ck Hp Hcq).
    + injection Hcn' as Hcn1 _ _ _. rewrite Hcn1 in Hcq. eapply split_child; try done. intros ->.
      by destruct (split_only_child i cn ck Hi Hcq).
    + injection Hnn as Hnn1 _ _ _. rewrite Hnn1 in Hcq. apply lookup_singleton_Some in Hcq as [<- <-].
      split; [done|]. exists cn'. rewrite split_lookup, decide_False, decide_True by done.
      injection Hcn' as _ -> -> _. done.
    + eapply split_child; try done. intros ->. by destruct (split_only_child q qn ck Hq Hcq).
Qed.
End Split.

Lemma wf_tree_add_leaf ns root φ x xn xn' new nn k v ck :
  wf_tree ns root φ → ns !! x = Some xn → ns !! new = None →
  key_ok k → length v = klen k → child_key k ps = Ok ck → children xn !! ck = None →
  (x ≠ root → namespace k = namespace (key xn)) →
  sview nn = (∅, Some x, k, Some v) →
  sview xn' = (<[ck := new]> (children xn), parent xn, key xn, value xn) →
  wf_tree (<[x := xn']> (<[new := nn]> ns)) root (split_path φ new (φ x ++ iter k)).
Proof.
  intros Hwf Hx Hnew Hk Hv Hck Hfree Hns [= Hn1 Hn2 Hn3 Hn4] [= Hx1 Hx2 Hx3 Hx4].
  assert (x ≠ new) as Hxn by congruence.
  assert (new ≠ root) as Hnr by (destruct (wt_root _ _ _ Hwf) as (?&?&_); congruence).
  assert (∀ j, (<[x := xn']> (<[new := nn]> ns)) !! j =
    if decide (j = x) then Some xn' else if decide (j = new) then Some nn else ns !! j) as Hl.
  { intros j. rewrite !lookup_insert. repeat case_decide; congruence. }
  split.
  - destruct (wt_root _ _ _ Hwf) as (rn&Hr&?&?). rewrite Hl. repeat case_decide; subst; try done; eauto.
    exists xn'. split; [done|]. split; congruence.
  - unfold split_path. rewrite decide_False by congruence. apply Hwf.
  - intros j n Hj Hjr. rewrite Hl in Hj. unfold split_path.
    case_decide as Hjx; [|case_decide as Hjn]; try (injection Hj as <-; subst j).
    + destruct (wt_node _ _ _ Hwf x xn Hx Hjr) as [[? (u&?&?)] (q&qn&[? Hq (c&?&?) ? ?])].
      pose proof (path_len Hwf x xn q Hx ltac:(done)) as [].
      split; [split; [by rewrite Hx3|exists u; by rewrite Hx3, Hx4]|].
      exists q, qn. split; rewrite ?Hx2, ?Hx3; try done; [|by eauto|].
      * rewrite Hl, !decide_False; [done|congruence|]. intros ->. lia.
      * by rewrite !decide_False by congruence.
    + split; [split; [by rewrite Hn3|exists v; by rewrite Hn3, Hn4]|].
      exists x, xn'. split; rewrite ?Hn2, ?Hn3; try done.
      * by rewrite Hl, decide_True.
      * exists ck. by rewrite Hx1, lookup_insert_eq.
      * by rewrite decide_True, decide_False by congruence.
      * by rewrite Hx3.
    + destruct (wt_node _ _ _ Hwf j n Hj Hjr) as [? (q&qn&[? Hq (c&?&?) ? ?])].
      split; [done|]. destruct (decide (q = x)) as [->|Hqx].
      * exists x, xn'. assert (qn = xn) as -> by congruence.
        split; rewrite ?Hx3; try done; [by rewrite Hl, decide_True| |].
        -- exists c. split; [done|]. rewrite Hx1, lookup_insert_ne; [done|]. congruence.
        -- by rewrite !decide_False by congruence.
      * exists q, qn. split; try done; [|by eauto|].
        -- rewrite Hl. by rewrite !decide_False by congruence.
        -- by rewrite !decide_False by congruence.
  - intros q qn c j Hq Hcq.
    assert (∀ qn c j, ns !! q = Some qn → children qn !! c = Some j →
      j ≠ root ∧ ∃ n, <[x := xn']> (<[new := nn]> ns) !! j = Some n
                   ∧ parent n = Some q ∧ child_key (key n) ps = Ok c) as Hkeep.
    { intros qn' c' j' Hq' Hc'. destruct (wt_child _ _ _ Hwf q qn' c' j' Hq' Hc') as (?&n&?&?&?).
      split; [done|]. rewrite Hl. destruct (decide (j' = x)) as [->|Hd].
      - exists xn'. assert (n = xn) as -> by congruence. by rewrite Hx2, Hx3.
      - rewrite decide_False by congruence. eauto. }
    rewrite Hl in Hq.
    case_decide as Hqx; [|case_decide as Hqn]; try (injection Hq as <-; subst q).
    + rewrite Hx1 in Hcq. apply lookup_insert_Some in Hcq as [[<- <-]|[Hne Hcq]].
      * split; [done|]. exists nn. rewrite Hl, decide_False, decide_True by congruence.
        by rewrite Hn2, Hn3.
      * by apply (Hkeep xn).
    + by rewrite Hn1, lookup_empty in Hcq.
    + by eapply Hkeep.
Qed.

Lemma wf_tree_remove_leaf ns root φ i cn p pn pn' ck :
  wf_tree ns root φ → ns !! i = Some cn → parent cn = Some p → ns !! p = Some pn →
  children cn = ∅ → child_key (key cn) ps = Ok ck →
  sview pn' = (delete ck (children pn), parent pn, key pn, value pn) →
  wf_tree (delete i (<[p := pn']> ns)) root φ.
Proof.
  intros Hwf Hi Hpa Hp Hleaf Hck [= Hp1 Hp2 Hp3 Hp4].
  pose proof (path_len Hwf i cn p Hi Hpa) as [Hli ?].
  destruct (edge_of Hwf i cn p Hi Hpa) as (Hir&_&pn0&[_ Hp0 (ck0&?&Hcp) _ _]).
  assert (pn0 = pn) as -> by congruence. assert (ck0 = ck) as -> by congruence.
  assert (i ≠ p) as Hip by (intros ->; lia).
  assert (∀ j, delete i (<[p := pn']> ns) !! j =
    if decide (j = i) then None else if decide (j = p) then Some pn' else ns !! j) as Hl.
  { intros j. rewrite lookup_delete, lookup_insert. repeat case_decide; congruence. }
  split; [| apply Hwf | |].
  - destruct (wt_root _ _ _ Hwf) as (rn&Hr&?&?). rewrite Hl.
    repeat case_decide; subst; try done; eauto.
    exists pn'. split; [done|]. split; congruence.
  - intros j n Hj Hjr. rewrite Hl in Hj. case_decide as Hji; [done|].
    assert (∀ q qn, ns !! q = Some qn → q ≠ i → ∃ qn', delete i (<[p := pn']> ns) !! q = Some qn'
       ∧ key qn' = key qn ∧ (∀ c x, children qn !! c = Some x → x ≠ i → children qn' !! c = Some x)) as Hk.
    { intros q qn Hq Hqi. rewrite Hl, decide_False by done.
      destruct (decide (q = p)) as [->|Hqp]; [|by eauto]. exists pn'. assert (qn = pn) as -> by congruence. split_and!; [done..|].
      intros c x Hc Hx. rewrite Hp1, lookup_delete_ne; [done|]. congruence. }
    case_decide as Hjp; [subst j; injection Hj as <-|].
    + destruct (wt_node _ _ _ Hwf p pn Hp Hjr) as [[? (u&?&?)] (q&qn&[? Hq (c&?&?) ? Hnn])].
      pose proof (path_len Hwf p pn q Hp ltac:(done)) as [].
      split; [split; [by rewrite Hp3|exists u; by rewrite Hp3, Hp4]|].
      destruct (Hk q qn Hq) as (qn'&?&Hkq&?); [intros ->; lia|].
      exists q, qn'. split; rewrite ?Hp2, ?Hp3; try done; [eauto|]. by rewrite Hkq.
    + destruct (wt_node _ _ _ Hwf j n Hj Hjr) as [? (q&qn&[? Hq (c&?&Hcc) ? Hnn])]. split; [done|].
      destruct (Hk q qn Hq) as (qn'&?&Hkq&?).
      { intros ->. assert (qn = cn) as -> by congruence. by rewrite Hleaf, lookup_empty in Hcc. }
      exists q, qn'. split; try done; [by eauto|]. by rewrite Hkq.
  - intros q qn c j Hq Hcq.
    assert (∃ qn0, ns !! q = Some qn0 ∧ children qn0 !! c = Some j ∧ (q = p → c ≠ ck)) as (qn0&Hq0&Hc0&Hne).
    { rewrite Hl in Hq. case_decide; [done|]. case_decide as Hqp.
      - injection Hq as <-. subst q. rewrite Hp1 in Hcq. apply lookup_delete_Some in Hcq as [??]. eauto.
      - exists qn. split_and!; [done..|congruence]. }
    destruct (wt_child _ _ _ Hwf q qn0 c j Hq0 Hc0) as (?&n&Hj&Hjq&?). split; [done|].
    assert (j ≠ i).
    { intros ->. assert (n = cn) as -> by congruence. apply Hne; congruence. }
    rewrite Hl, decide_False by done. case_decide as Hjp; [|by eauto].
    subst j. exists pn'. assert (n = pn) as -> by congruence. by rewrite Hp2, Hp3.
Qed.
(** ** Depth

    The number of nodes with a shorter path bounds the walk from a node to the
    root, so the number of nodes is enough fuel for it. *)
Definition depth ns (φ : node_id → list lunit) (i : node_id) : nat :=
  size (filter (λ j, length (φ j) < length (φ i)) (dom ns)).

Lemma depth_lt_size ns φ i n : ns !! i = Some n → depth ns φ i < size ns.
Proof.
  intros Hi. unfold depth. rewrite <-size_dom. apply subset_size.
  assert (i ∈ dom ns) by (apply elem_of_dom; eauto).
  split; [set_solver|]. intros Hs. specialize (Hs i). rewrite elem_of_filter in Hs.
  destruct Hs as [? _]; [done|lia].
Qed.

Lemma depth_parent ns root φ i n p : wf_tree ns root φ → ns !! i = Some n → parent n = Some p →
  depth ns φ p < depth ns φ i.
Proof.
  intros Hwf Hi Hp. destruct (edge_of Hwf i n p Hi Hp) as (_&_&pn&[_ Hpn _ _ _]).
  destruct (path_len Hwf i n p Hi Hp) as [Hl ?]. apply subset_size.
  assert (p ∈ dom ns) by (apply elem_of_dom; eauto).
  split.
  - intros j. rewrite !elem_of_filter. intros [? ?]. split; [lia|done].
  - intros Hs. specialize (Hs p). rewrite !elem_of_filter in Hs. destruct Hs; [split; [lia|done]|lia].
Qed.

(** The units spelled by the keys from the root to a node. *)
Fixpoint node_path (fuel : nat) ns (i : node_id) : list lunit :=
  match fuel with
  | 0 => []
  | S fuel =>
      match ns !! i with
      | Some n => match parent n with
                  | Some p => node_path fuel ns p ++ iter (key n)
                  | None => []
                  end
      | None => []
      end
  end.
Definition path_of ns (i : node_id) : list lunit := node_path (size ns) ns i.

Lemma path_of_eq ns root φ i n : wf_tree ns root φ → ns !! i = Some n → path_of ns i = φ i.
Proof.
  intros Hwf Hi. unfold path_of. pose proof (depth_lt_size ns φ i n Hi) as Hd.
  revert i n Hi Hd. generalize (size ns). intros f. induction f as [|f IH]; intros i n Hi Hd; [lia|].
  simpl. rewrite Hi. destruct (parent n) as [p|] eqn:Hp.
  - destruct (edge_of Hwf i n p Hi Hp) as (_&_&pn&[_ Hpn _ Hφ _]).
    pose proof (depth_parent ns root φ i n p Hwf Hi Hp). rewrite (IH p pn) by (done || lia). done.
  - destruct (decide (i = root)) as [->|Hne]; [symmetry; apply Hwf|].
    destruct (wt_node _ _ _ Hwf i n Hi Hne) as [_ (?&?&[])]. congruence.
Qed.
End Tree.
