(* ===== verification/RadixPages.v ===== *)
(** * Contents of the radix tree: pages under token prefixes

    A tree stores, for each page-aligned token prefix of a namespace, the KV
    slots of the last page of that prefix ([page_at]).  This is the abstraction
    the cache operations are specified against; here it is shown to be a partial
    function and its change under each structural update is computed. *)

From stdpp Require Import base tactics numbers list gmap strings.
From Stdlib Require Import ZArith Lia ZifyNat.
From S2P Require Import Prelude RadixKey TreeNode RadixInv.

Section Pages.
Context (ps : nat) (eagle : bool) (Hps : 0 < ps).
Implicit Types ns : gmap node_id TreeNode.
Implicit Types N : option string * option string.
Implicit Types Q : list lunit.

Abbreviation wf := (wf_tree ps eagle).

Definition page_at ns (φ : node_id → list lunit) N Q (vs : list Z) : Prop :=
  ∃ i n p v j, ns !! i = Some n ∧ parent n = Some p ∧ namespace (key n) = N
    ∧ value n = Some v ∧ j * ps + ps ≤ klen (key n)
    ∧ Q = φ p ++ take (j * ps + ps) (iter (key n)) ∧ vs = pyslice v (j * ps) (j * ps + ps).

Lemma page_at_shape ns ns' φ N Q vs :
  same_shape ns ns' → page_at ns φ N Q vs ↔ page_at ns' φ N Q vs.
Proof.
  assert (∀ ns ns', same_shape ns ns' → page_at ns φ N Q vs → page_at ns' φ N Q vs) as Hd.
  { intros m m' Hs (i&n&p&v&j&Hi&?&?&?&?&?&?).
    destruct (same_shape_lookup _ _ _ _ Hs Hi) as (n'&?&[= ? Hp Hk Hv]).
    exists i, n', p, v, j. rewrite Hp, Hk, Hv. done. }
  intros Hs. split; apply Hd; [done|by symmetry].
Qed.

Section Facts.
Context {ns : gmap node_id TreeNode} {root : node_id} {φ : node_id → list lunit}.
Context (Hwf : wf ns root φ).

Lemma path_mod i n : ns !! i = Some n → length (φ i) mod ps = 0.
Proof.
  remember (length (φ i)) as l eqn:Hl. revert i n Hl.
  induction (lt_wf l) as [l _ IH]; intros i n Hl Hi. destruct (decide (i = root)) as [->|Hne].
  { rewrite (wt_root_path _ _ _ _ _ Hwf) in Hl. simpl in Hl. subst. apply Nat.Div0.mod_0_l. }
  destruct (wt_node _ _ _ _ _ Hwf i n Hi Hne) as [[[]] (p&pn&[])].
  destruct (path_len ps eagle Hps Hwf i n p Hi ltac:(done)) as [Hle ?].
  assert (length (φ p) mod ps = 0) as Hm by (eapply (IH (length (φ p))); [lia|done..]).
  subst l. rewrite Hle, Nat.Div0.add_mod, Hm, ko_pages. by apply Nat.Div0.mod_0_l.
Qed.

Lemma parent_in_ns i n p : ns !! i = Some n → parent n = Some p →
  in_ns ns root (namespace (key n)) p.
Proof.
  intros Hi Hp. destruct (edge_of ps eagle Hwf i n p Hi Hp) as (_&_&pn&[]).
  exists pn. split; [done|]. intros. symmetry. auto.
Qed.

(** Children of one node that agree on their first page are equal. *)
Lemma sibling_page p i j ni nj :
  ns !! i = Some ni → ns !! j = Some nj → parent ni = Some p → parent nj = Some p →
  namespace (key ni) = namespace (key nj) →
  take (length (φ p) + ps) (φ i) = take (length (φ p) + ps) (φ j) → i = j.
Proof.
  intros Hi Hj Hpi Hpj Hn Ht.
  destruct (edge_of ps eagle Hwf i ni p Hi Hpi) as (_&[Hki _]&pn&[_ Hp (ci&Hci&Hli) Hφi _]).
  destruct (edge_of ps eagle Hwf j nj p Hj Hpj) as (_&[Hkj _]&pn'&[_ Hp' (cj&Hcj&Hlj) Hφj _]).
  rewrite Hφi, Hφj, !take_app_add in Ht. apply app_inv_head in Ht.
  assert (child_key (key ni) ps = child_key (key nj) ps) as Hck; [|congruence].
  apply child_key_inj; [by rewrite (ko_mode _ _ _ Hki), (ko_mode _ _ _ Hkj)|done|..];
    [by eapply key_ok_page..|done].
Qed.

Lemma page_at_node N Q vs : page_at ns φ N Q vs →
  ∃ i n, ns !! i = Some n ∧ i ≠ root ∧ namespace (key n) = N ∧ Q `prefix_of` φ i
    ∧ 0 < length Q ∧ length Q mod ps = 0.
Proof.
  intros (i&n&p&v&j&Hi&Hp&?&?&Hj&->&->). exists i, n.
  destruct (edge_of ps eagle Hwf i n p Hi Hp) as (?&_&pn&[]).
  pose proof (path_mod p pn ltac:(done)) as Hm.
  pose proof (length_iter (key n)).
  split_and!; try done.
  - rewrite ed_path. apply prefix_app. exists (drop (j * ps + ps) (iter (key n))).
    by rewrite take_drop.
  - rewrite length_app, length_take. lia.
  - rewrite length_app, length_take. replace (_ `min` _) with ((j + 1) * ps) by lia.
    rewrite Nat.Div0.add_mod, Hm, Nat.Div0.mod_mul. by apply Nat.Div0.mod_0_l.
Qed.

(** Every page-aligned prefix of a node's path is stored. *)
Lemma stored_page N Q i n :
  ns !! i = Some n → i ≠ root → namespace (key n) = N → Q `prefix_of` φ i →
  0 < length Q → length Q mod ps = 0 → ∃ vs, page_at ns φ N Q vs.
Proof.
  remember (length (φ i)) as l eqn:Hl. revert i n Hl.
  induction (lt_wf l) as [l _ IH]; intros i n -> Hi Hr HN HQ Hpos Hm.
  destruct (wt_node _ _ _ _ _ Hwf i n Hi Hr) as [[Hk (v&Hv&_)] (p&pn&He)].
  pose proof He as [Hpa Hp _ Hφ Hens].
  destruct (path_len ps eagle Hps Hwf i n p Hi Hpa) as [Hli ?].
  destruct (decide (length Q ≤ length (φ p))) as [Hle|Hgt].
  - assert (Q `prefix_of` φ p) as HQp.
    { eapply prefix_le; [done| |done]. rewrite Hφ. by eexists. }
    assert (p ≠ root) as Hpr.
    { intros ->. rewrite (wt_root_path _ _ _ _ _ Hwf) in Hle. simpl in Hle. lia. }
    eapply (IH (length (φ p))); [lia|done|done|done|by rewrite <-Hens|done..].
  - pose proof (path_mod p pn Hp) as Hmp.
    apply Nat.Lcm0.mod_divide in Hm as [a Ha], Hmp as [b Hb].
    assert (b < a) by nia.
    exists (pyslice v ((a - b - 1) * ps) ((a - b - 1) * ps + ps)), i, n, p, v, (a - b - 1).
    assert ((a - b - 1) * ps + ps = length Q - length (φ p)) as Hj by nia.
    pose proof (prefix_length _ _ HQ).
    split_and!; try done; [lia|]. rewrite Hj. destruct HQ as [r Hr'].
    rewrite Hφ in Hr'.
    trans (take (length (φ p) + (length Q - length (φ p))) (φ p ++ iter (key n)));
      [|by rewrite take_app_add].
    rewrite Hr'. replace (_ + _) with (length Q) by lia. by rewrite take_app_length.
Qed.

(** The node whose edge holds a page lies below every node on its path. *)
Lemma page_below N Q i n p x :
  ns !! i = Some n → parent n = Some p → namespace (key n) = N →
  Q `prefix_of` φ i → in_ns ns root N x → φ x `prefix_of` Q → anc ns x i.
Proof.
  intros Hi Hp HN HQ Hx Hxq.
  eapply (path_anc ps eagle Hps Hwf N); [done| |by etrans].
  exists n. done.
Qed.

(** Descent: if a page extends the path of [x], the next page leads to a
    child of [x]. *)
Lemma page_child N Q x xn i n p :
  ns !! i = Some n → parent n = Some p → namespace (key n) = N → Q `prefix_of` φ i →
  ns !! x = Some xn → in_ns ns root N x → φ x `prefix_of` Q → length (φ x) + ps ≤ length Q →
  ∃ c cn ck, children xn !! ck = Some c ∧ ns !! c = Some cn ∧ parent cn = Some x
    ∧ child_key (key cn) ps = Ok ck ∧ namespace (key cn) = N ∧ anc ns c i
    ∧ take ps (iter (key cn)) = take ps (drop (length (φ x)) Q).
Proof.
  intros Hi Hp HN HQ Hx Hxn Hpre Hlen.
  pose proof (page_below N Q i n p x Hi Hp HN HQ Hxn Hpre) as Ha.
  assert (x ≠ i) as Hxi by (intros ->; apply prefix_length in HQ; lia).
  destruct (anc_child x i Ha Hxi) as (c&cn&Hc&Hcp&Hci).
  destruct (edge_of ps eagle Hwf c cn x Hc Hcp) as (Hcr&[Hk _]&xn'&[_ Hx' (ck&Hck&Hch) Hφ _]).
  assert (xn' = xn) as -> by congruence.
  destruct (anc_namespace ps eagle Hwf c i cn n Hci Hc Hi Hcr) as [_ Hcn].
  exists c, cn, ck. split_and!; try done; [by rewrite <-Hcn|].
  pose proof (anc_prefix ps eagle Hwf c i Hci) as Hcpre.
  destruct (key_ok_len ps eagle Hps _ Hk) as [_ ?].
  assert (take (length (φ x) + ps) (φ c) = take (length (φ x) + ps) Q) as Ht.
  { eapply prefix_take_eq; [done..|rewrite Hφ, length_app; lia|done]. }
  rewrite Hφ, take_app_add in Ht. destruct Hpre as [r ->].
  rewrite drop_app_length. rewrite take_app_add in Ht. by apply app_inv_head in Ht.
Qed.

Lemma anc_inv x y n p : anc ns x y → x ≠ y → ns !! y = Some n → parent n = Some p → anc ns x p.
Proof. intros [|? ? n' p' ? ? ?] ???; [done|]. congruence. Qed.

(** The contents are a partial function. *)
Lemma page_at_fun N Q vs vs' : page_at ns φ N Q vs → page_at ns φ N Q vs' → vs = vs'.
Proof.
  intros Hp1 Hp2.
  assert (∀ i1 n1 p1 v1 j1 i2 n2 p2 v2 j2,
    ns !! i1 = Some n1 → parent n1 = Some p1 → namespace (key n1) = N →
    j1 * ps + ps ≤ klen (key n1) → Q = φ p1 ++ take (j1 * ps + ps) (iter (key n1)) →
    ns !! i2 = Some n2 → parent n2 = Some p2 → namespace (key n2) = N →
    j2 * ps + ps ≤ klen (key n2) → Q = φ p2 ++ take (j2 * ps + ps) (iter (key n2)) →
    value n1 = Some v1 → value n2 = Some v2 →
    length (φ p1) ≤ length (φ p2) →
    pyslice v1 (j1 * ps) (j1 * ps + ps) = pyslice v2 (j2 * ps) (j2 * ps + ps)) as Hle.
  { intros i1 n1 p1 v1 j1 i2 n2 p2 v2 j2 Hi1 Hpa1 HN1 Hj1 HQ1 Hi2 Hpa2 HN2 Hj2 HQ2 Hv1 Hv2 Hlen.
    destruct (edge_of ps eagle Hwf i1 n1 p1 Hi1 Hpa1) as (_&_&q1&[_ Hq1 _ Hφ1 _]).
    destruct (edge_of ps eagle Hwf i2 n2 p2 Hi2 Hpa2) as (_&_&q2&[_ Hq2 _ Hφ2 _]).
    pose proof (length_iter (key n1)) as Hl1. pose proof (length_iter (key n2)) as Hl2.
    assert (Q `prefix_of` φ i1) as Hpre1.
    { rewrite Hφ1, HQ1. apply prefix_app. exists (drop (j1 * ps + ps) (iter (key n1))). by rewrite take_drop. }
    assert (Q `prefix_of` φ i2) as Hpre2.
    { rewrite Hφ2, HQ2. apply prefix_app. exists (drop (j2 * ps + ps) (iter (key n2))). by rewrite take_drop. }
    assert (length Q = length (φ p1) + (j1 * ps + ps)) as HlQ1.
    { rewrite HQ1, length_app, length_take. lia. }
    assert (length Q = length (φ p2) + (j2 * ps + ps)) as HlQ2.
    { rewrite HQ2, length_app, length_take. lia. }
    destruct (page_child N Q p1 q1 i2 n2 p2) as (c&cn&ck&Hch&Hc&Hcp&_&Hcn&Hca&Htk); try done.
    { rewrite <-HN1. by eapply parent_in_ns. }
    { rewrite HQ1. by eexists. }
    { lia. }
    assert (c = i1) as ->.
    { eapply (sibling_page p1 c i1 cn n1); try done; [by rewrite HN1|].
      destruct (edge_of ps eagle Hwf c cn p1 Hc Hcp) as (_&_&q1'&[_ _ _ Hφc _]).
      rewrite Hφc, Hφ1, !take_app_add, Htk, HQ1, drop_app_length, take_take. do 2 f_equal. lia. }
    assert (i1 = i2) as ->.
    { destruct (decide (i1 = i2)) as [|Hne]; [done|].
      pose proof (anc_prefix ps eagle Hwf _ _ (anc_inv _ _ _ _ Hca Hne Hi2 Hpa2)) as Hp%prefix_length.
      apply prefix_length in Hpre1. lia. }
    assert (n1 = n2) as -> by congruence. assert (p1 = p2) as -> by congruence.
    assert (j1 = j2) as -> by nia. congruence. }
  destruct Hp1 as (i1&n1&p1&v1&j1&?&?&?&?&?&?&->), Hp2 as (i2&n2&p2&v2&j2&?&?&?&?&?&?&->).
  destruct (decide (length (φ p1) ≤ length (φ p2))).
  - by eapply (Hle i1 n1 p1 v1 j1 i2 n2 p2 v2 j2).
  - symmetry. eapply (Hle i2 n2 p2 v2 j2 i1 n1 p1 v1 j1); try done. lia.
Qed.
End Facts.

(** ** Descending by a key *)

(** Reached: node [x] spells the first [m] units of [K], and [vals] are the
    slots stored under them. *)
Record reached ns (root : node_id) (φ : node_id → list lunit) N (K : list lunit)
    (vals : list Z) (m : nat) (x : node_id) : Prop := {
  re_in : in_ns ns root N x;
  re_path : φ x = take m K;
  re_le : m ≤ length K;
  re_mod : m mod ps = 0;
  re_len : length vals = m;
  re_pages : ∀ j, j * ps + ps ≤ m →
    page_at ns φ N (take (j * ps + ps) K) (pyslice vals (j * ps) (j * ps + ps));
}.

Section Descent.
Context {ns : gmap node_id TreeNode} {root : node_id} {φ : node_id → list lunit}.
Context (Hwf : wf ns root φ).
Context (N : option string * option string) (K : list lunit).

Lemma reached_root rn : ns !! root = Some rn → reached ns root φ N K [] 0 root.
Proof.
  intros Hr. split; try done; try lia.
  - by exists rn.
  - rewrite (wt_root_path _ _ _ _ _ Hwf). done.
  - apply Nat.Div0.mod_0_l.
Qed.

(** Following [l] units of the edge to a child. *)
Lemma reached_edge vals m x i n v l y :
  reached ns root φ N K vals m x → ns !! i = Some n → parent n = Some x →
  namespace (key n) = N → value n = Some v → l ≤ klen (key n) → l mod ps = 0 →
  l ≤ length K - m → take l (iter (key n)) = take l (drop m K) →
  in_ns ns root N y → φ y = φ x ++ take l (iter (key n)) →
  reached ns root φ N K (vals ++ take l v) (m + l) y.
Proof.
  intros [Hin Hpa Hle Hmod Hlen Hpg] Hi Hpx HN Hv Hl Hlm HlK Heq Hy Hφy.
  destruct (edge_of ps eagle Hwf i n x Hi Hpx) as (_&[Hk (v'&Hv'&Hlv)]&pn&[]).
  assert (v' = v) as -> by congruence. pose proof (length_iter (key n)).
  assert (take (m + l) K = φ x ++ take l (iter (key n))) as HtK.
  { rewrite Hpa, Heq, <-(take_drop m K) at 1.
    replace (m + l) with (length (take m K) + l) by (rewrite length_take; lia).
    by rewrite take_app_add. }
  split; try done.
  - by rewrite Hφy.
  - lia.
  - by rewrite Nat.Div0.add_mod, Hmod, Hlm, Nat.Div0.mod_0_l.
  - rewrite length_app, length_take. lia.
  - intros j Hj. destruct (decide (j * ps + ps ≤ m)) as [Hjm|Hjm].
    + specialize (Hpg j Hjm). unfold pyslice in *.
      rewrite drop_app_le by lia. rewrite take_app_le by (rewrite length_drop; lia). done.
    + apply Nat.Lcm0.mod_divide in Hmod as [b Hb], Hlm as [d Hd].
      assert (b ≤ j) by nia.
      exists i, n, x, v, (j - b). split_and!; try done.
      * nia.
      * assert (j * ps + ps = length (φ x) + ((j - b) * ps + ps)) as Hlen'.
        { rewrite Hpa, length_take. nia. }

        replace (take (j * ps + ps) K) with (take (j * ps + ps) (take (m + l) K))
          by (rewrite take_take; f_equal; lia).
        rewrite HtK, Hlen', take_app_add, take_take. do 2 f_equal. nia.
      * unfold pyslice. rewrite drop_app_ge by nia. rewrite Hlen.
        rewrite skipn_firstn_comm, take_take.
        replace (j * ps - m) with ((j - b) * ps) by nia. f_equal. nia.
Qed.

(** No child starts with the next page: nothing longer is stored. *)
Lemma no_child_max vals m x xn k ck :
  reached ns root φ N K vals m x → ns !! x = Some xn →
  key_ok ps eagle k → namespace k = N → iter k = drop m K →
  child_key k ps = Ok ck → children xn !! ck = None →
  ∀ vs, ~ page_at ns φ N (take (m + ps) K) vs.
Proof.
  intros [Hin Hpa Hle Hmod Hlen Hpg] Hx Hk HN Hit Hck Hnone vs (i&n&p&v&j&Hi&Hp&Hnn&Hv&Hj&HQ&Hvs).
  pose proof (key_ok_len ps eagle Hps k Hk) as [_ Hkl].
  assert (length (iter k) = length K - m) as HlK by by rewrite Hit, length_drop.
  assert (take (m + ps) K `prefix_of` φ i) as Hpre.
  { destruct (edge_of ps eagle Hwf i n p Hi Hp) as (_&_&?&[]). rewrite ed_path, HQ.
    apply prefix_app. exists (drop (j * ps + ps) (iter (key n))). by rewrite take_drop. }
  assert (length (φ x) = m) as Hφl by (rewrite Hpa, length_take; lia).
  destruct (page_child Hwf N (take (m + ps) K) x xn i n p) as (c&cn&ck'&Hch&Hc&Hcp&Hck'&Hcn&_&Htk);
    try done.
  - rewrite Hpa. exists (drop m (take (m + ps) K)).
    rewrite <-(take_drop m (take (m + ps) K)) at 1. f_equal. rewrite take_take. f_equal. lia.
  - rewrite length_take. lia.
  - destruct (edge_of ps eagle Hwf c cn x Hc Hcp) as (_&[Hkc _]&_).
    assert (child_key (key cn) ps = child_key k ps) as He; [|congruence].
    apply child_key_inj; [by rewrite (ko_mode _ _ _ Hkc), (ko_mode _ _ _ Hk)|done|
      by eapply key_ok_page..|]. split; [congruence|].
    rewrite Htk, Hφl, Hit, skipn_firstn_comm, take_take. f_equal. lia.
Qed.

(** The match ends inside an edge: nothing longer is stored. *)
Lemma partial_edge_max vals m x i n :
  reached ns root φ N K vals m x → ns !! i = Some n → parent n = Some x →
  namespace (key n) = N → length K mod ps = 0 →
  let l := page_floor ps (lcp (iter (key n)) (drop m K)) in
  0 < l → l < klen (key n) → m + l + ps ≤ length K →
  ∀ vs, ~ page_at ns φ N (take (m + l + ps) K) vs.
Proof.
  intros [Hin Hpa Hle Hmod Hlen Hpg] Hi Hpx HN HK l Hl0 Hlt Hlong vs (y&yn&p&v&j&Hy&Hp&Hnn&Hv&Hj&HQ&Hvs).
  assert (take (m + l + ps) K `prefix_of` φ y) as Hpre.
  { destruct (edge_of ps eagle Hwf y yn p Hy Hp) as (_&_&?&[]). rewrite ed_path, HQ.
    apply prefix_app. exists (drop (j * ps + ps) (iter (key yn))). by rewrite take_drop. }
  assert (length (φ x) = m) as Hφl by (rewrite Hpa, length_take; lia).
  destruct (edge_of ps eagle Hwf i n x Hi Hpx) as (Hir&[Hk _]&xn&[_ Hx _ Hφi _]).
  assert (l mod ps = 0) as Hlm by (apply Nat.Div0.mod_mul).
  pose proof (length_iter (key n)) as Hil.
  assert (l ≤ lcp (iter (key n)) (drop m K)) as Hlc by apply page_floor_le.
  assert (take l (iter (key n)) = take l (drop m K)) as Htl by by apply lcp_ge_iff.
  assert (ps ≤ l) as Hpl.
  { pose proof (aligned_gap ps 0 l (Nat.Div0.mod_0_l _) Hlm Hl0). lia. }
  destruct (page_child Hwf N (take (m + l + ps) K) x xn y yn p) as (c&cn&ck'&Hch&Hc&Hcp&_&Hcn&Hca&Htk);
    try done.
  { rewrite Hpa. exists (drop m (take (m + l + ps) K)).
    rewrite <-(take_drop m (take (m + l + ps) K)) at 1. f_equal. rewrite take_take. f_equal. lia. }
  { rewrite length_take. lia. }
  assert (c = i) as ->.
  { eapply (sibling_page Hwf x c i cn n); try done; [congruence|].
    destruct (edge_of ps eagle Hwf c cn x Hc Hcp) as (_&_&?&[_ _ _ Hφc _]).
    rewrite Hφc, Hφi, !take_app_add, Htk, Hφl. f_equal.
    rewrite skipn_firstn_comm, take_take.
    replace (take (ps `min` _) (drop m K)) with (take ps (take l (drop m K)))
      by (rewrite take_take; f_equal; lia).
    rewrite <-Htl, take_take. f_equal. lia. }
  pose proof (anc_prefix ps eagle Hwf i y Hca) as Hiy.
  assert (l + ps ≤ klen (key n)) as Hlk by (by apply aligned_gap; [|apply Hk|]).
  assert (take (m + (l + ps)) (φ i) = take (m + (l + ps)) (take (m + l + ps) K)) as Heq.
  { eapply prefix_take_eq; [done..|rewrite Hφi, length_app; lia|rewrite length_take; lia]. }
  rewrite Hφi, <-Hφl, take_app_add, Hφl, take_take in Heq.
  replace ((m + (l + ps)) `min` (m + l + ps)) with (m + (l + ps)) in Heq by lia.
  rewrite <-(take_drop m K) in Heq at 1.
  replace (m + (l + ps)) with (length (take m K) + (l + ps)) in Heq by (rewrite length_take; lia).
  rewrite take_app_add, Hpa in Heq. apply app_inv_head in Heq.
  assert (l + ps ≤ lcp (iter (key n)) (drop m K)) as Hge.
  { apply lcp_ge_iff. rewrite length_drop. split_and!; [lia|lia|done]. }
  unfold l in Hge at 1. unfold page_floor in Hge.
  pose proof (Nat.mul_succ_div_gt (lcp (iter (key n)) (drop m K)) ps). nia.
Qed.
End Descent.

(** ** Change under the structural updates *)

(** A split cuts an edge at a page boundary: each page lies on one half. *)
Section SplitPages.
Context {ns : gmap node_id TreeNode} {root : node_id} {φ : node_id → list lunit} (Hwf : wf ns root φ).
Context (i p new : node_id) (cn pn cn' pn' nn : TreeNode) (s : nat) (cv : list Z) (ck1 ck2 : ckey).
Context (Hi : ns !! i = Some cn) (Hpa : parent cn = Some p) (Hp : ns !! p = Some pn) (Hnew : ns !! new = None)
  (Hs : 0 < s) (Hlt : s < klen (key cn)) (Hm : s mod ps = 0) (Hcv : value cn = Some cv)
  (Hck1 : child_key (key cn) ps = Ok ck1)
  (Hnn : sview nn = ({[ck2 := i]}, Some p, slice_to (key cn) s, Some (take s cv)))
  (Hcn' : sview cn' = (children cn, Some new, slice_from (key cn) s, Some (drop s cv)))
  (Hpn' : sview pn' = (<[ck1 := new]> (children pn), parent pn, key pn, value pn)).

Abbreviation ns' := (split_map ns i p new cn' pn' nn).
Abbreviation φ' := (split_path φ new (φ p ++ take s (iter (key cn)))).

Lemma split_page_distinct : i ≠ p ∧ i ≠ new ∧ p ≠ new.
Proof.
  destruct (path_len ps eagle Hps Hwf i cn p Hi Hpa) as [? _]. split_and!; [|congruence..]. intros ->. lia.
Qed.

Lemma split_page_path x n q : ns !! x = Some n → parent n = Some q → φ' q = φ q.
Proof.
  intros Hx Hq. destruct (edge_of ps eagle Hwf x n q Hx Hq) as (_&_&?&[]).
  unfold split_path. rewrite decide_False by congruence. done.
Qed.

Lemma cut_units b j : s = b * ps → j * ps + ps ≤ klen (key cn) - s →
  take s (iter (key cn)) ++ take (j * ps + ps) (drop s (iter (key cn))) = take ((b + j) * ps + ps) (iter (key cn)).
Proof.
  intros Hb Hj. pose proof (length_iter (key cn)). rewrite <-(take_drop s (iter (key cn))) at 3.
  replace ((b + j) * ps + ps) with (length (take s (iter (key cn))) + (j * ps + ps)) by (rewrite length_take; nia).
  by rewrite take_app_add.
Qed.

Lemma page_split_old N Q vs : page_at ns' φ' N Q vs → page_at ns φ N Q vs.
Proof.
  destruct split_page_distinct as (Hip&Hin&Hpn). destruct (edge_of ps eagle Hwf i cn p Hi Hpa) as (Hir&[Hko _]&_).
  destruct (slice_to_ok ps eagle Hps (key cn) s) as (_&Ht2&Ht3&_); [done..|].
  destruct (slice_from_ok ps eagle Hps (key cn) s) as (_&Hf2&Hf3&Hf4); [done..|].
  pose proof Hm as [b Hb]%Nat.Lcm0.mod_divide.
  injection Hnn as _ N2 N3 N4. injection Hcn' as _ C2 C3 C4. injection Hpn' as _ P2 P3 P4.
  intros (x&n&q&v&j&Hx&Hq&HN&Hv&Hj&HQ&Hvs). rewrite split_lookup in Hx.
  case_decide as Hxp; [|case_decide as Hxi; [|case_decide as Hxn]]; try (injection Hx as <-; subst x).
  - rewrite P2 in Hq. rewrite (split_page_path p pn q) in HQ by done.
    exists p, pn, q, v, j. rewrite <-P3, <-P4. done.
  - rewrite C2 in Hq. injection Hq as <-. rewrite C3, Hf2 in Hj. rewrite C4 in Hv. injection Hv as <-.
    unfold split_path in HQ. rewrite decide_True, C3, Hf4, <-app_assoc, (cut_units b j) in HQ by done.
    exists i, cn, p, cv, (b + j). split_and!; try done; [by rewrite <-HN, C3, Hf3|nia|].
    rewrite Hvs, pyslice_drop. f_equal; nia.
  - rewrite N2 in Hq. injection Hq as <-. rewrite N3, Ht2 in Hj. rewrite N4 in Hv. injection Hv as <-.
    assert (iter (slice_to (key cn) s) = take s (iter (key cn))) as Ht5 by (apply slice_to_spec, Hko).
    rewrite (split_page_path i cn p), N3, Ht5, take_take in HQ by done.
    exists i, cn, p, cv, j. split_and!; try done; [by rewrite <-HN, N3, Ht3|lia| |].
    + rewrite HQ. do 2 f_equal. lia.
    + rewrite Hvs. apply pyslice_take. lia.
  - rewrite (split_page_path x n q) in HQ by done. exists x, n, q, v, j. done.
Qed.

Lemma page_split_new N Q vs : page_at ns φ N Q vs → page_at ns' φ' N Q vs.
Proof.
  destruct split_page_distinct as (Hip&Hin&Hpn). destruct (edge_of ps eagle Hwf i cn p Hi Hpa) as (Hir&[Hko _]&_).
  destruct (slice_to_ok ps eagle Hps (key cn) s) as (_&Ht2&Ht3&_); [done..|].
  destruct (slice_from_ok ps eagle Hps (key cn) s) as (_&Hf2&Hf3&Hf4); [done..|].
  pose proof Hm as [b Hb]%Nat.Lcm0.mod_divide.
  injection Hnn as _ N2 N3 N4. injection Hcn' as _ C2 C3 C4. injection Hpn' as _ P2 P3 P4.
  intros (x&n&q&v&j&Hx&Hq&HN&Hv&Hj&HQ&Hvs). pose proof (split_page_path x n q Hx Hq) as Hφ.
  destruct (decide (x = i)) as [->|Hxi]; [|destruct (decide (x = p)) as [->|Hxp]].
  - assert (n = cn) as -> by congruence. assert (q = p) as -> by congruence. assert (v = cv) as -> by congruence.
    destruct (decide (j < b)) as [Hjb|Hjb].
    + assert (iter (slice_to (key cn) s) = take s (iter (key cn))) as Ht5 by (apply slice_to_spec, Hko).
      exists new, nn, p, (take s cv), j. rewrite split_lookup, !decide_False, decide_True by congruence.
      rewrite N3, Ht2, Ht3, Hφ, Ht5, take_take, HQ, Hvs. split_and!; try done; [nia|do 2 f_equal; nia|].
      symmetry. apply pyslice_take. nia.
    + exists i, cn', new, (drop s cv), (j - b). rewrite split_lookup, decide_False, decide_True by congruence.
      rewrite C3, Hf2, Hf3, Hf4. unfold split_path. rewrite decide_True, <-app_assoc, (cut_units b (j - b)) by (done || nia).
      replace (b + (j - b)) with j by lia. split_and!; try done; [nia|]. rewrite Hvs, pyslice_drop. f_equal; nia.
  - assert (n = pn) as -> by congruence. exists p, pn', q, v, j. rewrite Hφ, P2, P3, P4.
    by rewrite split_lookup, decide_True.
  - exists x, n, q, v, j. rewrite Hφ. by rewrite split_lookup, !decide_False by congruence.
Qed.

Lemma page_at_split N Q vs : page_at ns' φ' N Q vs ↔ page_at ns φ N Q vs.
Proof. split; [apply page_split_old|apply page_split_new]. Qed.
End SplitPages.

Lemma page_at_add_leaf ns root φ x xn xn' new nn k v ck N Q vs :
  wf ns root φ → ns !! x = Some xn → ns !! new = None →
  sview nn = (∅, Some x, k, Some v) →
  sview xn' = (<[ck := new]> (children xn), parent xn, key xn, value xn) →
  page_at (<[x := xn']> (<[new := nn]> ns)) (split_path φ new (φ x ++ iter k)) N Q vs
  ↔ page_at ns φ N Q vs
    ∨ (N = namespace k ∧ ∃ j, j * ps + ps ≤ klen k ∧ Q = φ x ++ take (j * ps + ps) (iter k)
                            ∧ vs = pyslice v (j * ps) (j * ps + ps)).
Proof.
  intros Hwf Hx Hnew [= N1 N2 N3 N4] [= X1 X2 X3 X4]. assert (x ≠ new) as Hxn by congruence.
  assert (∀ q, q ≠ new → split_path φ new (φ x ++ iter k) q = φ q) as Hφ.
  { intros. unfold split_path. by rewrite decide_False. }
  assert (∀ i n q, ns !! i = Some n → parent n = Some q → q ≠ new) as Hpar.
  { intros i n q Hi Hq. destruct (edge_of ps eagle Hwf i n q Hi Hq) as (_&_&?&[]). congruence. }
  split.
  - intros (i&n&q&u&j&Hi&Hq&HN&Hv&Hj&HQ&Hvs). rewrite !lookup_insert in Hi.
    case_decide as Hix; [|case_decide as Hin]; try (injection Hi as <-; subst i).
    + left. rewrite X2 in Hq. exists x, xn, q, u, j.
      rewrite Hφ in HQ by eauto. rewrite <-X3, <-X4. done.
    + right. rewrite N2 in Hq. injection Hq as <-. rewrite N3 in *. rewrite N4 in Hv. injection Hv as <-.
      rewrite Hφ in HQ by done. eauto.
    + left. rewrite Hφ in HQ by eauto. by exists i, n, q, u, j.
  - intros [(i&n&q&u&j&Hi&Hq&HN&Hv&Hj&HQ&Hvs)|(HN&j&Hj&HQ&Hvs)].
    + destruct (decide (i = x)) as [->|Hix].
      * assert (n = xn) as -> by congruence. exists x, xn', q, u, j.
        rewrite Hφ, X2, X3, X4 by eauto. by rewrite lookup_insert_eq.
      * exists i, n, q, u, j. rewrite Hφ by eauto.
        by rewrite !lookup_insert_ne by congruence.
    + exists new, nn, x, v, j. rewrite Hφ, N2, N3, N4 by done.
      by rewrite lookup_insert_ne, lookup_insert_eq by done.
Qed.

Lemma page_at_remove_leaf ns root φ i cn p pn pn' ck N Q vs :
  wf ns root φ → ns !! i = Some cn → parent cn = Some p → ns !! p = Some pn →
  children cn = ∅ →
  sview pn' = (delete ck (children pn), parent pn, key pn, value pn) →
  page_at (delete i (<[p := pn']> ns)) φ N Q vs
  ↔ page_at ns φ N Q vs
    ∧ ~ (N = namespace (key cn) ∧ length (φ p) < length Q ∧ Q `prefix_of` φ i).
Proof.
  intros Hwf Hi Hpa Hp Hleaf [= P1 P2 P3 P4].
  destruct (path_len ps eagle Hps Hwf i cn p Hi Hpa) as [Hli ?].
  assert (i ≠ p) as Hip by (intros ->; lia).
  assert (∀ x n, delete i (<[p := pn']> ns) !! x = Some n →
    x ≠ i ∧ ∃ n0, ns !! x = Some n0 ∧ parent n0 = parent n ∧ key n0 = key n ∧ value n0 = value n) as Hd.
  { intros x n. rewrite lookup_delete, lookup_insert. intros Hx.
    case_decide as Hxi; [done|]. split; [done|]. case_decide as Hxp; [|by eauto].
    injection Hx as <-. subst x. by exists pn. }
  assert (∀ x n, ns !! x = Some n → x ≠ i → ∃ n', delete i (<[p := pn']> ns) !! x = Some n'
    ∧ parent n' = parent n ∧ key n' = key n ∧ value n' = value n) as Hu.
  { intros x n Hx Hxi. rewrite lookup_delete_ne by done. destruct (decide (x = p)) as [->|].
    - exists pn'. assert (n = pn) as -> by congruence. by rewrite lookup_insert_eq.
    - exists n. by rewrite lookup_insert_ne. }
  split.
  - intros (x&n&q&v&j&Hx&Hq&HN&Hv&Hj&HQ&Hvs).
    destruct (Hd x n Hx) as (Hxi&n0&Hx0&Eq&Ek&Ev).
    assert (page_at ns φ N Q vs) as Hpage.
    { exists x, n0, q, v, j. rewrite Eq, Ek, Ev. done. }
    split; [done|]. intros (HNi&Hlen&Hpre).
    (* the page lies on the edge of [i]: below [p], through [i], so it is [i]'s *)
    assert (Q `prefix_of` φ x) as HQx.
    { destruct (edge_of ps eagle Hwf x n0 q Hx0 ltac:(congruence)) as (_&_&?&[]).
      rewrite ed_path, HQ, Ek. apply prefix_app.
      exists (drop (j * ps + ps) (iter (key n))). by rewrite take_drop. }
    assert (length Q mod ps = 0) as Hm by by destruct (page_at_node Hwf N Q vs Hpage) as (?&?&_&_&_&_&_&?).
    pose proof (path_mod Hwf p pn Hp) as Hmp.
    assert (length (φ p) + ps ≤ length Q) as Hge by by apply aligned_gap.
    destruct (edge_of ps eagle Hwf i cn p Hi Hpa) as (_&_&pn0&[_ Hp0 _ Hφi _]).
    destruct (page_child Hwf N Q p pn x n0 q) as (c&cn0&ck0&_&Hc&Hcp&_&Hcn&Hca&Htk); try done.
    + congruence.
    + by rewrite Ek.
    + rewrite HNi. by eapply parent_in_ns.
    + eapply prefix_le; [|exact Hpre|lia]. rewrite Hφi. by eexists.
    + assert (c = i) as ->.
      { eapply (sibling_page Hwf p c i cn0 cn); try done; [by rewrite Hcn|].
        destruct (edge_of ps eagle Hwf c cn0 p Hc Hcp) as (_&_&?&[_ _ _ Hφc _]).
        rewrite Hφc, take_app_add, Htk. symmetry.
        trans (take (length (φ p) + ps) Q); [by eapply prefix_take_eq; [done..|rewrite Hli; lia|lia]|].
        assert (φ p `prefix_of` Q) as [r ->].
        { eapply prefix_le; [|exact Hpre|lia]. rewrite Hφi. by eexists. }
        by rewrite take_app_add, drop_app_length. }
      destruct (anc_child i x Hca) as (c2&cn2&Hc2&Hcp2&_); [done|].
      destruct (edge_of ps eagle Hwf c2 cn2 i Hc2 Hcp2) as (_&_&?&[_ ? (?&_&Hch) _ _]).
      assert (x0 = cn) as -> by congruence. by rewrite Hleaf, lookup_empty in Hch.
  - intros [(x&n&q&v&j&Hx&Hq&HN&Hv&Hj&HQ&Hvs) Hnot].
    destruct (decide (x = i)) as [->|Hxi].
    + exfalso. apply Hnot. assert (n = cn) as -> by congruence. assert (q = p) as -> by congruence.
      destruct (edge_of ps eagle Hwf i cn p Hi Hpa) as (_&_&pn0&[_ _ _ Hφi _]).
      pose proof (length_iter (key cn)).
      split_and!; [done| |].
      * rewrite HQ, length_app, length_take. lia.
      * rewrite HQ, Hφi. apply prefix_app. exists (drop (j * ps + ps) (iter (key cn))). by rewrite take_drop.
    + destruct (Hu x n Hx Hxi) as (n'&Hx'&Eq&Ek&Ev). exists x, n', q, v, j.
      rewrite Eq, Ek, Ev. done.
Qed.
End Pages.
