(* ===== verification/RadixAcct.v ===== *)
(** * Accounting invariant of the radix cache

    On top of the tree structure: a reference count covers the counts of the
    children (the difference, [own], is the number of locks taken on the node
    itself), the two size counters are the sums over unlocked and locked nodes,
    and the evictable set is exactly the set of unlocked leaves.  [quiet] names
    the steps that refresh or refine the tree without changing what it stores
    (time stamps, priorities, hit counts, node splits). *)

From stdpp Require Import base tactics numbers list gmap strings.
From Stdlib Require Import ZArith Lia ZifyNat.
From S2P Require Import Prelude RadixKey TreeNode KvEvents EventQueue RadixCache RadixInv RadixPages.

Definition view (n : TreeNode) := (sview n, lock_ref n).
Definition same_core (ns ns' : gmap node_id TreeNode) : Prop := view <$> ns = view <$> ns'.

Global Instance same_core_equiv : Equivalence same_core.
Proof. split; red; unfold same_core; congruence. Qed.

Lemma same_core_shape ns ns' : same_core ns ns' → same_shape ns ns'.
Proof.
  unfold same_core, same_shape. intros Hc.
  assert (∀ m : gmap node_id TreeNode, sview <$> m = fst <$> (view <$> m)) as Hv
    by (intros; by rewrite <-map_fmap_compose).
  by rewrite !Hv, Hc.
Qed.

Lemma same_core_alter f i ns : (∀ n, view (f n) = view n) → same_core (alter f i ns) ns.
Proof.
  intros Hf. unfold same_core. apply map_eq. intros j. rewrite !lookup_fmap, lookup_alter.
  case_decide; [subst|done]. destruct (ns !! j); simpl; by rewrite ?Hf.
Qed.

Lemma same_core_lookup ns ns' i n :
  same_core ns ns' → ns !! i = Some n → ∃ n', ns' !! i = Some n' ∧ view n' = view n.
Proof.
  intros Hs Hi. assert ((view <$> ns) !! i = (view <$> ns') !! i) as He by by rewrite Hs.
  rewrite !lookup_fmap, Hi in He. destruct (ns' !! i) as [n'|]; simpl in He; [|done].
  exists n'. split; congruence.
Qed.

Lemma same_core_dom ns ns' : same_core ns ns' → dom ns = dom ns'.
Proof. intros Hc. rewrite <-(dom_fmap_L view ns), <-(dom_fmap_L view ns'). by rewrite Hc. Qed.

Definition ev_len (root i : node_id) (n : TreeNode) : Z :=
  if decide (i = root) then 0%Z
  else if (lock_ref n =? 0)%Z then Z.of_nat (klen (key n)) else 0%Z.
Definition pr_len (root i : node_id) (n : TreeNode) : Z :=
  if decide (i = root) then 0%Z
  else if (lock_ref n =? 0)%Z then 0%Z else Z.of_nat (klen (key n)).

Definition is_evictable_leaf (ns : gmap node_id TreeNode) (root i : node_id) : Prop :=
  ∃ n, ns !! i = Some n ∧ i ≠ root ∧ lock_ref n = 0%Z ∧ children n = ∅.

(** ** Locks

    [inc_lock_ref] raises the count of every node up to the root, so what is left
    of a count after those of the children is what was taken on the node. *)
Definition lock_at (ns : gmap node_id TreeNode) (i : node_id) : Z :=
  match ns !! i with Some n => lock_ref n | None => 0%Z end.
Definition child_locks (ns : gmap node_id TreeNode) (n : TreeNode) : Z :=
  msum (λ _ ch, lock_at ns ch) (children n).
Definition own (ns : gmap node_id TreeNode) (n : TreeNode) : Z :=
  (lock_ref n - child_locks ns n)%Z.

Lemma lock_at_some ns i n : ns !! i = Some n → lock_at ns i = lock_ref n.
Proof. unfold lock_at. by intros ->. Qed.

Lemma child_locks_ext ns ns' n n' : children n = children n' →
  (∀ ck ch, children n !! ck = Some ch → lock_at ns ch = lock_at ns' ch) →
  child_locks ns n = child_locks ns' n'.
Proof.
  intros Hc Hl. unfold child_locks. rewrite <-Hc. apply msum_ext; [done|].
  intros ck a b Ha Hb. assert (a = b) as -> by congruence. by eapply Hl.
Qed.

Lemma own_ext ns ns' n n' : children n = children n' → lock_ref n = lock_ref n' →
  (∀ ck ch, children n !! ck = Some ch → lock_at ns ch = lock_at ns' ch) → own ns n = own ns' n'.
Proof. intros Hc Hr Hl. unfold own. by rewrite (child_locks_ext ns ns' n n'), Hr. Qed.

Lemma own_leaf ns n : children n = ∅ → own ns n = lock_ref n.
Proof. intros Hc. unfold own, child_locks. rewrite Hc, msum_empty. lia. Qed.

Lemma same_core_lock_at ns ns' i : same_core ns ns' → lock_at ns i = lock_at ns' i.
Proof.
  intros Hc. unfold lock_at. destruct (ns !! i) as [n|] eqn:Hi.
  - destruct (same_core_lookup _ _ _ _ Hc Hi) as (n'&->&[= ? ? ? ? ?]). done.
  - assert (ns' !! i = None) as ->; [|done]. apply not_elem_of_dom. rewrite <-(same_core_dom _ _ Hc).
    by apply not_elem_of_dom.
Qed.

Lemma same_core_own ns ns' n n' : same_core ns ns' → view n = view n' → own ns n = own ns' n'.
Proof. intros Hc [= ? ? ? ? ?]. apply own_ext; [done..|]. intros. by apply same_core_lock_at. Qed.

(** ** The KV slots held by the tree *)

Definition slots (ns : gmap node_id TreeNode) : list Z :=
  map_to_list (value <$> ns) ≫= (λ p, default [] p.2).

Lemma slots_insert ns i n v : ns !! i = None → value n = Some v → slots (<[i := n]> ns) ≡ₚ v ++ slots ns.
Proof.
  intros Hi Hv. unfold slots. rewrite fmap_insert, Hv.
  rewrite map_to_list_insert by by rewrite lookup_fmap, Hi. done.
Qed.

Lemma slots_delete ns i n v : ns !! i = Some n → value n = Some v → slots ns ≡ₚ v ++ slots (delete i ns).
Proof.
  intros Hi Hv. rewrite <-(insert_delete_id ns i n Hi) at 1.
  by rewrite slots_insert by (apply lookup_delete_eq || done).
Qed.

Lemma slots_update ns i n n' : ns !! i = Some n → value n' = value n → slots (<[i := n']> ns) = slots ns.
Proof.
  intros Hi Hv. unfold slots. rewrite fmap_insert, Hv, insert_id; [done|]. by rewrite lookup_fmap, Hi.
Qed.

Lemma same_shape_slots ns ns' : same_shape ns ns' → slots ns = slots ns'.
Proof.
  intros Hs. unfold slots. do 2 f_equal.
  assert (∀ m : gmap node_id TreeNode, value <$> m = (λ v, v.2) <$> (sview <$> m)) as Hl
    by (intros; rewrite <-map_fmap_compose; done).
  rewrite !Hl. by rewrite Hs.
Qed.

(** ** Hash values of the nodes

    A node that carries page hashes carries one readable digest per page of its
    key, and a salted node with event hashes hangs below one that has them. *)
Definition hview (n : TreeNode) := (parent n, key n, hash_value n, event_hash_value n).
Definition good_hash (h : string) : Prop := ∃ z, hash_str_to_int64 h = Ok z.
Definition hashes_for (ps : nat) (k : RadixKey) (h : list string) : Prop :=
  length h = klen k / ps ∧ Forall good_hash h.

Record hash_wf (ps : nat) (ns : gmap node_id TreeNode) (root : node_id) : Prop := {
  hw_root : ∀ rn, ns !! root = Some rn → klen (key rn) = 0;
  hw_val : ∀ i n h, ns !! i = Some n → hash_value n = Some h → hashes_for ps (key n) h;
  hw_ev : ∀ i n h, ns !! i = Some n → event_hash_value n = Some h → hashes_for ps (key n) h;
  hw_up : ∀ i n p pn, ns !! i = Some n → parent n = Some p → ns !! p = Some pn → p ≠ root →
    event_hash_value n ≠ None → event_hash_value pn ≠ None;
}.

Lemma hash_wf_view ps ns ns' root : hview <$> ns = hview <$> ns' → hash_wf ps ns root → hash_wf ps ns' root.
Proof.
  intros He [Hr Hv Hev Hup].
  assert (∀ i n', ns' !! i = Some n' → ∃ n, ns !! i = Some n ∧ hview n = hview n') as Hb.
  { intros i n' Hi. assert ((hview <$> ns) !! i = (hview <$> ns') !! i) as E by by rewrite He.
    rewrite !lookup_fmap, Hi in E. destruct (ns !! i) as [n|]; simpl in E; [|done].
    exists n. split; congruence. }
  split.
  - intros rn Hi. destruct (Hb _ _ Hi) as (?&?&[= _ <- _ _]). eauto.
  - intros i n h Hi. destruct (Hb _ _ Hi) as (?&?&[= _ <- <- _]). eauto.
  - intros i n h Hi. destruct (Hb _ _ Hi) as (?&?&[= _ <- _ <-]). eauto.
  - intros i n p pn Hi Hp Hpn Hne. destruct (Hb _ _ Hi) as (n0&?&[= Hpa _ _ <-]).
    destruct (Hb _ _ Hpn) as (?&?&[= _ _ _ <-]). eapply Hup; eauto. congruence.
Qed.

Lemma hview_alter f i (ns : gmap node_id TreeNode) :
  (∀ n, hview (f n) = hview n) → hview <$> ns = hview <$> alter f i ns.
Proof.
  intros Hf. apply map_eq. intros j. rewrite !lookup_fmap, lookup_alter.
  case_decide; [subst|done]. destruct (ns !! j); simpl; by rewrite ?Hf.
Qed.

Section Acct.
Context {A : Type}.
Implicit Types c : RadixCache A.

Record acct c : Prop := {
  ac_root_lock : ∀ rn, nodes c !! root_node c = Some rn → (0 < lock_ref rn)%Z;
  ac_lock : ∀ i n, nodes c !! i = Some n → (0 ≤ lock_ref n)%Z;
  ac_own : ∀ i n, nodes c !! i = Some n → i ≠ root_node c → (0 ≤ own (nodes c) n)%Z;
  ac_ev : evictable_size_ c = msum (ev_len (root_node c)) (nodes c);
  ac_pr : protected_size_ c = msum (pr_len (root_node c)) (nodes c);
  ac_leaves : ∀ i, i ∈ evictable_leaves c ↔ is_evictable_leaf (nodes c) (root_node c) i;
  ac_fresh : ∀ i, is_Some (nodes c !! i) → i < counter c;
}.

Record inv c (φ : node_id → list lunit) : Prop := {
  in_ps : 0 < page_size c;
  in_tree : wf_tree (page_size c) (is_eagle c) (nodes c) (root_node c) φ;
  in_acct : acct c;
}.

Definition hash_inv c : Prop :=
  (rec_page_size (kv_events c) = page_size c ∧ recorder_wf (kv_events c))
  ∧ hash_wf (page_size c) (nodes c) (root_node c).

(** The configuration fields, which no operation changes. *)
Definition cfg c := (disable c, page_size c, is_eagle c, disable_finished_insert c,
                     eviction_strategy c, root_node c).

Abbreviation pages c φ := (page_at (page_size c) (nodes c) φ).

Record quiet c (φ : node_id → list lunit) c' (φ' : node_id → list lunit) : Prop := {
  qu_inv : inv c' φ';
  qu_cfg : cfg c' = cfg c;
  qu_alloc : allocator c' = allocator c;
  qu_events : kv_events c' = kv_events c;
  qu_ev : evictable_size_ c' = evictable_size_ c;
  qu_pr : protected_size_ c' = protected_size_ c;
  qu_pages : ∀ N Q vs, pages c' φ' N Q vs ↔ pages c φ N Q vs;
  qu_nodes : ∀ i n, nodes c !! i = Some n →
    φ' i = φ i ∧ ∃ n', nodes c' !! i = Some n' ∧ lock_ref n' = lock_ref n
                       ∧ namespace (key n') = namespace (key n)
                       ∧ own (nodes c') n' = own (nodes c) n;
  qu_slots : slots (nodes c') ≡ₚ slots (nodes c);
  qu_hash : hash_inv c → hash_inv c';
}.

Lemma quiet_refl c φ : inv c φ → quiet c φ c φ.
Proof. intros. split; try done. intros i n ?. split; [done|]. eauto. Qed.

Lemma quiet_trans c1 φ1 c2 φ2 c3 φ3 : quiet c1 φ1 c2 φ2 → quiet c2 φ2 c3 φ3 → quiet c1 φ1 c3 φ3.
Proof.
  intros [? ? ? ? ? ? Hp1 Hn1 Hs1 Hh1] [? ? ? ? ? ? Hp2 Hn2 Hs2 Hh2]. split; try congruence; [| |by etrans|by auto].
  - intros. by rewrite Hp2, Hp1.
  - intros i n Hi. destruct (Hn1 i n Hi) as (<-&n'&Hi'&<-&<-&<-).
    destruct (Hn2 i n' Hi') as (<-&n''&?&<-&<-&<-).
    split; [done|]. by exists n''.
Qed.

(** A step that keeps the core of the store and the counters keeps the invariant;
    it is quiet when it also leaves the allocator and the events alone. *)
Lemma inv_core c c' φ : inv c φ → same_core (nodes c) (nodes c') → cfg c' = cfg c →
  evictable_size_ c' = evictable_size_ c → protected_size_ c' = protected_size_ c →
  evictable_leaves c' = evictable_leaves c → counter c ≤ counter c' → inv c' φ.
Proof.
  intros [Hps Ht [A1 A2 A3 A4 A5 A6 A7]] Hc Hcfg He Hp Hl Hcnt.
  pose proof (same_core_dom _ _ Hc) as Hdom. pose proof (same_core_shape _ _ Hc) as Hsh.
  injection Hcfg as C1 C2 C3 C4 C5 C6.
  assert (∀ i n', nodes c' !! i = Some n' → ∃ n, nodes c !! i = Some n ∧ view n = view n') as Hb.
  { intros i n' Hi. symmetry in Hc. eapply same_core_lookup; eauto. }
  split; [by rewrite C2|by rewrite C2, C3, C6, <-Hsh|].
  split; rewrite ?C6, ?Hl.
  - intros rn Hr. destruct (Hb _ _ Hr) as (?&?&[= ? ? ? ? <-]). eauto.
  - intros i n Hi. destruct (Hb _ _ Hi) as (?&?&[= ? ? ? ? <-]). eauto.
  - intros i n Hi Hne. destruct (Hb _ _ Hi) as (n0&Hi0&Hv).
    rewrite <-(same_core_own (nodes c) (nodes c') n0 n) by done. by eapply A3.
  - rewrite He, A4. apply msum_ext; [done|]. intros i n n' Hi Hi'.
    destruct (Hb _ _ Hi') as (?&?&[= ? ? Hk ? Hlk]). unfold ev_len. by simplify_eq; rewrite <-Hk, <-Hlk.
  - rewrite Hp, A5. apply msum_ext; [done|]. intros i n n' Hi Hi'.
    destruct (Hb _ _ Hi') as (?&?&[= ? ? Hk ? Hlk]). unfold pr_len. by simplify_eq; rewrite <-Hk, <-Hlk.
  - intros i. rewrite A6. split; intros (n&Hi&?&?&?).
    + destruct (same_core_lookup _ _ _ _ Hc Hi) as (n'&?&[=]). exists n'. split_and!; congruence.
    + destruct (Hb _ _ Hi) as (n'&?&[=]). exists n'. split_and!; congruence.
  - intros i Hi%elem_of_dom. rewrite <-Hdom in Hi. apply elem_of_dom in Hi. specialize (A7 i Hi). lia.
Qed.

Lemma inv_set_allocator c φ a : inv c φ → inv (set_allocator a c) φ.
Proof. intros Hinv. apply (inv_core c); try done. Qed.

Lemma quiet_core c c' φ : inv c φ → same_core (nodes c) (nodes c') → cfg c' = cfg c →
  allocator c' = allocator c → kv_events c' = kv_events c →
  evictable_size_ c' = evictable_size_ c → protected_size_ c' = protected_size_ c →
  evictable_leaves c' = evictable_leaves c → counter c ≤ counter c' →
  (hash_inv c → hash_inv c') → quiet c φ c' φ.
Proof.
  intros Hi Hc Hcfg Hal Hev He Hp Hl Hcnt Hhash. pose proof Hcfg as [= _ C2 _ _ _ _].
  split; try done; [by eapply inv_core| | |].
  - intros. rewrite C2. symmetry. by apply page_at_shape, same_core_shape.
  - intros i n Hin. split; [done|].
    destruct (same_core_lookup _ _ _ _ Hc Hin) as (n'&?&Hv). pose proof Hv as [= ? ? Hk ? ?].
    exists n'. split_and!; [done..|by rewrite Hk|]. symmetry. by apply same_core_own.
  - by rewrite (same_shape_slots _ _ (same_core_shape _ _ Hc)).
Qed.

Lemma quiet_page_size c φ c' φ' : quiet c φ c' φ' → page_size c' = page_size c.
Proof. by intros [_ [= _ ->] _ _ _ _ _ _ _ _]. Qed.
Lemma quiet_root c φ c' φ' : quiet c φ c' φ' → root_node c' = root_node c.
Proof. by intros [_ [= _ _ _ _ _ ->] _ _ _ _ _ _ _ _]. Qed.
Lemma quiet_eagle c φ c' φ' : quiet c φ c' φ' → is_eagle c' = is_eagle c.
Proof. by intros [_ [= _ _ ->] _ _ _ _ _ _ _ _]. Qed.

Abbreviation reached_in c φ := (reached (page_size c) (nodes c) (root_node c) φ).

Lemma in_ns_quiet c φ c' φ' N x : quiet c φ c' φ' →
  in_ns (nodes c) (root_node c) N x → in_ns (nodes c') (root_node c') N x.
Proof.
  intros Hq (n&Hx&Hn). rewrite (quiet_root _ _ _ _ Hq).
  destruct (qu_nodes _ _ _ _ Hq x n Hx) as (_&n'&?&_&Hns&_). exists n'. by rewrite Hns.
Qed.

Lemma reached_quiet c φ c' φ' N K vals m x : quiet c φ c' φ' →
  reached_in c φ N K vals m x → reached_in c' φ' N K vals m x.
Proof.
  intros Hq [Hin ? ? ? ? Hpg]. split; rewrite ?(quiet_page_size _ _ _ _ Hq); try done.
  - by eapply in_ns_quiet.
  - destruct Hin as (n&Hx&_). destruct (qu_nodes _ _ _ _ Hq x n Hx) as (->&_). done.
  - intros j Hj. rewrite <-(quiet_page_size _ _ _ _ Hq) at 1. apply (qu_pages _ _ _ _ Hq). auto.
Qed.
End Acct.
