(* ===== verification/RadixEvents.v ===== *)
(** * Publishing the events of a tree

    [record_store] and [record_remove] on the nodes of a radix tree: with
    readable page digests they never raise, they only fill in missing hash
    values (along the whole salted chain), and the parent link of a stored node
    is the last block of its parent. *)

From stdpp Require Import base tactics numbers list gmap strings.
From Stdlib Require Import ZArith Lia ZifyNat.
From S2P Require Import Prelude RadixKey TreeNode KvEvents EventQueue RadixCache RadixInv RadixPages RadixAcct.

(** What the recorder follows of a tree: the parent links.  (A node being
    evicted is already unlinked from its parent's children.) *)
Record chain (ps : nat) (ns : gmap node_id TreeNode) (root : node_id) (f : node_id → nat) : Prop := {
  ch_root : ∀ rn, ns !! root = Some rn → parent rn = None;
  ch_key : ∀ i n, ns !! i = Some n → klen (key n) mod ps = 0
    ∧ (i ≠ root → 0 < klen (key n) ∧ parent n ≠ None);
  ch_parent : ∀ i n p, ns !! i = Some n → parent n = Some p →
    ∃ pn, ns !! p = Some pn ∧ (p ≠ root → namespace (key n) = namespace (key pn)) ∧ f p < f i;
  ch_bound : ∀ i, is_Some (ns !! i) → f i < size ns;
}.

Lemma chain_of_wf ps eagle ns root φ : 0 < ps → wf_tree ps eagle ns root φ →
  (∀ rn, ns !! root = Some rn → klen (key rn) = 0) → chain ps ns root (depth ns φ).
Proof.
  intros Hps Hwf Hr. destruct (wt_root _ _ _ _ _ Hwf) as (rn&Hrn&Hp&_). split.
  - intros rn' ?. congruence.
  - intros i n Hi. destruct (decide (i = root)) as [->|Hne].
    + rewrite (Hr n Hi). split; [apply Nat.Div0.mod_0_l|done].
    + destruct (wt_node _ _ _ _ _ Hwf i n Hi Hne) as [[[] _] (?&?&[])].
      split; [done|]. split; congruence.
  - intros i n p Hi Hpa. destruct (edge_of _ _ Hwf i n p Hi Hpa) as (_&_&pn&[]).
    exists pn. split_and!; try done. by eapply depth_parent.
  - intros i [n Hi]. by eapply depth_lt_size.
Qed.

(** The links the recorder reads do not include the children. *)
Definition link (n : TreeNode) := (parent n, key n).

Lemma chain_link ps ns ns' root f : link <$> ns = link <$> ns' → chain ps ns root f → chain ps ns' root f.
Proof.
  intros He [Hr Hk Hp Hb].
  assert (∀ i n', ns' !! i = Some n' → ∃ n, ns !! i = Some n ∧ link n = link n') as Hl.
  { intros i n' Hi. assert ((link <$> ns) !! i = (link <$> ns') !! i) as E by by rewrite He.
    rewrite !lookup_fmap, Hi in E. destruct (ns !! i) as [n|]; simpl in E; [|done].
    exists n. split; congruence. }
  assert (∀ i n, ns !! i = Some n → ∃ n', ns' !! i = Some n' ∧ link n = link n') as Hl'.
  { intros i n' Hi. assert ((link <$> ns) !! i = (link <$> ns') !! i) as E by by rewrite He.
    rewrite !lookup_fmap, Hi in E. destruct (ns' !! i) as [n|]; simpl in E; [|done].
    exists n. split; congruence. }
  assert (size ns' = size ns) as Hs.
  { rewrite <-(map_size_fmap link ns), He, map_size_fmap. done. }
  split.
  - intros rn Hi. destruct (Hl _ _ Hi) as (?&?&[= <- _]). eauto.
  - intros i n Hi. destruct (Hl _ _ Hi) as (?&?&[= <- <-]). eauto.
  - intros i n p Hi Hpa. destruct (Hl _ _ Hi) as (n0&Hi0&[= Hpe Hke]).
    destruct (Hp i n0 p Hi0 ltac:(congruence)) as (pn&Hpn&Hns&Hf).
    destruct (Hl' _ _ Hpn) as (pn'&?&[= _ Hk']). exists pn'. rewrite <-Hke, <-Hk'. done.
  - intros i [n' Hi]. destruct (Hl _ _ Hi) as (n&?&_). rewrite Hs. apply Hb. eauto.
Qed.

(** The digests a node publishes: chained from the salt in a salted namespace. *)
Definition published (n : TreeNode) : option (list string) :=
  match cache_salt (key n) with Some _ => event_hash_value n | None => hash_value n end.

Section Hashing.
Context (native_hash : RadixKey → option string → nat → list string).
Context (salt_digest : string → string).
(** [get_native_hash] returns one hex digest per page. *)
Context (Hnative : ∀ k prior ps, 0 < ps → klen k mod ps = 0 →
  length (native_hash k prior ps) = klen k / ps ∧ Forall good_hash (native_hash k prior ps)).
Context (ps : nat) (Hps : 0 < ps).
Implicit Types ns : gmap node_id TreeNode.

Lemma get_hash_str_ok k prior : klen k mod ps = 0 → hashes_for ps k (get_hash_str native_hash k prior ps).
Proof. intros. by apply Hnative. Qed.

Lemma compute_node_hash_values_ok ns root f i n : chain ps ns root f → ns !! i = Some n →
  ∃ h, compute_node_hash_values native_hash ns n ps = Ok h ∧ hashes_for ps (key n) h.
Proof.
  intros Hc Hi. destruct (ch_key _ _ _ _ Hc i n Hi) as [Hk _].
  unfold compute_node_hash_values. destruct (parent n) as [p|] eqn:Hp; res_step.
  - destruct (ch_parent _ _ _ _ Hc i n p Hi Hp) as (pn&Hpn&_). rewrite Hpn. res_step.
    destruct (hash_value pn); cbn [res_bind]; eexists; (split; [done|]); by apply get_hash_str_ok.
  - eexists. split; [done|]. by apply get_hash_str_ok.
Qed.

(** Where the walk over nodes without event hashes ends. *)
Definition stops ns root (stop : option node_id) : Prop :=
  match stop with
  | None => True
  | Some c => ∃ cn, ns !! c = Some cn ∧ (c = root ∨ event_hash_value cn ≠ None)
  end.

Lemma missing_nodes_ok ns root f salt fuel i n : chain ps ns root f → hash_wf ps ns root →
  f i < fuel → ns !! i = Some n → (i ≠ root → cache_salt (key n) = Some salt) →
  ∃ l stop, missing_nodes fuel ns salt (Some i) = Ok (l, stop)
    ∧ stops ns root stop
    ∧ (∀ c cn, stop = Some c → ns !! c = Some cn → 0 < klen (key cn) → cache_salt (key cn) = Some salt)
    ∧ (∀ j, j ∈ l → is_Some (ns !! j))
    ∧ (∀ j jn p, j ∈ l → ns !! j = Some jn → parent jn = Some p → p ∈ l ∨ stop = Some p)
    ∧ (i ≠ root → event_hash_value n = None → i ∈ l).
Proof.
  intros Hc Hh. revert i n. induction fuel as [|fuel IH]; intros i n Hf Hi Hs; [lia|].
  cbn [missing_nodes]. rewrite Hi. res_step.
  destruct (ch_key _ _ _ _ Hc i n Hi) as [_ Hpos].
  destruct (decide (i = root)) as [->|Hne].
  { rewrite (hw_root _ _ _ Hh n Hi). simpl. exists [], (Some root).
    split_and!; try done; [by eexists; eauto| |set_solver..].
    intros c cn [= <-] Hcn Hk. rewrite (hw_root _ _ _ Hh cn Hcn) in Hk. lia. }
  destruct (Nat.ltb_spec 0 (klen (key n))); [|destruct (Hpos Hne); lia]. cbn [andb].
  case_bool_decide as Hev.
  - rewrite (Hs Hne), bool_decide_true by done. cbn [negb].
    destruct (parent n) as [p|] eqn:Hp.
    + destruct (ch_parent _ _ _ _ Hc i n p Hi Hp) as (pn&Hpn&Hns&Hlt).
      destruct (IH p pn) as (l&stop&Hm&Hst&Hsa&Hin&Hpar&_); [lia|done| |].
      { intros Hpr. specialize (Hns Hpr). injection Hns as _ Hns. rewrite <-Hns. auto. }
      rewrite Hm. cbn [res_bind fst snd]. exists (i :: l), stop. split_and!; try done; [| |set_solver].
      * intros j [->|]%elem_of_cons; [eauto|auto].
      * intros j jn q [->|Hj]%elem_of_cons Hjn Hq.
        -- assert (q = p) as -> by congruence.
           destruct fuel; [done|]. cbn [missing_nodes] in Hm. rewrite Hpn in Hm. cbn [res_of_option res_bind] in Hm.
           destruct (_ && _); [|injection Hm as <- <-; by right].
           destruct (negb _); [done|]. destruct (missing_nodes fuel ns salt (parent pn)); [|done].
           cbn [res_bind] in Hm. injection Hm as <- <-. left. set_solver.
        -- destruct (Hpar j jn q Hj Hjn Hq); [left; set_solver|by right].
    + by destruct (Hpos Hne).
  - exists [], (Some i). split_and!; try done; [by eexists; eauto| |set_solver..].
    intros c cn [= <-] Hcn _. assert (cn = n) as -> by congruence. auto.
Qed.

Lemma fill_event_hashes_ok ns root f parent_hash l : chain ps ns root f →
  (∀ j, j ∈ l → is_Some (ns !! j)) →
  ∃ ns', fill_event_hashes native_hash ns parent_hash l ps = Ok ns' ∧ dom ns' = dom ns
    ∧ ∀ j n, ns !! j = Some n → ∃ o, ns' !! j = Some (set_event_hash_value o n)
      ∧ (j ∈ l → ∃ h, o = Some h ∧ hashes_for ps (key n) h) ∧ (j ∉ l → o = event_hash_value n).
Proof.
  revert ns parent_hash. induction l as [|i l IH]; intros ns ph Hc Hin; cbn [fill_event_hashes].
  - exists ns. split_and!; try done. intros j n Hj. exists (event_hash_value n).
    split_and!; [by rewrite Hj; destruct n|set_solver|done].
  - destruct (Hin i) as [n Hi]; [set_solver|]. rewrite Hi. res_step.
    destruct (ch_key _ _ _ _ Hc i n Hi) as [Hk _].
    pose proof (get_hash_str_ok (key n) (Some ph) Hk) as Hg. set (h := get_hash_str _ _ _ _) in *.
    set (ns1 := <[i := set_event_hash_value (Some h) n]> ns).
    assert (dom ns1 = dom ns) as Hdom.
    { unfold ns1. rewrite dom_insert_L. assert (i ∈ dom ns) by (apply elem_of_dom; eauto). set_solver. }
    edestruct (IH ns1) as (ns'&Hf&Hd&Hall).
    + eapply (chain_link ps ns); [|done]. unfold ns1. rewrite fmap_insert. symmetry. apply insert_id.
      rewrite lookup_fmap, Hi. done.
    + intros j Hj. apply elem_of_dom. rewrite Hdom. apply elem_of_dom, Hin. set_solver.
    + exists ns'. split; [exact Hf|]. split; [congruence|]. intros j m Hj.
      destruct (decide (j = i)) as [->|Hji].
      * assert (m = n) as -> by congruence.
        destruct (Hall i (set_event_hash_value (Some h) n)) as (o&Ho&Ho1&Ho2);
          [by unfold ns1; rewrite lookup_insert_eq|].
        exists o. split_and!; [done| |set_solver].
        intros _. destruct (decide (i ∈ l)) as [Hil|Hil]; [by apply Ho1|].
        rewrite (Ho2 Hil). eauto.
      * destruct (Hall j m) as (o&Ho&Ho1&Ho2); [by unfold ns1; rewrite lookup_insert_ne|].
        exists o. split_and!; [done|set_solver..].
Qed.

Lemma compute_node_event_hash_values_ok ns root f i n salt : chain ps ns root f → hash_wf ps ns root →
  ns !! i = Some n → i ≠ root → cache_salt (key n) = Some salt →
  ∃ ns' h o, compute_node_event_hash_values native_hash salt_digest ns i ps = Ok (ns', h)
    ∧ same_core ns ns' ∧ hash_wf ps ns' root ∧ hashes_for ps (key n) h
    ∧ ns' !! i = Some (set_event_hash_value o n) ∧ o = Some h.
Proof.
  intros Hc Hh Hi Hne Hs. unfold compute_node_event_hash_values. rewrite Hi. res_step.
  rewrite Hs. destruct (event_hash_value n) as [h|] eqn:Hev.
  { exists ns, h, (Some h). split_and!; try done; [by eapply hw_ev|]. rewrite Hi, <-Hev. by destruct n. }
  destruct (missing_nodes_ok ns root f salt (S (size ns)) i n) as (l&stop&Hm&Hst&Hsa&Hin&Hpar&Hil); try done.
  { pose proof (ch_bound _ _ _ _ Hc i ltac:(eauto)). lia. }
  rewrite Hm. res_step.
  assert (∃ ph, (match stop with
    | None => Ok (salt_digest salt)
    | Some c => let! cn := res_of_option KeyError (ns !! c) in
        if (0 <? klen (key cn)) && negb (bool_decide (cache_salt (key cn) = Some salt))
        then Raise ValueError
        else match event_hash_value cn with
             | Some h => Ok (default (salt_digest salt) (last h))
             | None => Ok (salt_digest salt)
             end
    end) = Ok ph) as [ph Hph].
  { destruct stop as [c|]; [|by eexists]. destruct Hst as (cn&Hcn&_). rewrite Hcn. res_step.
    destruct (Nat.ltb_spec 0 (klen (key cn))) as [Hk|Hk]; cbn [andb].
    - rewrite (Hsa c cn eq_refl Hcn Hk), bool_decide_true by done. simpl. destruct (event_hash_value cn); by eexists.
    - destruct (event_hash_value cn); by eexists. }
  rewrite Hph. res_step.
  destruct (fill_event_hashes_ok ns root f ph (reverse l) Hc) as (ns'&Hf&Hd&Hall).
  { intros j Hj. apply Hin. by apply elem_of_reverse. }
  rewrite Hf. res_step. destruct (Hall i n Hi) as (o&Ho&Ho1&_).
  destruct Ho1 as (h&->&Hhf); [by apply elem_of_reverse, Hil|]. rewrite Ho. res_step.
  exists ns', h, (Some h).
  assert (∀ j n', ns' !! j = Some n' → ∃ n0 o0, ns !! j = Some n0 ∧ n' = set_event_hash_value o0 n0
    ∧ (j ∈ l → ∃ h, o0 = Some h ∧ hashes_for ps (key n0) h) ∧ (j ∉ l → o0 = event_hash_value n0)) as Hback.
  { intros j n' Hj. assert (is_Some (ns !! j)) as [n0 Hn0] by (apply elem_of_dom; rewrite <-Hd; apply elem_of_dom; eauto).
    destruct (Hall j n0 Hn0) as (o0&Ho0&H1&H2). exists n0, o0. rewrite !elem_of_reverse in *.
    split_and!; try done. congruence. }
  split_and!; try done.
  - unfold same_core. apply map_eq. intros j. rewrite !lookup_fmap.
    destruct (ns !! j) as [n0|] eqn:Hj.
    + destruct (Hall j n0 Hj) as (o0&->&_). done.
    + assert (ns' !! j = None) as ->; [|done]. apply not_elem_of_dom. rewrite Hd. by apply not_elem_of_dom.
  - split.
    + intros rn Hr. destruct (Hback _ _ Hr) as (n0&o0&Hn0&->&_). exact (hw_root _ _ _ Hh n0 Hn0).
    + intros j n' h' Hj. destruct (Hback _ _ Hj) as (n0&o0&Hn0&->&_). exact (hw_val _ _ _ Hh j n0 h' Hn0).
    + intros j n' h' Hj. destruct (Hback _ _ Hj) as (n0&o0&Hn0&->&H1&H2). simpl. intros ->.
      destruct (decide (j ∈ l)) as [Hjl|Hjl]; [by destruct (H1 Hjl) as (?&[= ->]&?)|].
      eapply (hw_ev _ _ _ Hh j); [done|]. symmetry. auto.
    + intros j n' p pn Hj Hp Hpn Hpr He. destruct (Hback _ _ Hj) as (n0&o0&Hn0&->&H1&H2).
      destruct (Hback _ _ Hpn) as (p0&op&Hp0&->&G1&G2). simpl in *.
      destruct (decide (p ∈ l)) as [Hpl|Hpl]; [destruct (G1 Hpl) as (?&->&_); done|].
      rewrite (G2 Hpl). destruct (decide (j ∈ l)) as [Hjl|Hjl].
      * destruct (Hpar j n0 p Hjl Hn0 Hp) as [?|Hst']; [done|]. rewrite Hst' in Hst. simpl in Hst.
        destruct Hst as (cn&Hcn&[?|?]); congruence.
      * rewrite (H2 Hjl) in He. by eapply (hw_up _ _ _ Hh j n0 p p0).
Qed.
Lemma hash_wf_set ns root i n h : hash_wf ps ns root → ns !! i = Some n → hashes_for ps (key n) h →
  hash_wf ps (<[i := set_hash_value (Some h) n]> ns) root.
Proof.
  intros [Hr Hv Hev Hup] Hi Hh.
  assert (∀ j n', <[i := set_hash_value (Some h) n]> ns !! j = Some n' → ∃ n0, ns !! j = Some n0
    ∧ key n' = key n0 ∧ parent n' = parent n0 ∧ event_hash_value n' = event_hash_value n0
    ∧ (hash_value n' = hash_value n0 ∨ hash_value n' = Some h ∧ n0 = n)) as Hb.
  { intros j n' Hj. apply lookup_insert_Some in Hj as [[<- <-]|[? Hj]]; [exists n|exists n']; split_and!; auto. }
  split.
  - intros rn Hj. destruct (Hb _ _ Hj) as (n0&?&->&_). eauto.
  - intros j n' h' Hj. destruct (Hb _ _ Hj) as (n0&?&->&_&_&[->|[-> ->]]); [eauto|]. intros [= <-]. done.
  - intros j n' h' Hj. destruct (Hb _ _ Hj) as (n0&?&->&_&->&_). eauto.
  - intros j n' p pn Hj. destruct (Hb _ _ Hj) as (n0&?&_&->&->&_). intros Hp Hpn.
    destruct (Hb _ _ Hpn) as (p0&?&_&_&->&_). eauto.
Qed.

Lemma same_core_insert ns i n n' : ns !! i = Some n → view n' = view n → same_core ns (<[i := n']> ns).
Proof.
  intros Hi Hv. unfold same_core. rewrite fmap_insert, Hv. symmetry. apply insert_id.
  by rewrite lookup_fmap, Hi.
Qed.

Lemma node_event_hash_values_ok ns root f i n : chain ps ns root f → hash_wf ps ns root →
  ns !! i = Some n → i ≠ root →
  ∃ ns' h n', node_event_hash_values native_hash salt_digest ns i ps = Ok (ns', h)
    ∧ same_core ns ns' ∧ hash_wf ps ns' root ∧ hashes_for ps (key n) h
    ∧ ns' !! i = Some n' ∧ view n' = view n
    ∧ published n' = Some h.
Proof.
  intros Hc Hh Hi Hne. unfold node_event_hash_values. rewrite Hi. res_step.
  assert (∃ ns1 n1 h1, match hash_value n with
      | Some _ => Ok ns
      | None => let! h := compute_node_hash_values native_hash ns n ps in
                Ok (<[i := set_hash_value (Some h) n]> ns) end = Ok ns1
    ∧ ns1 !! i = Some n1 ∧ view n1 = view n ∧ hash_value n1 = Some h1 ∧ hashes_for ps (key n) h1
    ∧ same_core ns ns1 ∧ hash_wf ps ns1 root) as (ns1&n1&h1&->&Hi1&Hv1&Hh1&Hf1&Hs1&Hw1).
  { destruct (hash_value n) as [h|] eqn:Hhv.
    - exists ns, n, h. split_and!; try done. by eapply hw_val.
    - destruct (compute_node_hash_values_ok ns root f i n Hc Hi) as (h&->&Hg). res_step.
      eexists _, _, h. split_and!; [done|by rewrite lookup_insert_eq|done..| |].
      + by apply same_core_insert with n.
      + by apply hash_wf_set. }
  res_step. rewrite Hi1. res_step.
  pose proof Hv1 as [= V1 V2 V3 V4 V5]. rewrite V3.
  destruct (cache_salt (key n)) as [salt|] eqn:Hsalt.
  - destruct (compute_node_event_hash_values_ok ns1 root f i n1 salt) as (ns2&h&o&He&Hs2&Hw2&Hf2&Hi2&->);
      try done; [|congruence|].
    { eapply (chain_link ps ns); [|done].
      assert (∀ m : gmap node_id TreeNode, link <$> m = (λ v, (v.1.1.1.2, v.1.1.2)) <$> (view <$> m)) as Hl
        by (intros; rewrite <-map_fmap_compose; done).
      rewrite !Hl. by rewrite Hs1. }
    eexists ns2, h, _. split_and!; try done; [by etrans|congruence|].
    unfold published. simpl. by rewrite V3, Hsalt.
  - eexists ns1, h1, n1. unfold published. rewrite Hh1, V3, Hsalt. by split_and!.
Qed.

Lemma hash_ints h k : hashes_for ps k h →
  ∃ hz, length hz = klen k / ps ∧ Forall2 (λ h z, hash_str_to_int64 h = Ok z) h hz.
Proof.
  intros [Hl Hg]. rewrite <-Hl. clear Hl. induction Hg as [|x h [z Hz] _ (hz&Hl&Hf)].
  - by exists [].
  - exists (z :: hz). simpl. split; [lia|by constructor].
Qed.

Lemma parent_block_hash_of_ok ns root f i n : chain ps ns root f → hash_wf ps ns root →
  ns !! i = Some n → (cache_salt (key n) ≠ None → event_hash_value n ≠ None) →
  ∃ ph, parent_block_hash_of ns n = Ok ph.
Proof.
  intros Hc Hh Hi Hev. unfold parent_block_hash_of. destruct (parent n) as [p|] eqn:Hp; [|by eexists].
  destruct (ch_parent _ _ _ _ Hc i n p Hi Hp) as (pn&Hpn&_&_). rewrite Hpn. res_step.
  destruct (parent pn) as [q|] eqn:Hq; [|by eexists].
  assert (p ≠ root) as Hpr.
  { intros ->. pose proof (ch_root _ _ _ _ Hc pn Hpn). congruence. }
  assert (∀ hs, hashes_for ps (key pn) (default [] hs) → ∃ ph, match last (default [] hs) with
    | None => Ok None
    | Some h => let! z := hash_str_to_int64 h in Ok (Some z) end = Ok ph) as Hlast.
  { intros hs [_ Hg]. destruct (last (default [] hs)) as [h|] eqn:Hl; [|by eexists].
    apply last_Some in Hl as [l Hl]. rewrite Hl in Hg.
    apply Forall_app in Hg as [_ [[z ->] _]%Forall_cons]. by eexists. }
  destruct (cache_salt (key n)) as [salt|] eqn:Hs.
  - destruct (event_hash_value pn) as [h|] eqn:He; res_step.
    + apply (Hlast (Some h)). by eapply hw_ev.
    + by destruct (hw_up _ _ _ Hh i n p pn Hi Hp Hpn Hpr (Hev ltac:(done))).
  - res_step. destruct (hash_value pn) as [h|] eqn:He; cbn [default last]; [|by eexists].
    apply (Hlast (Some h)). by eapply hw_val.
Qed.

(** Storing a node publishes its pages in order, each linked to the previous
    one and the first to [parent]. *)
Lemma record_store_ok ns root f i n r : chain ps ns root f → hash_wf ps ns root →
  ns !! i = Some n → i ≠ root → rec_page_size r = ps →
  (enabled r = true → recorder_wf r) →
  ∃ ns' r', record_store native_hash salt_digest ns i None r = Ok (ns', r')
    ∧ same_core ns ns' ∧ hash_wf ps ns' root
    ∧ enabled r' = enabled r ∧ rec_page_size r' = ps
    ∧ (enabled r = false → r' = r)
    ∧ (enabled r = true → recorder_wf r' ∧ ∃ n' hs hz parent_hash,
        ns' !! i = Some n' ∧ hashes_for ps (key n) hs
        ∧ published n' = Some hs
        ∧ Forall2 (λ h z, hash_str_to_int64 h = Ok z) hs hz
        ∧ parent_block_hash_of ns' n' = Ok parent_hash
        ∧ queue_ops (queue r') = queue_ops (queue r) ++ page_ops (key n) GPU ps 0 parent_hash hz).
Proof.
  intros Hc Hh Hi Hne Hr Hwf. unfold record_store. destruct (enabled r) eqn:Hen; cbn [negb]; cycle 1.
  { exists ns, r. by split_and!. }
  rewrite Hr. destruct (node_event_hash_values_ok ns root f i n) as (ns'&h&n'&->&Hs&Hw&Hf&Hi'&Hv&Hval); [done..|].
  res_step. rewrite Hi'. res_step. pose proof Hv as [= V1 V2 V3 V4 V5].
  assert (chain ps ns' root f) as Hc'.
  { eapply (chain_link ps ns); [|done].
    assert (∀ m : gmap node_id TreeNode, link <$> m = (λ v, (v.1.1.1.2, v.1.1.2)) <$> (view <$> m)) as Hl
      by (intros; rewrite <-map_fmap_compose; done).
    rewrite !Hl. by rewrite Hs. }
  destruct (parent_block_hash_of_ok ns' root f i n') as [ph Hph]; [done..| |].
  { intros Hs1. unfold published in Hval. destruct (cache_salt (key n')); [congruence|done]. }
  rewrite Hph. res_step. destruct (hash_ints h (key n) Hf) as (hz&Hlz&Hz).
  destruct (ch_key _ _ _ _ Hc i n Hi) as [Hk _].
  assert (klen (key n) = klen (key n) / ps * ps) as Hdiv by (apply Nat.Lcm0.mod_divide in Hk as [b ->]; rewrite Nat.div_mul; lia).
  replace (page_starts (klen (key n')) ps) with ((λ i, i * ps) <$> seq 0 (klen (key n) / ps))
    by (rewrite V3, <-page_starts_aligned, <-Hdiv; done).
  rewrite V3. cbn [default].
  destruct (store_pages_spec (key n) GPU ps h hz (klen (key n) / ps) 0 ph r) as (r'&Hs'&Hq&Hw'&He'&Hp');
    [done|lia|apply Hf|by auto|done|].
  rewrite Hs'. res_step. exists ns', r'.
  split_and!; [done..|congruence|congruence|done|].
  intros _. split; [done|]. exists n', h, hz, ph. by split_and!.
Qed.

Lemma record_remove_ok ns root f i n r : chain ps ns root f → hash_wf ps ns root →
  ns !! i = Some n → i ≠ root → rec_page_size r = ps →
  (enabled r = true → recorder_wf r) →
  ∃ ns' r', record_remove native_hash salt_digest ns i None r = Ok (ns', r')
    ∧ same_core ns ns' ∧ hash_wf ps ns' root
    ∧ enabled r' = enabled r ∧ rec_page_size r' = ps
    ∧ (enabled r = false → r' = r)
    ∧ (enabled r = true → recorder_wf r' ∧ ∃ n' hs hz,
        ns' !! i = Some n' ∧ hashes_for ps (key n) hs
        ∧ published n' = Some hs
        ∧ Forall2 (λ h z, hash_str_to_int64 h = Ok z) hs hz
        ∧ queue_ops (queue r') = queue_ops (queue r) ++ ((λ z, OpRemove z (Some GPU)) <$> hz)).
Proof.
  intros Hc Hh Hi Hne Hr Hwf. unfold record_remove. destruct (enabled r) eqn:Hen; cbn [negb]; cycle 1.
  { exists ns, r. by split_and!. }
  rewrite Hr. destruct (node_event_hash_values_ok ns root f i n) as (ns'&h&n'&->&Hs&Hw&Hf&Hi'&Hv&Hval); [done..|].
  res_step. rewrite Hi'. res_step. pose proof Hv as [= V1 V2 V3 V4 V5].
  destruct (hash_ints h (key n) Hf) as (hz&Hlz&Hz).
  destruct (ch_key _ _ _ _ Hc i n Hi) as [Hk _].
  assert (klen (key n) = klen (key n) / ps * ps) as Hdiv by (apply Nat.Lcm0.mod_divide in Hk as [b ->]; rewrite Nat.div_mul; lia).
  replace (page_starts (klen (key n')) ps) with ((λ i, i * ps) <$> seq 0 (klen (key n) / ps))
    by (rewrite V3, <-page_starts_aligned, <-Hdiv; done).
  rewrite V3.
  rewrite (remove_hashes_spec ps h hz (klen (key n) / ps) 0 (klen (key n))); [|done|lia|apply Hf|done].
  res_step. specialize (Hwf eq_refl).
  destruct (enqueue_spec (EvRemoved hz (Some GPU)) r Hwf I) as (Ho&Hwq&Heq&Hpq).
  exists ns', (match hz with [] => r | _ => enqueue (EvRemoved hz (Some GPU)) r end).
  split_and!; [by destruct hz|done|done|destruct hz; congruence|destruct hz; congruence|done|].
  intros _. split; [by destruct hz|]. exists n', h, hz. split_and!; try done.
  destruct hz; [simpl; by rewrite app_nil_r|exact Ho].
Qed.
End Hashing.
