(* ===== verification/RadixMatch.v ===== *)
(** * Prefix matching

    Correctness of node splitting and of [match_prefix]: a lookup leaves the
    stored contents, the locks and the size counters unchanged, returns the slots
    of a page-aligned prefix of the key, and no longer prefix is stored. *)

From stdpp Require Import base tactics numbers list gmap strings.
From Stdlib Require Import ZArith Lia ZifyNat.
From S2P Require Import Prelude RadixKey TreeNode KvEvents RadixCache RadixInv RadixPages RadixAcct.

Section Match.
Context {A : Type} `{!KvAllocator A} (monotonic : nat → Z).
Implicit Types c : RadixCache A.
Implicit Types φ : node_id → list lunit.

Abbreviation pages c φ := (page_at (page_size c) (nodes c) φ).
Abbreviation reached_in c φ := (reached (page_size c) (nodes c) (root_node c) φ).

Lemma upd_quiet c φ i f : inv c φ → (∀ n, view (f n) = view n) →
  (∀ n, hview (f n) = hview n) → quiet c φ (upd_node i f c) φ.
Proof.
  intros Hi Hf Hh. apply quiet_core; try done.
  - simpl. symmetry. by apply same_core_alter.
  - intros [? Hw]. split; [done|]. eapply hash_wf_view; [|exact Hw]. by apply hview_alter.
Qed.

Lemma now_quiet c φ : inv c φ → quiet c φ (now monotonic c).2 φ.
Proof. intros. by apply quiet_core. Qed.

Lemma get_node_ok c i n : nodes c !! i = Some n → get_node c i = Ok n.
Proof. unfold get_node. by intros ->. Qed.

(** [split_node] as one update of the store. *)
Lemma split_node_eq c i cn p pn v s ck1 ck2 :
  nodes c !! i = Some cn → parent cn = Some p → nodes c !! p = Some pn → value cn = Some v →
  i ≠ p → i ≠ counter c → p ≠ counter c →
  child_key (key cn) (page_size c) = Ok ck1 →
  child_key (slice_from (key cn) s) (page_size c) = Ok ck2 →
  ∃ c' cn' pn' nn, split_node monotonic (key cn) i s c = Ok (c', counter c)
    ∧ nodes c' = split_map (nodes c) i p (counter c) cn' pn' nn
    ∧ view nn = ({[ck2 := i]}, Some p, slice_to (key cn) s, Some (take s v), lock_ref cn)
    ∧ view cn' = (children cn, Some (counter c), slice_from (key cn) s, Some (drop s v), lock_ref cn)
    ∧ view pn' = (<[ck1 := counter c]> (children pn), parent pn, key pn, value pn, lock_ref pn)
    ∧ counter c' = S (counter c) ∧ cfg c' = cfg c ∧ allocator c' = allocator c
    ∧ kv_events c' = kv_events c ∧ evictable_size_ c' = evictable_size_ c
    ∧ protected_size_ c' = protected_size_ c ∧ evictable_leaves c' = evictable_leaves c
    ∧ (hash_value nn, hash_value cn') = split_node_hash_value (hash_value cn) s (page_size c)
    ∧ (event_hash_value nn, event_hash_value cn')
      = split_node_hash_value (event_hash_value cn) s (page_size c)
    ∧ hash_value pn' = hash_value pn ∧ event_hash_value pn' = event_hash_value pn.
Proof.
  intros Hi Hpa Hp Hv Hip Hin Hpn Hck1 Hck2.
  unfold split_node. rewrite (get_node_ok c i cn Hi).
  unfold alloc_node, now. cbn [res_bind page_size set_nodes set_counter set_reads fst snd].
  rewrite Hck2, Hv, Hpa. res_step.
  destruct (split_node_hash_value (hash_value cn) s (page_size c)) as [h1 h2].
  destruct (split_node_hash_value (event_hash_value cn) s (page_size c)) as [e1 e2].
  unfold upd_node. cbn [nodes set_nodes set_counter set_reads page_size counter].
  rewrite Hck1. res_step.
  do 4 eexists. split; [reflexivity|]. simpl. split.
  { rewrite (alter_as_insert _ (<[counter c:=_]> (nodes c)) (counter c) _ (lookup_insert_eq _ _ _)).
    rewrite insert_insert_eq. unfold split_map.
    erewrite (alter_as_insert _ (<[counter c:=_]> (nodes c)) i cn)
      by (rewrite lookup_insert_ne by done; exact Hi).
    erewrite (alter_as_insert _ _ p pn)
      by (rewrite !lookup_insert_ne by done; exact Hp).
    reflexivity. }
  by split_and!.
Qed.

(** Splitting shares out the page hashes with the pages. *)
Lemma split_hashes ps k s o o1 o2 : 0 < ps → s mod ps = 0 → klen k mod ps = 0 → s < klen k →
  klen (slice_to k s) = s → klen (slice_from k s) = klen k - s →
  (o1, o2) = split_node_hash_value o s ps → (∀ h, o = Some h → hashes_for ps k h) →
  (∀ h, o1 = Some h → hashes_for ps (slice_to k s) h)
  ∧ (∀ h, o2 = Some h → hashes_for ps (slice_from k s) h)
  ∧ (o = None ↔ o1 = None) ∧ (o = None ↔ o2 = None).
Proof.
  intros Hps [a Ha]%Nat.Lcm0.mod_divide [b Hb]%Nat.Lcm0.mod_divide Hlt Hl1 Hl2 Heq Ho.
  destruct o as [h|]; simpl in Heq; injection Heq as -> ->; [|by split_and!].
  destruct (Ho h eq_refl) as [Hlen Hall].
  assert ((if ps =? 1 then s else s / ps) = a) as ->.
  { destruct (Nat.eqb_spec ps 1) as [->|]; [lia|]. subst s. by rewrite Nat.div_mul by lia. }
  assert (klen k / ps = b) as Hkb by (rewrite Hb; by rewrite Nat.div_mul by lia).
  assert (s / ps = a) as Hsa by (subst s; by rewrite Nat.div_mul by lia).
  assert ((klen k - s) / ps = b - a) as Hd.
  { rewrite Hb, Ha, <-Nat.mul_sub_distr_r. by rewrite Nat.div_mul by lia. }
  split_and!; [| |done|done].
  - intros h' [= <-]. split; [rewrite length_take, Hl1; nia|by apply Forall_take].
  - intros h' [= <-]. split; [rewrite length_drop, Hl2; nia|by apply Forall_drop].
Qed.

(** Splitting moves lengths between nodes of the same lock state. *)
Lemma split_msum (f : node_id → TreeNode → Z) ns i p new cn pn cn' pn' nn :
  ns !! i = Some cn → ns !! p = Some pn → ns !! new = None → i ≠ p → i ≠ new → p ≠ new →
  f p pn' = f p pn → (f i cn' + f new nn = f i cn)%Z →
  msum f (split_map ns i p new cn' pn' nn) = msum f ns.
Proof.
  intros Hi Hp Hn ? ? ? Hfp Hfi. unfold split_map.
  rewrite (msum_update f _ p pn) by by rewrite !lookup_insert_ne.
  rewrite (msum_update f _ i cn) by by rewrite lookup_insert_ne.
  rewrite msum_insert by done. lia.
Qed.

Lemma split_own c φ i cn p pn nn cn' pn' v s ck1 ck2 :
  inv c φ → nodes c !! i = Some cn → parent cn = Some p → nodes c !! p = Some pn →
  view nn = ({[ck2 := i]}, Some p, slice_to (key cn) s, Some (take s v), lock_ref cn) →
  view cn' = (children cn, Some (counter c), slice_from (key cn) s, Some (drop s v), lock_ref cn) →
  view pn' = (<[ck1 := counter c]> (children pn), parent pn, key pn, value pn, lock_ref pn) →
  children pn !! ck1 = Some i →
  let ns' := split_map (nodes c) i p (counter c) cn' pn' nn in
  (∀ j n n', nodes c !! j = Some n → ns' !! j = Some n' → own ns' n' = own (nodes c) n)
  ∧ own ns' nn = 0%Z.
Proof.
  intros Hinv Hi Hpa Hp [= N1 N2 N3 N4 N5] [= C1 C2 C3 C4 C5] [= P1 P2 P3 P4 P5] Hch ns'.
  pose proof Hinv as [Hps Hwf Hac].
  assert (nodes c !! counter c = None) as Hnew.
  { destruct (nodes c !! counter c) eqn:E; [|done]. pose proof (ac_fresh _ Hac (counter c) ltac:(eauto)). lia. }
  destruct (path_len _ _ Hps Hwf i cn p Hi Hpa) as [Hpl Hpk].
  assert (i ≠ p) as Hip by (intros ->; lia).
  assert (i ≠ counter c) by congruence. assert (p ≠ counter c) by congruence.
  assert (∀ j, j ≠ counter c → lock_at ns' j = lock_at (nodes c) j) as Hlk.
  { intros j Hj. unfold lock_at, ns'. rewrite split_lookup.
    destruct (decide (j = p)) as [->|]; [by rewrite Hp|].
    destruct (decide (j = i)) as [->|]; [by rewrite Hi|]. by rewrite decide_False. }
  assert (lock_at ns' (counter c) = lock_ref cn) as Hlkn.
  { unfold lock_at, ns'. by rewrite split_lookup, !decide_False, decide_True by congruence. }
  assert (∀ j n ck ch, nodes c !! j = Some n → children n !! ck = Some ch → ch ≠ counter c) as Hchn.
  { intros j n ck ch Hj Hc. destruct (wt_child _ _ _ _ _ Hwf j n ck ch Hj Hc) as (_&?&?&_). congruence. }
  split.
  - intros j n n' Hj Hj'. unfold ns' in Hj'. rewrite split_lookup in Hj'.
    destruct (decide (j = p)) as [->|]; [|destruct (decide (j = i)) as [->|]].
    + assert (n = pn) as -> by congruence. injection Hj' as <-. unfold own, child_locks. rewrite P1, P5.
      rewrite (msum_update _ _ ck1 i) by done. rewrite Hlkn, Hlk, (lock_at_some _ i cn Hi) by done.
      rewrite (msum_ext (λ _ ch, lock_at ns' ch) (λ _ ch, lock_at (nodes c) ch) (children pn) (children pn));
        [lia|done|]. intros ck a b Ha Hb. assert (a = b) as -> by congruence. apply Hlk. by eapply Hchn.
    + assert (n = cn) as -> by congruence. injection Hj' as <-. apply own_ext; [done..|].
      rewrite C1. intros. apply Hlk. by eapply Hchn.
    + rewrite decide_False in Hj' by congruence. assert (n' = n) as -> by congruence.
      apply own_ext; [done..|]. intros. apply Hlk. by eapply Hchn.
  - unfold own, child_locks. rewrite N1, N5, <-insert_empty, msum_insert, msum_empty by apply lookup_empty.
    rewrite Hlk, (lock_at_some _ i cn Hi) by done. lia.
Qed.

Lemma split_acct c c' i cn p pn nn cn' pn' v s ck1 ck2 φ :
  inv c φ → nodes c !! i = Some cn → parent cn = Some p → nodes c !! p = Some pn →
  klen (slice_to (key cn) s) + klen (slice_from (key cn) s) = klen (key cn) →
  nodes c' = split_map (nodes c) i p (counter c) cn' pn' nn →
  view nn = ({[ck2 := i]}, Some p, slice_to (key cn) s, Some (take s v), lock_ref cn) →
  view cn' = (children cn, Some (counter c), slice_from (key cn) s, Some (drop s v), lock_ref cn) →
  view pn' = (<[ck1 := counter c]> (children pn), parent pn, key pn, value pn, lock_ref pn) →
  children pn !! ck1 = Some i →
  counter c' = S (counter c) → cfg c' = cfg c → evictable_size_ c' = evictable_size_ c →
  protected_size_ c' = protected_size_ c → evictable_leaves c' = evictable_leaves c →
  acct c'.
Proof.
  intros Hinv Hi Hpa Hp Hkl Hns Hvn Hvc Hvp Hch Hcnt Hcfg Hev Hpr Hlv.
  pose proof Hinv as [Hps Hwf [A1 A2 A3 A4 A5 A6 A7]].
  pose proof Hvn as [= N1 N2 N3 N4 N5]. pose proof Hvc as [= C1 C2 C3 C4 C5].
  pose proof Hvp as [= P1 P2 P3 P4 P5].
  injection Hcfg as _ _ _ _ _ Hroot.
  assert (nodes c !! counter c = None) as Hnew.
  { destruct (nodes c !! counter c) eqn:E; [|done]. pose proof (A7 (counter c) ltac:(eauto)). lia. }
  destruct (path_len _ _ Hps Hwf i cn p Hi Hpa) as [Hpl Hpk].
  assert (i ≠ p) as Hip by (intros ->; lia).
  assert (i ≠ counter c) by congruence. assert (p ≠ counter c) by congruence.
  assert (counter c ≠ root_node c) as Hcr.
  { destruct (wt_root _ _ _ _ _ Hwf) as (?&?&_). congruence. }
  destruct (edge_of _ _ Hwf i cn p Hi Hpa) as (Hir&_).
  assert (∀ j, nodes c' !! j = if decide (j = p) then Some pn' else if decide (j = i) then Some cn'
    else if decide (j = counter c) then Some nn else nodes c !! j) as Hl
    by (intros; rewrite Hns; apply split_lookup).
  (* every node of the new store has the lock of a node of the old one *)
  assert (∀ j n, nodes c' !! j = Some n → ∃ j0 n0, nodes c !! j0 = Some n0 ∧ lock_ref n = lock_ref n0
    ∧ (j ≠ counter c → j0 = j)) as Hlk.
  { intros j n. rewrite Hl. case_decide as E1; [|case_decide as E2; [|case_decide as E3]].
    - intros [= <-]. exists p, pn. by split_and!.
    - intros [= <-]. exists i, cn. by split_and!.
    - intros [= <-]. exists i, cn. by split_and!.
    - intros. by exists j, n. }
  split; rewrite ?Hroot, ?Hcnt, ?Hlv.
  - intros rn Hr. destruct (Hlk _ _ Hr) as (j0&n0&Hj0&->&Hj). rewrite Hj in Hj0 by done. by apply A1.
  - intros j n Hj. destruct (Hlk _ _ Hj) as (j0&n0&?&->&_). by eapply A2.
  - intros j n Hj Hjr. rewrite Hns in Hj |- *. rewrite split_lookup in Hj.
    destruct (split_own c φ i cn p pn nn cn' pn' v s ck1 ck2) as (Hold&Hown); [done..|].
    case_decide as E1; [|case_decide as E2; [|case_decide as E3]]; try (injection Hj as <-); subst;
      rewrite ?Hown; try done.
    + erewrite (Hold p pn pn'); [by eapply A3|done|]. rewrite split_lookup. by rewrite decide_True.
    + erewrite (Hold i cn cn'); [by eapply A3|done|]. rewrite split_lookup. by rewrite decide_False, decide_True.
    + erewrite (Hold j n n); [by eapply A3|done|]. rewrite split_lookup. by rewrite !decide_False.
  - rewrite Hev, A4, Hns. symmetry. eapply split_msum; try done; unfold ev_len.
    + by rewrite P3, P5.
    + rewrite !decide_False, C3, C5, N3, N5 by done. destruct (lock_ref cn =? 0)%Z; lia.
  - rewrite Hpr, A5, Hns. symmetry. eapply split_msum; try done; unfold pr_len.
    + by rewrite P3, P5.
    + rewrite !decide_False, C3, C5, N3, N5 by done. destruct (lock_ref cn =? 0)%Z; lia.
  - intros j. rewrite A6. unfold is_evictable_leaf. rewrite Hl.
    destruct (decide (j = p)) as [->|]; [|destruct (decide (j = i)) as [->|];
      [|destruct (decide (j = counter c)) as [->|]; [|done]]].
    + rewrite Hp. split; intros (n&[= <-]&_&_&Hem).
      * exfalso. by rewrite Hem in Hch.
      * exfalso. rewrite P1 in Hem. by apply insert_non_empty in Hem.
    + rewrite Hi. split; intros (m&Hm&?&?&?); eexists; split_and!; try done; congruence.
    + rewrite Hnew. split; intros (m&Hm&_&_&Hem); [done|]. exfalso.
      assert (m = nn) as -> by congruence. rewrite N1 in Hem. by apply map_non_empty_singleton in Hem.
  - intros j [n Hj]. destruct (Hlk j n Hj) as (j0&n0&Hj0&_&He).
    destruct (decide (j = counter c)) as [->|Hne]; [lia|]. rewrite He in Hj0 by done.
    pose proof (A7 j ltac:(eauto)). lia.
Qed.

Lemma split_hash_wf c φ i cn p pn cn' pn' nn s v ck1 ck2 :
  inv c φ → nodes c !! i = Some cn → parent cn = Some p → nodes c !! p = Some pn →
  0 < s → s < klen (key cn) → s mod page_size c = 0 →
  view nn = ({[ck2 := i]}, Some p, slice_to (key cn) s, Some (take s v), lock_ref cn) →
  view cn' = (children cn, Some (counter c), slice_from (key cn) s, Some (drop s v), lock_ref cn) →
  view pn' = (<[ck1 := counter c]> (children pn), parent pn, key pn, value pn, lock_ref pn) →
  (hash_value nn, hash_value cn') = split_node_hash_value (hash_value cn) s (page_size c) →
  (event_hash_value nn, event_hash_value cn')
    = split_node_hash_value (event_hash_value cn) s (page_size c) →
  hash_value pn' = hash_value pn → event_hash_value pn' = event_hash_value pn →
  hash_wf (page_size c) (nodes c) (root_node c) →
  hash_wf (page_size c) (split_map (nodes c) i p (counter c) cn' pn' nn) (root_node c).
Proof.
  intros [Hps Hwf Hac] Hi Hpa Hp Hs Hlt Hm [= N1 N2 N3 N4 N5] [= C1 C2 C3 C4 C5]
    [= P1 P2 P3 P4 P5] Hh He Hhp Hep [Hr Hv Hev Hup].
  destruct (edge_of _ _ Hwf i cn p Hi Hpa) as (Hir&[Hk _]&_).
  destruct (slice_from_ok _ _ Hps (key cn) s Hk Hlt Hm) as (_&Hfl&_).
  destruct (slice_to_ok _ _ Hps (key cn) s Hk Hs Hlt Hm) as (_&Htl&_).
  destruct (split_hashes (page_size c) (key cn) s (hash_value cn) (hash_value nn) (hash_value cn'))
    as (Hh1&Hh2&_&_); try done; [apply Hk|intros; by apply (Hv i cn)|].
  destruct (split_hashes (page_size c) (key cn) s (event_hash_value cn) (event_hash_value nn)
    (event_hash_value cn')) as (He1&He2&Hn1&Hn2); try done; [apply Hk|intros; by apply (Hev i cn)|].
  destruct (path_len _ _ Hps Hwf i cn p Hi Hpa) as [Hpl Hpk].
  assert (i ≠ p) as Hip by (intros ->; lia).
  assert (nodes c !! counter c = None) as Hnew.
  { destruct (nodes c !! counter c) eqn:E; [|done].
    pose proof (ac_fresh _ Hac (counter c) ltac:(eauto)). lia. }
  split.
  - intros rn Hrn. rewrite split_lookup in Hrn.
    repeat case_decide; try (by eauto); try congruence.
    + injection Hrn as <-. rewrite P3. apply Hr. congruence.
    + destruct (wt_root _ _ _ _ _ Hwf) as (?&?&_). congruence.
  - intros j n h Hj. rewrite split_lookup in Hj.
    repeat case_decide; try (injection Hj as <-); rewrite ?Hhp, ?P3, ?C3, ?N3; eauto.
  - intros j n h Hj. rewrite split_lookup in Hj.
    repeat case_decide; try (injection Hj as <-); rewrite ?Hep, ?P3, ?C3, ?N3; eauto.
  - intros j n q qn Hj Hq Hqn Hqr. rewrite split_lookup in Hj, Hqn.
    assert (∀ j n, nodes c !! j = Some n → parent n = Some q →
      event_hash_value n ≠ None → event_hash_value qn ≠ None) as Hold.
    { intros j' n' Hj' Hq' Hne.
      destruct (edge_of _ _ Hwf j' n' q Hj' Hq') as (_&_&qn0&[_ Hq0 _ _ _]).
      pose proof (Hup j' n' q qn0 Hj' Hq' Hq0 Hqr Hne).
      destruct (decide (q = p)) as [->|]; [|destruct (decide (q = i)) as [->|];
        [|destruct (decide (q = counter c)) as [->|]; congruence]]; injection Hqn as <-.
      - rewrite Hep. congruence.
      - assert (qn0 = cn) as -> by congruence. tauto. }
    destruct (decide (j = p)) as [->|]; [|destruct (decide (j = i)) as [->|];
      [|destruct (decide (j = counter c)) as [->|]]]; try (injection Hj as <-).
    + rewrite Hep. eapply Hold; [exact Hp|congruence].
    + rewrite C2 in Hq. injection Hq as <-. rewrite !decide_False in Hqn by congruence.
      rewrite decide_True in Hqn by done. injection Hqn as <-. tauto.
    + intros Hne. eapply (Hold i cn); [done|congruence|tauto].
    + by eapply Hold.
Qed.

Lemma split_node_quiet c φ i cn p s :
  inv c φ → nodes c !! i = Some cn → parent cn = Some p →
  0 < s → s < klen (key cn) → s mod page_size c = 0 →
  ∃ c' φ' nn v, split_node monotonic (key cn) i s c = Ok (c', counter c)
    ∧ quiet c φ c' φ' ∧ nodes c' !! counter c = Some nn
    ∧ value cn = Some v ∧ value nn = Some (take s v) ∧ namespace (key nn) = namespace (key cn)
    ∧ φ' (counter c) = φ p ++ take s (iter (key cn)) ∧ counter c ≠ root_node c
    ∧ parent nn = Some p ∧ key nn = slice_to (key cn) s.
Proof.
  intros Hinv Hi Hpa Hs Hlt Hm. pose proof Hinv as [Hps Hwf Hac].
  destruct (edge_of _ _ Hwf i cn p Hi Hpa) as (Hir&[Hk (v&Hv&Hlen)]&pn&[_ Hp (ck1&Hck1&Hch) Hφ Hns]).
  destruct (slice_from_ok _ _ Hps (key cn) s Hk Hlt Hm) as (Hfk&Hfl&Hfn&Hfi).
  destruct (slice_to_ok _ _ Hps (key cn) s Hk Hs Hlt Hm) as (Htk&Htl&Htn&_).
  destruct (child_key_Ok (slice_from (key cn) s) (page_size c) Hps) as [ck2 Hck2].
  { by eapply key_ok_page. }
  assert (nodes c !! counter c = None) as Hnew.
  { destruct (nodes c !! counter c) eqn:E; [|done].
    pose proof (ac_fresh _ Hac (counter c) ltac:(eauto)). lia. }
  destruct (path_len _ _ Hps Hwf i cn p Hi Hpa) as [Hpl Hpk].
  assert (i ≠ p) as Hip by (intros ->; lia).
  assert (counter c ≠ root_node c) as Hcr.
  { destruct (wt_root _ _ _ _ _ Hwf) as (?&?&_). congruence. }
  destruct (split_node_eq c i cn p pn v s ck1 ck2) as
    (c'&cn'&pn'&nn&Hsp&Hnodes&Hvn&Hvc&Hvp&Hcnt&Hcfg&Hal&Hkv&Hev&Hpr&Hlv&Hh&He&Hhp&Hep); [(done || congruence)..|].
  pose proof Hcfg as Hcfg'. injection Hcfg' as _ Hcps Hcea _ _ Hcro.
  pose proof Hvn as [= N1 N2 N3 N4 N5]. pose proof Hvc as [= C1 C2 C3 C4 C5].
  pose proof Hvp as [= P1 P2 P3 P4 P5].
  exists c', (split_path φ (counter c) (φ p ++ take s (iter (key cn)))), nn, v.
  split_and!; try done.
  - split; try done.
    + split; [by rewrite Hcps| |].
      * rewrite Hcps, Hcea, Hcro, Hnodes.
        by eapply (wf_tree_split _ _ Hps Hwf i p (counter c) cn pn cn' pn' nn s v ck1 ck2);
          try done; unfold sview; congruence.
      * by eapply (split_acct c c' i cn p pn nn cn' pn' v s ck1 ck2 φ); try done; lia.
    + intros N Q vs. rewrite Hcps, Hnodes.
      by eapply (page_at_split _ _ Hps Hwf i p (counter c) cn pn cn' pn' nn s v ck1 ck2);
        try done; unfold sview; congruence.
    + intros j n Hj. unfold split_path. rewrite decide_False by congruence. split; [done|].
      rewrite Hnodes, split_lookup.
      destruct (split_own c φ i cn p pn nn cn' pn' v s ck1 ck2) as (Hold&_); [done..|].
      assert (∃ n', split_map (nodes c) i p (counter c) cn' pn' nn !! j = Some n'
        ∧ lock_ref n' = lock_ref n ∧ namespace (key n') = namespace (key n)) as (n'&Hn'&?&?).
      { rewrite split_lookup. repeat case_decide; subst; eexists; (split; [done|]); split; congruence. }
      exists n'. rewrite <-split_lookup. split_and!; try done. by apply (Hold j).
    + assert (i ≠ counter c) by congruence. assert (p ≠ counter c) by congruence.
      rewrite Hnodes. unfold split_map.
      rewrite (slots_update _ p pn pn') by (done || by rewrite !lookup_insert_ne).
      rewrite (slots_delete (<[i := cn']> _) i cn' (drop s v)) by (done || by rewrite lookup_insert_eq).
      rewrite delete_insert_eq, delete_insert_ne by done.
      rewrite (slots_insert _ (counter c) nn (take s v)) by (done || by rewrite lookup_delete_ne).
      rewrite (slots_delete (nodes c) i cn v) by done.
      rewrite app_assoc. apply Permutation_app; [|done].
      by rewrite Permutation_app_comm, take_drop.
    + intros [Hrp Hw]. split; [by rewrite Hkv, Hcps|]. rewrite Hcps, Hcro, Hnodes.
      eapply (split_hash_wf c φ i cn p pn cn' pn' nn s v ck1 ck2); try done; congruence.
  - by rewrite Hnodes, split_lookup, !decide_False, decide_True by congruence.
  - by rewrite N3.
  - unfold split_path. by rewrite decide_True.
Qed.

(** Following a child edge: the first page agrees, so the two keys are
    comparable and at least a page matches. *)
Lemma child_match c φ x xn i ck k :
  inv c φ → nodes c !! x = Some xn → children xn !! ck = Some i →
  key_ok (page_size c) (is_eagle c) k → child_key k (page_size c) = Ok ck →
  ∃ n, nodes c !! i = Some n ∧ parent n = Some x ∧ namespace (key n) = namespace k
    ∧ key_ok (page_size c) (is_eagle c) (key n)
    ∧ let l := page_floor (page_size c) (lcp (iter (key n)) (iter k)) in
      match_ (key n) k (page_size c) = Ok l ∧ 0 < l ∧ l ≤ klen (key n) ∧ l ≤ klen k
      ∧ l mod page_size c = 0 ∧ take l (iter (key n)) = take l (iter k).
Proof.
  intros [Hps Hwf _] Hx Hch Hk Hck.
  destruct (wt_child _ _ _ _ _ Hwf x xn ck i Hx Hch) as (Hir&n&Hi&Hp&Hcn).
  destruct (edge_of _ _ Hwf i n x Hi Hp) as (_&[Hkn _]&_).
  exists n. destruct (key_ok_len _ _ Hps _ Hk) as [_ ?]. destruct (key_ok_len _ _ Hps _ Hkn) as [_ ?].
  pose proof (length_iter k). pose proof (length_iter (key n)).
  destruct (proj1 (child_key_inj (key n) k (page_size c)
    ltac:(by rewrite (ko_mode _ _ _ Hkn), (ko_mode _ _ _ Hk)) Hps ltac:(lia) ltac:(lia))) as [Hns Htk];
    [congruence|].
  split_and!; try done. intros l.
  assert (page_size c ≤ lcp (iter (key n)) (iter k)) as Hlc by (apply lcp_ge_iff; done).
  pose proof (page_floor_le (page_size c) (lcp (iter (key n)) (iter k))) as Hfl. fold l in Hfl.
  pose proof (lcp_le_l (iter (key n)) (iter k)). pose proof (lcp_le_r (iter (key n)) (iter k)).
  split_and!.
  - apply match_spec; [|done]. split; [|done]. by rewrite (ko_mode _ _ _ Hkn), (ko_mode _ _ _ Hk).
  - unfold l, page_floor.
    pose proof (Nat.div_str_pos (lcp (iter (key n)) (iter k)) (page_size c) ltac:(lia)). nia.
  - lia.
  - lia.
  - apply Nat.Div0.mod_mul.
  - by apply lcp_ge_iff.
Qed.

(** What a finished descent promises. *)
Definition longest c φ N (K : list lunit) (m : nat) : Prop :=
  m + page_size c ≤ length K → ∀ vs, ~ pages c φ N (take (m + page_size c) K) vs.

Lemma longest_quiet c φ c' φ' N K m : quiet c φ c' φ' → longest c φ N K m → longest c' φ' N K m.
Proof.
  unfold longest. intros Hq. rewrite (quiet_page_size _ _ _ _ Hq). intros Hl Hle vs.
  rewrite <-(quiet_page_size _ _ _ _ Hq) at 1. rewrite (qu_pages _ _ _ _ Hq). by apply Hl.
Qed.

(** The unread part of the key. *)
Record remainder c N (K : list lunit) (m : nat) (k : RadixKey) (ck : ckey) : Prop := {
  rm_iter : iter k = drop m K;
  rm_ok : 0 < klen k → key_ok (page_size c) (is_eagle c) k;
  rm_ns : namespace k = N;
  rm_mode : is_bigram k = is_eagle c;
  rm_salt : salt_ok k;
  rm_ck : 0 < klen k → child_key k (page_size c) = Ok ck;
  rm_K : length K mod page_size c = 0;
}.

Lemma remainder_cfg c c' N K m k ck : cfg c' = cfg c → remainder c N K m k ck → remainder c' N K m k ck.
Proof. intros [= _ Hp He _ _ _] []. split; rewrite ?Hp, ?He; done. Qed.

(** Consuming [l] units of the remainder. *)
Lemma remainder_drop c N K m k ck l : 0 < page_size c → remainder c N K m k ck → m ≤ length K →
  m mod page_size c = 0 → l ≤ klen k → l mod page_size c = 0 →
  let k' := slice_from k l in
  ∃ ck', (if 0 <? klen k' then child_key k' (page_size c) else Ok ck) = Ok ck'
    ∧ remainder c N K (m + l) k' ck' ∧ klen k' = klen k - l.
Proof.
  intros Hps [Hit Hok Hns Hmo Hsa Hck HK] Hm Hmm Hl Hlm k'.
  destruct (slice_from_spec k l Hsa) as (Hit'&[Hmo' Hns']&Hsa'). fold k' in Hit', Hmo', Hns', Hsa'.
  assert (klen k' = klen k - l) as Hkl by by rewrite <-!length_iter, Hit', length_drop.
  assert (0 < klen k' → key_ok (page_size c) (is_eagle c) k') as Hok'.
  { intros. apply slice_from_ok; [done|apply Hok; lia|lia|done]. }
  assert (∃ ck', (if 0 <? klen k' then child_key k' (page_size c) else Ok ck) = Ok ck') as [ck' Hck'].
  { destruct (Nat.ltb_spec 0 (klen k')); [|by eexists]. apply child_key_Ok; [done|].
    eapply key_ok_page; [done|by apply Hok']. }
  exists ck'. split_and!; [done| |done]. split; try done; try congruence.
  - rewrite Hit', Hit, drop_drop. done.
  - intros Hpos. destruct (Nat.ltb_spec 0 (klen k')); [done|lia].
Qed.

(** One step down the tree, shared by lookup and insertion: stamp the child,
    compare, and split the edge when only part of it matches. *)
Lemma descend_step c φ N K vals m x xn k ck i t :
  inv c φ → reached_in c φ N K vals m x → remainder c N K m k ck → 0 < klen k →
  nodes c !! x = Some xn → children xn !! ck = Some i →
  let c1 := upd_node i (set_last_access_time t) c in
  ∃ n v l, nodes c1 !! i = Some n ∧ value n = Some v
    ∧ match_ (key n) k (page_size c1) = Ok l ∧ 0 < l ∧ l ≤ klen k ∧ l mod page_size c1 = 0
    ∧ quiet c φ c1 φ
    ∧ (l < klen (key n) → ∃ c2 φ2 nn, split_node monotonic (key n) i l c1 = Ok (c2, counter c1)
        ∧ quiet c φ c2 φ2 ∧ nodes c2 !! counter c1 = Some nn ∧ value nn = Some (take l v)
        ∧ reached_in c2 φ2 N K (vals ++ take l v) (m + l) (counter c1)
        ∧ longest c2 φ2 N K (m + l))
    ∧ (klen (key n) ≤ l → reached_in c1 φ N K (vals ++ v) (m + l) i).
Proof.
  intros Hinv Hre Hrem Hpos Hx Hch c1.
  assert (quiet c φ c1 φ) as Hq1 by by apply upd_quiet.
  pose proof (qu_inv _ _ _ _ Hq1) as Hinv1.
  assert (Hrem1 : remainder c1 N K m k ck) by by apply (remainder_cfg c).
  pose proof Hrem1 as [Hit Hok Hns _ _ Hck HK].
  pose proof (reached_quiet _ _ _ _ _ _ _ _ _ Hq1 Hre) as Hre1.
  assert (∃ xn1, nodes c1 !! x = Some xn1 ∧ children xn1 = children xn) as (xn1&Hx1&Hxc).
  { unfold c1, upd_node. simpl. destruct (decide (i = x)) as [->|].
    - rewrite lookup_alter_eq, Hx. by eexists.
    - rewrite lookup_alter_ne by done. eauto. }
  rewrite <-Hxc in Hch.
  destruct (child_match c1 φ x xn1 i ck k Hinv1 Hx1 Hch) as (n&Hi&Hpn&Hnn&Hkn&Hm&Hl0&Hln&Hlk&Hlm&Htk);
    [by auto..|].
  set (l := page_floor _ _) in *.
  destruct (edge_of _ _ (in_tree _ _ Hinv1) i n x Hi Hpn) as (Hir&[_ (v&Hv&Hvl)]&xn2&[_ Hx2 _ Hφi _]).
  assert (namespace (key n) = N) as HnN by congruence.
  pose proof (length_iter k) as Hkl. rewrite Hit, length_drop in Hkl.
  rewrite Hit in Htk.
  exists n, v, l. split_and!; [done..| |].
  - intros Hlt.
    destruct (split_node_quiet c1 φ i n x l)
      as (c2&φ2&nn&v'&Hsp&Hq2&Hnn2&Hv'&Hvn&Hnsn&Hφn&Hcr&Hpnn&Hknn); [done..|].
    assert (v' = v) as -> by congruence. exists c2, φ2, nn.
    split_and!; [done|by eapply quiet_trans|done..| |].
    + pose proof (reached_quiet _ _ _ _ _ _ _ _ _ Hq2 Hre1) as Hre2.
      destruct (qu_nodes _ _ _ _ Hq2 x xn1 Hx1) as (Hφx&_).
      destruct (slice_to_ok _ _ (in_ps _ _ Hinv1) (key n) l Hkn) as (_&Hlto&_); [done..|].
      destruct (slice_to_spec (key n) l (ko_salt _ _ _ Hkn)) as (Hito&_).
      rewrite (quiet_page_size _ _ _ _ Hq2) in Hre2 |- *.
      replace (take l v) with (take l (take l v)) by (rewrite take_take; f_equal; lia).
      eapply (reached_edge _ (is_eagle c2) (in_ps _ _ Hinv1)); try done.
      * rewrite <-(quiet_page_size _ _ _ _ Hq2). apply (qu_inv _ _ _ _ Hq2).
      * congruence.
      * rewrite Hknn. lia.
      * lia.
      * rewrite Hknn, Hito, take_take. rewrite Nat.min_id. done.
      * exists nn. split; [done|]. intros _. congruence.
      * rewrite Hφn, Hφx, Hknn, Hito, take_take, Nat.min_id. done.
    + eapply longest_quiet; [exact Hq2|]. intros Hle2 vs. unfold l. rewrite Hit.
      eapply (partial_edge_max (page_size c1) (is_eagle c1)); try done; rewrite <-?Hit; try done.
      * apply Hinv1.
      * apply Hinv1.
  - intros Hge. assert (l = klen (key n)) as Hleq by lia.
    replace v with (take l v) at 1 by (apply take_ge; lia).
    pose proof (length_iter (key n)).
    eapply (reached_edge _ (is_eagle c1) (in_ps _ _ Hinv1) (in_tree _ _ Hinv1) N K vals m x i n v l i);
      try done.
    + lia.
    + exists n. split; [done|]. auto.
    + rewrite Hφi. f_equal. symmetry. apply take_ge. lia.
Qed.

Lemma match_loop_spec fuel t x k ck acc c φ N K m :
  inv c φ → reached_in c φ N K (concat acc) m x → remainder c N K m k ck → klen k < fuel →
  ∃ c' φ' acc' x' m', match_loop monotonic fuel t x k ck acc c = Ok (c', acc', x')
    ∧ quiet c φ c' φ' ∧ reached_in c' φ' N K (concat acc') m' x' ∧ longest c' φ' N K m'.
Proof.
  revert x k ck acc c φ m. induction fuel as [|fuel IH]; intros x k ck acc c φ m Hinv Hre Hrem Hf; [lia|].
  pose proof Hinv as [Hps Hwf Hac]. pose proof Hre as [Hin Hpa Hle Hmod Hlen Hpg].
  pose proof Hrem as [Hit Hok Hns Hmo Hsa Hck HK]. pose proof (length_iter k) as Hkl.
  rewrite Hit, length_drop in Hkl. destruct Hin as (xn&Hx&Hxns).
  cbn [match_loop]. rewrite (get_node_ok c x xn Hx). res_step.
  destruct (Nat.ltb_spec 0 (klen k)) as [Hpos|Hz]; cycle 1.
  { exists c, φ, acc, x, m. split_and!; try done; [by apply quiet_refl|]. intros ?. lia. }
  destruct (children xn !! ck) as [i|] eqn:Hch; cycle 1.
  { exists c, φ, acc, x, m. split_and!; try done; [by apply quiet_refl|]. intros _.
    eapply no_child_max; eauto. }
  destruct (descend_step c φ N K (concat acc) m x xn k ck i t) as
    (n&v&l&Hi&Hv&Hm&Hl0&Hlk&Hlm&Hq1&Hsplit&Hfull); [done..|].
  set (c1 := upd_node i (set_last_access_time t) c) in *.
  rewrite (get_node_ok c1 i n Hi). res_step. rewrite Hm. res_step.
  destruct (Nat.ltb_spec l (klen (key n))) as [Hlt|Hge].
  - destruct (Hsplit Hlt) as (c2&φ2&nn&Hsp&Hq2&Hnn&Hvn&Hre2&Hlong).
    rewrite Hsp. res_step. rewrite (get_node_ok c2 _ _ Hnn). res_step.
    rewrite Hvn. res_step.
    exists c2, φ2, (acc ++ [take l v]), (counter c1), (m + l). split_and!; try done.
    rewrite concat_app. simpl. by rewrite app_nil_r.
  - rewrite Hv. res_step. specialize (Hfull Hge).
    pose proof (qu_inv _ _ _ _ Hq1) as Hinv1.
    destruct (remainder_drop c1 N K m k ck l) as (ck'&Hck'&Hrem'&Hkl');
      [done|by apply (remainder_cfg c)|done..|].
    destruct (IH i (slice_from k l) ck' (acc ++ [v]) c1 φ (m + l)) as (c'&φ'&acc'&x'&m'&He&Hq&?&?);
      [done| |done|lia|].
    { rewrite concat_app. simpl. by rewrite app_nil_r. }
    exists c', φ', acc', x', m'. split_and!; try done; [|by eapply quiet_trans].
    destruct (0 <? klen (slice_from k l)); [rewrite Hck'|injection Hck' as ->]; done.
Qed.
End Match.
