(* ===== verification/RadixSpec.v ===== *)
(** * Abstract specification of the prefix cache

    What [RadixCache] promises, without trees, splits or counters: a finite map
    from page-aligned prefixes (in a namespace) to the KV slots of their last
    page.  [abs c M] says that the cache [c] satisfies its invariant and stores
    exactly [M]; the operations of the cache are specified as functions on [M].
    The file ends with the refinement theorem of [match_prefix]. *)

From stdpp Require Import base tactics numbers list gmap strings.
From Stdlib Require Import ZArith Lia ZifyNat.
From S2P Require Import Prelude RadixKey TreeNode KvEvents RadixCache RadixInv RadixPages RadixAcct RadixMatch.

Global Instance lunit_countable : Countable lunit.
Proof.
  apply (inj_countable' (λ u, match u with UTok t => inl t | UPair a b => inr (a, b) end)
                        (λ s, match s with inl t => UTok t | inr (a, b) => UPair a b end)).
  by intros [].
Defined.

Abbreviation Namespace := (option string * option string)%type.
Abbreviation PrefixMap := (gmap (Namespace * list lunit) (list Z)).

(** The [j]-th page-aligned prefix of [K]. *)
Definition page_prefix (ps : nat) (K : list lunit) (j : nat) : list lunit := take (j * ps + ps) K.

(** Lookup: walk the page-aligned prefixes of [K] while they are stored. *)
Fixpoint spec_match_from (M : PrefixMap) (ps : nat) (N : Namespace) (K : list lunit)
    (pages j : nat) : list Z :=
  match pages with
  | 0 => []
  | S pages =>
      match M !! (N, page_prefix ps K j) with
      | Some vs => vs ++ spec_match_from M ps N K pages (S j)
      | None => []
      end
  end.
Definition spec_match (M : PrefixMap) (ps : nat) (N : Namespace) (K : list lunit) : list Z :=
  spec_match_from M ps N K (length K / ps) 0.

(** Insertion: add the pages of [K] that are not stored yet. *)
Definition spec_pages (ps : nat) (N : Namespace) (K : list lunit) (v : list Z) : PrefixMap :=
  list_to_map ((λ j, ((N, page_prefix ps K j), pyslice v (j * ps) (j * ps + ps)))
                 <$> seq 0 (length K / ps)).
Definition spec_insert (M : PrefixMap) (ps : nat) (N : Namespace) (K : list lunit) (v : list Z)
  : PrefixMap := M ∪ spec_pages ps N K v.

(** The units of a key as the cache reads it: bigram view, whole pages. *)
Definition cache_key {A} (c : RadixCache A) (k : RadixKey) : RadixKey :=
  page_aligned (maybe_to_bigram_view k (is_eagle c) (@None (list Z))).1 (page_size c).
Definition key_units {A} (c : RadixCache A) (k : RadixKey) : list lunit := iter (cache_key c k).

(** A caller passes keys whose bigram flag the cache understands, built by the
    constructor (which normalises the salt). *)
Definition key_for {A} (c : RadixCache A) (k : RadixKey) : Prop :=
  salt_ok k ∧ (is_bigram k = true → is_eagle c = true).

Definition abs {A} (c : RadixCache A) (M : PrefixMap) : Prop :=
  ∃ φ, inv c φ ∧ hash_inv c
    ∧ ∀ N Q vs, M !! (N, Q) = Some vs ↔ page_at (page_size c) (nodes c) φ N Q vs.

Section Spec.
Context {A : Type} `{!KvAllocator A} (monotonic : nat → Z).
Implicit Types c : RadixCache A.
Implicit Types M : PrefixMap.

Abbreviation pages c φ := (page_at (page_size c) (nodes c) φ).
Abbreviation reached_in c φ := (reached (page_size c) (nodes c) (root_node c) φ).

Lemma abs_quiet c φ c' φ' M : quiet c φ c' φ' → hash_inv c →
  (∀ N Q vs, M !! (N, Q) = Some vs ↔ pages c φ N Q vs) → abs c' M.
Proof.
  intros Hq Hh HM. exists φ'. split_and!; [apply Hq|by apply Hq|]. intros. rewrite HM. symmetry. apply Hq.
Qed.

Lemma spec_match_from_eq M ps N K vals m n j :
  length vals = m → m mod ps = 0 → m ≤ length K → 0 < ps →
  (∀ i, i * ps + ps ≤ m → M !! (N, page_prefix ps K i) = Some (pyslice vals (i * ps) (i * ps + ps))) →
  (m + ps ≤ length K → M !! (N, take (m + ps) K) = None) →
  j * ps ≤ m → (n + j) * ps ≤ length K → length K < (n + j) * ps + ps →
  spec_match_from M ps N K n j = drop (j * ps) vals.
Proof.
  intros Hlen [b Hb]%Nat.Lcm0.mod_divide Hle Hps Hpg Hlong. revert j.
  induction n as [|n IH]; intros j Hj Hn1 Hn2; cbn [spec_match_from].
  - rewrite drop_ge; [done|]. assert (b < S j) by nia. nia.
  - destruct (decide (j = b)) as [->|Hjb].
    + unfold page_prefix. rewrite <-Hb, Hlong by nia. rewrite drop_ge; [done|lia].
    + rewrite Hpg by nia. rewrite IH by nia.
      unfold pyslice. replace (j * ps + ps - j * ps) with ps by lia.
      rewrite <-(take_drop ps (drop (j * ps) vals)) at 2. f_equal. rewrite drop_drop. f_equal. lia.
Qed.

(** The descent of the cache computes the lookup of the specification. *)
Lemma spec_match_reached c φ M N K vals m x : inv c φ →
  (∀ N Q vs, M !! (N, Q) = Some vs ↔ pages c φ N Q vs) →
  reached_in c φ N K vals m x → longest c φ N K m → spec_match M (page_size c) N K = vals.
Proof.
  intros [Hps _ _] HM [_ _ Hle Hmod Hlen Hpg] Hlong. unfold spec_match.
  rewrite (spec_match_from_eq M (page_size c) N K vals m _ 0); rewrite ?drop_0; try done.
  - intros i Hi. by apply HM, Hpg.
  - intros Hm. destruct (M !! _) as [vs|] eqn:E; [|done]. exfalso. by eapply Hlong, HM.
  - lia.
  - rewrite Nat.add_0_r. apply page_floor_le.
  - rewrite Nat.add_0_r. pose proof (Nat.mul_succ_div_gt (length K) (page_size c)). nia.
Qed.

Lemma bigram_view_spec {V} c k (v : option (list V)) : key_for c k →
  is_bigram (maybe_to_bigram_view k (is_eagle c) v).1 = is_eagle c
  ∧ namespace (maybe_to_bigram_view k (is_eagle c) v).1 = namespace k
  ∧ salt_ok (maybe_to_bigram_view k (is_eagle c) v).1.
Proof.
  intros [Hs Hb]. unfold maybe_to_bigram_view.
  destruct (is_eagle c) eqn:E, (is_bigram k) eqn:E'; simpl; try done. by specialize (Hb eq_refl).
Qed.

Lemma cache_key_spec c k : key_for c k → 0 < page_size c →
  is_bigram (cache_key c k) = is_eagle c ∧ namespace (cache_key c k) = namespace k
  ∧ salt_ok (cache_key c k) ∧ klen (cache_key c k) mod page_size c = 0.
Proof.
  intros Hk Hps. destruct (bigram_view_spec c k (@None (list Z)) Hk) as (Hb&Hn&Hs).
  unfold cache_key. set (k' := (maybe_to_bigram_view k (is_eagle c) None).1) in *.
  destruct (page_aligned_spec k' (page_size c) Hs Hps) as (Hit&[Hm Hns]&Hs').
  split_and!; [congruence..|done|].
  rewrite <-length_iter, Hit, length_take, length_iter, Nat.min_l by auto with py.
  apply Nat.Div0.mod_mul.
Qed.

Lemma cache_key_remainder c k ck : key_for c k → 0 < page_size c →
  (0 < klen (cache_key c k) → child_key (cache_key c k) (page_size c) = Ok ck) →
  remainder c (namespace k) (key_units c k) 0 (cache_key c k) ck.
Proof.
  intros Hk Hps Hck. destruct (cache_key_spec c k Hk Hps) as (Hb&Hn&Hs&Hm).
  split; try done. unfold key_units. by rewrite length_iter.
Qed.

Lemma cache_key_child c k : key_for c k → 0 < page_size c → 0 < klen (cache_key c k) →
  ∃ ck, child_key (cache_key c k) (page_size c) = Ok ck.
Proof.
  intros Hk Hps Hpos. destruct (cache_key_spec c k Hk Hps) as (Hb&Hn&Hs&Hm).
  apply child_key_Ok; [done|]. by eapply key_ok_page.
Qed.

Lemma inv_root c φ : inv c φ → ∃ rn, nodes c !! root_node c = Some rn.
Proof. intros [_ [(rn&?&_) _ _ _] _]. eauto. Qed.

Lemma match_prefix_quiet c φ k : inv c φ → key_for c k → disable c = false →
  ∃ c' φ' r m, match_prefix monotonic k c = Ok (c', r) ∧ quiet c φ c' φ'
    ∧ reached_in c' φ' (namespace k) (key_units c k) (device_indices r) m (last_device_node r)
    ∧ longest c' φ' (namespace k) (key_units c k) m.
Proof.
  intros Hinv Hk Hd. pose proof Hinv as [Hps Hwf _]. destruct (inv_root c φ Hinv) as [rn Hr].
  assert (reached_in c φ (namespace k) (key_units c k) [] 0 (root_node c)) as Hroot
    by by eapply reached_root.
  assert (klen (cache_key c k) = 0 → ∃ c' φ' r m,
    Ok (c, empty_match_result c) = Ok (c', r) ∧ quiet c φ c' φ'
    ∧ reached_in c' φ' (namespace k) (key_units c k) (device_indices r) m (last_device_node r)
    ∧ longest c' φ' (namespace k) (key_units c k) m) as Hempty.
  { intros Hz. exists c, φ, (empty_match_result c), 0. split_and!; [done|by apply quiet_refl|done|].
    intros Hle. unfold key_units in Hle. rewrite length_iter in Hle. lia. }
  unfold match_prefix. destruct (maybe_to_bigram_view k (is_eagle c) None) as [kb o] eqn:Hkb.
  assert (kb = (maybe_to_bigram_view k (is_eagle c) (@None (list Z))).1) as Hkb' by by rewrite Hkb.
  rewrite Hd. cbn [orb].
  assert (page_aligned kb (page_size c) = cache_key c k) as Hck by by rewrite Hkb'.
  destruct (Nat.eqb_spec (klen kb) 0) as [Hz|Hnz].
  { apply Hempty. rewrite <-length_iter, <-Hck.
    destruct (bigram_view_spec c k (@None (list Z)) Hk) as (_&_&Hs). rewrite <-Hkb' in Hs.
    destruct (page_aligned_spec kb (page_size c) Hs Hps) as (->&_).
    rewrite length_take, length_iter. lia. }
  rewrite Hck. destruct (Nat.eqb_spec (klen (cache_key c k)) 0) as [Hz|Hnz2]; [by apply Hempty|].
  destruct (cache_key_child c k) as [ck Hchk]; [done..|lia|].
  unfold match_prefix_helper, now.
  set (c1 := set_reads (S (reads c)) c).
  assert (quiet c φ c1 φ) as Hq1 by by apply (now_quiet monotonic).
  set (c2 := upd_node (root_node c) _ c1).
  assert (quiet c φ c2 φ) as Hq2.
  { eapply quiet_trans; [done|]. apply upd_quiet; [apply Hq1|done|done]. }
  change (page_size c2) with (page_size c). rewrite Hchk. res_step.
  edestruct (match_loop_spec monotonic (S (S (klen (cache_key c k)))) (monotonic (reads c))
    (root_node c) (cache_key c k) ck [] c2 φ (namespace k) (key_units c k) 0)
    as (c'&φ'&acc'&x'&m'&He&Hq&Hre&Hlo).
  - apply Hq2.
  - by apply (reached_quiet c φ c2 φ).
  - apply (remainder_cfg c); [done|]. by apply cache_key_remainder.
  - lia.
  - rewrite He. res_step. exists c', φ', (mkMatchResult (concat acc') x' x' x'), m'.
    split_and!; try done. by eapply quiet_trans.
Qed.
End Spec.
