(* ===== verification/RadixInsert.v ===== *)
(** * Insertion

    Correctness of [insert]: the descent of [_insert_helper] reaches the longest
    stored prefix, the rest of the key becomes one new leaf, and the contents
    grow by exactly the pages that were missing. *)

From stdpp Require Import base tactics numbers list gmap strings.
From Stdlib Require Import ZArith Lia ZifyNat.
From S2P Require Import Prelude RadixKey TreeNode KvEvents EventQueue RadixCache RadixInv RadixPages RadixAcct.
From S2P Require Import RadixEvents RadixMatch RadixSpec.

Section Leaves.
Context {A : Type}.
Implicit Types c : RadixCache A.

(** [_update_leaf_status] when no node of the store is evicted. *)
Lemma update_leaf_status_ok c i n : nodes c !! i = Some n → value n ≠ None →
  (∀ ck ch, children n !! ck = Some ch → ∃ cn, nodes c !! ch = Some cn ∧ value cn ≠ None) →
  ∃ L, update_leaf_status i c = Ok (set_evictable_leaves L c)
    ∧ ∀ j, j ∈ L ↔ if decide (j = i) then (lock_ref n ≤ 0)%Z ∧ children n = ∅ else j ∈ evictable_leaves c.
Proof.
  intros Hi Hv Hch. unfold update_leaf_status. rewrite (get_node_ok c i n Hi). res_step.
  assert (evicted n = false) as -> by (unfold evicted; destruct (value n); done). cbn [orb].
  destruct (Z.ltb_spec 0 (lock_ref n)) as [Hlk|Hlk].
  { eexists. split; [done|]. intros j. case_decide; set_solver by lia. }
  set (any := fix any (l : list (ckey * node_id)) : res bool := _).
  assert (∀ l, (∀ ck ch, (ck, ch) ∈ l → children n !! ck = Some ch) →
    any l = Ok (match l with [] => false | _ => true end)) as Hany.
  { intros [|[ck ch] l] Hl; [done|]. destruct (Hch ck ch) as (cn&Hcn&Hcv); [apply Hl; set_solver|].
    simpl. rewrite (get_node_ok c ch cn Hcn). res_step. unfold evicted. by destruct (value cn). }
  rewrite Hany by (intros ??; by rewrite elem_of_map_to_list). res_step.
  destruct (map_to_list (children n)) as [|[ck ch] l] eqn:E.
  - apply map_to_list_empty_iff in E. eexists. split; [done|]. intros j. case_decide; set_solver.
  - assert (children n ≠ ∅) by (intros E'; by rewrite E', map_to_list_empty in E).
    eexists. split; [done|]. intros j. case_decide; set_solver.
Qed.

(** The evictable set is exact, except possibly at [X]. *)
Definition leaves_except c (X : gset node_id) : Prop :=
  ∀ j, j ∉ X → j ∈ evictable_leaves c ↔ is_evictable_leaf (nodes c) (root_node c) j.

Definition all_valued c : Prop := ∀ i n, nodes c !! i = Some n →
  value n ≠ None ∧ ∀ ck ch, children n !! ck = Some ch → is_Some (nodes c !! ch).

Lemma update_leaf_status_leaves c i n X : nodes c !! i = Some n → all_valued c →
  (0 ≤ lock_ref n)%Z → (i = root_node c → 0 < lock_ref n)%Z → leaves_except c X →
  ∃ L, update_leaf_status i c = Ok (set_evictable_leaves L c)
    ∧ leaves_except (set_evictable_leaves L c) (X ∖ {[i]}).
Proof.
  intros Hi Hall Hlk Hroot Hl.
  destruct (update_leaf_status_ok c i n) as (L&HL&Hin); [done|by eapply Hall| |].
  { intros ck ch Hc. destruct (Hall i n Hi) as [_ H]. destruct (H ck ch Hc) as [cn Hcn].
    exists cn. split; [done|]. by eapply Hall. }
  exists L. split; [done|]. intros j Hj. simpl. rewrite Hin. unfold is_evictable_leaf.
  case_decide as Hji.
  - subst j. split.
    + intros [? ?]. exists n. split_and!; try done; [intros Hr; specialize (Hroot Hr)|]; lia.
    + intros (n'&?&?&?&?). assert (n' = n) as -> by congruence. split; [lia|done].
  - apply Hl. set_solver.
Qed.
End Leaves.

Section Insert.
Context {A : Type} `{!KvAllocator A} (monotonic : nat → Z).
Context (native_hash : RadixKey → option string → nat → list string).
Context (salt_digest : string → string).
Context (Hnative : ∀ k prior ps, 0 < ps → klen k mod ps = 0 →
  length (native_hash k prior ps) = klen k / ps ∧ Forall good_hash (native_hash k prior ps)).
Implicit Types c : RadixCache A.

Abbreviation pages c φ := (page_at (page_size c) (nodes c) φ).
Abbreviation reached_in c φ := (reached (page_size c) (nodes c) (root_node c) φ).

Lemma raise_priority_quiet c φ i prio : inv c φ → quiet c φ (raise_priority i prio c) φ.
Proof. intros. by apply upd_quiet. Qed.

Lemma inc_hit_count_quiet c φ i chunked : inv c φ → quiet c φ (inc_hit_count i chunked c) φ.
Proof. intros. unfold inc_hit_count. destruct chunked; [by apply quiet_refl|by apply upd_quiet]. Qed.

Lemma touch_quiet c φ i prio chunked : inv c φ →
  quiet c φ (inc_hit_count i chunked (raise_priority i prio c)) φ.
Proof.
  intros Hi. eapply quiet_trans; [by apply raise_priority_quiet|].
  apply inc_hit_count_quiet. by eapply qu_inv, raise_priority_quiet.
Qed.

Lemma insert_loop_spec fuel t x k v ck total prio chunked c φ N K m V vals :
  inv c φ → reached_in c φ N K vals m x → remainder c N K m k ck → klen k < fuel →
  v = drop m V → total = m →
  ∃ c' φ' x' k' ck' m' vals', insert_loop monotonic fuel t x k v ck total prio chunked c
      = Ok (c', x', k', drop m' V, ck', m')
    ∧ quiet c φ c' φ' ∧ reached_in c' φ' N K vals' m' x' ∧ longest c' φ' N K m'
    ∧ remainder c' N K m' k' ck'
    ∧ (0 < klen k' → ∃ xn, nodes c' !! x' = Some xn ∧ children xn !! ck' = None).
Proof.
  revert x k v ck total c φ m vals.
  induction fuel as [|fuel IH]; intros x k v ck total c φ m vals Hinv Hre Hrem Hf -> ->; [lia|].
  pose proof Hinv as [Hps Hwf Hac]. pose proof Hre as [Hin Hpa Hle Hmod Hlen Hpg].
  pose proof Hrem as [Hit Hok Hns Hmo Hsa Hck HK]. pose proof (length_iter k) as Hkl.
  rewrite Hit, length_drop in Hkl. destruct Hin as (xn&Hx&Hxns).
  cbn [insert_loop]. rewrite (get_node_ok c x xn Hx). res_step.
  destruct (Nat.ltb_spec 0 (klen k)) as [Hpos|Hz]; cycle 1.
  { exists c, φ, x, k, ck, m, vals. split_and!; try done; [by apply quiet_refl|intros ?; lia|lia]. }
  destruct (children xn !! ck) as [i|] eqn:Hch; cycle 1.
  { exists c, φ, x, k, ck, m, vals. split_and!; try done; [by apply quiet_refl| |by eauto].
    intros _. eapply no_child_max; eauto. }
  destruct (descend_step monotonic c φ N K vals m x xn k ck i t) as
    (n&w&l&Hi&Hv&Hm&Hl0&Hlk&Hlm&Hq1&Hsplit&Hfull); [done..|].
  set (c1 := upd_node i (set_last_access_time t) c) in *.
  rewrite (get_node_ok c1 i n Hi). res_step. rewrite Hm. res_step.
  rewrite drop_drop.
  assert (∃ c2 φ2 y vals2, (if l <? klen (key n) then
      let! (c, new_node) := split_node monotonic (key n) i l c1 in
      Ok (inc_hit_count new_node chunked (raise_priority new_node prio c), new_node)
    else Ok (inc_hit_count i chunked (raise_priority i prio c1), i)) = Ok (c2, y)
    ∧ quiet c φ c2 φ2 ∧ reached_in c2 φ2 N K vals2 (m + l) y) as (c2&φ2&y&vals2&Hstep&Hq2&Hre2).
  { destruct (Nat.ltb_spec l (klen (key n))) as [Hlt|Hge].
    - destruct (Hsplit Hlt) as (c2&φ2&nn&Hsp&Hq2&Hnn&Hvn&Hre2&_). rewrite Hsp. res_step.
      pose proof (touch_quiet c2 φ2 (counter c1) prio chunked (qu_inv _ _ _ _ Hq2)) as Hq3.
      do 4 eexists. split; [done|]. split; [by eapply quiet_trans|by eapply reached_quiet].
    - pose proof (touch_quiet c1 φ i prio chunked (qu_inv _ _ _ _ Hq1)) as Hq3.
      do 4 eexists. split; [done|]. split; [by eapply quiet_trans|by eapply reached_quiet; eauto]. }
  rewrite Hstep. res_step.
  destruct (remainder_drop monotonic c2 N K m k ck l) as (ck'&Hck'&Hrem'&Hkl').
  { apply Hq2. }
  { eapply remainder_cfg; [apply Hq2|done]. }
  { done. }
  { by rewrite (quiet_page_size _ _ _ _ Hq2). }
  { done. }
  { by rewrite (quiet_page_size _ _ _ _ Hq2). }
  rewrite Hck'. res_step.
  destruct (IH y (slice_from k l) (drop (m + l) V) ck' (m + l) c2 φ2 (m + l) vals2)
    as (c'&φ'&x'&k'&ck2&m'&vals'&He&Hq&?&?&?&?); [apply Hq2|done|done|lia|done|done|].
  exists c', φ', x', k', ck2, m', vals'. split_and!; try done. by eapply quiet_trans.
Qed.

(** ** Linking the new leaf *)

(** The store after the new leaf is linked below [x]. *)
Record linked c c' (x : node_id) (xn xn' nn : TreeNode) (k : RadixKey) (v : list Z) (ck : ckey) : Prop := {
  li_nodes : nodes c' = <[x := xn']> (<[counter c := nn]> (nodes c));
  li_new : view nn = (∅, Some x, k, Some v, 0%Z);
  li_par : view xn' = (<[ck := counter c]> (children xn), parent xn, key xn, value xn, lock_ref xn);
  li_hnew : hash_value nn = None ∧ event_hash_value nn = None;
  li_hpar : hash_value xn' = hash_value xn ∧ event_hash_value xn' = event_hash_value xn;
  li_counter : counter c' = S (counter c);
  li_cfg : cfg c' = cfg c;
  li_alloc : allocator c' = allocator c;
  li_kv : kv_events c' = kv_events c;
  li_ev : evictable_size_ c' = (evictable_size_ c + Z.of_nat (klen k))%Z;
  li_pr : protected_size_ c' = protected_size_ c;
  li_leaves : evictable_leaves c' = evictable_leaves c;
}.

Lemma linked_lookup c c' x xn xn' nn k v ck j : linked c c' x xn xn' nn k v ck →
  nodes c' !! j = if decide (j = x) then Some xn' else if decide (j = counter c) then Some nn else nodes c !! j.
Proof. intros []. rewrite li_nodes0, !lookup_insert. repeat case_decide; congruence. Qed.

Lemma inv_fresh c φ : inv c φ → nodes c !! counter c = None.
Proof.
  intros [_ _ Hac]. destruct (nodes c !! counter c) eqn:E; [|done].
  pose proof (ac_fresh _ Hac (counter c) ltac:(eauto)). lia.
Qed.

Lemma inv_valued c φ i n : inv c φ → nodes c !! i = Some n → value n ≠ None.
Proof.
  intros [_ Hwf _] Hi. destruct (decide (i = root_node c)) as [->|Hne].
  - destruct (wt_root _ _ _ _ _ Hwf) as (?&?&_&?). congruence.
  - destruct (wt_node _ _ _ _ _ Hwf i n Hi Hne) as [[_ (?&?&_)] _]. congruence.
Qed.

Lemma inv_all_valued c φ : inv c φ → all_valued c.
Proof.
  intros Hinv i n Hi. split; [by eapply inv_valued|]. intros ck ch Hc.
  destruct (wt_child _ _ _ _ _ (in_tree _ _ Hinv) i n ck ch Hi Hc) as (_&?&?&_). eauto.
Qed.

Lemma linked_valued c φ c' x xn xn' nn k v ck : inv c φ → nodes c !! x = Some xn →
  linked c c' x xn xn' nn k v ck → all_valued c'.
Proof.
  intros Hinv Hx Hl. pose proof (inv_all_valued c φ Hinv) as Hall.
  pose proof (li_new _ _ _ _ _ _ _ _ _ Hl) as [= N1 N2 N3 N4 N5].
  pose proof (li_par _ _ _ _ _ _ _ _ _ Hl) as [= P1 P2 P3 P4 P5].
  assert (∀ j, is_Some (nodes c !! j) → is_Some (nodes c' !! j)) as Hsome.
  { intros j Hj. rewrite (linked_lookup _ _ _ _ _ _ _ _ _ j Hl). repeat case_decide; eauto. }
  intros i n. rewrite (linked_lookup _ _ _ _ _ _ _ _ _ i Hl). intros Hi.
  case_decide; [injection Hi as <-|case_decide; [injection Hi as <-|]].
  - rewrite P4, P1. split; [by eapply Hall|]. intros ck' ch Hc.
    apply lookup_insert_Some in Hc as [[_ <-]|[_ Hc]]; [|apply Hsome; by eapply Hall].
    rewrite (linked_lookup _ _ _ _ _ _ _ _ _ _ Hl). repeat case_decide; try done; by eexists.
  - rewrite N4, N1. split; [done|]. intros ck' ch Hc. by rewrite lookup_empty in Hc.
  - split; [by eapply Hall|]. intros. apply Hsome. by eapply Hall.
Qed.

Lemma linked_own c φ c' x xn xn' nn k v ck : inv c φ → nodes c !! x = Some xn →
  children xn !! ck = None → linked c c' x xn xn' nn k v ck →
  (∀ i n n', nodes c !! i = Some n → nodes c' !! i = Some n' → own (nodes c') n' = own (nodes c) n)
  ∧ own (nodes c') nn = 0%Z.
Proof.
  intros Hinv Hx Hfree Hl. pose proof (inv_fresh c φ Hinv) as Hnew. pose proof Hinv as [_ Hwf _].
  pose proof (li_new _ _ _ _ _ _ _ _ _ Hl) as [= N1 N2 N3 N4 N5].
  pose proof (li_par _ _ _ _ _ _ _ _ _ Hl) as [= P1 P2 P3 P4 P5].
  assert (x ≠ counter c) as Hxc by congruence.
  assert (∀ j, lock_at (nodes c') j = lock_at (nodes c) j) as Hlk.
  { intros j. unfold lock_at. rewrite (linked_lookup _ _ _ _ _ _ _ _ _ j Hl).
    destruct (decide (j = x)) as [->|]; [by rewrite Hx|].
    destruct (decide (j = counter c)) as [->|]; [by rewrite Hnew|done]. }
  split; [|rewrite own_leaf; done].
  intros i n n' Hi. rewrite (linked_lookup _ _ _ _ _ _ _ _ _ i Hl).
  destruct (decide (i = x)) as [->|]; [|rewrite decide_False by congruence]; intros Hi'.
  - assert (n = xn) as -> by congruence. injection Hi' as <-. unfold own, child_locks. rewrite P1, P5.
    rewrite msum_insert, Hlk by done. unfold lock_at at 1. rewrite Hnew.
    rewrite (msum_ext (λ _ ch, lock_at (nodes c') ch) (λ _ ch, lock_at (nodes c) ch) (children xn) (children xn));
      [lia|done|]. intros. rewrite Hlk. congruence.
  - assert (n' = n) as -> by congruence. apply own_ext; [done..|]. auto.
Qed.

Lemma linked_acct c φ c' L x xn xn' nn k v ck : inv c φ → nodes c !! x = Some xn →
  children xn !! ck = None → linked c c' x xn xn' nn k v ck → leaves_except (set_evictable_leaves L c') ∅ →
  acct (set_evictable_leaves L c').
Proof.
  intros Hinv Hx Hfree Hl HL. pose proof Hinv as [Hps Hwf [A1 A2 A3 A4 A5 A6 A7]].
  destruct (linked_own c φ c' x xn xn' nn k v ck Hinv Hx Hfree Hl) as [Hold Hown].
  pose proof (inv_fresh c φ Hinv) as Hnew.
  pose proof (li_new _ _ _ _ _ _ _ _ _ Hl) as [= N1 N2 N3 N4 N5].
  pose proof (li_par _ _ _ _ _ _ _ _ _ Hl) as [= P1 P2 P3 P4 P5].
  pose proof (li_cfg _ _ _ _ _ _ _ _ _ Hl) as [= _ _ _ _ _ Hroot].
  pose proof (linked_lookup c c' x xn xn' nn k v ck) as Hlook.
  assert (x ≠ counter c) as Hxc by congruence.
  assert (counter c ≠ root_node c) as Hcr.
  { destruct (wt_root _ _ _ _ _ Hwf) as (?&?&_). congruence. }
  assert (∀ j n, nodes c' !! j = Some n → (0 ≤ lock_ref n)%Z
    ∧ (j ≠ counter c → ∃ n0, nodes c !! j = Some n0 ∧ lock_ref n = lock_ref n0 ∧ parent n = parent n0)) as Hb.
  { intros j n. rewrite (Hlook j Hl). intros Hj. case_decide; [|case_decide].
    - injection Hj as <-. subst j. rewrite P5, P2. split; [by eapply A2|]. eauto.
    - injection Hj as <-. rewrite N5. split; [done|]. intros. congruence.
    - split; [by eapply A2|]. eauto. }
  split; simpl; rewrite ?Hroot, ?(li_counter _ _ _ _ _ _ _ _ _ Hl).
  - intros rn Hr. destruct (Hb _ _ Hr) as [_ Hb']. destruct (Hb' ltac:(done)) as (n0&?&->&_). eauto.
  - intros i n Hi. by apply (Hb i n).
  - intros i n Hi Hne. destruct (decide (i = counter c)) as [->|Hic].
    + rewrite (Hlook _ Hl), decide_False, decide_True in Hi by done. injection Hi as <-. by rewrite Hown.
    + destruct (Hb _ _ Hi) as [_ Hb']. destruct (Hb' Hic) as (n0&Hi0&_).
      rewrite (Hold i n0 n) by done. by eapply A3.
  - rewrite (li_ev _ _ _ _ _ _ _ _ _ Hl), (li_nodes _ _ _ _ _ _ _ _ _ Hl), A4.
    rewrite (msum_update _ _ x xn) by by rewrite lookup_insert_ne.
    rewrite msum_insert by done. unfold ev_len. rewrite N3, N5, P3, P5, (decide_False (P := counter c = _)) by done.
    destruct (decide (x = root_node c)); simpl; lia.
  - rewrite (li_pr _ _ _ _ _ _ _ _ _ Hl), (li_nodes _ _ _ _ _ _ _ _ _ Hl), A5.
    rewrite (msum_update _ _ x xn) by by rewrite lookup_insert_ne.
    rewrite msum_insert by done. unfold pr_len. rewrite N3, N5, P3, P5, (decide_False (P := counter c = _)) by done.
    destruct (decide (x = root_node c)); simpl; lia.
  - intros i. rewrite <-Hroot. apply (HL i). set_solver.
  - intros i [n Hi]. destruct (Hb i n Hi) as [_ Hb']. destruct (decide (i = counter c)) as [->|Hne]; [lia|].
    destruct (Hb' Hne) as (n0&?&_). pose proof (A7 i ltac:(eauto)). lia.
Qed.

Lemma linked_hash c φ c' x xn xn' nn k v ck : inv c φ → nodes c !! x = Some xn →
  linked c c' x xn xn' nn k v ck → hash_inv c → hash_inv c'.
Proof.
  intros Hinv Hx Hl [Hr [H1 H2 H3 H4]]. pose proof Hinv as [Hps Hwf _].
  pose proof (inv_fresh c φ Hinv) as Hnew.
  pose proof (li_new _ _ _ _ _ _ _ _ _ Hl) as [= N1 N2 N3 N4 N5].
  pose proof (li_par _ _ _ _ _ _ _ _ _ Hl) as [= P1 P2 P3 P4 P5].
  pose proof (li_cfg _ _ _ _ _ _ _ _ _ Hl) as [= _ Hcp _ _ _ Hroot].
  destruct (li_hnew _ _ _ _ _ _ _ _ _ Hl) as [Hn1 Hn2].
  destruct (li_hpar _ _ _ _ _ _ _ _ _ Hl) as [Hp1 Hp2].
  assert (counter c ≠ root_node c) as Hcr.
  { destruct (wt_root _ _ _ _ _ Hwf) as (?&?&_). congruence. }
  assert (∀ j n, nodes c' !! j = Some n →
    (j = counter c ∧ n = nn) ∨ ∃ n0, nodes c !! j = Some n0 ∧ key n = key n0
      ∧ parent n = parent n0 ∧ hash_value n = hash_value n0 ∧ event_hash_value n = event_hash_value n0) as Hb.
  { intros j n. rewrite (linked_lookup _ _ _ _ _ _ _ _ _ j Hl). intros Hj. case_decide; [|case_decide].
    - injection Hj as <-. subst j. right. exists xn. by split_and!.
    - injection Hj as <-. by left.
    - right. by exists n. }
  split; [by rewrite (li_kv _ _ _ _ _ _ _ _ _ Hl), Hcp|]. rewrite Hcp, Hroot. split.
  - intros rn Hi. destruct (Hb _ _ Hi) as [[? _]|(?&?&->&_)]; [congruence|eauto].
  - intros i n h Hi. destruct (Hb _ _ Hi) as [[_ ->]|(?&?&->&_&->&_)]; [congruence|eauto].
  - intros i n h Hi. destruct (Hb _ _ Hi) as [[_ ->]|(?&?&->&_&_&->)]; [congruence|eauto].
  - intros i n p pn Hi Hp Hpn Hpr He.
    destruct (Hb _ _ Hi) as [[-> ->]|(n0&Hi0&_&Hpe&_&Hee)]; [congruence|].
    destruct (Hb _ _ Hpn) as [[-> ->]|(p0&?&_&_&_&->)].
    + destruct (edge_of _ _ Hwf i n0 (counter c) Hi0 ltac:(congruence)) as (_&_&?&[]). congruence.
    + eapply (H4 i n0 p p0); congruence.
Qed.

(** The steps of [insert_leaf] before the event is recorded. *)
Lemma insert_leaf_links c φ x xn k v ck prio chunked : inv c φ → nodes c !! x = Some xn →
  ∃ c0 xn' nn L, linked c c0 x xn xn' nn k v ck ∧ leaves_except (set_evictable_leaves L c0) ∅
    ∧ insert_leaf monotonic native_hash salt_digest x k v ck prio chunked c
      = let c2 := set_evictable_leaves L c0 in
        let! (ns, ev) := record_store native_hash salt_digest (nodes c2) (counter c) None (kv_events c2) in
        Ok (set_kv_events ev (set_nodes ns c2), counter c).
Proof.
  intros Hinv Hx. pose proof (inv_fresh c φ Hinv) as Hnew. pose proof Hinv as [_ Hwf Hac].
  assert (x ≠ counter c) as Hxc by congruence.
  unfold insert_leaf, alloc_node, now. cbn [counter set_reads set_counter].
  set (c0 := set_evictable_size_ _ _).
  assert (∃ xn' nn, linked c c0 x xn xn' nn k v ck) as (xn'&nn&Hl).
  { unfold c0, inc_hit_count, upd_node. destruct chunked; cbn [nodes set_nodes set_counter set_reads counter].
    all: rewrite (alter_as_insert _ (<[counter c:=_]> (nodes c)) (counter c) _ (lookup_insert_eq _ _ _)), insert_insert_eq.
    2: rewrite (alter_as_insert _ (<[counter c:=_]> (nodes c)) (counter c) _ (lookup_insert_eq _ _ _)), insert_insert_eq.
    all: erewrite (alter_as_insert _ (<[counter c:=_]> (nodes c)) x xn) by (rewrite lookup_insert_ne by done; exact Hx).
    all: eexists _, _; split; try reflexivity; done. }
  clearbody c0. exists c0, xn', nn.
  pose proof (li_new _ _ _ _ _ _ _ _ _ Hl) as [= _ _ _ _ N5].
  pose proof (li_par _ _ _ _ _ _ _ _ _ Hl) as [= _ _ _ _ P5].
  pose proof (li_cfg _ _ _ _ _ _ _ _ _ Hl) as [= _ _ _ _ _ Hroot].
  pose proof (linked_lookup c c0 x xn xn' nn k v ck) as Hlook.
  pose proof (linked_valued _ _ _ _ _ _ _ _ _ _ Hinv Hx Hl) as Hall.
  assert (leaves_except c0 {[x; counter c]}) as Hle.
  { intros j Hj. rewrite (li_leaves _ _ _ _ _ _ _ _ _ Hl), (ac_leaves _ Hac), Hroot.
    unfold is_evictable_leaf. rewrite (Hlook j Hl), !decide_False by set_solver. done. }
  destruct (update_leaf_status_leaves c0 x xn' {[x; counter c]}) as (L1&HL1&Hle1); try done.
  { by rewrite (Hlook x Hl), decide_True. }
  { rewrite P5. by eapply (ac_lock _ Hac). }
  { rewrite P5, Hroot. intros ->. by apply (ac_root_lock _ Hac). }
  rewrite HL1. res_step.
  destruct (update_leaf_status_leaves (set_evictable_leaves L1 c0) (counter c) nn ({[x; counter c]} ∖ {[x]}))
    as (L2&HL2&Hle2); try done.
  { simpl. by rewrite (Hlook _ Hl), decide_False, decide_True. }
  { lia. }
  { simpl. rewrite Hroot. destruct (wt_root _ _ _ _ _ Hwf) as (?&?&_). congruence. }
  rewrite HL2. res_step. exists L2. split_and!; [done| |done]. intros j _. apply Hle2. set_solver.
Qed.

(** The new leaf joins the tree, and the other nodes keep what they hold. *)
Section LinkedTree.
Context c φ c0 x xn xn' nn k v ck (Hinv : inv c φ) (Hx : nodes c !! x = Some xn)
  (Hl : linked c c0 x xn xn' nn k v ck) (Hk : key_ok (page_size c) (is_eagle c) k)
  (Hv : length v = klen k) (Hck : child_key k (page_size c) = Ok ck) (Hfree : children xn !! ck = None)
  (Hns : x ≠ root_node c → namespace k = namespace (key xn)).

Abbreviation φ' := (split_path φ (counter c) (φ x ++ iter k)).

Lemma linked_sview : sview nn = (∅, Some x, k, Some v)
  ∧ sview xn' = (<[ck := counter c]> (children xn), parent xn, key xn, value xn).
Proof.
  pose proof (li_new _ _ _ _ _ _ _ _ _ Hl) as [= N1 N2 N3 N4 N5].
  pose proof (li_par _ _ _ _ _ _ _ _ _ Hl) as [= P1 P2 P3 P4 P5].
  unfold sview. split; congruence.
Qed.

Lemma linked_inv L : leaves_except (set_evictable_leaves L c0) ∅ → inv (set_evictable_leaves L c0) φ'.
Proof.
  intros Hle. pose proof (li_cfg _ _ _ _ _ _ _ _ _ Hl) as [= _ Hcp Hce _ _ Hroot].
  pose proof Hinv as [Hps Hwf _]. destruct linked_sview as [Hsn Hsp]. pose proof (inv_fresh c φ Hinv).
  split; [change (0 < page_size c0); by rewrite Hcp| |by eapply linked_acct].
  change (wf_tree (page_size c0) (is_eagle c0) (nodes c0) (root_node c0) φ').
  rewrite Hcp, Hce, Hroot, (li_nodes _ _ _ _ _ _ _ _ _ Hl). by eapply (wf_tree_add_leaf _ _ Hps).
Qed.

Lemma linked_slots : slots (nodes c0) ≡ₚ v ++ slots (nodes c).
Proof.
  pose proof (inv_fresh c φ Hinv) as Hnew. assert (x ≠ counter c) by congruence.
  pose proof (li_new _ _ _ _ _ _ _ _ _ Hl) as [= _ _ _ N4 _].
  pose proof (li_par _ _ _ _ _ _ _ _ _ Hl) as [= _ _ _ P4 _].
  rewrite (li_nodes _ _ _ _ _ _ _ _ _ Hl), (slots_update _ x xn xn') by (done || by rewrite lookup_insert_ne).
  by apply slots_insert.
Qed.

Lemma linked_keeps i n : nodes c !! i = Some n → φ' i = φ i ∧ ∃ n', nodes c0 !! i = Some n'
  ∧ lock_ref n' = lock_ref n ∧ key n' = key n ∧ own (nodes c0) n' = own (nodes c) n.
Proof.
  intros Hi. pose proof (inv_fresh c φ Hinv) as Hnew.
  pose proof (li_par _ _ _ _ _ _ _ _ _ Hl) as [= _ _ P3 _ P5].
  split; [unfold split_path; by rewrite decide_False by congruence|].
  assert (∃ n', nodes c0 !! i = Some n' ∧ lock_ref n' = lock_ref n ∧ key n' = key n) as (n'&Hn'&?&?).
  { rewrite (linked_lookup _ _ _ _ _ _ _ _ _ i Hl). case_decide; [|case_decide; [congruence|eauto]].
    exists xn'. split_and!; congruence. }
  exists n'. split_and!; try done.
  destruct (linked_own c φ c0 x xn xn' nn k v ck) as [Hown _]; [done..|]. by eapply Hown.
Qed.

Lemma linked_pages N Q vs : page_at (page_size c) (nodes c0) φ' N Q vs ↔ pages c φ N Q vs
  ∨ (N = namespace k ∧ ∃ j, j * page_size c + page_size c ≤ klen k
      ∧ Q = φ x ++ take (j * page_size c + page_size c) (iter k)
      ∧ vs = pyslice v (j * page_size c) (j * page_size c + page_size c)).
Proof.
  pose proof Hinv as [Hps Hwf _]. destruct linked_sview as [Hsn Hsp]. pose proof (inv_fresh c φ Hinv).
  rewrite (li_nodes _ _ _ _ _ _ _ _ _ Hl).
  by eapply (page_at_add_leaf _ (is_eagle c) _ (root_node c) φ x xn xn' (counter c) nn k v ck).
Qed.
End LinkedTree.

Lemma insert_leaf_spec c φ x xn k v ck prio chunked :
  inv c φ → hash_inv c → nodes c !! x = Some xn →
  key_ok (page_size c) (is_eagle c) k → length v = klen k →
  child_key k (page_size c) = Ok ck → children xn !! ck = None →
  (x ≠ root_node c → namespace k = namespace (key xn)) →
  ∃ c' φ', insert_leaf monotonic native_hash salt_digest x k v ck prio chunked c = Ok (c', counter c)
    ∧ inv c' φ' ∧ hash_inv c' ∧ cfg c' = cfg c ∧ allocator c' = allocator c
    ∧ evictable_size_ c' = (evictable_size_ c + Z.of_nat (klen k))%Z
    ∧ protected_size_ c' = protected_size_ c
    ∧ φ' = split_path φ (counter c) (φ x ++ iter k)
    ∧ slots (nodes c') ≡ₚ v ++ slots (nodes c)
    ∧ is_Some (nodes c' !! counter c)
    ∧ (∀ i n, nodes c !! i = Some n → φ' i = φ i ∧ ∃ n', nodes c' !! i = Some n'
         ∧ lock_ref n' = lock_ref n ∧ namespace (key n') = namespace (key n)
         ∧ own (nodes c') n' = own (nodes c) n)
    ∧ (∀ N Q vs, pages c' φ' N Q vs ↔ pages c φ N Q vs
         ∨ (N = namespace k ∧ ∃ j, j * page_size c + page_size c ≤ klen k
             ∧ Q = φ x ++ take (j * page_size c + page_size c) (iter k)
             ∧ vs = pyslice v (j * page_size c) (j * page_size c + page_size c))).
Proof.
  intros Hinv Hhash Hx Hk Hv Hck Hfree Hns. pose proof Hinv as [Hps Hwf _].
  assert (counter c ≠ root_node c) as Hcr.
  { pose proof (inv_fresh c φ Hinv). destruct (wt_root _ _ _ _ _ Hwf) as (?&?&_). congruence. }
  destruct (insert_leaf_links c φ x xn k v ck prio chunked Hinv Hx) as (c0&xn'&nn&L&Hl&Hle&->).
  pose proof (li_new _ _ _ _ _ _ _ _ _ Hl) as [= N1 N2 N3 N4 N5].
  pose proof (li_cfg _ _ _ _ _ _ _ _ _ Hl) as Hcfg. pose proof Hcfg as [= _ Hcp _ _ _ Hroot].
  set (c2 := set_evictable_leaves L c0). set (φ' := split_path φ (counter c) (φ x ++ iter k)).
  assert (inv c2 φ') as Hinv2 by by eapply linked_inv.
  pose proof (linked_hash _ _ _ _ _ _ _ _ _ _ Hinv Hx Hl Hhash) as [[Hrp Hrw] Hhw].
  assert (nodes c2 !! counter c = Some nn) as Hn0.
  { pose proof (inv_fresh c φ Hinv). change (nodes c2) with (nodes c0).
    rewrite (linked_lookup _ _ _ _ _ _ _ _ _ _ Hl), decide_False, decide_True by congruence. done. }
  destruct (record_store_ok native_hash salt_digest Hnative (page_size c) Hps (nodes c2) (root_node c)
    (depth (nodes c2) φ') (counter c) nn (kv_events c2)) as (ns'&r'&Hrs&Hs&Hw&Hen&Hrp'&Hoff&Hon); try done.
  { rewrite <-Hcp, <-Hroot. eapply chain_of_wf; [apply Hinv2|apply Hinv2|]. apply Hhw. }
  { by rewrite <-Hcp, <-Hroot. }
  { by rewrite <-Hcp. }
  cbv zeta. rewrite Hrs. res_step. pose proof (same_core_shape _ _ Hs) as Hsh.
  eexists _, φ'. split; [reflexivity|]. split_and!; try done.
  - by apply (inv_core c2).
  - split; [split; [change (rec_page_size r' = page_size c0); congruence|]|
      change (hash_wf (page_size c0) ns' (root_node c0)); by rewrite Hcp, Hroot].
    destruct (enabled (kv_events c2)) eqn:E; [by apply Hon|by rewrite Hoff].
  - apply Hl.
  - apply Hl.
  - apply Hl.
  - cbn [nodes set_nodes set_kv_events]. rewrite <-(same_shape_slots _ _ Hsh).
    by apply (linked_slots c φ c0 x xn xn' nn k v ck).
  - destruct (same_core_lookup _ _ _ _ Hs Hn0) as (n'&?&_). by exists n'.
  - intros i n Hi. destruct (linked_keeps c φ c0 x xn xn' nn k v ck Hinv Hx Hl Hfree i n Hi)
      as (Hφ&n2&Hn2&<-&<-&<-). split; [done|].
    destruct (same_core_lookup _ _ _ _ Hs Hn2) as (n'&?&Hv'). exists n'.
    change (nodes c2) with (nodes c0) in Hs.
    pose proof (same_core_own _ _ _ _ Hs (eq_sym Hv')) as Ho. pose proof Hv' as [= _ _ Hk' _ Hl'].
    split_and!; [done|congruence|congruence|by symmetry].
  - intros N Q vs. cbn [page_size nodes set_nodes set_kv_events].
    rewrite <-(page_at_shape _ _ _ _ _ _ _ Hsh). change (page_size c2) with (page_size c0). rewrite Hcp.
    by apply (linked_pages c φ c0 x xn xn' nn k v ck).
Qed.

(** ** The contents after an insertion *)

Lemma page_prefix_closed c φ N K a b vs : inv c φ → 0 < a → a ≤ b → b ≤ length K →
  a mod page_size c = 0 → pages c φ N (take b K) vs → ∃ vs', pages c φ N (take a K) vs'.
Proof.
  intros [Hps Hwf _] Ha Hab Hb Hm Hp.
  destruct (page_at_node _ _ Hps Hwf N (take b K) vs Hp) as (i&n&Hi&Hir&Hn&Hpre&_&_).
  eapply (stored_page _ _ Hps Hwf N (take a K) i n); try done.
  - etrans; [|exact Hpre]. exists (drop a (take b K)).
    rewrite <-(take_drop a (take b K)) at 1. f_equal. rewrite take_take. f_equal. lia.
  - rewrite length_take. lia.
  - rewrite length_take, Nat.min_l by lia. done.
Qed.

Lemma spec_pages_lookup ps N K V N' Q vs : 0 < ps →
  spec_pages ps N K V !! (N', Q) = Some vs ↔
  N' = N ∧ ∃ j, j * ps + ps ≤ length K ∧ Q = page_prefix ps K j ∧ vs = pyslice V (j * ps) (j * ps + ps).
Proof.
  intros Hps. unfold spec_pages.
  assert (∀ j, j < length K / ps ↔ j * ps + ps ≤ length K) as Hj.
  { intros j. pose proof (Nat.Div0.mul_div_le (length K) ps).
    pose proof (Nat.mul_succ_div_gt (length K) ps). split; intros; nia. }
  etrans; [symmetry; apply (elem_of_list_to_map (M := gmap (Namespace * list lunit)))|].
  - rewrite <-list_fmap_compose. simpl. apply NoDup_fmap_2_strong; [|apply NoDup_seq].
    intros a b Ha Hb. apply elem_of_seq in Ha, Hb. simpl. intros [= Heq].
    apply (f_equal length) in Heq. unfold page_prefix in Heq. rewrite !length_take in Heq.
    pose proof (proj1 (Hj a) ltac:(lia)). pose proof (proj1 (Hj b) ltac:(lia)). nia.
  - rewrite list_elem_of_fmap. split.
    + intros (j&[= -> -> ->]&Hin). apply elem_of_seq in Hin. split; [done|]. exists j. split_and!; try done.
      apply Hj. lia.
    + intros (->&j&Hle&->&->). exists j. split; [done|]. apply elem_of_seq. apply Hj in Hle. lia.
Qed.

(** The pages of the unmatched rest are the pages of the key past the match. *)
Lemma rest_pages ps K (V : list Z) m (N N' : Namespace) Q vs : 0 < ps → m ≤ length K → m mod ps = 0 →
  (N' = N ∧ ∃ j, j * ps + ps ≤ length K - m ∧ Q = take m K ++ take (j * ps + ps) (drop m K)
     ∧ vs = pyslice (drop m V) (j * ps) (j * ps + ps)) ↔
  (N' = N ∧ ∃ j, m < j * ps + ps ∧ j * ps + ps ≤ length K ∧ Q = page_prefix ps K j
     ∧ vs = pyslice V (j * ps) (j * ps + ps)).
Proof.
  intros Hps Hm [b Hb]%Nat.Lcm0.mod_divide.
  assert (∀ a, take m K ++ take a (drop m K) = take (m + a) K) as Htk.
  { intros a. rewrite <-(take_drop m K) at 3.
    replace (m + a) with (length (take m K) + a) by (rewrite length_take; lia).
    by rewrite take_app_add. }
  split; intros (->&j&H); (split; [done|]).
  - destruct H as (Hj&->&->). exists (b + j). split_and!; [nia|nia| |].
    + rewrite Htk. unfold page_prefix. f_equal. nia.
    + rewrite pyslice_drop. f_equal; nia.
  - destruct H as (H1&H2&->&->). assert (b < j + 1) as Hbj by nia. exists (j - b). split_and!; [nia| |].
    + rewrite Htk. unfold page_prefix. f_equal. nia.
    + rewrite pyslice_drop. f_equal; nia.
Qed.

Lemma insert_contents c φ M N K V vals m x : inv c φ →
  (∀ N Q vs, M !! (N, Q) = Some vs ↔ pages c φ N Q vs) →
  reached_in c φ N K vals m x → longest c φ N K m →
  ∀ N' Q vs, spec_insert M (page_size c) N K V !! (N', Q) = Some vs ↔
    pages c φ N' Q vs ∨ (N' = N ∧ ∃ j, m < j * page_size c + page_size c
      ∧ j * page_size c + page_size c ≤ length K ∧ Q = page_prefix (page_size c) K j
      ∧ vs = pyslice V (j * page_size c) (j * page_size c + page_size c)).
Proof.
  intros Hinv HM [_ _ Hle Hmod _ Hpg] Hlong N' Q vs. pose proof (in_ps _ _ Hinv) as Hps.
  unfold spec_insert. rewrite lookup_union_Some_raw, HM, spec_pages_lookup by done.
  split; (intros [?|H]; [by left|]).
  - destruct H as (Hnone&->&j&Hj&->&->). destruct (decide (j * page_size c + page_size c ≤ m)) as [Hjm|Hjm].
    + specialize (Hpg j Hjm). apply HM in Hpg. unfold page_prefix in Hnone. congruence.
    + right. split; [done|]. exists j. split_and!; try done. lia.
  - destruct H as (->&j&Hm&Hj&->&->). right. split; [|by eauto].
    destruct (M !! _) as [vs'|] eqn:E; [|done]. exfalso. apply HM in E.
    assert (m + page_size c ≤ j * page_size c + page_size c) as Hmj.
    { apply aligned_gap; [done| |lia]. rewrite <-Nat.mul_succ_l. apply Nat.Div0.mod_mul. }
    destruct (page_prefix_closed c φ N K (m + page_size c) (j * page_size c + page_size c) vs')
      as [vs2 Hvs2]; try done; try lia.
    + rewrite Nat.Div0.add_mod, Hmod, Nat.Div0.mod_same, Nat.Div0.mod_0_l. done.
    + eapply Hlong; [lia|done].
Qed.

(** What an insertion establishes. *)
Record inserted c φ M N K V c' φ' (x' : node_id) : Prop := {
  is_inv : inv c' φ';
  is_hash : hash_inv c';
  is_node : is_Some (nodes c' !! x');
  is_path : φ' x' = K;
  is_pages : ∀ N' Q vs, spec_insert M (page_size c) N K V !! (N', Q) = Some vs ↔ pages c' φ' N' Q vs;
  is_cfg : cfg c' = cfg c;
  is_alloc : allocator c' = allocator c;
  is_le : length (spec_match M (page_size c) N K) ≤ length K;
  is_ev : evictable_size_ c'
    = (evictable_size_ c + Z.of_nat (length K - length (spec_match M (page_size c) N K)))%Z;
  is_pr : protected_size_ c' = protected_size_ c;
  is_slots : slots (nodes c') ≡ₚ drop (length (spec_match M (page_size c) N K)) V ++ slots (nodes c);
  is_keep : ∀ i n, nodes c !! i = Some n → φ' i = φ i ∧ ∃ n', nodes c' !! i = Some n'
    ∧ lock_ref n' = lock_ref n ∧ namespace (key n') = namespace (key n)
    ∧ own (nodes c') n' = own (nodes c) n;
}.

(** The whole key was already stored. *)
Lemma inserted_whole c φ M N K V vals c' φ' x : hash_inv c → quiet c φ c' φ' →
  (∀ N Q vs, M !! (N, Q) = Some vs ↔ pages c φ N Q vs) → length V = length K →
  reached_in c' φ' N K vals (length K) x →
  length (spec_match M (page_size c) N K) = length K ∧ inserted c φ M N K V c' φ' x.
Proof.
  intros Hh Hq HM HV Hre. pose proof (qu_inv _ _ _ _ Hq) as Hinv. pose proof (quiet_page_size _ _ _ _ Hq) as Hps.
  assert (∀ N Q vs, M !! (N, Q) = Some vs ↔ pages c' φ' N Q vs) as HM'.
  { intros. rewrite HM. symmetry. apply Hq. }
  assert (longest c' φ' N K (length K)) as Hlong by (intros ?; pose proof (in_ps _ _ Hinv); lia).
  pose proof (insert_contents c' φ' M N K V vals _ x Hinv HM' Hre Hlong) as Hcont.
  assert (length (spec_match M (page_size c) N K) = length K) as Hm.
  { rewrite <-Hps, (spec_match_reached monotonic c' φ' M N K vals _ x) by done. apply Hre. }
  split; [done|]. destruct Hre as [(xn&?&_) Hpath _ _ _ _]. split; rewrite ?Hm; try by apply Hq.
  - by eexists.
  - by rewrite Hpath, firstn_all.
  - intros N' Q vs. rewrite <-Hps, Hcont. split; [|by left]. intros [?|(_&j&?&?&_)]; [done|lia].
  - done.
  - rewrite (qu_ev _ _ _ _ Hq). lia.
  - rewrite drop_ge by lia. apply Hq.
Qed.

(** The descent stops inside the key: the rest becomes a leaf. *)
Lemma inserted_rest c φ M N K V vals c' φ' x k ck m prio chunked : hash_inv c → quiet c φ c' φ' →
  (∀ N Q vs, M !! (N, Q) = Some vs ↔ pages c φ N Q vs) → length V = length K →
  reached_in c' φ' N K vals m x → longest c' φ' N K m → remainder c' N K m k ck → 0 < klen k →
  (∃ xn, nodes c' !! x = Some xn ∧ children xn !! ck = None) →
  length (spec_match M (page_size c) N K) = m
  ∧ ∃ c2 φ2, insert_leaf monotonic native_hash salt_digest x k (drop m V) ck prio chunked c' = Ok (c2, counter c')
    ∧ inserted c φ M N K V c2 φ2 (counter c').
Proof.
  intros Hh Hq HM HV Hre Hlong Hrem Hpos (xn&Hx&Hnone).
  pose proof (qu_inv _ _ _ _ Hq) as Hinv. pose proof (quiet_page_size _ _ _ _ Hq) as Hps.
  assert (∀ N Q vs, M !! (N, Q) = Some vs ↔ pages c' φ' N Q vs) as HM'.
  { intros. rewrite HM. symmetry. apply Hq. }
  pose proof (insert_contents c' φ' M N K V vals m x Hinv HM' Hre Hlong) as Hcont.
  assert (length (spec_match M (page_size c) N K) = m) as Hm.
  { rewrite <-Hps, (spec_match_reached monotonic c' φ' M N K vals m x) by done. apply Hre. }
  pose proof Hre as [Hin Hpath Hle Hmod Hlen Hpg]. pose proof Hrem as [Hit Hok Hkn _ _ Hkck _].
  pose proof (length_iter k) as Hkl. rewrite Hit, length_drop in Hkl.
  destruct (insert_leaf_spec c' φ' x xn k (drop m V) ck prio chunked)
    as (c2&φ2&Hl&Hinv2&Hh2&Hcfg&Hal&Hev&Hpr&Hφ&Hsl&Hsome&Hkeep&Hpages); try done.
  { by apply Hq. }
  { by apply Hok. }
  { rewrite length_drop. lia. }
  { by apply Hkck. }
  { destruct Hin as (xn'&?&Hxn). intros Hxr. rewrite Hkn. symmetry.
    assert (xn' = xn) as -> by congruence. auto. }
  split; [done|]. exists c2, φ2. split; [done|]. split; rewrite ?Hm; try done.
  - rewrite Hφ. unfold split_path. rewrite decide_True by done. rewrite Hpath, Hit. apply take_drop.
  - intros N' Q vs. rewrite <-Hps, Hcont, Hpages, Hkn.
    rewrite <-(rest_pages (page_size c') K V m N N' Q vs) by (done || apply Hinv).
    rewrite <-Hpath, <-Hit, <-Hkl. done.
  - rewrite Hcfg. apply Hq.
  - rewrite Hal. apply Hq.
  - rewrite Hev, (qu_ev _ _ _ _ Hq), Hkl. done.
  - rewrite Hpr. apply Hq.
  - rewrite Hsl. by rewrite (qu_slots _ _ _ _ Hq).
  - intros i n Hi. destruct (qu_nodes _ _ _ _ Hq _ _ Hi) as (<-&n'&Hn'&<-&<-&<-). by apply Hkeep.
Qed.

Lemma insert_helper_spec c φ M k V prio chunked :
  inv c φ → hash_inv c → (∀ N Q vs, M !! (N, Q) = Some vs ↔ pages c φ N Q vs) →
  key_for c k → length V = klen (cache_key c k) →
  let K := key_units c k in
  let N := namespace k in
  ∃ c' x' φ', insert_helper monotonic native_hash salt_digest (root_node c) (cache_key c k) V prio chunked c
      = Ok (c', length (spec_match M (page_size c) N K), x')
    ∧ inserted c φ M N K V c' φ' x'.
Proof.
  intros Hinv Hhash HM Hk HV K N. unfold insert_helper, now.
  set (c1 := set_reads (S (reads c)) c).
  assert (quiet c φ c1 φ) as Hq1 by by apply (now_quiet monotonic).
  set (c2 := upd_node (root_node c) _ c1).
  assert (quiet c φ c2 φ) as Hq2.
  { eapply quiet_trans; [done|]. apply upd_quiet; [apply Hq1|done|done]. }
  set (c3 := raise_priority (root_node c) _ c2).
  assert (quiet c φ c3 φ) as Hq3.
  { eapply quiet_trans; [done|]. apply raise_priority_quiet. apply Hq2. }
  assert (length K = klen (cache_key c k)) as HlK by apply length_iter.
  assert (reached_in c3 φ N K [] 0 (root_node c)) as Hroot.
  { apply (reached_quiet c φ c3 φ); [done|]. destruct (inv_root c φ Hinv). eapply reached_root; (done || apply Hinv). }
  destruct (Nat.eqb_spec (klen (cache_key c k)) 0) as [Hz|Hnz].
  { rewrite <-HlK in Hz. rewrite <-Hz in Hroot.
    destruct (inserted_whole c φ M N K V [] c3 φ (root_node c)) as [-> Hi]; [done..|congruence|done|].
    exists c3, (root_node c), φ. by rewrite Hz. }
  destruct (cache_key_child c k) as [ck Hck]; [done|apply Hinv|lia|].
  change (page_size c3) with (page_size c). rewrite Hck. res_step.
  destruct (insert_loop_spec (S (S (klen (cache_key c k)))) (monotonic (reads c)) (root_node c)
    (cache_key c k) V ck 0 (default 0%Z prio) chunked c3 φ N K 0 V [])
    as (c4&φ4&x&k'&ck'&m&vals&He&Hq4&Hre&Hlong&Hrem&Hfree); [apply Hq3|done| |lia|done|done|].
  { apply (remainder_cfg c); [done|]. apply cache_key_remainder; [done|apply Hinv|done..]. }
  rewrite He. res_step. pose proof (quiet_trans _ _ _ _ _ _ Hq3 Hq4) as Hq.
  destruct (Nat.ltb_spec 0 (klen k')) as [Hpos|Hz].
  - destruct (inserted_rest c φ M N K V vals c4 φ4 x k' ck' m (default 0%Z prio) chunked)
      as (->&c5&φ5&->&Hi); try done; [congruence|by apply Hfree|]. res_step. by exists c5, (counter c4), φ5.
  - assert (m = length K) as ->.
    { pose proof (length_iter k') as Hkl. rewrite (rm_iter _ _ _ _ _ _ Hrem), length_drop in Hkl.
      pose proof (re_le _ _ _ _ _ _ _ _ _ Hre). lia. }
    destruct (inserted_whole c φ M N K V vals c4 φ4 x) as [-> Hi]; [done..|congruence|done|].
    by exists c4, x, φ4.
Qed.

(** ** The operation *)

(** The page values the code stores for a key. *)
Definition stored_values c k (v : option (list Z)) : list Z :=
  take (klen (cache_key c k)) (default (token_ids (cache_key c k)) v).

Lemma cache_insert_spec c φ M k v prio chunked :
  inv c φ → hash_inv c → (∀ N Q vs, M !! (N, Q) = Some vs ↔ pages c φ N Q vs) →
  key_for c k → disable c = false → klen (cache_key c k) ≤ length (default (token_ids (cache_key c k)) v) →
  ∃ c' x' φ', cache_insert monotonic native_hash salt_digest k v prio chunked c
      = Ok (c', length (spec_match M (page_size c) (namespace k) (key_units c k)), Some x')
    ∧ inserted c φ M (namespace k) (key_units c k) (stored_values c k v) c' φ' x'.
Proof.
  intros Hinv Hhash HM Hk Hd Hv. unfold cache_insert. rewrite Hd.
  destruct (maybe_to_bigram_view k (is_eagle c) v) as [kb vb] eqn:Hkb.
  assert (page_aligned kb (page_size c) = cache_key c k) as Hck.
  { unfold cache_key. f_equal. unfold maybe_to_bigram_view in *.
    destruct (is_eagle c && negb (is_bigram k)); by injection Hkb as <- <-. }
  rewrite Hck.
  replace (match vb with Some v => _ | None => _ end) with (stored_values c k v); cycle 1.
  { unfold stored_values, maybe_to_bigram_view in *.
    destruct (is_eagle c && negb (is_bigram k)) eqn:E; injection Hkb as <- <-; destruct v as [v|]; try done.
    simpl. rewrite take_take. f_equal.
    assert (klen (cache_key c k) ≤ klen (set_bigram k)); [|lia]. rewrite <-Hck, <-!length_iter.
    assert (salt_ok (set_bigram k)) as Hs by apply Hk.
    destruct (page_aligned_spec (set_bigram k) (page_size c) Hs (in_ps _ _ Hinv)) as (->&_).
    rewrite length_take. lia. }
  destruct (insert_helper_spec c φ M k (stored_values c k v) prio chunked)
    as (c'&x'&φ'&He&Hi); try done.
  { unfold stored_values. rewrite length_take. lia. }
  rewrite He. res_step. by exists c', x', φ'.
Qed.

(** A key that was just inserted is found entirely: the pages that were there
    with their slots, the new ones with the inserted slots. *)
Lemma spec_match_insert c φ M N K V : inv c φ →
  (∀ N Q vs, M !! (N, Q) = Some vs ↔ pages c φ N Q vs) →
  (∃ vals m x, reached_in c φ N K vals m x ∧ longest c φ N K m) →
  length K mod page_size c = 0 → length V = length K →
  spec_match (spec_insert M (page_size c) N K V) (page_size c) N K
    = spec_match M (page_size c) N K ++ drop (length (spec_match M (page_size c) N K)) V.
Proof.
  intros Hinv HM (vals&m&x&Hre&Hlong) Hmod HV. pose proof (in_ps _ _ Hinv) as Hps.
  rewrite (spec_match_reached monotonic c φ M N K vals m x) by done.
  pose proof (insert_contents c φ M N K V vals m x Hinv HM Hre Hlong) as Hc.
  destruct Hre as [_ _ Hle Hm Hlen Hpg]. rewrite Hlen.
  unfold spec_match at 1.
  rewrite (spec_match_from_eq monotonic _ (page_size c) N K (vals ++ drop m V) (length K) _ 0);
    rewrite ?length_app, ?length_drop; try done; try lia.
  - intros i Hi. apply Hc. destruct (decide (i * page_size c + page_size c ≤ m)) as [Him|Him].
    + left. specialize (Hpg i Him). unfold page_prefix.
      replace (pyslice (vals ++ drop m V) _ _)
        with (pyslice vals (i * page_size c) (i * page_size c + page_size c)); [done|].
      rewrite <-(pyslice_take (vals ++ drop m V) _ _ m) by done.
      by rewrite <-Hlen, take_app_length.
    + right. split; [done|]. exists i. split_and!; [lia|done..|].
      assert (m + page_size c ≤ i * page_size c + page_size c) as Hgap.
      { apply aligned_gap; [done| |lia]. rewrite <-Nat.mul_succ_l. apply Nat.Div0.mod_mul. }
      unfold pyslice. rewrite drop_app_ge, drop_drop by lia. do 2 f_equal. lia.
Qed.

(** The descent for [k] gives the witness the lemma above asks for. *)
Lemma spec_descent c φ M k : inv c φ → key_for c k → disable c = false →
  (∀ N Q vs, M !! (N, Q) = Some vs ↔ pages c φ N Q vs) →
  ∃ c' φ' vals m x, quiet c φ c' φ' ∧ (∀ N Q vs, M !! (N, Q) = Some vs ↔ pages c' φ' N Q vs)
    ∧ reached_in c' φ' (namespace k) (key_units c k) vals m x
    ∧ longest c' φ' (namespace k) (key_units c k) m
    ∧ vals = spec_match M (page_size c) (namespace k) (key_units c k).
Proof.
  intros Hinv Hk Hd HM.
  destruct (match_prefix_quiet monotonic c φ k Hinv Hk Hd) as (c'&φ'&r&m&_&Hq&Hre&Hlo).
  assert (∀ N Q vs, M !! (N, Q) = Some vs ↔ pages c' φ' N Q vs) as HM'.
  { intros. rewrite HM. symmetry. apply Hq. }
  exists c', φ', (device_indices r), m, (last_device_node r). split_and!; try done.
  rewrite <-(quiet_page_size _ _ _ _ Hq). symmetry.
  eapply (spec_match_reached monotonic); [apply Hq|done..].
Qed.

Lemma key_units_mod c k : key_for c k → 0 < page_size c → length (key_units c k) mod page_size c = 0.
Proof.
  intros Hk Hps. destruct (cache_key_spec c k Hk Hps) as (_&_&_&?). unfold key_units. by rewrite length_iter.
Qed.

Lemma insert_match_key c φ M k V : inv c φ → key_for c k → disable c = false →
  (∀ N Q vs, M !! (N, Q) = Some vs ↔ pages c φ N Q vs) → length V = length (key_units c k) →
  let K := key_units c k in
  let N := namespace k in
  spec_match (spec_insert M (page_size c) N K V) (page_size c) N K
    = spec_match M (page_size c) N K ++ drop (length (spec_match M (page_size c) N K)) V.
Proof.
  intros Hinv Hk Hd HM HV K N.
  destruct (spec_descent c φ M k Hinv Hk Hd HM) as (c'&φ'&vals&m&x&Hq&HM'&Hre&Hlo&_).
  rewrite <-(quiet_page_size _ _ _ _ Hq). eapply (spec_match_insert c' φ'); try done.
  - apply Hq.
  - by eexists _, _, _.
  - rewrite (quiet_page_size _ _ _ _ Hq). apply key_units_mod; [done|apply Hinv].
Qed.
End Insert.
