(* ===== verification/RadixLock.v ===== *)
(** * Locks

    [inc_lock_ref] and [dec_lock_ref] walk from a node to the root.  They keep
    the contents, move exactly the lengths of the nodes whose count leaves or
    reaches zero between the two size counters, change the number of locks taken
    on the given node ([own]) by one and that of no other node, and are inverse
    to each other. *)

From stdpp Require Import base tactics numbers list gmap strings.
From Stdlib Require Import ZArith Lia ZifyNat.
From S2P Require Import Prelude RadixKey TreeNode KvEvents EventQueue RadixCache RadixInv RadixPages RadixAcct.
From S2P Require Import RadixMatch RadixSpec RadixInsert.

(** The nodes a walk visits: from [x] up, the root excluded. *)
Fixpoint walk (fuel : nat) (ns : gmap node_id TreeNode) (root x : node_id) : list node_id :=
  match fuel with
  | 0 => []
  | S fuel =>
      if decide (x = root) then []
      else x :: match ns !! x with
                | Some n => match parent n with Some p => walk fuel ns root p | None => [] end
                | None => []
                end
  end.

Section Lock.
Context {A : Type}.
Implicit Types c : RadixCache A.

(** The accounting invariant without the clause on [own]. *)
Record exact c : Prop := {
  ex_root : ∀ rn, nodes c !! root_node c = Some rn → (0 < lock_ref rn)%Z;
  ex_lock : ∀ i n, nodes c !! i = Some n → (0 ≤ lock_ref n)%Z;
  ex_ev : evictable_size_ c = msum (ev_len (root_node c)) (nodes c);
  ex_pr : protected_size_ c = msum (pr_len (root_node c)) (nodes c);
  ex_leaves : leaves_except c ∅;
  ex_fresh : ∀ i, is_Some (nodes c !! i) → i < counter c;
}.

Lemma acct_exact c : acct c → exact c.
Proof. intros []. split; try done. intros j _. auto. Qed.

Lemma exact_acct c : exact c →
  (∀ i n, nodes c !! i = Some n → i ≠ root_node c → (0 ≤ own (nodes c) n)%Z) → acct c.
Proof. intros [] ?. split; try done. intros j. by apply ex_leaves0. Qed.

(** The length that becomes evictable when the count of [n] becomes [z]. *)
Definition freed (n : TreeNode) (z : Z) : Z :=
  ((if (z =? 0)%Z then Z.of_nat (klen (key n)) else 0)
   - (if (lock_ref n =? 0)%Z then Z.of_nat (klen (key n)) else 0))%Z.

Section Relock.
Context (c c1 : RadixCache A) (φ : node_id → list lunit) (x : node_id) (n : TreeNode) (z : Z).
Context (Hps : 0 < page_size c) (Hwf : wf_tree (page_size c) (is_eagle c) (nodes c) (root_node c) φ).
Context (Hx : nodes c !! x = Some n) (Hxr : x ≠ root_node c).
Context (Hns : nodes c1 = <[x := set_lock_ref z n]> (nodes c)) (Hcfg : cfg c1 = cfg c).

Lemma relock_shape : same_shape (nodes c1) (nodes c).
Proof.
  rewrite Hns. unfold same_shape. rewrite fmap_insert. apply insert_id. by rewrite lookup_fmap, Hx.
Qed.

Lemma relock_exact : exact c → (0 ≤ z)%Z → counter c1 = counter c →
  evictable_leaves c1 = evictable_leaves c →
  evictable_size_ c1 = (evictable_size_ c + freed n z)%Z →
  protected_size_ c1 = (protected_size_ c - freed n z)%Z →
  ∃ L, update_leaf_status x c1 = Ok (set_evictable_leaves L c1) ∧ exact (set_evictable_leaves L c1).
Proof.
  intros [E1 E2 E3 E4 E5 E6] Hz Hcnt Hlv Hev Hpr. pose proof Hcfg as [= _ _ _ _ _ Hroot].
  assert (nodes c1 !! x = Some (set_lock_ref z n)) as Hx1 by by rewrite Hns, lookup_insert_eq.
  assert (∀ j m, nodes c1 !! j = Some m → ∃ m0, nodes c !! j = Some m0 ∧ children m = children m0
    ∧ value m = value m0 ∧ (j ≠ x → m = m0)) as Hb.
  { intros j m Hj. rewrite Hns in Hj. apply lookup_insert_Some in Hj as [[<- <-]|[? ?]]; eexists; split_and!; eauto; congruence. }
  assert (all_valued c1) as Hall.
  { assert (∀ j, is_Some (nodes c !! j) → is_Some (nodes c1 !! j)) as Hs.
    { intros j [m Hj]. rewrite Hns. destruct (decide (j = x)) as [->|]; [rewrite lookup_insert_eq|rewrite lookup_insert_ne by done]; eauto. }
    intros j m Hj. destruct (Hb j m Hj) as (m0&Hj0&Hc&Hv&_). rewrite Hv, Hc. split.
    - destruct (decide (j = root_node c)) as [->|Hne].
      + destruct (wt_root _ _ _ _ _ Hwf) as (?&?&_&?). congruence.
      + destruct (wt_node _ _ _ _ _ Hwf j m0 Hj0 Hne) as [[_ (?&?&_)] _]. congruence.
    - intros ck ch Hch. apply Hs. destruct (wt_child _ _ _ _ _ Hwf j m0 ck ch Hj0 Hch) as (_&?&?&_). eauto. }
  destruct (update_leaf_status_leaves c1 x (set_lock_ref z n) {[x]}) as (L&HL&Hle); try done.
  { rewrite Hroot. congruence. }
  { intros j Hj. rewrite Hlv, (E5 j), Hroot by set_solver. unfold is_evictable_leaf.
    rewrite Hns, lookup_insert_ne by set_solver. done. }
  exists L. split; [done|].
  split; cbn [nodes root_node evictable_size_ protected_size_ counter set_evictable_leaves]; rewrite ?Hroot.
  - intros rn Hr. rewrite Hns, lookup_insert_ne in Hr by done. eauto.
  - intros j m Hj. rewrite Hns in Hj. apply lookup_insert_Some in Hj as [[_ <-]|[_ ?]]; [done|eauto].
  - rewrite Hev, E3, Hns, (msum_update _ _ x n) by done. unfold ev_len, freed. rewrite !decide_False by done. simpl.
    destruct (z =? 0)%Z, (lock_ref n =? 0)%Z; lia.
  - rewrite Hpr, E4, Hns, (msum_update _ _ x n) by done. unfold pr_len, freed. rewrite !decide_False by done. simpl.
    destruct (z =? 0)%Z, (lock_ref n =? 0)%Z; lia.
  - intros j _. apply Hle. set_solver.
  - intros j Hj. rewrite Hcnt. apply E6. rewrite Hns in Hj. destruct Hj as [m Hj].
    apply lookup_insert_Some in Hj as [[<- _]|[_ ?]]; eauto.
Qed.

Lemma relock_own p pn pn' : parent n = Some p → nodes c !! p = Some pn → nodes c1 !! p = Some pn' →
  own (nodes c1) (set_lock_ref z n) = (own (nodes c) n + (z - lock_ref n))%Z
  ∧ own (nodes c1) pn' = (own (nodes c) pn - (z - lock_ref n))%Z
  ∧ ∀ j m m', nodes c !! j = Some m → nodes c1 !! j = Some m' → j ≠ x → j ≠ p →
      own (nodes c1) m' = own (nodes c) m.
Proof.
  intros Hp Hpn Hpn'. destruct (path_len _ _ Hps Hwf x n p Hx Hp) as [Hpl ?].
  assert (p ≠ x) as Hpx by (intros ->; lia).
  assert (∀ j, j ≠ x → lock_at (nodes c1) j = lock_at (nodes c) j) as Hlk.
  { intros j Hj. unfold lock_at. by rewrite Hns, lookup_insert_ne. }
  assert (lock_at (nodes c1) x = z) as Hlx by (unfold lock_at; by rewrite Hns, lookup_insert_eq).
  destruct (edge_of _ _ Hwf x n p Hx Hp) as (_&_&pn0&[_ Hp0 (ck&Hck&Hch) _ _]).
  assert (pn0 = pn) as -> by congruence.
  assert (∀ j m ck' ch, nodes c !! j = Some m → children m !! ck' = Some ch → j ≠ p → ch ≠ x) as Hnc.
  { intros j m ck' ch Hj Hc Hjp ->. destruct (wt_child _ _ _ _ _ Hwf j m ck' x Hj Hc) as (_&m'&?&?&_). congruence. }
  split_and!.
  - unfold own. rewrite (child_locks_ext (nodes c1) (nodes c) (set_lock_ref z n) n); [simpl; lia|done|].
    intros ck' ch Hc. apply Hlk. eapply (Hnc x n); eauto.
  - rewrite Hns, lookup_insert_ne in Hpn' by done. assert (pn' = pn) as -> by congruence.
    unfold own, child_locks.
    rewrite <-(insert_id (children pn) ck x Hch), <-insert_delete_eq.
    rewrite !msum_insert by apply lookup_delete_eq. rewrite Hlx, (lock_at_some _ x n Hx).
    rewrite (msum_ext (λ _ ch, lock_at (nodes c1) ch) (λ _ ch, lock_at (nodes c) ch)
      (delete ck (children pn)) (delete ck (children pn))); [lia|done|].
    intros ck' a b Ha Hb. assert (a = b) as -> by congruence. apply Hlk. intros ->.
    apply lookup_delete_Some in Hb as [Hne Hb].
    destruct (wt_child _ _ _ _ _ Hwf p pn ck' x Hpn Hb) as (_&m'&?&_&?). congruence.
  - intros j m m' Hj Hj' Hjx Hjp. rewrite Hns, lookup_insert_ne in Hj' by done.
    assert (m' = m) as -> by congruence. apply own_ext; [done..|]. intros ck' ch Hc. apply Hlk.
    eapply (Hnc j m); eauto.
Qed.
End Relock.

(** Every node of [ws] has its count changed by [d]; nothing else changes but
    the size counters and the evictable set. *)
Record relocked c c' (ws : list node_id) (d : Z) : Prop := {
  rl_nodes : ∀ j, nodes c' !! j =
    (λ n, set_lock_ref (lock_ref n + (if decide (j ∈ ws) then d else 0)) n) <$> nodes c !! j;
  rl_cfg : cfg c' = cfg c;
  rl_alloc : allocator c' = allocator c;
  rl_kv : kv_events c' = kv_events c;
  rl_counter : counter c' = counter c;
  rl_reads : reads c' = reads c;
}.

Lemma set_lock_ref_id n : set_lock_ref (lock_ref n + 0) n = n.
Proof. rewrite Z.add_0_r. by destruct n. Qed.

Lemma relocked_nil c d : relocked c c [] d.
Proof.
  split; try done. intros j. rewrite decide_False by set_solver.
  destruct (nodes c !! j) as [n|]; simpl; [by rewrite set_lock_ref_id|done].
Qed.

Lemma relocked_one c c' x n d : nodes c !! x = Some n →
  nodes c' = <[x := set_lock_ref (lock_ref n + d) n]> (nodes c) → cfg c' = cfg c →
  allocator c' = allocator c → kv_events c' = kv_events c → counter c' = counter c →
  reads c' = reads c → relocked c c' [x] d.
Proof.
  intros Hx Hns. split; try done. intros j. rewrite Hns.
  destruct (decide (j = x)) as [->|Hne].
  - rewrite lookup_insert_eq, Hx. simpl. by rewrite decide_True by set_solver.
  - rewrite lookup_insert_ne, decide_False by set_solver.
    destruct (nodes c !! j); simpl; by rewrite ?set_lock_ref_id.
Qed.

Lemma relocked_app c1 c2 c3 l1 l2 d : relocked c1 c2 l1 d → relocked c2 c3 l2 d →
  (∀ j, j ∈ l1 → j ∉ l2) → relocked c1 c3 (l1 ++ l2) d.
Proof.
  intros [] [] Hdis. split; try congruence. intros j. rewrite rl_nodes1, rl_nodes0.
  destruct (nodes c1 !! j) as [n|]; simpl; [|done]. f_equal.
  specialize (Hdis j). destruct n; unfold set_lock_ref; simpl. f_equal.
  destruct (decide (j ∈ l1)), (decide (j ∈ l2)), (decide (j ∈ l1 ++ l2)); set_solver by lia.
Qed.

Lemma relocked_shape c c' ws d : relocked c c' ws d → same_shape (nodes c') (nodes c).
Proof.
  intros [Hn _ _ _ _ _]. unfold same_shape. apply map_eq. intros j. rewrite !lookup_fmap, Hn.
  by destruct (nodes c !! j).
Qed.

Lemma walk_shape fuel ns ns' root x : same_shape ns ns' → walk fuel ns root x = walk fuel ns' root x.
Proof.
  intros Hs. revert x. induction fuel as [|fuel IH]; intros x; [done|]. simpl.
  case_decide; [done|]. f_equal. destruct (ns !! x) as [n|] eqn:Hx.
  - destruct (same_shape_lookup _ _ _ _ Hs Hx) as (n'&->&[= _ -> _ _]). destruct (parent n); [apply IH|done].
  - destruct (ns' !! x) as [n'|] eqn:Hx'; [|done]. symmetry in Hs.
    destruct (same_shape_lookup _ _ _ _ Hs Hx') as (?&?&_). congruence.
Qed.

Lemma walk_depth ps eagle fuel ns root φ x j : wf_tree ps eagle ns root φ → 0 < ps →
  is_Some (ns !! x) → j ∈ walk fuel ns root x → depth ns φ j ≤ depth ns φ x ∧ is_Some (ns !! j) ∧ j ≠ root.
Proof.
  intros Hwf Hps. revert x. induction fuel as [|fuel IH]; intros x [n Hx] Hj; simpl in Hj; [set_solver|].
  case_decide; [set_solver|]. rewrite Hx in Hj. apply elem_of_cons in Hj as [->|Hj]; [eauto|].
  destruct (parent n) as [p|] eqn:Hp; [|set_solver].
  destruct (edge_of _ _ Hwf x n p Hx Hp) as (_&_&pn&[_ Hpn _ _ _]).
  destruct (IH p ltac:(eauto) Hj) as (?&?&?).
  pose proof (depth_parent _ _ Hps ns root φ x n p Hwf Hx Hp). split_and!; [lia|done..].
Qed.

(** What a walk with step [d] does, started at [x]. *)
Record walked c c' (fuel : nat) (x : node_id) (d δ : Z) : Prop := {
  wk_relocked : relocked c c' (walk fuel (nodes c) (root_node c) x) d;
  wk_exact : exact c';
  wk_ev : evictable_size_ c' = (evictable_size_ c + δ)%Z;
  wk_pr : protected_size_ c' = (protected_size_ c - δ)%Z;
  wk_own : ∀ j n n', nodes c !! j = Some n → nodes c' !! j = Some n' → j ≠ root_node c →
    own (nodes c') n' = (own (nodes c) n + (if decide (j = x) then d else 0))%Z;
}.

Lemma walked_root c fuel d : exact c → walked c c fuel (root_node c) d 0.
Proof.
  intros He. split; try done; try lia.
  - destruct fuel; simpl; [apply relocked_nil|]. rewrite decide_True by done. apply relocked_nil.
  - intros j n n' ???. rewrite decide_False by done. assert (n' = n) as -> by congruence. lia.
Qed.

(** A step at [x] followed by the walk from its parent. *)
Lemma walked_cons c c1 c' fuel x n p d φ δ : 0 < page_size c →
  wf_tree (page_size c) (is_eagle c) (nodes c) (root_node c) φ →
  nodes c !! x = Some n → x ≠ root_node c → parent n = Some p →
  relocked c c1 [x] d → evictable_size_ c1 = (evictable_size_ c + freed n (lock_ref n + d))%Z →
  protected_size_ c1 = (protected_size_ c - freed n (lock_ref n + d))%Z →
  walked c1 c' fuel p d δ → walked c c' (S fuel) x d (freed n (lock_ref n + d) + δ).
Proof.
  intros Hps Hwf Hx Hxr Hp Hr Hev Hpr [Hrl He Hev' Hpr' Hown].
  pose proof (rl_cfg _ _ _ _ Hr) as Hcfg. pose proof Hcfg as [= _ _ _ _ _ Hroot].
  pose proof (relocked_shape _ _ _ _ Hr) as Hsh.
  rewrite (walk_shape _ _ _ _ _ Hsh), Hroot in Hrl.
  assert (nodes c1 = <[x := set_lock_ref (lock_ref n + d) n]> (nodes c)) as Hns.
  { apply map_eq. intros j. rewrite (rl_nodes _ _ _ _ Hr j). destruct (decide (j = x)) as [->|Hne].
    - rewrite decide_True, lookup_insert_eq, Hx by set_solver. done.
    - rewrite decide_False, lookup_insert_ne by set_solver.
      destruct (nodes c !! j); simpl; by rewrite ?set_lock_ref_id. }
  destruct (edge_of _ _ Hwf x n p Hx Hp) as (_&_&pn&[_ Hpn _ _ _]).
  destruct (path_len _ _ Hps Hwf x n p Hx Hp) as [Hpl ?].
  assert (p ≠ x) as Hpx by (intros ->; lia).
  assert (nodes c1 !! p = Some pn) as Hpn1 by by rewrite Hns, lookup_insert_ne.
  destruct (relock_own c c1 φ x n (lock_ref n + d) Hps Hwf Hx Hxr Hns p pn pn Hp Hpn Hpn1) as (Ho1&Ho2&Ho3).
  split; try done; try lia.
  - cbn [walk]. rewrite decide_False, Hx, Hp by done.
    change (x :: ?l) with ([x] ++ l). eapply relocked_app; [done|done|].
    intros j ->%list_elem_of_singleton Hj.
    pose proof (walk_depth _ _ _ _ _ _ _ _ Hwf Hps ltac:(eauto) Hj) as (?&_&_).
    pose proof (depth_parent _ _ Hps _ _ _ x n p Hwf Hx Hp). lia.
  - intros j m m' Hj Hj' Hjr.
    assert (∃ m1, nodes c1 !! j = Some m1) as [m1 Hj1].
    { rewrite Hns. destruct (decide (j = x)) as [->|]; [rewrite lookup_insert_eq|rewrite lookup_insert_ne by done]; eauto. }
    rewrite (Hown j m1 m' Hj1 Hj') by by rewrite Hroot.
    destruct (decide (j = x)) as [->|Hjx]; [|destruct (decide (j = p)) as [->|Hjp]].
    + rewrite decide_False by done. rewrite Hns, lookup_insert_eq in Hj1.
      assert (m1 = set_lock_ref (lock_ref n + d) n) as -> by congruence.
      assert (m = n) as -> by congruence. rewrite Ho1. lia.
    + assert (m1 = pn) as -> by congruence. assert (m = pn) as -> by congruence. rewrite Ho2. lia.
    + rewrite (Ho3 j m m1) by done. lia.
Qed.

(** One node of a walk. *)
Lemma lock_node_step c φ x n d : 0 < page_size c →
  wf_tree (page_size c) (is_eagle c) (nodes c) (root_node c) φ → exact c →
  nodes c !! x = Some n → x ≠ root_node c → (0 ≤ lock_ref n + d)%Z →
  let len := freed n (lock_ref n + d) in
  let c1 := upd_node x (λ n, set_lock_ref (lock_ref n + d) n)
              (set_protected_size_ (protected_size_ c - len)
                (set_evictable_size_ (evictable_size_ c + len) c)) in
  ∃ L, update_leaf_status x c1 = Ok (set_evictable_leaves L c1)
    ∧ exact (set_evictable_leaves L c1) ∧ relocked c (set_evictable_leaves L c1) [x] d.
Proof.
  intros Hps Hwf He Hx Hxr Hz len c1.
  assert (nodes c1 = <[x := set_lock_ref (lock_ref n + d) n]> (nodes c)) as Hns 
    by exact (alter_as_insert (λ n, set_lock_ref (lock_ref n + d) n) (nodes c) x n Hx).
  destruct (relock_exact c c1 φ x n (lock_ref n + d)) as (L&HL&HeL); try done.
  exists L. split_and!; [done..|]. by apply relocked_one with n.
Qed.

Lemma inc_lock_node_spec c φ x n δ : 0 < page_size c →
  wf_tree (page_size c) (is_eagle c) (nodes c) (root_node c) φ → exact c →
  nodes c !! x = Some n → x ≠ root_node c →
  ∃ c', inc_lock_node x δ c = Ok (c', (δ + freed n (lock_ref n + 1))%Z) ∧ exact c' ∧ relocked c c' [x] 1
    ∧ evictable_size_ c' = (evictable_size_ c + freed n (lock_ref n + 1))%Z
    ∧ protected_size_ c' = (protected_size_ c - freed n (lock_ref n + 1))%Z.
Proof.
  intros Hps Hwf He Hx Hxr. pose proof (ex_lock _ He x n Hx) as Hge.
  destruct (lock_node_step c φ x n 1) as (L&HL&HeL&Hr); [done..|lia|].
  unfold inc_lock_node. rewrite (get_node_ok c x n Hx). res_step.
  assert (freed n (lock_ref n + 1)
    = if (lock_ref n =? 0)%Z then (- Z.of_nat (klen (key n)))%Z else 0%Z) as Hf.
  { unfold freed. destruct (Z.eqb_spec (lock_ref n + 1) 0); [lia|]. destruct (lock_ref n =? 0)%Z; lia. }
  set (c1 := upd_node x _ _) in HL, HeL, Hr.
  assert (∃ c0 δ0, (if (lock_ref n =? 0)%Z then
      (set_protected_size_ (protected_size_ c + Z.of_nat (klen (key n)))
        (set_evictable_size_ (evictable_size_ c - Z.of_nat (klen (key n))) c), (δ - Z.of_nat (klen (key n)))%Z)
      else (c, δ)) = (c0, δ0) ∧ upd_node x (λ n, set_lock_ref (lock_ref n + 1) n) c0 = c1
      ∧ δ0 = (δ + freed n (lock_ref n + 1))%Z) as (c0&δ0&->&Hc1&->).
  { unfold c1. rewrite Hf. destruct (lock_ref n =? 0)%Z.
    - do 2 eexists. split_and!; [done| |lia]. by rewrite Z.sub_opp_r, Z.add_opp_r.
    - do 2 eexists. split_and!; [done| |lia]. rewrite Z.add_0_r, Z.sub_0_r. by destruct c. }
  rewrite Hc1, HL. res_step. eexists. split_and!; [done..|].
  unfold c1. by destruct c.
Qed.

Lemma dec_lock_node_spec c φ x n δ : 0 < page_size c →
  wf_tree (page_size c) (is_eagle c) (nodes c) (root_node c) φ → exact c →
  nodes c !! x = Some n → x ≠ root_node c → (0 < lock_ref n)%Z →
  ∃ c', dec_lock_node x δ c = Ok (c', (δ + freed n (lock_ref n + -1))%Z) ∧ exact c' ∧ relocked c c' [x] (-1)
    ∧ evictable_size_ c' = (evictable_size_ c + freed n (lock_ref n + -1))%Z
    ∧ protected_size_ c' = (protected_size_ c - freed n (lock_ref n + -1))%Z.
Proof.
  intros Hps Hwf He Hx Hxr Hge.
  destruct (lock_node_step c φ x n (-1)) as (L&HL&HeL&Hr); [done..|lia|].
  unfold dec_lock_node. rewrite (get_node_ok c x n Hx). res_step.
  assert (freed n (lock_ref n + -1)
    = if (lock_ref n =? 1)%Z then (Z.of_nat (klen (key n)))%Z else 0%Z) as Hf.
  { unfold freed. destruct (Z.eqb_spec (lock_ref n + -1) 0), (Z.eqb_spec (lock_ref n) 1),
      (Z.eqb_spec (lock_ref n) 0); lia. }
  set (c1 := upd_node x _ _) in HL, HeL, Hr.
  assert (∃ c0 δ0, (if (lock_ref n =? 1)%Z then
      (set_protected_size_ (protected_size_ c - Z.of_nat (klen (key n)))
        (set_evictable_size_ (evictable_size_ c + Z.of_nat (klen (key n))) c), (δ + Z.of_nat (klen (key n)))%Z)
      else (c, δ)) = (c0, δ0) ∧ upd_node x (λ n, set_lock_ref (lock_ref n - 1) n) c0 = c1
      ∧ δ0 = (δ + freed n (lock_ref n + -1))%Z) as (c0&δ0&->&Hc1&->).
  { unfold c1. rewrite Hf. destruct (lock_ref n =? 1)%Z.
    - do 2 eexists. split_and!; done.
    - do 2 eexists. split_and!; [done| |lia]. rewrite Z.add_0_r, Z.sub_0_r. by destruct c. }
  rewrite Hc1, HL. res_step. eexists. split_and!; [done..|].
  unfold c1. by destruct c.
Qed.

(** After the step at [x], the walk goes on at the parent of [x]. *)
Lemma relocked_next c c1 φ x n d : 0 < page_size c →
  wf_tree (page_size c) (is_eagle c) (nodes c) (root_node c) φ → relocked c c1 [x] d →
  nodes c !! x = Some n → x ≠ root_node c →
  ∃ p n1 pn1, parent n = Some p ∧ nodes c1 !! x = Some n1 ∧ parent n1 = Some p
    ∧ nodes c1 !! p = Some pn1 ∧ depth (nodes c1) φ p < depth (nodes c) φ x
    ∧ 0 < page_size c1 ∧ root_node c1 = root_node c
    ∧ wf_tree (page_size c1) (is_eagle c1) (nodes c1) (root_node c1) φ.
Proof.
  intros Hps Hwf Hr Hx Hxr. destruct (wt_node _ _ _ _ _ Hwf x n Hx Hxr) as (_&p&pn&[Hp Hpn _ _ _]).
  pose proof (rl_cfg _ _ _ _ Hr) as [= _ Hcp Hce _ _ Hroot].
  pose proof (relocked_shape _ _ _ _ Hr) as Hsh.
  assert (wf_tree (page_size c1) (is_eagle c1) (nodes c1) (root_node c1) φ) as Hwf1
    by by rewrite Hcp, Hce, Hroot, Hsh.
  exists p. do 2 eexists. rewrite !(rl_nodes _ _ _ _ Hr), Hx, Hpn.
  split_and!; try done; [|by rewrite Hcp]. pose proof (depth_parent _ _ Hps _ _ _ x n p Hwf Hx Hp) as Hd.
  unfold depth in *. replace (dom (nodes c1)) with (dom (nodes c)); [done|].
  apply set_eq. intros j. rewrite !elem_of_dom, (rl_nodes _ _ _ _ Hr j). by rewrite fmap_is_Some.
Qed.

Lemma inc_lock_loop_spec fuel x δ c φ : 0 < page_size c →
  wf_tree (page_size c) (is_eagle c) (nodes c) (root_node c) φ → exact c →
  is_Some (nodes c !! x) → depth (nodes c) φ x < fuel →
  ∃ c' δ', inc_lock_loop fuel (Some x) δ c = Ok (c', (δ + δ')%Z) ∧ walked c c' fuel x 1 δ'.
Proof.
  revert x δ c. induction fuel as [|fuel IH]; intros x δ c Hps Hwf He [n Hx] Hd; [lia|].
  cbn [inc_lock_loop]. case_decide as Hxr.
  { subst x. exists c, 0%Z. rewrite Z.add_0_r. split; [done|]. by apply walked_root. }
  destruct (inc_lock_node_spec c φ x n δ) as (c1&H1&He1&Hr&Hev&Hpr); [done..|].
  rewrite H1. res_step.
  destruct (relocked_next c c1 φ x n 1) as (p&n1&pn1&Hp&Hx1&Hp1&Hpn1&Hlt&Hps1&Hroot&Hwf1); [done..|].
  rewrite (get_node_ok c1 x n1 Hx1). res_step. rewrite Hp1.
  destruct (IH p (δ + freed n (lock_ref n + 1))%Z c1) as (c'&δ'&Hl&Hw); [done..|by eauto|lia|].
  exists c', (freed n (lock_ref n + 1) + δ')%Z. rewrite Hl. split; [do 2 f_equal; lia|].
  by eapply walked_cons.
Qed.

Lemma own_le_lock c x n : exact c → nodes c !! x = Some n → (own (nodes c) n ≤ lock_ref n)%Z.
Proof.
  intros He Hx. unfold own. assert (0 ≤ child_locks (nodes c) n)%Z; [|lia].
  apply msum_nonneg. intros ck ch _. unfold lock_at. destruct (nodes c !! ch) eqn:E; [|done].
  by eapply ex_lock.
Qed.

Lemma dec_lock_loop_spec fuel x δ c φ : 0 < page_size c →
  wf_tree (page_size c) (is_eagle c) (nodes c) (root_node c) φ → exact c →
  (∀ j n, nodes c !! j = Some n → j ≠ root_node c →
     (if decide (j = x) then 1 else 0) ≤ own (nodes c) n)%Z →
  is_Some (nodes c !! x) → depth (nodes c) φ x < fuel →
  ∃ c' δ', dec_lock_loop fuel (Some x) δ c = Ok (c', (δ + δ')%Z) ∧ walked c c' fuel x (-1) δ'.
Proof.
  revert x δ c. induction fuel as [|fuel IH]; intros x δ c Hps Hwf He Hown [n Hx] Hd; [lia|].
  cbn [dec_lock_loop]. case_decide as Hxr.
  { subst x. exists c, 0%Z. rewrite Z.add_0_r. split; [done|]. by apply walked_root. }
  destruct (dec_lock_node_spec c φ x n δ) as (c1&H1&He1&Hr&Hev&Hpr); [done..| |].
  { pose proof (own_le_lock c x n He Hx). pose proof (Hown x n Hx Hxr) as Ho. rewrite decide_True in Ho by done. lia. }
  rewrite H1. res_step.
  destruct (relocked_next c c1 φ x n (-1)) as (p&n1&pn1&Hp&Hx1&Hp1&Hpn1&Hlt&Hps1&Hroot&Hwf1); [done..|].
  rewrite (get_node_ok c1 x n1 Hx1). res_step. rewrite Hp1, bool_decide_false by done. cbn [negb assert_ res_bind].
  destruct (IH p (δ + freed n (lock_ref n + -1))%Z c1) as (c'&δ'&Hl&Hw); [done..| |by eauto|lia|].
  - intros j m1 Hj Hjr. rewrite Hroot in Hjr.
    assert (nodes c1 = <[x := set_lock_ref (lock_ref n + -1) n]> (nodes c)) as Hns.
    { apply map_eq. intros i. rewrite (rl_nodes _ _ _ _ Hr i). destruct (decide (i = x)) as [->|Hne].
      - rewrite decide_True, lookup_insert_eq, Hx by set_solver. done.
      - rewrite decide_False, lookup_insert_ne by set_solver.
        destruct (nodes c !! i); simpl; by rewrite ?set_lock_ref_id. }
    destruct (edge_of _ _ Hwf x n p Hx Hp) as (_&_&pn&[_ Hpn _ _ _]).
    destruct (path_len _ _ Hps Hwf x n p Hx Hp) as [Hpl ?].
    assert (p ≠ x) as Hpx by (intros ->; lia).
    destruct (relock_own c c1 φ x n (lock_ref n + -1) Hps Hwf Hx Hxr Hns p pn pn1 Hp Hpn Hpn1) as (Ho1&Ho2&Ho3).
    destruct (decide (j = p)) as [->|Hjp]; [|destruct (decide (j = x)) as [->|Hjx]].
    + assert (m1 = pn1) as -> by congruence. pose proof (Hown p pn Hpn Hjr) as Ho. rewrite decide_False in Ho by done. lia.
    + rewrite Hns, lookup_insert_eq in Hj. assert (m1 = set_lock_ref (lock_ref n + -1) n) as -> by congruence.
      pose proof (Hown x n Hx Hxr) as Ho. rewrite decide_True in Ho by done. lia.
    + assert (is_Some (nodes c !! j)) as [m Hm] by (rewrite Hns, lookup_insert_ne in Hj by done; eauto).
      rewrite (Ho3 j m m1) by done. pose proof (Hown j m Hm Hjr) as Ho. rewrite decide_False in Ho by done. done.
  - exists c', (freed n (lock_ref n + -1) + δ')%Z. rewrite Hl. split; [do 2 f_equal; lia|].
    by eapply walked_cons.
Qed.

(** ** The two operations *)

Lemma walked_quiet c φ c' fuel x d δ : inv c φ → walked c c' fuel x d δ →
  (∀ n, nodes c !! x = Some n → x ≠ root_node c → 0 ≤ own (nodes c) n + d)%Z →
  inv c' φ ∧ (hash_inv c → hash_inv c')
  ∧ (∀ N Q vs, page_at (page_size c') (nodes c') φ N Q vs ↔ page_at (page_size c) (nodes c) φ N Q vs).
Proof.
  intros [Hps Hwf Hac] [Hr He _ _ Hown] Hx. pose proof (rl_cfg _ _ _ _ Hr) as [= _ Hcp Hce _ _ Hroot].
  pose proof (relocked_shape _ _ _ _ Hr) as Hsh. split_and!.
  - split; [by rewrite Hcp|by rewrite Hcp, Hce, Hroot, Hsh|]. apply exact_acct; [done|].
    intros i n' Hi Hir. rewrite Hroot in Hir. pose proof Hi as Hi'. rewrite (rl_nodes _ _ _ _ Hr) in Hi'.
    destruct (nodes c !! i) as [n|] eqn:E; [|done]. rewrite (Hown i n n') by done.
    pose proof (ac_own _ Hac i n E Hir). destruct (decide (i = x)) as [->|]; [by apply Hx|lia].
  - intros [? Hw]. split; [by rewrite (rl_kv _ _ _ _ Hr), Hcp|]. rewrite Hcp, Hroot.
    eapply hash_wf_view; [|exact Hw]. apply map_eq. intros j. rewrite !lookup_fmap, (rl_nodes _ _ _ _ Hr).
    by destruct (nodes c !! j).
  - intros. rewrite Hcp. by apply page_at_shape.
Qed.

Lemma inc_lock_ref_walked c φ x : inv c φ → disable c = false → is_Some (nodes c !! x) →
  ∃ c' δ, inc_lock_ref x c = Ok (c', δ) ∧ walked c c' (S (size (nodes c))) x 1 δ.
Proof.
  intros [Hps Hwf Hac] Hdis [n Hx]. unfold inc_lock_ref. rewrite Hdis.
  destruct (inc_lock_loop_spec (S (size (nodes c))) x 0 c φ) as (c'&δ&Hl&Hw); try done.
  - by apply acct_exact.
  - pose proof (depth_lt_size _ Hps (nodes c) φ x n Hx). lia.
  - by exists c', δ.
Qed.

Lemma dec_lock_ref_walked c φ x n : inv c φ → disable c = false → nodes c !! x = Some n →
  (x ≠ root_node c → 0 < own (nodes c) n)%Z →
  ∃ c' δ, dec_lock_ref x c = Ok (c', δ) ∧ walked c c' (S (size (nodes c))) x (-1) δ.
Proof.
  intros [Hps Hwf Hac] Hdis Hx Hown. unfold dec_lock_ref. rewrite Hdis.
  destruct (dec_lock_loop_spec (S (size (nodes c))) x 0 c φ) as (c'&δ&Hl&Hw); try done.
  - by apply acct_exact.
  - intros j m Hj Hjr. pose proof (ac_own _ Hac j m Hj Hjr). case_decide as Hjx; [|lia].
    subst j. assert (m = n) as -> by congruence. specialize (Hown Hjr). lia.
  - pose proof (depth_lt_size _ Hps (nodes c) φ x n Hx). lia.
  - by exists c', δ.
Qed.
End Lock.
