(* ===== verification/RadixEvict.v ===== *)
(** * Eviction

    Correctness of [evict]: it removes unlocked leaves one by one, handing their
    KV slots to the allocator, until enough tokens are freed or nothing is
    evictable; locked nodes and their contents are never touched. *)

From stdpp Require Import base tactics numbers list gmap strings.
From Stdlib Require Import ZArith Lia ZifyNat.
From S2P Require Import Prelude RadixKey TreeNode KvEvents EventQueue RadixCache RadixInv RadixPages RadixAcct.
From S2P Require Import RadixEvents RadixMatch RadixSpec RadixInsert RadixLock.

Section Evict.
Context {A : Type} `{!KvAllocator A}.
Context (native_hash : RadixKey → option string → nat → list string).
Context (salt_digest : string → string).
Context (Hnative : ∀ k prior ps, 0 < ps → klen k mod ps = 0 →
  length (native_hash k prior ps) = klen k / ps ∧ Forall good_hash (native_hash k prior ps)).
Implicit Types c : RadixCache A.

Abbreviation pages c φ := (page_at (page_size c) (nodes c) φ).

(** The store after leaf [x] is unlinked from [p] and dropped, up to hashes. *)
Definition unlinked c c' (x p : node_id) (pn' : TreeNode) : Prop :=
  same_core (delete x (<[p := pn']> (nodes c))) (nodes c').

Lemma unlinked_back c c' x p pn' j n' : unlinked c c' x p pn' → nodes c' !! j = Some n' →
  j ≠ x ∧ ∃ n, (if decide (j = p) then n = pn' else nodes c !! j = Some n) ∧ view n = view n'.
Proof.
  intros Hu Hj. unfold unlinked in Hu. symmetry in Hu. destruct (same_core_lookup _ _ _ _ Hu Hj) as (n&Hn&Hv).
  apply lookup_delete_Some in Hn as [Hne Hn]. split; [done|]. exists n. split; [|done].
  apply lookup_insert_Some in Hn as [[-> ->]|[? ?]]; [by rewrite decide_True|by rewrite decide_False].
Qed.

Lemma unlinked_acct c φ c' x xn p pn pn' ck : inv c φ → nodes c !! x = Some xn → x ≠ root_node c →
  lock_ref xn = 0%Z → children xn = ∅ → parent xn = Some p → nodes c !! p = Some pn →
  child_key (key xn) (page_size c) = Ok ck → children pn !! ck = Some x →
  view pn' = (delete ck (children pn), parent pn, key pn, value pn, lock_ref pn) →
  unlinked c c' x p pn' → cfg c' = cfg c → counter c' = counter c →
  evictable_size_ c' = (evictable_size_ c - Z.of_nat (klen (key xn)))%Z →
  protected_size_ c' = protected_size_ c → leaves_except c' ∅ →
  acct c' ∧ (∀ j n n', nodes c !! j = Some n → nodes c' !! j = Some n' → own (nodes c') n' = own (nodes c) n).
Proof.
  intros Hinv Hx Hxr Hlk Hleaf Hp Hpn Hck Hch Hvp Hu Hcfg Hcnt Hev Hpr Hlv.
  pose proof Hinv as [Hps Hwf [A1 A2 A3 A4 A5 A6 A7]]. pose proof Hcfg as [= _ _ _ _ _ Hroot].
  pose proof Hvp as [= P1 P2 P3 P4 P5].
  destruct (path_len _ _ Hps Hwf x xn p Hx Hp) as [Hpl ?].
  assert (p ≠ x) as Hpx by (intros ->; lia).
  assert (∀ j n', nodes c' !! j = Some n' → j ≠ x ∧ ∃ n0, nodes c !! j = Some n0
    ∧ lock_ref n' = lock_ref n0 ∧ key n' = key n0 ∧ value n' = value n0
    ∧ (j ≠ p → children n' = children n0) ∧ (j = p → children n' = delete ck (children n0))) as Hb.
  { intros j n' Hj. destruct (unlinked_back _ _ _ _ _ _ _ Hu Hj) as (Hjx&n&Hn&[= V1 V2 V3 V4 V5]).
    split; [done|]. case_decide as Hjp.
    - subst j n. exists pn. split_and!; congruence.
    - exists n. split_and!; congruence. }
  assert (∀ j, lock_at (nodes c') j = lock_at (nodes c) j) as Hla.
  { intros j. rewrite <-(same_core_lock_at _ _ j Hu). unfold lock_at. destruct (decide (j = x)) as [->|Hjx].
    - by rewrite lookup_delete_eq, Hx.
    - rewrite lookup_delete_ne by done. destruct (decide (j = p)) as [->|Hjp].
      + by rewrite lookup_insert_eq, Hpn.
      + by rewrite lookup_insert_ne. }
  assert (∀ j n n', nodes c !! j = Some n → nodes c' !! j = Some n' → own (nodes c') n' = own (nodes c) n) as Hown.
  { intros j n n' Hj Hj'. destruct (Hb j n' Hj') as (Hjx&n0&Hj0&Hl&_&_&Hc1&Hc2).
    assert (n0 = n) as -> by congruence. destruct (decide (j = p)) as [->|Hjp].
    - assert (n = pn) as -> by congruence. unfold own, child_locks. rewrite Hl, (Hc2 eq_refl).
      rewrite (msum_delete _ _ ck x) by done. rewrite Hla, (lock_at_some _ x xn Hx), Hlk.
      rewrite (msum_ext (λ _ ch, lock_at (nodes c') ch) (λ _ ch, lock_at (nodes c) ch) (children pn) (children pn));
        [lia|done|]. intros. rewrite Hla. congruence.
    - apply own_ext; [by apply Hc1|done|]. intros. apply Hla. }
  assert (∀ f : node_id → TreeNode → Z, (∀ j n n', lock_ref n' = lock_ref n → key n' = key n → f j n' = f j n) →
    msum f (nodes c') = (msum f (nodes c) - f x xn)%Z) as Hsum.
  { intros f Hf. trans (msum f (delete x (<[p := pn']> (nodes c)))).
    - apply msum_ext; [symmetry; by apply same_core_dom|]. intros j n' n Hj Hj'.
      assert (view n' = view n) as [= ? ? ? ? ?].
      { destruct (same_core_lookup _ _ _ _ Hu Hj') as (?&?&?). congruence. }
      by apply Hf.
    - rewrite (msum_delete f _ x xn) by by rewrite lookup_insert_ne.
      rewrite (msum_update f _ p pn) by done. rewrite (Hf p pn pn') by done. lia. }
  split; [|done]. split; rewrite ?Hroot, ?Hcnt.
  - intros rn Hr. destruct (Hb _ _ Hr) as (_&n0&?&->&_). eauto.
  - intros j n Hj. destruct (Hb _ _ Hj) as (_&n0&?&->&_). eauto.
  - intros j n Hj Hjr. destruct (Hb _ _ Hj) as (_&n0&Hj0&_). rewrite (Hown j n0 n) by done. eauto.
  - rewrite Hev, A4, Hsum by (intros ??? H1 H2; unfold ev_len; by rewrite H1, H2).
    unfold ev_len. rewrite (decide_False (P := x = _)), Hlk by done. simpl. lia.
  - rewrite Hpr, A5, Hsum by (intros ??? H1 H2; unfold pr_len; by rewrite H1, H2).
    unfold pr_len. rewrite (decide_False (P := x = _)), Hlk by done. simpl. lia.
  - intros j. rewrite <-Hroot. apply Hlv. set_solver.
  - intros j [n Hj]. destruct (Hb _ _ Hj) as (_&n0&?&_). eauto.
Qed.

Lemma hash_wf_delete ps ns root x : hash_wf ps ns root → hash_wf ps (delete x ns) root.
Proof.
  intros [H1 H2 H3 H4]. split.
  - intros rn [_ ?]%lookup_delete_Some. eauto.
  - intros i n h [_ ?]%lookup_delete_Some. eauto.
  - intros i n h [_ ?]%lookup_delete_Some. eauto.
  - intros i n p pn [_ ?]%lookup_delete_Some ? [_ ?]%lookup_delete_Some. eauto.
Qed.

Lemma same_core_delete ns ns' x : same_core ns ns' → same_core (delete x ns) (delete x ns').
Proof. unfold same_core. intros Hs. by rewrite !fmap_delete, Hs. Qed.

(** What is left of the other nodes, the slots and the number of nodes. *)
Section UnlinkedNodes.
Context (c c' : RadixCache A) (x p : node_id) (xn pn pn' : TreeNode) (ck : ckey).
Context (Hu : unlinked c c' x p pn') (Hx : nodes c !! x = Some xn) (Hpn : nodes c !! p = Some pn)
  (Hpx : p ≠ x) (Hpn' : pn' = set_children (delete ck (children pn)) pn).

Lemma unlinked_slots v : value xn = Some v → slots (nodes c) ≡ₚ v ++ slots (nodes c').
Proof.
  intros Hv. rewrite (slots_delete (nodes c) x xn v Hx Hv). apply Permutation_app; [done|].
  rewrite <-(same_shape_slots _ _ (same_core_shape _ _ Hu)), delete_insert_ne by done.
  erewrite slots_update; [done|by rewrite lookup_delete_ne|by rewrite Hpn'].
Qed.

Lemma unlinked_size : size (nodes c) = S (size (nodes c')).
Proof.
  rewrite <-(map_size_fmap view (nodes c')), <-Hu, map_size_fmap.
  rewrite delete_insert_ne by done. rewrite map_size_insert_Some by (rewrite lookup_delete_ne; eauto).
  rewrite map_size_delete_Some by eauto. pose proof (map_size_ne_0_lookup_2 (nodes c) x ltac:(eauto)). lia.
Qed.

Lemma unlinked_nodes j n : nodes c !! j = Some n → j ≠ x → ∃ n', nodes c' !! j = Some n'
  ∧ lock_ref n' = lock_ref n ∧ key n' = key n ∧ value n' = value n ∧ parent n' = parent n.
Proof.
  intros Hj Hjx.
  assert (∃ n0, delete x (<[p := pn']> (nodes c)) !! j = Some n0 ∧ lock_ref n0 = lock_ref n
    ∧ key n0 = key n ∧ value n0 = value n ∧ parent n0 = parent n) as (n0&Hn0&Hl0&Hk0&Hv0&Hpa0).
  { rewrite lookup_delete_ne by done. destruct (decide (j = p)) as [->|];
      [rewrite lookup_insert_eq|rewrite lookup_insert_ne by done; by exists n].
    assert (n = pn) as -> by congruence. exists pn'. by rewrite Hpn'. }
  destruct (same_core_lookup _ _ _ _ Hu Hn0) as (n'&Hn'&[= ? ? ? ? ?]). exists n'. split_and!; congruence.
Qed.
End UnlinkedNodes.

(** Deleting a node from an equivalent store leaves the other leaves as they are. *)
Lemma leaf_delete (ns ns' : gmap node_id TreeNode) root x j : same_core ns ns' →
  is_evictable_leaf (delete x ns') root j ↔ j ≠ x ∧ is_evictable_leaf ns root j.
Proof.
  intros Hs. unfold is_evictable_leaf. split.
  - intros (m&Hm&?&?&?). apply lookup_delete_Some in Hm as [Hjx Hm]. split; [done|].
    symmetry in Hs. destruct (same_core_lookup _ _ _ _ Hs Hm) as (m0&?&[= ? ? ? ? ?]).
    exists m0. split_and!; congruence.
  - intros (Hjx&m&Hm&?&?&?). destruct (same_core_lookup _ _ _ _ Hs Hm) as (m0&?&[= ? ? ? ? ?]).
    exists m0. rewrite lookup_delete_ne by done. split_and!; congruence.
Qed.

(** Replacing one node by another with a value and fewer children. *)
Lemma all_valued_replace c c2 p pn pn' : all_valued c → nodes c !! p = Some pn →
  nodes c2 = <[p := pn']> (nodes c) → value pn' = value pn →
  (∀ k ch, children pn' !! k = Some ch → children pn !! k = Some ch) → all_valued c2.
Proof.
  intros Hall0 Hpn Hn2 Hv Hc.
  assert (∀ j, is_Some (nodes c !! j) → is_Some (nodes c2 !! j)) as Hs.
  { intros j [m Hj]. rewrite Hn2. destruct (decide (j = p)) as [->|];
      [rewrite lookup_insert_eq|rewrite lookup_insert_ne by done]; eauto. }
  intros j m Hj. rewrite Hn2 in Hj. apply lookup_insert_Some in Hj as [[<- <-]|[_ Hj]].
  - split; [rewrite Hv; by eapply (Hall0 p pn)|]. intros ck' ch Hck%Hc. apply Hs. by eapply (Hall0 p pn).
  - split; [by eapply Hall0|]. intros. apply Hs. by eapply (Hall0 j m).
Qed.

(** What one round of [evict] establishes. *)
Record evicted_leaf c c' φ (x p : node_id) (v : list Z) (push : option node_id) : Prop := {
  el_inv : inv c' φ;
  el_hash : hash_inv c';
  el_cfg : cfg c' = cfg c;
  el_alloc : allocator c' = free_segment (allocator c) v 0;
  el_ev : evictable_size_ c' = (evictable_size_ c - Z.of_nat (length v))%Z;
  el_pr : protected_size_ c' = protected_size_ c;
  el_slots : slots (nodes c) ≡ₚ v ++ slots (nodes c');
  el_size : size (nodes c) = S (size (nodes c'));
  el_keep : ∀ j n, nodes c !! j = Some n → j ≠ x → ∃ n', nodes c' !! j = Some n'
    ∧ lock_ref n' = lock_ref n ∧ key n' = key n ∧ value n' = value n ∧ parent n' = parent n
    ∧ own (nodes c') n' = own (nodes c) n;
  el_leaves : ∀ j, j ∈ evictable_leaves c' ↔ (j ∈ evictable_leaves c ∧ j ≠ x) ∨ push = Some j;
  el_push : ∀ j, push = Some j → j ∉ evictable_leaves c;
  el_pages : ∀ N Q vs, pages c' φ N Q vs → pages c φ N Q vs;
  el_value : ∃ xn, nodes c !! x = Some xn ∧ value xn = Some v;
  el_back : ∀ j n', nodes c' !! j = Some n' → ∃ n, nodes c !! j = Some n ∧ value n = value n';
}.

(** [_delete_leaf]: the leaf is unlinked from its parent, which may become evictable. *)
Record leaf_deleted c c2 (x p : node_id) (pn : TreeNode) (ck : ckey) (len : nat) (L : gset node_id) : Prop := {
  ld_state : c2 = set_evictable_leaves L (set_evictable_size_ (evictable_size_ c - Z.of_nat len)
               (set_nodes (<[p := set_children (delete ck (children pn)) pn]> (nodes c)) c));
  ld_parent : p ∈ L ↔ delete ck (children pn) = ∅ ∧ (lock_ref pn = 0)%Z;
  ld_others : ∀ j, j ≠ p → j ∈ L ↔ j ∈ evictable_leaves c ∧ j ≠ x;
}.

Lemma delete_leaf_spec c φ x xn p pn ck : inv c φ → nodes c !! x = Some xn → parent xn = Some p →
  nodes c !! p = Some pn → child_key (key xn) (page_size c) = Ok ck → children pn !! ck = Some x →
  ∃ c2 L, delete_leaf x c = Ok c2 ∧ leaf_deleted c c2 x p pn ck (klen (key xn)) L.
Proof.
  intros Hinv Hx Hp Hpn Hck Hch. unfold delete_leaf.
  rewrite (get_node_ok c x xn Hx). res_step. rewrite Hck. res_step. rewrite Hp. res_step.
  rewrite (get_node_ok c p pn Hpn). res_step. rewrite bool_decide_true by done. cbn [assert_ res_bind].
  set (pn' := set_children (delete ck (children pn)) pn).
  set (c2 := set_evictable_leaves _ _).
  assert (nodes c2 = <[p := pn']> (nodes c)) as Hn2
    by exact (alter_as_insert (λ n, set_children (delete ck (children n)) n) (nodes c) p pn Hpn).
  assert (nodes c2 !! p = Some pn') as Hp2 by by rewrite Hn2, lookup_insert_eq.
  assert (all_valued c2) as Hall.
  { eapply all_valued_replace; [by eapply inv_all_valued|exact Hpn|exact Hn2|done|].
    simpl. by intros ck' ch [_ Hc]%lookup_delete_Some. }
  destruct (update_leaf_status_ok c2 p pn') as (L&HL&Hin); try done.
  { by eapply Hall. }
  { intros ck' ch Hc. destruct (Hall p pn' Hp2) as [_ H]. destruct (H _ _ Hc) as [cn Hcn].
    exists cn. split; [done|]. by eapply Hall. }
  rewrite HL. eexists _, L. split; [done|]. pose proof (ac_lock _ (in_acct _ _ Hinv) p pn Hpn) as Hge. split.
  - unfold c2, upd_node. cbn [set_evictable_leaves set_evictable_size_ set_nodes nodes]. by rewrite (alter_as_insert _ _ p pn Hpn).
  - rewrite Hin, decide_True by done. simpl. intuition lia.
  - intros j Hj. rewrite Hin, decide_False by done. simpl. set_solver.
Qed.

Lemma leaf_parent c φ x p pn ck : inv c φ → nodes c !! p = Some pn → children pn !! ck = Some x →
  p ∉ evictable_leaves c.
Proof.
  intros [_ _ Hac] Hpn Hch (m&?&_&_&Hem)%(ac_leaves _ Hac). assert (m = pn) as -> by congruence.
  by rewrite Hem, lookup_empty in Hch.
Qed.

(** After the deletion the evictable set is that of the store without the leaf. *)
Lemma deleted_leaves c φ c2 c' ns' x p pn ck len L : inv c φ → nodes c !! p = Some pn → p ≠ x →
  leaf_deleted c c2 x p pn ck len L → same_core (nodes c2) ns' →
  nodes c' = delete x ns' → evictable_leaves c' = L → root_node c' = root_node c → leaves_except c' ∅.
Proof.
  intros Hinv Hpn Hpx [-> Hp Ho] Hs Hn HL Hr j _. pose proof Hinv as [_ _ Hac].
  rewrite HL, Hr, Hn, (leaf_delete _ _ _ _ _ Hs). destruct (decide (j = p)) as [->|Hjp].
  - rewrite Hp. unfold is_evictable_leaf. simpl. rewrite lookup_insert_eq. split.
    + intros [? Hz]. split; [done|]. eexists. split_and!; [done| |done..].
      intros ->. pose proof (ac_root_lock _ Hac pn Hpn). lia.
    + by intros (_&?&[= <-]&_&?&?).
  - rewrite Ho, (ac_leaves _ Hac) by done. unfold is_evictable_leaf. simpl. rewrite lookup_insert_ne by done.
    naive_solver.
Qed.

Lemma evict_node_spec c φ x : inv c φ → hash_inv c → x ∈ evictable_leaves c →
  ∃ c' xn p v push, evict_node native_hash salt_digest x c = Ok (c', length v, push)
    ∧ nodes c !! x = Some xn ∧ value xn = Some v ∧ evicted_leaf c c' φ x p v push.
Proof.
  intros Hinv Hhash Hx. pose proof Hinv as [Hps Hwf Hac]. pose proof Hhash as [[Hrp Hrw] Hhw].
  apply (ac_leaves _ Hac) in Hx as (xn&Hx&Hxr&Hlk&Hleaf).
  destruct (wt_node _ _ _ _ _ Hwf x xn Hx Hxr) as [[Hk (v&Hv&Hlen)] (p&pn&[Hp Hpn (ck&Hck&Hch) Hφ Hns])].
  destruct (path_len _ _ Hps Hwf x xn p Hx Hp) as [Hpl Hkp].
  assert (p ≠ x) as Hpx by (intros ->; lia).
  unfold evict_node. rewrite (get_node_ok c x xn Hx). res_step. rewrite Hv. res_step.
  set (c1 := set_allocator _ c). pose proof (inv_set_allocator c φ (free_segment (allocator c) v 0) Hinv) as Hinv1.
  destruct (delete_leaf_spec c1 φ x xn p pn ck) as (c2&L&Hd&Hld); [done..|].
  pose proof Hld as [Hc2 HLp HLo]. rewrite Hd. res_step. rewrite Hp. res_step.
  set (pn' := set_children (delete ck (children pn)) pn) in *.
  assert (nodes c2 = <[p := pn']> (nodes c)) as Hn2 by by rewrite Hc2.
  rewrite (get_node_ok c2 p pn') by by rewrite Hn2, lookup_insert_eq. res_step.
  set (push := if bool_decide (children pn' = ∅) && (lock_ref pn' =? 0)%Z then Some p else None).
  assert (kv_events c2 = kv_events c) as Hkv by by rewrite Hc2.
  destruct (record_remove_ok native_hash salt_digest Hnative (page_size c) Hps (nodes c2) (root_node c)
    (depth (nodes c) φ) x xn (kv_events c)) as (ns'&r'&Hrs&Hs&Hw&Hen&Hrp'&Hoff&Hon); try done.
  { eapply (chain_link _ (nodes c)); [|eapply chain_of_wf; [done..|apply Hhw]].
    rewrite Hn2, fmap_insert. symmetry. apply insert_id. by rewrite lookup_fmap, Hpn. }
  { eapply (hash_wf_view _ (nodes c)); [|done].
    rewrite Hn2, fmap_insert. symmetry. apply insert_id. by rewrite lookup_fmap, Hpn. }
  { by rewrite Hn2, lookup_insert_ne. }
  rewrite Hkv, Hrs. res_step. set (c' := set_kv_events _ _).
  assert (unlinked c c' x p pn') as Hu.
  { unfold unlinked. simpl. rewrite <-Hn2. by apply same_core_delete. }
  assert (cfg c' = cfg c) as Hcfg by by unfold c'; rewrite Hc2.
  assert (page_size c' = page_size c ∧ is_eagle c' = is_eagle c ∧ root_node c' = root_node c) as (Cp&Ce&Cr)
    by (unfold c'; by rewrite Hc2).
  assert (leaves_except c' ∅) as Hlv.
  { eapply (deleted_leaves c1 φ c2 c'); try done; unfold c'; by rewrite Hc2. }
  destruct (unlinked_acct c φ c' x xn p pn pn' ck) as [Hac' Hown]; try done; try (unfold c'; by rewrite Hc2).
  exists c', xn, p, v, push. split_and!; try done.
  split; try done; try (unfold c'; by rewrite Hc2).
  - split; [by rewrite Cp| |done]. rewrite Cp, Ce, Cr.
    eapply (wf_tree_shape _ _ _ _ _ _ (same_core_shape _ _ Hu)). by eapply (wf_tree_remove_leaf _ _ Hps).
  - split; [|rewrite Cp, Cr; by apply hash_wf_delete]. split; [by rewrite Cp|].
    simpl. destruct (enabled (kv_events c)) eqn:E; [by apply Hon|by rewrite Hoff].
  - unfold c'. rewrite Hc2. simpl. by rewrite Hlen.
  - by eapply unlinked_slots.
  - by eapply unlinked_size.
  - intros j n Hj Hjx. destruct (unlinked_nodes c c' x p pn pn' ck Hu Hpn eq_refl j n Hj Hjx)
      as (n'&Hn'&?&?&?&?). exists n'. split_and!; try done. by eapply Hown.
  - intros j. assert (evictable_leaves c' = L) as -> by (unfold c'; by rewrite Hc2).
    assert (p ∉ evictable_leaves c) as Hpl' by by eapply leaf_parent.
    unfold push. destruct (decide (j = p)) as [->|Hjp].
    + rewrite HLp. simpl. destruct (bool_decide_reflect (delete ck (children pn) = ∅)); simpl;
        [destruct (Z.eqb_spec (lock_ref pn) 0)|]; naive_solver.
    + rewrite HLo by done. destruct (_ && _); naive_solver.
  - intros j. unfold push. destruct (_ && _); [|done]. intros [= <-]. by eapply leaf_parent.
  - intros N Q vs Hpg. rewrite Cp in Hpg. apply (page_at_shape _ _ _ _ _ _ _ (same_core_shape _ _ Hu)) in Hpg.
    by apply (page_at_remove_leaf _ (is_eagle c) Hps (nodes c) (root_node c) φ x xn p pn pn' ck) in Hpg as [? _].
  - by eexists.
  - intros j n' Hj. destruct (unlinked_back _ _ _ _ _ _ _ Hu Hj) as (_&n&Hn&[= _ _ _ Hvv _]).
    destruct (decide (j = p)) as [->|]; [|by eauto]. subst n. by exists pn.
Qed.

(** ** The heap *)

Lemma heappop_None ns h : heappop ns h = None ↔ h = [].
Proof.
  destruct h as [|e h]; [done|]. split; [|done]. simpl.
  destruct (heappop ns h) as [[m r]|]; [destruct (heap_lt ns m e)|]; done.
Qed.

Lemma heappop_perm ns h e r : heappop ns h = Some (e, r) → h ≡ₚ e :: r.
Proof.
  revert e r. induction h as [|e0 h IH]; intros e r; [done|]. cbn [heappop].
  destruct (heappop ns h) as [[m r']|] eqn:E.
  - specialize (IH m r' eq_refl). destruct (heap_lt ns m e0); intros [= <- <-]; rewrite IH; [|done].
    constructor.
  - intros [= <- <-]. by apply heappop_None in E as ->.
Qed.

(** The heap holds each evictable leaf once. *)
Definition heap_of c (h : list (list Z * node_id)) : Prop := snd <$> h ≡ₚ elements (evictable_leaves c).

Lemma initial_heap_ok c φ : inv c φ → ∃ h, initial_heap c = Ok h ∧ heap_of c h.
Proof.
  intros Hinv. unfold initial_heap, heap_of.
  set (go := fix go (l : list node_id) : res (list (list Z * node_id)) := _).
  assert (∀ l, (∀ i, i ∈ l → is_Some (nodes c !! i)) → ∃ h, go l = Ok h ∧ snd <$> h = l) as Hgo.
  { induction l as [|i l IH]; intros Hl; [by exists []|]. destruct (Hl i) as [n Hn]; [set_solver|].
    destruct IH as (h&Hh&Hs); [set_solver|]. simpl. rewrite (get_node_ok c i n Hn). res_step.
    rewrite Hh. res_step. eexists. split; [done|]. cbn [fmap list_fmap snd]. by rewrite <-Hs. }
  destruct (Hgo (elements (evictable_leaves c))) as (h&Hh&Hs).
  - intros i Hi%elem_of_elements. apply (ac_leaves _ (in_acct _ _ Hinv)) in Hi as (n&?&_). eauto.
  - exists h. split; [done|]. by rewrite Hs.
Qed.

Lemma heap_next c c' φ x p v push e h h' : heap_of c h → heappop (nodes c) h = Some (e, h') → x = e.2 →
  evicted_leaf c c' φ x p v push →
  ∃ h2, match push with
        | None => Ok h'
        | Some p => let! pn := get_node c' p in Ok ((get_priority (eviction_strategy c') pn, p) :: h')
        end = Ok h2 ∧ heap_of c' h2.
Proof.
  intros Hh Hpop -> He. unfold heap_of in *. apply heappop_perm in Hpop. rewrite Hpop in Hh. cbn [fmap list_fmap] in Hh.
  assert (NoDup (e.2 :: (snd <$> h'))) as Hnd by (rewrite Hh; apply NoDup_elements).
  apply NoDup_cons in Hnd as [Hne Hnd].
  assert (∀ j, j ∈ snd <$> h' ↔ j ∈ evictable_leaves c ∧ j ≠ e.2) as Hin.
  { intros j. rewrite <-elem_of_elements, <-Hh. set_solver. }
  pose proof (el_leaves _ _ _ _ _ _ _ He) as Hlv. pose proof (el_push _ _ _ _ _ _ _ He) as Hpu.
  destruct push as [q|].
  - assert (q ∈ evictable_leaves c') as Hq by (apply Hlv; by right).
    apply (ac_leaves _ (in_acct _ _ (el_inv _ _ _ _ _ _ _ He))) in Hq as (qn&Hqn&_).
    rewrite (get_node_ok c' q qn Hqn). res_step. eexists. split; [done|]. cbn [fmap list_fmap snd].
    apply NoDup_Permutation; [|apply NoDup_elements|].
    + apply NoDup_cons. split; [|done]. rewrite Hin. intros [? _]. by apply (Hpu q).
    + intros j. rewrite elem_of_elements, elem_of_cons, Hin, Hlv. naive_solver.
  - eexists. split; [done|]. apply NoDup_Permutation; [done|apply NoDup_elements|].
    intros j. rewrite elem_of_elements, Hin, Hlv. naive_solver.
Qed.

(** ** The loop *)

(** From [c] to [c'] the values [fs] were evicted, in this order. *)
Record evicted_values c c' φ (fs : list (list Z)) : Prop := {
  ea_inv : inv c' φ;
  ea_hash : hash_inv c';
  ea_cfg : cfg c' = cfg c;
  ea_alloc : allocator c' = foldl (λ a v, free_segment a v 0) (allocator c) fs;
  ea_ev : evictable_size_ c' = (evictable_size_ c - Z.of_nat (length (concat fs)))%Z;
  ea_pr : protected_size_ c' = protected_size_ c;
  ea_slots : slots (nodes c) ≡ₚ concat fs ++ slots (nodes c');
  ea_keep : ∀ j n, nodes c !! j = Some n → (0 < lock_ref n)%Z → ∃ n', nodes c' !! j = Some n'
    ∧ lock_ref n' = lock_ref n ∧ key n' = key n ∧ value n' = value n ∧ parent n' = parent n
    ∧ own (nodes c') n' = own (nodes c) n;
  ea_pages : ∀ N Q vs, pages c' φ N Q vs → pages c φ N Q vs;
  ea_values : ∀ f, f ∈ fs → ∃ j n, nodes c !! j = Some n ∧ value n = Some f;
  ea_back : ∀ j n', nodes c' !! j = Some n' → ∃ n, nodes c !! j = Some n ∧ value n = value n';
}.

Lemma evicted_values_nil c φ : inv c φ → hash_inv c → evicted_values c c φ [].
Proof.
  intros. split; try done; [simpl; lia| |by intros ? ?%not_elem_of_nil|by eauto]. intros j n Hj _. by exists n.
Qed.

Lemma evicted_values_cons c c1 c' φ x p v push fs : x ∈ evictable_leaves c → inv c φ →
  evicted_leaf c c1 φ x p v push → evicted_values c1 c' φ fs → evicted_values c c' φ (v :: fs).
Proof.
  intros Hx Hinv [] []. apply (ac_leaves _ (in_acct _ _ Hinv)) in Hx as (xn&Hx&_&Hlk&_).
  split; try done; try congruence.
  - simpl. by rewrite ea_alloc0, el_alloc0.
  - simpl. rewrite length_app. lia.
  - simpl. rewrite el_slots0, ea_slots0. by rewrite app_assoc.
  - intros j n Hj Hl. destruct (el_keep0 j n Hj) as (n1&Hn1&E1&E2&E3&E4&E5).
    { intros ->. assert (n = xn) as -> by congruence. lia. }
    destruct (ea_keep0 j n1 Hn1) as (n2&Hn2&F1&F2&F3&F4&F5); [lia|]. exists n2. split_and!; congruence.
  - auto.
  - intros f [->|Hf]%elem_of_cons; [destruct el_value0 as (?&?&?); by eauto|].
    destruct (ea_values0 f Hf) as (j&n1&Hn1&Hv). destruct (el_back0 j n1 Hn1) as (n&?&?). exists j, n. split; congruence.
  - intros j n2 Hn2. destruct (ea_back0 j n2 Hn2) as (n1&Hn1&E1). destruct (el_back0 j n1 Hn1) as (n&?&?).
    exists n. split; congruence.
Qed.

Lemma evict_loop_spec fuel num k h c φ : inv c φ → hash_inv c → heap_of c h → size (nodes c) < fuel →
  ∃ c' fs, evict_loop native_hash salt_digest fuel num k h c = Ok (c', k + length (concat fs))
    ∧ evicted_values c c' φ fs
    ∧ (num ≤ k + length (concat fs) ∨ evictable_leaves c' = ∅)
    ∧ (fs = [] ∨ k + length (concat (removelast fs)) < num).
Proof.
  revert k h c. induction fuel as [|fuel IH]; intros k h c Hinv Hhash Hh Hf; [lia|].
  cbn [evict_loop]. destruct (Nat.ltb_spec k num) as [Hlt|Hge]; cycle 1.
  { exists c, []. simpl. rewrite Nat.add_0_r. split_and!; auto using evicted_values_nil. }
  destruct (heappop (nodes c) h) as [[e h']|] eqn:Hpop; cycle 1.
  { apply heappop_None in Hpop as ->. exists c, []. simpl. rewrite Nat.add_0_r.
    split_and!; auto using evicted_values_nil. right. unfold heap_of in Hh. simpl in Hh.
    symmetry in Hh. apply Permutation_nil_r in Hh. by apply elements_empty_inv, leibniz_equiv in Hh. }
  assert (e.2 ∈ evictable_leaves c) as Hx.
  { apply elem_of_elements. unfold heap_of in Hh. rewrite <-Hh, (heappop_perm _ _ _ _ Hpop). set_solver. }
  destruct (evict_node_spec c φ e.2 Hinv Hhash Hx) as (c1&xn&p&v&push&Hev&Hxn&Hv&Hel).
  rewrite Hev. res_step.
  destruct (heap_next c c1 φ e.2 p v push e h h') as (h2&Hh2&Hheap); [done..|].
  rewrite Hh2. res_step. pose proof (el_size _ _ _ _ _ _ _ Hel) as Hsz.
  destruct (IH (k + length v) h2 c1) as (c'&fs&Hl&Hea&Hdone&Hmin);
    [apply Hel|apply Hel|done|lia|].
  exists c', (v :: fs). rewrite Hl. cbn [concat]. rewrite length_app, Nat.add_assoc.
  split_and!; [done|by eapply evicted_values_cons|done|].
  right. destruct fs as [|f fs]; [simpl; lia|]. destruct Hmin as [?|Hmin]; [done|].
  change (removelast (v :: f :: fs)) with (v :: removelast (f :: fs)). cbn [concat]. rewrite length_app. lia.
Qed.

Lemma evict_spec c φ num : inv c φ → hash_inv c → disable c = false →
  ∃ c' fs, evict native_hash salt_digest num c = Ok (c', length (concat fs))
    ∧ evicted_values c c' φ fs ∧ (num ≤ length (concat fs) ∨ evictable_leaves c' = ∅)
    ∧ (fs = [] ∨ length (concat (removelast fs)) < num).
Proof.
  intros Hinv Hhash Hd. unfold evict. rewrite Hd.
  destruct (initial_heap_ok c φ Hinv) as (h&->&Hh). res_step.
  destruct (evict_loop_spec (S (size (nodes c))) num 0 h c φ) as (c'&fs&?&?&?&?); [done..|lia|].
  exists c', fs. by split_and!.
Qed.

(** ** Exhaustion: with no evictable leaf left, nothing is evictable *)

Lemma unlocked_child c φ i n ck j : inv c φ → nodes c !! i = Some n → i ≠ root_node c →
  lock_ref n = 0%Z → children n !! ck = Some j → ∃ m, nodes c !! j = Some m ∧ lock_ref m = 0%Z.
Proof.
  intros [_ Hwf Hac] Hi Hne Hl Hc. destruct (wt_child _ _ _ _ _ Hwf i n ck j Hi Hc) as (_&m&Hm&_&_).
  exists m. split; [done|]. pose proof (ac_own _ Hac i n Hi Hne) as Ho. unfold own, child_locks in Ho.
  pose proof (ac_lock _ Hac j m Hm).
  assert (lock_at (nodes c) j ≤ msum (λ _ ch, lock_at (nodes c) ch) (children n))%Z as Hge.
  { apply (msum_ge (λ _ ch, lock_at (nodes c) ch) (children n) ck j); [|done]. intros k a _. unfold lock_at.
    destruct (nodes c !! a) eqn:E; [by eapply (ac_lock _ Hac)|done]. }
  rewrite (lock_at_some _ _ _ Hm) in Hge. lia.
Qed.

Lemma unlocked_leaf_below c φ i n : inv c φ → nodes c !! i = Some n → i ≠ root_node c →
  lock_ref n = 0%Z → evictable_leaves c ≠ ∅.
Proof.
  intros Hinv. pose proof Hinv as [Hps Hwf Hac].
  remember (size (nodes c) - depth (nodes c) φ i) as k eqn:Hk. revert i n Hk.
  induction (lt_wf k) as [k _ IH]; intros i n -> Hi Hne Hl.
  destruct (map_choose_or_empty (children n)) as [(ck&j&Hc)|He].
  - destruct (unlocked_child c φ i n ck j) as (m&Hm&Hml); try done.
    destruct (wt_child _ _ _ _ _ Hwf i n ck j Hi Hc) as (Hjr&m'&Hm'&Hp&_).
    assert (m' = m) as -> by congruence.
    pose proof (depth_parent _ _ Hps _ _ φ j m i Hwf Hm Hp).
    pose proof (depth_lt_size _ Hps _ φ j m Hm).
    eapply (IH (size (nodes c) - depth (nodes c) φ j)); [lia|done..].
  - intros Hemp. assert (i ∈ evictable_leaves c) as Hin; [|set_solver].
    apply (ac_leaves _ Hac). by exists n.
Qed.

Lemma no_leaves_evictable c φ : inv c φ → evictable_leaves c = ∅ → evictable_size_ c = 0%Z.
Proof.
  intros Hinv Hemp. rewrite (ac_ev _ (in_acct _ _ Hinv)).
  trans (msum (λ _ _, 0%Z) (nodes c)).
  - apply msum_ext; [done|]. intros i n n' Hi Hi'. unfold ev_len. case_decide; [done|].
    destruct (Z.eqb_spec (lock_ref n) 0) as [Hz|]; [|done].
    exfalso. by eapply (unlocked_leaf_below c φ i n).
  - generalize (nodes c). intros m. induction m as [|k a m Hk IH] using map_ind; [by rewrite msum_empty|].
    rewrite msum_insert by done. lia.
Qed.
End Evict.
