(* ===== verification/AllocFree.v ===== *)
(** * Freeing segments of a kv row

    The KV slots of a request are read off its row of pages: position [q] lies in
    page [row[q / page_size]].  [free_segment] finds the pages of a segment by
    striding instead of deduplicating; here this is shown to give exactly the
    pages of the segment, and [free_segments] to give each page once. *)

From stdpp Require Import base tactics numbers list gmap sorting.
From Stdlib Require Import ZArith Lia ZifyNat.
From S2P Require Import Prelude RadixCache Allocator.

Section Strides.
Context {A : Type}.

Lemma pystride_aux_drop step k (t : list A) : pystride_aux step k t = pystride_aux step 0 (drop k t).
Proof.
  revert k. induction t as [|x t IH]; intros [|k]; simpl; try done.
  rewrite Nat.sub_0_r. apply IH.
Qed.

Lemma pystride_cons step x (t : list A) :
  pystride step (x :: t) = x :: pystride step (drop (step - 1) t).
Proof. unfold pystride. simpl. by rewrite pystride_aux_drop. Qed.
End Strides.

(** The slot of position [q], and the slots of [n] positions from [start] on. *)
Definition row_slot (ps : nat) (row : list Z) (q : nat) : Z :=
  ((row !!! (q / ps)%nat) * Z.of_nat ps + Z.of_nat (q mod ps)%nat)%Z.
Definition kv_row (ps : nat) (row : list Z) (start n : nat) : list Z :=
  row_slot ps row <$> seq start n.

(** The pages that [n] positions from [start] on lie in. *)
Definition covered (ps : nat) (row : list Z) (start n : nat) : list Z :=
  pyslice row (start / ps) ((start + n - 1) / ps + 1).

Section Rows.
Context (ps : nat) (Hps : 0 < ps) (row : list Z).

Lemma row_slot_page q : (row_slot ps row q / Z.of_nat ps)%Z = row !!! (q / ps).
Proof.
  unfold row_slot. rewrite Z.div_add_l by lia.
  rewrite Z.div_small; [lia|]. pose proof (Nat.mod_upper_bound q ps). lia.
Qed.

Lemma kv_row_drop start n k : drop k (kv_row ps row start n) = kv_row ps row (start + k) (n - k).
Proof. unfold kv_row. by rewrite <-fmap_drop, drop_seq. Qed.

Lemma kv_row_take start n k : k ≤ n → take k (kv_row ps row start n) = kv_row ps row start k.
Proof. intros. unfold kv_row. rewrite <-fmap_take, take_seq. do 2 f_equal. lia. Qed.

Lemma page_ids_kv_row start n : Paged.page_ids ps (kv_row ps row start n) = (λ q, row !!! (q / ps)) <$> seq start n.
Proof.
  unfold Paged.page_ids, kv_row. rewrite <-list_fmap_compose. apply list_fmap_ext.
  intros i q _. apply row_slot_page.
Qed.

Lemma pyslice_cons (t : list Z) a b : a < b → a < length t → pyslice t a b = (t !!! a) :: pyslice t (S a) b.
Proof.
  intros Hab Ha. unfold pyslice. destruct (lookup_lt_is_Some_2 t a Ha) as [x Hx].
  rewrite (drop_S t x a Hx), (list_lookup_total_correct t a x Hx).
  replace (b - a) with (S (b - S a)) by lia. done.
Qed.

(** Striding over a segment that starts on a page boundary. *)
Lemma stride_pages a n : a * ps + n ≤ length row * ps →
  Paged.page_ids ps (pystride ps (kv_row ps row (a * ps) n)) = pyslice row a ((a * ps + n + ps - 1) / ps).
Proof.
  revert a. induction (lt_wf n) as [n _ IH]; intros a Hle. destruct (decide (n = 0)) as [->|Hn].
  - unfold pyslice. replace ((a * ps + 0 + ps - 1) / ps) with a; [by rewrite Nat.sub_diag|].
    apply (Nat.div_unique _ _ _ (ps - 1)); lia.
  - destruct n as [|n]; [done|]. unfold kv_row. cbn [seq fmap list_fmap]. fold (kv_row ps row (S (a * ps)) n).
    rewrite pystride_cons, kv_row_drop.
    assert (a < length row) by nia.
    assert (a < (a * ps + S n + ps - 1) / ps) as Hlt.
    { apply Nat.div_le_lower_bound; lia. }
    rewrite pyslice_cons by done. unfold Paged.page_ids. cbn [fmap list_fmap]. f_equal.
    + rewrite row_slot_page, Nat.div_mul by lia. done.
    + change (Paged.page_ids ps (pystride ps (kv_row ps row (S (a * ps) + (ps - 1)) (n - (ps - 1)))) =
        pyslice row (S a) ((a * ps + S n + ps - 1) / ps)).
      replace (S (a * ps) + (ps - 1)) with (S a * ps) by nia.
      destruct (decide (n < ps - 1)) as [Hs|Hs].
      * replace (n - (ps - 1)) with 0 by lia. rewrite IH by nia.
        unfold pyslice. assert ((S a * ps + 0 + ps - 1) / ps = S a) as ->.
        { symmetry. apply (Nat.div_unique _ _ _ (ps - 1)); nia. }
        assert ((a * ps + S n + ps - 1) / ps = S a) as ->.
        { symmetry. apply (Nat.div_unique _ _ _ n); nia. }
        done.
      * rewrite IH by nia. f_equal. f_equal. nia.
Qed.

(** The representatives that [free_segment] picks name the covered pages. *)
Lemma pieces_pages start n : 0 < n → start + n ≤ length row * ps →
  concat (Paged.page_ids ps <$> Paged.pieces ps (kv_row ps row start n) start) = covered ps row start n.
Proof.
  intros Hn Hle. unfold Paged.pieces, covered. pose proof (Nat.div_mod_eq start ps) as Hdm.
  pose proof (Nat.mod_upper_bound start ps ltac:(lia)) as Hub.
  set (a := start / ps) in *. set (o := start mod ps) in *.
  destruct (Nat.eqb_spec o 0) as [Ho|Ho].
  - cbn [fmap list_fmap concat]. rewrite app_nil_r.
    replace start with (a * ps) by lia. rewrite stride_pages by lia. f_equal.
    replace (a * ps + n + ps - 1) with (a * ps + n - 1 + 1 * ps) by lia. rewrite Nat.div_add by lia. done.
  - cbn [fmap list_fmap concat]. rewrite app_nil_r, kv_row_take, kv_row_drop by lia.
    replace (start + (ps - o)) with (S a * ps) by nia.
    rewrite page_ids_kv_row. cbn [seq fmap list_fmap app]. fold a.
    assert (a < length row) by nia.
    assert (a ≤ (start + n - 1) / ps) by (apply Nat.div_le_lower_bound; lia).
    rewrite pyslice_cons by lia. f_equal.
    destruct (decide (n < ps - o)) as [Hs|Hs].
    + replace (n - (ps - o)) with 0 by lia. rewrite stride_pages by nia.
      unfold pyslice. assert ((S a * ps + 0 + ps - 1) / ps = S a) as ->.
      { symmetry. apply (Nat.div_unique _ _ _ (ps - 1)); nia. }
      assert ((start + n - 1) / ps = a) as ->.
      { symmetry. apply (Nat.div_unique _ _ _ (o + n - 1)); nia. }
      by rewrite Nat.add_1_r.
    + rewrite stride_pages by nia. f_equal.
      replace (S a * ps + (n - (ps - o)) + ps - 1) with (start + n - 1 + 1 * ps) by nia.
      rewrite Nat.div_add by lia. done.
Qed.

Lemma elem_of_pyslice (t : list Z) a b p :
  p ∈ pyslice t a b ↔ ∃ i, a ≤ i < b ∧ i < length t ∧ p = t !!! i.
Proof.
  unfold pyslice. rewrite list_elem_of_lookup. split.
  - intros [j Hj]. apply lookup_take_Some in Hj as [Hj Hlt]. rewrite lookup_drop in Hj.
    exists (a + j). pose proof (lookup_lt_Some _ _ _ Hj). split_and!; try lia.
    symmetry. by apply list_lookup_total_correct.
  - intros (i&Hi&Hl&->). exists (i - a). apply lookup_take_Some. split; [|lia].
    rewrite lookup_drop. replace (a + (i - a)) with i by lia. by apply list_lookup_lookup_total_lt.
Qed.

Lemma elem_of_covered start n p : 0 < n → start + n ≤ length row * ps →
  p ∈ covered ps row start n ↔ ∃ q, start ≤ q < start + n ∧ p = row !!! (q / ps).
Proof.
  intros Hn Hle. unfold covered. rewrite elem_of_pyslice. split.
  - intros (i&[Hi1 Hi2]&Hl&->). destruct (decide (i * ps < start)) as [Hlt|Hge].
    + exists start. split; [lia|]. f_equal.
      pose proof (Nat.div_mod_eq start ps). pose proof (Nat.mod_upper_bound start ps). nia.
    + exists (i * ps). rewrite Nat.div_mul by lia. split; [|done].
      assert (i ≤ (start + n - 1) / ps) as Hi by lia.
      pose proof (Nat.Div0.mul_div_le (start + n - 1) ps). nia.
  - intros (q&Hq&->). exists (q / ps). split_and!; try done.
    + apply Nat.Div0.div_le_mono. lia.
    + assert (q / ps ≤ (start + n - 1) / ps) by (apply Nat.Div0.div_le_mono; lia). lia.
    + apply Nat.Div0.div_lt_upper_bound. nia.
Qed.

Lemma NoDup_pyslice (t : list Z) a b : NoDup t → NoDup (pyslice t a b).
Proof.
  intros Hnd. unfold pyslice. eapply (sublist_NoDup _ t); [done|].
  etrans; [apply sublist_take|apply sublist_drop].
Qed.

(** The reference: the distinct page ids of the segment. *)
Lemma unique_covered start n : 0 < n → start + n ≤ length row * ps → NoDup row →
  unique (Paged.page_ids ps (kv_row ps row start n)) ≡ₚ covered ps row start n.
Proof.
  intros Hn Hle Hnd. unfold unique, tsort. rewrite merge_sort_Permutation.
  apply NoDup_Permutation; [apply NoDup_remove_dups|by apply NoDup_pyslice|].
  intros p. rewrite elem_of_remove_dups, page_ids_kv_row, elem_of_covered, list_elem_of_fmap by done.
  split; intros (q&H1&H2).
  - apply elem_of_seq in H2. exists q. split; [lia|done].
  - exists q. rewrite elem_of_seq. split; [done|lia].
Qed.
End Rows.

(** ** Several segments of one row *)

(** The page ids that freeing the given segments emits, one call after another. *)
Definition emitted (ps : nat) (segments : list (list Z * nat)) : list Z :=
  segments ≫= λ '(fi, sp), if length fi =? 0 then [] else concat (Paged.page_ids ps <$> Paged.pieces ps fi sp).

(** Segments [(start, n)] of the row of a request, in ascending order, disjoint. *)
Fixpoint ascending (e : nat) (segs : list (nat * nat)) : Prop :=
  match segs with
  | [] => True
  | (s, n) :: segs => e ≤ s ∧ ascending (s + n) segs
  end.
Definition row_segments (ps : nat) (row : list Z) (segs : list (nat * nat)) : list (list Z * nat) :=
  (λ '(s, n), (kv_row ps row s n, s)) <$> segs.

Section Segments.
Context (ps : nat) (Hps : 0 < ps) (row : list Z).

(** The logical pages a position list lies in. *)
Definition in_segs (segs : list (nat * nat)) (i : nat) : Prop :=
  ∃ s n q, (s, n) ∈ segs ∧ s ≤ q < s + n ∧ i = q / ps.

Lemma length_kv_row s n : length (kv_row ps row s n) = n.
Proof. unfold kv_row. by rewrite length_fmap, length_seq. Qed.

Lemma emitted_row b m : b + m ≤ length row * ps →
  emitted ps [(kv_row ps row b m, b)]
  = (λ i, row !!! i) <$> (if m =? 0 then [] else seq (b / ps) ((b + m - 1) / ps + 1 - b / ps)).
Proof.
  intros Hle. unfold emitted. cbn [mbind list_bind]. rewrite app_nil_r, length_kv_row.
  destruct (Nat.eqb_spec m 0); [done|]. rewrite pieces_pages by lia. unfold covered, pyslice.
  apply list_eq. intros j. rewrite list_lookup_fmap.
  assert ((b + m - 1) / ps < length row) as Hlt by (apply Nat.Div0.div_lt_upper_bound; nia).
  destruct (decide (j < (b + m - 1) / ps + 1 - b / ps)) as [Hj|Hj].
  - rewrite lookup_take_lt, lookup_drop, lookup_seq_lt by done. simpl.
    by rewrite list_lookup_lookup_total_lt by lia.
  - rewrite lookup_take_ge, lookup_seq_ge by lia. done.
Qed.

Lemma trim_head prev s n : 0 < n → (∀ e, prev = Some e → 0 < e ∧ e ≤ s) → s + n ≤ length row * ps →
  ∃ idx, emitted ps [match prev with
      | Some e => if s / ps =? (e - 1) / ps then
          (drop ((s / ps + 1) * ps - s) (kv_row ps row s n), (s / ps + 1) * ps)
          else (kv_row ps row s n, s)
      | None => (kv_row ps row s n, s) end] = (λ i, row !!! i) <$> idx
    ∧ NoDup idx ∧ ∀ i, i ∈ idx ↔ (s / ps ≤ i ≤ (s + n - 1) / ps) ∧ ∀ e, prev = Some e → (e - 1) / ps < i.
Proof.
  intros Hn Hprev Hle.
  assert (s / ps ≤ (s + n - 1) / ps) as Hsn by (apply Nat.Div0.div_le_mono; lia).
  assert (∃ b m, match prev with
      | Some e => if s / ps =? (e - 1) / ps then
          (drop ((s / ps + 1) * ps - s) (kv_row ps row s n), (s / ps + 1) * ps)
          else (kv_row ps row s n, s)
      | None => (kv_row ps row s n, s) end = (kv_row ps row b m, b)
    ∧ b + m ≤ length row * ps
    ∧ ∀ i, i ∈ (if m =? 0 then [] else seq (b / ps) ((b + m - 1) / ps + 1 - b / ps)) ↔
        (s / ps ≤ i ≤ (s + n - 1) / ps) ∧ ∀ e, prev = Some e → (e - 1) / ps < i) as (b&m&->&Hbm&Hidx).
  { assert ((∀ e, prev = Some e → (e - 1) / ps < s / ps) → ∀ i,
      i ∈ (if n =? 0 then [] else seq (s / ps) ((s + n - 1) / ps + 1 - s / ps)) ↔
        (s / ps ≤ i ≤ (s + n - 1) / ps) ∧ ∀ e, prev = Some e → (e - 1) / ps < i) as Hplain.
    { intros Hlt i. destruct (Nat.eqb_spec n 0); [lia|]. rewrite elem_of_seq. split; [|lia].
      intros ?. split; [lia|]. intros e He. specialize (Hlt e He). lia. }
    destruct prev as [e|]; [|exists s, n; split_and!; [done|done|by apply Hplain]].
    destruct (Hprev e eq_refl) as [He0 Hes].
    assert ((e - 1) / ps ≤ s / ps) as Hes' by (apply Nat.Div0.div_le_mono; lia).
    destruct (Nat.eqb_spec (s / ps) ((e - 1) / ps)) as [Heq|Hne].
    - rewrite kv_row_drop. exists ((s / ps + 1) * ps), (n - ((s / ps + 1) * ps - s)).
      pose proof (Nat.div_mod_eq s ps) as Hdm. pose proof (Nat.mod_upper_bound s ps ltac:(lia)).
      assert (s / ps < length row) by (apply Nat.Div0.div_lt_upper_bound; nia).
      split_and!; [f_equal; f_equal; lia|nia|]. intros i. rewrite Nat.div_mul by lia.
      destruct (Nat.eqb_spec (n - ((s / ps + 1) * ps - s)) 0) as [Hz|Hz].
      + assert ((s + n - 1) / ps = s / ps) as Hsame.
        { symmetry. apply (Nat.div_unique _ _ _ (s mod ps + n - 1)); nia. }
        split; [set_solver|]. intros [? He]. specialize (He e eq_refl). lia.
      + replace ((s / ps + 1) * ps + (n - ((s / ps + 1) * ps - s)) - 1) with (s + n - 1) by lia.
        rewrite elem_of_seq. split.
        * intros ?. split; [lia|]. intros ? [= <-]. lia.
        * intros [? He]. specialize (He e eq_refl). lia.
    - exists s, n. split_and!; [done|done|]. apply Hplain. intros ? [= <-]. lia. }
  exists (if m =? 0 then [] else seq (b / ps) ((b + m - 1) / ps + 1 - b / ps)).
  split_and!; [by apply emitted_row| |done].
  destruct (m =? 0); [apply NoDup_nil_2|apply NoDup_seq].
Qed.

Lemma emitted_cons x l : emitted ps (x :: l) = emitted ps [x] ++ emitted ps l.
Proof. unfold emitted. cbn [mbind list_bind]. by rewrite app_nil_r. Qed.

Lemma ascending_le e segs s n q : ascending e segs → (s, n) ∈ segs → s ≤ q → e ≤ q.
Proof.
  revert e. induction segs as [|[s2 n2] segs IH]; intros e Hasc Hin Hq; [set_solver|].
  destruct Hasc as [? Hasc]. apply elem_of_cons in Hin as [[= -> ->]|Hin]; [lia|].
  specialize (IH _ Hasc Hin Hq). lia.
Qed.

(** Each logical page of the segments is emitted exactly once. *)
Lemma trim_segments_pages segs prev : ascending (default 0 prev) segs → prev ≠ Some 0 →
  (∀ s n, (s, n) ∈ segs → s + n ≤ length row * ps) →
  ∃ idx, emitted ps (Paged.trim_segments ps prev (row_segments ps row segs)) = (λ i, row !!! i) <$> idx
    ∧ NoDup idx ∧ ∀ i, i ∈ idx ↔ in_segs segs i ∧ ∀ e, prev = Some e → (e - 1) / ps < i.
Proof.
  revert prev. induction segs as [|[s n] segs IH]; intros prev Hasc Hprev Hle.
  { exists []. split_and!; [done|apply NoDup_nil_2|]. intros i. split; [set_solver|].
    intros [(?&?&?&?&_) _]. set_solver. }
  destruct Hasc as [Hs Hasc]. cbn [row_segments fmap list_fmap Paged.trim_segments]. rewrite length_kv_row.
  destruct (Nat.eqb_spec n 0) as [->|Hn].
  { destruct (IH prev) as (idx&He&Hnd&Hin); [|done|set_solver|].
    - destruct segs as [|[s' n'] segs]; [done|]. destruct Hasc as [? Hasc]. split; [lia|done].
    - exists idx. split_and!; [done..|]. intros i. rewrite Hin. unfold in_segs.
      split; intros [(s1&n1&q&H1&H2&H3) Hp]; (split; [|done]).
      + exists s1, n1, q. set_solver.
      + apply elem_of_cons in H1 as [[= -> ->]|H1]; [lia|]. by exists s1, n1, q. }
  destruct (trim_head prev s n) as (idx1&He1&Hnd1&Hin1); [lia| |apply Hle; set_solver|].
  { intros e ->. simpl in Hs. split; [|done]. destruct e; [done|lia]. }
  destruct (IH (Some (s + n))) as (idx2&He2&Hnd2&Hin2); [done|intros [= ?]; lia|set_solver|].
  set (h := match prev with Some e => _ | None => _ end) in *.
  exists (idx1 ++ idx2). split_and!.
  - destruct h as [fi sp]. rewrite emitted_cons, He1, fmap_app, <-He2. done.
  - apply NoDup_app. split_and!; [done| |done]. intros i [H1 _]%Hin1 [_ H2]%Hin2.
    specialize (H2 (s + n) eq_refl). lia.
  - intros i. rewrite elem_of_app, Hin1, Hin2.
    assert (s / ps ≤ i ≤ (s + n - 1) / ps ↔ ∃ q, s ≤ q < s + n ∧ i = q / ps) as Hcov.
    { split.
      - intros [H1 H2]. destruct (decide (i = s / ps)) as [->|Hne]; [exists s; split; [lia|done]|].
        exists (i * ps). rewrite Nat.div_mul by lia. split; [|done].
        pose proof (Nat.Div0.mul_div_le (s + n - 1) ps). pose proof (Nat.mul_succ_div_gt s ps ltac:(lia)). nia.
      - intros (q&Hq&->). split; apply Nat.Div0.div_le_mono; lia. }
    rewrite Hcov. unfold in_segs. split.
    + intros [[(q&Hq&->) Hp]|[(s1&n1&q&H1&H2&->) Hp]].
      * split; [|done]. exists s, n, q. split_and!; try lia. set_solver.
      * split; [exists s1, n1, q; split_and!; try lia; set_solver|].
        intros e He. specialize (Hp (s + n) eq_refl).
        assert ((e - 1) / ps ≤ (s + n - 1) / ps); [|lia]. apply Nat.Div0.div_le_mono.
        rewrite He in Hs. simpl in Hs. lia.
    + intros [(s1&n1&q&H1&H2&->) Hp]. apply elem_of_cons in H1 as [[= -> ->]|H1].
      * left. split; [by exists q|done].
      * destruct (decide ((s + n - 1) / ps < q / ps)) as [Hlt|Hge].
        -- right. split; [by exists s1, n1, q|]. by intros e [= <-].
        -- left. split; [|done]. exists (s + n - 1). split; [lia|].
           pose proof (ascending_le _ _ _ _ q Hasc H1 ltac:(lia)).
           assert ((s + n - 1) / ps ≤ q / ps) by (apply Nat.Div0.div_le_mono; lia). lia.
Qed.
End Segments.

(** ** The allocator state *)

(** The pages the allocator holds. *)
Definition held (a : KvAlloc) : list Z := free_pages a ++ release_pages a.

Lemma held_release ids a : held (Paged.release_page_ids ids a) ≡ₚ concat ids ++ held a.
Proof.
  unfold held, Paged.release_page_ids. destruct (need_sort a); simpl; [|by rewrite app_assoc].
  rewrite !app_assoc. apply Permutation_app; [|done]. apply Permutation_app_comm.
Qed.

Lemma held_free_segments l a : is_not_in_free_group a = true →
  held (foldl (λ a '(fi, sp), Paged.free_segment fi sp a) a l) ≡ₚ emitted (ps a) l ++ held a
  ∧ is_not_in_free_group (foldl (λ a '(fi, sp), Paged.free_segment fi sp a) a l) = true.
Proof.
  revert a. induction l as [|[fi sp] l IH]; intros a Ha; cbn [foldl]; [done|].
  rewrite emitted_cons.
  assert (held (Paged.free_segment fi sp a) ≡ₚ emitted (ps a) [(fi, sp)] ++ held a
    ∧ is_not_in_free_group (Paged.free_segment fi sp a) = true ∧ ps (Paged.free_segment fi sp a) = ps a) as (H1&H2&H3).
  { unfold Paged.free_segment, emitted. cbn [mbind list_bind]. rewrite app_nil_r.
    destruct (Nat.eqb_spec (length fi) 0); [done|]. rewrite Ha. split_and!; [apply held_release|..].
    all: unfold Paged.release_page_ids; by destruct (need_sort a). }
  destruct (IH _ H2) as [H4 H5]. split; [|done]. rewrite H4, H1, H3. rewrite !app_assoc.
  apply Permutation_app; [|done]. apply Permutation_app_comm.
Qed.
