(* ===== verification/AllocCorrect.v ===== *)
(** * Correctness of the allocators

    Conservation of pages under allocation and freeing, the equivalence of the
    strided [free_segment] with the deduplicating [free], and of deferred (grouped)
    with immediate freeing. *)

From stdpp Require Import base tactics numbers list gmap sorting.
From Stdlib Require Import ZArith Lia ZifyNat.
From S2P Require Import Prelude RadixCache Allocator AllocFree.

(** ** Invariant: every page at most once, inside the pool *)

Definition in_pool (n : nat) (l : list Z) : Prop := NoDup l ∧ ∀ p, p ∈ l → (1 ≤ p ≤ Z.of_nat n)%Z.
(** Without [need_sort] nothing is ever put in [release_pages]. *)
Definition alloc_inv (a : KvAlloc) : Prop :=
  in_pool (num_pages a) (held a) ∧ (need_sort a = false → release_pages a = []).

Global Instance in_pool_proper n : Proper ((≡ₚ) ==> iff) (in_pool n).
Proof. intros l l' Hl. unfold in_pool. by setoid_rewrite Hl. Qed.

Lemma in_pool_app n l1 l2 : in_pool n (l1 ++ l2) ↔
  in_pool n l1 ∧ in_pool n l2 ∧ ∀ p, p ∈ l1 → p ∉ l2.
Proof. unfold in_pool. rewrite NoDup_app. set_solver. Qed.

Lemma elem_of_arange a b x : (a ≤ b)%Z → x ∈ arange a b ↔ (a ≤ x < b)%Z.
Proof.
  intros Hab. unfold arange. rewrite list_elem_of_fmap. split.
  - intros (i&->&Hi%elem_of_seq). lia.
  - intros Hx. exists (Z.to_nat (x - a)). split; [lia|]. apply elem_of_seq. lia.
Qed.

Lemma NoDup_arange a b : NoDup (arange a b).
Proof. unfold arange. apply NoDup_fmap_2; [intros ???; lia|apply NoDup_seq]. Qed.

Lemma held_merge a : held (merge_and_sort_free a) ≡ₚ held a.
Proof.
  unfold merge_and_sort_free, held. destruct (0 <? _); [|done]. simpl. rewrite app_nil_r.
  apply merge_sort_Permutation.
Qed.

Lemma merge_release a : release_pages (merge_and_sort_free a) = [].
Proof.
  unfold merge_and_sort_free. destruct (Nat.ltb_spec 0 (length (release_pages a))) as [|Hz]; [done|].
  by apply length_zero_iff_nil, Nat.le_0_r.
Qed.

(** What no allocation changes. *)
Definition same_pool (a a' : KvAlloc) : Prop :=
  ps a' = ps a ∧ num_pages a' = num_pages a ∧ need_sort a' = need_sort a
  ∧ is_not_in_free_group a' = is_not_in_free_group a.

Global Instance same_pool_preorder : PreOrder same_pool.
Proof. unfold same_pool. split; [by intros a|]. intros a b c (?&?&?&?) (?&?&?&?). split_and!; congruence. Qed.

(** Every allocation first merges the released pages when it may need them. *)
Definition merged_for (n : nat) (a : KvAlloc) : KvAlloc :=
  if need_sort a && (length (free_pages a) <? n) then merge_and_sort_free a else a.

Lemma merged_for_spec n a : alloc_inv a →
  same_pool a (merged_for n a) ∧ held (merged_for n a) ≡ₚ held a ∧ alloc_inv (merged_for n a)
  ∧ (length (held a) ≤ length (free_pages (merged_for n a)) ∨ n ≤ length (free_pages (merged_for n a))).
Proof.
  intros Hinv. pose proof Hinv as [Hin Hrel]. unfold merged_for. destruct (need_sort a) eqn:E; cbn [andb]; cycle 1.
  { do 3 (split; [done|]). left. unfold held. rewrite Hrel, app_nil_r by done. done. }
  destruct (Nat.ltb_spec (length (free_pages a)) n) as [Hl|Hl].
  2:{ do 3 (split; [done|]). by right. }
  pose proof (held_merge a) as Hm. pose proof (merge_release a) as Hmr.
  assert (same_pool a (merge_and_sort_free a)) as Hs
    by (unfold same_pool, merge_and_sort_free; by destruct (0 <? length (release_pages a))).
  split; [done|]. split; [done|]. split.
  - split; [|done]. rewrite Hm. by rewrite (proj1 (proj2 Hs)).
  - left. rewrite <-Hm. unfold held. rewrite Hmr, app_nil_r. done.
Qed.

(** Taking pages from the front of the free list. *)
Definition without_front (n : nat) (a : KvAlloc) : KvAlloc := set_free (drop n (free_pages a)) (release_pages a) a.

Lemma without_front_spec n a : alloc_inv a →
  held a ≡ₚ take n (free_pages a) ++ held (without_front n a) ∧ alloc_inv (without_front n a)
  ∧ same_pool a (without_front n a).
Proof.
  intros [Hin Hrel]. assert (held a ≡ₚ take n (free_pages a) ++ held (without_front n a)) as Hh.
  { unfold held. simpl. by rewrite app_assoc, take_drop. }
  split_and!; try done. split; [|done]. rewrite Hh in Hin. by apply in_pool_app in Hin as (_&?&_).
Qed.

(** The two allocators share the page hand-out; [n] is the number of pages. *)
Definition take_pages (n : nat) (a : KvAlloc) : option (list Z) * KvAlloc :=
  let a := merged_for n a in
  if length (free_pages a) <? n then (None, a)
  else (Some (take n (free_pages a)), without_front n a).

Lemma take_pages_spec n a : alloc_inv a →
  if length (held a) <? n
  then ∃ a', take_pages n a = (None, a') ∧ held a' ≡ₚ held a ∧ alloc_inv a' ∧ same_pool a a'
  else ∃ pages a', take_pages n a = (Some pages, a') ∧ length pages = n
    ∧ held a ≡ₚ pages ++ held a' ∧ alloc_inv a' ∧ same_pool a a'.
Proof.
  intros Hinv. destruct (merged_for_spec n a Hinv) as (Hs&Hh&Hi&Hlen). unfold take_pages.
  assert (length (free_pages (merged_for n a)) ≤ length (held a)) as Hle.
  { rewrite <-Hh. unfold held. rewrite length_app. lia. }
  destruct (Nat.ltb_spec (length (held a)) n) as [Hlt|Hge].
  - destruct (Nat.ltb_spec (length (free_pages (merged_for n a))) n); [|lia]. by exists (merged_for n a).
  - destruct (Nat.ltb_spec (length (free_pages (merged_for n a))) n); [lia|].
    destruct (without_front_spec n _ Hi) as (Hw&Hwi&Hws). eexists _, _. split; [done|].
    split_and!; [rewrite length_take; lia|by rewrite <-Hw|done|by etrans].
Qed.

Lemma paged_alloc_eq need a : Paged.alloc need a =
  (let '(o, a') := take_pages (need / ps a) a in ((λ pages, pages ≫= Paged.page_slots (ps a)) <$> o, a')).
Proof.
  unfold Paged.alloc, take_pages, merged_for.
  set (a1 := if need_sort a && (length (free_pages a) <? need / ps a) then merge_and_sort_free a else a).
  assert (ps a1 = ps a) as ->.
  { unfold a1, merge_and_sort_free. by destruct (_ && _), (0 <? length (release_pages a)). }
  by destruct (length (free_pages a1) <? need / ps a).
Qed.

Lemma page_ids_slots n p : 0 < n → Paged.page_ids n (Paged.page_slots n p) = replicate n p.
Proof.
  intros Hn. unfold Paged.page_ids, Paged.page_slots. rewrite <-list_fmap_compose.
  apply list_eq. intros i. rewrite list_lookup_fmap.
  destruct (decide (i < n)) as [Hi|Hi].
  - rewrite lookup_seq_lt, lookup_replicate_2 by done. simpl. f_equal.
    rewrite Z.div_add_l by lia. rewrite Z.div_small; lia.
  - rewrite lookup_seq_ge by lia. symmetry. apply lookup_replicate_None. lia.
Qed.

(** Allocated slots name their pages. *)
Lemma unique_alloc_pages n pages : 0 < n → NoDup pages →
  unique (Paged.page_ids n (pages ≫= Paged.page_slots n)) ≡ₚ pages.
Proof.
  intros Hn Hnd. unfold unique, tsort. rewrite merge_sort_Permutation.
  apply NoDup_Permutation; [apply NoDup_remove_dups|done|]. intros p. rewrite elem_of_remove_dups.
  assert (Paged.page_ids n (pages ≫= Paged.page_slots n) = pages ≫= replicate n) as ->.
  { clear Hnd. induction pages as [|q pages IH]; [done|]. unfold Paged.page_ids in *.
    cbn [mbind list_bind]. rewrite fmap_app, IH. f_equal. by apply page_ids_slots. }
  rewrite list_elem_of_bind. split.
  - intros (q&[-> _]%elem_of_replicate&?). done.
  - intros. exists p. split; [|done]. apply elem_of_replicate. split; [done|lia].
Qed.

(** ** The properties *)

(** Freeing a segment of a request's kv row by striding ([free_segment])
    returns exactly the pages the segment lies in, each once, and so has the same
    effect on the pool as the deduplicating [free] on the same slots. *)
Theorem free_segment_frees_covered_pages (a : KvAlloc) (row : list Z) (start n : nat)
    (Hps : 0 < ps a) (Hn : 0 < n) (Hrow : NoDup row) (Hle : start + n ≤ length row * ps a)
    (Hgrp : is_not_in_free_group a = true) :
  held (Paged.free_segment (kv_row (ps a) row start n) start a)
    ≡ₚ covered (ps a) row start n ++ held a
  ∧ held (Paged.free_segment (kv_row (ps a) row start n) start a)
    ≡ₚ held (Paged.free (kv_row (ps a) row start n) a).
Proof.
  assert ((length (kv_row (ps a) row start n) =? 0) = false) as Hlen
    by (rewrite length_kv_row; by apply Nat.eqb_neq; lia).
  unfold Paged.free_segment, Paged.free. rewrite Hlen, Hgrp, !held_release, pieces_pages by done.
  split; [done|]. cbn [concat]. by rewrite app_nil_r, unique_covered.
Qed.

Lemma free_segment_frees_covered_pages_witness :
  held (Paged.free_segment (kv_row 4 [7; 3; 9]%Z 2 7) 2 (Paged.init 40 4 false))
    ≡ₚ [7; 3; 9]%Z ++ held (Paged.init 40 4 false).
Proof.
  apply (free_segment_frees_covered_pages (Paged.init 40 4 false) [7; 3; 9]%Z 2 7);
    [simpl; lia|lia|by apply (bool_decide_unpack _); vm_compute|simpl; lia|done].
Defined.

(** C26: freeing several disjoint ascending segments of one row ([free_segments])
    returns every page any of them lies in, and returns it only once, also when
    two consecutive segments meet inside a page. *)
Theorem free_segments_each_page_once (a : KvAlloc) (row : list Z) (segs : list (nat * nat))
    (Hps : 0 < ps a) (Hrow : NoDup row) (Hasc : ascending 0 segs)
    (Hle : ∀ s n, (s, n) ∈ segs → s + n ≤ length row * ps a)
    (Hgrp : is_not_in_free_group a = true) :
  ∃ pages, held (Paged.free_segments (row_segments (ps a) row segs) a) ≡ₚ pages ++ held a
    ∧ NoDup pages
    ∧ ∀ p, p ∈ pages ↔ ∃ s n q, (s, n) ∈ segs ∧ s ≤ q < s + n ∧ p = row !!! (q / ps a).
Proof.
  destruct (trim_segments_pages (ps a) Hps row segs None) as (idx&He&Hnd&Hin); [done..|].
  assert (∀ i, i ∈ idx → i < length row) as Hidx.
  { intros i [(s&n&q&Hs&Hq&->) _]%Hin. specialize (Hle s n Hs). apply Nat.Div0.div_lt_upper_bound. nia. }
  exists ((λ i, row !!! i) <$> idx). split_and!.
  - unfold Paged.free_segments. rewrite <-He. by apply held_free_segments.
  - apply NoDup_fmap_2_strong; [|done]. intros i j Hi Hj Hij.
    apply Hidx in Hi, Hj. apply (NoDup_lookup row i j (row !!! i)); [done|..].
    + by apply list_lookup_lookup_total_lt.
    + rewrite Hij. by apply list_lookup_lookup_total_lt.
  - intros p. rewrite list_elem_of_fmap. split.
    + intros (i&->&[(s&n&q&Hs&Hq&->) _]%Hin). by exists s, n, q.
    + intros (s&n&q&Hs&Hq&->). exists (q / ps a). split; [done|]. apply Hin. split; [|done].
      by exists s, n, q.
Qed.

Lemma free_segments_each_page_once_witness :
  ∃ pages, held (Paged.free_segments (row_segments 4 [7; 3; 9]%Z [(1, 2); (3, 4); (9, 3)])
      (Paged.init 40 4 false)) ≡ₚ pages ++ held (Paged.init 40 4 false) ∧ NoDup pages.
Proof.
  destruct (free_segments_each_page_once (Paged.init 40 4 false) [7; 3; 9]%Z [(1, 2); (3, 4); (9, 3)])
    as (pages&?&?&_); [simpl; lia|by apply (bool_decide_unpack _); vm_compute|simpl; lia| |done|by exists pages].
  intros s n Hs. simpl. repeat (apply elem_of_cons in Hs as [[= -> ->]|Hs]; [lia|]). by apply not_elem_of_nil in Hs.
Defined.

(** Page-aligned allocation succeeds exactly when enough pages are held (in
    both lists together), hands out whole distinct pages of the pool, and the
    pages it hands out and those it keeps are the pages it held before; giving
    the slots back with [free] restores the pool. *)
Theorem paged_alloc_conserves (a : KvAlloc) (need : nat) (Hinv : alloc_inv a) (Hps : 0 < ps a)
    (Hgrp : is_not_in_free_group a = true) :
  match Paged.alloc need a with
  | (None, a') => length (held a) < need / ps a ∧ held a' ≡ₚ held a ∧ alloc_inv a'
  | (Some idx, a') => ∃ pages, length pages = need / ps a ∧ held a ≡ₚ pages ++ held a'
      ∧ alloc_inv a' ∧ idx = pages ≫= Paged.page_slots (ps a)
      ∧ (pages ≠ [] → held (Paged.free idx a') ≡ₚ held a)
  end.
Proof.
  rewrite paged_alloc_eq. pose proof (take_pages_spec (need / ps a) a Hinv) as Ht.
  destruct (Nat.ltb_spec (length (held a)) (need / ps a)).
  - destruct Ht as (a'&->&?&?&_). simpl. done.
  - destruct Ht as (pages&a'&He&Hlen&Hh&Hi&(Hp&_&_&Hg)). rewrite He. simpl.
    rewrite Hgrp in Hg. exists pages. split_and!; try done. intros Hne.
    assert (NoDup pages) as Hnd.
    { destruct Hinv as [Hin _]. rewrite Hh in Hin. apply in_pool_app in Hin as ([? _]&_). done. }
    unfold Paged.free. destruct (Nat.eqb_spec (length (pages ≫= Paged.page_slots (ps a))) 0) as [Hz|_].
    { destruct pages as [|p pages]; [done|]. cbn [mbind list_bind] in Hz. rewrite length_app in Hz.
      unfold Paged.page_slots in Hz at 1. rewrite length_fmap, length_seq in Hz. lia. }
    rewrite Hg, held_release, Hh, Hp. cbn [concat]. by rewrite app_nil_r, unique_alloc_pages.
Qed.

Lemma paged_init_inv size n sort : alloc_inv (Paged.init size n sort).
Proof.
  split; [|done]. unfold held. simpl. rewrite app_nil_r. split; [apply NoDup_arange|].
  intros p Hp. apply elem_of_arange in Hp; lia.
Qed.

Lemma paged_alloc_conserves_witness : ∃ pages, length pages = 3
  ∧ held (Paged.init 40 4 true) ≡ₚ pages ++ held (Paged.alloc 12 (Paged.init 40 4 true)).2.
Proof.
  pose proof (paged_alloc_conserves (Paged.init 40 4 true) 12 (paged_init_inv 40 4 true)
    ltac:(simpl; lia) eq_refl) as H.
  destruct (Paged.alloc 12 (Paged.init 40 4 true)) as [[idx|] a'] eqn:E; [|vm_compute in E; discriminate].
  destruct H as (pages&?&?&_). by exists pages.
Defined.

(** The token allocator (page size 1) keeps every slot exactly once: a
    successful [alloc] returns the requested number of distinct slots between 1
    and the pool size (never the padding slot 0), it fails only when fewer slots
    are free or released, and [free] gives slots back. *)
Theorem token_alloc_free (a : KvAlloc) (need : nat) (Hinv : alloc_inv a)
    (Hgrp : is_not_in_free_group a = true) :
  match Token.alloc need a with
  | (None, a') => length (held a) < need ∧ held a' ≡ₚ held a ∧ alloc_inv a'
  | (Some idx, a') => length idx = need ∧ NoDup idx ∧ (∀ i, i ∈ idx → 1 ≤ i ≤ Z.of_nat (num_pages a))%Z
      ∧ held a ≡ₚ idx ++ held a' ∧ alloc_inv a'
      ∧ held (Token.free idx a') ≡ₚ held a ∧ alloc_inv (Token.free idx a')
  end.
Proof.
  change (Token.alloc need a) with (take_pages need a). pose proof (take_pages_spec need a Hinv) as Ht.
  destruct (Nat.ltb_spec (length (held a)) need).
  - destruct Ht as (a'&->&?&?&_). done.
  - destruct Ht as (idx&a'&He&Hlen&Hh&Hi&(_&Hp&_&Hg)). rewrite He. rewrite Hgrp in Hg.
    pose proof Hinv as [Hin _]. pose proof Hin as Hin'. rewrite Hh in Hin'. apply in_pool_app in Hin' as ([Hnd Hrange]&_).
    assert (held (Token.free idx a') ≡ₚ held a) as Hfree.
    { unfold Token.free. destruct (Nat.eqb_spec (length idx) 0) as [Hz|_].
      - apply length_zero_iff_nil in Hz as ->. by rewrite Hh.
      - rewrite Hg, Hh. unfold held. destruct (need_sort a'); simpl.
        + rewrite !app_assoc. rewrite (Permutation_app_comm idx). by rewrite <-!app_assoc, (Permutation_app_comm idx).
        + rewrite (Permutation_app_comm (free_pages a') idx). by rewrite <-app_assoc. }
    split_and!; try done. split.
    + rewrite Hfree. unfold Token.free. destruct (_ =? 0), (is_not_in_free_group a'), (need_sort a'); simpl; by rewrite Hp.
    + unfold Token.free. destruct (_ =? 0); [apply Hi|]. rewrite Hg. destruct (need_sort a') eqn:E; simpl; [congruence|].
      intros _. by apply Hi.
Qed.

Lemma token_init_inv size sort : alloc_inv (Token.init size sort).
Proof.
  split; [|done]. unfold held. simpl. rewrite app_nil_r. split; [apply NoDup_arange|].
  intros p Hp. apply elem_of_arange in Hp; lia.
Qed.

Lemma token_alloc_free_witness : held (Token.free [1; 2; 3]%Z (Token.alloc 3 (Token.init 8 false)).2) ≡ₚ held (Token.init 8 false).
Proof.
  pose proof (token_alloc_free (Token.init 8 false) 3 (token_init_inv 8 false) eq_refl) as H.
  vm_compute in H. vm_compute. by destruct H as (_&_&_&_&_&?&_).
Defined.

(** Freeing segments inside a free group and then closing the group leaves
    the pool with the same pages as freeing them at once. *)
Theorem grouped_free_segments_deferred (a : KvAlloc) (segments : list (list Z * nat))
    (Hgrp : is_not_in_free_group a = true) :
  held (Paged.free_group_end
          (foldl (λ a '(fi, sp), Paged.free_segment fi sp a) (Paged.free_group_begin a) segments))
  ≡ₚ held (foldl (λ a '(fi, sp), Paged.free_segment fi sp a) a segments).
Proof.
  destruct (held_free_segments segments a Hgrp) as [-> _].
  assert (∀ l b, is_not_in_free_group b = false →
    let b' := foldl (λ a '(fi, sp), Paged.free_segment fi sp a) b l in
    held b' = held b ∧ ps b' = ps b ∧ free_group b' = free_group b
    ∧ Paged.page_ids (ps b) (concat (free_page_reps_group b'))
      = Paged.page_ids (ps b) (concat (free_page_reps_group b)) ++ emitted (ps b) l) as Hdefer.
  { induction l as [|[fi sp] l IH]; intros b Hb; cbn [foldl].
    { unfold emitted. simpl. by rewrite app_nil_r. }
    rewrite emitted_cons.
    assert (∃ b1, Paged.free_segment fi sp b = b1 ∧ is_not_in_free_group b1 = false ∧ held b1 = held b
      ∧ ps b1 = ps b ∧ free_group b1 = free_group b
      ∧ Paged.page_ids (ps b) (concat (free_page_reps_group b1))
        = Paged.page_ids (ps b) (concat (free_page_reps_group b)) ++ emitted (ps b) [(fi, sp)])
      as (b1&->&H1&H2&H3&H4&H5).
    { eexists. split; [done|]. unfold Paged.free_segment, emitted. cbn [mbind list_bind]. rewrite app_nil_r.
      destruct (Nat.eqb_spec (length fi) 0); [by rewrite app_nil_r|]. rewrite Hb.
      split_and!; try done. simpl. rewrite concat_app. unfold Paged.page_ids at 1. rewrite fmap_app. f_equal.
      generalize (Paged.pieces (ps b) fi sp). intros pcs. induction pcs as [|x pcs IHp]; [done|].
      cbn [concat fmap list_fmap]. rewrite fmap_app. by f_equal. }
    destruct (IH b1 H1) as (G1&G2&G3&G4). split_and!; try congruence.
    rewrite H3 in G4. rewrite G4, H5. by rewrite app_assoc. }
  destruct (Hdefer segments (Paged.free_group_begin a) eq_refl) as (D1&D2&D3&D4).
  set (b := foldl _ _ _) in *. cbn [Paged.free_group_begin set_group ps free_group free_page_reps_group concat] in D2, D3, D4.
  unfold Paged.free_group_end. cbn [free_group set_group]. rewrite D3. cbn [free_page_reps_group set_group ps].
  change (Paged.page_ids (ps a) []) with (@nil Z) in D4. cbn [app] in D4.
  destruct (free_page_reps_group b) as [|g gs] eqn:Eg.
  - change (Paged.page_ids (ps a) []) with (@nil Z) in D4. rewrite <-D4. change (held b ≡ₚ held a). by rewrite D1.
  - rewrite <-D4, <-D2.
    match goal with |- held (set_group ?x ?y ?z ?t) ≡ₚ _ => change (held (set_group x y z t)) with (held t) end.
    rewrite held_release. cbn [concat]. rewrite app_nil_r. apply Permutation_app; [done|].
    change (held b ≡ₚ held a). by rewrite D1.
Qed.

Lemma grouped_free_segments_deferred_witness :
  held (Paged.free_group_end (foldl (λ a '(fi, sp), Paged.free_segment fi sp a)
    (Paged.free_group_begin (Paged.init 8 4 false)) [([21; 22; 23; 24; 25]%Z, 1)]))
  ≡ₚ held (Paged.free_segment [21; 22; 23; 24; 25]%Z 1 (Paged.init 8 4 false)).
Proof.
  apply (grouped_free_segments_deferred (Paged.init 8 4 false) [([21; 22; 23; 24; 25]%Z, 1)]). done.
Defined.
