(* ===== verification/AllocKernel.v ===== *)
(** * Batched page allocation

    [alloc_extend] and [alloc_decode] of the paged allocator, with the Triton
    kernels [alloc_extend_kernel] and [alloc_decode_kernel]
    (src/python/sglang/kernels/ops/memory/allocator.py) they launch, the
    Python version [alloc_extend_naive] of the same computation and
    [get_num_new_pages] (srt/utils/common.py).

    A kernel launch runs one program per request; a program is modelled by the
    list of its stores (offset, value), in order.  Masked-off lanes of a load
    without [other] read 0.  A read past the end of [free_pages] gives an
    arbitrary value (here 0); the method then returns [None]. *)

From stdpp Require Import base tactics numbers list gmap sorting.
From Stdlib Require Import ZArith Lia ZifyNat.
From S2P Require Import Prelude RadixCache Allocator AllocFree.

Definition npages (ps n : nat) : nat := (n + ps - 1) / ps.

Definition sum_list (l : list nat) : nat := foldr Nat.add 0 l.

(** [tl.load(ptr + arange(0, bs_upper), mask = offset <= pid)]. *)
Definition masked_lanes (bs_upper pid : nat) (l : list nat) : list nat :=
  (λ i, if i <=? pid then l !!! i else 0) <$> seq 0 bs_upper.

(** [min(seq_len, ceil(pre_len)) - pre_len]: what is left of the last page. *)
Definition part1_len (ps pre seq_len : nat) : nat := min seq_len (npages ps pre * ps) - pre.

Definition BLOCK_EXTEND : nat := 4096.

Definition alloc_extend_kernel (bs_upper ps : nat) (pre_lens seq_lens : list nat)
    (last_locs free : list Z) (pid : nat) : list (nat * Z) :=
  let seqs := masked_lanes bs_upper pid seq_lens in
  let pres := masked_lanes bs_upper pid pre_lens in
  let seq_len := seq_lens !!! pid in
  let pre_len := pre_lens !!! pid in
  let extend_len := seq_len - pre_len in
  let output_start := sum_list (zip_with Nat.sub seqs pres) - extend_len in
  let new_self := npages ps seq_len - npages ps pre_len in
  let page_start := sum_list (zip_with (λ s p, npages ps s - npages ps p) seqs pres) - new_self in
  let last_loc := last_locs !!! pid in
  let num1 := part1_len ps pre_len seq_len in
  let part1 := (λ i, (output_start + i, (last_loc + 1 + Z.of_nat i)%Z))
                 <$> filter (λ i, i < num1) (seq 0 ps) in
  if pre_len + num1 =? seq_len then part1
  else
    let num2 := seq_len / ps * ps - npages ps pre_len * ps in
    let num_blocks := (num2 + BLOCK_EXTEND - 1) / BLOCK_EXTEND in
    let part2 := (λ off, (output_start + num1 + off,
                    ((free !!! (page_start + off / ps)%nat) * Z.of_nat ps + Z.of_nat (off mod ps)%nat)%Z))
                   <$> filter (λ off, off < num2)
                         (seq 0 num_blocks ≫= λ b, (λ o, b * BLOCK_EXTEND + o) <$> seq 0 BLOCK_EXTEND) in
    if pre_len + num1 + num2 =? seq_len then part1 ++ part2
    else
      let num3 := seq_len - seq_len / ps * ps in
      let start_loc := free !!! (page_start + new_self - 1) in
      part1 ++ part2 ++
        ((λ i, (output_start + num1 + num2 + i, (start_loc * Z.of_nat ps + Z.of_nat i)%Z))
           <$> filter (λ i, i < num3) (seq 0 ps)).

Definition apply_stores (out : list Z) (stores : list (nat * Z)) : list Z :=
  foldl (λ out '(o, v), <[o := v]> out) out stores.

(** The launch [kernel[(bs,)]]. *)
Definition launch (kernel : nat → list (nat * Z)) (bs : nat) (out : list Z) : list Z :=
  foldl (λ out pid, apply_stores out (kernel pid)) out (seq 0 bs).

(** [alloc_extend_naive]: slice assignments into [out_indices]. *)
Definition assign (out : list Z) (start : nat) (vals : list Z) : list Z :=
  take start out ++ vals ++ drop (start + length vals) out.

Definition alloc_extend_naive (ps : nat) (prefix_lens seq_lens : list nat) (last_loc free : list Z)
    (out : list Z) : list Z :=
  let extend_lens := zip_with Nat.sub seq_lens prefix_lens in
  let new_pages := zip_with (λ s p, npages ps s - npages ps p) seq_lens prefix_lens in
  foldl (λ out i,
    let s := seq_lens !!! i in
    let p := prefix_lens !!! i in
    let end_pos := sum_list (take (S i) extend_lens) in
    let start_pos := end_pos - extend_lens !!! i in
    let end_new := sum_list (take (S i) new_pages) in
    let start_new := end_new - new_pages !!! i in
    let need_page := (new_pages !!! i) - (s / ps - npages ps p) in
    let num1 := part1_len ps p s in
    let out := if num1 =? 0 then out
               else assign out start_pos ((λ j, ((last_loc !!! i) + 1 + Z.of_nat j)%Z) <$> seq 0 num1) in
    if p + num1 =? s then out
    else
      let num2 := (s / ps - npages ps p) * ps in
      let out := if num2 =? 0 then out
                 else assign out (start_pos + num1)
                        (pyslice free start_new (end_new - need_page) ≫= Paged.page_slots ps) in
      if p + num1 + num2 =? s then out
      else
        let num3 := s - s / ps * ps in
        if num3 =? 0 then out
        else assign out (end_pos - num3)
               ((λ j, ((free !!! (end_new - 1)%nat) * Z.of_nat ps + Z.of_nat j)%Z) <$> seq 0 num3))
    out (seq 0 (length prefix_lens)).

(** [get_num_new_pages]. *)
Definition get_num_new_pages_extend (ps : nat) (seq_lens prefix_lens : list nat) : nat :=
  sum_list (zip_with (λ s p, npages ps s - npages ps p) seq_lens prefix_lens).
Definition get_num_new_pages_decode (ps : nat) (seq_lens : list nat) : nat :=
  sum_list ((λ s, if s mod ps =? 1 then 1 else 0) <$> seq_lens).

Definition next_power_of_2 (n : nat) : nat := if n =? 0 then 1 else 2 ^ Nat.log2_up n.

(** [PagedTokenToKVPoolAllocator.alloc_extend]; [out_init] is the content of
    [torch.empty]. *)
Definition alloc_extend (prefix_lens seq_lens : list nat) (last_loc : list Z) (extend_num_tokens : nat)
    (num_new_pages : option nat) (out_init : list Z) (a : KvAlloc) : option (list Z) * KvAlloc :=
  let bs := length prefix_lens in
  let a := if need_sort a && (length (free_pages a) <? extend_num_tokens / ps a + bs + 1)
           then merge_and_sort_free a else a in
  let out := launch (alloc_extend_kernel (next_power_of_2 bs) (ps a) prefix_lens seq_lens last_loc
                       (free_pages a)) bs out_init in
  let n := match num_new_pages with
           | Some n => n
           | None => get_num_new_pages_extend (ps a) seq_lens prefix_lens
           end in
  if length (free_pages a) <? n then (None, a)
  else (Some out, set_free (drop n (free_pages a)) (release_pages a) a).

Definition alloc_decode_kernel (bs_upper ps : nat) (seq_lens : list nat) (last_locs free : list Z)
    (pid : nat) : list (nat * Z) :=
  let seqs := masked_lanes bs_upper pid seq_lens in
  let pres := imap (λ i s, if i <=? pid then s - 1 else s) seqs in
  let seq_len := seq_lens !!! pid in
  let pre_len := seq_len - 1 in
  let new_self := npages ps seq_len - npages ps pre_len in
  let page_start := sum_list (zip_with (λ s p, npages ps s - npages ps p) seqs pres) - new_self in
  if new_self =? 0 then [(pid, ((last_locs !!! pid) + 1)%Z)]
  else [(pid, ((free !!! page_start) * Z.of_nat ps)%Z)].

Definition alloc_decode (seq_lens : list nat) (last_loc : list Z) (out_init : list Z) (a : KvAlloc)
    : option (list Z) * KvAlloc :=
  let bs := length seq_lens in
  let a := if need_sort a && (length (free_pages a) <? bs) then merge_and_sort_free a else a in
  let out := launch (alloc_decode_kernel (next_power_of_2 bs) (ps a) seq_lens last_loc (free_pages a))
               bs out_init in
  let n := get_num_new_pages_decode (ps a) seq_lens in
  if length (free_pages a) <? n then (None, a)
  else (Some out, set_free (drop n (free_pages a)) (release_pages a) a).
