(* ===== verification/AllocExtend.v ===== *)
(** * Correctness of batched allocation

    Every program of the kernel fills exactly its request's part of the output;
    together with the page bookkeeping this extends each request's row of pages,
    in the sense of [kv_row], with fresh pages. *)

From stdpp Require Import base tactics numbers list gmap sorting.
From Stdlib Require Import ZArith Lia ZifyNat.
From S2P Require Import Prelude RadixCache Allocator AllocFree AllocCorrect AllocKernel.

Global Opaque BLOCK_EXTEND.

(** ** Lists *)

Lemma filter_lt_seq k n : filter (λ i, i < k) (seq 0 n) = seq 0 (min k n).
Proof.
  induction n as [|n IH]; [by rewrite Nat.min_0_r|]. rewrite seq_S, filter_app, IH. cbn [plus].
  destruct (decide (n < k)) as [Hlt|Hge].
  - rewrite filter_cons_True, filter_nil by done. rewrite !Nat.min_r by lia. by rewrite seq_S.
  - rewrite filter_cons_False, filter_nil, app_nil_r by done. f_equal. lia.
Qed.

Lemma blocks_seq B n : (seq 0 n ≫= λ b, (λ o, b * B + o) <$> seq 0 B) = seq 0 (n * B).
Proof.
  induction n as [|n IH]; [done|]. rewrite seq_S, bind_app, IH. cbn [mbind list_bind plus].
  rewrite app_nil_r. replace (S n * B) with (n * B + B) by lia. rewrite seq_app. f_equal.
  cbn [plus]. clear IH. apply list_eq. intros i. rewrite list_lookup_fmap.
  destruct (decide (i < B)); [by rewrite !lookup_seq_lt by done|by rewrite !lookup_seq_ge by lia].
Qed.

Lemma sum_app l1 l2 : sum_list (l1 ++ l2) = sum_list l1 + sum_list l2.
Proof. unfold sum_list. induction l1; simpl; lia. Qed.

Lemma sum_take_S l i x : l !! i = Some x → sum_list (take (S i) l) = sum_list (take i l) + x.
Proof. intros Hi. rewrite (take_S_r l i x Hi), sum_app. simpl. lia. Qed.

Lemma sum_take_le l i : sum_list (take i l) ≤ sum_list l.
Proof. rewrite <-(take_drop i l) at 2. rewrite sum_app. lia. Qed.

Lemma masked_lanes_eq bs_upper pid l : pid < length l → S pid ≤ bs_upper →
  masked_lanes bs_upper pid l = take (S pid) l ++ replicate (bs_upper - S pid) 0.
Proof.
  intros Hpid Hbs. unfold masked_lanes. apply list_eq. intros i. rewrite list_lookup_fmap.
  destruct (decide (i < bs_upper)) as [Hi|Hi].
  - rewrite lookup_seq_lt by done. simpl. destruct (Nat.leb_spec i pid).
    + rewrite lookup_app_l, lookup_take_lt by (rewrite ?length_take; lia).
      symmetry. apply list_lookup_lookup_total_lt. lia.
    + rewrite lookup_app_r by (rewrite length_take; lia). rewrite length_take, Nat.min_l by lia.
      symmetry. apply lookup_replicate_2. lia.
  - rewrite lookup_seq_ge by lia. symmetry. apply lookup_ge_None_2.
    rewrite length_app, length_take, length_replicate. lia.
Qed.

Lemma masked_sum f bs_upper pid l1 l2 : f 0 0 = 0 → length l1 = length l2 → pid < length l1 → S pid ≤ bs_upper →
  sum_list (zip_with f (masked_lanes bs_upper pid l1) (masked_lanes bs_upper pid l2))
  = sum_list (take (S pid) (zip_with f l1 l2)).
Proof.
  intros Hf Hlen Hpid Hbs. rewrite !masked_lanes_eq by lia.
  rewrite zip_with_app by (rewrite !length_take; lia). rewrite sum_app, zip_with_take.
  assert (∀ n, sum_list (zip_with f (replicate n 0) (replicate n 0)) = 0) as ->; [|lia].
  induction n as [|n IH]; [done|]. cbn [replicate zip_with]. rewrite Hf. exact IH.
Qed.

(** ** Stores *)

Lemma assign_nil out s : assign out s [] = out.
Proof. unfold assign. cbn [length app]. by rewrite Nat.add_0_r, take_drop. Qed.

Lemma assign_app out s l1 l2 : s + length l1 ≤ length out →
  assign (assign out s l1) (s + length l1) l2 = assign out s (l1 ++ l2).
Proof.
  intros Hle. unfold assign.
  assert (length (take s out) = s) as Hs by (rewrite length_take; lia).
  rewrite (app_assoc (take s out) l1).
  rewrite take_app_length' by (rewrite length_app; lia).
  rewrite drop_app_ge by (rewrite length_app; lia). rewrite length_app, Hs, drop_drop, length_app, <-!app_assoc.
  do 4 f_equal. lia.
Qed.

Lemma apply_stores_seq out s (g : nat → Z) n : s + n ≤ length out →
  apply_stores out ((λ j, (s + j, g j)) <$> seq 0 n) = assign out s (g <$> seq 0 n).
Proof.
  intros Hle. unfold apply_stores. induction n as [|n IH]; [by rewrite assign_nil|].
  rewrite seq_S, !fmap_app, foldl_app, IH by lia. cbn [fmap list_fmap foldl plus].
  rewrite <-assign_app by (rewrite length_fmap, length_seq; lia). rewrite length_fmap, length_seq.
  set (o := assign out s (g <$> seq 0 n)).
  assert (length o = length out) as Ho.
  { unfold o, assign. rewrite !length_app, length_take, length_drop, length_fmap, length_seq. lia. }
  unfold assign. cbn [length app]. rewrite Nat.add_1_r. apply insert_take_drop. lia.
Qed.

Lemma length_assign out s l : s + length l ≤ length out → length (assign out s l) = length out.
Proof. intros. unfold assign. rewrite !length_app, length_take, length_drop. lia. Qed.

(** ** One request *)

Section Request.
Context (ps : nat) (Hps : 0 < ps).

Lemma npages_bounds n : n ≤ npages ps n * ps < n + ps.
Proof. unfold npages. pose proof (Nat.div_mod_eq (n + ps - 1) ps). pose proof (Nat.mod_upper_bound (n + ps - 1) ps). nia. Qed.

Lemma npages_mono a b : a ≤ b → npages ps a ≤ npages ps b.
Proof. intros. unfold npages. apply Nat.Div0.div_le_mono. lia. Qed.

Lemma npages_floor n : npages ps n = n / ps + (if n mod ps =? 0 then 0 else 1).
Proof.
  unfold npages. pose proof (Nat.div_mod_eq n ps). pose proof (Nat.mod_upper_bound n ps).
  destruct (Nat.eqb_spec (n mod ps) 0) as [Hz|Hz].
  - symmetry. apply (Nat.div_unique _ _ _ (ps - 1)); nia.
  - symmetry. apply (Nat.div_unique _ _ _ (n mod ps - 1)); nia.
Qed.

(** The slot of the [j]-th new token. *)
Definition ext_val (pre : nat) (last : Z) (free : list Z) (page_start j : nat) : Z :=
  let q := pre + j in
  if q <? npages ps pre * ps then (last + 1 + Z.of_nat j)%Z
  else ((free !!! (page_start + (q / ps - npages ps pre))%nat) * Z.of_nat ps + Z.of_nat (q mod ps)%nat)%Z.

(** The three parts of a request, as one run of stores. *)
Lemma request_parts {B} (mk : nat → Z → B) pre s last free page_start : pre ≤ s →
  let num1 := part1_len ps pre s in
  let num2 := s / ps * ps - npages ps pre * ps in
  let num3 := s - s / ps * ps in
  let p1 := (λ i, mk i (last + 1 + Z.of_nat i)%Z) <$> seq 0 num1 in
  let p2 := (λ off, mk (num1 + off) ((free !!! (page_start + off / ps)%nat) * Z.of_nat ps
                                     + Z.of_nat (off mod ps)%nat)%Z) <$> seq 0 num2 in
  let p3 := (λ i, mk (num1 + num2 + i)
               ((free !!! (page_start + (npages ps s - npages ps pre) - 1)%nat) * Z.of_nat ps
                + Z.of_nat i)%Z) <$> seq 0 num3 in
  (if pre + num1 =? s then p1 else if pre + num1 + num2 =? s then p1 ++ p2 else p1 ++ p2 ++ p3)
  = (λ j, mk j (ext_val pre last free page_start j)) <$> seq 0 (s - pre).
Proof.
  intros Hle num1 num2 num3 p1 p2 p3.
  pose proof (npages_bounds pre) as Hb. pose proof (Nat.div_mod_eq s ps) as Hs.
  pose proof (Nat.mod_upper_bound s ps ltac:(lia)) as Hm.
  assert (pre + num1 ≤ npages ps pre * ps) as Hn1 by (unfold num1, part1_len; lia).
  assert (p1 = (λ j, mk j (ext_val pre last free page_start j)) <$> seq 0 num1) as Hp1.
  { apply list_fmap_ext. intros i j Hj. apply lookup_seq in Hj as [-> Hj]. unfold ext_val.
    destruct (Nat.ltb_spec (pre + (0 + i)) (npages ps pre * ps)); [done|lia]. }
  assert (∀ k m, (λ j, mk j (ext_val pre last free page_start j)) <$> seq k m
    = (λ j, mk (k + j) (ext_val pre last free page_start (k + j))) <$> seq 0 m) as Hshift.
  { intros k m. apply list_eq. intros i. rewrite !list_lookup_fmap.
    destruct (decide (i < m)); [by rewrite !lookup_seq_lt by done|by rewrite !lookup_seq_ge by lia]. }
  destruct (Nat.eqb_spec (pre + num1) s) as [He1|He1]; [rewrite Hp1; do 2 f_equal; lia|].
  assert (npages ps pre * ps < s ∧ pre + num1 = npages ps pre * ps) as [Hlt Hn1'].
  { unfold num1, part1_len in *. lia. }
  assert (npages ps pre ≤ s / ps) as Hpp by (apply Nat.div_le_lower_bound; lia).
  assert (num2 = (s / ps - npages ps pre) * ps) as Hn2 by (unfold num2; nia).
  assert (p2 = (λ j, mk j (ext_val pre last free page_start j)) <$> seq num1 num2) as Hp2.
  { rewrite Hshift. apply list_fmap_ext. intros i j Hj. apply lookup_seq in Hj as [-> Hj]. cbn [plus].
    f_equal. unfold ext_val. destruct (Nat.ltb_spec (pre + (num1 + i)) (npages ps pre * ps)); [lia|].
    replace (pre + (num1 + i)) with (i + npages ps pre * ps) by lia.
    rewrite Nat.div_add, Nat.Div0.mod_add by lia. do 5 f_equal. lia. }
  destruct (Nat.eqb_spec (pre + num1 + num2) s) as [He2|He2].
  { rewrite Hp1, Hp2, <-fmap_app. replace (s - pre) with (num1 + num2) by lia. by rewrite seq_app. }
  assert (s mod ps ≠ 0) as Hs0 by nia.
  assert (p3 = (λ j, mk j (ext_val pre last free page_start j)) <$> seq (num1 + num2) num3) as Hp3.
  { rewrite Hshift. apply list_fmap_ext. intros i j Hj. apply lookup_seq in Hj as [-> Hj]. cbn [plus].
    f_equal. unfold ext_val. destruct (Nat.ltb_spec (pre + (num1 + num2 + i)) (npages ps pre * ps)); [lia|].
    replace (pre + (num1 + num2 + i)) with (i + s / ps * ps) by nia.
    assert (i < ps) by (unfold num3 in Hj; nia).
    rewrite Nat.div_add, Nat.Div0.mod_add, Nat.div_small, Nat.mod_small by lia.
    rewrite (npages_floor s). destruct (Nat.eqb_spec (s mod ps) 0); [done|].
    replace (page_start + (s / ps + 1 - npages ps pre) - 1) with (page_start + (0 + s / ps - npages ps pre)) by lia.
    done. }
  rewrite Hp1, Hp2, Hp3, <-!fmap_app.
  replace (s - pre) with (num1 + (num2 + num3)) by (unfold num3 in *; nia). by rewrite !seq_app.
Qed.
End Request.

(** ** A batch *)

Section Batch.
Context (ps : nat) (Hps : 0 < ps).
Context (pre_lens seq_lens : list nat) (last_locs free : list Z).
Context (Hle : Forall2 le pre_lens seq_lens).

Definition exts : list nat := zip_with Nat.sub seq_lens pre_lens.
Definition news : list nat := zip_with (λ s p, npages ps s - npages ps p) seq_lens pre_lens.
Definition out_start (i : nat) : nat := sum_list (take i exts).
Definition page_start (i : nat) : nat := sum_list (take i news).

(** The slots of request [i]. *)
Definition ref_slots (i : nat) : list Z :=
  ext_val ps (pre_lens !!! i) (last_locs !!! i) free (page_start i) <$> seq 0 (seq_lens !!! i - pre_lens !!! i).

Lemma batch_at i : i < length pre_lens →
  exts !! i = Some (seq_lens !!! i - pre_lens !!! i)
  ∧ news !! i = Some (npages ps (seq_lens !!! i) - npages ps (pre_lens !!! i))
  ∧ pre_lens !!! i ≤ seq_lens !!! i ∧ length seq_lens = length pre_lens.
Proof.
  intros Hi. pose proof (Forall2_length _ _ _ Hle) as Hlen.
  pose proof (list_lookup_lookup_total_lt pre_lens i Hi) as Hp.
  pose proof (list_lookup_lookup_total_lt seq_lens i ltac:(lia)) as Hs.
  split_and!; [..|done].
  - unfold exts. by rewrite lookup_zip_with, Hs, Hp.
  - unfold news. by rewrite lookup_zip_with, Hs, Hp.
  - by eapply (Forall2_lookup_lr _ _ _ i).
Qed.

Lemma out_start_S i : i < length pre_lens → out_start (S i) = out_start i + length (ref_slots i).
Proof.
  intros Hi. destruct (batch_at i Hi) as (He&_). unfold out_start. rewrite (sum_take_S _ _ _ He).
  unfold ref_slots. by rewrite length_fmap, length_seq.
Qed.

(** Running per-request slice writes one after the other. *)
Lemma run_requests (step : list Z → nat → list Z) bs out : bs ≤ length pre_lens → sum_list exts ≤ length out →
  (∀ o i, i < bs → length o = length out → step o i = assign o (out_start i) (ref_slots i)) →
  foldl step out (seq 0 bs) = assign out 0 (concat (ref_slots <$> seq 0 bs))
  ∧ length (concat (ref_slots <$> seq 0 bs)) = out_start bs.
Proof.
  intros Hbs Hout Hstep. induction bs as [|bs IH].
  { split; [by rewrite assign_nil|done]. }
  destruct IH as [IH Hlen]; [lia|by auto|]. rewrite seq_S, foldl_app, IH. cbn [foldl plus].
  rewrite fmap_app, concat_app. cbn [fmap list_fmap concat]. rewrite app_nil_r.
  pose proof (out_start_S bs ltac:(lia)) as HS.
  assert (out_start (S bs) ≤ length out) as Hb by (unfold out_start; etrans; [apply sum_take_le|done]).
  rewrite Hstep; [|lia|].
  - split; [|rewrite length_app, Hlen; lia].
    rewrite <-Hlen. by rewrite <-(assign_app out 0) by lia.
  - apply length_assign. lia.
Qed.

Lemma part1_lt pre s : part1_len ps pre s < ps.
Proof. unfold part1_len. pose proof (npages_bounds ps Hps pre). lia. Qed.

Lemma kernel_stores bs_upper pid : pid < length pre_lens → length pre_lens ≤ bs_upper →
  alloc_extend_kernel bs_upper ps pre_lens seq_lens last_locs free pid
  = (λ j, (out_start pid + j, ext_val ps (pre_lens !!! pid) (last_locs !!! pid) free (page_start pid) j))
      <$> seq 0 (seq_lens !!! pid - pre_lens !!! pid).
Proof.
  intros Hpid Hbs. destruct (batch_at pid Hpid) as (He&Hn&Hps_le&Hlen).
  rewrite <-(request_parts ps Hps (λ j v, (out_start pid + j, v)) (pre_lens !!! pid) (seq_lens !!! pid)
    (last_locs !!! pid) free (page_start pid) Hps_le).
  unfold alloc_extend_kernel. rewrite !masked_sum by (done || lia).
  fold exts news. rewrite (sum_take_S _ _ _ He), (sum_take_S _ _ _ Hn).
  fold (out_start pid) (page_start pid). rewrite !Nat.add_sub.
  set (s := seq_lens !!! pid). set (p := pre_lens !!! pid). set (n1 := part1_len ps p s).
  set (n2 := s / ps * ps - npages ps p * ps). set (n3 := s - s / ps * ps).
  rewrite blocks_seq, !filter_lt_seq.
  assert (min n1 ps = n1) as -> by (unfold n1; pose proof (part1_lt p s); lia).
  assert (min n3 ps = n3) as ->.
  { unfold n3. pose proof (Nat.div_mod_eq s ps). pose proof (Nat.mod_upper_bound s ps). nia. }
  assert (min n2 ((n2 + BLOCK_EXTEND - 1) / BLOCK_EXTEND * BLOCK_EXTEND) = n2) as ->.
  { assert (0 < BLOCK_EXTEND) as HB by (apply Nat.ltb_lt; reflexivity).
    pose proof (Nat.div_mod_eq (n2 + BLOCK_EXTEND - 1) BLOCK_EXTEND).
    pose proof (Nat.mod_upper_bound (n2 + BLOCK_EXTEND - 1) BLOCK_EXTEND). nia. }
  destruct (p + n1 =? s); [done|].
  assert (∀ f f' : nat → nat * Z, (∀ j, f j = f' j) → ∀ l, f <$> l = f' <$> l) as Hext
    by (intros f f' Hf l; apply list_fmap_ext; intros; apply Hf).
  destruct (p + n1 + n2 =? s).
  - f_equal. apply Hext. intros j. by rewrite Nat.add_assoc.
  - f_equal. f_equal; apply Hext; intros j; by rewrite !Nat.add_assoc.
Qed.

Lemma launch_extend bs_upper out : length pre_lens ≤ bs_upper → length out = sum_list exts →
  launch (alloc_extend_kernel bs_upper ps pre_lens seq_lens last_locs free) (length pre_lens) out
  = concat (ref_slots <$> seq 0 (length pre_lens)).
Proof.
  intros Hbs Hout. unfold launch.
  assert (out_start (length pre_lens) = sum_list exts) as Htot.
  { unfold out_start. rewrite take_ge; [done|]. unfold exts. rewrite length_zip_with. lia. }
  destruct (run_requests (λ o pid, apply_stores o
    (alloc_extend_kernel bs_upper ps pre_lens seq_lens last_locs free pid)) (length pre_lens) out) as [-> Hl];
    [lia|lia| |].
  - intros o i Hi Ho. rewrite kernel_stores by lia. apply apply_stores_seq.
    pose proof (out_start_S i Hi) as HS. unfold ref_slots in HS. rewrite length_fmap, length_seq in HS.
    assert (out_start (S i) ≤ sum_list exts) by (unfold out_start; apply sum_take_le). lia.
  - unfold assign. cbn [take app plus]. rewrite Hl, drop_ge by lia. by rewrite app_nil_r.
Qed.

(** The Python version writes the same slots. *)
Lemma naive_extend out : length out = sum_list exts → sum_list news ≤ length free →
  alloc_extend_naive ps pre_lens seq_lens last_locs free out
  = concat (ref_slots <$> seq 0 (length pre_lens)).
Proof.
  intros Hout Hfree. unfold alloc_extend_naive. fold exts news.
  assert (out_start (length pre_lens) = sum_list exts) as Htot.
  { unfold out_start. rewrite take_ge; [done|]. unfold exts. rewrite length_zip_with. lia. }
  match goal with |- foldl ?f _ _ = _ => destruct (run_requests f (length pre_lens) out) as [-> Hl]; [lia|lia| |] end.
  2:{ unfold assign. cbn [take app plus]. rewrite Hl, drop_ge by lia. by rewrite app_nil_r. }
  intros o i Hi Ho. destruct (batch_at i Hi) as (He&Hn&Hps_le&Hlen).
  rewrite !(sum_take_S _ _ _ He), !(sum_take_S _ _ _ Hn), !(list_lookup_total_correct _ _ _ He),
    !(list_lookup_total_correct _ _ _ Hn), !Nat.add_sub.
  fold (out_start i) (page_start i).
  pose proof (out_start_S i Hi) as HS. unfold ref_slots in HS. rewrite length_fmap, length_seq in HS.
  assert (out_start (S i) ≤ sum_list exts) as Hb by (unfold out_start; apply sum_take_le).
  assert (page_start i + (npages ps (seq_lens !!! i) - npages ps (pre_lens !!! i)) ≤ sum_list news) as Hpb.
  { unfold page_start. rewrite <-(sum_take_S _ _ _ Hn). apply sum_take_le. }
  unfold ref_slots. rewrite <-(request_parts ps Hps (λ _ v, v) _ _ _ free (page_start i) Hps_le).
  set (s := seq_lens !!! i) in *. set (p := pre_lens !!! i) in *. set (n1 := part1_len ps p s).
  assert (n1 ≤ s - p) as Hn1 by (unfold n1, part1_len; lia).
  set (v1 := (λ j, ((last_locs !!! i) + 1 + Z.of_nat j)%Z) <$> seq 0 n1).
  assert (length v1 = n1) as Hv1 by (unfold v1; by rewrite length_fmap, length_seq).
  assert ((if n1 =? 0 then o else assign o (out_start i) v1) = assign o (out_start i) v1) as ->.
  { destruct (Nat.eqb_spec n1 0) as [Hz|]; [|done]. rewrite (nil_length_inv v1) by lia. by rewrite assign_nil. }
  destruct (Nat.eqb_spec (p + n1) s) as [E1|E1]; [done|].
  pose proof (npages_bounds ps Hps p) as Hnb. pose proof (Nat.div_mod_eq s ps) as Hsd.
  pose proof (Nat.mod_upper_bound s ps ltac:(lia)) as Hsm.
  assert (npages ps p * ps < s ∧ p + n1 = npages ps p * ps) as [Hlt Hn1'] by (unfold n1, part1_len in *; lia).
  assert (npages ps p ≤ s / ps) as Hpp by (apply Nat.div_le_lower_bound; lia).
  rewrite <-Nat.mul_sub_distr_r. set (n2 := (s / ps - npages ps p) * ps).
  pose proof (npages_floor ps Hps s) as Hnf.
  set (v2 := pyslice free _ _ ≫= Paged.page_slots ps).
  set (w2 := (λ off, _) <$> seq 0 n2).
  assert (v2 = w2) as Hv2.
  { unfold v2, w2, n2. rewrite Hnf. set (k := s / ps - npages ps p).
    replace (page_start i + _ - _) with (page_start i + k) by (unfold k; destruct (s mod ps =? 0); lia).
    assert (page_start i + k ≤ length free) as Hk by (unfold k; rewrite Hnf in Hpb; lia).
    clear -Hk Hps. clearbody k. unfold pyslice. replace (page_start i + k - page_start i) with k by lia.
    induction k as [|k IH]; [done|].
    rewrite (take_S_r _ k (free !!! (page_start i + k))); cycle 1.
    { rewrite lookup_drop. apply list_lookup_lookup_total_lt. lia. }
    rewrite bind_app, IH by lia. cbn [mbind list_bind]. rewrite app_nil_r.
    replace (S k * ps) with (k * ps + ps) by lia. rewrite seq_app, fmap_app. f_equal. cbn [plus].
    unfold Paged.page_slots. apply list_eq. intros j. rewrite !list_lookup_fmap.
    destruct (decide (j < ps)) as [Hj|Hj]; [|by rewrite !lookup_seq_ge by lia].
    rewrite !lookup_seq_lt by done. simpl. f_equal. rewrite (Nat.add_comm (k * ps)).
    rewrite Nat.div_add, Nat.Div0.mod_add, Nat.div_small, Nat.mod_small by lia. done. }
  rewrite Hv2. clear Hv2 v2.
  assert (length w2 = n2) as Hw2 by (unfold w2; by rewrite length_fmap, length_seq).
  assert (n1 + n2 ≤ s - p) as Hn12 by (unfold n2; nia).
  assert ((if n2 =? 0 then assign o (out_start i) v1 else assign (assign o (out_start i) v1) (out_start i + n1) w2)
    = assign o (out_start i) (v1 ++ w2)) as ->.
  { rewrite <-assign_app, Hv1 by lia. destruct (Nat.eqb_spec n2 0) as [Hz|]; [|done].
    rewrite (nil_length_inv w2) by lia. by rewrite assign_nil. }
  destruct (Nat.eqb_spec (p + n1 + n2) s) as [E2|E2]; [done|].
  assert (s mod ps ≠ 0) as Hs0 by (unfold n2 in E2; nia).
  destruct (Nat.eqb_spec (s - s / ps * ps) 0) as [|_]; [lia|].
  set (v3 := (λ j, _) <$> seq 0 (s - s / ps * ps)).
  assert (length v3 = s - s / ps * ps) as Hv3 by (unfold v3; by rewrite length_fmap, length_seq).
  rewrite (app_assoc v1). rewrite <-(assign_app o (out_start i) (v1 ++ w2)) by (rewrite length_app; lia).
  rewrite length_app, Hv1, Hw2. f_equal. unfold n2. nia.
Qed.
End Batch.

(** ** Rows grow by whole pages *)

Lemma news_bound ps pre_lens seq_lens : 0 < ps → Forall2 le pre_lens seq_lens →
  sum_list (news ps pre_lens seq_lens)
  ≤ sum_list (exts pre_lens seq_lens) / ps + length pre_lens.
Proof.
  intros Hps Hle.
  assert (sum_list (news ps pre_lens seq_lens) * ps
    ≤ sum_list (exts pre_lens seq_lens) + length pre_lens * (ps - 1)) as Hb.
  { unfold news, exts. induction Hle as [|p s pre seqs Hps_le Hrest IH]; [done|].
    cbn [zip_with length]. unfold sum_list in *. cbn [foldr].
    pose proof (npages_bounds ps Hps p). pose proof (npages_bounds ps Hps s).
    pose proof (npages_mono ps Hps p s Hps_le). nia. }
  pose proof (Nat.div_mod_eq (sum_list (exts pre_lens seq_lens)) ps) as Hdm.
  pose proof (Nat.mod_upper_bound (sum_list (exts pre_lens seq_lens)) ps).
  destruct (decide (sum_list (news ps pre_lens seq_lens)
    ≤ sum_list (exts pre_lens seq_lens) / ps + length pre_lens)); [done|nia].
Qed.

Section Rows.
Context (ps : nat) (Hps : 0 < ps).
Context (pre_lens seq_lens : list nat) (last_locs free : list Z) (rows : list (list Z)).
Context (Hle : Forall2 le pre_lens seq_lens).
(** Each request's row has the pages of its prefix, and [last_loc] is the slot of
    its last token. *)
Context (Hrows : ∀ i, i < length pre_lens → length (rows !!! i) = npages ps (pre_lens !!! i)
  ∧ (0 < pre_lens !!! i → last_locs !!! i = row_slot ps (rows !!! i) (pre_lens !!! i - 1))).
Context (Hfree : sum_list (news ps pre_lens seq_lens) ≤ length free).

Definition new_pages (i : nat) : list Z :=
  pyslice free (page_start ps pre_lens seq_lens i)
    (page_start ps pre_lens seq_lens i + (npages ps (seq_lens !!! i) - npages ps (pre_lens !!! i))).

Lemma length_new_pages i : i < length pre_lens →
  length (new_pages i) = npages ps (seq_lens !!! i) - npages ps (pre_lens !!! i).
Proof.
  intros Hi. destruct (batch_at ps Hps pre_lens seq_lens Hle i Hi) as (_&Hn&_).
  unfold new_pages. rewrite length_pyslice.
  assert (page_start ps pre_lens seq_lens i + (npages ps (seq_lens !!! i) - npages ps (pre_lens !!! i))
    ≤ sum_list (news ps pre_lens seq_lens)); [|lia].
  unfold page_start. rewrite <-(sum_take_S _ _ _ Hn). apply sum_take_le.
Qed.

Lemma ref_slots_row i : i < length pre_lens →
  ref_slots ps pre_lens seq_lens last_locs free i
  = kv_row ps (rows !!! i ++ new_pages i) (pre_lens !!! i) (seq_lens !!! i - pre_lens !!! i).
Proof.
  intros Hi. destruct (Hrows i Hi) as [Hlen Hlast]. pose proof (length_new_pages i Hi) as Hnl.
  destruct (batch_at ps Hps pre_lens seq_lens Hle i Hi) as (_&Hn&Hple&_).
  unfold ref_slots, kv_row. set (p := pre_lens !!! i) in *. set (s := seq_lens !!! i) in *.
  apply list_eq. intros j. rewrite !list_lookup_fmap.
  destruct (decide (j < s - p)) as [Hj|Hj]; [|by rewrite !lookup_seq_ge by lia].
  rewrite !lookup_seq_lt by done. simpl. f_equal. unfold ext_val, row_slot.
  pose proof (npages_bounds ps Hps p) as Hb. pose proof (npages_bounds ps Hps s) as Hbs.
  destruct (Nat.ltb_spec (p + j) (npages ps p * ps)) as [Hlt|Hge].
  - assert (0 < p) as Hp0 by (destruct (Nat.eq_0_gt_0_cases p) as [Hz|]; [|done];
      rewrite Hz in Hlt; unfold npages in Hlt; rewrite Nat.div_small in Hlt; lia). rewrite Hlast by done. unfold row_slot.
    assert ((p - 1) / ps = npages ps p - 1) as Hd1.
    { symmetry. apply (Nat.div_unique _ _ _ (p - 1 - (npages ps p - 1) * ps)); nia. }
    assert ((p + j) / ps = npages ps p - 1) as Hd2.
    { symmetry. apply (Nat.div_unique _ _ _ (p + j - (npages ps p - 1) * ps)); nia. }
    assert (0 < npages ps p) by nia. rewrite Hd1, Hd2, lookup_total_app_l by lia.
    pose proof (Nat.div_mod_eq (p - 1) ps) as M1. pose proof (Nat.div_mod_eq (p + j) ps) as M2.
    rewrite Hd1 in M1. rewrite Hd2 in M2. nia.
  - assert (npages ps p ≤ (p + j) / ps) as Hq by (apply Nat.div_le_lower_bound; lia).
    assert ((p + j) / ps < npages ps s) as Hq2 by (apply Nat.Div0.div_lt_upper_bound; nia).
    rewrite lookup_total_app_r by lia. rewrite Hlen. do 2 f_equal. unfold new_pages, pyslice.
    symmetry. apply list_lookup_total_correct. rewrite lookup_take_lt by (fold p s; lia). rewrite lookup_drop.
    apply list_lookup_lookup_total_lt.
    assert (page_start ps pre_lens seq_lens i + (npages ps s - npages ps p)
      ≤ sum_list (news ps pre_lens seq_lens)); [|lia].
    unfold page_start. rewrite <-(sum_take_S _ _ _ Hn). apply sum_take_le.
Qed.

(** The new pages of the batch are the first pages of the free list. *)
Lemma concat_new_pages n : n ≤ length pre_lens →
  concat (new_pages <$> seq 0 n) = take (page_start ps pre_lens seq_lens n) free.
Proof.
  intros Hn. induction n as [|n IH]; [done|].
  rewrite seq_S, fmap_app, concat_app, IH by lia. cbn [fmap list_fmap concat plus]. rewrite app_nil_r.
  destruct (batch_at ps Hps pre_lens seq_lens Hle n ltac:(lia)) as (_&Hnn&_).
  unfold page_start at 2. rewrite (sum_take_S _ _ _ Hnn).
  fold (page_start ps pre_lens seq_lens n). unfold new_pages, pyslice.
  set (a := page_start ps pre_lens seq_lens n). set (k := npages ps (seq_lens !!! n) - npages ps (pre_lens !!! n)).
  replace (a + k - a) with k by lia. rewrite take_take_drop. done.
Qed.

End Rows.

Lemma next_power_of_2_ge n : n ≤ next_power_of_2 n.
Proof.
  unfold next_power_of_2. destruct (Nat.eqb_spec n 0); [lia|].
  destruct (decide (n = 1)) as [->|]; [done|]. apply Nat.log2_log2_up_spec. lia.
Qed.

(** C24: the Triton kernel and the Python loop compute the same slots for a batch
    (the output and the free list being long enough). *)
Theorem alloc_extend_kernel_is_naive (ps : nat) (pre_lens seq_lens : list nat) (last_locs free out : list Z)
    (Hps : 0 < ps) (Hle : Forall2 le pre_lens seq_lens)
    (Hout : length out = sum_list (zip_with Nat.sub seq_lens pre_lens))
    (Hfree : get_num_new_pages_extend ps seq_lens pre_lens ≤ length free) :
  launch (alloc_extend_kernel (next_power_of_2 (length pre_lens)) ps pre_lens seq_lens last_locs free)
    (length pre_lens) out
  = alloc_extend_naive ps pre_lens seq_lens last_locs free out.
Proof.
  rewrite launch_extend by (done || apply next_power_of_2_ge). by rewrite naive_extend.
Qed.

Lemma alloc_extend_kernel_is_naive_witness :
  launch (alloc_extend_kernel (next_power_of_2 3) 4 [6; 0; 8] [15; 3; 9] [21; -1; 35]%Z [11; 12; 13; 14]%Z)
    3 (replicate 13 0%Z) = [22; 23; 44; 45; 46; 47; 48; 49; 50; 52; 53; 54; 56]%Z.
Proof.
  change (launch (alloc_extend_kernel (next_power_of_2 (length [6; 0; 8])) 4 [6; 0; 8] [15; 3; 9]
    [21; -1; 35]%Z [11; 12; 13; 14]%Z) (length [6; 0; 8]) (replicate 13 0%Z)
    = [22; 23; 44; 45; 46; 47; 48; 49; 50; 52; 53; 54; 56]%Z).
  rewrite (alloc_extend_kernel_is_naive 4 [6; 0; 8] [15; 3; 9] [21; -1; 35]%Z [11; 12; 13; 14]%Z (replicate 13 0%Z));
    [reflexivity|lia|repeat constructor; lia|reflexivity|vm_compute; lia].
Defined.

(** The caller may pass the number of new pages it has computed already. *)
Lemma alloc_extend_rows (a : KvAlloc) (pre_lens seq_lens : list nat) (last_locs out_init : list Z)
    (rows : list (list Z)) (num_new : option nat) :
  alloc_inv a → 0 < ps a → Forall2 le pre_lens seq_lens →
  (∀ i, i < length pre_lens → length (rows !!! i) = npages (ps a) (pre_lens !!! i)
     ∧ (0 < pre_lens !!! i → last_locs !!! i = row_slot (ps a) (rows !!! i) (pre_lens !!! i - 1))) →
  length out_init = sum_list (zip_with Nat.sub seq_lens pre_lens) →
  (∀ n, num_new = Some n → n = get_num_new_pages_extend (ps a) seq_lens pre_lens) →
  let n := get_num_new_pages_extend (ps a) seq_lens pre_lens in
  if length (held a) <? n
  then ∃ a', alloc_extend pre_lens seq_lens last_locs (length out_init) num_new out_init a = (None, a')
    ∧ held a' ≡ₚ held a ∧ alloc_inv a' ∧ same_pool a a'
  else ∃ (fresh : nat → list Z) a',
    alloc_extend pre_lens seq_lens last_locs (length out_init) num_new out_init a
      = (Some (concat ((λ i, kv_row (ps a) (rows !!! i ++ fresh i) (pre_lens !!! i)
                              (seq_lens !!! i - pre_lens !!! i)) <$> seq 0 (length pre_lens))), a')
    ∧ held a ≡ₚ concat (fresh <$> seq 0 (length pre_lens)) ++ held a' ∧ alloc_inv a' ∧ same_pool a a'
    ∧ (∀ i, i < length pre_lens →
         length (fresh i) = npages (ps a) (seq_lens !!! i) - npages (ps a) (pre_lens !!! i)).
Proof.
  intros Hinv Hps Hle Hrows Hout Hnum n.
  pose proof (news_bound (ps a) pre_lens seq_lens Hps Hle) as Hnb.
  change (sum_list (news (ps a) pre_lens seq_lens)) with n in Hnb.
  change (sum_list (exts pre_lens seq_lens)) with (sum_list (zip_with Nat.sub seq_lens pre_lens)) in Hnb.
  rewrite <-Hout in Hnb.
  destruct (merged_for_spec (length out_init / ps a + length pre_lens + 1) a Hinv) as (Hs&Hh&Hi&Hlen).
  unfold alloc_extend. fold (merged_for (length out_init / ps a + length pre_lens + 1) a).
  set (a1 := merged_for _ a) in *. rewrite (proj1 Hs).
  replace (match num_new with Some n => n | None => _ end) with n by (destruct num_new; [by rewrite (Hnum _ eq_refl)|done]).
  assert (length (free_pages a1) ≤ length (held a)) by (rewrite <-Hh; unfold held; rewrite length_app; lia).
  destruct (Nat.ltb_spec (length (held a)) n) as [Hlt|Hge].
  { destruct (Nat.ltb_spec (length (free_pages a1)) n); [|lia]. by exists a1. }
  destruct (Nat.ltb_spec (length (free_pages a1)) n) as [|Hfree]; [lia|].
  destruct (without_front_spec n a1 Hi) as (Hw&Hwi&Hws). fold (without_front n a1).
  exists (new_pages (ps a) pre_lens seq_lens (free_pages a1)), (without_front n a1).
  assert (page_start (ps a) pre_lens seq_lens (length pre_lens) = n) as Hpn.
  { unfold page_start. rewrite take_ge; [done|]. unfold news. rewrite length_zip_with. lia. }
  split_and!; [|by rewrite concat_new_pages, Hpn, <-Hw|done|by etrans|].
  - rewrite launch_extend by (done || apply next_power_of_2_ge). do 3 f_equal.
    apply list_fmap_ext. intros i j Hj. apply lookup_seq in Hj as [-> Hj]. by apply ref_slots_row.
  - intros i Hi'. by rewrite length_new_pages.
Qed.

(** A successful [alloc_extend] appends fresh pages to the row of each
    request so that its new tokens occupy consecutive positions of that row; the
    pages handed out are distinct pages of the pool that leave the free lists,
    and the call fails only when the pool holds fewer pages than are needed. *)
Theorem alloc_extend_grows_rows (a : KvAlloc) (pre_lens seq_lens : list nat) (last_locs out_init : list Z)
    (rows : list (list Z)) (Hinv : alloc_inv a) (Hps : 0 < ps a) (Hle : Forall2 le pre_lens seq_lens)
    (Hrows : ∀ i, i < length pre_lens → length (rows !!! i) = npages (ps a) (pre_lens !!! i)
       ∧ (0 < pre_lens !!! i → last_locs !!! i = row_slot (ps a) (rows !!! i) (pre_lens !!! i - 1)))
    (Hout : length out_init = sum_list (zip_with Nat.sub seq_lens pre_lens)) :
  match alloc_extend pre_lens seq_lens last_locs (length out_init) None out_init a with
  | (None, a') => length (held a) < get_num_new_pages_extend (ps a) seq_lens pre_lens
      ∧ held a' ≡ₚ held a ∧ alloc_inv a'
  | (Some out, a') => ∃ fresh : nat → list Z,
      held a ≡ₚ concat (fresh <$> seq 0 (length pre_lens)) ++ held a' ∧ alloc_inv a'
      ∧ out = concat ((λ i, kv_row (ps a) (rows !!! i ++ fresh i) (pre_lens !!! i)
                              (seq_lens !!! i - pre_lens !!! i)) <$> seq 0 (length pre_lens))
  end.
Proof.
  pose proof (alloc_extend_rows a pre_lens seq_lens last_locs out_init rows None Hinv Hps Hle Hrows Hout ltac:(done)) as H.
  cbv zeta in H. destruct (Nat.ltb_spec (length (held a)) (get_num_new_pages_extend (ps a) seq_lens pre_lens)).
  - destruct H as (a'&->&?&?&_). done.
  - destruct H as (fresh&a'&->&?&?&_). by exists fresh.
Qed.

Lemma alloc_extend_grows_rows_witness :
  match alloc_extend [2] [7] [17]%Z 5 None (replicate 5 0%Z) (Paged.init 40 4 false) with
  | (None, _) => False
  | (Some out, a') => ∃ fresh : nat → list Z,
      held (Paged.init 40 4 false) ≡ₚ concat (fresh <$> seq 0 1) ++ held a'
      ∧ out = concat ((λ i, kv_row 4 ([[4]]%Z !!! i ++ fresh i) ([2] !!! i) (([7] !!! i) - ([2] !!! i))) <$> seq 0 1)
  end.
Proof.
  pose proof (alloc_extend_grows_rows (Paged.init 40 4 false) [2] [7] [17]%Z (replicate 5 0%Z) [[4]]%Z
    (paged_init_inv 40 4 false) ltac:(simpl; lia) ltac:(repeat constructor; lia)
    ltac:(intros [|i] Hi; [by vm_compute|simpl in Hi; lia]) eq_refl) as H.
  change (length (replicate 5 0%Z)) with 5 in H.
  destruct (alloc_extend [2] [7] [17]%Z 5 None (replicate 5 0%Z) (Paged.init 40 4 false)) as [[out|] a'] eqn:E.
  - destruct H as (fresh&?&_&?). by exists fresh.
  - exfalso. vm_compute in E. discriminate.
Defined.

(** ** Decoding: one token per request *)

Section Decode.
Context (ps : nat) (Hps : 1 < ps).

Lemma npages_pred s : 0 < s → npages ps s - npages ps (s - 1) = if s mod ps =? 1 then 1 else 0.
Proof.
  intros Hs. rewrite !npages_floor by lia.
  assert (∃ d r, s = ps * d + r ∧ r < ps) as (d&r&->&Hr).
  { exists (s / ps), (s mod ps). split; [apply Nat.div_mod_eq|apply Nat.mod_upper_bound; lia]. }
  rewrite <-(Nat.div_unique (ps * d + r) ps d r), <-(Nat.mod_unique (ps * d + r) ps d r) by done.
  destruct r as [|r]; cbn [Nat.eqb].
  - destruct d as [|d]; [lia|]. assert (ps * S d + 0 - 1 = ps * d + (ps - 1)) as -> by (rewrite Nat.mul_succ_r; lia).
    rewrite <-(Nat.div_unique (ps * d + (ps - 1)) ps d (ps - 1)), <-(Nat.mod_unique (ps * d + (ps - 1)) ps d (ps - 1))
      by (done || lia).
    destruct (Nat.eqb_spec (ps - 1) 0); lia.
  - replace (ps * d + S r - 1) with (ps * d + r) by lia.
    rewrite <-(Nat.div_unique (ps * d + r) ps d r), <-(Nat.mod_unique (ps * d + r) ps d r) by (done || lia).
    destruct r; cbn [Nat.eqb]; lia.
Qed.

Context (seq_lens : list nat) (Hpos : Forall (λ s, 0 < s) seq_lens).
Abbreviation preds := (pred <$> seq_lens).

Lemma preds_le : Forall2 le preds seq_lens.
Proof. clear Hpos. induction seq_lens; constructor; [lia|done]. Qed.

Lemma decode_lens i : i < length seq_lens →
  0 < seq_lens !!! i ∧ preds !!! i = seq_lens !!! i - 1 ∧ exts preds seq_lens !! i = Some 1
  ∧ length preds = length seq_lens.
Proof.
  intros Hi. pose proof (list_lookup_lookup_total_lt seq_lens i Hi) as Hs.
  pose proof (Forall_lookup_1 _ _ _ _ Hpos Hs) as H0. simpl in H0.
  assert (preds !!! i = seq_lens !!! i - 1) as Hp.
  { apply list_lookup_total_correct. rewrite list_lookup_fmap, Hs. simpl. f_equal. lia. }
  split_and!; [done|done| |by rewrite length_fmap].
  unfold exts. rewrite lookup_zip_with, list_lookup_fmap, Hs. simpl. f_equal. lia.
Qed.

Lemma decode_out_start i : i ≤ length seq_lens → out_start preds seq_lens i = i.
Proof.
  intros Hi. unfold out_start. induction i as [|i IH]; [done|].
  destruct (decode_lens i ltac:(lia)) as (_&_&He&_). rewrite (sum_take_S _ _ _ He), IH by lia. lia.
Qed.

Lemma sum_decode_exts : sum_list (exts preds seq_lens) = length seq_lens.
Proof.
  rewrite <-(decode_out_start (length seq_lens)) by lia. unfold out_start. rewrite take_ge; [done|].
  unfold exts. rewrite length_zip_with. lia.
Qed.

Lemma decode_count : get_num_new_pages_decode ps seq_lens = get_num_new_pages_extend ps seq_lens preds.
Proof.
  unfold get_num_new_pages_decode, get_num_new_pages_extend. f_equal. clear -Hpos Hps.
  induction seq_lens as [|s l IH]; [done|]. apply Forall_cons in Hpos as [Hs Hl].
  cbn [fmap list_fmap zip_with]. rewrite IH by done. f_equal.
  rewrite <-npages_pred by done. by rewrite Nat.sub_1_r.
Qed.

Lemma decode_stores bs_upper last_locs free pid : pid < length seq_lens → length seq_lens ≤ bs_upper →
  alloc_decode_kernel bs_upper ps seq_lens last_locs free pid
  = (λ j, (out_start preds seq_lens pid + j,
       ext_val ps (preds !!! pid) (last_locs !!! pid) free (page_start ps preds seq_lens pid) j))
      <$> seq 0 (seq_lens !!! pid - preds !!! pid).
Proof.
  intros Hpid Hbs. destruct (decode_lens pid Hpid) as (H0&Hp&He&Hlen).
  destruct (batch_at ps ltac:(lia) preds seq_lens preds_le pid ltac:(lia)) as (_&Hn&_).
  rewrite Hp. replace (seq_lens !!! pid - (seq_lens !!! pid - 1)) with 1 by lia. cbn [seq fmap list_fmap].
  rewrite decode_out_start, Nat.add_0_r by lia.
  unfold alloc_decode_kernel.
  assert (imap (λ i s, if i <=? pid then s - 1 else s) (masked_lanes bs_upper pid seq_lens)
    = masked_lanes bs_upper pid preds) as ->.
  { unfold masked_lanes. apply list_eq. intros i. rewrite list_lookup_imap, !list_lookup_fmap.
    destruct (decide (i < bs_upper)) as [Hi|Hi]; [|by rewrite !lookup_seq_ge by lia].
    rewrite !lookup_seq_lt by done. simpl. destruct (Nat.leb_spec i pid); [|done].
    destruct (decode_lens i ltac:(lia)) as (_&->&_). done. }
  rewrite masked_sum by (done || lia). fold (news ps preds seq_lens).
  rewrite (sum_take_S _ _ _ Hn), Hp. fold (page_start ps preds seq_lens pid). rewrite Nat.add_sub.
  set (s := seq_lens !!! pid) in *. unfold ext_val. rewrite Nat.add_0_r.
  pose proof (npages_floor ps ltac:(lia) (s - 1)) as Hf. pose proof (Nat.div_mod_eq (s - 1) ps) as Hd.
  pose proof (Nat.mod_upper_bound (s - 1) ps ltac:(lia)) as Hm.
  assert ((npages ps s - npages ps (s - 1) =? 0) = (s - 1 <? npages ps (s - 1) * ps)) as Hcase.
  { pose proof (npages_floor ps ltac:(lia) s) as Hfs.
    pose proof (npages_bounds ps ltac:(lia) s). pose proof (npages_bounds ps ltac:(lia) (s - 1)).
    destruct (Nat.ltb_spec (s - 1) (npages ps (s - 1) * ps)) as [Hlt|Hge].
    - apply Nat.eqb_eq. assert (npages ps s ≤ npages ps (s - 1)); [|lia].
      apply Nat.lt_succ_r, (Nat.mul_lt_mono_pos_r ps); [lia|]. rewrite Nat.mul_succ_l. lia.
    - apply Nat.eqb_neq. assert (npages ps (s - 1) < npages ps s); [|lia].
      apply (Nat.mul_lt_mono_pos_r ps); lia. }
  rewrite Hcase. destruct (Nat.ltb_spec (s - 1) (npages ps (s - 1) * ps)) as [Hlt|Hge].
  - cbn [Z.of_nat]. by rewrite Z.add_0_r.
  - assert ((s - 1) mod ps = 0) as Hz.
    { destruct (Nat.eqb_spec ((s - 1) mod ps) 0); [done|]. nia. }
    rewrite Hz in Hf |- *. cbn [Nat.eqb] in Hf. rewrite Hf, Nat.add_0_r, Nat.sub_diag, !Nat.add_0_r.
    cbn [Z.of_nat]. by rewrite Z.add_0_r.
Qed.

Lemma launch_decode bs_upper last_locs free out : length seq_lens ≤ bs_upper → length out = length seq_lens →
  launch (alloc_decode_kernel bs_upper ps seq_lens last_locs free) (length seq_lens) out
  = concat (ref_slots ps preds seq_lens last_locs free <$> seq 0 (length seq_lens)).
Proof.
  intros Hbs Hout. unfold launch. pose proof sum_decode_exts as Hsum.
  assert (length preds = length seq_lens) as Hlp by by rewrite length_fmap.
  destruct (run_requests ps ltac:(lia) preds seq_lens last_locs free preds_le (λ o pid, apply_stores o
    (alloc_decode_kernel bs_upper ps seq_lens last_locs free pid)) (length seq_lens) out) as [-> Hl];
    [lia|lia| |].
  - intros o i Hi Ho. rewrite decode_stores by lia. apply apply_stores_seq.
    destruct (decode_lens i Hi) as (?&->&_). rewrite decode_out_start; lia.
  - unfold assign. cbn [take app plus]. rewrite Hl, decode_out_start, drop_ge by lia. by rewrite app_nil_r.
Qed.
End Decode.

(** A decoded token is one slot of its row. *)
Lemma decode_ref_slots (ps : nat) (seq_lens : list nat) (last_locs free : list Z) (rows : list (list Z)) :
  1 < ps → Forall (λ s, 0 < s) seq_lens →
  (∀ i, i < length seq_lens → length (rows !!! i) = npages ps (seq_lens !!! i - 1)
     ∧ (1 < seq_lens !!! i → last_locs !!! i = row_slot ps (rows !!! i) (seq_lens !!! i - 2))) →
  get_num_new_pages_extend ps seq_lens (pred <$> seq_lens) ≤ length free →
  concat (ref_slots ps (pred <$> seq_lens) seq_lens last_locs free <$> seq 0 (length seq_lens))
  = (λ i, row_slot ps (rows !!! i ++ new_pages ps (pred <$> seq_lens) seq_lens free i) (seq_lens !!! i - 1))
      <$> seq 0 (length seq_lens).
Proof.
  intros Hps Hpos Hrows Hfree. set (pres := pred <$> seq_lens).
  assert (length pres = length seq_lens) as Hlp by (unfold pres; by rewrite length_fmap).
  assert (∀ i, i < length seq_lens → 0 < seq_lens !!! i ∧ pres !!! i = seq_lens !!! i - 1) as Hpre.
  { intros i Hi. destruct (decode_lens ps Hps seq_lens Hpos i Hi) as (?&?&_). done. }
  pose proof (preds_le ps Hps seq_lens) as Hle. fold pres in Hle.
  trans (concat ((λ i, [row_slot ps (rows !!! i ++ new_pages ps pres seq_lens free i)
    (seq_lens !!! i - 1)]) <$> seq 0 (length seq_lens))).
  - f_equal. apply list_fmap_ext. intros i j Hj. apply lookup_seq in Hj as [-> Hj]. cbn [plus].
    destruct (Hpre i Hj) as [H0 Hpi]. rewrite (ref_slots_row ps ltac:(lia) pres seq_lens last_locs _ rows); try done; try lia.
    + rewrite Hpi. replace (seq_lens !!! i - (seq_lens !!! i - 1)) with 1 by lia. done.
    + intros k Hk. destruct (Hpre k ltac:(lia)) as [Hk0 Hkp]. destruct (Hrows k ltac:(lia)) as [Hr1 Hr2].
      rewrite Hkp. split; [done|]. intros Hk1. rewrite Hr2 by lia. f_equal. lia.
  - generalize (seq 0 (length seq_lens)). intros l. induction l as [|x l IH]; [done|]. cbn [fmap list_fmap concat app]. by f_equal.
Qed.

Lemma alloc_decode_rows (a : KvAlloc) (seq_lens : list nat) (last_locs out_init : list Z) (rows : list (list Z)) :
  alloc_inv a → 1 < ps a → Forall (λ s, 0 < s) seq_lens →
  (∀ i, i < length seq_lens → length (rows !!! i) = npages (ps a) (seq_lens !!! i - 1)
     ∧ (1 < seq_lens !!! i → last_locs !!! i = row_slot (ps a) (rows !!! i) (seq_lens !!! i - 2))) →
  length out_init = length seq_lens →
  let n := get_num_new_pages_decode (ps a) seq_lens in
  if length (held a) <? n
  then ∃ a', alloc_decode seq_lens last_locs out_init a = (None, a')
    ∧ held a' ≡ₚ held a ∧ alloc_inv a' ∧ same_pool a a'
  else ∃ (fresh : nat → list Z) a',
    alloc_decode seq_lens last_locs out_init a
      = (Some ((λ i, row_slot (ps a) (rows !!! i ++ fresh i) (seq_lens !!! i - 1)) <$> seq 0 (length seq_lens)), a')
    ∧ held a ≡ₚ concat (fresh <$> seq 0 (length seq_lens)) ++ held a' ∧ alloc_inv a' ∧ same_pool a a'
    ∧ (∀ i, i < length seq_lens → length (fresh i) = if (seq_lens !!! i) mod ps a =? 1 then 1 else 0).
Proof.
  intros Hinv Hps Hpos Hrows Hout n.
  destruct (merged_for_spec (length seq_lens) a Hinv) as (Hs&Hh&Hi&Hlen).
  unfold alloc_decode. fold (merged_for (length seq_lens) a). set (a1 := merged_for _ a) in *. rewrite (proj1 Hs).
  set (pres := pred <$> seq_lens). assert (length pres = length seq_lens) as Hlp by (unfold pres; by rewrite length_fmap).
  assert (n ≤ length seq_lens) as Hn.
  { unfold n, get_num_new_pages_decode. clear. induction seq_lens as [|s l IH]; [done|].
    unfold sum_list in *. cbn [fmap list_fmap foldr length]. destruct (s mod ps a =? 1); lia. }
  assert (n = get_num_new_pages_extend (ps a) seq_lens pres) as Hnp by (unfold n, pres; by apply decode_count).
  pose proof (preds_le (ps a) Hps seq_lens) as Hle. fold pres in Hle. fold n.
  assert (length (free_pages a1) ≤ length (held a)) by (rewrite <-Hh; unfold held; rewrite length_app; lia).
  destruct (Nat.ltb_spec (length (held a)) n) as [Hlt|Hge].
  { destruct (Nat.ltb_spec (length (free_pages a1)) n); [|lia]. by exists a1. }
  destruct (Nat.ltb_spec (length (free_pages a1)) n) as [|Hfree]; [lia|]. rewrite Hnp in Hfree.
  destruct (without_front_spec n a1 Hi) as (Hw&Hwi&Hws). fold (without_front n a1).
  exists (new_pages (ps a) pres seq_lens (free_pages a1)), (without_front n a1).
  assert (page_start (ps a) pres seq_lens (length seq_lens) = n) as Hpn.
  { unfold page_start. rewrite take_ge; [done|]. unfold news. rewrite length_zip_with. lia. }
  split_and!; [|by rewrite concat_new_pages, Hpn, <-Hw by (done || lia)|done|by etrans|].
  - rewrite launch_decode by (done || apply next_power_of_2_ge). do 2 f_equal.
    by apply decode_ref_slots.
  - intros i Hi'. rewrite length_new_pages by (done || lia).
    destruct (decode_lens (ps a) Hps seq_lens Hpos i Hi') as (?&Hp&_). fold pres in Hp. rewrite Hp. by apply npages_pred.
Qed.

(** For pages of more than one token, [alloc_decode] puts the next token of
    each request at the next position of its row, opening a fresh page exactly
    when the previous one is full; the shortcut count [seq_len % page_size == 1]
    is the number of pages so opened. *)
Theorem alloc_decode_grows_rows (a : KvAlloc) (seq_lens : list nat) (last_locs out_init : list Z)
    (rows : list (list Z)) (Hinv : alloc_inv a) (Hps : 1 < ps a) (Hpos : Forall (λ s, 0 < s) seq_lens)
    (Hrows : ∀ i, i < length seq_lens → length (rows !!! i) = npages (ps a) (seq_lens !!! i - 1)
       ∧ (1 < seq_lens !!! i → last_locs !!! i = row_slot (ps a) (rows !!! i) (seq_lens !!! i - 2)))
    (Hout : length out_init = length seq_lens) :
  match alloc_decode seq_lens last_locs out_init a with
  | (None, a') => length (held a) < get_num_new_pages_extend (ps a) seq_lens (pred <$> seq_lens)
      ∧ held a' ≡ₚ held a ∧ alloc_inv a'
  | (Some out, a') => ∃ fresh : nat → list Z,
      held a ≡ₚ concat (fresh <$> seq 0 (length seq_lens)) ++ held a' ∧ alloc_inv a'
      ∧ (∀ i, i < length seq_lens → length (fresh i) = if (seq_lens !!! i) mod ps a =? 1 then 1 else 0)
      ∧ out = (λ i, row_slot (ps a) (rows !!! i ++ fresh i) (seq_lens !!! i - 1)) <$> seq 0 (length seq_lens)
  end.
Proof.
  pose proof (alloc_decode_rows a seq_lens last_locs out_init rows Hinv Hps Hpos Hrows Hout) as H. cbv zeta in H.
  rewrite (decode_count (ps a) Hps seq_lens Hpos) in H.
  destruct (Nat.ltb_spec (length (held a)) (get_num_new_pages_extend (ps a) seq_lens (pred <$> seq_lens))).
  - destruct H as (a'&->&?&?&_). done.
  - destruct H as (fresh&a'&->&?&?&_&?). by exists fresh.
Qed.

Lemma alloc_decode_grows_rows_witness :
  match alloc_decode [5; 3] [19; 29]%Z [0; 0]%Z (Paged.init 40 4 false) with
  | (None, _) => False
  | (Some out, a') => ∃ fresh : nat → list Z,
      held (Paged.init 40 4 false) ≡ₚ concat (fresh <$> seq 0 2) ++ held a'
  end.
Proof.
  pose proof (alloc_decode_grows_rows (Paged.init 40 4 false) [5; 3] [19; 29]%Z [0; 0]%Z [[4]; [7]]%Z
    (paged_init_inv 40 4 false) ltac:(simpl; lia) ltac:(repeat constructor; lia)
    ltac:(intros [|[|i]] Hi; [by vm_compute|by vm_compute|simpl in Hi; lia]) eq_refl) as H.
  destruct (alloc_decode [5; 3] [19; 29]%Z [0; 0]%Z (Paged.init 40 4 false)) as [[out|] a'] eqn:E.
  - destruct H as (fresh&?&_). by exists fresh.
  - exfalso. vm_compute in E. discriminate.
Defined.
