(* ===== verification/PoolAlloc.v ===== *)
(** * The interface of a KV pool allocator

    What batch allocation and request release need of [BaseTokenToKVPoolAllocator]
    (src/python/sglang/srt/mem_cache/allocator/base.py): the operations as the class
    [PoolAllocator], and what they promise about the pages they hold as the class
    [PoolLaws].  The token allocator (one token per page) and the paged allocator
    both implement it. *)

From stdpp Require Import base tactics numbers list gmap sorting.
From Stdlib Require Import ZArith Lia ZifyNat.
From S2P Require Import Prelude RadixCache Allocator AllocFree AllocCorrect AllocKernel AllocExtend.

(** [alloc_extend] and [alloc_decode] are only implemented by the paged allocator;
    the base class raises. *)
Class PoolAllocator (A : Type) `{!KvAllocator A} := {
  pool_page_size : A → nat;
  pool_available : A → nat;
  pool_alloc : nat → A → option (list Z) * A;
  pool_alloc_extend : list nat → list nat → list Z → nat → A → res (option (list Z) * A);
  pool_alloc_decode : list nat → list Z → A → res (option (list Z) * A);
  pool_free : list Z → A → A;
}.

(** The pages a segment of a row of pages touches. *)
Definition touched (ps : nat) (row : list Z) (start n : nat) : list Z :=
  if n =? 0 then [] else covered ps row start n.

(** The rows of pages of a batch, filled up to [lens], with the last slot of each. *)
Definition rows_at (ps : nat) (rows : list (list Z)) (lens : list nat) (last_locs : list Z) : Prop :=
  ∀ i, i < length lens → length (rows !!! i) = npages ps (lens !!! i)
    ∧ (0 < lens !!! i → last_locs !!! i = row_slot ps (rows !!! i) (lens !!! i - 1)).

(** What the operations promise about the pages the allocator holds. *)
Class PoolView (A : Type) := {
  pool_ok : A → Prop;
  pool_pages : A → list Z;
  pool_total : A → nat;
}.
Definition pool_keeps `{PoolAllocator A, PoolView A} (a a' : A) : Prop :=
  pool_ok a' ∧ pool_page_size a' = pool_page_size a ∧ pool_total a' = pool_total a.

Class PoolLaws (A : Type) `{PoolAllocator A, PoolView A} := {
  law_pool a : pool_ok a → 0 < pool_page_size a ∧ in_pool (pool_total a) (pool_pages a)
    ∧ pool_available a = length (pool_pages a) * pool_page_size a;
  law_free_segment a row start n : pool_ok a → NoDup row → start + n ≤ length row * pool_page_size a →
    in_pool (pool_total a) (touched (pool_page_size a) row start n ++ pool_pages a) →
    let a' := free_segment a (kv_row (pool_page_size a) row start n) start in
    pool_keeps a a' ∧ pool_pages a' ≡ₚ touched (pool_page_size a) row start n ++ pool_pages a;
  law_free_adjacent a f1 f2 start : pool_ok a → (start + length f1) mod pool_page_size a = 0 →
    free_segments a [(f1, start); (f2, start + length f1)]
    = free_segment (free_segment a f1 start) f2 (start + length f1);
  law_alloc a need : pool_ok a → pool_page_size a = 1 →
    if pool_available a <? need
    then ∃ a', pool_alloc need a = (None, a') ∧ pool_keeps a a' ∧ pool_pages a' ≡ₚ pool_pages a
    else ∃ out a', pool_alloc need a = (Some out, a') ∧ length out = need ∧ pool_keeps a a'
      ∧ pool_pages a ≡ₚ out ++ pool_pages a';
  law_extend a pre_lens seq_lens last_locs rows : pool_ok a → 1 < pool_page_size a →
    Forall2 le pre_lens seq_lens →
    rows_at (pool_page_size a) rows pre_lens last_locs →
    let n := get_num_new_pages_extend (pool_page_size a) seq_lens pre_lens in
    let num := sum_list (zip_with Nat.sub seq_lens pre_lens) in
    if length (pool_pages a) <? n
    then ∃ a', pool_alloc_extend pre_lens seq_lens last_locs num a = Ok (None, a') ∧ pool_keeps a a'
      ∧ pool_pages a' ≡ₚ pool_pages a
    else ∃ (fresh : nat → list Z) a', pool_alloc_extend pre_lens seq_lens last_locs num a
        = Ok (Some (concat ((λ i, kv_row (pool_page_size a) (rows !!! i ++ fresh i) (pre_lens !!! i)
                (seq_lens !!! i - pre_lens !!! i)) <$> seq 0 (length pre_lens))), a')
      ∧ pool_keeps a a' ∧ pool_pages a ≡ₚ concat (fresh <$> seq 0 (length pre_lens)) ++ pool_pages a'
      ∧ (∀ i, i < length pre_lens → length (fresh i)
           = npages (pool_page_size a) (seq_lens !!! i) - npages (pool_page_size a) (pre_lens !!! i));
  law_decode a seq_lens last_locs rows : pool_ok a → 1 < pool_page_size a → Forall (λ s, 0 < s) seq_lens →
    rows_at (pool_page_size a) rows (pred <$> seq_lens) last_locs →
    let n := get_num_new_pages_decode (pool_page_size a) seq_lens in
    if length (pool_pages a) <? n
    then ∃ a', pool_alloc_decode seq_lens last_locs a = Ok (None, a') ∧ pool_keeps a a'
      ∧ pool_pages a' ≡ₚ pool_pages a
    else ∃ (fresh : nat → list Z) a', pool_alloc_decode seq_lens last_locs a
        = Ok (Some ((λ i, row_slot (pool_page_size a) (rows !!! i ++ fresh i) (seq_lens !!! i - 1))
                <$> seq 0 (length seq_lens)), a')
      ∧ pool_keeps a a' ∧ pool_pages a ≡ₚ concat (fresh <$> seq 0 (length seq_lens)) ++ pool_pages a'
      ∧ (∀ i, i < length seq_lens →
           length (fresh i) = if (seq_lens !!! i) mod pool_page_size a =? 1 then 1 else 0);
}.

(** Nothing is trimmed when the second segment starts on a page boundary. *)
Lemma trim_adjacent ps (f1 f2 : list Z) start : 0 < ps → (start + length f1) mod ps = 0 →
  Paged.trim_segments ps None [(f1, start); (f2, start + length f1)]
  = List.filter (λ x, negb (length x.1 =? 0)) [(f1, start); (f2, start + length f1)].
Proof.
  intros Hps Hm. cbn [Paged.trim_segments List.filter fst]. destruct (Nat.eqb_spec (length f1) 0) as [H1|H1]; cbn [negb].
  { by destruct (Nat.eqb_spec (length f2) 0). }
  destruct (Nat.eqb_spec (length f2) 0) as [H2|H2]; cbn [negb]; [done|].
  destruct (Nat.eqb_spec ((start + length f1) / ps) ((start + length f1 - 1) / ps)) as [He|_]; [|done]. exfalso.
  pose proof (Nat.div_mod_eq (start + length f1) ps) as Hd.
  assert ((start + length f1 - 1) / ps < (start + length f1) / ps); [|lia].
  apply Nat.Div0.div_lt_upper_bound. lia.
Qed.

(** ** The paged allocator *)

Section Paged.
(** The contents of [torch.empty], which are not specified. *)
Context (torch_empty : nat → list Z) (Hempty : ∀ n, length (torch_empty n) = n).

#[export] Instance paged_pool : PoolAllocator KvAlloc := {|
  pool_page_size := ps;
  pool_available := available_size;
  pool_alloc := Paged.alloc;
  pool_alloc_extend pre seqs last num a := Ok (alloc_extend pre seqs last num None (torch_empty num) a);
  pool_alloc_decode seqs last a := Ok (alloc_decode seqs last (torch_empty (length seqs)) a);
  pool_free := Paged.free;
|}.

Definition paged_ok (a : KvAlloc) : Prop := alloc_inv a ∧ is_not_in_free_group a = true ∧ 0 < ps a.

Lemma paged_ok_same a a' : paged_ok a → alloc_inv a' → same_pool a a' → paged_ok a'.
Proof. intros (_&Hg&Hp) Hi (E1&_&_&E2). unfold paged_ok. rewrite E1, E2. done. Qed.

Lemma alloc_inv_release a ids : alloc_inv a → in_pool (num_pages a) (concat ids ++ held a) →
  alloc_inv (Paged.release_page_ids ids a) ∧ same_pool a (Paged.release_page_ids ids a).
Proof.
  intros [_ Hr] Hin. rewrite <-(held_release ids a) in Hin. unfold Paged.release_page_ids in *.
  destruct (need_sort a) eqn:E; split; try done; (split; [done|]); simpl; congruence || by rewrite Hr.
Qed.

Lemma paged_free_segment a row start n : paged_ok a → NoDup row → start + n ≤ length row * ps a →
  in_pool (num_pages a) (touched (ps a) row start n ++ held a) →
  let a' := Paged.free_segment (kv_row (ps a) row start n) start a in
  paged_ok a' ∧ same_pool a a' ∧ held a' ≡ₚ touched (ps a) row start n ++ held a.
Proof.
  intros Hok Hnd Hle Hin. pose proof Hok as (Hi&Hg&Hp). unfold touched in *. cbv zeta.
  destruct (Nat.eqb_spec n 0) as [->|Hn].
  { unfold Paged.free_segment. rewrite length_kv_row. by split_and!. }
  destruct (free_segment_frees_covered_pages a row start n) as [Hh _]; [done|lia|done..|].
  unfold Paged.free_segment in *. rewrite length_kv_row in *. destruct (Nat.eqb_spec n 0); [done|]. rewrite Hg in *.
  rewrite held_release in Hh.
  destruct (alloc_inv_release a (Paged.page_ids (ps a) <$> Paged.pieces (ps a) (kv_row (ps a) row start n) start))
    as [Hi' Hs]; [done|by rewrite Hh|].
  split_and!; [by eapply paged_ok_same|apply Hs..|by rewrite held_release].
Qed.

Lemma paged_free_adjacent a f1 f2 start : paged_ok a → (start + length f1) mod ps a = 0 →
  Paged.free_segments [(f1, start); (f2, start + length f1)] a
  = Paged.free_segment f2 (start + length f1) (Paged.free_segment f1 start a).
Proof.
  intros (_&_&Hp) Hm. unfold Paged.free_segments. rewrite trim_adjacent by done. cbn [List.filter fst].
  destruct (Nat.eqb_spec (length f1) 0) as [H1|H1], (Nat.eqb_spec (length f2) 0) as [H2|H2]; cbn [negb foldl];
    unfold Paged.free_segment; rewrite ?H1, ?H2; done.
Qed.

Lemma held_available a : available_size a = length (held a) * ps a.
Proof. unfold available_size, held. by rewrite length_app. Qed.

#[export] Instance paged_view : PoolView KvAlloc := {|
  pool_ok := paged_ok;
  pool_pages := held;
  pool_total := num_pages;
|}.

Lemma paged_keeps a a' : paged_ok a → alloc_inv a' → same_pool a a' → pool_keeps a a'.
Proof. intros. split; [by eapply paged_ok_same|]. by destruct H1 as (?&?&_). Qed.
#[local] Hint Resolve paged_keeps : core.

#[export] Program Instance paged_pool_laws : PoolLaws KvAlloc.
Next Obligation. intros a ((?&?)&_&?). split_and!; [done..|apply held_available]. Qed.
Next Obligation.
  intros a row start n Hok Hnd Hle Hin. destruct (paged_free_segment a row start n Hok Hnd Hle Hin) as (?&(?&?&_)&?).
  done.
Qed.
Next Obligation. intros. by apply paged_free_adjacent. Qed.
Next Obligation.
  intros a need Hok Hps. pose proof Hok as (Hi&_&_). simpl in *. rewrite paged_alloc_eq, held_available, Hps.
  rewrite Nat.div_1_r, Nat.mul_1_r. pose proof (take_pages_spec need a Hi) as Ht.
  destruct (Nat.ltb_spec (length (held a)) need).
  - destruct Ht as (a'&->&?&?&?). exists a'. split_and!; auto.
  - destruct Ht as (pages&a'&->&?&?&?&?). exists pages, a'. split_and!; auto.
    simpl. do 2 f_equal. clear. induction pages as [|p l IH]; [done|]. cbn [mbind list_bind]. rewrite IH.
    unfold Paged.page_slots. simpl. f_equal. lia.
Qed.
Next Obligation.
  intros a pre seqs last rows Hok Hps Hle Hrows. pose proof Hok as (Hi&_&_). simpl in *.
  pose proof (alloc_extend_rows a pre seqs last (torch_empty (sum_list (zip_with Nat.sub seqs pre))) rows None Hi
    ltac:(lia) Hle Hrows (Hempty _) ltac:(done)) as H. cbv zeta in H. rewrite Hempty in H.
  destruct (_ <? _).
  - destruct H as (a'&->&?&?&?). exists a'. split_and!; auto.
  - destruct H as (fresh&a'&->&?&?&?&?). exists fresh, a'. split_and!; auto.
Qed.
Next Obligation.
  intros a seqs last rows Hok Hps Hpos Hrows. pose proof Hok as (Hi&_&_). simpl in *.
  assert (∀ i, i < length seqs → length (rows !!! i) = npages (ps a) (seqs !!! i - 1)
    ∧ (1 < seqs !!! i → last !!! i = row_slot (ps a) (rows !!! i) (seqs !!! i - 2))) as Hrows'.
  { intros i Hi'. destruct (Hrows i) as [H1 H2]; [by rewrite length_fmap|].
    assert ((pred <$> seqs) !!! i = pred (seqs !!! i)) as Hp by by apply list_lookup_total_fmap.
    rewrite Hp in H1, H2. replace (seqs !!! i - 1) with (pred (seqs !!! i)) by lia.
    split; [done|]. intros. rewrite H2 by lia. f_equal. lia. }
  pose proof (alloc_decode_rows a seqs last (torch_empty (length seqs)) rows Hi Hps Hpos Hrows' (Hempty _)) as H.
  cbv zeta in H. destruct (_ <? _).
  - destruct H as (a'&->&?&?&?). exists a'. split_and!; auto.
  - destruct H as (fresh&a'&->&?&?&?&?). exists fresh, a'. split_and!; auto.
Qed.
End Paged.

(** ** The token allocator *)

Record TokenAlloc := mkToken { token_of : KvAlloc }.

Definition on_token {B} (f : KvAlloc → B * KvAlloc) (a : TokenAlloc) : B * TokenAlloc :=
  let '(x, a) := f (token_of a) in (x, mkToken a).

Global Instance token_kv_allocator : KvAllocator TokenAlloc := {|
  RadixCache.free_segment a v s := mkToken (Token.free_segment v s (token_of a));
  RadixCache.free_segments a segs :=
    foldl (λ a '(fi, sp), mkToken (Token.free_segment fi sp (token_of a))) a
      (Paged.trim_segments (ps (token_of a)) None segs);
|}.

#[export] Instance token_pool : PoolAllocator TokenAlloc := {|
  pool_page_size a := ps (token_of a);
  pool_available a := available_size (token_of a);
  pool_alloc n := on_token (Token.alloc n);
  pool_alloc_extend _ _ _ _ _ := Raise NotImplementedError;
  pool_alloc_decode _ _ _ := Raise NotImplementedError;
  pool_free l a := mkToken (Token.free l (token_of a));
|}.

Definition token_ok (a : TokenAlloc) : Prop :=
  alloc_inv (token_of a) ∧ is_not_in_free_group (token_of a) = true ∧ ps (token_of a) = 1.

#[export] Instance token_view : PoolView TokenAlloc := {|
  pool_ok := token_ok;
  pool_pages a := held (token_of a);
  pool_total a := num_pages (token_of a);
|}.

Lemma token_keeps a a' : token_ok a → alloc_inv a' → same_pool (token_of a) a' → pool_keeps a (mkToken a').
Proof. intros (_&?&?) ? (?&?&_&?). unfold pool_keeps. simpl. unfold token_ok. simpl. split_and!; congruence. Qed.

Lemma kv_row_1 row start n : start + n ≤ length row → kv_row 1 row start n = pyslice row start (start + n).
Proof.
  intros Hle. apply list_eq. intros i. unfold kv_row, pyslice. rewrite list_lookup_fmap.
  destruct (decide (i < n)) as [Hi|Hi].
  - rewrite lookup_seq_lt, lookup_take_lt, lookup_drop by lia. simpl. unfold row_slot.
    rewrite Nat.div_1_r, Nat.mod_1_r, list_lookup_lookup_total_lt by lia. f_equal. lia.
  - rewrite lookup_seq_ge by lia. symmetry. apply lookup_take_ge. lia.
Qed.

Lemma touched_1 row start n : start + n ≤ length row → touched 1 row start n = kv_row 1 row start n.
Proof.
  intros Hle. rewrite kv_row_1 by done. unfold touched, covered. destruct (Nat.eqb_spec n 0) as [->|Hn].
  - unfold pyslice. rewrite Nat.add_0_r, Nat.sub_diag. done.
  - rewrite !Nat.div_1_r. f_equal. lia.
Qed.

Lemma token_free_spec l a : alloc_inv a → is_not_in_free_group a = true → in_pool (num_pages a) (l ++ held a) →
  alloc_inv (Token.free l a) ∧ same_pool a (Token.free l a) ∧ held (Token.free l a) ≡ₚ l ++ held a.
Proof.
  intros [_ Hr] Hg Hin. unfold Token.free. destruct (Nat.eqb_spec (length l) 0) as [Hz|_].
  { apply length_zero_iff_nil in Hz as ->. by split_and!. }
  rewrite Hg. unfold alloc_inv, held in *. destruct (need_sort a) eqn:E; simpl.
  - assert (free_pages a ++ release_pages a ++ l ≡ₚ l ++ free_pages a ++ release_pages a) as Hp
      by by rewrite app_assoc, Permutation_app_comm.
    split_and!; [by rewrite Hp|congruence|done|done].
  - rewrite (Hr eq_refl), app_nil_r in *. rewrite app_nil_r.
    split_and!; [by rewrite (Permutation_app_comm _ l)|done..|by rewrite Permutation_app_comm].
Qed.

#[export] Program Instance token_pool_laws : PoolLaws TokenAlloc.
Next Obligation.
  intros a ((?&?)&_&Hp). simpl. rewrite Hp. split_and!; [lia|done|]. by rewrite held_available, Hp.
Qed.
Next Obligation.
  intros a row start n Hok Hnd Hle Hin. pose proof Hok as (Hi&Hg&Hp). simpl in *. rewrite Hp, Nat.mul_1_r in *.
  rewrite touched_1 in * by done. destruct (token_free_spec (kv_row 1 row start n) (token_of a)) as (?&?&?); [done..|].
  split; [by apply token_keeps|done].
Qed.
Next Obligation.
  intros a f1 f2 start (_&_&Hp) Hm.
  cbn [RadixCache.free_segments RadixCache.free_segment token_kv_allocator pool_page_size token_pool] in *. rewrite Hp in *. rewrite trim_adjacent by lia. cbn [List.filter fst].
  destruct (Nat.eqb_spec (length f1) 0) as [H1|H1], (Nat.eqb_spec (length f2) 0) as [H2|H2]; cbn [negb foldl]; destruct a;
    unfold Token.free_segment, Token.free; simpl; rewrite ?H1, ?H2; done.
Qed.
Next Obligation.
  intros a need Hok Hps. pose proof Hok as (Hi&_&_). simpl in *. unfold on_token.
  change (Token.alloc need (token_of a)) with (take_pages need (token_of a)). rewrite held_available, Hps, Nat.mul_1_r.
  pose proof (take_pages_spec need (token_of a) Hi) as Ht. destruct (_ <? need).
  - destruct Ht as (a'&->&?&?&?). eexists. split_and!; [done|by apply token_keeps|done].
  - destruct Ht as (pages&a'&->&?&?&?&?). eexists _, _. split_and!; [done..|by apply token_keeps|done].
Qed.
Next Obligation. intros a pre seqs last rows (_&_&Hp) Hps. simpl in *. lia. Qed.
Next Obligation. intros a seqs last rows (_&_&Hp) Hps. simpl in *. lia. Qed.
