(* ===== verification/SwaAlloc.v ===== *)
(** * The hybrid allocator of sliding-window models

    [SWATokenToKVPoolAllocator] and [PureSWATokenToKVPoolAllocator] of
    [src/python/sglang/srt/mem_cache/allocator/swa.py].  A model that mixes full and
    sliding-window attention has two KV pools: every token has a slot in the full
    pool, and while it is inside the window a slot in the (smaller) window pool.
    Requests and the prefix cache only know full slots; [full_to_swa_index_mapping]
    translates them.

    The full side is the allocator's own (not borrowed); the NPU variants of the
    paged allocator are not modelled. *)

From stdpp Require Import base tactics numbers list gmap sorting.
From Stdlib Require Import ZArith Lia ZifyNat.
From S2P Require Import Prelude RadixCache Allocator AllocKernel.

Local Open Scope nat_scope.

(** ** Indexing a tensor by a tensor *)

(** Negative indices count from the end; others out of range raise. *)
Definition tensor_pos (n : nat) (i : Z) : res nat :=
  if ((0 <=? i) && (i <? Z.of_nat n))%Z then Ok (Z.to_nat i)
  else if ((- Z.of_nat n <=? i) && (i <? 0))%Z then Ok (Z.to_nat (i + Z.of_nat n))
  else Raise IndexError.

(** [t[indices]]. *)
Fixpoint gather (t : list Z) (indices : list Z) : res (list Z) :=
  match indices with
  | [] => Ok []
  | i :: indices =>
      let! k := tensor_pos (length t) i in
      let! l := gather t indices in
      Ok ((t !!! k) :: l)
  end.

(** [t[indices] = values], one element after the other. *)
Fixpoint scatter (t : list Z) (indices values : list Z) : res (list Z) :=
  match indices, values with
  | i :: indices, v :: values =>
      let! k := tensor_pos (length t) i in
      scatter (<[k := v]> t) indices values
  | _, _ => Ok t
  end.

(** [t.index_fill_(0, indices, v)]. *)
Definition index_fill (t : list Z) (indices : list Z) (v : Z) : res (list Z) :=
  scatter t indices (replicate (length indices) v).

(** ** State *)

Record SwaAlloc := mkSwa {
  page_size : nat;
  size_full_ : nat;
  size_swa_ : nat;
  full_attn_allocator : KvAlloc;
  swa_attn_allocator : KvAlloc;
  full_to_swa_index_mapping : list Z;
  not_in_free_group : bool;
  swa_free_group_full : list (list Z);
  swa_free_group : list (list Z);
}.

Definition set_pools (f s : KvAlloc) (a : SwaAlloc) : SwaAlloc :=
  mkSwa (page_size a) (size_full_ a) (size_swa_ a) f s (full_to_swa_index_mapping a)
    (not_in_free_group a) (swa_free_group_full a) (swa_free_group a).
Definition set_mapping (t : list Z) (a : SwaAlloc) : SwaAlloc :=
  mkSwa (page_size a) (size_full_ a) (size_swa_ a) (full_attn_allocator a) (swa_attn_allocator a) t
    (not_in_free_group a) (swa_free_group_full a) (swa_free_group a).
Definition set_groups (b : bool) (g s : list (list Z)) (a : SwaAlloc) : SwaAlloc :=
  mkSwa (page_size a) (size_full_ a) (size_swa_ a) (full_attn_allocator a) (swa_attn_allocator a)
    (full_to_swa_index_mapping a) b g s.

(** Both pools are token allocators when a page holds one token, else paged ones. *)
Definition sub_init (size page_size : nat) (sort : bool) : KvAlloc :=
  if page_size =? 1 then Token.init size sort else Paged.init size page_size sort.
Definition sub_clear (a : KvAlloc) : KvAlloc := if ps a =? 1 then Token.clear a else Paged.clear a.
Definition sub_free (l : list Z) (a : KvAlloc) : KvAlloc := if ps a =? 1 then Token.free l a else Paged.free l a.

Module Swa.

Definition init (size size_swa page_size : nat) (sort : bool) : SwaAlloc :=
  mkSwa page_size size size_swa (sub_init size page_size sort) (sub_init size_swa page_size sort)
    (replicate (size + page_size) 0%Z ++ [(-1)%Z]) true [] [].

Definition available_size (a : SwaAlloc) : nat :=
  min (Allocator.available_size (full_attn_allocator a)) (Allocator.available_size (swa_attn_allocator a)).
Definition full_available_size (a : SwaAlloc) : nat := Allocator.available_size (full_attn_allocator a).
Definition swa_available_size (a : SwaAlloc) : nat := Allocator.available_size (swa_attn_allocator a).

(** [-1], the last slot of an empty row, maps to [-1] through the last element. *)
Definition translate_loc_from_full_to_swa (kv_indices : list Z) (a : SwaAlloc) : res (list Z) :=
  gather (full_to_swa_index_mapping a) kv_indices.

Definition set_full_to_swa_mapping (full_indices swa_indices : list Z) (a : SwaAlloc) : res SwaAlloc :=
  if length full_indices =? 0 then Ok a
  else
    assert_ (length full_indices =? length swa_indices) ;;!
    let! t := scatter (full_to_swa_index_mapping a) full_indices swa_indices in
    Ok (set_mapping t a).

Definition clear_full_to_swa_mapping (full_indices : list Z) (a : SwaAlloc) : res SwaAlloc :=
  if length full_indices =? 0 then Ok a
  else
    let! t := index_fill (full_to_swa_index_mapping a) full_indices 0 in
    Ok (set_mapping t a).

(** ** Allocation *)

Definition alloc (need_size : nat) (a : SwaAlloc) : res (option (list Z) * SwaAlloc) :=
  assert_ (page_size a =? 1) ;;!
  if Allocator.available_size (full_attn_allocator a) <? need_size then Ok (None, a)
  else if Allocator.available_size (swa_attn_allocator a) <? need_size then Ok (None, a)
  else
    let '(alloc_full_indices, f) := Token.alloc need_size (full_attn_allocator a) in
    let '(alloc_swa_indices, s) := Token.alloc need_size (swa_attn_allocator a) in
    match alloc_full_indices, alloc_swa_indices with
    | Some full_indices, Some swa_indices =>
        let! a := set_full_to_swa_mapping full_indices swa_indices (set_pools f s a) in
        Ok (Some full_indices, a)
    | _, _ => Raise AssertionError
    end.

Definition new_pages_available (num_full_pages num_swa_pages : nat) (a : SwaAlloc) : bool :=
  (num_full_pages <=? Allocator.available_size (full_attn_allocator a) / page_size a)
  && (num_swa_pages <=? Allocator.available_size (swa_attn_allocator a) / page_size a).

(** [full_empty] and [swa_empty] are the contents of the output tensors that the two
    paged allocators create with [torch.empty]. *)
Definition alloc_extend (full_empty swa_empty : list Z) (prefix_lens seq_lens : list nat) (last_loc : list Z)
    (extend_num_tokens : nat) (a : SwaAlloc) : res (option (list Z) * SwaAlloc) :=
  assert_ (1 <? page_size a) ;;!
  let num_new_pages := get_num_new_pages_extend (page_size a) seq_lens prefix_lens in
  if negb (new_pages_available num_new_pages num_new_pages a) then Ok (None, a)
  else
    let! swa_last_loc := translate_loc_from_full_to_swa last_loc a in
    let '(alloc_full_indices, f) := AllocKernel.alloc_extend prefix_lens seq_lens last_loc extend_num_tokens
      (Some num_new_pages) full_empty (full_attn_allocator a) in
    let '(alloc_swa_indices, s) := AllocKernel.alloc_extend prefix_lens seq_lens swa_last_loc extend_num_tokens
      (Some num_new_pages) swa_empty (swa_attn_allocator a) in
    match alloc_full_indices, alloc_swa_indices with
    | Some full_indices, Some swa_indices =>
        let! a := set_full_to_swa_mapping full_indices swa_indices (set_pools f s a) in
        Ok (Some full_indices, a)
    | _, _ => Raise AssertionError
    end.

(** Full KV for the whole extend, window KV for its last [swa_tail_len] tokens. *)
Definition alloc_extend_swa_tail (full_empty swa_empty : list Z) (prefix_lens seq_lens : list nat)
    (last_loc : list Z) (extend_num_tokens swa_tail_len : nat) (a : SwaAlloc)
    : res (option (list Z) * SwaAlloc) :=
  assert_ (1 <? page_size a) ;;!
  assert_ (length seq_lens =? 1) ;;!
  assert_ (length prefix_lens =? 1) ;;!
  assert_ (swa_tail_len <=? extend_num_tokens) ;;!
  let num_full_pages := get_num_new_pages_extend (page_size a) seq_lens prefix_lens in
  let num_swa_pages := (swa_tail_len + page_size a - 1) / page_size a in
  if negb (new_pages_available num_full_pages num_swa_pages a) then Ok (None, a)
  else
    let '(alloc_full_indices, f) := AllocKernel.alloc_extend prefix_lens seq_lens last_loc extend_num_tokens
      (Some num_full_pages) full_empty (full_attn_allocator a) in
    match alloc_full_indices with
    | None => Raise AssertionError
    | Some full_indices =>
        if swa_tail_len =? 0 then Ok (Some full_indices, set_pools f (swa_attn_allocator a) a)
        else
          let '(alloc_swa_indices, s) := AllocKernel.alloc_extend [0] [swa_tail_len] [(-1)%Z] swa_tail_len
            (Some num_swa_pages) swa_empty (swa_attn_allocator a) in
          match alloc_swa_indices with
          | None => Raise AssertionError
          | Some swa_indices =>
              let keep := length full_indices - swa_tail_len in
              let! a := set_full_to_swa_mapping (drop keep full_indices) swa_indices (set_pools f s a) in
              let! a := if swa_tail_len <? extend_num_tokens
                        then clear_full_to_swa_mapping (take keep full_indices) a else Ok a in
              Ok (Some full_indices, a)
          end
    end.

(** Both pools are asked before either answer is looked at. *)
Definition alloc_decode (full_empty swa_empty : list Z) (seq_lens : list nat) (last_loc : list Z) (a : SwaAlloc)
    : res (option (list Z) * SwaAlloc) :=
  assert_ (1 <? page_size a) ;;!
  let! swa_last_loc := translate_loc_from_full_to_swa last_loc a in
  let '(alloc_full_indices, f) := AllocKernel.alloc_decode seq_lens last_loc full_empty (full_attn_allocator a) in
  let '(alloc_swa_indices, s) := AllocKernel.alloc_decode seq_lens swa_last_loc swa_empty (swa_attn_allocator a) in
  let a := set_pools f s a in
  match alloc_full_indices, alloc_swa_indices with
  | Some full_indices, Some swa_indices =>
      let! t := scatter (full_to_swa_index_mapping a) full_indices swa_indices in
      Ok (Some full_indices, set_mapping t a)
  | _, _ => Ok (None, a)
  end.

(** ** Release *)

Definition expand_to_full_pages (page_size : nat) (indices : list Z) : list Z :=
  unique (Paged.page_ids page_size indices) ≫= Paged.page_slots page_size.

(** Release the window slots of full slots that stay allocated. *)
Definition free_swa (free_index : list Z) (a : SwaAlloc) : res SwaAlloc :=
  if length free_index =? 0 then Ok a
  else
    let mapping_indices := if page_size a =? 1 then free_index else expand_to_full_pages (page_size a) free_index in
    let! swa_indices := gather (full_to_swa_index_mapping a) mapping_indices in
    let swa_indices := List.filter (λ x, 0 <? x)%Z swa_indices in
    let! a := clear_full_to_swa_mapping mapping_indices a in
    if not_in_free_group a
    then Ok (set_pools (full_attn_allocator a) (sub_free swa_indices (swa_attn_allocator a)) a)
    else Ok (set_groups false (swa_free_group_full a) (swa_free_group a ++ [swa_indices]) a).

Definition free (free_index : list Z) (a : SwaAlloc) : res SwaAlloc :=
  if length free_index =? 0 then Ok a
  else
    let! a := if not_in_free_group a
              then free_swa free_index (set_pools (sub_free free_index (full_attn_allocator a)) (swa_attn_allocator a) a)
              else Ok (set_groups false (swa_free_group_full a ++ [free_index]) (swa_free_group a) a) in
    assert_ (Allocator.available_size (full_attn_allocator a) <=? pool_size (full_attn_allocator a)) ;;!
    assert_ (Allocator.available_size (swa_attn_allocator a) <=? pool_size (swa_attn_allocator a)) ;;!
    Ok a.

Definition free_group_begin (a : SwaAlloc) : SwaAlloc := set_groups false [] [] a.

Definition free_group_end (a : SwaAlloc) : res SwaAlloc :=
  let a := set_groups true (swa_free_group_full a) (swa_free_group a) a in
  let! a := match swa_free_group_full a with [] => Ok a | g => free (concat g) a end in
  match swa_free_group a with
  | [] => Ok a
  | g => Ok (set_pools (full_attn_allocator a) (sub_free (concat g) (swa_attn_allocator a))
               (set_groups (not_in_free_group a) (swa_free_group_full a) [] a))
  end.

(** The last element of the mapping stays [-1]. *)
Definition clear (a : SwaAlloc) : SwaAlloc :=
  let n := length (full_to_swa_index_mapping a) - 1 in
  mkSwa (page_size a) (size_full_ a) (size_swa_ a) (sub_clear (full_attn_allocator a))
    (sub_clear (swa_attn_allocator a)) (replicate n 0%Z ++ drop n (full_to_swa_index_mapping a)) true [] [].

Definition sub_resize (page_size size : nat) (a : KvAlloc) : KvAlloc :=
  mkAlloc size (ps a) (need_sort a) (if 1 <? page_size then size / page_size else num_pages a)
    (free_pages a) (release_pages a) (is_not_in_free_group a) (free_group a) (free_page_reps_group a).

Definition resize (size_full size_swa : nat) (a : SwaAlloc) : SwaAlloc :=
  clear (mkSwa (page_size a) size_full size_swa (sub_resize (page_size a) size_full (full_attn_allocator a))
           (sub_resize (page_size a) size_swa (swa_attn_allocator a)) (full_to_swa_index_mapping a)
           (not_in_free_group a) (swa_free_group_full a) (swa_free_group a)).

End Swa.

(** ** Models with sliding-window layers only: one pool, no translation *)

Module PureSwa.

Record PureAlloc := mkPure {
  pool : KvAlloc;
  pure_not_in_group : bool;
  pure_group : list (list Z);
}.

Definition init (size_swa : nat) (sort : bool) : PureAlloc := mkPure (Token.init size_swa sort) true [].

Definition available_size (a : PureAlloc) : nat := Allocator.available_size (pool a).

Definition alloc (need_size : nat) (a : PureAlloc) : option (list Z) * PureAlloc :=
  let '(out, p) := Token.alloc need_size (pool a) in (out, mkPure p (pure_not_in_group a) (pure_group a)).

Definition free_swa (free_index : list Z) (a : PureAlloc) : PureAlloc :=
  if length free_index =? 0 then a
  else if pure_not_in_group a
       then mkPure (Token.free (List.filter (λ x, 0 <? x)%Z free_index) (pool a)) true (pure_group a)
       else mkPure (pool a) false (pure_group a ++ [free_index]).

Definition free (free_index : list Z) (a : PureAlloc) : res PureAlloc :=
  if length free_index =? 0 then Ok a
  else
    let a := free_swa free_index a in
    assert_ (available_size a <=? pool_size (pool a)) ;;!
    Ok a.

Definition free_group_begin (a : PureAlloc) : PureAlloc := mkPure (pool a) false [].

Definition free_group_end (a : PureAlloc) : res PureAlloc :=
  let a := mkPure (pool a) true (pure_group a) in
  let! a := match pure_group a with [] => Ok a | g => free (concat g) a end in
  Ok (mkPure (pool a) (pure_not_in_group a) []).

Definition clear (a : PureAlloc) : PureAlloc := mkPure (Token.clear (pool a)) true [].

End PureSwa.
