(* ===== verification/SwaInv.v ===== *)
(** * The invariant of the hybrid allocator

    [hybrid m a]: the page map [m] pairs full pages with window pages, the translation
    table of [a] agrees with it, and every window page is in exactly one place: mapped,
    waiting in the free group, or free. *)

From stdpp Require Import base tactics numbers list gmap sorting.
From Stdlib Require Import ZArith Lia ZifyNat.
From S2P Require Import Prelude RadixCache Allocator AllocFree AllocCorrect AllocKernel AllocExtend PoolAlloc SwaAlloc.

Local Open Scope nat_scope.

Lemma filter_all {A} (P : A → Prop) `{∀ x, Decision (P x)} (l : list A) : (∀ x, x ∈ l → P x) → filter P l = l.
Proof.
  induction l as [|x l IH]; intros Hall; [done|]. rewrite filter_cons_True by (apply Hall; by left).
  f_equal. apply IH. intros y Hy. apply Hall. by right.
Qed.

(** ** Tensors *)

Definition at_index (t : list Z) (i : Z) : Z := t !!! Z.to_nat i.
Definition in_tensor (t : list Z) (i : Z) : Prop := (0 ≤ i < Z.of_nat (length t))%Z.

Lemma tensor_pos_ok t i : in_tensor t i → tensor_pos (length t) i = Ok (Z.to_nat i).
Proof.
  intros [H0 Hn]. unfold tensor_pos. destruct (Z.leb_spec 0 i); [|lia].
  destruct (Z.ltb_spec i (Z.of_nat (length t))); [done|lia].
Qed.

Lemma gather_ok t l : Forall (in_tensor t) l → gather t l = Ok (at_index t <$> l).
Proof.
  induction 1 as [|i l Hi _ IH]; [done|]. cbn [gather]. rewrite tensor_pos_ok by done. res_step. by rewrite IH.
Qed.

(** After an assignment each element is the old one, or one of the values written to it. *)
Lemma scatter_ok t l v : Forall (in_tensor t) l → length v = length l →
  ∃ t', scatter t l v = Ok t' ∧ length t' = length t
    ∧ (∀ i, in_tensor t i → i ∉ l → at_index t' i = at_index t i)
    ∧ (∀ i, in_tensor t i → i ∈ l → (i, at_index t' i) ∈ zip l v).
Proof.
  intros Hl. revert t v Hl. induction l as [|k l IH]; intros t v Hl Hlen.
  { exists t. split_and!; [by destruct v|done..|set_solver]. }
  destruct v as [|x v]; [done|]. injection Hlen as Hlen. apply Forall_cons in Hl as [Hk Hl].
  cbn [scatter]. rewrite tensor_pos_ok by done. res_step.
  destruct (IH (<[Z.to_nat k := x]> t) v) as (t'&Hs&Hlt&Hout&Hin); [|done|].
  { eapply Forall_impl; [done|]. intros i. unfold in_tensor. by rewrite length_insert. }
  unfold in_tensor in *. rewrite length_insert in *. exists t'. split_and!; [done..| |].
  - intros i Hi [Hne Hni]%not_elem_of_cons. rewrite Hout by done.
    unfold at_index. rewrite list_lookup_total_insert_ne by lia. done.
  - intros i Hi Hel. cbn [zip zip_with]. apply elem_of_cons. destruct (decide (i ∈ l)) as [|Hni]; [right; by apply Hin|].
    left. apply elem_of_cons in Hel as [->|?]; [|done]. rewrite Hout by done. unfold at_index.
    rewrite list_lookup_total_insert by lia.
    by rewrite decide_True by lia.
Qed.

Lemma index_fill_ok t l x : Forall (in_tensor t) l →
  ∃ t', index_fill t l x = Ok t' ∧ length t' = length t
    ∧ (∀ i, in_tensor t i → at_index t' i = if decide (i ∈ l) then x else at_index t i).
Proof.
  intros Hl. destruct (scatter_ok t l (replicate (length l) x) Hl) as (t'&Hs&Hlt&Hout&Hin); [by rewrite length_replicate|].
  exists t'. split_and!; [done..|]. intros i Hi. destruct (decide (i ∈ l)) as [Hel|]; [|by apply Hout].
  specialize (Hin i Hi Hel). apply elem_of_zip_r in Hin. by apply elem_of_replicate in Hin as [].
Qed.

(** ** Pages of slots *)

(** The pages that freeing a list of slots gives back. *)
Definition freed_pages (ps : nat) (l : list Z) : list Z :=
  if ps =? 1 then l else unique (Paged.page_ids ps l).

Lemma freed_pages_nil ps : freed_pages ps [] = [].
Proof. unfold freed_pages. by destruct (_ =? 1). Qed.

Lemma elem_of_page_ids ps l p : p ∈ Paged.page_ids ps l ↔ ∃ x, x ∈ l ∧ p = (x / Z.of_nat ps)%Z.
Proof. unfold Paged.page_ids. rewrite list_elem_of_fmap. naive_solver. Qed.

Lemma elem_of_unique l x : x ∈ unique l ↔ x ∈ l.
Proof. unfold unique, tsort. by rewrite merge_sort_Permutation, elem_of_remove_dups. Qed.

Lemma NoDup_unique l : NoDup (unique l).
Proof. unfold unique, tsort. rewrite merge_sort_Permutation. apply NoDup_remove_dups. Qed.

Lemma elem_of_freed_pages ps l p : p ∈ freed_pages ps l ↔ ∃ x, x ∈ l ∧ p = (x / Z.of_nat ps)%Z.
Proof.
  unfold freed_pages. destruct (Nat.eqb_spec ps 1) as [->|_].
  - split; [intros ?; exists p|intros (x&?&->)]; by rewrite Z.div_1_r.
  - by rewrite elem_of_unique, elem_of_page_ids.
Qed.

Lemma freed_pages_app ps l1 l2 : (∀ p, p ∈ freed_pages ps l1 → p ∉ freed_pages ps l2) →
  freed_pages ps (l1 ++ l2) ≡ₚ freed_pages ps l1 ++ freed_pages ps l2.
Proof.
  intros Hd. destruct (decide (ps = 1)) as [->|Hps]; [done|].
  assert (∀ l, NoDup (freed_pages ps l)) as Hnd.
  { intros l. unfold freed_pages. destruct (Nat.eqb_spec ps 1); [done|]. apply NoDup_unique. }
  apply NoDup_Permutation; [done|by apply NoDup_app|]. intros p. rewrite elem_of_app, !elem_of_freed_pages.
  setoid_rewrite elem_of_app. naive_solver.
Qed.

Lemma elem_of_page_slots n p x : 0 < n → x ∈ Paged.page_slots n p ↔ (x / Z.of_nat n)%Z = p.
Proof.
  intros Hn. unfold Paged.page_slots. rewrite list_elem_of_fmap. split.
  - intros (i&->&Hi%elem_of_seq). rewrite Z.div_add_l by lia. rewrite Z.div_small by lia. lia.
  - intros <-. exists (Z.to_nat (x mod Z.of_nat n)). rewrite elem_of_seq. lia.
Qed.

Lemma elem_of_expand n l x : 0 < n →
  x ∈ Swa.expand_to_full_pages n l ↔ (x / Z.of_nat n)%Z ∈ Paged.page_ids n l.
Proof.
  intros Hn. unfold Swa.expand_to_full_pages. rewrite list_elem_of_bind. setoid_rewrite elem_of_page_slots; [|done].
  setoid_rewrite elem_of_unique. naive_solver.
Qed.

(** ** The two pools *)

Definition sub_ok (a : KvAlloc) : Prop :=
  alloc_inv a ∧ is_not_in_free_group a = true ∧ num_pages a * ps a ≤ pool_size a.

(** [same_pool], and the size is kept too. *)
Definition same_sub (a a' : KvAlloc) : Prop := same_pool a a' ∧ pool_size a' = pool_size a.
Global Instance same_sub_preorder : PreOrder same_sub.
Proof. unfold same_sub. split; [by intros a|]. intros a b c [] []. split; [by etrans|congruence]. Qed.

Lemma sub_ok_same a a' : sub_ok a → alloc_inv a' → same_sub a a' → sub_ok a'.
Proof. intros (_&Hg&Hp) Hi ((E1&E2&_&E3)&E4). unfold sub_ok. rewrite E1, E2, E3, E4. done. Qed.

Lemma sub_free_spec l a : sub_ok a → 0 < ps a → in_pool (num_pages a) (freed_pages (ps a) l ++ held a) →
  sub_ok (sub_free l a) ∧ same_sub a (sub_free l a) ∧ held (sub_free l a) ≡ₚ freed_pages (ps a) l ++ held a.
Proof.
  intros Hok Hps Hin. pose proof Hok as (Hi&Hg&_).
  assert (alloc_inv (sub_free l a) ∧ same_sub a (sub_free l a) ∧ held (sub_free l a) ≡ₚ freed_pages (ps a) l ++ held a)
    as (?&?&?); [|split_and!; try done; by eapply sub_ok_same].
  unfold sub_free, freed_pages in *. destruct (Nat.eqb_spec (ps a) 1) as [Hp|Hp].
  - destruct (token_free_spec l a Hi Hg Hin) as (?&?&?). split_and!; [done|split; [done|]|done].
    unfold Token.free. rewrite Hg. by destruct (_ =? 0), (need_sort a).
  - unfold Paged.free. rewrite Hg. destruct (Nat.eqb_spec (length l) 0) as [Hz|_].
    { apply length_zero_iff_nil in Hz as ->. by split_and!. }
    destruct (alloc_inv_release a [unique (Paged.page_ids (ps a) l)] Hi) as [? ?]; [cbn [concat]; by rewrite app_nil_r|].
    split_and!; [done|split; [done|]|rewrite held_release; cbn [concat]; by rewrite app_nil_r].
    unfold Paged.release_page_ids. by destruct (need_sort a).
Qed.

Lemma available_le a : sub_ok a → Allocator.available_size a ≤ pool_size a.
Proof.
  intros (((Hnd&Hr)&_)&_&Hle). rewrite held_available. etrans; [|done]. apply Nat.mul_le_mono_r.
  assert (held a ⊆+ arange 1 (Z.of_nat (num_pages a) + 1)) as Hs.
  { apply NoDup_submseteq; [done|]. intros p Hp. apply elem_of_arange; [lia|]. apply Hr in Hp. lia. }
  apply submseteq_length in Hs. unfold arange in Hs. rewrite length_fmap, length_seq in Hs. lia.
Qed.

(** ** The invariant *)

(** The window pages that the current free group will give back. *)
Definition pending (a : SwaAlloc) : list Z := freed_pages (page_size a) (concat (swa_free_group a)).
Definition slot (n : nat) (p : Z) (j : nat) : Z := (p * Z.of_nat n + Z.of_nat j)%Z.
Definition table (a : SwaAlloc) (x : Z) : Z := at_index (full_to_swa_index_mapping a) x.

Record hybrid (m : list (Z * Z)) (a : SwaAlloc) : Prop := mkHybrid {
  hy_ps : 0 < page_size a;
  hy_psf : ps (full_attn_allocator a) = page_size a;
  hy_pss : ps (swa_attn_allocator a) = page_size a;
  hy_full : sub_ok (full_attn_allocator a);
  hy_swa : sub_ok (swa_attn_allocator a);
  hy_len : (num_pages (full_attn_allocator a) + 1) * page_size a < length (full_to_swa_index_mapping a);
  hy_last : last (full_to_swa_index_mapping a) = Some (-1)%Z;
  hy_dom : in_pool (num_pages (full_attn_allocator a)) (m.*1 ++ held (full_attn_allocator a));
  hy_img : m.*2 ++ pending a ++ held (swa_attn_allocator a)
             ≡ₚ arange 1 (Z.of_nat (num_pages (swa_attn_allocator a)) + 1);
  hy_table : ∀ f j, (0 ≤ f ≤ Z.of_nat (num_pages (full_attn_allocator a)))%Z → j < page_size a →
    table a (slot (page_size a) f j) = 0%Z
    ∨ ∃ s, (f, s) ∈ m ∧ table a (slot (page_size a) f j) = slot (page_size a) s j;
  hy_hit : ∀ f s, (f, s) ∈ m → ∃ j, j < page_size a ∧ table a (slot (page_size a) f j) = slot (page_size a) s j;
}.

(** The pages a list of full slots lies in. *)
Definition slots_valid (a : SwaAlloc) (l : list Z) : Prop :=
  ∀ x, x ∈ l → (0 ≤ x / Z.of_nat (page_size a) ≤ Z.of_nat (num_pages (full_attn_allocator a)))%Z.

Section Hybrid.
Context (m : list (Z * Z)) (a : SwaAlloc) (H : hybrid m a).
Local Abbreviation n := (page_size a).
Local Abbreviation nf := (num_pages (full_attn_allocator a)).
Local Abbreviation nw := (num_pages (swa_attn_allocator a)).

Lemma slot_of x : x = slot n (x / Z.of_nat n) (Z.to_nat (x mod Z.of_nat n)) ∧ Z.to_nat (x mod Z.of_nat n) < n.
Proof using H. destruct H. unfold slot. split; lia. Qed.

Lemma slot_page p j : j < n → (slot n p j / Z.of_nat n)%Z = p.
Proof. intros Hj. unfold slot. rewrite Z.div_add_l by lia. rewrite Z.div_small by lia. lia. Qed.

Lemma hybrid_img_in_pool : in_pool nw (m.*2 ++ pending a ++ held (swa_attn_allocator a)).
Proof using H.
  split; [rewrite hy_img by done; apply NoDup_arange|]. intros p. rewrite hy_img by done.
  intros Hp%elem_of_arange; lia.
Qed.

Lemma hybrid_img_pos f s : (f, s) ∈ m → (1 ≤ s ≤ Z.of_nat nw)%Z.
Proof using H.
  intros Hin. apply hybrid_img_in_pool. apply elem_of_app. left. by apply (list_elem_of_fmap_2 snd) in Hin.
Qed.

Lemma hybrid_dom f s : (f, s) ∈ m → (1 ≤ f ≤ Z.of_nat nf)%Z ∧ f ∉ held (full_attn_allocator a).
Proof using H.
  intros Hin%(list_elem_of_fmap_2 fst). destruct (hy_dom m a H) as [Hnd Hr].
  split; [apply Hr, elem_of_app; by left|]. apply NoDup_app in Hnd as (_&Hd&_). by apply Hd.
Qed.

Lemma hybrid_fun f s s' : (f, s) ∈ m → (f, s') ∈ m → s = s'.
Proof using H.
  intros H1 H2. destruct (hy_dom m a H) as [Hnd _]. apply NoDup_app in Hnd as (Hnd&_).
  apply elem_of_list_to_map in H1, H2; [|done..]. congruence.
Qed.

Lemma hybrid_inj f f' s : (f, s) ∈ m → (f', s) ∈ m → f = f'.
Proof using H.
  intros H1 H2. pose proof hybrid_img_in_pool as [Hnd _]. apply NoDup_app in Hnd as (Hnd&_).
  apply list_elem_of_lookup in H1 as [i Hi], H2 as [j Hj].
  assert (i = j) as ->; [|congruence].
  eapply (NoDup_lookup m.*2); [done|rewrite list_lookup_fmap, Hi; done|by rewrite list_lookup_fmap, Hj].
Qed.

Lemma slots_in_table l : slots_valid a l → Forall (in_tensor (full_to_swa_index_mapping a)) l.
Proof using H.
  intros Hv. apply Forall_forall. intros x Hx%Hv. pose proof (hy_len m a H). pose proof (hy_ps m a H).
  unfold in_tensor. nia.
Qed.

(** A positive entry names the window page of its full page. *)
Lemma table_pos x : (0 ≤ x / Z.of_nat n ≤ Z.of_nat nf)%Z → (0 < table a x)%Z →
  (x / Z.of_nat n, table a x / Z.of_nat n)%Z ∈ m.
Proof using H.
  intros Hx Hpos. destruct (slot_of x) as [Hs Hj]. rewrite Hs in Hpos |- *.
  destruct (hy_table m a H (x / Z.of_nat n) (Z.to_nat (x mod Z.of_nat n)) Hx Hj) as [E|(s&Hin&E)]; [lia|].
  rewrite E, !slot_page by done. done.
Qed.

(** ** Releasing window slots *)

(** The window pages of the pages that [l] lies in, and what is left of the map. *)
Definition mapped (l : list Z) : list (Z * Z) := filter (λ p, p.1 ∈ Paged.page_ids n l) m.
Definition unmapped (l : list Z) : list (Z * Z) := filter (λ p, p.1 ∉ Paged.page_ids n l) m.

Lemma mapped_split l : m ≡ₚ mapped l ++ unmapped l.
Proof. symmetry. apply (filter_app_complement (λ p, p.1 ∈ Paged.page_ids n l)). Qed.

Lemma mapped_windows l : m.*2 ≡ₚ (mapped l).*2 ++ (unmapped l).*2.
Proof. rewrite <-fmap_app. apply fmap_Permutation, mapped_split. Qed.

(** The slots whose entries [free_swa] looks up. *)
Definition lookups (l : list Z) : list Z := if n =? 1 then l else Swa.expand_to_full_pages n l.
Definition window_slots (l : list Z) : list Z := List.filter (λ x, 0 <? x)%Z (table a <$> lookups l).

Lemma elem_of_lookups l x : x ∈ lookups l ↔ (x / Z.of_nat n)%Z ∈ Paged.page_ids n l.
Proof using H.
  unfold lookups. destruct (Nat.eqb_spec n 1) as [E|E]; [|apply elem_of_expand, H].
  rewrite E, elem_of_page_ids. change (Z.of_nat 1) with 1%Z. setoid_rewrite Z.div_1_r. naive_solver.
Qed.

Lemma lookups_valid l : slots_valid a l → slots_valid a (lookups l).
Proof using H.
  intros Hv x Hx%elem_of_lookups. apply elem_of_page_ids in Hx as (y&Hy&->). by apply Hv.
Qed.

Lemma elem_of_window_slots l y : y ∈ window_slots l ↔ (0 < y)%Z ∧ ∃ x, x ∈ lookups l ∧ y = table a x.
Proof.
  unfold window_slots. rewrite list_elem_of_In, filter_In, <-list_elem_of_In, Z.ltb_lt, list_elem_of_fmap. naive_solver.
Qed.

Lemma window_slots_pages l : slots_valid a l → (n = 1 → NoDup l) → freed_pages n (window_slots l) ≡ₚ (mapped l).*2.
Proof using H.
  intros Hv Hnd. pose proof (lookups_valid l Hv) as Hlv.
  assert (∀ x, x ∈ lookups l → (0 < table a x)%Z → (x / Z.of_nat n, table a x / Z.of_nat n)%Z ∈ m) as Hpos.
  { intros x Hx. by apply table_pos, Hlv. }
  apply NoDup_Permutation.
  - unfold freed_pages. destruct (Nat.eqb_spec n 1) as [E|_]; [|apply NoDup_unique].
    specialize (Hnd E). unfold window_slots, lookups in *. rewrite (proj2 (Nat.eqb_eq n 1) E) in *. rewrite E in *. clear Hv Hlv.
    induction l as [|x l IH]; [constructor|]. apply NoDup_cons in Hnd as [Hx Hnd]. cbn [fmap list_fmap List.filter].
    assert (NoDup (List.filter (λ x, (0 <? x)%Z) (table a <$> l))) as IH' by (apply IH; [done|intros; apply Hpos; [by right|done]]).
    destruct (Z.ltb_spec 0 (table a x)) as [Hp|]; [|done]. apply NoDup_cons. split; [|done].
    rewrite list_elem_of_In, filter_In, <-list_elem_of_In, list_elem_of_fmap. intros [(y&Ey&Hy) _]. apply Hx.
    pose proof (Hpos x ltac:(by left) Hp) as H1. pose proof (Hpos y ltac:(by right) ltac:(by rewrite <-Ey)) as H2.
    rewrite <-Ey in H2. pose proof (hybrid_inj _ _ _ H1 H2) as E2. rewrite !Z.div_1_r in E2. by subst.
  - pose proof hybrid_img_in_pool as [Hn _]. apply NoDup_app in Hn as (Hn&_).
    eapply sublist_NoDup; [done|]. apply fmap_sublist, sublist_filter.
  - intros s. rewrite elem_of_freed_pages. unfold mapped. split.
    + intros (y&(Hy&x&Hx&->)%elem_of_window_slots&->). apply list_elem_of_fmap.
      eexists (_, _). split; [done|]. apply list_elem_of_filter. split; [|by apply Hpos].
      by apply elem_of_lookups.
    + intros ([f s']&->&[Hf Hin]%list_elem_of_filter)%list_elem_of_fmap. cbn [fst snd] in *.
      destruct (hy_hit m a H f s' Hin) as (j&Hj&Ej). pose proof (hybrid_img_pos f s' Hin). pose proof (hy_ps m a H).
      exists (slot n s' j). rewrite slot_page by done. split; [|done]. apply elem_of_window_slots.
      split; [unfold slot; nia|]. exists (slot n f j). split; [|done]. apply elem_of_lookups. by rewrite slot_page.
Qed.

End Hybrid.
