(* ===== verification/SwaFree.v ===== *)
(** * Releasing slots of the hybrid allocator

    [free], [free_swa] and the free groups keep the invariant [hybrid]; a grouped
    sequence of releases ends in the state the same releases reach one by one. *)

From stdpp Require Import base tactics numbers list gmap sorting.
From Stdlib Require Import ZArith Lia ZifyNat.
From S2P Require Import Prelude RadixCache Allocator AllocFree AllocCorrect AllocKernel AllocExtend PoolAlloc.
From S2P Require Import SwaAlloc SwaInv.

Local Open Scope nat_scope.

(** What every operation leaves as it is. *)
Definition same_swa (a a' : SwaAlloc) : Prop :=
  page_size a' = page_size a ∧ same_sub (full_attn_allocator a) (full_attn_allocator a')
  ∧ same_sub (swa_attn_allocator a) (swa_attn_allocator a').

Global Instance same_swa_preorder : PreOrder same_swa.
Proof.
  split; [by intros a|]. intros a b c (?&?&?) (?&?&?). split_and!; [congruence|by etrans..].
Qed.

Lemma same_swa_windows a a' : same_swa a a' → num_pages (swa_attn_allocator a') = num_pages (swa_attn_allocator a).
Proof. by intros (_&_&((_&?&_)&_)). Qed.

Lemma same_swa_valid a a' l : same_swa a a' → slots_valid a' l ↔ slots_valid a l.
Proof. intros (E&((_&En&_)&_)&_). unfold slots_valid. by rewrite E, En. Qed.

(** The table after the pages of [l] have lost their window slots. *)
Definition cleared (l : list Z) (a a' : SwaAlloc) : Prop :=
  ∀ x, (0 ≤ x / Z.of_nat (page_size a) ≤ Z.of_nat (num_pages (full_attn_allocator a)))%Z →
    table a' x = if decide ((x / Z.of_nat (page_size a))%Z ∈ Paged.page_ids (page_size a) l) then 0%Z else table a x.

Lemma page_ids_app n l1 l2 : Paged.page_ids n (l1 ++ l2) = Paged.page_ids n l1 ++ Paged.page_ids n l2.
Proof. apply fmap_app. Qed.

Section Release.
Context (m : list (Z * Z)) (a : SwaAlloc) (H : hybrid m a).
Local Abbreviation n := (page_size a).
Local Abbreviation nf := (num_pages (full_attn_allocator a)).

(** Clearing the table of the pages of [l]. *)
Lemma clear_pages l : slots_valid a l → ∃ t',
  Swa.clear_full_to_swa_mapping (lookups a l) a = Ok (set_mapping t' a)
  ∧ length t' = length (full_to_swa_index_mapping a) ∧ last t' = Some (-1)%Z ∧ cleared l a (set_mapping t' a).
Proof using H.
  intros Hv. pose proof (slots_in_table m a H _ (lookups_valid m a H l Hv)) as Hl.
  unfold Swa.clear_full_to_swa_mapping. destruct (Nat.eqb_spec (length (lookups a l)) 0) as [Hz|_].
  { exists (full_to_swa_index_mapping a). split_and!; [by destruct a|done|apply H|]. intros x Hx.
    rewrite decide_False; [done|]. intros Hel%(elem_of_lookups m a H). apply length_zero_iff_nil in Hz. rewrite Hz in Hel. by apply elem_of_nil in Hel. }
  destruct (index_fill_ok _ _ 0%Z Hl) as (t'&->&Hlen&Hat). exists t'. split_and!; [done..| |].
  - rewrite <-(hy_last m a H). rewrite !last_lookup, Hlen.
    pose proof (hy_len m a H) as Hn. set (k := pred _).
    assert (in_tensor (full_to_swa_index_mapping a) (Z.of_nat k)) as Hk by (unfold in_tensor, k; lia).
    specialize (Hat _ Hk). rewrite decide_False in Hat.
    + unfold at_index in Hat. rewrite Nat2Z.id in Hat.
      rewrite (list_lookup_lookup_total_lt t' k), (list_lookup_lookup_total_lt (full_to_swa_index_mapping a) k) by lia.
      by rewrite Hat.
    + intros Hel%(lookups_valid m a H l Hv). pose proof (hy_ps m a H). unfold k in Hel. nia.
  - intros x Hx. unfold table. cbn [full_to_swa_index_mapping set_mapping].
    rewrite Hat by (pose proof (hy_len m a H); pose proof (hy_ps m a H); unfold in_tensor; nia).
    do 2 case_decide; try done; exfalso; by rewrite (elem_of_lookups m a H) in *.
Qed.

(** The invariant without the pages of [l], once their window pages are accounted for. *)
Lemma hybrid_unmap l a' : slots_valid a l → same_swa a a' → full_attn_allocator a' = full_attn_allocator a →
  sub_ok (swa_attn_allocator a') → length (full_to_swa_index_mapping a') = length (full_to_swa_index_mapping a) →
  last (full_to_swa_index_mapping a') = Some (-1)%Z → cleared l a a' →
  pending a' ++ held (swa_attn_allocator a') ≡ₚ (mapped m a l).*2 ++ pending a ++ held (swa_attn_allocator a) →
  hybrid (unmapped m a l) a'.
Proof using H.
  intros Hv (Ep&(_&_)&(Es&_)) Ef Hs Hlen Hlast Hcl Hpend. pose proof (mapped_split m a l) as Hsplit.
  constructor; rewrite ?Ef, ?Ep, ?Hlen; try apply H; try done.
  - rewrite (proj1 Es). apply H.
  - pose proof (hy_dom m a H) as Hd. rewrite Hsplit, fmap_app, <-app_assoc in Hd. by apply in_pool_app in Hd as (_&?&_).
  - rewrite Hpend, (proj1 (proj2 Es)), <-(hy_img m a H), (mapped_windows m a l).
    rewrite <-app_assoc. apply Permutation_app_swap_app.
  - intros f j Hf Hj. specialize (Hcl (slot n f j)). rewrite slot_page in Hcl by done. rewrite (Hcl Hf).
    case_decide as Hd; [by left|]. destruct (hy_table m a H f j Hf Hj) as [?|(s&Hin&?)]; [by left|]. right.
    exists s. split; [|done]. by apply list_elem_of_filter.
  - intros f s [Hf Hin]%list_elem_of_filter. cbn [fst] in Hf. destruct (hy_hit m a H f s Hin) as (j&Hj&Ej).
    exists j. split; [done|]. rewrite Hcl; [|rewrite slot_page by done; pose proof (hybrid_dom m a H f s Hin); lia].
    rewrite slot_page by done. by rewrite decide_False.
Qed.

Lemma free_swa_spec l : slots_valid a l → (n = 1 → NoDup l) →
  ∃ a', Swa.free_swa l a = Ok a' ∧ hybrid (unmapped m a l) a' ∧ same_swa a a'
    ∧ full_attn_allocator a' = full_attn_allocator a ∧ cleared l a a'
    ∧ not_in_free_group a' = not_in_free_group a ∧ swa_free_group_full a' = swa_free_group_full a
    ∧ (not_in_free_group a = true → swa_free_group a' = swa_free_group a).
Proof using H.
  intros Hv Hnd. unfold Swa.free_swa. destruct (Nat.eqb_spec (length l) 0) as [Hz|_].
  { apply length_zero_iff_nil in Hz as ->. exists a. split_and!; try done.
    unfold unmapped. rewrite filter_all; [done|]. intros p _. apply not_elem_of_nil. }
  fold (lookups a l). destruct (clear_pages l Hv) as (t'&Hc&Hlen&Hlast&Hcl).
  rewrite gather_ok by (eapply slots_in_table, lookups_valid; done). res_step. rewrite Hc. res_step.
  change (List.filter _ _) with (window_slots a l). cbn [not_in_free_group set_mapping].
  pose proof (window_slots_pages m a H l Hv Hnd) as Hw. pose proof (hybrid_img_in_pool m a H) as Hp.
  rewrite (mapped_windows m a l), <-app_assoc in Hp. apply in_pool_app in Hp as (Hp1&Hp2&Hd).
  apply in_pool_app in Hp2 as (_&Hp2&_).
  destruct (not_in_free_group a) eqn:Hg.
  - destruct (sub_free_spec (window_slots a l) (swa_attn_allocator a)) as (Hok&Hsame&Hh); [apply H|rewrite (hy_pss m a H); apply H| |].
    { rewrite (hy_pss m a H), Hw. apply in_pool_app in Hp2 as (_&Hp2&_). apply in_pool_app. split_and!; [done..|].
      intros p Hp Hh. eapply (Hd p Hp). rewrite !elem_of_app. auto. }
    eexists. split; [reflexivity|]. assert (∀ f, same_sub (full_attn_allocator a) f → same_swa a (set_pools f
      (sub_free (window_slots a l) (swa_attn_allocator a)) (set_mapping t' a))) as Hsw by (unfold same_swa; by intros; split_and!).
    split; [|split; [by apply Hsw|by split_and!]]. apply (hybrid_unmap l); try (done || by apply Hsw). unfold pending. cbn [page_size swa_free_group swa_attn_allocator set_pools set_mapping].
    rewrite Hh, (hy_pss m a H), Hw. apply Permutation_app_swap_app.
  - eexists. split; [reflexivity|]. split_and!; try done.
    apply (hybrid_unmap l); try done; [apply H|]. unfold pending. cbn [page_size swa_free_group swa_attn_allocator set_groups set_mapping].
    rewrite concat_app. cbn [concat]. rewrite app_nil_r, freed_pages_app, Hw.
    + rewrite (Permutation_app_comm _ (mapped m a l).*2). by rewrite app_assoc.
    + intros p Hp Hp'. rewrite Hw in Hp'. apply (Hd p Hp'). rewrite !elem_of_app. auto.
Qed.

End Release.

(** ** Releasing full slots *)

(** Outside a free group nothing waits. *)
Definition idle (a : SwaAlloc) : Prop := not_in_free_group a = true ∧ swa_free_group a = [].

(** Replacing the full pool. *)
Definition with_full (f : KvAlloc) (a : SwaAlloc) : SwaAlloc := set_pools f (swa_attn_allocator a) a.

Lemma hybrid_with_full m a f : hybrid m a → sub_ok f → same_sub (full_attn_allocator a) f →
  in_pool (num_pages f) (m.*1 ++ held f) → hybrid m (with_full f a).
Proof.
  intros H Hf ((E1&E2&_&_)&_) Hin. pose proof H as [??????????].
  constructor; cbn [with_full set_pools full_attn_allocator page_size] in *; rewrite ?E1, ?E2; try done.
  by rewrite <-E2.
Qed.

Lemma free_swa_with_full l f a :
  Swa.free_swa l (with_full f a) = let! a' := Swa.free_swa l a in Ok (with_full f a').
Proof.
  unfold Swa.free_swa. cbn [page_size full_to_swa_index_mapping with_full set_pools].
  destruct (length l =? 0); [done|]. destruct (gather _ _) as [w|]; res_step; [|done].
  unfold Swa.clear_full_to_swa_mapping. cbn [full_to_swa_index_mapping].
  destruct (length _ =? 0); res_step; [cbn; by destruct (not_in_free_group a)|].
  destruct (index_fill _ _ _) as [t|]; res_step; [|done]. cbn. by destruct (not_in_free_group a).
Qed.

Lemma in_pool_valid a l : 0 < page_size a →
  in_pool (num_pages (full_attn_allocator a)) (freed_pages (page_size a) l ++ held (full_attn_allocator a)) →
  slots_valid a l ∧ (page_size a = 1 → NoDup l).
Proof.
  intros Hn (Hf&_&_)%in_pool_app. split.
  - intros x Hx. destruct Hf as [_ Hr]. specialize (Hr (x / Z.of_nat (page_size a))%Z).
    rewrite elem_of_freed_pages in Hr. specialize (Hr ltac:(by eauto)). lia.
  - intros E. rewrite E in Hf. apply Hf.
Qed.

Lemma free_spec m a l : hybrid m a → not_in_free_group a = true →
  in_pool (num_pages (full_attn_allocator a)) (freed_pages (page_size a) l ++ held (full_attn_allocator a)) →
  ∃ a', Swa.free l a = Ok a' ∧ hybrid (unmapped m a l) a' ∧ same_swa a a' ∧ cleared l a a'
    ∧ not_in_free_group a' = true ∧ swa_free_group a' = swa_free_group a
    ∧ held (full_attn_allocator a') ≡ₚ freed_pages (page_size a) l ++ held (full_attn_allocator a).
Proof.
  intros H Hg Hin. destruct (in_pool_valid a l (hy_ps m a H) Hin) as [Hv Hnd]. unfold Swa.free.
  destruct (Nat.eqb_spec (length l) 0) as [Hz|_].
  { destruct (free_swa_spec m a H l Hv Hnd) as (a'&Hfs&Hh&_&_&Hc&_). unfold Swa.free_swa in Hfs. rewrite Hz in Hfs.
    injection Hfs as <-. exists a. apply length_zero_iff_nil in Hz as ->. split_and!; try done.
    by rewrite freed_pages_nil. }
  rewrite Hg. destruct (sub_free_spec l (full_attn_allocator a)) as (Hok&Hs&Hh); [apply H|rewrite (hy_psf m a H); apply H|by rewrite (hy_psf m a H)|].
  rewrite (hy_psf m a H) in Hh. set (f := sub_free _ _) in *. fold (with_full f a). rewrite free_swa_with_full.
  destruct (free_swa_spec m a H l Hv Hnd) as (a'&->&Hhy&Hsame&Hfull&Hcl&Hg'&_&Hq'). res_step.
  assert (hybrid (unmapped m a l) (with_full f a')) as Hnew.
  { rewrite <-Hfull in Hs. apply hybrid_with_full; [done..|]. pose proof (hy_dom _ _ Hhy) as Hd. rewrite Hfull in *.
    rewrite (proj1 (proj2 (proj1 Hs))), Hh. apply in_pool_app in Hd as (Hd1&_&Hd2). apply in_pool_app. split_and!; [done..|].
    intros p Hp. rewrite elem_of_app. intros [Hp'|Hp']; [|by eapply Hd2].
    apply list_elem_of_fmap in Hp as (x&->&[Hx _]%list_elem_of_filter). apply Hx.
    apply elem_of_freed_pages in Hp' as (y&?&->). apply elem_of_page_ids. by eauto. }
  cbn [full_attn_allocator swa_attn_allocator with_full set_pools].
  pose proof (available_le f Hok) as Hl1. pose proof (available_le _ (hy_swa _ _ Hnew)) as Hl2.
  cbn [full_attn_allocator swa_attn_allocator with_full set_pools] in Hl2.
  unfold assert_. rewrite !(proj2 (Nat.leb_le _ _)) by done. res_step. exists (with_full f a').
  assert (not_in_free_group (with_full f a') = true) by (cbn; congruence).
  assert (swa_free_group (with_full f a') = swa_free_group a) by by apply Hq'.
  destruct Hsame as (?&?&?). by split_and!.
Qed.

(** ** Free groups *)

(** A release of full slots, or of their window slots only. *)
Inductive release :=
  | Free (l : list Z)
  | FreeSwa (l : list Z).

Definition do_release (op : release) (a : SwaAlloc) : res SwaAlloc :=
  match op with Free l => Swa.free l a | FreeSwa l => Swa.free_swa l a end.
Fixpoint do_releases (ops : list release) (a : SwaAlloc) : res SwaAlloc :=
  match ops with
  | [] => Ok a
  | op :: ops => let! a := do_release op a in do_releases ops a
  end.

Definition freed (op : release) : list Z := match op with Free l => l | FreeSwa _ => [] end.
Definition unwindowed (op : release) : list Z := match op with Free _ => [] | FreeSwa l => l end.
Definition released (op : release) : list Z := match op with Free l | FreeSwa l => l end.

(** Every full page is released at most once, by its owner; the window slots of a page
    may be released before. *)
Definition releases_ok (ops : list release) (a : SwaAlloc) : Prop :=
  in_pool (num_pages (full_attn_allocator a))
    ((ops ≫= λ op, freed_pages (page_size a) (freed op)) ++ held (full_attn_allocator a))
  ∧ Forall (λ op, slots_valid a (unwindowed op) ∧ (page_size a = 1 → NoDup (unwindowed op))) ops.

(** The page map without the pages of [l]. *)
Definition keep (n : nat) (l : list Z) (m : list (Z * Z)) : list (Z * Z) := filter (λ p, p.1 ∉ Paged.page_ids n l) m.

Lemma keep_app n l1 l2 m : keep n l2 (keep n l1 m) = keep n (l1 ++ l2) m.
Proof.
  unfold keep. rewrite list_filter_filter. apply list_filter_iff. intros p. rewrite page_ids_app. set_solver.
Qed.

Lemma keep_ext n l1 l2 m : (∀ x, x ∈ l1 ↔ x ∈ l2) → keep n l1 m = keep n l2 m.
Proof.
  intros Hl. unfold keep. apply list_filter_iff. intros p. rewrite !elem_of_page_ids. by setoid_rewrite Hl.
Qed.

Lemma cleared_app l1 l2 a a1 a2 : same_swa a a1 → cleared l1 a a1 → cleared l2 a1 a2 → cleared (l1 ++ l2) a a2.
Proof.
  intros (E&((_&En&_)&_)&_) H1 H2 x Hx. rewrite H2; rewrite E, ?En; [|done]. rewrite H1 by done.
  rewrite page_ids_app. repeat case_decide; set_solver.
Qed.

(** Released one after the other. *)
Lemma do_releases_spec ops m a : hybrid m a → idle a → releases_ok ops a →
  ∃ a', do_releases ops a = Ok a' ∧ hybrid (keep (page_size a) (ops ≫= released) m) a' ∧ same_swa a a' ∧ idle a'
    ∧ cleared (ops ≫= released) a a'
    ∧ held (full_attn_allocator a')
        ≡ₚ (ops ≫= λ op, freed_pages (page_size a) (freed op)) ++ held (full_attn_allocator a).
Proof.
  revert m a. induction ops as [|op ops IH]; intros m a H Hi [Hf Hv].
  { exists a. split_and!; try done. unfold keep. rewrite filter_all; [done|]. intros. apply not_elem_of_nil. }
  cbn [do_releases mbind list_bind] in *. apply Forall_cons in Hv as [[Hv1 Hv1'] Hv]. rewrite <-app_assoc in Hf.
  assert (∃ a1, do_release op a = Ok a1 ∧ hybrid (unmapped m a (released op)) a1 ∧ same_swa a a1 ∧ idle a1
    ∧ cleared (released op) a a1
    ∧ held (full_attn_allocator a1) ≡ₚ freed_pages (page_size a) (freed op) ++ held (full_attn_allocator a))
    as (a1&->&H1&Hs1&Hi1&Hc1&Hh1).
  { destruct op as [l|l]; cbn [do_release released freed unwindowed] in *.
    - destruct Hi as [Hi1 Hi2]. destruct (free_spec m a l H Hi1) as (a1&?&?&?&?&?&Eq&?).
      { rewrite Permutation_app_swap_app in Hf. by apply in_pool_app in Hf as (_&?&_). }
      exists a1. rewrite Hi2 in Eq. by split_and!.
    - destruct (free_swa_spec m a H l Hv1 Hv1') as (a1&?&?&?&E&?&Eg&_&Eq). exists a1. destruct Hi as [Hi1 Hi2].
      assert (idle a1) by (split; [congruence|by rewrite Eq]). rewrite E. split_and!; try done.
      by rewrite freed_pages_nil. }
  res_step. pose proof Hs1 as (Ep&((_&En&_)&_)&_). destruct (IH _ a1 H1 Hi1) as (a'&->&H'&Hs'&Hi'&Hc'&Hh').
  { split; [rewrite En, Hh1, Ep; by rewrite Permutation_app_swap_app|].
    eapply Forall_impl; [done|]. intros x. by rewrite (same_swa_valid a a1), Ep. }
  exists a'. rewrite Ep in H', Hh'. change (unmapped m a (released op)) with (keep (page_size a) (released op) m) in H'. rewrite keep_app in H'.
  split_and!; try done; [by etrans|by eapply cleared_app|]. rewrite Hh', Hh1, <-app_assoc. apply Permutation_app_swap_app.
Qed.

Lemma hybrid_groups m a b g s : hybrid m a → freed_pages (page_size a) (concat s) ≡ₚ pending a →
  hybrid m (set_groups b g s a).
Proof.
  intros H Hp. pose proof (hy_img m a H) as Himg. pose proof H as [???????????].
  constructor; cbn [set_groups full_attn_allocator swa_attn_allocator full_to_swa_index_mapping page_size]; try done.
  rewrite <-Himg. unfold pending at 1. cbn [set_groups swa_free_group page_size]. by rewrite Hp.
Qed.

(** Inside a group: full slots are collected, window slots are resolved at once. *)
Lemma grouped_spec ops m b : hybrid m b → not_in_free_group b = false →
  Forall (λ op, slots_valid b (unwindowed op) ∧ (page_size b = 1 → NoDup (unwindowed op))) ops →
  ∃ b', do_releases ops b = Ok b' ∧ hybrid (keep (page_size b) (ops ≫= unwindowed) m) b' ∧ same_swa b b'
    ∧ full_attn_allocator b' = full_attn_allocator b ∧ not_in_free_group b' = false
    ∧ cleared (ops ≫= unwindowed) b b'
    ∧ concat (swa_free_group_full b') = concat (swa_free_group_full b) ++ (ops ≫= freed).
Proof.
  revert m b. induction ops as [|op ops IH]; intros m b H Hg Hv.
  { exists b. split_and!; try done; [|cbn; by rewrite app_nil_r].
    unfold keep. rewrite filter_all; [done|]. intros. apply not_elem_of_nil. }
  cbn [do_releases mbind list_bind] in *. apply Forall_cons in Hv as [[Hv1 Hv1'] Hv].
  assert (∃ b1, do_release op b = Ok b1 ∧ hybrid (unmapped m b (unwindowed op)) b1 ∧ same_swa b b1
    ∧ full_attn_allocator b1 = full_attn_allocator b ∧ not_in_free_group b1 = false ∧ cleared (unwindowed op) b b1
    ∧ concat (swa_free_group_full b1) = concat (swa_free_group_full b) ++ freed op) as (b1&->&H1&Hs1&Hf1&Hg1&Hc1&Hq1).
  { destruct op as [l|l]; cbn [do_release freed unwindowed] in *; cycle 1.
    { destruct (free_swa_spec m b H l Hv1 Hv1') as (b1&?&?&?&?&?&Eg&Eq&_). exists b1.
      split_and!; try done; [congruence|by rewrite Eq, app_nil_r]. }
    assert (hybrid (unmapped m b []) b) as Hnil.
    { unfold unmapped. rewrite filter_all; [done|]. intros. apply not_elem_of_nil. }
    unfold Swa.free. destruct (Nat.eqb_spec (length l) 0) as [Hz|_].
    { apply length_zero_iff_nil in Hz as ->. exists b. split_and!; try done. by rewrite app_nil_r. }
    rewrite Hg. res_step. cbn [full_attn_allocator swa_attn_allocator set_groups].
    pose proof (available_le _ (hy_full _ _ H)) as Hl1. pose proof (available_le _ (hy_swa _ _ H)) as Hl2.
    unfold assert_. rewrite !(proj2 (Nat.leb_le _ _)) by done. res_step. eexists. split; [reflexivity|].
    split; [by apply hybrid_groups|]. split_and!; try done. cbn. rewrite concat_app. cbn. by rewrite app_nil_r. }
  res_step. pose proof Hs1 as (Ep&_). destruct (IH _ b1 H1 Hg1) as (b'&->&H'&Hs'&Hf'&Hg'&Hc'&Hq').
  { eapply Forall_impl; [done|]. intros x. by rewrite (same_swa_valid b b1), Ep. }
  exists b'. rewrite Ep in H'. change (unmapped m b (unwindowed op)) with (keep (page_size b) (unwindowed op) m) in H'.
  rewrite keep_app in H'. split_and!; try done; [by etrans|congruence|by eapply cleared_app|].
  by rewrite Hq', Hq1, <-app_assoc.
Qed.

(** The end of a group gives the collected window slots back. *)
Lemma hybrid_flush m a : hybrid m a → not_in_free_group a = true →
  let a' := match swa_free_group a with
            | [] => a
            | g => set_pools (full_attn_allocator a) (sub_free (concat g) (swa_attn_allocator a))
                     (set_groups (not_in_free_group a) (swa_free_group_full a) [] a)
            end in
  hybrid m a' ∧ idle a' ∧ same_swa a a' ∧ full_attn_allocator a' = full_attn_allocator a ∧ table a' = table a.
Proof.
  intros H Hg a'. subst a'. destruct (swa_free_group a) as [|x g] eqn:E; [by unfold idle|].
  pose proof (hybrid_img_in_pool m a H) as Hp. apply in_pool_app in Hp as (_&Hp&_). unfold pending in Hp. rewrite E in Hp.
  destruct (sub_free_spec (concat (x :: g)) (swa_attn_allocator a)) as (Hok&Hs&Hh);
    [apply H|rewrite (hy_pss m a H); apply H|by rewrite (hy_pss m a H)|].
  rewrite (hy_pss m a H) in Hh. pose proof Hs as ((E1&E2&_)&_).
  split; [|by unfold idle, same_swa; split_and!]. pose proof (hy_img m a H) as Himg. pose proof H as [???????????].
  constructor; cbn [set_groups set_pools full_attn_allocator swa_attn_allocator full_to_swa_index_mapping page_size]; try done.
  - by rewrite E1.
  - rewrite E2, <-Himg, Hh. unfold pending. rewrite E. cbn [swa_free_group set_pools set_groups concat].
    by rewrite freed_pages_nil.
Qed.

Lemma free_group_end_spec m b l : hybrid m b → concat (swa_free_group_full b) = l →
  in_pool (num_pages (full_attn_allocator b)) (freed_pages (page_size b) l ++ held (full_attn_allocator b)) →
  ∃ a', Swa.free_group_end b = Ok a' ∧ hybrid (keep (page_size b) l m) a' ∧ idle a' ∧ same_swa b a' ∧ cleared l b a'
    ∧ held (full_attn_allocator a') ≡ₚ freed_pages (page_size b) l ++ held (full_attn_allocator b).
Proof.
  intros H Hl Hin. unfold Swa.free_group_end. cbn [swa_free_group_full set_groups].
  set (b1 := set_groups true (swa_free_group_full b) (swa_free_group b) b).
  assert (hybrid m b1) as H1 by by apply hybrid_groups.
  assert (∃ b2, (match swa_free_group_full b with [] => Ok b1 | g => Swa.free (concat g) b1 end) = Ok b2
    ∧ hybrid (keep (page_size b) l m) b2 ∧ same_swa b b2 ∧ cleared l b b2 ∧ not_in_free_group b2 = true
    ∧ held (full_attn_allocator b2) ≡ₚ freed_pages (page_size b) l ++ held (full_attn_allocator b)) as (b2&E2&H2&Hs2&Hc2&Hg2&Hh2).
  { destruct (free_spec m b1 l H1 eq_refl Hin) as (b2&Hb2&?&?&?&?&?&?).
    destruct (swa_free_group_full b) as [|x g]; [|rewrite Hl; by exists b2].
    cbn in Hl. subst l. injection Hb2 as <-. by exists b1. }
  rewrite E2. res_step. destruct (hybrid_flush _ b2 H2 Hg2) as (H3&Hi3&Hs3&Hf3&Ht3).
  destruct (swa_free_group b2) eqn:Eg.
  - exists b2. by split_and!.
  - eexists. split; [reflexivity|]. split; [done|]. split; [done|]. split; [by etrans|]. split; [|done].
    intros x Hx. rewrite <-(Hc2 x Hx). apply (f_equal (λ f, f x) Ht3).
Qed.

Lemma freed_pages_bind n ops : NoDup (ops ≫= λ op, freed_pages n (freed op)) →
  (ops ≫= λ op, freed_pages n (freed op)) ≡ₚ freed_pages n (ops ≫= freed).
Proof.
  induction ops as [|op ops IH]; intros Hnd; [by rewrite freed_pages_nil|]. cbn [mbind list_bind] in *.
  apply NoDup_app in Hnd as (_&Hd&Hnd). rewrite freed_pages_app; [by rewrite IH|]. intros p. rewrite <-IH by done. apply Hd.
Qed.

(** With the same page map, the same window pages are free. *)
Lemma idle_windows m a1 a2 : hybrid m a1 → hybrid m a2 → idle a1 → idle a2 →
  num_pages (swa_attn_allocator a1) = num_pages (swa_attn_allocator a2) →
  held (swa_attn_allocator a1) ≡ₚ held (swa_attn_allocator a2).
Proof.
  intros H1 H2 [_ Hi1] [_ Hi2] E. pose proof (hy_img m a1 H1) as Hw1. pose proof (hy_img m a2 H2) as Hw2.
  unfold pending in *. rewrite Hi1, E in Hw1. rewrite Hi2, <-Hw1 in Hw2. cbn [concat] in Hw2.
  rewrite !freed_pages_nil in Hw2. by apply Permutation_app_inv_l in Hw2.
Qed.

(** C16: a free group of the hybrid allocator is invisible: a sequence of releases of
    full slots and of window slots inside [free_group_begin] and [free_group_end]
    ends with the same free full pages, the same free window pages and the same
    translation of every slot as the releases done one by one, and no page is lost or
    released twice.  Window slots are resolved when they are released, so a slot
    whose window part went before is not released again with the full slot. *)
Theorem swa_free_group_deferred (m : list (Z * Z)) (a : SwaAlloc) (ops : list release)
    (Hinv : hybrid m a) (Hidle : idle a) (Hops : releases_ok ops a) :
  ∃ a1 a2, do_releases ops a = Ok a1
    ∧ (let! b := do_releases ops (Swa.free_group_begin a) in Swa.free_group_end b) = Ok a2
    ∧ hybrid (keep (page_size a) (ops ≫= released) m) a1 ∧ hybrid (keep (page_size a) (ops ≫= released) m) a2
    ∧ held (full_attn_allocator a2) ≡ₚ held (full_attn_allocator a1)
    ∧ held (swa_attn_allocator a2) ≡ₚ held (swa_attn_allocator a1)
    ∧ (∀ x, slots_valid a [x] → table a2 x = table a1 x).
Proof.
  destruct (do_releases_spec ops m a Hinv Hidle Hops) as (a1&->&H1&Hs1&Hi1&Hc1&Hh1). destruct Hops as [Hf Hv].
  assert (hybrid m (Swa.free_group_begin a)) as Hb.
  { apply hybrid_groups; [done|]. unfold pending. by rewrite (proj2 Hidle). }
  destruct (grouped_spec ops m _ Hb eq_refl Hv) as (b&->&H2&Hs2&Hf2&Hg2&Hc2&Hq2). res_step.
  assert ((ops ≫= λ op, freed_pages (page_size a) (freed op)) ≡ₚ freed_pages (page_size a) (ops ≫= freed)) as Hbind.
  { apply freed_pages_bind. by apply in_pool_app in Hf as ((?&_)&_). }
  rewrite Hbind in Hf, Hh1.
  assert (page_size b = page_size a) as Ep by apply Hs2.
  destruct (free_group_end_spec _ b (ops ≫= freed) H2) as (a2&->&H3&Hi3&Hs3&Hc3&Hh3); [done|by rewrite Hf2, Ep|].
  rewrite Ep, keep_app in H3. rewrite Ep, Hf2 in Hh3. cbn [page_size Swa.free_group_begin set_groups] in H3.
  assert (∀ x, x ∈ (ops ≫= unwindowed) ++ (ops ≫= freed) ↔ x ∈ (ops ≫= released)) as Hrel.
  { intros x. rewrite elem_of_app, !list_elem_of_bind. split.
    - intros [(op&Hx&?)|(op&Hx&?)]; exists op; destruct op; cbn in *; (done || by apply elem_of_nil in Hx).
    - intros ([l|l]&Hx&?); [right; by exists (Free l)|left; by exists (FreeSwa l)]. }
  rewrite (keep_ext _ _ _ _ Hrel) in H3. exists a1, a2. split_and!; try done.
  - by rewrite Hh3, Hh1.
  - apply (idle_windows _ _ _ H3 H1 Hi3 Hi1). 
    rewrite (same_swa_windows _ _ Hs3), (same_swa_windows _ _ Hs2). by rewrite (same_swa_windows _ _ Hs1).
  - intros x Hx. specialize (Hx x ltac:(by left)). rewrite (cleared_app _ _ _ _ _ Hs2 Hc2 Hc3), Hc1 by done.
    apply decide_ext. rewrite !elem_of_page_ids. by setoid_rewrite Hrel.
Qed.
