(* ===== verification/SwaGrow.v ===== *)
(** * Allocation in the hybrid allocator

    [alloc], [alloc_extend], [alloc_decode] and [alloc_extend_swa_tail] keep the
    invariant [hybrid]: new full pages are paired with new window pages, and the
    table translates every new slot at the same offset of its page. *)

From stdpp Require Import base tactics numbers list gmap sorting.
From Stdlib Require Import ZArith Lia ZifyNat.
From S2P Require Import Prelude RadixCache Allocator AllocFree AllocCorrect AllocKernel AllocExtend PoolAlloc.
From S2P Require Import SwaAlloc SwaInv SwaFree.

Local Open Scope nat_scope.

Lemma zip_at {A B} (l : list A) (k : list B) i x y : l !! i = Some x → k !! i = Some y → (x, y) ∈ zip l k.
Proof. intros Hl Hk. apply list_elem_of_lookup. exists i. rewrite lookup_zip_with. by rewrite Hl; cbn; rewrite Hk. Qed.

(** A slot that has a window slot. *)
Definition windowed (a : SwaAlloc) (x : Z) : Prop := slots_valid a [x] ∧ (0 < table a x)%Z.

Lemma init_hybrid size size_swa n sort : 0 < n →
  hybrid [] (Swa.init size size_swa n sort) ∧ idle (Swa.init size size_swa n sort).
Proof.
  intros Hn. split; [|done].
  assert (∀ k, ps (sub_init k n sort) = n ∧ sub_ok (sub_init k n sort)
    ∧ held (sub_init k n sort) = arange 1 (Z.of_nat (num_pages (sub_init k n sort)) + 1)
    ∧ num_pages (sub_init k n sort) * n ≤ k) as Hsub.
  { intros k. unfold sub_init. destruct (Nat.eqb_spec n 1) as [->|_].
    - split_and!; [done| |unfold held; cbn; by rewrite app_nil_r|cbn; lia].
      split_and!; [apply token_init_inv|done|cbn; lia].
    - pose proof (Nat.Div0.mul_div_le k n).
      split_and!; [done| |unfold held; cbn; by rewrite app_nil_r|cbn; lia].
      split_and!; [apply paged_init_inv|done|cbn; lia]. }
  destruct (Hsub size) as (Hp1&Hk1&Hh1&Hl1), (Hsub size_swa) as (Hp2&Hk2&Hh2&_).
  constructor; cbn [page_size full_attn_allocator swa_attn_allocator full_to_swa_index_mapping Swa.init]; try done.
  - rewrite length_app, length_replicate. cbn [length]. lia.
  - by rewrite last_snoc.
  - apply Hk1.
  - unfold pending. cbn [swa_free_group Swa.init concat]. rewrite freed_pages_nil, Hh2. done.
  - intros f j Hf Hj. left. unfold table, at_index, slot. cbn [full_to_swa_index_mapping Swa.init].
    rewrite lookup_total_app_l by (rewrite length_replicate; nia). apply lookup_total_replicate_2. nia.
  - intros f s Hin. by apply elem_of_nil in Hin.
Qed.

(** ** Writing the table for new pages *)

Section Assign.
Context (m : list (Z * Z)) (a : SwaAlloc) (H : hybrid m a).
Local Abbreviation n := (page_size a).

(** The pairs that are written follow the page map [M ++ m], at equal offsets. *)
Definition follows (mm : list (Z * Z)) (x y : Z) : Prop :=
  ∃ p s j, (p, s) ∈ mm ∧ j < n ∧ x = slot n p j ∧ y = slot n s j.

Lemma slot_inj p q j k : j < n → k < n → slot n p j = slot n q k → p = q ∧ j = k.
Proof. unfold slot. intros. assert (p = q) by nia. subst. split; lia. Qed.

Context (M : list (Z * Z)) (f s : KvAlloc).
Context (Hf : sub_ok f) (Hfs : same_sub (full_attn_allocator a) f) (Hs : sub_ok s) (Hss : same_sub (swa_attn_allocator a) s).
Context (Hdom : in_pool (num_pages (full_attn_allocator a)) ((M ++ m).*1 ++ held f)).
Context (Himg : held (swa_attn_allocator a) ≡ₚ M.*2 ++ held s).
Context (full_idx swa_idx : list Z) (Hlen : length swa_idx = length full_idx).
Context (Hfol : ∀ x y, (x, y) ∈ zip full_idx swa_idx → follows (M ++ m) x y).
Context (Hhit : ∀ p w, (p, w) ∈ M → ∃ j, j < n ∧ slot n p j ∈ full_idx).

Lemma pairs_fun p w w' : (p, w) ∈ M ++ m → (p, w') ∈ M ++ m → w = w'.
Proof using Hdom.
  intros H1 H2. destruct Hdom as [Hnd _]. apply NoDup_app in Hnd as (Hnd&_).
  apply elem_of_list_to_map in H1, H2; [|done..]. congruence.
Qed.

Lemma assigned_in_table : Forall (in_tensor (full_to_swa_index_mapping a)) full_idx.
Proof using H Hdom Hfol Hlen.
  apply Forall_forall. intros x Hx. apply list_elem_of_lookup in Hx as [i Hi].
  destruct (lookup_lt_is_Some_2 swa_idx i) as [y Hy]; [rewrite Hlen; by eapply lookup_lt_Some|].
  destruct (Hfol x y) as (p&w&j&Hin&Hj&->&_). { by eapply zip_at. }
  destruct Hdom as [_ Hr]. specialize (Hr p). rewrite elem_of_app in Hr. specialize (Hr ltac:(left; by apply (list_elem_of_fmap_2 fst) in Hin)).
  pose proof (hy_len m a H). unfold in_tensor, slot. nia.
Qed.

Lemma hybrid_assign : ∃ t', scatter (full_to_swa_index_mapping a) full_idx swa_idx = Ok t'
  ∧ hybrid (M ++ m) (set_mapping t' (set_pools f s a))
  ∧ (∀ x, x ∈ full_idx → (x, at_index t' x) ∈ zip full_idx swa_idx)
  ∧ (∀ x, slots_valid a [x] → x ∉ full_idx → at_index t' x = table a x).
Proof using H Hf Hfs Hs Hss Hdom Himg Hlen Hfol Hhit.
  pose proof assigned_in_table as Hin.
  destruct (scatter_ok _ _ _ Hin Hlen) as (t'&Ht&Htl&Hout&Hnew). exists t'.
  assert (∀ x, x ∈ full_idx → (x, at_index t' x) ∈ zip full_idx swa_idx) as Hzip.
  { intros x Hx. apply Hnew; [by eapply Forall_forall in Hin|done]. }
  assert (∀ x, slots_valid a [x] → x ∉ full_idx → at_index t' x = table a x) as Hold.
  { intros x Hx Hni. apply Hout; [|done]. apply (slots_in_table m a H) in Hx. by inv Hx. }
  split_and!; [done| |done..].
  destruct Hfs as ((E1&E2&_)&_), Hss as ((E3&E4&_)&_).
  assert (∀ p, (0 ≤ p ≤ Z.of_nat (num_pages (full_attn_allocator a)))%Z → ∀ j, j < n → slots_valid a [slot n p j]) as Hval.
  { intros p Hp j Hj x ->%list_elem_of_singleton. by rewrite slot_page. }
  constructor; cbn [page_size full_attn_allocator swa_attn_allocator full_to_swa_index_mapping set_mapping set_pools];
    rewrite ?E1, ?E2, ?E3, ?E4, ?Htl; try apply H; try done.
  - rewrite <-(hy_last m a H), !last_lookup, Htl. pose proof (hy_len m a H) as Hn. set (k := pred _).
    assert (in_tensor (full_to_swa_index_mapping a) (Z.of_nat k)) as Hk by (unfold in_tensor, k; lia).
    assert (Z.of_nat k ∉ full_idx) as Hni.
    { intros Hel%Hzip%Hfol. destruct Hel as (p&w&j&Hp&Hj&Ek&_). destruct Hdom as [_ Hr].
      specialize (Hr p). rewrite elem_of_app in Hr. specialize (Hr ltac:(left; by apply (list_elem_of_fmap_2 fst) in Hp)).
      unfold slot, k in Ek. nia. }
    specialize (Hout _ Hk Hni). unfold at_index in Hout. rewrite Nat2Z.id in Hout.
    rewrite (list_lookup_lookup_total_lt t' k), (list_lookup_lookup_total_lt (full_to_swa_index_mapping a) k) by lia.
    by rewrite Hout.
  - rewrite <-(hy_img m a H), Himg, fmap_app. unfold pending. cbn [page_size swa_free_group set_mapping set_pools].
    rewrite <-app_assoc, (Permutation_app_swap_app M.*2). apply Permutation_app_head, Permutation_app_swap_app.
  - intros p j Hp Hj. unfold table. cbn [full_to_swa_index_mapping set_mapping].
    destruct (decide (slot n p j ∈ full_idx)) as [Hel|Hni].
    + right. apply Hzip, Hfol in Hel as (p'&w&j'&Hp'&Hj'&[-> ->]%slot_inj&Ew); [|done..]. eauto.
    + rewrite Hold by auto. destruct (hy_table m a H p j Hp Hj) as [?|(w&?&?)]; [by left|right].
      exists w. split; [apply elem_of_app; by right|done].
  - intros p w Hpw. pose proof Hpw as Hpw'. unfold table. cbn [full_to_swa_index_mapping set_mapping].
    assert (∃ j, j < n ∧ (slot n p j ∈ full_idx ∨ (p, w) ∈ m ∧ table a (slot n p j) = slot n w j)) as (j&Hj&Hc).
    { apply elem_of_app in Hpw as [?|Hm]; [destruct (Hhit p w) as (j&?&?); eauto|].
      destruct (hy_hit m a H p w Hm) as (j&?&?). eauto. }
    exists j. split; [done|]. destruct (decide (slot n p j ∈ full_idx)) as [Hel|Hni].
    + apply Hzip, Hfol in Hel as (p'&w'&j'&Hp'&Hj'&[-> ->]%slot_inj&Ew); [|done..]. by rewrite (pairs_fun p' w w').
    + destruct Hc as [?|[Hm E]]; [done|]. rewrite Hold; [done| |done]. apply Hval; [|done].
      pose proof (hybrid_dom m a H p w Hm). lia.
Qed.

(** Slots that had a window slot keep it. *)
Lemma assign_keeps t' : hybrid (M ++ m) (set_mapping t' (set_pools f s a)) →
  (∀ x, x ∈ full_idx → (x, at_index t' x) ∈ zip full_idx swa_idx) →
  (∀ x, slots_valid a [x] → x ∉ full_idx → at_index t' x = table a x) →
  ∀ x, windowed a x → at_index t' x = table a x.
Proof using H Hdom Hfol Hlen.
  intros _ Hzip Hold x [Hx Hpos]. destruct (decide (x ∈ full_idx)) as [Hel|Hni]; [|by apply Hold].
  specialize (Hx x ltac:(by left)). destruct (slot_of m a H x) as [Ex Hj].
  pose proof (hy_table m a H _ _ Hx Hj) as [E|(w&Hw&E)]; rewrite <-Ex in E; [lia|].
  apply Hzip, Hfol in Hel as (p&w'&j&Hp&Hj'&Ex'&Ew). rewrite Ew, E.
  rewrite Ex' in Ex at 1. apply slot_inj in Ex as [Ep Ej]; [|done..].
  rewrite <-Ep in Hw. rewrite (pairs_fun p w w'); [by rewrite Ej|apply elem_of_app; by right|done].
Qed.
End Assign.

(** ** Rows of requests *)

Lemma elem_of_zip_concat {A B} (g : nat → list A) (h : nat → list B) l x y :
  (∀ i, i ∈ l → length (g i) = length (h i)) →
  (x, y) ∈ zip (concat (g <$> l)) (concat (h <$> l)) ↔ ∃ i, i ∈ l ∧ (x, y) ∈ zip (g i) (h i).
Proof.
  induction l as [|i l IH]; intros Hl; cbn [fmap list_fmap concat].
  { split; [intros Hx%elem_of_nil|intros (i&Hi%elem_of_nil&_)]; done. }
  rewrite zip_with_app by (apply Hl; by left). rewrite elem_of_app, IH by (intros; apply Hl; by right).
  setoid_rewrite elem_of_cons. naive_solver.
Qed.

Lemma zip_kv_row n r1 r2 s k : zip (kv_row n r1 s k) (kv_row n r2 s k) = (λ q, (row_slot n r1 q, row_slot n r2 q)) <$> seq s k.
Proof. unfold kv_row. generalize (seq s k). intros l. induction l as [|q l IH]; [done|]. cbn. by rewrite IH. Qed.

(** The window pages of a row of full pages. *)
Definition window_row (m : list (Z * Z)) (row : list Z) : list Z :=
  (λ f, default 0%Z ((list_to_map m : gmap Z Z) !! f)) <$> row.

Section Rows.
Context (m : list (Z * Z)) (a : SwaAlloc) (H : hybrid m a).
Local Abbreviation n := (page_size a).
Context (pre_lens seq_lens : list nat) (rows : list (list Z)).
Context (Hle : Forall2 le pre_lens seq_lens).

(** A batch of rows filled to [pre_lens] whose last slots are inside the window. *)
Definition rows_windowed : Prop := ∀ i, i < length pre_lens →
  length (rows !!! i) = npages n (pre_lens !!! i)
  ∧ (0 < pre_lens !!! i → windowed a (row_slot n (rows !!! i) (pre_lens !!! i - 1))).
Context (Hrows : rows_windowed).

Lemma row_at_total l i : i < length l → ∃ x : nat, l !! i = Some x ∧ l !!! i = x.
Proof. intros Hi. destruct (lookup_lt_is_Some_2 l i Hi) as [x Hx]. exists x. split; [done|]. by apply list_lookup_total_correct. Qed.

Lemma pre_le_seq i : i < length pre_lens → pre_lens !!! i ≤ seq_lens !!! i.
Proof using Hle.
  intros Hi. destruct (row_at_total _ _ Hi) as (p&Hp&->). destruct (Forall2_lookup_l _ _ _ _ _ Hle Hp) as (q&Hq&?).
  by rewrite (list_lookup_total_correct _ _ _ Hq).
Qed.

(** The last slot of a row, translated. *)
Lemma last_window i : i < length pre_lens → 0 < pre_lens !!! i →
  ((rows !!! i) !!! ((pre_lens !!! i - 1) / n), window_row m (rows !!! i) !!! ((pre_lens !!! i - 1) / n)) ∈ m
  ∧ table a (row_slot n (rows !!! i) (pre_lens !!! i - 1)) = row_slot n (window_row m (rows !!! i)) (pre_lens !!! i - 1).
Proof using H Hrows.
  intros Hi Hpos. destruct (Hrows i Hi) as [Hlen Hw]. destruct (Hw Hpos) as [Hv Ht].
  set (row := rows !!! i) in *. set (q := pre_lens !!! i - 1) in *. pose proof (hy_ps m a H) as Hn.
  specialize (Hv _ ltac:(by left)). pose proof (row_slot_page n Hn row q) as Hp.
  pose proof (Nat.mod_upper_bound q n ltac:(lia)) as Hm.
  assert (row_slot n row q = slot n (row !!! (q / n)) (q mod n)) as Es by done.
  rewrite Hp in Hv. destruct (hy_table m a H _ _ Hv Hm) as [E|(w&Hin&E)]; [rewrite Es in Ht; lia|].
  assert (window_row m row !!! (q / n) = w) as Ew.
  { destruct (lookup_lt_is_Some_2 row (q / n)) as [f Hf].
    { rewrite Hlen. pose proof (npages_bounds n Hn (pre_lens !!! i)). apply Nat.Div0.div_lt_upper_bound. unfold q. lia. }
    rewrite (list_lookup_total_correct _ _ _ Hf) in Hin. apply list_lookup_total_correct. unfold window_row.
    rewrite list_lookup_fmap, Hf. cbn. rewrite (elem_of_list_to_map_1 m f w); [done| |done].
    destruct (hy_dom m a H) as [Hnd _]. by apply NoDup_app in Hnd as (?&_). }
  rewrite Ew. split; [done|]. rewrite Es, E. unfold row_slot. by rewrite Ew.
Qed.

(** The pages that the two pools add to the rows. *)
Context (fresh freshw : nat → list Z).
Definition fresh_for (g : nat → list Z) : Prop := ∀ i, i < length pre_lens →
  length (g i) = npages n (seq_lens !!! i) - npages n (pre_lens !!! i).
Context (Hfr : fresh_for fresh) (Hfw : fresh_for freshw).

Definition fresh_all (g : nat → list Z) : list Z := concat (g <$> seq 0 (length pre_lens)).
Definition new_pairs : list (Z * Z) := zip (fresh_all fresh) (fresh_all freshw).
Definition new_slots (rs : nat → list Z) (g : nat → list Z) : list Z :=
  concat ((λ i, kv_row n (rs i ++ g i) (pre_lens !!! i) (seq_lens !!! i - pre_lens !!! i)) <$> seq 0 (length pre_lens)).
Local Abbreviation full_rows := (λ i, rows !!! i).
Local Abbreviation window_rows := (λ i, window_row m (rows !!! i)).

Lemma elem_of_new_pairs p w : (p, w) ∈ new_pairs ↔ ∃ i, i < length pre_lens ∧ (p, w) ∈ zip (fresh i) (freshw i).
Proof using Hfr Hfw.
  unfold new_pairs, fresh_all. rewrite elem_of_zip_concat.
  - setoid_rewrite elem_of_seq. split; intros (i&?&?); exists i; (split; [lia|done]).
  - intros i Hi%elem_of_seq. rewrite Hfr, Hfw by lia. done.
Qed.

Lemma elem_of_new_slots x y : (x, y) ∈ zip (new_slots full_rows fresh) (new_slots window_rows freshw) ↔
  ∃ i q, i < length pre_lens ∧ pre_lens !!! i ≤ q < seq_lens !!! i
    ∧ x = row_slot n (rows !!! i ++ fresh i) q ∧ y = row_slot n (window_row m (rows !!! i) ++ freshw i) q.
Proof.
  unfold new_slots. rewrite elem_of_zip_concat by (intros; by rewrite !length_kv_row).
  setoid_rewrite zip_kv_row. setoid_rewrite list_elem_of_fmap. setoid_rewrite elem_of_seq. split.
  - intros (i&Hi&q&[= -> ->]&Hq). exists i, q. split_and!; lia || done.
  - intros (i&q&Hi&Hq&->&->). exists i. split; [lia|]. exists q. split; [done|lia].
Qed.

(** The page of a new position is the last page of the row, or a fresh one. *)
Lemma page_at i q : i < length pre_lens → pre_lens !!! i ≤ q < seq_lens !!! i →
  ((rows !!! i ++ fresh i) !!! (q / n), (window_row m (rows !!! i) ++ freshw i) !!! (q / n)) ∈ new_pairs ++ m.
Proof using H Hfr Hfw Hle Hrows.
  intros Hi Hq. pose proof (hy_ps m a H) as Hn. destruct (Hrows i Hi) as [Hlen _]. apply elem_of_app.
  assert (length (window_row m (rows !!! i)) = length (rows !!! i)) as Hwl by (unfold window_row; by rewrite length_fmap).
  set (pre := pre_lens !!! i) in *. set (s := seq_lens !!! i) in *.
  pose proof (npages_bounds n Hn pre) as Hb. pose proof (npages_bounds n Hn s) as Hbs.
  pose proof (Nat.div_mod_eq q n) as Hdm. pose proof (Nat.mod_upper_bound q n ltac:(lia)) as Hub.
  destruct (decide (q / n < npages n pre)) as [Hlt|Hge].
  - right. assert (q / n = (pre - 1) / n) as Eq.
    { pose proof (Nat.div_mod_eq (pre - 1) n). pose proof (Nat.mod_upper_bound (pre - 1) n ltac:(lia)). nia. }
    assert (0 < pre) by nia. rewrite !lookup_total_app_l by lia. rewrite Eq. by apply last_window.
  - left. apply elem_of_new_pairs. exists i. split; [done|].
    rewrite !lookup_total_app_r by lia. rewrite Hwl, Hlen.
    apply (zip_at _ _ (q / n - npages n pre)); apply list_lookup_lookup_total_lt; rewrite ?Hfr, ?Hfw by done; fold pre s; nia.
Qed.

Lemma new_slots_follow x y : (x, y) ∈ zip (new_slots full_rows fresh) (new_slots window_rows freshw) →
  follows a (new_pairs ++ m) x y.
Proof using H Hfr Hfw Hle Hrows.
  intros (i&q&Hi&Hq&->&->)%elem_of_new_slots. pose proof (hy_ps m a H).
  eexists _, _, (q mod n). split; [by apply page_at|]. split; [apply Nat.mod_upper_bound; lia|done].
Qed.

Lemma length_new_slots g h : length (new_slots g fresh) = length (new_slots h freshw).
Proof.
  unfold new_slots. rewrite !length_concat, <-!list_fmap_compose. f_equal. apply list_fmap_ext. intros.
  cbn. by rewrite !length_kv_row.
Qed.

Lemma new_slot_in i q : i < length pre_lens → pre_lens !!! i ≤ q < seq_lens !!! i →
  row_slot n (rows !!! i ++ fresh i) q ∈ new_slots full_rows fresh.
Proof.
  intros Hi Hq. eapply elem_of_zip_l, elem_of_new_slots. by exists i, q.
Qed.

Lemma new_pairs_hit p w : (p, w) ∈ new_pairs → ∃ j, j < n ∧ slot n p j ∈ new_slots full_rows fresh.
Proof using H Hfr Hfw Hle Hrows.
  intros (i&Hi&Hz%elem_of_zip_l)%elem_of_new_pairs. apply list_elem_of_lookup in Hz as [t Ht].
  pose proof (hy_ps m a H) as Hn. exists 0. split; [lia|]. destruct (Hrows i Hi) as [Hlen _].
  pose proof (lookup_lt_Some _ _ _ Ht) as Hlt. rewrite Hfr in Hlt by done.
  set (q := (npages n (pre_lens !!! i) + t) * n).
  pose proof (npages_bounds n Hn (pre_lens !!! i)) as Hb. pose proof (npages_bounds n Hn (seq_lens !!! i)) as Hbs.
  replace (slot n p 0) with (row_slot n (rows !!! i ++ fresh i) q); [apply new_slot_in; [done|unfold q; nia]|].
  unfold row_slot, q, slot. rewrite Nat.div_mul, Nat.Div0.mod_mul by lia. rewrite lookup_total_app_r by lia.
  rewrite Hlen, (Nat.add_comm _ t), Nat.add_sub. by rewrite (list_lookup_total_correct _ _ _ Ht).
Qed.

(** What an allocation that grows the rows achieves. *)
Definition grown (a' : SwaAlloc) : Prop :=
  hybrid (new_pairs ++ m) a' ∧ same_swa a a' ∧ fresh_for fresh ∧ fresh_for freshw
  ∧ held (full_attn_allocator a) ≡ₚ fresh_all fresh ++ held (full_attn_allocator a')
  ∧ held (swa_attn_allocator a) ≡ₚ fresh_all freshw ++ held (swa_attn_allocator a')
  ∧ (∀ i q, i < length pre_lens → pre_lens !!! i ≤ q < seq_lens !!! i → windowed a' (row_slot n (rows !!! i ++ fresh i) q))
  ∧ (∀ x, windowed a x → table a' x = table a x)
  ∧ not_in_free_group a' = not_in_free_group a ∧ swa_free_group a' = swa_free_group a.

Lemma length_fresh_all : length (fresh_all fresh) = length (fresh_all freshw).
Proof using Hfr Hfw.
  unfold fresh_all. rewrite !length_concat, <-!list_fmap_compose. f_equal. apply list_fmap_ext.
  intros j i [-> Hj]%lookup_seq. cbn. by rewrite Hfr, Hfw by lia.
Qed.

Lemma grow f s : sub_ok f → same_sub (full_attn_allocator a) f → sub_ok s → same_sub (swa_attn_allocator a) s →
  held (full_attn_allocator a) ≡ₚ fresh_all fresh ++ held f → held (swa_attn_allocator a) ≡ₚ fresh_all freshw ++ held s →
  ∃ t', scatter (full_to_swa_index_mapping a) (new_slots full_rows fresh) (new_slots window_rows freshw) = Ok t'
    ∧ grown (set_mapping t' (set_pools f s a)).
Proof using H Hfr Hfw Hle Hrows.
  intros Hf Hfs Hs Hss Hhf Hhs.
  assert (new_pairs.*1 = fresh_all fresh) as E1 by (apply fst_zip; rewrite length_fresh_all; lia).
  assert (new_pairs.*2 = fresh_all freshw) as E2 by (apply snd_zip; rewrite length_fresh_all; lia).
  assert (in_pool (num_pages (full_attn_allocator a)) ((new_pairs ++ m).*1 ++ held f)) as Hdom.
  { rewrite fmap_app, E1, <-app_assoc, Permutation_app_swap_app, <-Hhf. apply H. }
  rewrite <-E2 in Hhs. pose proof (length_new_slots full_rows window_rows) as Hl. symmetry in Hl.
  destruct (hybrid_assign m a H new_pairs f s Hf Hfs Hs Hss Hdom Hhs _ _ Hl new_slots_follow new_pairs_hit)
    as (t'&Ht&Hnew&Hzip&Hold). exists t'. split; [done|]. split; [done|].
  pose proof (assign_keeps m a H new_pairs f s Hdom _ _ Hl new_slots_follow t' Hnew Hzip Hold) as Hkeep.
  split_and!; try done; [by rewrite Hhs, E2|].
  intros i q Hi Hq. pose proof (new_slot_in i q Hi Hq) as Hin. apply Hzip, new_slots_follow in Hin as (p&w&j&Hp&Hj&Ex&Ey).
  split.
  - intros x ->%list_elem_of_singleton. cbn [page_size set_mapping set_pools full_attn_allocator]. rewrite Ex, slot_page by done.
    rewrite (proj1 (proj2 (proj1 Hfs))). destruct Hdom as [_ Hr].
    specialize (Hr p ltac:(apply elem_of_app; left; by apply (list_elem_of_fmap_2 fst) in Hp)). lia.
  - unfold table. cbn [full_to_swa_index_mapping set_mapping]. rewrite Ey.
    pose proof (hybrid_img_pos _ _ Hnew p w Hp). unfold slot. nia.
Qed.

End Rows.
