(* ===== verification/SwaCorrect.v ===== *)
(** * Correctness of the hybrid allocator

    The allocations of [SWATokenToKVPoolAllocator] succeed exactly when both pools have
    the pages, grow the rows of the requests in step in both pools, and keep the
    translation of every other slot. *)

From stdpp Require Import base tactics numbers list gmap sorting.
From Stdlib Require Import ZArith Lia ZifyNat.
From S2P Require Import Prelude RadixCache Allocator AllocFree AllocCorrect AllocKernel AllocExtend PoolAlloc.
From S2P Require Import SwaAlloc SwaInv SwaFree SwaGrow.

Local Open Scope nat_scope.

(** The last slot of each row, [-1] for an empty one. *)
Definition last_slots (n : nat) (pre_lens : list nat) (rows : nat → list Z) : list Z :=
  (λ i, if pre_lens !!! i =? 0 then (-1)%Z else row_slot n (rows i) (pre_lens !!! i - 1)) <$> seq 0 (length pre_lens).

Lemma last_slots_at n pre_lens rows i : i < length pre_lens → 0 < pre_lens !!! i →
  last_slots n pre_lens rows !!! i = row_slot n (rows i) (pre_lens !!! i - 1).
Proof.
  intros Hi Hp. apply list_lookup_total_correct. unfold last_slots. rewrite list_lookup_fmap, lookup_seq_lt by done.
  cbn. by destruct (Nat.eqb_spec (pre_lens !!! i) 0); [lia|].
Qed.

Lemma gather_at {A} t (g h : A → Z) l : (∀ x, x ∈ l → ∃ k, tensor_pos (length t) (g x) = Ok k ∧ t !!! k = h x) →
  gather t (g <$> l) = Ok (h <$> l).
Proof.
  induction l as [|x l IH]; intros Hl; [done|]. cbn [fmap list_fmap gather].
  destruct (Hl x ltac:(by left)) as (k&->&<-). res_step. rewrite IH; [done|]. intros y Hy. apply Hl. by right.
Qed.

Lemma held_pages a n : ps a = n → 0 < n → Allocator.available_size a / n = length (held a).
Proof. intros <- Hn. rewrite held_available. apply Nat.div_mul. lia. Qed.

(** [set_full_to_swa_mapping] skips an empty assignment; nothing changes then either. *)
Lemma set_mapping_scatter a l v f s t' : length v = length l →
  scatter (full_to_swa_index_mapping a) l v = Ok t' →
  Swa.set_full_to_swa_mapping l v (set_pools f s a) = Ok (set_mapping t' (set_pools f s a)).
Proof.
  intros Hl Ht. unfold Swa.set_full_to_swa_mapping. destruct (Nat.eqb_spec (length l) 0) as [Hz|_].
  - apply length_zero_iff_nil in Hz as ->. injection Ht as <-. by destruct a.
  - rewrite Hl, Nat.eqb_refl. cbn [assert_ res_bind set_pools full_to_swa_index_mapping]. by rewrite Ht.
Qed.

Section Extend.
Context (m : list (Z * Z)) (a : SwaAlloc) (H : hybrid m a).
Local Abbreviation n := (page_size a).
Context (pre_lens seq_lens : list nat) (rows : list (list Z)).
Context (Hrows : rows_windowed a pre_lens rows).

Lemma translate_last : Swa.translate_loc_from_full_to_swa (last_slots n pre_lens (λ i, rows !!! i)) a
  = Ok (last_slots n pre_lens (λ i, window_row m (rows !!! i))).
Proof using H Hrows.
  apply gather_at. intros i Hi%elem_of_seq. destruct (Nat.eqb_spec (pre_lens !!! i) 0) as [Hz|Hz].
  - pose proof (hy_len m a H) as Hn. pose proof (hy_last m a H) as Hl. rewrite last_lookup in Hl.
    exists (pred (length (full_to_swa_index_mapping a))). split; [|by apply list_lookup_total_correct].
    unfold tensor_pos. destruct (Z.leb_spec 0 (-1)); [lia|]. cbn [andb].
    destruct (Z.leb_spec (- Z.of_nat (length (full_to_swa_index_mapping a))) (-1)); [|lia].
    destruct (Z.ltb_spec (-1) 0); [|lia]. cbn [andb]. f_equal. lia.
  - destruct (Hrows i ltac:(lia)) as [_ Hw]. destruct (Hw ltac:(lia)) as [Hv _].
    destruct (last_window m a H pre_lens rows Hrows i ltac:(lia) ltac:(lia)) as [_ E].
    eexists. split; [|exact E]. apply tensor_pos_ok. apply (slots_in_table m a H) in Hv. by inv Hv.
Qed.

Lemma window_rows_at i : i < length pre_lens → length (window_row m (rows !!! i)) = npages n (pre_lens !!! i).
Proof using Hrows. intros Hi. unfold window_row. rewrite length_fmap. by apply Hrows. Qed.

Context (Hps : 1 < n) (Hle : Forall2 le pre_lens seq_lens).

(** Both pools extend their rows. *)
Lemma pools_extend k pool rs out : sub_ok pool → ps pool = n → k = get_num_new_pages_extend n seq_lens pre_lens →
  k ≤ length (held pool) → (∀ i, i < length pre_lens → length (rs i) = npages n (pre_lens !!! i)) →
  length out = sum_list (zip_with Nat.sub seq_lens pre_lens) →
  ∃ fresh pool', alloc_extend pre_lens seq_lens (last_slots n pre_lens rs) (length out) (Some k) out pool
      = (Some (new_slots a pre_lens seq_lens rs fresh), pool')
    ∧ held pool ≡ₚ fresh_all pre_lens fresh ++ held pool' ∧ sub_ok pool' ∧ same_sub pool pool'
    ∧ fresh_for a pre_lens seq_lens fresh.
Proof using Hps Hle.
  intros Hok Ep Hk Hlt Hrs Hout. pose proof Hok as (Hi&_&_).
  pose proof (alloc_extend_rows pool pre_lens seq_lens (last_slots n pre_lens rs) out
    (rs <$> seq 0 (length pre_lens)) (Some k) Hi) as Hx. rewrite Ep in Hx.
  assert (∀ i, i < length pre_lens → (rs <$> seq 0 (length pre_lens)) !!! i = rs i) as Hat.
  { intros i Hi'. apply list_lookup_total_correct. rewrite list_lookup_fmap, lookup_seq_lt by done. done. }
  specialize (Hx ltac:(lia) Hle). cbv zeta in Hx. rewrite <-Hk in Hx.
  destruct (Nat.ltb_spec (length (held pool)) k); [lia|]. destruct Hx as (fresh&pool'&Hx&Hh&Hi'&Hs&Hf); [|done|by intros ? [= ->]|].
  { intros i Hi'. rewrite Hat by done. split; [by apply Hrs|]. intros. by apply last_slots_at. }
  exists fresh, pool'. rewrite Hx.
  assert (pool_size pool' = pool_size pool) as Esz.
  { change pool' with (Some (concat ((λ i, kv_row n ((rs <$> seq 0 (length pre_lens)) !!! i ++ fresh i) (pre_lens !!! i)
      (seq_lens !!! i - pre_lens !!! i)) <$> seq 0 (length pre_lens))), pool').2. rewrite <-Hx. unfold alloc_extend.
    destruct (need_sort pool && _); unfold merge_and_sort_free; try destruct (0 <? _); destruct (_ <? _); done. }
  assert (same_sub pool pool') by done. split_and!; try done; [|by eapply sub_ok_same].
  do 2 f_equal. unfold new_slots. f_equal. apply list_fmap_ext. intros j i [-> Hj]%lookup_seq. cbn. by rewrite Hat.
Qed.

Lemma new_slots_total rs g : length (new_slots a pre_lens seq_lens rs g) = sum_list (zip_with Nat.sub seq_lens pre_lens).
Proof using Hle Hps.
  unfold new_slots. rewrite length_concat, <-list_fmap_compose. f_equal. apply list_eq. intros i.
  rewrite list_lookup_fmap. pose proof (Forall2_length _ _ _ Hle) as Hl.
  destruct (decide (i < length pre_lens)) as [Hi|Hi].
  - destruct (lookup_lt_is_Some_2 pre_lens i Hi) as [p Hp]. destruct (lookup_lt_is_Some_2 seq_lens i ltac:(lia)) as [q Hq].
    rewrite lookup_seq_lt, lookup_zip_with, Hq by done. cbn. rewrite Hp. cbn. rewrite length_kv_row.
    by rewrite (list_lookup_total_correct _ _ _ Hp), (list_lookup_total_correct _ _ _ Hq).
  - rewrite lookup_seq_ge, lookup_zip_with, (lookup_ge_None_2 seq_lens) by lia. done.
Qed.

Definition extend_result (r : res (option (list Z) * SwaAlloc)) : Prop :=
  let k := get_num_new_pages_extend n seq_lens pre_lens in
  if (k <=? length (held (full_attn_allocator a))) && (k <=? length (held (swa_attn_allocator a)))
  then ∃ fresh freshw a', r = Ok (Some (new_slots a pre_lens seq_lens (λ i, rows !!! i) fresh), a')
    ∧ grown m a pre_lens seq_lens rows fresh freshw a'
  else r = Ok (None, a).

Lemma alloc_extend_hybrid full_empty swa_empty :
  length full_empty = sum_list (zip_with Nat.sub seq_lens pre_lens) → length swa_empty = length full_empty →
  extend_result (Swa.alloc_extend full_empty swa_empty pre_lens seq_lens
    (last_slots n pre_lens (λ i, rows !!! i)) (length full_empty) a).
Proof using H Hps Hle Hrows.
  intros Hfe Hse. unfold extend_result, Swa.alloc_extend, Swa.new_pages_available.
  rewrite (held_pages _ n (hy_psf m a H)), (held_pages _ n (hy_pss m a H)) by lia. set (k := get_num_new_pages_extend _ _ _).
  destruct (Nat.ltb_spec 1 n); [|lia]. cbn [assert_ res_bind].
  destruct (Nat.leb_spec k (length (held (full_attn_allocator a)))) as [Hkf|]; cbn [andb negb]; [|done].
  destruct (Nat.leb_spec k (length (held (swa_attn_allocator a)))) as [Hks|]; cbn [negb]; [|done].
  rewrite translate_last. res_step.
  destruct (pools_extend k (full_attn_allocator a) (λ i, rows !!! i) full_empty) as (fresh&f&->&Hhf&Hokf&Hsf&Hff);
    [apply H|apply H|done|done|by intros; apply Hrows|done|].
  rewrite <-Hse. destruct (pools_extend k (swa_attn_allocator a) (λ i, window_row m (rows !!! i)) swa_empty)
    as (freshw&s&->&Hhs&Hoks&Hss&Hfw); [apply H|apply H|done|done|apply window_rows_at|by rewrite Hse|].
  destruct (grow m a H pre_lens seq_lens rows Hle Hrows fresh freshw Hff Hfw f s) as (t'&Ht&Hg); try done.
  rewrite (set_mapping_scatter a _ _ f s t'); [|by rewrite !new_slots_total|done]. res_step. eauto.
Qed.

End Extend.

(** ** Decoding: every row grows by one *)

Section Decode.
Context (m : list (Z * Z)) (a : SwaAlloc) (H : hybrid m a).
Local Abbreviation n := (page_size a).
Context (seq_lens : list nat) (rows : list (list Z)).
Local Abbreviation pre_lens := (pred <$> seq_lens).
Context (Hrows : rows_windowed a pre_lens rows) (Hps : 1 < n) (Hpos : Forall (λ s, 0 < s) seq_lens).

Lemma pred_at i : i < length seq_lens → pre_lens !!! i = seq_lens !!! i - 1 ∧ 0 < seq_lens !!! i.
Proof using Hpos Hps.
  intros Hi. destruct (lookup_lt_is_Some_2 seq_lens i Hi) as [q Hq]. rewrite (list_lookup_total_correct _ _ _ Hq).
  split; [|by eapply Forall_lookup_1 in Hpos]. rewrite (list_lookup_total_correct pre_lens i (pred q)); [lia|].
  by rewrite list_lookup_fmap, Hq.
Qed.

Lemma pred_le : Forall2 le pre_lens seq_lens.
Proof using. clear. induction seq_lens; constructor; [lia|done]. Qed.

Lemma new_slots_decode rs g : new_slots a pre_lens seq_lens rs g
  = (λ i, row_slot n (rs i ++ g i) (seq_lens !!! i - 1)) <$> seq 0 (length seq_lens).
Proof using Hpos Hps.
  unfold new_slots. rewrite length_fmap. assert (∀ i, i ∈ seq 0 (length seq_lens) → i < length seq_lens) as Hl.
  { intros i Hi%elem_of_seq. lia. }
  revert Hl. generalize (seq 0 (length seq_lens)). induction l as [|i l IH]; intros Hl; [done|].
  cbn [fmap list_fmap concat]. rewrite IH by (intros; apply Hl; by right).
  destruct (pred_at i (Hl i ltac:(by left))) as [-> Hp]. replace (_ - (_ - 1)) with 1 by lia. done.
Qed.

Lemma pools_decode pool rs out : sub_ok pool → ps pool = n →
  (∀ i, i < length seq_lens → length (rs i) = npages n (seq_lens !!! i - 1)) → length out = length seq_lens →
  if get_num_new_pages_decode n seq_lens <=? length (held pool)
  then ∃ fresh pool', alloc_decode seq_lens (last_slots n pre_lens rs) out pool
      = (Some (new_slots a pre_lens seq_lens rs fresh), pool')
    ∧ held pool ≡ₚ fresh_all pre_lens fresh ++ held pool' ∧ sub_ok pool' ∧ same_sub pool pool'
    ∧ fresh_for a pre_lens seq_lens fresh
  else ∃ pool', alloc_decode seq_lens (last_slots n pre_lens rs) out pool = (None, pool').
Proof using Hps Hpos.
  intros Hok Ep Hrs Hout. pose proof Hok as (Hi&_&_).
  pose proof (alloc_decode_rows pool seq_lens (last_slots n pre_lens rs) out (rs <$> seq 0 (length seq_lens)) Hi) as Hx.
  rewrite Ep in Hx. specialize (Hx Hps Hpos).
  assert (∀ i, i < length seq_lens → (rs <$> seq 0 (length seq_lens)) !!! i = rs i) as Hat.
  { intros i Hi'. apply list_lookup_total_correct. rewrite list_lookup_fmap, lookup_seq_lt by done. done. }
  cbv zeta in Hx. destruct (Nat.ltb_spec (length (held pool)) (get_num_new_pages_decode n seq_lens)) as [Hlt|Hge],
    (Nat.leb_spec (get_num_new_pages_decode n seq_lens) (length (held pool))); [lia| | |lia].
  all: destruct Hx as [x Hx]; [|done|];
    [intros i Hi'; rewrite Hat by done; split; [by apply Hrs|]; intros Hs; destruct (pred_at i Hi') as [Ei _];
     rewrite last_slots_at by (rewrite ?length_fmap, ?Ei; lia); by rewrite Ei; f_equal; lia|].
  { destruct Hx as (->&_). eauto. }
  destruct Hx as (pool'&Hx&Hh&Hi'&Hs&Hf). rename x into fresh. exists fresh, pool'. rewrite new_slots_decode.
  assert (pool_size pool' = pool_size pool) as Esz.
  { apply (f_equal snd) in Hx. cbn in Hx. rewrite <-Hx. unfold alloc_decode.
    destruct (need_sort pool && _); unfold merge_and_sort_free; try destruct (0 <? _); destruct (_ <? _); done. }
  assert (same_sub pool pool') by done. split_and!; try done; [| |by eapply sub_ok_same|].
  - rewrite Hx. do 2 f_equal. apply list_fmap_ext. intros j i [-> Hj]%lookup_seq. cbn. by rewrite Hat.
  - unfold fresh_all. by rewrite length_fmap.
  - intros i Hi2. rewrite length_fmap in Hi2. destruct (pred_at i Hi2) as [-> ?]. rewrite Hf by done.
    symmetry. by apply npages_pred.
Qed.

(** Nothing more is promised of the pools when the call fails: see [swa_decode_leaks]. *)
Definition decode_result (r : res (option (list Z) * SwaAlloc)) : Prop :=
  let k := get_num_new_pages_decode n seq_lens in
  if (k <=? length (held (full_attn_allocator a))) && (k <=? length (held (swa_attn_allocator a)))
  then ∃ fresh freshw a', r = Ok (Some (new_slots a pre_lens seq_lens (λ i, rows !!! i) fresh), a')
    ∧ grown m a pre_lens seq_lens rows fresh freshw a'
  else ∃ a', r = Ok (None, a').

Lemma alloc_decode_hybrid full_empty swa_empty :
  length full_empty = length seq_lens → length swa_empty = length seq_lens →
  decode_result (Swa.alloc_decode full_empty swa_empty seq_lens (last_slots n pre_lens (λ i, rows !!! i)) a).
Proof using H Hps Hpos Hrows.
  intros Hfe Hse. unfold decode_result, Swa.alloc_decode.
  destruct (Nat.ltb_spec 1 n); [|lia]. cbn [assert_ res_bind]. rewrite (translate_last m a H pre_lens rows Hrows). res_step.
  assert (∀ i, i < length seq_lens → length (rows !!! i) = npages n (seq_lens !!! i - 1)) as Hr1.
  { intros i Hi. destruct (pred_at i Hi) as [<- _]. apply Hrows. by rewrite length_fmap. }
  assert (∀ i, i < length seq_lens → length (window_row m (rows !!! i)) = npages n (seq_lens !!! i - 1)) as Hr2.
  { intros i Hi. unfold window_row. rewrite length_fmap. by apply Hr1. }
  pose proof (pools_decode (full_attn_allocator a) (λ i, rows !!! i) full_empty (hy_full _ _ H) (hy_psf _ _ H) Hr1 Hfe) as Hd1.
  pose proof (pools_decode (swa_attn_allocator a) (λ i, window_row m (rows !!! i)) swa_empty (hy_swa _ _ H) (hy_pss _ _ H) Hr2 Hse) as Hd2.
  cbv beta in Hd1, Hd2. destruct (_ <=? length (held (full_attn_allocator a))); cbn [andb].
  - destruct Hd1 as (fresh&f&->&Hhf&Hokf&Hsf&Hff). destruct (_ <=? _); [|destruct Hd2 as (s&->); eauto].
    destruct Hd2 as (freshw&s&->&Hhs&Hoks&Hss&Hfw).
    destruct (grow m a H pre_lens seq_lens rows pred_le Hrows fresh freshw Hff Hfw f s) as (t'&Ht&Hg); try done.
    cbn [set_pools full_to_swa_index_mapping]. rewrite Ht. res_step. eauto.
  - destruct Hd1 as (f&->). destruct (alloc_decode _ _ swa_empty _) as [o s]. destruct o; eauto.
Qed.
End Decode.

(** ** Pages of one token *)

Lemma token_take need pool : sub_ok pool → need ≤ length (held pool) →
  ∃ idx pool', Token.alloc need pool = (Some idx, pool') ∧ length idx = need ∧ held pool ≡ₚ idx ++ held pool'
    ∧ sub_ok pool' ∧ same_sub pool pool'.
Proof.
  intros Hok Hn. pose proof Hok as (Hi&_&_). pose proof (take_pages_spec need pool Hi) as Ht.
  destruct (Nat.ltb_spec (length (held pool)) need); [lia|]. destruct Ht as (idx&pool'&Ht&Hl&Hh&Hi'&Hs).
  assert (Token.alloc need pool = take_pages need pool) as E by done. exists idx, pool'. rewrite E, Ht.
  assert (pool_size pool' = pool_size pool) as Esz.
  { apply (f_equal snd) in Ht. cbn in Ht. rewrite <-Ht. unfold take_pages, merged_for, merge_and_sort_free.
    destruct (need_sort pool && _); try destruct (0 <? _); destruct (_ <? _); done. }
  assert (same_sub pool pool') by done. split_and!; try done. by eapply sub_ok_same.
Qed.

Lemma alloc_hybrid m a need : hybrid m a → page_size a = 1 →
  if (need <=? length (held (full_attn_allocator a))) && (need <=? length (held (swa_attn_allocator a)))
  then ∃ idx idxw a', Swa.alloc need a = Ok (Some idx, a') ∧ length idx = need ∧ length idxw = need
    ∧ hybrid (zip idx idxw ++ m) a' ∧ same_swa a a'
    ∧ held (full_attn_allocator a) ≡ₚ idx ++ held (full_attn_allocator a')
    ∧ held (swa_attn_allocator a) ≡ₚ idxw ++ held (swa_attn_allocator a')
    ∧ (∀ x, x ∈ idx → windowed a' x) ∧ (∀ x, windowed a x → table a' x = table a x)
  else Swa.alloc need a = Ok (None, a).
Proof.
  intros H Hps. unfold Swa.alloc. rewrite Hps, !held_available, (hy_psf m a H), (hy_pss m a H), Hps, !Nat.mul_1_r.
  cbn [Nat.eqb assert_ res_bind].
  destruct (Nat.leb_spec need (length (held (full_attn_allocator a)))) as [Hkf|Hkf]; cbn [andb].
  2:{ by destruct (Nat.ltb_spec (length (held (full_attn_allocator a))) need); [|lia]. }
  destruct (Nat.ltb_spec (length (held (full_attn_allocator a))) need); [lia|].
  destruct (Nat.leb_spec need (length (held (swa_attn_allocator a)))) as [Hks|Hks].
  2:{ by destruct (Nat.ltb_spec (length (held (swa_attn_allocator a))) need); [|lia]. }
  destruct (Nat.ltb_spec (length (held (swa_attn_allocator a))) need); [lia|].
  destruct (token_take need (full_attn_allocator a) (hy_full _ _ H) Hkf) as (idx&f&->&Hl&Hhf&Hokf&Hsf).
  destruct (token_take need (swa_attn_allocator a) (hy_swa _ _ H) Hks) as (idxw&s&->&Hlw&Hhs&Hoks&Hss).
  assert ((zip idx idxw).*1 = idx) as E1 by (apply fst_zip; lia).
  assert ((zip idx idxw).*2 = idxw) as E2 by (apply snd_zip; lia).
  assert (in_pool (num_pages (full_attn_allocator a)) ((zip idx idxw ++ m).*1 ++ held f)) as Hdom.
  { rewrite fmap_app, E1, <-app_assoc, Permutation_app_swap_app, <-Hhf. apply H. }
  assert (∀ p, slot (page_size a) p 0 = p) as Hslot by (intros; unfold slot; rewrite Hps; lia).
  assert (∀ x y, (x, y) ∈ zip idx idxw → follows a (zip idx idxw ++ m) x y) as Hfol.
  { intros x y Hxy. exists x, y, 0. rewrite !Hslot. split_and!; [apply elem_of_app; by left|lia|done..]. }
  destruct (hybrid_assign m a H (zip idx idxw) f s Hokf Hsf Hoks Hss Hdom ltac:(by rewrite E2) idx idxw ltac:(lia) Hfol)
    as (t'&Ht&Hnew&Hzip&Hold).
  { intros p w Hpw%elem_of_zip_l. exists 0. rewrite Hslot. split; [lia|done]. }
  pose proof (assign_keeps m a H (zip idx idxw) f s Hdom idx idxw ltac:(lia) Hfol t' Hnew Hzip Hold) as Hkeep.
  rewrite (set_mapping_scatter a _ _ f s t') by (lia || done). res_step.
  exists idx, idxw, (set_mapping t' (set_pools f s a)). split; [done|]. split_and!; try done.
  intros x Hx. pose proof (Hzip x Hx) as Hxz. split.
  - intros y ->%list_elem_of_singleton. cbn [page_size set_mapping set_pools full_attn_allocator].
    rewrite Hps, Z.div_1_r, (proj1 (proj2 (proj1 Hsf))). destruct Hdom as [_ Hr]. apply list_elem_of_fmap_2 with (f := fst) in Hxz.
    specialize (Hr x). rewrite fmap_app, !elem_of_app in Hr. specialize (Hr ltac:(left; by left)). lia.
  - unfold table. cbn [full_to_swa_index_mapping set_mapping].
    pose proof (hybrid_img_pos _ _ Hnew x (at_index t' x) ltac:(apply elem_of_app; by left)). lia.
Qed.
