(* ===== verification/Requests.v ===== *)
(** * Requests

    The fields of [Req] ([src/python/sglang/srt/managers/schedule_batch.py]) that
    decide which KV slots a request owns, and the methods that only touch them.
    The record lives in a module of its own because its field names are also
    those of radix keys. *)

From stdpp Require Import base tactics numbers list gmap strings.
From Stdlib Require Import ZArith Lia ZifyNat.
From S2P Require Import Prelude RadixKey TreeNode.

Module Req.

(** [fill_is_origin] records that [full_untruncated_fill_ids] and
    [origin_input_ids] are the same array object. *)
Record Req := mkReq {
  req_pool_idx : option nat;
  inflight_middle_chunks : Z;
  kv_committed_len : nat;
  cache_protected_len : nat;
  origin_input_ids : list Z;
  output_ids : list Z;
  full_untruncated_fill_ids : list Z;
  fill_is_origin : bool;
  extend_range : nat * nat;
  extra_key : option string;
  cache_salt : option string;
  priority : option Z;
  prefix_indices : list Z;
  last_node : option node_id;
  return_logprob : bool;
  logprob_start_len : Z;
}.

Definition set_req_pool_idx (x : option nat) (r : Req) : Req :=
  mkReq x (inflight_middle_chunks r) (kv_committed_len r) (cache_protected_len r) (origin_input_ids r) (output_ids r) (full_untruncated_fill_ids r) (fill_is_origin r) (extend_range r) (extra_key r) (cache_salt r) (priority r) (prefix_indices r) (last_node r) (return_logprob r) (logprob_start_len r).
Definition set_fill_ids (x : list Z) (b : bool) (r : Req) : Req :=
  mkReq (req_pool_idx r) (inflight_middle_chunks r) (kv_committed_len r) (cache_protected_len r) (origin_input_ids r) (output_ids r) x b (extend_range r) (extra_key r) (cache_salt r) (priority r) (prefix_indices r) (last_node r) (return_logprob r) (logprob_start_len r).
Definition set_extend_range (start stop : nat) (r : Req) : Req :=
  mkReq (req_pool_idx r) (inflight_middle_chunks r) (kv_committed_len r) (cache_protected_len r) (origin_input_ids r) (output_ids r) (full_untruncated_fill_ids r) (fill_is_origin r) (start, stop) (extra_key r) (cache_salt r) (priority r) (prefix_indices r) (last_node r) (return_logprob r) (logprob_start_len r).
Definition set_prefix (len : nat) (idx : list Z) (n : option node_id) (r : Req) : Req :=
  mkReq (req_pool_idx r) (inflight_middle_chunks r) (kv_committed_len r) len (origin_input_ids r) (output_ids r) (full_untruncated_fill_ids r) (fill_is_origin r) (extend_range r) (extra_key r) (cache_salt r) (priority r) idx n (return_logprob r) (logprob_start_len r).

Definition seqlen (r : Req) : nat := length (origin_input_ids r) + length (output_ids r).

Definition get_fill_ids (r : Req) : list Z :=
  take (extend_range r).2 (full_untruncated_fill_ids r).

(** [_refresh_fill_ids]: append the new output tokens, or rebuild. *)
Definition refresh_fill_ids (r : Req) : Req :=
  let n_have_output := (Z.of_nat (length (full_untruncated_fill_ids r))
                        - Z.of_nat (length (origin_input_ids r)))%Z in
  if negb (fill_is_origin r)
     && ((0 <=? n_have_output) && (n_have_output <=? Z.of_nat (length (output_ids r))))%Z
  then set_fill_ids (full_untruncated_fill_ids r ++ drop (Z.to_nat n_have_output) (output_ids r)) false r
  else set_fill_ids (origin_input_ids r ++ output_ids r) false r.

(** [_compute_max_prefix_len]. *)
Definition compute_max_prefix_len (input_len : Z) (r : Req) : Z :=
  let max_prefix_len := (input_len - 1)%Z in
  let max_prefix_len :=
    if return_logprob r && (0 <=? logprob_start_len r)%Z
    then Z.min max_prefix_len (logprob_start_len r) else max_prefix_len in
  Z.max max_prefix_len 0.

(** The array was filled from the request: it holds the prompt and some of the
    output, or its length shows that it does not. *)
Definition fill_coherent (r : Req) : Prop :=
  fill_is_origin r = true
  ∨ (∃ n, full_untruncated_fill_ids r = origin_input_ids r ++ take n (output_ids r))
  ∨ length (full_untruncated_fill_ids r) < length (origin_input_ids r)
  ∨ seqlen r < length (full_untruncated_fill_ids r).

Lemma refresh_coherent r : fill_coherent r →
  full_untruncated_fill_ids (refresh_fill_ids r) = origin_input_ids r ++ output_ids r.
Proof.
  unfold fill_coherent, refresh_fill_ids, seqlen. intros H.
  destruct (fill_is_origin r) eqn:E; [done|]. cbn [negb andb].
  destruct (Z.leb_spec 0 (Z.of_nat (length (full_untruncated_fill_ids r)) - Z.of_nat (length (origin_input_ids r))));
    cbn [andb]; [|done].
  destruct (Z.leb_spec (Z.of_nat (length (full_untruncated_fill_ids r)) - Z.of_nat (length (origin_input_ids r)))
    (Z.of_nat (length (output_ids r)))); [|done].
  destruct H as [?|[[n Hn]|[?|?]]]; [done| |lia..]. simpl. rewrite Hn.
  rewrite length_app, <-app_assoc. f_equal.
  replace (Z.to_nat _) with (length (take n (output_ids r))) by lia.
  rewrite length_take. destruct (decide (n ≤ length (output_ids r))).
  - rewrite Nat.min_l by done. apply take_drop.
  - rewrite Nat.min_r, (take_ge _ n), drop_ge, app_nil_r by lia. done.
Qed.
End Req.
