(* ===== verification/ReqPool.v ===== *)
(** * The request-to-token pool

    [ReqToTokenPool] of [src/python/sglang/srt/mem_cache/memory_pool.py]: a table
    with one row of KV slot numbers per running request, and the free list of
    its rows.  Row 0 is the padding row of CUDA-graph batches and is never
    handed out. *)

From stdpp Require Import base tactics numbers list gmap strings.
From Stdlib Require Import ZArith Lia ZifyNat.
From S2P Require Import Prelude RadixKey TreeNode Requests.
Import Req.

(** What the pool calls of an attached auxiliary cache ([_aux_cache]). *)
Class AuxCache (X : Type) := {
  aux_free : X → nat → X;
  aux_clear : X → X;
  aux_reset_allocator : X → X;
  dense_capacity : X → Z;
  aux_alloc_to_lengths : list nat → list nat → X → res X;
}.

Record ReqToTokenPool (X : Type) := mkPool {
  size : nat;
  max_context_len : nat;
  req_to_token : list (list Z);
  free_slots : list nat;
  req_generation : list Z;
  aux_cache : option X;
}.
Global Arguments mkPool {_} _ _ _ _ _ _ : assert.
Global Arguments size {_} _ : assert.
Global Arguments max_context_len {_} _ : assert.
Global Arguments req_to_token {_} _ : assert.
Global Arguments free_slots {_} _ : assert.
Global Arguments req_generation {_} _ : assert.
Global Arguments aux_cache {_} _ : assert.

(** Assignment of a tensor to a slice of a row: the lengths must agree, or the
    value is broadcast from one element; the slice is clipped to the row. *)
Definition write_slice (row : list Z) (a b : nat) (values : list Z) : res (list Z) :=
  let n := length (pyslice row a b) in
  match values with
  | [v] => Ok (take a row ++ replicate n v ++ drop (a + n) row)
  | _ => if n =? length values then Ok (take a row ++ values ++ drop (a + n) row)
         else Raise RuntimeError
  end.

Lemma write_slice_ok row a b values : length values = length (pyslice row a b) →
  write_slice row a b values = Ok (take a row ++ values ++ drop (a + length values) row).
Proof.
  intros Hl. unfold write_slice. rewrite <-Hl.
  destruct values as [|v [|w l]]; cbn [length]; rewrite ?Nat.eqb_refl; done.
Qed.

Section Pool.
Context {X : Type} `{!AuxCache X}.
Implicit Types p : ReqToTokenPool X.

Definition init (size max_context_len : nat) : ReqToTokenPool X :=
  mkPool size max_context_len (replicate (size + 1) (replicate max_context_len 0%Z))
    (seq 1 size) (replicate (size + 1) 0%Z) None.

(** [write] at [(idx, slice(a, b))], the form the prefix cache uses. *)
Definition write (idx a b : nat) (values : list Z) p : res (ReqToTokenPool X) :=
  let! row := res_of_option IndexError (req_to_token p !! idx) in
  let! row := write_slice row a b values in
  Ok (mkPool (size p) (max_context_len p) (<[idx := row]> (req_to_token p)) (free_slots p)
        (req_generation p) (aux_cache p)).

Definition available_size p : nat := length (free_slots p).

(** The loop of [alloc] that hands the selected rows to the new requests. *)
Fixpoint assign_rows (reqs : list Req) (select_index : list nat) (gen : list Z)
    : res (list Req * list Z) :=
  match reqs with
  | [] => Ok ([], gen)
  | r :: reqs =>
      match req_pool_idx r with
      | Some _ => let! (reqs, gen) := assign_rows reqs select_index gen in Ok (r :: reqs, gen)
      | None =>
          match select_index with
          | [] => Raise IndexError
          | i :: select_index =>
              let! g := res_of_option IndexError (gen !! i) in
              let! (reqs, gen) := assign_rows reqs select_index (<[i := (g + 1)%Z]> gen) in
              Ok (set_req_pool_idx (Some i) r :: reqs, gen)
          end
      end
  end.

Definition reuse_ok (r : Req) : bool :=
  match req_pool_idx r with
  | None => true
  | Some _ => (0 <? inflight_middle_chunks r)%Z || (0 <? kv_committed_len r)
  end.

Definition is_new (r : Req) : bool := bool_decide (req_pool_idx r = None).

Definition alloc (reqs : list Req) p : res (option (list nat) * list Req * ReqToTokenPool X) :=
  assert_ (forallb reuse_ok reqs) ;;!
  let need_size := length (List.filter is_new reqs) in
  if length (free_slots p) <? need_size then Ok (None, reqs, p)
  else
    let n := length (free_slots p) - need_size in
    let select_index := if 0 <? need_size then drop n (free_slots p) else [] in
    let free := if 0 <? need_size then take n (free_slots p) else free_slots p in
    let! (reqs, gen) := assign_rows reqs select_index (req_generation p) in
    Ok (Some (omap req_pool_idx reqs), reqs,
        mkPool (size p) (max_context_len p) (req_to_token p) free gen (aux_cache p)).

Definition free (r : Req) p : res (Req * ReqToTokenPool X) :=
  match req_pool_idx r with
  | None => Raise AssertionError
  | Some i =>
      Ok (set_req_pool_idx None r,
          mkPool (size p) (max_context_len p) (req_to_token p) (free_slots p ++ [i])
            (req_generation p) ((λ x, aux_free x i) <$> aux_cache p))
  end.

Definition clear p : ReqToTokenPool X :=
  mkPool (size p) (max_context_len p) (req_to_token p) (seq 1 (size p))
    (replicate (length (req_generation p)) 0%Z) (aux_clear <$> aux_cache p).

Definition attach_aux_cache (x : X) p : res (ReqToTokenPool X) :=
  match aux_cache p with
  | Some _ => Raise AssertionError
  | None => Ok (mkPool (size p) (max_context_len p) (req_to_token p) (free_slots p)
                  (req_generation p) (Some x))
  end.

Definition reset_aux_cache_allocator p : ReqToTokenPool X :=
  mkPool (size p) (max_context_len p) (req_to_token p) (free_slots p)
    (req_generation p) (aux_reset_allocator <$> aux_cache p).

Definition schedulable_token_capacity (physical_capacity : Z) p : Z :=
  match aux_cache p with
  | None => physical_capacity
  | Some x => dense_capacity x
  end.

Definition alloc_aux_to_lengths (req_pool_indices target_seq_lens : list nat) p : res (ReqToTokenPool X) :=
  match aux_cache p with
  | None => Ok p
  | Some x =>
      let! x := aux_alloc_to_lengths req_pool_indices target_seq_lens x in
      Ok (mkPool (size p) (max_context_len p) (req_to_token p) (free_slots p) (req_generation p) (Some x))
  end.

(** [write] at [(indices, positions)]: one element per row, in order; a single
    value is broadcast. *)
Definition write_point (idx col : nat) (v : Z) p : res (ReqToTokenPool X) :=
  let! row := res_of_option IndexError (req_to_token p !! idx) in
  if col <? length row
  then Ok (mkPool (size p) (max_context_len p) (<[idx := <[col := v]> row]> (req_to_token p)) (free_slots p)
             (req_generation p) (aux_cache p))
  else Raise IndexError.

Fixpoint write_points (points : list (nat * nat * Z)) p : res (ReqToTokenPool X) :=
  match points with
  | [] => Ok p
  | (idx, col, v) :: points => let! p := write_point idx col v p in write_points points p
  end.

Definition write_at (indices positions : list nat) (values : list Z) p : res (ReqToTokenPool X) :=
  if negb (length indices =? length positions) then Raise IndexError
  else
    let points := zip indices positions in
    match values with
    | [v] => write_points (zip points (replicate (length points) v)) p
    | _ => if length points =? length values then write_points (zip points values) p else Raise RuntimeError
    end.

(** ** Invariant: the rows are the free ones and the held ones, each once *)

Record pool_wf p (held : list nat) : Prop := {
  pw_rows : free_slots p ++ held ≡ₚ seq 1 (size p);
  pw_gen : length (req_generation p) = size p + 1;
  pw_table : length (req_to_token p) = size p + 1;
}.

Global Instance pool_wf_proper p : Proper ((≡ₚ) ==> iff) (pool_wf p).
Proof.
  intros l1 l2 Hl. split; intros [Hr Hg Ht]; split; try done; [by rewrite <-Hl|by rewrite Hl].
Qed.

Definition rows_of (reqs : list Req) : list nat := omap req_pool_idx reqs.

Lemma assign_rows_spec reqs sel gen n : length (List.filter is_new reqs) = length sel →
  length gen = n → Forall (λ i, i < n) sel →
  ∃ reqs' gen', assign_rows reqs sel gen = Ok (reqs', gen') ∧ length gen' = n
    ∧ length reqs' = length reqs
    ∧ rows_of reqs' ≡ₚ sel ++ rows_of reqs
    ∧ Forall (λ r, req_pool_idx r ≠ None) reqs'
    ∧ (∀ j r, reqs !! j = Some r → req_pool_idx r ≠ None → reqs' !! j = Some r)
    ∧ (∀ i, gen' !! i = (λ g, g + Z.of_nat (length (List.filter (Nat.eqb i) sel)))%Z <$> gen !! i).
Proof.
  revert sel gen. induction reqs as [|r reqs IH]; intros sel gen Hn Hg Hs.
  { destruct sel; [|done]. exists [], gen. split_and!; try done. intros i.
    destruct (gen !! i) eqn:E; simpl; f_equal; lia. }
  simpl in *. unfold is_new in Hn at 1. destruct (req_pool_idx r) as [i|] eqn:Hr.
  - rewrite bool_decide_false in Hn by done.
    destruct (IH sel gen Hn Hg Hs) as (reqs'&gen'&->&?&?&Hp&?&Hk&?). res_step.
    eexists _, _. split; [done|]. unfold rows_of in *. simpl. rewrite Hr. split_and!; try done.
    + simpl. lia.
    + rewrite Hp. by rewrite Permutation_middle.
    + constructor; [congruence|done].
    + intros [|j] r' Hj; [done|]. by apply Hk.
  - rewrite bool_decide_true in Hn by done. destruct sel as [|i sel]; [done|].
    apply Forall_cons in Hs as [Hi Hs]. destruct (lookup_lt_is_Some_2 gen i) as [g Hgi]; [lia|].
    rewrite Hgi. cbn [res_bind res_of_option].
    destruct (IH sel (<[i := (g + 1)%Z]> gen)) as (reqs'&gen'&->&?&?&Hp&?&Hk&Hge);
      [simpl in Hn; lia|by rewrite length_insert|done|].
    res_step. eexists _, _. split; [done|]. unfold rows_of in *. cbn [omap list_omap].
    simpl. rewrite ?Hr. split_and!; try done.
    + simpl. lia.
    + by rewrite Hp.
    + by constructor.
    + intros [|j] r' Hj; [|by apply Hk]. intros. simpl in Hj. congruence.
    + intros k. rewrite Hge. destruct (Nat.eqb_spec k i) as [->|Hne].
      * rewrite list_lookup_insert_eq, Hgi by lia. simpl. f_equal. lia.
      * by rewrite list_lookup_insert_ne.
Qed.

Lemma alloc_split p reqs held : pool_wf p held → forallb reuse_ok reqs = true →
  length (List.filter is_new reqs) ≤ length (free_slots p) →
  ∃ reqs' p' new, alloc reqs p = Ok (Some (rows_of reqs'), reqs', p')
    ∧ pool_wf p' (new ++ held) ∧ rows_of reqs' ≡ₚ new ++ rows_of reqs
    ∧ free_slots p = free_slots p' ++ new
    ∧ length new = length (List.filter is_new reqs) ∧ length reqs' = length reqs
    ∧ Forall (λ r, req_pool_idx r ≠ None) reqs'
    ∧ (∀ j r, reqs !! j = Some r → req_pool_idx r ≠ None → reqs' !! j = Some r)
    ∧ (∀ i, req_generation p' !! i =
         (λ g, g + Z.of_nat (length (List.filter (Nat.eqb i) new)))%Z <$> req_generation p !! i)
    ∧ req_to_token p' = req_to_token p
    ∧ max_context_len p' = max_context_len p ∧ aux_cache p' = aux_cache p.
Proof.
  intros [Hr Hg Ht] Hre Hn. unfold alloc. rewrite Hre. cbn [assert_ res_bind].
  set (need := length (List.filter is_new reqs)) in *.
  destruct (Nat.ltb_spec (length (free_slots p)) need); [lia|].
  set (n := length (free_slots p) - need).
  replace (if 0 <? need then drop n (free_slots p) else []) with (drop n (free_slots p)).
  2:{ destruct (Nat.ltb_spec 0 need); [done|]. by rewrite drop_ge by lia. }
  replace (if 0 <? need then take n (free_slots p) else free_slots p) with (take n (free_slots p)).
  2:{ destruct (Nat.ltb_spec 0 need); [done|]. by rewrite take_ge by lia. }
  destruct (assign_rows_spec reqs (drop n (free_slots p)) (req_generation p) (size p + 1))
    as (reqs'&gen'&->&?&?&?&?&?&?); [rewrite length_drop; lia|done| |].
  { apply Forall_forall. intros i Hi.
    assert (i ∈ seq 1 (size p)) as Hin%elem_of_seq; [|lia].
    rewrite <-Hr. apply elem_of_app. left. rewrite <-(take_drop n (free_slots p)). set_solver. }
  res_step. eexists reqs', _, (drop n (free_slots p)).
  split; [done|]. cbn [free_slots req_generation req_to_token]. rewrite take_drop.
  split_and!; try done; [|rewrite length_drop; lia].
  split; cbn [free_slots req_generation req_to_token size]; try done.
  rewrite app_assoc, take_drop. done.
Qed.

Lemma pool_wf_NoDup p held : pool_wf p held → NoDup (free_slots p ++ held) ∧ 0 ∉ free_slots p ++ held.
Proof.
  intros [Hr _ _]. rewrite Hr. split; [apply NoDup_seq|]. intros [? ?]%elem_of_seq. lia.
Qed.
End Pool.

(** ** Properties *)

Section Properties.
Context {X : Type} `{!AuxCache X}.
Implicit Types p : ReqToTokenPool X.

(** C38: on a well-formed pool and with no request reusing a row illegally,
    [alloc] never raises.  Either there are fewer free rows than new requests and
    it returns [None] with the pool and the requests untouched, or every request
    ends up with a row: requests that had one keep it, the new rows are taken
    from the free list, are pairwise distinct, differ from every row in use and
    from the padding row 0, and the pool stays well-formed with them held; the
    generation of exactly the new rows goes up by one and no row's contents
    change. *)
Theorem req_pool_alloc p reqs held :
  pool_wf p held → forallb reuse_ok reqs = true →
  match alloc reqs p with
  | Raise _ => False
  | Ok (None, reqs', p') =>
      length (free_slots p) < length (List.filter is_new reqs) ∧ reqs' = reqs ∧ p' = p
  | Ok (Some rows, reqs', p') => ∃ new,
      rows = rows_of reqs' ∧ length rows = length reqs ∧ rows ≡ₚ new ++ rows_of reqs
      ∧ pool_wf p' (new ++ held) ∧ NoDup (new ++ held) ∧ (0 ∉ new)
      ∧ (∀ j r, reqs !! j = Some r → req_pool_idx r ≠ None → reqs' !! j = Some r)
      ∧ (∀ i, req_generation p' !! i =
           (λ g, if decide (i ∈ new) then (g + 1)%Z else g) <$> (req_generation p !! i))
      ∧ req_to_token p' = req_to_token p
  end.
Proof.
  intros Hwf Hre.
  destruct (decide (length (free_slots p) < length (List.filter is_new reqs))) as [Hlt|Hge].
  { unfold alloc. rewrite Hre. cbn [assert_ res_bind].
    by destruct (Nat.ltb_spec (length (free_slots p)) (length (List.filter is_new reqs))); [|lia]. }
  destruct (alloc_split p reqs held Hwf Hre) as (reqs'&p'&new&->&Hwf'&Hp&Hf&Hn&Hl&Hall&Hk&Hg&Ht&_); [lia|].
  destruct (pool_wf_NoDup p' _ Hwf') as [Hnd H0]. exists new.
  assert (NoDup (new ++ held)) as Hnd' by (apply NoDup_app in Hnd; tauto).
  split_and!; try done.
  - rewrite <-Hl. clear -Hall. induction Hall as [|r l Hr _ IH]; [done|]. unfold rows_of in *. simpl.
    destruct (req_pool_idx r); [|done]. simpl. by f_equal.
  - set_solver.
  - intros i. rewrite Hg. destruct (req_generation p !! i) as [g|]; simpl; [|done]. f_equal.
    assert (NoDup new) as Hnn by (apply NoDup_app in Hnd'; tauto). clear -Hnn.
    induction Hnn as [|x l Hx _ IH]; simpl.
    { lia. }
    destruct (Nat.eqb_spec i x) as [->|Hne].
    + rewrite (decide_False (P := x ∈ l)) in IH by done. rewrite decide_True by set_solver. simpl. lia.
    + rewrite IH. destruct (decide (i ∈ l)); [rewrite decide_True by set_solver|rewrite decide_False by set_solver]; done.
Qed.

(** C39: [free] gives the row of a finished request back: the pool is well-formed
    without it, the row's contents are left alone, and the request forgets its
    row, so that freeing it a second time fails the assertion instead of putting
    the row on the free list twice. *)
Theorem req_pool_free p r i held :
  pool_wf p (i :: held) → req_pool_idx r = Some i →
  ∃ r' p', free r p = Ok (r', p') ∧ pool_wf p' held ∧ req_to_token p' = req_to_token p
    ∧ i ∈ free_slots p' ∧ free r' p' = Raise AssertionError.
Proof.
  intros [Hr Hg Ht] Hi. unfold free. rewrite Hi. eexists _, _. split; [done|]. simpl.
  split_and!; try done; [|set_solver]. split; simpl; try done. by rewrite <-app_assoc.
Qed.
End Properties.

Definition demo_req (i : option nat) (toks : list Z) : Req :=
  mkReq i 0 (length toks) 0 toks [] toks false (0, length toks) None None None [] None false (-1).

(** The trivial auxiliary cache. *)
Definition no_aux : AuxCache unit := {| aux_free x _ := x; aux_clear x := x; aux_reset_allocator x := x; dense_capacity _ := 0%Z;
  aux_alloc_to_lengths _ _ x := Ok x |}.
#[local] Existing Instance no_aux.
Definition demo_pool : ReqToTokenPool unit := mkPool 3 4 (replicate 4 (replicate 4 0%Z)) [1; 3] [0; 0; 1; 0]%Z None.

Lemma demo_pool_wf : pool_wf demo_pool [2].
Proof. split; [|done..]. simpl. apply perm_skip. apply perm_swap. Defined.

Lemma req_pool_alloc_witness :
  (∃ reqs' p', alloc [demo_req None [7]%Z; demo_req (Some 2) [8]%Z] demo_pool = Ok (Some [3; 2], reqs', p')
     ∧ req_generation p' = [0; 0; 1; 1]%Z)
  ∧ ∃ new, [3; 2] ≡ₚ new ++ [2] ∧ NoDup (new ++ [2]) ∧ 0 ∉ new.
Proof.
  split; [by eexists _, _|].
  destruct (req_pool_alloc demo_pool [demo_req None [7]%Z; demo_req (Some 2) [8]%Z] [2]
    demo_pool_wf eq_refl) as (new&_&_&Hp&_&Hnd&H0&_).
  by exists new.
Defined.

Lemma req_pool_free_witness : ∃ r' p', free (demo_req (Some 2) [8]%Z) demo_pool = Ok (r', p')
  ∧ free_slots p' = [1; 3; 2] ∧ 2 ∈ free_slots p'.
Proof.
  destruct (req_pool_free demo_pool (demo_req (Some 2) [8]%Z) 2 []) as (r'&p'&E&_&_&Hin&_);
    [apply demo_pool_wf|reflexivity|].
  exists r', p'. split; [exact E|]. split; [by injection E as _ <-|exact Hin].
Defined.
