(* ===== verification/RadixReq.v ===== *)
(** * Requests and the radix cache

    [cache_finished_req] and [cache_unfinished_req] of
    [src/python/sglang/srt/mem_cache/radix_cache.py]: a request hands the KV slots
    of its row over to the tree, gives duplicates back to the allocator and moves
    its lock.  The kv_indices of the code are a view of the row, read before the
    row is written. *)

From stdpp Require Import base tactics numbers list gmap strings.
From Stdlib Require Import ZArith Lia ZifyNat.
From S2P Require Import Prelude RadixKey TreeNode KvEvents EventQueue RadixCache RadixInv RadixPages RadixAcct.
From S2P Require Import RadixEvents RadixMatch RadixSpec RadixInsert RadixLock Requests ReqPool.

Section ReqOps.
Context {A : Type} `{!KvAllocator A} {X : Type}.
Context (monotonic : nat → Z).
Context (native_hash : RadixKey → option string → nat → list string).
Context (salt_digest : string → string).
Implicit Types c : RadixCache A.
Implicit Types p : ReqToTokenPool X.
Implicit Types r : Req.Req.

(** The key both methods build. *)
Definition req_key c r (toks : list Z) : RadixKey :=
  page_aligned (radix_key toks (Req.extra_key r) (is_eagle c) None (Req.cache_salt r)) (page_size c).

Definition req_row p r : res (list Z) :=
  let! idx := res_of_option TypeError (Req.req_pool_idx r) in
  res_of_option IndexError (req_to_token p !! idx).

Definition cache_finished_req r (is_insert : bool) (kv_len_to_handle : nat) p c
    : res (RadixCache A) :=
  let is_insert := if disable_finished_insert c then false else is_insert in
  let! row := req_row p r in
  let prot := Req.cache_protected_len r in
  if disable c then
    Ok (set_allocator (free_segment (allocator c) (pyslice row prot kv_len_to_handle) prot) c)
  else
    let token_ids := take kv_len_to_handle (Req.origin_input_ids r ++ Req.output_ids r) in
    let kv_indices := take (length token_ids) row in
    let k := req_key c r token_ids in
    let key_len := klen k in
    let values := take key_len kv_indices in
    let! (c, freed_end) :=
      if is_insert then
        let prio := default 0%Z (Req.priority r) in
        let! (c, prefix_len, _) :=
          cache_insert monotonic native_hash salt_digest k (Some values) (Some prio) false c in
        Ok (c, prefix_len)
      else Ok (c, key_len) in
    let c := set_allocator (free_segments (allocator c)
               [(pyslice kv_indices prot freed_end, prot); (drop key_len kv_indices, key_len)]) c in
    match Req.last_node r with
    | Some x => let! (c, _) := dec_lock_ref x c in Ok c
    | None => Ok c
    end.

Definition cache_unfinished_req r (chunked : bool) p c
    : res (RadixCache A * Req.Req * ReqToTokenPool X) :=
  if disable c then Ok (c, r, p)
  else
    let token_ids := Req.get_fill_ids r in
    let! row := req_row p r in
    let kv_indices := take (length token_ids) row in
    let k := req_key c r token_ids in
    let values := take (klen k) kv_indices in
    let prot := Req.cache_protected_len r in
    let! (c, new_prefix_len, _) :=
      cache_insert monotonic native_hash salt_digest k (Some values)
        (Some (default 0%Z (Req.priority r))) chunked c in
    let c := set_allocator
               (free_segment (allocator c) (pyslice kv_indices prot new_prefix_len) prot) c in
    let! (c, m) := match_prefix monotonic k c in
    let new_indices := device_indices m in
    let new_last_node := last_device_node m in
    assert_ (length new_indices =? klen k) ;;!
    let! idx := res_of_option TypeError (Req.req_pool_idx r) in
    let! p := write idx prot (length new_indices) (drop prot new_indices) p in
    let! last := res_of_option AttributeError (Req.last_node r) in
    let! (c, _) := dec_lock_ref last c in
    let! (c, _) := inc_lock_ref new_last_node c in
    let! row := req_row p r in
    let kv_indices := take (length token_ids) row in
    let prefix_indices :=
      if length new_indices <? length kv_indices
      then new_indices ++ drop (length new_indices) kv_indices else new_indices in
    Ok (c, Req.set_prefix (length new_indices) prefix_indices (Some new_last_node) r, p).
End ReqOps.

(** ** The contract between a request and the tree *)

Definition req_ns (r : Req.Req) : Namespace :=
  namespace (radix_key [] (Req.extra_key r) false None (Req.cache_salt r)).

(** The last node of [r] is locked by it and spells the first
    [cache_protected_len] units of [K]; the row starts with the slots stored
    under them. *)
Record holds_prefix {A} (c : RadixCache A) (M : PrefixMap) (r : Req.Req) (row : list Z)
    (K : list lunit) : Prop := {
  hp_node : ∃ x n, Req.last_node r = Some x ∧ nodes c !! x = Some n
    ∧ path_of (nodes c) x = take (Req.cache_protected_len r) K
    ∧ (x ≠ root_node c → (0 < own (nodes c) n)%Z ∧ namespace (key n) = req_ns r);
  hp_len : Req.cache_protected_len r ≤ length K;
  hp_row : take (Req.cache_protected_len r) row
    = take (Req.cache_protected_len r) (spec_match M (page_size c) (req_ns r) K);
}.

Section ReqSpec.
Context {A : Type} `{!KvAllocator A} {X : Type}.
Context (monotonic : nat → Z).
Context (native_hash : RadixKey → option string → nat → list string).
Context (salt_digest : string → string).
Context (Hnative : ∀ k prior ps, 0 < ps → klen k mod ps = 0 →
  length (native_hash k prior ps) = klen k / ps ∧ Forall good_hash (native_hash k prior ps)).
Implicit Types c : RadixCache A.
Implicit Types p : ReqToTokenPool X.
Implicit Types r : Req.Req.
Implicit Types M : PrefixMap.

Abbreviation pages c φ := (page_at (page_size c) (nodes c) φ).

Lemma req_key_spec c r toks : 0 < page_size c →
  let k := req_key c r toks in
  key_for c k ∧ key_units c k = iter k ∧ klen (cache_key c k) = klen k ∧ namespace k = req_ns r
  ∧ klen k ≤ length toks.
Proof.
  intros Hps k. set (k0 := radix_key toks (Req.extra_key r) (is_eagle c) None (Req.cache_salt r)).
  assert (salt_ok k0) as Hs0 by apply radix_key_salt_ok.
  destruct (page_aligned_spec k0 (page_size c) Hs0 Hps) as (Hit&[Hm Hns]&Hs).
  change (page_aligned k0 (page_size c)) with k in *.
  assert (maybe_to_bigram_view k (is_eagle c) (@None (list Z)) = (k, None)) as Hb.
  { unfold maybe_to_bigram_view. rewrite Hm. simpl. by destruct (is_eagle c). }
  assert (klen k = page_floor (page_size c) (klen k0)) as Hkl.
  { rewrite <-!length_iter, Hit, length_take, length_iter. pose proof (page_floor_le (page_size c) (klen k0)). lia. }
  assert (iter (cache_key c k) = iter k) as Hci.
  { unfold cache_key. rewrite Hb. simpl.
    destruct (page_aligned_spec k (page_size c) Hs Hps) as (->&_).
    rewrite take_ge; [done|]. rewrite length_iter, Hkl. unfold page_floor.
    by rewrite Nat.div_mul by lia. }
  split_and!; try done.
  - split; [done|]. rewrite Hm. by simpl.
  - by rewrite <-!length_iter, Hci.
  - rewrite Hkl. pose proof (page_floor_le (page_size c) (klen k0)) as Hf.
    assert (klen k0 ≤ length toks); [|lia]. rewrite klen_alt. unfold raw_len, k0. simpl.
    destruct (is_eagle c); lia.
Qed.

(** A locked node of the key's namespace lies on the stored prefix. *)
Lemma protected_le_match c φ M k x n pl : inv c φ → key_for c k → disable c = false →
  (∀ N Q vs, M !! (N, Q) = Some vs ↔ pages c φ N Q vs) →
  nodes c !! x = Some n → (x ≠ root_node c → namespace (key n) = namespace k) →
  path_of (nodes c) x = take pl (key_units c k) → pl ≤ length (key_units c k) →
  pl ≤ length (spec_match M (page_size c) (namespace k) (key_units c k)).
Proof.
  intros Hinv Hk Hd HM Hx Hns Hpath Hle.
  destruct (spec_descent monotonic c φ M k Hinv Hk Hd HM) as (c'&φ'&vals&m&y&Hq&HM'&Hre&Hlo&<-).
  rewrite (re_len _ _ _ _ _ _ _ _ _ Hre).
  destruct (qu_nodes _ _ _ _ Hq x n Hx) as (Hφ&n'&Hx'&_&Hns'&_).
  pose proof (qu_inv _ _ _ _ Hq) as [Hps Hwf _]. pose proof Hinv as [_ Hwf0 _].
  rewrite (path_of_eq _ _ ltac:(by apply (in_ps c φ)) _ _ φ x n Hwf0 Hx), <-Hφ in Hpath.
  destruct (decide (pl ≤ m)) as [|Hgt]; [done|]. exfalso.
  assert (length (φ' x) = pl) as Hl by (rewrite Hpath, length_take; lia).
  pose proof (path_mod _ _ Hps Hwf x n' Hx') as Hm. rewrite Hl in Hm.
  pose proof (aligned_gap _ _ _ (re_mod _ _ _ _ _ _ _ _ _ Hre) Hm ltac:(lia)) as Hgap.
  assert (x ≠ root_node c') as Hxr.
  { intros ->. rewrite (wt_root_path _ _ _ _ _ Hwf) in Hl. simpl in Hl. lia. }
  destruct (stored_page _ _ Hps Hwf (namespace k) (take (m + page_size c') (key_units c k)) x n')
    as [vs Hvs]; try done.
  - rewrite Hns'. apply Hns. by rewrite <-(quiet_root _ _ _ _ Hq).
  - rewrite Hpath. exists (drop (m + page_size c') (take pl (key_units c k))).
    rewrite <-(take_drop (m + page_size c') (take pl (key_units c k))) at 1.
    f_equal. rewrite take_take. f_equal. lia.
  - rewrite length_take. lia.
  - rewrite length_take, Nat.min_l by lia.
    rewrite Nat.Div0.add_mod, (re_mod _ _ _ _ _ _ _ _ _ Hre), Nat.Div0.mod_same, Nat.Div0.mod_0_l. done.
  - eapply Hlo; [lia|done].
Qed.

Lemma walked_slots c c' f x d δ : walked c c' f x d δ → slots (nodes c') = slots (nodes c).
Proof. intros [Hr _ _ _ _]. eapply same_shape_slots, relocked_shape, Hr. Qed.

Lemma walked_node c c' f x d δ j n : walked c c' f x d δ → nodes c !! j = Some n →
  ∃ n', nodes c' !! j = Some n' ∧ namespace (key n') = namespace (key n)
    ∧ (j ≠ root_node c → own (nodes c') n' = own (nodes c) n + (if decide (j = x) then d else 0))%Z.
Proof.
  intros Hw Hj. pose proof (rl_nodes _ _ _ _ (wk_relocked _ _ _ _ _ _ Hw) j) as Hn. rewrite Hj in Hn.
  simpl in Hn. eexists. split_and!; [exact Hn|done|]. intros Hne.
  by apply (wk_own _ _ _ _ _ _ Hw j n).
Qed.

(** Giving back the lock of a request. *)
Lemma unlock_spec c φ M x n : inv c φ → hash_inv c → disable c = false →
  (∀ N Q vs, M !! (N, Q) = Some vs ↔ pages c φ N Q vs) →
  nodes c !! x = Some n → (x ≠ root_node c → 0 < own (nodes c) n)%Z →
  ∃ c' δ, dec_lock_ref x c = Ok (c', δ) ∧ walked c c' (S (base.size (nodes c))) x (-1) δ
    ∧ inv c' φ ∧ hash_inv c' ∧ (∀ N Q vs, M !! (N, Q) = Some vs ↔ pages c' φ N Q vs).
Proof.
  intros Hinv Hh Hd HM Hx Hown.
  destruct (dec_lock_ref_walked c φ x n Hinv Hd Hx Hown) as (c'&δ&He&Hw).
  destruct (walked_quiet c φ c' _ x (-1) δ Hinv Hw) as (?&Hh'&Hp).
  { intros n0 Hn0 Hxr. assert (n0 = n) as -> by congruence. specialize (Hown Hxr). lia. }
  exists c', δ. split_and!; auto. intros. by rewrite HM, Hp.
Qed.

Lemma lock_spec c φ M x : inv c φ → hash_inv c → disable c = false →
  (∀ N Q vs, M !! (N, Q) = Some vs ↔ pages c φ N Q vs) → is_Some (nodes c !! x) →
  ∃ c' δ, inc_lock_ref x c = Ok (c', δ) ∧ walked c c' (S (base.size (nodes c))) x 1 δ
    ∧ inv c' φ ∧ hash_inv c' ∧ (∀ N Q vs, M !! (N, Q) = Some vs ↔ pages c' φ N Q vs).
Proof.
  intros Hinv Hh Hd HM Hx. destruct (inc_lock_ref_walked c φ x Hinv Hd Hx) as (c'&δ&He&Hw).
  destruct (walked_quiet c φ c' _ x 1 δ Hinv Hw) as (?&Hh'&Hp).
  { intros n Hn Hxr. pose proof (ac_own _ (in_acct _ _ Hinv) x n Hn Hxr). lia. }
  exists c', δ. split_and!; auto. intros. by rewrite HM, Hp.
Qed.

(** Both methods insert the row's slots under the request's key. *)
Lemma req_insert_spec c φ M r row toks prio chunked : inv c φ → hash_inv c → disable c = false →
  (∀ N Q vs, M !! (N, Q) = Some vs ↔ pages c φ N Q vs) → length toks ≤ length row →
  let k := req_key c r toks in
  let K := iter k in
  ∃ c' x' φ', cache_insert monotonic native_hash salt_digest k
      (Some (take (klen k) (take (length toks) row))) prio chunked c
      = Ok (c', length (spec_match M (page_size c) (req_ns r) K), Some x')
    ∧ inserted c φ M (req_ns r) K (take (length K) row) c' φ' x'.
Proof.
  intros Hinv Hh Hd HM Hlen k K. pose proof (in_ps _ _ Hinv) as Hps.
  destruct (req_key_spec c r toks Hps) as (Hk&Hu&Hkl&Hn&Hle). fold k in Hk, Hu, Hkl, Hn, Hle. fold K in Hu.
  destruct (cache_insert_spec monotonic native_hash salt_digest Hnative c φ M k
    (Some (take (klen k) (take (length toks) row))) prio chunked) as (c'&x'&φ'&He&Hi); try done.
  { simpl. rewrite Hkl, !length_take. lia. }
  exists c', x', φ'. rewrite He, Hn, Hu. split; [done|].
  replace (take (length K) row) with (stored_values c k (Some (take (klen k) (take (length toks) row)))).
  { by rewrite <-Hn, <-Hu. }
  unfold stored_values, default, id. cbn [from_option]. rewrite Hkl, !take_take. unfold K. rewrite length_iter.
  f_equal. lia.
Qed.

Lemma holds_le c φ M r row toks : inv c φ → disable c = false →
  (∀ N Q vs, M !! (N, Q) = Some vs ↔ pages c φ N Q vs) →
  holds_prefix c M r row (iter (req_key c r toks)) →
  Req.cache_protected_len r ≤ length (spec_match M (page_size c) (req_ns r) (iter (req_key c r toks))).
Proof.
  intros Hinv Hd HM [(x&n&_&Hx&Hp&Hns) Hle _]. pose proof (in_ps _ _ Hinv) as Hps.
  destruct (req_key_spec c r toks Hps) as (Hk&Hu&_&Hn&_). rewrite <-Hn, <-Hu in *.
  eapply (protected_le_match c φ M _ x n); try done. naive_solver.
Qed.

(** C19: when a request finishes and its tokens are inserted,
    [cache_finished_req] never raises and every KV slot of the request's row ends
    up in exactly one place: the protected prefix stays in the tree, the slots of
    pages that another request had stored meanwhile are freed, the others become
    tree slots, and the tail beyond the last whole page is freed.  The contents
    grow by exactly the missing pages, and the request's lock on its last node is
    released while nobody else's is touched. *)
Theorem cache_finished_req_hands_over c M p r row len :
  abs c M → disable c = false → disable_finished_insert c = false →
  req_row p r = Ok row → len ≤ length row →
  let toks := take len (Req.origin_input_ids r ++ Req.output_ids r) in
  let K := iter (req_key c r toks) in
  let m := length (spec_match M (page_size c) (req_ns r) K) in
  let prot := Req.cache_protected_len r in
  holds_prefix c M r row K →
  ∃ c', cache_finished_req monotonic native_hash salt_digest r true len p c = Ok c'
    ∧ abs c' (spec_insert M (page_size c) (req_ns r) K (take (length K) row))
    ∧ take (length toks) row = take prot row ++ pyslice row prot m ++ pyslice row m (length K)
                                 ++ pyslice row (length K) (length toks)
    ∧ allocator c' = free_segments (allocator c)
        [(pyslice row prot m, prot); (pyslice row (length K) (length toks), length K)]
    ∧ slots (nodes c') ≡ₚ pyslice row m (length K) ++ slots (nodes c)
    ∧ (evictable_size c' + protected_size c'
       = evictable_size c + protected_size c + Z.of_nat (length K - m))%Z
    ∧ (∀ j n, nodes c !! j = Some n → j ≠ root_node c → ∃ n', nodes c' !! j = Some n'
         ∧ own (nodes c') n' = own (nodes c) n - (if decide (Req.last_node r = Some j) then 1 else 0))%Z.
Proof.
  intros (φ&Hinv&Hh&HM) Hd Hdf Hrow Hlen toks K m prot Hhp.
  assert (length toks ≤ length row) as Hlt by (unfold toks; rewrite length_take; lia).
  pose proof (holds_le c φ M r row toks Hinv Hd HM Hhp) as Hpm. fold K m prot in Hpm.
  destruct Hhp as [(x&n&Hlast&Hx&Hpath&Hxn) Hpl Hprow].
  destruct (req_key_spec c r toks (in_ps _ _ Hinv)) as (_&_&_&_&HkK). rewrite <-length_iter in HkK. fold K in HkK.
  unfold cache_finished_req. rewrite Hdf, Hrow, Hd. res_step. fold toks.
  destruct (req_insert_spec c φ M r row toks (Some (default 0%Z (Req.priority r))) false Hinv Hh Hd HM Hlt)
    as (c1&x'&φ1&He&Hi). rewrite He. res_step. clear He. fold K m in Hi |- *.
  pose proof Hi as [Hinv1 Hh1 _ _ Hpg1 Hcfg1 Hal1 Hle1 Hev1 Hpr1 Hsl1 Hk1]. fold m in Hle1, Hev1, Hsl1.
  rewrite <-length_iter, Hlast. fold K prot.
  set (c2 := set_allocator _ c1).
  pose proof Hcfg1 as [= Hd1 Hps1 _ _ _ Hr1].
  destruct (Hk1 x n Hx) as (Hφx&n1&Hn1&_&_&Hown1).
  set (M' := spec_insert M (page_size c) (req_ns r) K (take (length K) row)) in *.
  destruct (unlock_spec c2 φ1 M' x n1) as (c'&δ&He&Hw&Hinv'&Hh'&HM'); try done.
  { by apply inv_set_allocator. }
  { by rewrite <-Hd1 in Hd. }
  { intros Hxr. change (nodes c2) with (nodes c1). rewrite Hown1. apply Hxn.
    change (root_node c2) with (root_node c1) in Hxr. congruence. }
  rewrite He. res_step. exists c'. split_and!; try done.
  - by exists φ1.
  - rewrite (take_pyslice row (length K)), (take_pyslice row m (length K)), (take_pyslice row prot m) by lia.
    by rewrite <-!app_assoc.
  - rewrite (rl_alloc _ _ _ _ (wk_relocked _ _ _ _ _ _ Hw)). cbn [allocator c2 set_allocator]. rewrite Hal1.
    by rewrite pyslice_take, <-pyslice_drop_take by lia.
  - rewrite (walked_slots _ _ _ _ _ _ Hw). change (nodes c2) with (nodes c1). by rewrite Hsl1, <-pyslice_drop_take by lia.
  - unfold evictable_size, protected_size. rewrite (wk_ev _ _ _ _ _ _ Hw), (wk_pr _ _ _ _ _ _ Hw).
    change (evictable_size_ c2) with (evictable_size_ c1). change (protected_size_ c2) with (protected_size_ c1).
    rewrite Hev1, Hpr1. lia.
  - intros j nj Hj Hjr. destruct (Hk1 j nj Hj) as (_&nj1&Hj1&_&_&<-).
    destruct (walked_node _ _ _ _ _ _ j nj1 Hw Hj1) as (nj'&?&_&Ho). exists nj'. split; [done|].
    rewrite Ho by (change (root_node c2) with (root_node c1); congruence).
    change (nodes c2) with (nodes c1).
    destruct (decide (j = x)), (decide (Some x = Some j)); try congruence; lia.
Qed.

(** Writing the matched slots back makes the row the matched prefix followed by
    the request's own tail. *)
Lemma write_back p r idx row new prot : Req.req_pool_idx r = Some idx → req_row p r = Ok row →
  prot ≤ length new → length new ≤ length row → take prot row = take prot new →
  ∃ p', write idx prot (length new) (drop prot new) p = Ok p'
    ∧ req_row p' r = Ok (new ++ drop (length new) row)
    ∧ (∀ j, j ≠ idx → req_to_token p' !! j = req_to_token p !! j)
    ∧ free_slots p' = free_slots p.
Proof.
  intros Hidx Hrow Hp Hl Ht. unfold req_row in *. rewrite Hidx in *. cbn [res_of_option res_bind] in *.
  destruct (req_to_token p !! idx) as [row0|] eqn:E; [|done]. injection Hrow as ->.
  unfold write. rewrite E. res_step.
  rewrite write_slice_ok by (rewrite length_drop, length_pyslice; lia). res_step.
  eexists. split; [done|]. cbn [req_to_token free_slots]. split_and!; [|by intros; rewrite list_lookup_insert_ne|done].
  rewrite list_lookup_insert_eq by (by eapply lookup_lt_Some). cbn [res_of_option]. f_equal.
  rewrite length_drop, Ht, app_assoc, take_drop. do 2 f_equal. lia.
Qed.

Lemma prefix_row (toks : nat) (new row : list Z) : length new ≤ toks → toks ≤ length row →
  (if length new <? length (take toks (new ++ drop (length new) row))
   then new ++ drop (length new) (take toks (new ++ drop (length new) row)) else new)
  = take toks (new ++ drop (length new) row).
Proof.
  intros H1 H2. set (l := take toks _).
  assert (take (length new) l = new) as Hl.
  { unfold l. rewrite take_take, Nat.min_l by done. by rewrite take_app_length. }
  destruct (Nat.ltb_spec (length new) (length l)).
  - rewrite <-Hl at 1. apply take_drop.
  - rewrite <-Hl at 1. apply take_ge. lia.
Qed.

(** The descent after the insertion finds the whole key. *)
Lemma rematch_spec c φ c1 φ1 M r row toks x' a : inv c φ → disable c = false →
  (∀ N Q vs, M !! (N, Q) = Some vs ↔ pages c φ N Q vs) → length toks ≤ length row →
  let k := req_key c r toks in
  let K := iter k in
  let M' := spec_insert M (page_size c) (req_ns r) K (take (length K) row) in
  inserted c φ M (req_ns r) K (take (length K) row) c1 φ1 x' →
  ∃ c2 φ2 res, match_prefix monotonic k (set_allocator a c1) = Ok (c2, res)
    ∧ quiet (set_allocator a c1) φ1 c2 φ2
    ∧ device_indices res = spec_match M' (page_size c) (req_ns r) K
    ∧ length (device_indices res) = length K
    ∧ reached (page_size c2) (nodes c2) (root_node c2) φ2 (req_ns r) K (device_indices res)
        (length K) (last_device_node res).
Proof.
  intros Hinv Hd HM Hlen k K M' Hi. pose proof (in_ps _ _ Hinv) as Hps.
  destruct (req_key_spec c r toks Hps) as (Hk&Hu&_&Hn&Hle).
  fold k in Hk, Hu, Hn, Hle. fold K in Hu. rewrite <-length_iter in Hle. fold K in Hle.
  pose proof (is_cfg _ _ _ _ _ _ _ _ _ Hi) as [= Hd1 Hps1 He1 _ _ _].
  set (c1' := set_allocator a c1).
  assert (key_for c1' k) as Hk1.
  { destruct Hk. split; [done|]. change (is_eagle c1') with (is_eagle c1). by rewrite He1. }
  assert (key_units c1' k = K) as Hu1.
  { rewrite <-Hu. unfold key_units, cache_key. change (is_eagle c1') with (is_eagle c1).
    change (page_size c1') with (page_size c1). by rewrite He1, Hps1. }
  destruct (match_prefix_quiet monotonic c1' φ1 k) as (c2&φ2&res&m2&He&Hq&Hre&Hlo); try done.
  { by apply inv_set_allocator, Hi. }
  { change (disable c1' = false) with (disable c1 = false). congruence. }
  rewrite Hu1, Hn in Hre, Hlo.
  assert (device_indices res = spec_match M' (page_size c) (req_ns r) K) as Hdev.
  { rewrite <-Hps1. change (page_size c1) with (page_size c1'). rewrite <-(quiet_page_size _ _ _ _ Hq).
    symmetry. eapply (spec_match_reached monotonic); [apply Hq| |done..].
    intros. rewrite (qu_pages _ _ _ _ Hq). apply Hi. }
  assert (length (device_indices res) = length K) as Hl.
  { pose proof (insert_match_key monotonic c φ M k (take (length K) row) Hinv Hk Hd HM) as Hm.
    cbn zeta in Hm. rewrite Hu, Hn in Hm. rewrite Hdev. unfold M'. rewrite Hm by (rewrite length_take; lia).
    rewrite length_app, length_drop, length_take. pose proof (is_le _ _ _ _ _ _ _ _ _ Hi). lia. }
  exists c2, φ2, res. split_and!; try done.
  rewrite <-Hl, (re_len _ _ _ _ _ _ _ _ _ Hre). done.
Qed.

(** Moving a lock from [x] to [y]. *)
Record lock_moved c φ M x y c' : Prop := {
  lm_inv : inv c' φ;
  lm_hash : hash_inv c';
  lm_pages : ∀ N Q vs, M !! (N, Q) = Some vs ↔ pages c' φ N Q vs;
  lm_cfg : cfg c' = cfg c;
  lm_alloc : allocator c' = allocator c;
  lm_slots : slots (nodes c') = slots (nodes c);
  lm_size : (evictable_size_ c' + protected_size_ c' = evictable_size_ c + protected_size_ c)%Z;
  lm_nodes : ∀ j n, nodes c !! j = Some n → ∃ n', nodes c' !! j = Some n'
    ∧ namespace (key n') = namespace (key n)
    ∧ (j ≠ root_node c → own (nodes c') n' = own (nodes c) n
         - (if decide (j = x) then 1 else 0) + (if decide (j = y) then 1 else 0))%Z;
}.

Lemma move_lock_spec c φ M x n y : inv c φ → hash_inv c → disable c = false →
  (∀ N Q vs, M !! (N, Q) = Some vs ↔ pages c φ N Q vs) →
  nodes c !! x = Some n → (x ≠ root_node c → 0 < own (nodes c) n)%Z → is_Some (nodes c !! y) →
  ∃ c1 δ1 c' δ2, dec_lock_ref x c = Ok (c1, δ1) ∧ inc_lock_ref y c1 = Ok (c', δ2)
    ∧ lock_moved c φ M x y c'.
Proof.
  intros Hinv Hh Hd HM Hx Hown [ny Hy].
  destruct (unlock_spec c φ M x n) as (c1&δ1&He1&Hw1&Hinv1&Hh1&HM1); try done.
  pose proof (rl_cfg _ _ _ _ (wk_relocked _ _ _ _ _ _ Hw1)) as Hcfg1. pose proof Hcfg1 as [= Hd1 _ _ _ _ Hr1].
  destruct (walked_node _ _ _ _ _ _ y ny Hw1 Hy) as (ny1&Hy1&_).
  destruct (lock_spec c1 φ M y) as (c'&δ2&He2&Hw2&Hinv2&Hh2&HM2); try done; [congruence|].
  pose proof (rl_cfg _ _ _ _ (wk_relocked _ _ _ _ _ _ Hw2)) as Hcfg2.
  exists c1, δ1, c', δ2. split; [done|]. split; [done|]. split; try done.
  - congruence.
  - rewrite (rl_alloc _ _ _ _ (wk_relocked _ _ _ _ _ _ Hw2)).
    apply (rl_alloc _ _ _ _ (wk_relocked _ _ _ _ _ _ Hw1)).
  - by rewrite (walked_slots _ _ _ _ _ _ Hw2), (walked_slots _ _ _ _ _ _ Hw1).
  - rewrite (wk_ev _ _ _ _ _ _ Hw2), (wk_pr _ _ _ _ _ _ Hw2), (wk_ev _ _ _ _ _ _ Hw1), (wk_pr _ _ _ _ _ _ Hw1).
    lia.
  - intros j nj Hj. destruct (walked_node _ _ _ _ _ _ j nj Hw1 Hj) as (n1&Hj1&Hns1&Ho1).
    destruct (walked_node _ _ _ _ _ _ j n1 Hw2 Hj1) as (n2&Hj2&Hns2&Ho2).
    exists n2. split_and!; [done|congruence|]. intros Hjr. rewrite Ho2, Ho1 by congruence.
    destruct (decide (j = x)), (decide (j = y)); lia.
Qed.

(** An insertion, a lookup and the move of the lock, taken together. *)
Section HandOver.
Context (c c1 c2 c' : RadixCache A) (φ φ1 φ2 : node_id → list lunit) (M : PrefixMap) (N : Namespace)
  (K : list lunit) (V : list Z) (x' : node_id) (a1 : A) (x y : node_id).
Context (Hi : inserted c φ M N K V c1 φ1 x') (Hq : quiet (set_allocator a1 c1) φ1 c2 φ2)
  (Hlm : lock_moved c2 φ2 (spec_insert M (page_size c) N K V) x y c').

Lemma handed_cfg : cfg c2 = cfg c ∧ cfg c' = cfg c.
Proof.
  pose proof (qu_cfg _ _ _ _ Hq) as Hcfg2. change (cfg (set_allocator a1 c1)) with (cfg c1) in Hcfg2.
  rewrite (is_cfg _ _ _ _ _ _ _ _ _ Hi) in Hcfg2. split; [done|]. by rewrite (lm_cfg _ _ _ _ _ _ Hlm).
Qed.

(** Locks other than the moved one are where they were. *)
Lemma handed_own_before j n : nodes c !! j = Some n →
  ∃ n2, nodes c2 !! j = Some n2 ∧ own (nodes c2) n2 = own (nodes c) n.
Proof.
  intros Hj. destruct (is_keep _ _ _ _ _ _ _ _ _ Hi j n Hj) as (_&n1&Hj1&_&_&Ho1).
  destruct (qu_nodes _ _ _ _ Hq j n1 Hj1) as (_&n2&Hj2&_&_&Ho2).
  change (nodes (set_allocator a1 c1)) with (nodes c1) in Ho2. exists n2. split; [done|congruence].
Qed.

Lemma handed_own j n : nodes c !! j = Some n → j ≠ root_node c → ∃ n', nodes c' !! j = Some n'
  ∧ own (nodes c') n' = (own (nodes c) n - (if decide (j = x) then 1 else 0)
                         + (if decide (j = y) then 1 else 0))%Z.
Proof.
  intros Hj Hjr. destruct (handed_own_before j n Hj) as (n2&Hj2&Ho2).
  destruct (lm_nodes _ _ _ _ _ _ Hlm j n2 Hj2) as (n'&Hj'&_&Ho'). exists n'. split; [done|].
  destruct handed_cfg as [[= _ _ _ _ _ Hr] _]. rewrite Ho', Ho2; [done|congruence].
Qed.

Lemma handed_state :
  let m := length (spec_match M (page_size c) N K) in
  abs c' (spec_insert M (page_size c) N K V) ∧ allocator c' = a1
  ∧ slots (nodes c') ≡ₚ drop m V ++ slots (nodes c)
  ∧ (evictable_size c' + protected_size c'
     = evictable_size c + protected_size c + Z.of_nat (length K - m))%Z.
Proof.
  pose proof Hi as [_ _ _ _ _ _ _ _ Hev Hpr Hsl _]. pose proof Hlm as [Hinv' Hh' Hpg' _ Hal' Hsl' Hsz' _].
  split_and!.
  - by exists φ2.
  - by rewrite Hal', (qu_alloc _ _ _ _ Hq).
  - rewrite Hsl', (qu_slots _ _ _ _ Hq). cbn [nodes set_allocator]. done.
  - unfold evictable_size, protected_size. rewrite Hsz', (qu_ev _ _ _ _ Hq), (qu_pr _ _ _ _ Hq).
    cbn [evictable_size_ protected_size_ set_allocator]. rewrite Hev, Hpr. lia.
Qed.

(** The node the lookup reached is locked and spells the matched part. *)
Lemma handed_node vals m nx : nodes c !! x = Some nx → (x ≠ root_node c → 0 < own (nodes c) nx)%Z →
  reached (page_size c2) (nodes c2) (root_node c2) φ2 N K vals m y →
  ∃ n', nodes c' !! y = Some n' ∧ path_of (nodes c') y = take m K
    ∧ (y ≠ root_node c' → (0 < own (nodes c') n')%Z ∧ namespace (key n') = N).
Proof.
  intros Hx Hown Hre. destruct handed_cfg as [[= _ _ _ _ _ Hr2] [= _ _ _ _ _ Hr']].
  destruct (re_in _ _ _ _ _ _ _ _ _ Hre) as (ny&Hny&Hnns).
  destruct (lm_nodes _ _ _ _ _ _ Hlm y ny Hny) as (ny'&Hny'&Hns'&Ho'). exists ny'. split_and!; [done| |].
  - destruct (lm_inv _ _ _ _ _ _ Hlm) as [Hps' Hwf' _]. rewrite (path_of_eq _ _ Hps' _ _ φ2 _ ny' Hwf' Hny').
    apply (re_path _ _ _ _ _ _ _ _ _ Hre).
  - rewrite Hr', <-Hr2. intros Hne. split; [|rewrite Hns'; by apply Hnns].
    rewrite Ho', (decide_True (P := y = y)) by done.
    pose proof (ac_own _ (in_acct _ _ (qu_inv _ _ _ _ Hq)) _ ny Hny Hne).
    destruct (decide (y = x)) as [->|]; [|lia]. destruct (handed_own_before x nx Hx) as (n2&Hn2&Ho2).
    assert (n2 = ny) as -> by congruence. specialize (Hown ltac:(congruence)). lia.
Qed.
End HandOver.

(** C18: [cache_unfinished_req] (a chunk of a running request was computed) never
    raises: the assertion on the rematched length cannot fail.  The tree takes
    the missing pages, duplicates are freed, the row and [prefix_indices] now
    start with the tree's own slots and keep the request's tail, rows of other
    requests are untouched, the lock moves from the old to the new last node, and
    the contract between request and tree holds again, so the request can be
    cached once more or finish. *)
Theorem cache_unfinished_req_hands_over c M p r row chunked :
  abs c M → disable c = false → req_row p r = Ok row →
  let toks := Req.get_fill_ids r in
  let K := iter (req_key c r toks) in
  let m := length (spec_match M (page_size c) (req_ns r) K) in
  let M' := spec_insert M (page_size c) (req_ns r) K (take (length K) row) in
  let prot := Req.cache_protected_len r in
  length toks ≤ length row → holds_prefix c M r row K →
  ∃ c' r' p', cache_unfinished_req monotonic native_hash salt_digest r chunked p c = Ok (c', r', p')
    ∧ abs c' M'
    ∧ allocator c' = free_segment (allocator c) (pyslice row prot m) prot
    ∧ slots (nodes c') ≡ₚ pyslice row m (length K) ++ slots (nodes c)
    ∧ (evictable_size c' + protected_size c'
       = evictable_size c + protected_size c + Z.of_nat (length K - m))%Z
    ∧ (let row' := spec_match M' (page_size c) (req_ns r) K ++ drop (length K) row in
       req_row p' r' = Ok row' ∧ Req.prefix_indices r' = take (length toks) row'
       ∧ holds_prefix c' M' r' row' K)
    ∧ Req.cache_protected_len r' = length K
    ∧ (∀ i, Req.req_pool_idx r ≠ Some i → req_to_token p' !! i = req_to_token p !! i)
    ∧ (∀ j n, nodes c !! j = Some n → j ≠ root_node c → ∃ n', nodes c' !! j = Some n'
         ∧ own (nodes c') n' = own (nodes c) n
             - (if decide (Req.last_node r = Some j) then 1 else 0)
             + (if decide (Req.last_node r' = Some j) then 1 else 0))%Z.
Proof.
  intros (φ&Hinv&Hh&HM) Hd Hrow toks K m M' prot Hlt Hhp.
  pose proof (holds_le c φ M r row toks Hinv Hd HM Hhp) as Hpm. fold K m prot in Hpm.
  destruct Hhp as [(x&n&Hlast&Hx&Hpath&Hxn) Hpl Hprow].
  destruct (req_key_spec c r toks (in_ps _ _ Hinv)) as (Hkf&Hku&_&Hkn&HkK). rewrite <-length_iter in HkK. fold K in HkK, Hku.
  destruct (req_insert_spec c φ M r row toks (Some (default 0%Z (Req.priority r))) chunked Hinv Hh Hd HM Hlt)
    as (c1&x'&φ1&He&Hi).
  unfold cache_unfinished_req. rewrite Hd, Hrow. res_step. fold toks.
  rewrite He. res_step. clear He. fold K in Hi |- *. fold m prot.
  rewrite (pyslice_take row prot m) by (pose proof (is_le _ _ _ _ _ _ _ _ _ Hi); lia).
  set (a1 := free_segment _ _ prot).
  destruct (rematch_spec c φ c1 φ1 M r row toks x' a1 Hinv Hd HM Hlt Hi) as (c2&φ2&res&He&Hq&Hdev&Hdl&Hre).
  fold K M' in Hdev, Hdl, Hre. rewrite He. res_step. clear He.
  rewrite Hdl, <-length_iter. fold K. rewrite Nat.eqb_refl. cbn [assert_ res_bind].
  destruct (Req.req_pool_idx r) as [idx|] eqn:Hidx; [|by unfold req_row in Hrow; rewrite Hidx in Hrow].
  res_step.
  assert (take prot row = take prot (device_indices res)) as Htk.
  { pose proof (insert_match_key monotonic c φ M _ (take (length K) row) Hinv Hkf Hd HM) as Hm.
    cbn zeta in Hm. fold toks in Hku, Hkn. rewrite Hku, Hkn in Hm. rewrite Hdev. unfold M'.
    rewrite Hm by (rewrite length_take; lia). fold prot in Hprow. rewrite Hprow. symmetry. apply take_app_le. lia. }
  destruct (write_back p r idx row (device_indices res) prot) as (p'&Hw&Hrow'&Hoth&_); try done; [lia..|].
  rewrite Hdl in Hw, Hrow'. rewrite Hw. res_step. rewrite Hlast. res_step.
  destruct (handed_own_before c c1 c2 φ φ1 φ2 M _ K _ x' a1 Hi Hq x n Hx) as (n2&Hn2&Hown2).
  pose proof (qu_cfg _ _ _ _ Hq) as Hcfg2. change (cfg (set_allocator a1 c1)) with (cfg c1) in Hcfg2.
  rewrite (is_cfg _ _ _ _ _ _ _ _ _ Hi) in Hcfg2. injection Hcfg2 as Hd2 _ _ _ _ Hr2.
  destruct (move_lock_spec c2 φ2 M' x n2 (last_device_node res)) as (c3&δ1&c'&δ2&He1&He2&Hlm);
    [apply Hq|apply Hq, Hi|congruence| |done| | |].
  { intros. rewrite (qu_pages _ _ _ _ Hq). apply Hi. }
  { intros Hxr. rewrite Hown2. apply Hxn. congruence. }
  { destruct (re_in _ _ _ _ _ _ _ _ _ Hre) as (?&?&_). by eexists. }
  rewrite He1. res_step. rewrite He2. res_step. rewrite Hrow'. res_step.
  eexists c', _, p'. split; [done|]. cbn [Req.last_node Req.set_prefix Req.cache_protected_len Req.prefix_indices].
  destruct (handed_state c c1 c2 c' φ φ1 φ2 M _ K _ x' a1 x _ Hi Hq Hlm) as (Habs'&Hal'&Hsl'&Hsz').
  destruct (handed_cfg c c1 c2 c' φ φ1 φ2 M _ K _ x' a1 x _ Hi Hq Hlm) as [_ [= _ Hpsz _ _ _ _]].
  split_and!; [done| | |done| | | |done| |].
  - rewrite Hal'. unfold a1. by rewrite (is_alloc _ _ _ _ _ _ _ _ _ Hi).
  - rewrite Hsl'. fold m. by rewrite <-pyslice_drop_take by apply Hi.
  - rewrite <-Hdev. unfold req_row in *. cbn [Req.req_pool_idx Req.set_prefix]. done.
  - rewrite <-Hdev, <-Hdl. apply prefix_row; lia.
  - split; cbn [Req.last_node Req.set_prefix Req.cache_protected_len Req.extra_key Req.cache_salt];
      rewrite ?Hpsz; try done.
    + destruct (handed_node c c1 c2 c' φ φ1 φ2 M _ K _ x' a1 x _ Hi Hq Hlm (device_indices res) (length K) n)
        as (ny'&Hny'&Hpa'&Hlk'); [done|intros; by apply Hxn|done|]. by eexists _, ny'.
    + rewrite <-Hdev, take_app_le by lia. unfold req_ns in Hdev |- *. by rewrite Hdev.
  - intros i Hi'. apply Hoth. congruence.
  - intros j nj Hj Hjr.
    destruct (handed_own c c1 c2 c' φ φ1 φ2 M _ K _ x' a1 x _ Hi Hq Hlm j nj Hj Hjr) as (nj'&Hj'&Ho').
    exists nj'. split; [done|]. rewrite Ho'.
    destruct (decide (j = x)), (decide (Some x = Some j)), (decide (j = last_device_node res)),
      (decide (Some (last_device_node res) = Some j)); try congruence; lia.
Qed.
End ReqSpec.
