(* ===== verification/RadixContents.v ===== *)
(** * The contents of a cache, computed, and what locks protect

    [contents c] lists the pages of a store; on a well-formed cache it is the
    abstract map.  Used to state the result of an eviction, and to show that the
    pages on the path of a locked node survive it. *)

From stdpp Require Import base tactics numbers list gmap strings.
From Stdlib Require Import ZArith Lia ZifyNat.
From S2P Require Import Prelude RadixKey TreeNode KvEvents EventQueue RadixCache RadixInv RadixPages RadixAcct.
From S2P Require Import RadixEvents RadixMatch RadixSpec RadixInsert RadixLock RadixEvict.

Definition node_pages (ps : nat) (ns : gmap node_id TreeNode) (n : TreeNode)
    : list ((Namespace * list lunit) * list Z) :=
  match parent n, value n with
  | Some p, Some v =>
      (λ j, ((namespace (key n), path_of ns p ++ take (j * ps + ps) (iter (key n))),
             pyslice v (j * ps) (j * ps + ps))) <$> seq 0 (klen (key n) / ps)
  | _, _ => []
  end.

Definition contents {A} (c : RadixCache A) : PrefixMap :=
  list_to_map (map_to_list (nodes c) ≫= λ p, node_pages (page_size c) (nodes c) p.2).

Section Contents.
Context {A : Type}.
Implicit Types c : RadixCache A.
Implicit Types M : PrefixMap.

Abbreviation pages c φ := (page_at (page_size c) (nodes c) φ).

Lemma node_pages_spec c φ N Q vs : inv c φ →
  ((N, Q), vs) ∈ (map_to_list (nodes c) ≫= λ p, node_pages (page_size c) (nodes c) p.2)
  ↔ pages c φ N Q vs.
Proof.
  intros [Hps Hwf _]. rewrite list_elem_of_bind. split.
  - intros ([i n]&Hin&Hi%elem_of_map_to_list). simpl in Hin. unfold node_pages in Hin.
    destruct (parent n) as [p|] eqn:Hp; [|set_solver]. destruct (value n) as [v|] eqn:Hv; [|set_solver].
    apply list_elem_of_fmap in Hin as (j&[= -> -> ->]&Hj%elem_of_seq).
    destruct (edge_of _ _ Hwf i n p Hi Hp) as (_&_&pn&[_ Hpn _ _ _]).
    rewrite (path_of_eq _ _ Hps _ _ φ p pn Hwf Hpn).
    exists i, n, p, v, j. split_and!; try done.
    pose proof (Nat.Div0.mul_div_le (klen (key n)) (page_size c)). nia.
  - intros (i&n&p&v&j&Hi&Hp&<-&Hv&Hj&->&->). exists (i, n). split; [|by apply elem_of_map_to_list].
    simpl. unfold node_pages. rewrite Hp, Hv.
    destruct (edge_of _ _ Hwf i n p Hi Hp) as (_&_&pn&[_ Hpn _ _ _]).
    rewrite (path_of_eq _ _ Hps _ _ φ p pn Hwf Hpn).
    apply list_elem_of_fmap. exists j. split; [done|]. apply elem_of_seq.
    assert (S j ≤ klen (key n) / page_size c); [|lia]. apply Nat.div_le_lower_bound; lia.
Qed.

Lemma contents_spec c φ N Q vs : inv c φ → contents c !! (N, Q) = Some vs ↔ pages c φ N Q vs.
Proof.
  intros Hinv. unfold contents. split.
  - intros H%elem_of_list_to_map_2. by apply (node_pages_spec c φ).
  - intros Hp. destruct (list_to_map _ !! (N, Q)) as [vs'|] eqn:E.
    + apply elem_of_list_to_map_2, (node_pages_spec c φ) in E; [|done]. f_equal.
      eapply (page_at_fun (page_size c) (is_eagle c)); [apply Hinv|apply (in_tree _ _ Hinv)|done|done].
    + apply not_elem_of_list_to_map_2 in E. exfalso. apply E, list_elem_of_fmap.
      exists ((N, Q), vs). split; [done|]. by apply (node_pages_spec c φ).
Qed.

Lemma abs_contents c φ : inv c φ → hash_inv c → abs c (contents c).
Proof. intros. exists φ. split_and!; [done..|]. intros. by apply contents_spec. Qed.

Lemma abs_fun c M : abs c M → M = contents c.
Proof.
  intros (φ&Hinv&_&HM). apply map_eq. intros [N Q]. apply option_eq. intros vs.
  by rewrite HM, (contents_spec c φ).
Qed.

(** Ancestors of a locked node are locked. *)
Lemma lock_le_parent c φ i n p pn : inv c φ → nodes c !! i = Some n → parent n = Some p →
  nodes c !! p = Some pn → p ≠ root_node c → (lock_ref n ≤ lock_ref pn)%Z.
Proof.
  intros [_ Hwf Hac] Hi Hp Hpn Hpr.
  destruct (edge_of _ _ Hwf i n p Hi Hp) as (_&_&pn'&[_ Hpn' (ck&_&Hck) _ _]).
  assert (pn' = pn) as -> by congruence.
  pose proof (ac_own _ Hac p pn Hpn Hpr) as Ho. unfold own, child_locks in Ho.
  assert (lock_at (nodes c) i ≤ msum (λ _ ch, lock_at (nodes c) ch) (children pn))%Z as Hge.
  { apply (msum_ge (λ _ ch, lock_at (nodes c) ch) (children pn) ck i); [|done]. intros k a _. unfold lock_at.
    destruct (nodes c !! a) eqn:E; [by eapply (ac_lock _ Hac)|done]. }
  rewrite (lock_at_some _ _ _ Hi) in Hge. lia.
Qed.

(** A page on the path of a locked node lies on a locked node. *)
Lemma locked_page c φ x n N Q vs : inv c φ → nodes c !! x = Some n → x ≠ root_node c →
  (0 < lock_ref n)%Z → namespace (key n) = N → Q `prefix_of` φ x → pages c φ N Q vs →
  ∃ i m p v j, nodes c !! i = Some m ∧ parent m = Some p ∧ namespace (key m) = N ∧ value m = Some v
    ∧ j * page_size c + page_size c ≤ klen (key m)
    ∧ Q = φ p ++ take (j * page_size c + page_size c) (iter (key m))
    ∧ vs = pyslice v (j * page_size c) (j * page_size c + page_size c) ∧ (0 < lock_ref m)%Z.
Proof.
  intros Hinv Hx Hxr Hl HN HQ Hp. pose proof Hinv as [Hps Hwf Hac].
  assert (∃ vs', ∃ i m p v j, nodes c !! i = Some m ∧ parent m = Some p ∧ namespace (key m) = N ∧ value m = Some v
    ∧ j * page_size c + page_size c ≤ klen (key m)
    ∧ Q = φ p ++ take (j * page_size c + page_size c) (iter (key m))
    ∧ vs' = pyslice v (j * page_size c) (j * page_size c + page_size c) ∧ (0 < lock_ref m)%Z)
    as (vs'&i&m&p&v&j&H1&H2&H3&H4&H5&H6&H7&H8).
  2:{ assert (vs = vs') as ->; [|by exists i, m, p, v, j].
      eapply (page_at_fun (page_size c) (is_eagle c)); [done|apply Hwf|done|]. by exists i, m, p, v, j. }
  destruct (page_at_node _ _ Hps Hwf N Q vs Hp) as (_&_&_&_&_&_&Hpos&Hm). clear Hp.
  remember (length (φ x)) as l eqn:Hlen. revert x n Hlen Hx Hxr Hl HN HQ.
  induction (lt_wf l) as [l _ IH]; intros x n -> Hx Hxr Hl HN HQ.
  destruct (wt_node _ _ _ _ _ Hwf x n Hx Hxr) as [[Hk (v&Hv&_)] (p&pn&He)].
  pose proof He as [Hpa Hpp _ Hφ Hens].
  destruct (path_len _ _ Hps Hwf x n p Hx Hpa) as [Hli ?].
  destruct (decide (length Q ≤ length (φ p))) as [Hle|Hgt].
  - assert (Q `prefix_of` φ p) as HQp.
    { eapply prefix_le; [done| |done]. rewrite Hφ. by eexists. }
    assert (p ≠ root_node c) as Hpr.
    { intros ->. rewrite (wt_root_path _ _ _ _ _ Hwf) in Hle. simpl in Hle. lia. }
    pose proof (lock_le_parent c φ x n p pn Hinv Hx Hpa Hpp Hpr).
    eapply (IH (length (φ p))); [lia|done|done|done|lia|by rewrite <-Hens|done].
  - pose proof (path_mod _ _ Hps Hwf p pn Hpp) as Hmp.
    apply Nat.Lcm0.mod_divide in Hm as [a Ha], Hmp as [b Hb].
    assert (b < a) by nia.
    eexists _, x, n, p, v, (a - b - 1).
    assert ((a - b - 1) * page_size c + page_size c = length Q - length (φ p)) as Hj by nia.
    pose proof (prefix_length _ _ HQ).
    split_and!; try done; [lia|]. rewrite Hj. destruct HQ as [r Hr'].
    rewrite Hφ in Hr'.
    trans (take (length (φ p) + (length Q - length (φ p))) (φ p ++ iter (key n)));
      [|by rewrite take_app_add].
    rewrite Hr'. replace (_ + _) with (length Q) by lia. by rewrite take_app_length.
Qed.
End Contents.
