(* ===== verification/RadixCorrect.v ===== *)
(** * Correctness of the radix cache

    The theorems about [RadixCache], stated against the abstract prefix map of
    [RadixSpec]: each operation is total on a well-formed cache, keeps it
    well-formed and does to the map exactly what the specification says.  The
    witnesses run the model on a small paged cache. *)

From stdpp Require Import base tactics numbers list gmap strings.
From Stdlib Require Import ZArith Lia ZifyNat.
From S2P Require Import Prelude RadixKey TreeNode KvEvents EventQueue RadixCache RadixInv RadixPages RadixAcct.
From S2P Require Import RadixEvents RadixMatch RadixSpec RadixInsert RadixLock RadixEvict RadixContents.
From S2P Require Import Allocator.

(** ** Keys and events *)

(** C37: the galloping search of [match] computes the reference: on keys of one
    namespace the length of the longest common prefix of the two unit sequences,
    rounded down to whole pages, for tokens and for bigrams; on keys of different
    namespaces it raises [ValueError]. *)
Theorem match_is_common_prefix k1 k2 ps :
  is_bigram k1 = is_bigram k2 → 0 < ps →
  match_ k1 k2 ps = if decide (namespace k1 = namespace k2)
                    then Ok (page_floor ps (lcp (iter k1) (iter k2))) else Raise ValueError.
Proof.
  intros Hb Hp. destruct (decide (namespace k1 = namespace k2)) as [Hn|Hn].
  - by apply match_spec.
  - unfold match_. by rewrite check_compatible_raise.
Qed.

Lemma match_is_common_prefix_witness :
  match_ (radix_key [1; 2; 3; 4; 5]%Z None false None None) (radix_key [1; 2; 3; 9]%Z None false None None) 2
  = Ok 2.
Proof.
  rewrite (match_is_common_prefix (radix_key [1; 2; 3; 4; 5]%Z None false None None)
    (radix_key [1; 2; 3; 9]%Z None false None None) 2); [vm_compute; reflexivity|reflexivity|lia].
Defined.

(** Two keys select the same child of a node exactly when they are in the
    same namespace (extra key and salt) and agree on the whole first page: no two
    different pages, and no two tenants, ever collide in the children dict. *)
Theorem child_key_exact k1 k2 ps :
  is_bigram k1 = is_bigram k2 → 0 < ps → ps ≤ klen k1 → ps ≤ klen k2 →
  (child_key k1 ps = child_key k2 ps
     ↔ namespace k1 = namespace k2 ∧ take ps (iter k1) = take ps (iter k2)).
Proof. apply child_key_inj. Qed.

Lemma child_key_exact_witness :
  ~ child_key (radix_key [1; 2]%Z None false None (Some "tenant")) 2
    = child_key (radix_key [1; 2]%Z (Some "tenant") false None None) 2.
Proof.
  intros E. apply (child_key_exact (radix_key [1; 2]%Z None false None (Some "tenant"))
    (radix_key [1; 2]%Z (Some "tenant") false None None) 2) in E as [E _];
    [discriminate E|reflexivity|lia|vm_compute; lia|vm_compute; lia].
Defined.

(** C36: coalescing is invisible: whatever events are enqueued, a consumer that
    applies the queue block by block sees the same operations as if every event
    had been kept apart, in the same order. *)
Theorem coalescing_invisible es r :
  recorder_wf r → Forall event_wf es →
  queue_ops (queue (foldl (λ r e, enqueue e r) r es)) = queue_ops (queue r) ++ (es ≫= event_ops)
  ∧ recorder_wf (foldl (λ r e, enqueue e r) r es).
Proof.
  intros Hr Hes. revert r Hr. induction Hes as [|e es He _ IH]; intros r Hr; cbn [foldl mbind list_bind].
  { by rewrite app_nil_r. }
  destruct (enqueue_spec e r Hr He) as (Hq&Hw&_). destruct (IH (enqueue e r) Hw) as [-> ?].
  by rewrite Hq, <-app_assoc.
Qed.

Lemma coalescing_invisible_witness :
  queue_ops (queue (foldl (λ r e, enqueue e r) (mkRecorder true 1 [])
    [EvRemoved [1]%Z (Some GPU); EvRemoved [2]%Z (Some GPU)]))
  = [OpRemove 1 (Some GPU); OpRemove 2 (Some GPU)].
Proof.
  rewrite (proj1 (coalescing_invisible [EvRemoved [1]%Z (Some GPU); EvRemoved [2]%Z (Some GPU)]
    (mkRecorder true 1 []) ltac:(constructor) ltac:(by repeat constructor))). reflexivity.
Defined.

Section Locks.
Context {A : Type}.
Implicit Types c : RadixCache A.
Implicit Types M : PrefixMap.

Lemma cache_ext c c' : cfg c = cfg c' → nodes c = nodes c' → counter c = counter c' →
  reads c = reads c' → evictable_size_ c = evictable_size_ c' → protected_size_ c = protected_size_ c' →
  evictable_leaves c = evictable_leaves c' → kv_events c = kv_events c' → allocator c = allocator c' →
  c = c'.
Proof. destruct c, c'. unfold cfg. simpl. by intros [= -> -> -> -> -> ->] -> -> -> -> -> -> -> ->. Qed.

(** C23: taking a lock keeps the stored map, moves the length of every node on the
    path that was unlocked from the evictable to the protected size (the returned
    delta says how much), changes the number of locks taken on [x] by one and on
    no other node; and releasing it restores the cache to the very same state
    with the opposite delta. *)
Theorem lock_unlock c M x :
  abs c M → disable c = false → is_Some (nodes c !! x) →
  ∃ c1 δ, inc_lock_ref x c = Ok (c1, δ) ∧ abs c1 M
    ∧ evictable_size c1 = (evictable_size c + δ)%Z ∧ protected_size c1 = (protected_size c - δ)%Z
    ∧ slots (nodes c1) = slots (nodes c) ∧ allocator c1 = allocator c
    ∧ (∀ j n, nodes c !! j = Some n → j ≠ root_node c → ∃ n', nodes c1 !! j = Some n'
         ∧ own (nodes c1) n' = (own (nodes c) n + (if decide (j = x) then 1 else 0))%Z)
    ∧ dec_lock_ref x c1 = Ok (c, (- δ)%Z).
Proof.
  intros (φ&Hinv&Hh&HM) Hd [n Hx].
  destruct (inc_lock_ref_walked c φ x Hinv Hd) as (c1&δ&He&Hw); [by eexists|].
  pose proof Hw as [Hr1 Hex1 Hev1 Hpr1 Hown1].
  destruct (walked_quiet c φ c1 _ x 1 δ Hinv Hw) as (Hinv1&Hh1&Hp1).
  { intros m Hm Hxr. pose proof (ac_own _ (in_acct _ _ Hinv) x m Hm Hxr). lia. }
  pose proof (rl_cfg _ _ _ _ Hr1) as Hcfg1. pose proof Hcfg1 as [= Hd1 _ _ _ _ Hroot1].
  pose proof (relocked_shape _ _ _ _ Hr1) as Hsh.
  assert (∀ j nj, nodes c !! j = Some nj → ∃ n', nodes c1 !! j = Some n'
    ∧ (j ≠ root_node c → own (nodes c1) n' = own (nodes c) nj + (if decide (j = x) then 1 else 0))%Z) as Hlook.
  { intros j nj Hj. pose proof (rl_nodes _ _ _ _ Hr1 j) as Hn. rewrite Hj in Hn. eexists. split; [exact Hn|].
    intros. by apply Hown1. }
  destruct (Hlook x n Hx) as (n1&Hx1&Ho1).
  destruct (dec_lock_ref_walked c1 φ x n1 Hinv1) as (c2&δ2&He2&Hw2); [congruence|done| |].
  { rewrite Hroot1. intros Hxr. rewrite Ho1, decide_True by done.
    pose proof (ac_own _ (in_acct _ _ Hinv) x n Hx Hxr). lia. }
  exists c1, δ. split_and!; try done.
  - exists φ. split_and!; auto. intros. by rewrite HM, Hp1.
  - by eapply same_shape_slots.
  - by apply Hr1.
  - intros j nj Hj Hjr. destruct (Hlook j nj Hj) as (n'&?&?). eauto.
  - rewrite He2. pose proof Hw2 as [Hr2 Hex2 Hev2 Hpr2 _].
    assert (nodes c2 = nodes c) as Hns.
    { apply map_eq. intros j. rewrite (rl_nodes _ _ _ _ Hr2), (rl_nodes _ _ _ _ Hr1).
      rewrite Hroot1, (walk_shape _ _ (nodes c)) by done.
      assert (size (nodes c1) = size (nodes c)) as ->.
      { rewrite <-(map_size_fmap sview (nodes c1)), <-(map_size_fmap sview (nodes c)). by rewrite Hsh. }
      generalize (walk (S (size (nodes c))) (nodes c) (root_node c) x). intros ws.
      destruct (nodes c !! j) as [nj|]; simpl; [|done]. f_equal. destruct nj; unfold set_lock_ref; simpl.
      f_equal. destruct (decide (j ∈ ws)); lia. }
    pose proof (rl_cfg _ _ _ _ Hr2) as Hcfg2. rewrite Hcfg1 in Hcfg2.
    pose proof Hcfg2 as [= _ _ _ _ _ E6].
    assert (evictable_size_ c2 = evictable_size_ c) as E7.
    { rewrite (ex_ev _ Hex2), (ac_ev _ (in_acct _ _ Hinv)). by rewrite Hns, E6. }
    assert (δ2 = - δ)%Z as -> by lia.
    assert (protected_size_ c2 = protected_size_ c) as E8 by lia.
    assert (evictable_leaves c2 = evictable_leaves c) as E9.
    { apply set_eq. intros j. rewrite (ex_leaves _ Hex2 j), (ac_leaves _ (in_acct _ _ Hinv)) by set_solver.
      by rewrite Hns, E6. }
    do 2 f_equal. apply cache_ext; try done.
    + by rewrite (rl_counter _ _ _ _ Hr2), (rl_counter _ _ _ _ Hr1).
    + by rewrite (rl_reads _ _ _ _ Hr2), (rl_reads _ _ _ _ Hr1).
    + by rewrite (rl_kv _ _ _ _ Hr2), (rl_kv _ _ _ _ Hr1).
    + by rewrite (rl_alloc _ _ _ _ Hr2), (rl_alloc _ _ _ _ Hr1).
Qed.
End Locks.

Section Correct.
Context {A : Type} `{!KvAllocator A}.
Context (monotonic : nat → Z).
Implicit Types c : RadixCache A.
Implicit Types M : PrefixMap.

Lemma reset_inv c : 0 < page_size c → inv (reset monotonic c) (λ _, []) ∧
  nodes (reset monotonic c) !! root_node (reset monotonic c) ≠ None ∧
  dom (nodes (reset monotonic c)) = {[counter c]}.
Proof.
  intros Hps. unfold reset, alloc_node, now. cbn [counter set_nodes set_counter set_reads reads].
  set (f0 := λ n : TreeNode, mkNode _ _ _ _ _ _ _ _ _ _ _ _ _).
  unfold upd_node. cbn [nodes set_nodes set_root_node root_node set_counter set_reads counter].
  rewrite !(alter_as_insert _ _ (counter c) _ (lookup_insert_eq _ _ _)), !insert_insert_eq.
  set (rn := set_hash_value _ _).
  set (c' := set_kv_events _ _).
  assert (nodes c' = {[counter c := rn]}) as Hns by done.
  assert (root_node c' = counter c) as Hroot by done.
  assert (∀ i n, nodes c' !! i = Some n → i = counter c ∧ n = rn) as Hone.
  { intros i n. rewrite Hns, lookup_singleton_Some. naive_solver. }
  assert (lock_ref rn = 1%Z) as Hlk by done.
  assert (children rn = ∅) as Hch by done.
  split_and!; [|by rewrite Hroot, Hns, lookup_singleton_eq|by rewrite Hns, dom_singleton_L].
  split; [done| |].
  - split; rewrite ?Hroot.
    + exists rn. rewrite Hns, lookup_singleton_eq. done.
    + done.
    + intros i n Hi Hne. by destruct (Hone i n Hi).
    + intros p pn ck i Hp. destruct (Hone p pn Hp) as [-> ->]. by rewrite Hch, lookup_empty.
  - split; rewrite ?Hroot.
    + intros r Hr. destruct (Hone _ r Hr) as [_ ->]. by rewrite Hlk.
    + intros i n Hi. destruct (Hone i n Hi) as [_ ->]. by rewrite Hlk.
    + intros i n Hi Hne. by destruct (Hone i n Hi).
    + rewrite Hns. unfold singletonM, map_singleton. rewrite msum_insert, msum_empty by apply lookup_empty.
      unfold ev_len. by rewrite decide_True.
    + rewrite Hns. unfold singletonM, map_singleton. rewrite msum_insert, msum_empty by apply lookup_empty.
      unfold pr_len. by rewrite decide_True.
    + intros i. split; [intros Hi; by apply elem_of_empty in Hi|].
      intros (n&Hi&Hne&_). by destruct (Hone i n Hi).
    + intros i [n Hi]. destruct (Hone i n Hi) as [-> _]. cbn. lia.
Qed.

Lemma reset_abs c : 0 < page_size c → rec_page_size (kv_events c) = page_size c →
  recorder_wf (kv_events c) → abs (reset monotonic c) ∅.
Proof.
  intros Hps Hrp Hrw. destruct (reset_inv c Hps) as (Hinv&_&Hdom). exists (λ _, []).
  assert (∀ i n, nodes (reset monotonic c) !! i = Some n →
    i = counter c ∧ parent n = None ∧ klen (key n) = 0 ∧ hash_value n = Some [] ∧ event_hash_value n = None) as Hone.
  { intros i n Hi. assert (i ∈ dom (nodes (reset monotonic c))) as Hin by by apply elem_of_dom.
    rewrite Hdom in Hin. apply elem_of_singleton in Hin as ->. revert Hi.
    unfold reset, alloc_node, now, upd_node. cbn. rewrite !lookup_alter, !decide_True by done.
    rewrite lookup_insert_eq. cbn. intros [= <-]. done. }
  split_and!; [done| |].
  - split; [split|split].
    + unfold reset, alloc_node, now, upd_node, record_all_cleared. cbn.
      destruct (enabled (kv_events c)); [|done]. unfold enqueue.
      destruct (last (queue (kv_events c))); [|done]. by destruct (coalesce _ _).
    + unfold reset, alloc_node, now, upd_node, record_all_cleared. cbn.
      destruct (enabled (kv_events c)); [|done]. by apply (enqueue_spec EvAllCleared).
    + intros rn Hr. by destruct (Hone _ _ Hr) as (_&_&?&_).
    + intros i n h Hi Hh. destruct (Hone _ _ Hi) as (_&_&Hk&Hv&_). rewrite Hv in Hh. injection Hh as <-.
      split; [by rewrite Hk, Nat.Div0.div_0_l|done].
    + intros i n h Hi Hh. destruct (Hone _ _ Hi) as (_&_&_&_&He). congruence.
    + intros i n p pn Hi Hp. destruct (Hone _ _ Hi) as (_&He&_). congruence.
  - intros N Q vs. rewrite lookup_empty. split; [done|].
    intros (i&n&p&v&j&Hi&Hp&_). destruct (Hone _ _ Hi) as (_&He&_). congruence.
Qed.

(** Whatever a cache held, [reset] leaves it well-formed and empty: no prefix
    is stored, both size counters are zero and a lookup of any key matches
    nothing. *)
Theorem reset_empties c k :
  0 < page_size c → rec_page_size (kv_events c) = page_size c → recorder_wf (kv_events c) →
  abs (reset monotonic c) ∅ ∧ evictable_size (reset monotonic c) = 0%Z
  ∧ protected_size (reset monotonic c) = 0%Z ∧ slots (nodes (reset monotonic c)) = []
  ∧ allocator (reset monotonic c) = allocator c
  ∧ (key_for c k → disable c = false →
     ∃ c', match_prefix monotonic k (reset monotonic c)
             = Ok (c', empty_match_result (reset monotonic c))).
Proof.
  intros Hps Hrp Hrw. pose proof (reset_abs c Hps Hrp Hrw) as Habs.
  split_and!; try done.
  - unfold reset, alloc_node, now, upd_node. cbn [nodes set_nodes set_root_node root_node set_counter
      set_reads counter reads set_kv_events set_evictable_leaves set_protected_size_ set_evictable_size_].
    rewrite !(alter_as_insert _ _ (counter c) _ (lookup_insert_eq _ _ _)), !insert_insert_eq.
    unfold slots. rewrite fmap_insert, fmap_empty. by rewrite insert_empty, map_to_list_singleton.
  - intros Hk Hd. destruct Habs as (φ&Hinv&_&HM).
    destruct (match_prefix_quiet monotonic (reset monotonic c) φ k) as (c'&φ'&r&m&He&Hq&Hre&Hlo); try done.
    exists c'. rewrite He. do 2 f_equal.
    assert (device_indices r = []) as Hdev.
    { rewrite <-(spec_match_reached monotonic c' φ' ∅ (namespace k) (key_units (reset monotonic c) k)
        (device_indices r) m (last_device_node r)).
      - unfold spec_match. by destruct (_ / _).
      - apply Hq.
      - intros. rewrite HM. symmetry. apply Hq.
      - done.
      - done. }
    assert (last_device_node r = root_node (reset monotonic c)) as Hlast.
    { pose proof (re_len _ _ _ _ _ _ _ _ _ Hre) as Hm. rewrite Hdev in Hm. simpl in Hm. subst m.
      destruct (re_in _ _ _ _ _ _ _ _ _ Hre) as (n&Hn&_).
      rewrite <-(quiet_root _ _ _ _ Hq).
      eapply (path_nil _ _ (in_ps _ _ (qu_inv _ _ _ _ Hq)) (in_tree _ _ (qu_inv _ _ _ _ Hq)));
        [done|by rewrite (re_path _ _ _ _ _ _ _ _ _ Hre)]. }
    revert He Hdev Hlast. unfold match_prefix.
    destruct (maybe_to_bigram_view k _ _) as [k' o]. destruct (_ || _); [by intros [= <- <-]|].
    destruct (_ =? 0); [by intros [= <- <-]|].
    destruct (match_prefix_helper _ _ _ _) as [[[c0 vs] ln]|]; [|done]. res_step.
    intros [= -> <-]. cbn. unfold empty_match_result. by intros -> ->.
Qed.

(** C1: a lookup on a cache that stores the prefix map [M] never raises, returns
    the slots of the longest stored page-aligned prefix of the key, and reports
    the node that spells exactly that prefix.  Node splits it may do on the way
    are invisible: the map, the KV slots in the tree, the size counters, every
    node's lock count and path, the allocator and the event queue are unchanged. *)
Theorem match_prefix_refines c M k :
  abs c M → key_for c k → disable c = false →
  let K := key_units c k in
  let hit := spec_match M (page_size c) (namespace k) K in
  ∃ c' r, match_prefix monotonic k c = Ok (c', r) ∧ abs c' M ∧ device_indices r = hit
    ∧ path_of (nodes c') (last_device_node r) = take (length hit) K
    ∧ cfg c' = cfg c ∧ evictable_size c' = evictable_size c ∧ protected_size c' = protected_size c
    ∧ slots (nodes c') ≡ₚ slots (nodes c) ∧ allocator c' = allocator c ∧ kv_events c' = kv_events c
    ∧ (∀ i n, nodes c !! i = Some n → path_of (nodes c') i = path_of (nodes c) i
         ∧ ∃ n', nodes c' !! i = Some n' ∧ lock_ref n' = lock_ref n).
Proof.
  intros (φ&Hinv&Hh&HM) Hk Hd K hit. pose proof (in_ps _ _ Hinv) as Hps.
  destruct (match_prefix_quiet monotonic c φ k Hinv Hk Hd) as (c'&φ'&r&m&He&Hq&Hre&Hlo).
  assert (device_indices r = hit) as Hdev.
  { unfold hit. rewrite <-(quiet_page_size _ _ _ _ Hq). symmetry.
    eapply (spec_match_reached monotonic); [apply Hq| |done..]. intros. rewrite HM. symmetry. apply Hq. }
  pose proof (qu_inv _ _ _ _ Hq) as [Hps' Hwf' _].
  exists c', r. split_and!; try done; try apply Hq.
  - by eapply abs_quiet.
  - destruct (re_in _ _ _ _ _ _ _ _ _ Hre) as (n&Hn&_).
    rewrite (path_of_eq _ _ Hps' _ _ φ' _ n Hwf' Hn), (re_path _ _ _ _ _ _ _ _ _ Hre).
    by rewrite <-Hdev, (re_len _ _ _ _ _ _ _ _ _ Hre).
  - intros i n Hi. destruct (qu_nodes _ _ _ _ Hq i n Hi) as (Hφ&n'&Hn'&Hl&_).
    rewrite (path_of_eq _ _ Hps' _ _ φ' _ n' Hwf' Hn'), (path_of_eq _ _ Hps _ _ φ _ n (in_tree _ _ Hinv) Hi).
    split; [done|]. by exists n'.
Qed.

Context (native_hash : RadixKey → option string → nat → list string).
Context (salt_digest : string → string).
(** The native hasher returns one readable digest per page. *)
Context (Hnative : ∀ k prior ps, 0 < ps → klen k mod ps = 0 →
  length (native_hash k prior ps) = klen k / ps ∧ Forall good_hash (native_hash k prior ps)).

(** C2: an insertion of [k] with slots [V] never raises, returns the length of
    the prefix that was stored already, and adds exactly the missing pages to the
    map; the slots of those pages and no others enter the tree, the evictable
    size grows by their number, and nobody's locks, the allocator and the
    protected size change.  The returned node spells the whole key. *)
Theorem insert_refines c M k V prio chunked :
  abs c M → key_for c k → disable c = false → klen (cache_key c k) ≤ length V →
  let K := key_units c k in
  let m := length (spec_match M (page_size c) (namespace k) K) in
  ∃ c' x, cache_insert monotonic native_hash salt_digest k (Some V) prio chunked c = Ok (c', m, Some x)
    ∧ abs c' (spec_insert M (page_size c) (namespace k) K (take (length K) V))
    ∧ path_of (nodes c') x = K ∧ m ≤ length K
    ∧ evictable_size c' = (evictable_size c + Z.of_nat (length K - m))%Z
    ∧ protected_size c' = protected_size c ∧ cfg c' = cfg c ∧ allocator c' = allocator c
    ∧ slots (nodes c') ≡ₚ pyslice V m (length K) ++ slots (nodes c)
    ∧ (∀ i n, nodes c !! i = Some n → ∃ n', nodes c' !! i = Some n' ∧ lock_ref n' = lock_ref n
         ∧ own (nodes c') n' = own (nodes c) n).
Proof.
  intros (φ&Hinv&Hh&HM) Hk Hd HV K m.
  destruct (cache_insert_spec monotonic native_hash salt_digest Hnative c φ M k (Some V) prio chunked)
    as (c'&x&φ'&He&Hi); [done..|].
  assert (stored_values c k (Some V) = take (length K) V) as Hsv.
  { unfold stored_values, K, key_units. by rewrite length_iter. }
  rewrite Hsv in Hi. destruct Hi as [Hinv' Hh' [n Hn] Hpath Hpg Hcfg Hal Hle Hev Hpr Hsl Hkeep].
  fold K m in Hle, Hev, Hsl. exists c', x. split_and!; try done.
  - by exists φ'.
  - destruct Hinv' as [Hps' Hwf' _]. by rewrite (path_of_eq _ _ Hps' _ _ φ' _ n Hwf' Hn).
  - by rewrite Hsl, <-pyslice_drop_take.
  - intros i ni Hi. destruct (Hkeep i ni Hi) as (_&n'&?&?&_&?). eauto.
Qed.

(** Round trip: after a key has been inserted, looking it up returns one slot
    per unit of its page-aligned part: the slots that were stored for the part
    the cache knew, the inserted ones for the rest. *)
Theorem insert_then_match c M k V prio chunked :
  abs c M → key_for c k → disable c = false → klen (cache_key c k) ≤ length V →
  let K := key_units c k in
  let old := spec_match M (page_size c) (namespace k) K in
  ∃ c1 m x c2 r, cache_insert monotonic native_hash salt_digest k (Some V) prio chunked c = Ok (c1, m, x)
    ∧ match_prefix monotonic k c1 = Ok (c2, r)
    ∧ device_indices r = old ++ pyslice V (length old) (length K)
    ∧ length (device_indices r) = klen (cache_key c k).
Proof.
  intros (φ&Hinv&Hh&HM) Hk Hd HV K old.
  destruct (cache_insert_spec monotonic native_hash salt_digest Hnative c φ M k (Some V) prio chunked)
    as (c1&x&φ1&He&Hi); [done..|].
  assert (stored_values c k (Some V) = take (length K) V) as Hsv.
  { unfold stored_values, K, key_units. by rewrite length_iter. }
  rewrite Hsv in Hi. pose proof Hi as [Hinv1 Hh1 _ _ Hpg Hcfg _ Hle _ _ _ _]. fold K in Hle, Hpg.
  pose proof Hcfg as [= Hd1 Hps1 He1 _ _ _].
  assert (key_units c1 k = K) as Hu1 by (unfold K, key_units, cache_key; by rewrite Hps1, He1).
  destruct (match_prefix_quiet monotonic c1 φ1 k) as (c2&φ2&r&m&Hm&Hq&Hre&Hlo); try done.
  { destruct Hk. split; [done|by rewrite He1]. }
  { congruence. }
  assert (length (take (length K) V) = length K) as Hl.
  { rewrite length_take. unfold K, key_units. rewrite length_iter. lia. }
  assert (device_indices r = old ++ pyslice V (length old) (length K)) as Hdev.
  { rewrite (pyslice_drop_take V (length old)) by done. unfold old.
    pose proof (insert_match_key monotonic c φ M k (take (length K) V) Hinv Hk Hd HM Hl) as Hmk.
    cbn zeta in Hmk. fold K in Hmk. rewrite <-Hmk.
    rewrite <-Hps1, <-(quiet_page_size _ _ _ _ Hq). symmetry. rewrite Hu1 in Hre, Hlo.
    eapply (spec_match_reached monotonic); [apply Hq| |done..]. intros.
    rewrite (qu_pages _ _ _ _ Hq), <-Hpg, (quiet_page_size _ _ _ _ Hq), Hps1. done. }
  eexists c1, _, _, c2, r. split_and!; [done..|].
  rewrite Hdev, length_app, length_pyslice. fold K in Hle. fold old in Hle.
  replace (klen (cache_key c k)) with (length K) by (unfold K, key_units; apply length_iter).
  rewrite length_take in Hl. lia.
Qed.

(** C3: eviction never raises and terminates.  It frees at least [num] slots or
    leaves nothing evictable, and stops at the first leaf that reaches the goal.
    Every freed slot leaves the tree and is handed to the allocator once, the
    stored map only shrinks, and the protected size does not change. *)
Theorem evict_frees c M num :
  abs c M → disable c = false →
  ∃ c' freed, evict native_hash salt_digest num c = Ok (c', length (concat freed))
    ∧ abs c' (contents c') ∧ contents c' ⊆ M
    ∧ (num ≤ length (concat freed) ∨ evictable_size c' = 0%Z)
    ∧ (freed = [] ∨ length (concat (removelast freed)) < num)
    ∧ allocator c' = foldl (λ a v, free_segment a v 0) (allocator c) freed
    ∧ slots (nodes c) ≡ₚ concat freed ++ slots (nodes c')
    ∧ evictable_size c' = (evictable_size c - Z.of_nat (length (concat freed)))%Z
    ∧ protected_size c' = protected_size c.
Proof.
  intros (φ&Hinv&Hh&HM) Hd.
  destruct (evict_spec native_hash salt_digest Hnative c φ num Hinv Hh Hd) as (c'&fs&He&Hea&Hdone&Hmin).
  pose proof Hea as [Hinv' Hh' Hcfg Hal Hev Hpr Hsl _ Hpg _ _]. pose proof Hcfg as [= _ Hps _ _ _ _].
  exists c', fs. split_and!; try done.
  - by eapply abs_contents.
  - apply map_subseteq_spec. intros [N Q] vs Hl. apply HM, Hpg. by apply (contents_spec c' φ).
  - destruct Hdone as [?|Hemp]; [by left|right]. by eapply no_leaves_evictable.
Qed.

(** C4: locks protect: whatever is evicted, every page on the path of a locked
    node stays stored with the same slots, and the node stays in place with its
    lock count. *)
Theorem evict_keeps_locked c M num x n Q vs :
  abs c M → disable c = false → nodes c !! x = Some n → x ≠ root_node c → (0 < lock_ref n)%Z →
  Q `prefix_of` path_of (nodes c) x → M !! (namespace (key n), Q) = Some vs →
  ∃ c' k n', evict native_hash salt_digest num c = Ok (c', k)
    ∧ contents c' !! (namespace (key n), Q) = Some vs
    ∧ nodes c' !! x = Some n' ∧ lock_ref n' = lock_ref n
    ∧ path_of (nodes c') x = path_of (nodes c) x.
Proof.
  intros (φ&Hinv&Hh&HM) Hd Hx Hxr Hl HQ Hvs. pose proof (in_ps _ _ Hinv) as Hps0.
  destruct (evict_spec native_hash salt_digest Hnative c φ num Hinv Hh Hd) as (c'&fs&He&Hea&_&_).
  pose proof Hea as [Hinv' Hh' Hcfg _ _ _ _ Hkeep _ _ _]. pose proof Hcfg as [= _ Hps _ _ _ _].
  pose proof (in_ps _ _ Hinv') as Hps1.
  rewrite (path_of_eq _ _ Hps0 _ _ φ _ n (in_tree _ _ Hinv) Hx) in HQ |- *. apply HM in Hvs.
  destruct (Hkeep x n Hx Hl) as (n'&Hx'&Hl'&_). exists c', (length (concat fs)), n'. split_and!; try done.
  - apply (contents_spec c' φ); [done|].
    destruct (locked_page c φ x n _ Q vs Hinv Hx Hxr Hl eq_refl HQ Hvs)
      as (i&m&p&v&j&Hi&Hp&Hns&Hv&Hj&->&->&Hlm).
    destruct (Hkeep i m Hi Hlm) as (m'&Hi'&_&Hk&Hv'&Hp'&_).
    exists i, m', p, v, j. rewrite Hps, Hk, Hv', Hp'. done.
  - by rewrite (path_of_eq _ _ Hps1 _ _ φ _ n' (in_tree _ _ Hinv') Hx').
Qed.


(** Publishing a stored node never raises; it only fills in missing hash
    values, and appends to the event queue one store operation per page of the
    node, in order, each page linked to the page before it and the first one to
    the block its parent published last. *)
Theorem store_publishes_chain c M i n :
  abs c M → nodes c !! i = Some n → i ≠ root_node c → enabled (kv_events c) = true →
  ∃ ns' r' n' hz parent_hash,
    record_store native_hash salt_digest (nodes c) i None (kv_events c) = Ok (ns', r')
    ∧ same_core (nodes c) ns' ∧ ns' !! i = Some n' ∧ length hz = klen (key n) / page_size c
    ∧ parent_block_hash_of ns' n' = Ok parent_hash
    ∧ queue_ops (queue r') = queue_ops (queue (kv_events c))
        ++ page_ops (key n) GPU (page_size c) 0 parent_hash hz.
Proof.
  intros (φ&Hinv&[[Hrp Hrw] Hhw]&_) Hi Hne Hen. pose proof (in_ps _ _ Hinv) as Hps.
  destruct (record_store_ok native_hash salt_digest Hnative (page_size c) Hps (nodes c) (root_node c)
    (depth (nodes c) φ) i n (kv_events c)) as (ns'&r'&He&Hs&_&_&_&_&Hon); try done.
  { eapply chain_of_wf; [done|apply Hinv|]. apply Hhw. }
  destruct (Hon Hen) as (_&n'&hs&hz&ph&Hi'&[Hl _]&_&Hz&Hph&Hq).
  exists ns', r', n', hz, ph. split_and!; try done.
  by rewrite <-(Forall2_length _ _ _ Hz), Hl.
Qed.
End Correct.
