(* ===== verification/BatchAlloc.v ===== *)
(** * Memory for a batch

    [src/python/sglang/srt/mem_cache/allocation.py] on the radix cache: before a
    prefill or a decode step the scheduler evicts what is missing from the tree,
    takes rows of the request pool and KV slots from the allocator, and writes the
    slots into the rows.  [evict_from_tree_cache] is in mem_cache/common.py, the
    kernel that fills the rows in kernels/ops/memory/common.py.

    The cache is the plain [RadixCache]: no sliding window ([maybe_evict_swa] does
    nothing), no Mamba state, and no allocator with extra pools. *)

From stdpp Require Import base tactics numbers list gmap strings.
From Stdlib Require Import ZArith Lia ZifyNat.
From S2P Require Import Prelude RadixKey TreeNode RadixCache Allocator AllocKernel AllocExtend PoolAlloc.
From S2P Require Import Requests ReqPool.

(** ** Requests of a batch *)

Record ReqKvInfo := mkKv { kv_allocated_len : nat; swa_evicted_seqlen : nat }.

Record BatchReq := mkBatchReq {
  core : Req.Req;
  kv : option ReqKvInfo;
  dllm_incomplete_ids : list Z;
  reasoning_tokens : nat;
  skip_radix_cache_insert : bool;
  has_input_embeds : bool;
  max_new_tokens : Z;
}.

Definition set_core (k : Req.Req) (r : BatchReq) : BatchReq :=
  mkBatchReq k (kv r) (dllm_incomplete_ids r) (reasoning_tokens r) (skip_radix_cache_insert r) (has_input_embeds r)
    (max_new_tokens r).
Definition set_kv (k : option ReqKvInfo) (r : BatchReq) : BatchReq :=
  mkBatchReq (core r) k (dllm_incomplete_ids r) (reasoning_tokens r) (skip_radix_cache_insert r) (has_input_embeds r)
    (max_new_tokens r).

Record ScheduleBatch := mkBatch {
  reqs : list BatchReq;
  prefix_lens : list nat;
  extend_lens : list nat;
  seq_lens : list nat;
  extend_num_tokens : nat;
  is_dllm : bool;
  req_pool_indices : list nat;
  encoder_lens : option (list nat);
}.

Definition set_reqs (l : list BatchReq) (b : ScheduleBatch) : ScheduleBatch :=
  mkBatch l (prefix_lens b) (extend_lens b) (seq_lens b) (extend_num_tokens b) (is_dllm b)
    (req_pool_indices b) (encoder_lens b).

(** The lengths [prepare_for_extend] gives the allocation. *)
Definition prepare_extend_lens (b : ScheduleBatch) : ScheduleBatch :=
  let input_ids := (λ r, drop (length (Req.prefix_indices (core r))) (Req.get_fill_ids (core r))) <$> reqs b in
  let extend_num_tokens := sum_list (length <$> input_ids) in
  let seq_lens := (λ r, (Req.extend_range (core r)).2) <$> reqs b in
  let prefix_lens := (λ r, length (Req.prefix_indices (core r))) <$> reqs b in
  let extend_lens := (λ r, (Req.extend_range (core r)).2 - (Req.extend_range (core r)).1) <$> reqs b in
  mkBatch (reqs b) prefix_lens extend_lens seq_lens extend_num_tokens (is_dllm b) (req_pool_indices b) (encoder_lens b).

Section Alloc.
Context {A : Type} `{PoolAllocator A} {X : Type} `{!AuxCache X}.
Context (native_hash : RadixKey → option string → nat → list string).
Context (salt_digest : string → string).
Implicit Types (c : RadixCache A) (p : ReqToTokenPool X) (b : ScheduleBatch).

(** Evict only the shortfall. *)
Definition evict_from_tree_cache (num_tokens : nat) c : res (RadixCache A) :=
  let available_size := pool_available (allocator c) in
  if available_size <? num_tokens then
    let! (c, _) := evict native_hash salt_digest (num_tokens - available_size) c in Ok c
  else Ok c.

(** The allocation failed: out of memory. *)
Definition slots_or_raise c (r : option (list Z) * A) : res (RadixCache A * list Z) :=
  let '(out, a) := r in
  match out with
  | None => Raise RuntimeError
  | Some out_cache_loc => Ok (set_allocator a c, out_cache_loc)
  end.

Definition alloc_token_slots (num_tokens : nat) c : res (RadixCache A * list Z) :=
  let! c := evict_from_tree_cache num_tokens c in
  slots_or_raise c (pool_alloc num_tokens (allocator c)).

Definition alloc_paged_token_slots_extend (prefix_lens seq_lens : list nat) (last_loc : list Z)
    (extend_num_tokens : nat) c : res (RadixCache A * list Z) :=
  let num_tokens := extend_num_tokens + length seq_lens * pool_page_size (allocator c) in
  let! c := evict_from_tree_cache num_tokens c in
  let! r := pool_alloc_extend prefix_lens seq_lens last_loc extend_num_tokens (allocator c) in
  slots_or_raise c r.

Definition alloc_paged_token_slots_decode (seq_lens : list nat) (last_loc : list Z) c
    : res (RadixCache A * list Z) :=
  let num_tokens := length seq_lens * pool_page_size (allocator c) in
  let! c := evict_from_tree_cache num_tokens c in
  let! r := pool_alloc_decode seq_lens last_loc (allocator c) in
  slots_or_raise c r.

Definition alloc_req_slots (rs : list Req.Req) p : res (list nat * list Req.Req * ReqToTokenPool X) :=
  let! (o, rs, p) := ReqPool.alloc rs p in
  match o with
  | None => Raise RuntimeError
  | Some req_pool_indices => Ok (req_pool_indices, rs, p)
  end.

(** ** Writing the rows *)

(** The loop that runs when the attention backend does not support Triton. *)
Fixpoint write_rows (out_cache_loc : list Z) (pt : nat) (indices pre_lens seq_lens ext_lens : list nat)
    (prefix_tensors : list (list Z)) p : res (ReqToTokenPool X) :=
  match indices, pre_lens, seq_lens, ext_lens, prefix_tensors with
  | req_idx :: indices, prefix_len :: pre_lens, seq_len :: seq_lens, extend_len :: ext_lens, t :: prefix_tensors =>
      let! p := ReqPool.write req_idx 0 prefix_len t p in
      let! p := ReqPool.write req_idx prefix_len seq_len (pyslice out_cache_loc pt (pt + extend_len)) p in
      write_rows out_cache_loc (pt + extend_len) indices pre_lens seq_lens ext_lens prefix_tensors p
  | [], _, _, _, _ => Ok p
  | _, _, _, _, _ => Raise IndexError
  end.

Definition BLOCK_WRITE : nat := 512.

(** The offsets of a loop over blocks of [BLOCK_WRITE] lanes, masked at [n]. *)
Definition block_offsets (n : nat) : list nat :=
  filter (λ o, o < n) (seq 0 ((n + BLOCK_WRITE - 1) / BLOCK_WRITE) ≫= λ i, (λ o, i * BLOCK_WRITE + o) <$> seq 0 BLOCK_WRITE).

(** One program of [write_req_to_token_pool_triton]: its stores into the table,
    which is one block of memory with rows [stride] apart. *)
Definition write_req_to_token_pool_triton (stride : nat) (indices pre_lens seq_lens ext_lens : list nat)
    (prefix_tensors : list (list Z)) (out_cache_loc : list Z) (pid : nat) : list (nat * Z) :=
  let req_pool_index := indices !!! pid in
  let pre_len := pre_lens !!! pid in
  let seq_len := seq_lens !!! pid in
  let prefix_tensor := prefix_tensors !!! pid in
  let cumsum_start := sum_list (take pid ext_lens) in
  ((λ o, (req_pool_index * stride + o, prefix_tensor !!! o)) <$> block_offsets pre_len)
  ++ ((λ o, (req_pool_index * stride + o + pre_len, out_cache_loc !!! (cumsum_start + o)))
        <$> block_offsets (seq_len - pre_len)).

(** The rows of a table stored as one block of memory. *)
Definition rows_of_memory (stride n : nat) (mem : list Z) : list (list Z) :=
  (λ i, take stride (drop (i * stride) mem)) <$> seq 0 n.

Definition write_cache_indices (triton : bool) (out_cache_loc : list Z) (indices pre_lens seq_lens ext_lens : list nat)
    (prefix_tensors : list (list Z)) p : res (ReqToTokenPool X) :=
  if triton then
    let mem := launch (write_req_to_token_pool_triton (max_context_len p) indices pre_lens seq_lens ext_lens
                         prefix_tensors out_cache_loc) (length indices) (concat (req_to_token p)) in
    Ok (mkPool (ReqPool.size p) (max_context_len p) (rows_of_memory (max_context_len p) (length (req_to_token p)) mem)
          (free_slots p) (req_generation p) (aux_cache p))
  else write_rows out_cache_loc 0 indices pre_lens seq_lens ext_lens prefix_tensors p.

(** ** Prefill *)

Definition last_locs (prefix_tensors : list (list Z)) : list Z :=
  (λ t, default (-1)%Z (last t)) <$> prefix_tensors.

(** The request holds KV of an unfinished diffusion block. *)
Definition reuses_kv (r : BatchReq) : bool :=
  bool_decide (Req.req_pool_idx (core r) ≠ None) && (0 <? length (dllm_incomplete_ids r)).

Fixpoint check_reuse (rs : list BatchReq) (reuse : list bool) (pre_lens ext_lens : list nat) : res unit :=
  match rs, reuse, pre_lens, ext_lens with
  | r :: rs, u :: reuse, prefix_len :: pre_lens, extend_len :: ext_lens =>
      if (u : bool) then
        if negb (extend_len =? length (dllm_incomplete_ids r)) then Raise RuntimeError
        else if match kv r with None => true | Some k => kv_allocated_len k <? prefix_len + extend_len end
        then Raise RuntimeError
        else check_reuse rs reuse pre_lens ext_lens
      else check_reuse rs reuse pre_lens ext_lens
  | [], _, _, _ => Ok tt
  | _, _, _, _ => Raise IndexError
  end.

Fixpoint reuse_parts (table : list (list Z)) (fresh_slots : option (list Z)) (fresh_ptr : nat) (reuse : list bool)
    (indices pre_lens ext_lens : list nat) : res (list Z) :=
  match reuse, indices, pre_lens, ext_lens with
  | u :: reuse, req_idx :: indices, prefix_len :: pre_lens, extend_len :: ext_lens =>
      if (u : bool) then
        let! row := res_of_option IndexError (table !! req_idx) in
        let! rest := reuse_parts table fresh_slots fresh_ptr reuse indices pre_lens ext_lens in
        Ok (pyslice row prefix_len (prefix_len + extend_len) ++ rest)
      else
        let! fresh := res_of_option TypeError fresh_slots in
        let! rest := reuse_parts table fresh_slots (fresh_ptr + extend_len) reuse indices pre_lens ext_lens in
        Ok (pyslice fresh fresh_ptr (fresh_ptr + extend_len) ++ rest)
  | [], _, _, _ => Ok []
  | _, _, _, _ => Raise IndexError
  end.

(** Requests that resume an unfinished diffusion block keep its slots. *)
Definition alloc_extend_loc_with_kv_reuse (alloc_page_size : nat) (reuse : list bool) (indices : list nat)
    b c p : res (RadixCache A * list Z) :=
  check_reuse (reqs b) reuse (prefix_lens b) (extend_lens b) ;;!
  let alloc_extend_lens := zip_with (λ (u : bool) e, if u then 0 else e) reuse (extend_lens b) in
  let alloc_extend_num_tokens := sum_list alloc_extend_lens in
  let! (c, fresh_slots) :=
    if 0 <? alloc_extend_num_tokens then
      let! (c, fresh) := if alloc_page_size =? 1 then alloc_token_slots alloc_extend_num_tokens c
      else
        let alloc_seq_lens := zip_with (λ (u : bool) '(pre, s), if u then pre else s) reuse
                                (zip (prefix_lens b) (seq_lens b)) in
        alloc_paged_token_slots_extend (prefix_lens b) alloc_seq_lens
          (last_locs ((λ r, Req.prefix_indices (core r)) <$> reqs b)) alloc_extend_num_tokens c in
      Ok (c, Some fresh)
    else Ok (c, None) in
  let! out := reuse_parts (req_to_token p) fresh_slots 0 reuse indices (prefix_lens b) (extend_lens b) in
  Ok (c, out).

Definition set_allocated (seq_len : nat) (r : BatchReq) : BatchReq :=
  set_kv (Some match kv r with
               | None => mkKv seq_len 0
               | Some k => mkKv seq_len (swa_evicted_seqlen k)
               end) r.

(** With decode context parallelism the allocator's pages are larger than the cache's. *)
Definition alloc_page_size_of (dcp_enabled : bool) c : nat :=
  if dcp_enabled then pool_page_size (allocator c) else page_size c.

(** The inner result is the one of the [try] block: when the auxiliary cache raises,
    the slots are given back before the exception is raised again. *)
Definition alloc_for_extend (triton dcp_enabled : bool) b c p
    : res (RadixCache A * ReqToTokenPool X * ScheduleBatch * res (list Z * list nat)) :=
  let prefix_tensors := (λ r, Req.prefix_indices (core r)) <$> reqs b in
  let reuse_kv := if is_dllm b then reuses_kv <$> reqs b else [] in
  let! (indices, cores, p) := alloc_req_slots (core <$> reqs b) p in
  let b := set_reqs (zip_with set_core cores (reqs b)) b in
  let alloc_page_size := alloc_page_size_of dcp_enabled c in
  let! (c, out_cache_loc) :=
    if existsb id reuse_kv then alloc_extend_loc_with_kv_reuse alloc_page_size reuse_kv indices b c p
    else if alloc_page_size =? 1 then alloc_token_slots (extend_num_tokens b) c
    else alloc_paged_token_slots_extend (prefix_lens b) (seq_lens b) (last_locs prefix_tensors)
           (extend_num_tokens b) c in
  let! p := write_cache_indices triton out_cache_loc indices (prefix_lens b) (seq_lens b) (extend_lens b)
              prefix_tensors p in
  match alloc_aux_to_lengths indices (seq_lens b) p with
  | Raise e => Ok (set_allocator (pool_free out_cache_loc (allocator c)) c, p, b, Raise e)
  | Ok p =>
      let b := set_reqs (imap (λ i r, match seq_lens b !! i with Some s => set_allocated s r | None => r end) (reqs b)) b in
      Ok (c, p, b, Ok (out_cache_loc, indices))
  end.

(** ** Decode *)

(** [req_to_token[req_pool_indices, seq_lens - 1]]; position -1 is the last column. *)
Fixpoint gather_last (table : list (list Z)) (indices lens : list nat) : res (list Z) :=
  match indices, lens with
  | i :: indices, n :: lens =>
      let! row := res_of_option IndexError (table !! i) in
      let! v := res_of_option IndexError (row !! (if n =? 0 then length row - 1 else n - 1)) in
      let! vs := gather_last table indices lens in
      Ok (v :: vs)
  | [], [] => Ok []
  | _, _ => Raise IndexError
  end.

Fixpoint grow_allocated (n : nat) (rs : list BatchReq) : res (list BatchReq) :=
  match rs with
  | [] => Ok []
  | r :: rs =>
      let! k := res_of_option AttributeError (kv r) in
      let! rs := grow_allocated n rs in
      Ok (set_kv (Some (mkKv (kv_allocated_len k + n) (swa_evicted_seqlen k))) r :: rs)
  end.

Definition alloc_for_decode (dcp_enabled : bool) (token_per_req : nat) b c p
    : res (RadixCache A * ReqToTokenPool X * ScheduleBatch * res (list Z)) :=
  let bs := length (seq_lens b) in
  let next_lens := (λ s, s + token_per_req) <$> seq_lens b in
  let! (c, out_cache_loc) :=
    if alloc_page_size_of dcp_enabled c =? 1 then alloc_token_slots (bs * token_per_req) c
    else
      let! last_loc := gather_last (req_to_token p) (req_pool_indices b) (seq_lens b) in
      alloc_paged_token_slots_decode next_lens last_loc c in
  let locs := match encoder_lens b with
              | Some e => zip_with Nat.add e (seq_lens b)
              | None => seq_lens b
              end in
  let! p := write_at (req_pool_indices b) locs out_cache_loc p in
  match alloc_aux_to_lengths (req_pool_indices b) next_lens p with
  | Raise e => Ok (set_allocator (pool_free out_cache_loc (allocator c)) c, p, b, Raise e)
  | Ok p =>
      let! rs := grow_allocated token_per_req (reqs b) in
      Ok (c, p, set_reqs rs b, Ok out_cache_loc)
  end.
End Alloc.
