(* ===== verification/BatchWrite.v ===== *)
(** * Filling the rows of a batch

    The loop of [write_cache_indices] and the Triton kernel
    [write_req_to_token_pool_triton] write the same table: the row of each request
    starts with its prefix and goes on with its part of the new slots. *)

From stdpp Require Import base tactics numbers list gmap strings.
From Stdlib Require Import ZArith Lia ZifyNat.
From S2P Require Import Prelude RadixKey TreeNode RadixCache Allocator AllocKernel AllocExtend PoolAlloc.
From S2P Require Import Requests ReqPool BatchAlloc.

Global Opaque BLOCK_WRITE.

(** Overwrite the beginning of a row. *)
Definition fill_row (part row : list Z) : list Z := part ++ drop (length part) row.
Definition fill_rows (table : list (list Z)) (writes : list (nat * list Z)) : list (list Z) :=
  foldl (λ t '(i, part), alter (fill_row part) i t) table writes.

(** The parts of [out] that [lens] cuts off from position [pt] on. *)
Fixpoint cut_parts (out : list Z) (pt : nat) (lens : list nat) : list (list Z) :=
  match lens with
  | [] => []
  | n :: lens => pyslice out pt (pt + n) :: cut_parts out (pt + n) lens
  end.

(** What the rows of the batch start with. *)
Definition row_starts (indices : list nat) (prefix_tensors : list (list Z)) (out : list Z) (pt : nat)
    (ext_lens : list nat) : list (nat * list Z) :=
  zip indices (zip_with app prefix_tensors (cut_parts out pt ext_lens)).

(** The lengths of a batch that fits in the table. *)
Record batch_fits (n stride : nat) (out : list Z) (pt : nat) (indices pre_lens seq_lens ext_lens : list nat)
    (prefix_tensors : list (list Z)) : Prop := {
  bf_rows : Forall (λ i, i < n) indices;
  bf_pre : pre_lens = length <$> prefix_tensors;
  bf_seq : seq_lens = zip_with Nat.add pre_lens ext_lens;
  bf_len : length pre_lens = length indices;
  bf_ext : length ext_lens = length indices;
  bf_max : Forall (λ s, s ≤ stride) seq_lens;
  bf_out : pt + sum_list ext_lens ≤ length out;
}.

Lemma batch_fits_cons n stride out pt i indices pl pres sl seqs el exts t ts :
  batch_fits n stride out pt (i :: indices) (pl :: pres) (sl :: seqs) (el :: exts) (t :: ts) →
  i < n ∧ pl = length t ∧ sl = pl + el ∧ sl ≤ stride ∧ pt + el ≤ length out
  ∧ batch_fits n stride out (pt + el) indices pres seqs exts ts.
Proof.
  intros [H1 [= H2 H2'] [= H3 H3'] [= H4] [= H5] H6 H7]. apply Forall_cons in H1 as [? ?], H6 as [? ?].
  cbn [sum_list foldr] in H7. change (foldr Nat.add 0 exts) with (sum_list exts) in H7.
  split_and!; try done; try lia. split; try done; lia.
Qed.

Lemma batch_fits_head n stride out pt i indices pres seqs exts ts :
  batch_fits n stride out pt (i :: indices) pres seqs exts ts →
  ∃ pl pres' sl seqs' el exts' t ts', pres = pl :: pres' ∧ seqs = sl :: seqs' ∧ exts = el :: exts' ∧ ts = t :: ts'.
Proof.
  intros [_ H2 H3 H4 H5 _ _]. destruct pres as [|pl pres]; [done|]. destruct exts as [|el exts]; [done|].
  destruct ts as [|t ts]; [done|]. destruct seqs as [|sl seqs]; [done|]. by eexists _, _, _, _, _, _, _, _.
Qed.

(** ** The rows after the writes *)

Lemma length_fill_rows (t : list (list Z)) ws : length (fill_rows t ws) = length t.
Proof.
  revert t. induction ws as [|[i x] ws IH]; intros t; [done|]. unfold fill_rows. cbn [foldl]. etrans; [apply IH|].
  apply length_alter.
Qed.

Lemma fill_rows_other (t : list (list Z)) ws j : (∀ x, (j, x) ∉ ws) → fill_rows t ws !! j = t !! j.
Proof.
  revert t. induction ws as [|[i x] ws IH]; intros t Hj; [done|]. unfold fill_rows. cbn [foldl].
  etrans; [apply IH; intros y Hy; by apply (Hj y); right|]. apply list_lookup_alter_ne. intros ->.
  apply (Hj x). left.
Qed.

Lemma fill_rows_lookup (t : list (list Z)) indices parts i j part : NoDup indices → indices !! i = Some j →
  parts !! i = Some part → fill_rows t (zip indices parts) !! j = fill_row part <$> t !! j.
Proof.
  intros Hnd. revert t i parts. induction Hnd as [|k indices Hk Hnd IH]; intros t i parts Hi Hp; [done|].
  destruct parts as [|q parts]; [done|]. unfold fill_rows. cbn [zip zip_with foldl].
  destruct i as [|i]; cbn in Hi, Hp; simplify_eq.
  - etrans; [apply fill_rows_other; intros x Hx; apply Hk; by eapply elem_of_zip_l|]. apply list_lookup_alter_eq.
  - etrans; [by eapply IH|]. rewrite list_lookup_alter_ne; [done|]. intros ->.
    apply Hk. by eapply list_elem_of_lookup_2.
Qed.

Lemma length_cut_parts out pt lens : length (cut_parts out pt lens) = length lens.
Proof. revert pt. induction lens; intros pt; [done|]. simpl. by f_equal. Qed.

Lemma length_cut_part out pt lens i : pt + sum_list lens ≤ length out → i < length lens →
  length (cut_parts out pt lens !!! i) = lens !!! i.
Proof.
  revert pt i. induction lens as [|n lens IH]; intros pt i Hle Hi; [simpl in Hi; lia|].
  cbn [sum_list foldr] in Hle. change (foldr Nat.add 0 lens) with (sum_list lens) in Hle. destruct i as [|i]; cbn.
  - rewrite length_pyslice. lia.
  - cbn in Hi. apply IH; lia.
Qed.

Lemma filled_row n stride out indices pres seqs exts ts (t : list (list Z)) i j row :
  batch_fits n stride out 0 indices pres seqs exts ts → NoDup indices → indices !! i = Some j → t !! j = Some row →
  fill_rows t (row_starts indices ts out 0 exts) !! j
  = Some ((ts !!! i) ++ (cut_parts out 0 exts !!! i) ++ drop (seqs !!! i) row).
Proof.
  intros Hf Hnd Hi Hj. pose proof (lookup_lt_Some _ _ _ Hi) as Hlt. pose proof Hf as [_ -> -> H4 H5 _ H7].
  rewrite length_fmap in H4.
  destruct (lookup_lt_is_Some_2 ts i) as [u Hu]; [lia|]. destruct (lookup_lt_is_Some_2 exts i) as [e He]; [lia|].
  destruct (lookup_lt_is_Some_2 (cut_parts out 0 exts) i) as [v Hv]; [rewrite length_cut_parts; lia|].
  rewrite (list_lookup_total_correct _ _ _ Hu), (list_lookup_total_correct _ _ _ Hv).
  unfold row_starts. erewrite fill_rows_lookup; [|done..|by rewrite lookup_zip_with, Hu, Hv].
  rewrite Hj. simpl. f_equal. unfold fill_row. rewrite <-app_assoc. do 3 f_equal.
  rewrite (list_lookup_total_correct _ _ (length u + e)) by (by rewrite lookup_zip_with, list_lookup_fmap, Hu, He).
  pose proof (length_cut_part out 0 exts i H7 ltac:(lia)) as Hl.
  rewrite (list_lookup_total_correct _ _ _ Hv), (list_lookup_total_correct _ _ _ He) in Hl. rewrite length_app. lia.
Qed.

(** ** The loop *)

Section Loop.
Context {X : Type} `{!AuxCache X}.
Implicit Types p : ReqToTokenPool X.

Definition set_table (t : list (list Z)) p : ReqToTokenPool X :=
  mkPool (ReqPool.size p) (max_context_len p) t (free_slots p) (req_generation p) (aux_cache p).

Lemma alter_list_insert (t : list (list Z)) i row (f : list Z → list Z) : t !! i = Some row → alter f i t = <[i := f row]> t.
Proof.
  intros Hi. apply list_eq. intros j. destruct (decide (i = j)) as [->|Hne].
  - rewrite list_lookup_alter_eq, Hi, list_lookup_insert_eq by by eapply lookup_lt_Some. done.
  - by rewrite list_lookup_alter_ne, list_lookup_insert_ne.
Qed.

Lemma write_row_ok p i row pre part : req_to_token p !! i = Some row →
  length pre + length part ≤ length row →
  (let! p := ReqPool.write i 0 (length pre) pre p in
   ReqPool.write i (length pre) (length pre + length part) part p)
  = Ok (set_table (alter (fill_row (pre ++ part)) i (req_to_token p)) p).
Proof.
  intros Hi Hle. pose proof (lookup_lt_Some _ _ _ Hi) as Hlt. unfold ReqPool.write at 1. rewrite Hi. res_step.
  rewrite write_slice_ok by (rewrite length_pyslice; lia). res_step. simpl.
  unfold ReqPool.write. cbn [req_to_token]. rewrite list_lookup_insert_eq by done. res_step.
  rewrite write_slice_ok by (rewrite length_pyslice, length_app, length_drop; lia). res_step. unfold set_table. do 2 f_equal.
  rewrite list_insert_insert_eq, (alter_list_insert _ i row) by done. f_equal. unfold fill_row.
  rewrite take_app_length, drop_app_ge, drop_drop, length_app by lia. rewrite <-app_assoc. do 3 f_equal. lia.
Qed.

Lemma write_rows_fill stride out indices pres seqs exts ts pt p :
  Forall (λ row, length row = stride) (req_to_token p) →
  batch_fits (length (req_to_token p)) stride out pt indices pres seqs exts ts →
  write_rows out pt indices pres seqs exts ts p
  = Ok (set_table (fill_rows (req_to_token p) (row_starts indices ts out pt exts)) p).
Proof.
  revert pres seqs exts ts pt p. induction indices as [|i indices IH]; intros pres seqs exts ts pt p Hst Hf.
  { simpl. by destruct p. }
  destruct (batch_fits_head _ _ _ _ _ _ _ _ _ _ Hf) as (pl&pres'&sl&seqs'&el&exts'&t&ts'&->&->&->&->).
  apply batch_fits_cons in Hf as (Hi&->&->&Hle&Hout&Hf). cbn [write_rows].
  destruct (lookup_lt_is_Some_2 (req_to_token p) i) as [row Hrow]; [done|].
  pose proof (proj1 (Forall_forall _ _) Hst row ltac:(by eapply list_elem_of_lookup_2)) as Hlen. simpl in Hlen.
  assert (length (pyslice out pt (pt + el)) = el) as Hpl by (rewrite length_pyslice; lia).
  pose proof (write_row_ok p i row t (pyslice out pt (pt + el)) Hrow) as Hw. rewrite Hpl in Hw.
  specialize (Hw ltac:(lia)). destruct (ReqPool.write i 0 (length t) t p) as [p1|e]; cbn [res_bind] in Hw |- *; [|done].
  rewrite Hw. res_step. rewrite IH.
  - unfold row_starts. cbn [cut_parts zip_with zip]. done.
  - simpl. apply Forall_forall. intros r Hr. apply list_elem_of_lookup in Hr as [j Hj].
    destruct (decide (i = j)) as [->|Hne].
    + rewrite list_lookup_alter_eq, Hrow in Hj. injection Hj as <-. unfold fill_row.
      rewrite !length_app, length_drop. lia.
    + rewrite list_lookup_alter_ne in Hj by done. by eapply (proj1 (Forall_lookup _ _) Hst).
  - simpl. by rewrite length_alter.
Qed.
End Loop.

(** ** The kernel *)

Lemma lookups_seq (l : list Z) : (λ o, l !!! o) <$> seq 0 (length l) = l.
Proof.
  apply list_eq. intros j. rewrite list_lookup_fmap. destruct (decide (j < length l)) as [Hj|Hj].
  - rewrite lookup_seq_lt by done. simpl. symmetry. by apply list_lookup_lookup_total_lt.
  - rewrite lookup_seq_ge by lia. symmetry. apply lookup_ge_None. lia.
Qed.

Lemma block_offsets_seq n : block_offsets n = seq 0 n.
Proof.
  unfold block_offsets. rewrite blocks_seq, filter_lt_seq. f_equal.
  assert (0 < BLOCK_WRITE) by (vm_compute; lia).
  pose proof (npages_bounds BLOCK_WRITE ltac:(lia) n) as Hb. unfold npages in Hb. lia.
Qed.

Section Kernel.
Context (stride : nat).

Lemma length_concat_rows (t : list (list Z)) : Forall (λ row, length row = stride) t → length (concat t) = length t * stride.
Proof. induction 1 as [|row t Hr _ IH]; [done|]. cbn [concat length]. rewrite length_app. lia. Qed.

Lemma concat_alter (t : list (list Z)) i part : Forall (λ row, length row = stride) t → i < length t →
  length part ≤ stride → assign (concat t) (i * stride) part = concat (alter (fill_row part) i t).
Proof.
  intros Ht. revert i. induction Ht as [|row t Hr Ht IH]; intros i Hi Hp; [simpl in Hi; lia|].
  destruct i as [|i]; cbn [alter list_alter concat].
  - unfold assign, fill_row. simpl. rewrite drop_app_le by lia. by rewrite app_assoc.
  - cbn [length] in Hi. rewrite <-IH by lia. unfold assign.
    replace (S i * stride) with (length row + i * stride) by lia.
    rewrite take_app_add, <-!app_assoc. do 3 f_equal. rewrite <-Nat.add_assoc. by rewrite drop_app_add.
Qed.

Lemma rows_of_memory_concat (t : list (list Z)) : Forall (λ row, length row = stride) t →
  rows_of_memory stride (length t) (concat t) = t.
Proof.
  intros Ht. unfold rows_of_memory. induction Ht as [|row t Hr Ht IH]; [done|].
  cbn [length seq fmap list_fmap concat]. f_equal.
  - rewrite Nat.mul_0_l, drop_0, take_app_le, take_ge by lia. done.
  - rewrite <-IH at 2. rewrite <-fmap_S_seq, <-list_fmap_compose. apply list_fmap_ext. intros ? i _. simpl.
    f_equal. replace (stride + i * stride) with (length row + i * stride) by lia. by rewrite drop_app_add.
Qed.

Lemma program_fills mem i pre out cum ext : i * stride + length pre + ext ≤ length mem → cum + ext ≤ length out →
  apply_stores mem (((λ o, (i * stride + o, pre !!! o)) <$> block_offsets (length pre))
    ++ ((λ o, (i * stride + o + length pre, out !!! (cum + o)))
          <$> block_offsets (length pre + ext - length pre)))
  = assign mem (i * stride) (pre ++ pyslice out cum (cum + ext)).
Proof.
  intros Hm Ho. rewrite !block_offsets_seq. replace (length pre + ext - length pre) with ext by lia.
  unfold apply_stores. rewrite foldl_app. fold (apply_stores mem ((λ o, (i * stride + o, pre !!! o)) <$> seq 0 (length pre))).
  rewrite apply_stores_seq by lia.
  rewrite lookups_seq.
  rewrite (list_fmap_ext (λ o, (i * stride + o + length pre, out !!! (cum + o)))
    (λ o, (i * stride + length pre + o, out !!! (cum + o)))) by (intros; f_equal; lia).
  fold (apply_stores (assign mem (i * stride) pre) ((λ o, (i * stride + length pre + o, out !!! (cum + o))) <$> seq 0 ext)).
  rewrite apply_stores_seq by (rewrite length_assign by lia; lia).
  assert ((λ o, out !!! (cum + o)) <$> seq 0 ext = pyslice out cum (cum + ext)) as ->.
  { apply list_eq. intros j. unfold pyslice. rewrite list_lookup_fmap. destruct (decide (j < ext)) as [Hj|Hj].
    - rewrite lookup_seq_lt, lookup_take_lt, lookup_drop by lia. simpl. symmetry. apply list_lookup_lookup_total_lt. lia.
    - rewrite lookup_seq_ge, lookup_take_ge by lia. done. }
  apply assign_app. lia.
Qed.

Lemma foldl_same {B C} (f g : B → C → B) (b : B) l : (∀ b x, f b x = g b x) → foldl f b l = foldl g b l.
Proof. intros Hfg. revert b. induction l as [|x l IH]; intros b; [done|]. cbn [foldl]. by rewrite Hfg, IH. Qed.

(** The kernel's program [pid] when the batch starts at position [k] of [out]. *)
Definition stores_from (k : nat) (indices pres seqs exts : list nat) (ts : list (list Z)) (out : list Z)
    (pid : nat) : list (nat * Z) :=
  ((λ o, ((indices !!! pid) * stride + o, (ts !!! pid) !!! o)) <$> block_offsets (pres !!! pid))
  ++ ((λ o, ((indices !!! pid) * stride + o + (pres !!! pid), out !!! (k + sum_list (take pid exts) + o)))
        <$> block_offsets ((seqs !!! pid) - (pres !!! pid))).

Lemma stores_from_O k i indices pl pres sl seqs el exts t ts out :
  stores_from k (i :: indices) (pl :: pres) (sl :: seqs) (el :: exts) (t :: ts) out 0
  = ((λ o, (i * stride + o, t !!! o)) <$> block_offsets pl)
    ++ ((λ o, (i * stride + o + pl, out !!! (k + o))) <$> block_offsets (sl - pl)).
Proof. unfold stores_from. cbn. by rewrite Nat.add_0_r. Qed.

Lemma stores_from_S k i indices pl pres sl seqs el exts t ts out pid :
  stores_from k (i :: indices) (pl :: pres) (sl :: seqs) (el :: exts) (t :: ts) out (S pid)
  = stores_from (k + el) indices pres seqs exts ts out pid.
Proof.
  unfold stores_from. cbn. f_equal. apply list_fmap_ext. intros ? o _. cbn. f_equal. f_equal.
  change (foldr Nat.add 0 (take pid exts)) with (sum_list (take pid exts)). lia.
Qed.

Lemma fill_rows_stride (t0 : list (list Z)) i t part : Forall (λ row, length row = stride) t0 →
  length t + length part ≤ stride → Forall (λ row, length row = stride) (alter (fill_row (t ++ part)) i t0).
Proof.
  intros Hst Hle. apply Forall_alter; [done|]. intros row _ Hr. unfold fill_row. simpl in *.
  rewrite !length_app, length_drop. lia.
Qed.

Lemma launch_fills t0 out indices pres seqs exts ts k :
  Forall (λ row, length row = stride) t0 →
  batch_fits (length t0) stride out k indices pres seqs exts ts →
  launch (stores_from k indices pres seqs exts ts out) (length indices) (concat t0)
  = concat (fill_rows t0 (row_starts indices ts out k exts))
  ∧ Forall (λ row, length row = stride) (fill_rows t0 (row_starts indices ts out k exts)).
Proof.
  revert t0 pres seqs exts ts k. induction indices as [|i indices IH]; intros t0 pres seqs exts ts k Hst Hf; [done|].
  destruct (batch_fits_head _ _ _ _ _ _ _ _ _ _ Hf) as (pl&pres'&sl&seqs'&el&exts'&t&ts'&->&->&->&->).
  apply batch_fits_cons in Hf as (Hi&->&->&Hle&Hout&Hf). unfold launch. cbn [length seq foldl].
  rewrite <-fmap_S_seq, foldl_fmap.
  assert (length (pyslice out k (k + el)) = el) as Hpl by (rewrite length_pyslice; lia).
  destruct (IH (alter (fill_row (t ++ pyslice out k (k + el))) i t0) pres' seqs' exts' ts' (k + el)) as [IH1 IH2];
    [apply fill_rows_stride; [done|lia]|by rewrite length_alter|].
  split; [|exact IH2]. etrans; [|exact IH1]. unfold launch. rewrite <-concat_alter by (rewrite ?length_app; lia || done).
  rewrite <-program_fills by (rewrite ?length_concat_rows by done; nia).
  rewrite stores_from_O. apply foldl_same. intros mem pid. by rewrite stores_from_S.
Qed.
End Kernel.

(** ** The two implementations *)

Section Write.
Context {X : Type} `{!AuxCache X}.
Implicit Types p : ReqToTokenPool X.

Lemma write_cache_indices_fill (triton : bool) out indices pres seqs exts ts p :
  Forall (λ row, length row = max_context_len p) (req_to_token p) →
  batch_fits (length (req_to_token p)) (max_context_len p) out 0 indices pres seqs exts ts →
  write_cache_indices triton out indices pres seqs exts ts p
  = Ok (set_table (fill_rows (req_to_token p) (row_starts indices ts out 0 exts)) p).
Proof.
  intros Hst Hf. destruct triton; [|by apply (write_rows_fill (max_context_len p))]. unfold write_cache_indices.
  destruct (launch_fills (max_context_len p) (req_to_token p) out indices pres seqs exts ts 0 Hst Hf) as [H1 H2].
  unfold set_table. do 2 f_equal. change (write_req_to_token_pool_triton _ _ _ _ _ _ _) with
    (stores_from (max_context_len p) 0 indices pres seqs exts ts out). rewrite H1.
  etrans; [|by apply (rows_of_memory_concat (max_context_len p))]. f_equal.
  symmetry. apply length_fill_rows.
Qed.

(** C25: the Triton kernel and the Python loop of [write_cache_indices] write the same
    table: every row of the batch starts with its prefix and its own part of the new
    slots and keeps its tail, and the other rows do not change. *)
Theorem write_cache_indices_triton out indices pres seqs exts ts p :
  Forall (λ row, length row = max_context_len p) (req_to_token p) →
  batch_fits (length (req_to_token p)) (max_context_len p) out 0 indices pres seqs exts ts →
  write_cache_indices true out indices pres seqs exts ts p = write_cache_indices false out indices pres seqs exts ts p
  ∧ ∃ p', write_cache_indices true out indices pres seqs exts ts p = Ok p'
      ∧ (NoDup indices → ∀ i j row, indices !! i = Some j → req_to_token p !! j = Some row →
          req_to_token p' !! j = Some ((ts !!! i) ++ (cut_parts out 0 exts !!! i) ++ drop (seqs !!! i) row))
      ∧ (∀ j, j ∉ indices → req_to_token p' !! j = req_to_token p !! j).
Proof.
  intros Hst Hf. rewrite !write_cache_indices_fill by done. split; [done|]. eexists. split; [done|]. simpl. split.
  - intros Hnd i j row Hi Hj. by eapply filled_row.
  - intros j Hj. apply fill_rows_other. intros x Hx. apply Hj. by eapply elem_of_zip_l.
Qed.
End Write.
