(* ===== verification/BatchMem.v ===== *)
(** * Eviction makes memory available

    The slots a radix tree stores are whole pages that the allocator does not hold
    ([tree_mem]).  Against the interface of the allocator: eviction moves exactly
    the evicted pages from the tree to the allocator, so that what is available and
    what is evictable together stay the same, and [evict_from_tree_cache] makes as
    much available as was asked for, or everything there is. *)

From stdpp Require Import base tactics numbers list gmap strings.
From Stdlib Require Import ZArith Lia ZifyNat.
From S2P Require Import Prelude RadixKey TreeNode KvEvents EventQueue RadixCache RadixInv RadixPages RadixAcct.
From S2P Require Import RadixEvents RadixMatch RadixSpec RadixInsert RadixLock RadixEvict RadixContents.
From S2P Require Import Allocator AllocFree AllocCorrect AllocKernel PoolAlloc Requests ReqPool BatchAlloc.

(** ** Whole pages *)

Definition whole (ps : nat) (row : list Z) : list Z := kv_row ps row 0 (length row * ps).

Section Whole.
Context (ps : nat) (Hps : 0 < ps).
Implicit Types row : list Z.

Lemma length_whole row : length (whole ps row) = length row * ps.
Proof. apply length_kv_row. Qed.

Lemma elem_of_whole row s : s ∈ whole ps row ↔ (s / Z.of_nat ps)%Z ∈ row.
Proof.
  unfold whole, kv_row. rewrite list_elem_of_fmap. split.
  - intros (q&->&Hq%elem_of_seq). rewrite row_slot_page by done.
    apply list_elem_of_lookup_total_2. apply Nat.Div0.div_lt_upper_bound. lia.
  - intros (i&Hi)%list_elem_of_lookup. pose proof (lookup_lt_Some _ _ _ Hi) as Hlt.
    exists (i * ps + Z.to_nat (s mod Z.of_nat ps)). pose proof (Z.mod_pos_bound s (Z.of_nat ps) ltac:(lia)).
    split; [|apply elem_of_seq; nia]. unfold row_slot.
    rewrite Nat.div_add_l, Nat.div_small, Nat.add_0_r by lia.
    rewrite Nat.add_comm, Nat.Div0.mod_add, Nat.mod_small by lia.
    rewrite (list_lookup_total_correct row i _ Hi), Z2Nat.id by lia.
    pose proof (Z.div_mod s (Z.of_nat ps)). lia.
Qed.

Lemma NoDup_whole row : NoDup (whole ps row) → NoDup row.
Proof.
  intros Hnd. apply NoDup_alt. intros i j p Hi Hj.
  pose proof (lookup_lt_Some _ _ _ Hi). pose proof (lookup_lt_Some _ _ _ Hj).
  assert (∀ k, row !! k = Some p → whole ps row !! (k * ps) = Some (p * Z.of_nat ps)%Z) as Hk.
  { intros k Hk. pose proof (lookup_lt_Some _ _ _ Hk). unfold whole, kv_row. rewrite list_lookup_fmap, lookup_seq_lt by nia.
    simpl. f_equal. unfold row_slot. rewrite Nat.div_mul, Nat.Div0.mod_mul by lia.
    rewrite (list_lookup_total_correct row k p Hk). lia. }
  pose proof (NoDup_lookup _ _ _ _ Hnd (Hk i Hi) (Hk j Hj)). nia.
Qed.

Lemma touched_whole row : touched ps row 0 (length row * ps) = row.
Proof.
  unfold touched, covered. destruct (Nat.eqb_spec (length row * ps) 0) as [Hz|Hnz].
  { symmetry. apply length_zero_iff_nil. nia. }
  rewrite Nat.Div0.div_0_l, pyslice_0. apply take_ge.
  assert (length row - 1 ≤ (0 + length row * ps - 1) / ps); [|lia]. apply Nat.div_le_lower_bound; nia.
Qed.
End Whole.

(** ** The memory of the tree *)

Section Mem.
Context {A : Type} `{PoolLaws A}.
Context (native_hash : RadixKey → option string → nat → list string).
Context (salt_digest : string → string).
Context (Hnative : ∀ k prior ps, 0 < ps → klen k mod ps = 0 →
  length (native_hash k prior ps) = klen k / ps ∧ Forall good_hash (native_hash k prior ps)).
Implicit Types (c : RadixCache A) (a : A).

Record tree_mem c : Prop := {
  tm_ok : pool_ok (allocator c);
  tm_ps : pool_page_size (allocator c) = page_size c;
  tm_whole : ∀ i n v, nodes c !! i = Some n → value n = Some v → ∃ row, v = whole (page_size c) row;
  tm_nodup : NoDup (slots (nodes c));
  tm_apart : ∀ s, s ∈ slots (nodes c) → (1 ≤ s / Z.of_nat (page_size c) ≤ Z.of_nat (pool_total (allocator c)))%Z
    ∧ (s / Z.of_nat (page_size c))%Z ∉ pool_pages (allocator c);
}.

Lemma free_values fs a ps : pool_ok a → pool_page_size a = ps →
  (∀ f, f ∈ fs → ∃ row, f = whole ps row) → NoDup (concat fs) →
  (∀ s, s ∈ concat fs → (1 ≤ s / Z.of_nat ps ≤ Z.of_nat (pool_total a))%Z ∧ (s / Z.of_nat ps)%Z ∉ pool_pages a) →
  let a' := foldl (λ a v, free_segment a v 0) a fs in
  pool_keeps a a' ∧ ∃ pgs, pool_pages a' ≡ₚ pgs ++ pool_pages a ∧ length pgs * ps = length (concat fs)
    ∧ ∀ s, (s / Z.of_nat ps)%Z ∈ pgs ↔ s ∈ concat fs.
Proof.
  revert a. induction fs as [|f fs IH]; intros a Hok Hp Hw Hnd Hap; cbn [foldl concat].
  { split; [by split_and!|]. exists []. split_and!; [done..|]. intros. by rewrite !elem_of_nil. }
  destruct (law_pool a Hok) as (Hps&[Hnda Hra]&_). rewrite Hp in Hps.
  destruct (Hw f) as (row&->); [set_solver|]. cbn [concat] in Hnd, Hap.
  apply NoDup_app in Hnd as (Hnd1&Hdis&Hnd2).
  destruct (law_free_segment a row 0 (length row * ps)) as [[Hok1 [Hp1 Ht1]] Hpg1]; rewrite ?Hp, ?touched_whole by done.
  { done. }
  { by apply (NoDup_whole ps Hps). }
  { done. }
  { split.
    - apply NoDup_app. split_and!; [by apply (NoDup_whole ps Hps)| |done]. intros q Hq.
      destruct (Hap (q * Z.of_nat ps)%Z) as [_ Hn]; [|by rewrite Z.div_mul in Hn by lia].
      apply elem_of_app. left. apply elem_of_whole; [done|]. by rewrite Z.div_mul by lia.
    - intros q [Hq|Hq]%elem_of_app; [|by apply Hra].
      destruct (Hap (q * Z.of_nat ps)%Z) as [Hr _]; [|by rewrite Z.div_mul in Hr by lia].
      apply elem_of_app. left. apply elem_of_whole; [done|]. by rewrite Z.div_mul by lia. }
  rewrite Hp in Hok1, Hp1, Ht1, Hpg1. fold (whole ps row) in *. rewrite touched_whole in Hpg1 by done.
  destruct (IH (free_segment a (whole ps row) 0)) as ((Hok2&Hp2&Ht2)&pgs&Hpg2&Hlen&Hin).
  { done. } { congruence. } { set_solver. } { done. }
  { intros s Hs. rewrite Ht1, Hpg1. destruct (Hap s) as [? ?]; [set_solver|]. split; [done|].
    intros [Hr|Hr]%elem_of_app; [|done]. apply (Hdis s); [by apply elem_of_whole|done]. }
  split; [split_and!; congruence|]. exists (row ++ pgs). split_and!.
  - rewrite Hpg2, Hpg1, !app_assoc. by rewrite (Permutation_app_comm pgs row).
  - rewrite !length_app, length_whole. lia.
  - intros s. rewrite !elem_of_app, Hin, elem_of_whole by done. done.
Qed.
Lemma slots_sublist c c' (l : list Z) s : slots (nodes c) ≡ₚ l ++ slots (nodes c') → s ∈ slots (nodes c') → s ∈ slots (nodes c).
Proof. intros -> ?. apply elem_of_app. by right. Qed.

(** What the two counters add up to. *)
Definition total_free c : Z := (Z.of_nat (pool_available (allocator c)) + evictable_size c)%Z.

(** The effect of reclaiming memory from the tree. *)
Record reclaimed c c' (φ : node_id → list lunit) (num : nat) : Prop := {
  rc_inv : inv c' φ;
  rc_hash : hash_inv c';
  rc_mem : tree_mem c';
  rc_cfg : cfg c' = cfg c;
  rc_pool : pool_keeps (allocator c) (allocator c');
  rc_total : total_free c' = total_free c;
  rc_protected : protected_size c' = protected_size c;
  rc_enough : num ≤ pool_available (allocator c') ∨ evictable_size c' = 0%Z;
  rc_more : ∃ evicted, pool_pages (allocator c') ≡ₚ evicted ++ pool_pages (allocator c)
    ∧ (∀ p, p ∈ evicted → ∃ s, s ∈ slots (nodes c) ∧ p = (s / Z.of_nat (page_size c))%Z)
    ∧ ∀ s, s ∈ slots (nodes c') ↔ s ∈ slots (nodes c) ∧ (s / Z.of_nat (page_size c))%Z ∉ evicted;
  rc_locked : ∀ j n, nodes c !! j = Some n → (0 < lock_ref n)%Z → ∃ n', nodes c' !! j = Some n'
    ∧ lock_ref n' = lock_ref n ∧ key n' = key n ∧ value n' = value n ∧ parent n' = parent n
    ∧ own (nodes c') n' = own (nodes c) n;
  rc_pages : ∀ N Q vs, page_at (page_size c') (nodes c') φ N Q vs → page_at (page_size c) (nodes c) φ N Q vs;
}.

Lemma reclaimed_refl c φ num : inv c φ → hash_inv c → tree_mem c → num ≤ pool_available (allocator c) →
  reclaimed c c φ num.
Proof.
  clear. intros Hi Hh Hm Hn. pose proof (tm_ok _ Hm). split; try done; [by left| |].
  - exists []. split_and!; [done|by intros ? ?%not_elem_of_nil|]. intros s. rewrite elem_of_nil. naive_solver.
  - intros j n Hj _. by exists n.
Qed.

Lemma evict_mem c φ num : inv c φ → hash_inv c → tree_mem c → disable c = false →
  ∃ c' k, evict native_hash salt_digest num c = Ok (c', k)
    ∧ reclaimed c c' φ (pool_available (allocator c) + num).
Proof.
  intros Hinv Hh Hm Hd. pose proof Hm as [Hok Hp Hw Hnd Hap].
  destruct (law_pool _ Hok) as (Hps&_&Hav). rewrite Hp in Hps, Hav.
  destruct (evict_spec native_hash salt_digest Hnative c φ num Hinv Hh Hd) as (c'&fs&He&Hea&Hdone&_).
  pose proof Hea as [Hinv' Hh' Hcfg Hal Hev Hpr Hsl Hkeep Hpg Hvals Hback]. pose proof Hcfg as [= _ Hpc _ _ _ _].
  rewrite Hsl in Hnd. pose proof Hnd as (Hnd1&Hdis&Hnd2)%NoDup_app.
  destruct (free_values fs (allocator c) (page_size c)) as (Hk&pgs&Hpgs&Hlen&Hin); try done.
  { intros f Hf. destruct (Hvals f Hf) as (j&n&Hj&Hv). by eapply Hw. }
  { intros s Hs. apply Hap. rewrite Hsl. set_solver. }
  rewrite <-Hal in Hk, Hpgs. pose proof Hk as (Hok'&Hp'&Ht').
  destruct (law_pool _ Hok') as (_&_&Hav'). rewrite Hp', Hp, Hpgs, length_app in Hav'.
  assert (tree_mem c') as Hm'.
  { split; [done|congruence| |done|].
    - intros i n v Hi Hv. destruct (Hback i n Hi) as (n0&Hn0&E). rewrite Hpc. eapply (Hw i n0); congruence.
    - intros s Hs. rewrite Hpc, Ht', Hpgs, elem_of_app, Hin. destruct (Hap s) as [? ?]; [rewrite Hsl; set_solver|].
      split; [done|]. intros [?|?]; [|done]. by eapply Hdis. }
  eexists c', _. split; [exact He|]. split; try done.
  - unfold total_free, evictable_size. rewrite Hav', Hav, Hev. lia.
  - destruct Hdone as [?|?]; [left; lia|right; by eapply no_leaves_evictable].
  - exists pgs. split_and!; [done| |].
    + intros p Hpp. exists (p * Z.of_nat (page_size c))%Z. rewrite Z.div_mul by lia. split; [|done].
      rewrite Hsl. apply elem_of_app. left. apply Hin. by rewrite Z.div_mul by lia.
    + intros s. rewrite Hsl, elem_of_app, Hin. specialize (Hdis s). naive_solver.
Qed.

Lemma evict_from_tree_cache_spec c φ num : inv c φ → hash_inv c → tree_mem c → disable c = false →
  ∃ c', evict_from_tree_cache native_hash salt_digest num c = Ok c' ∧ reclaimed c c' φ num.
Proof.
  intros Hinv Hh Hm Hd. unfold evict_from_tree_cache.
  destruct (Nat.ltb_spec (pool_available (allocator c)) num) as [Hlt|Hge]; [|by eauto using reclaimed_refl].
  destruct (evict_mem c φ (num - pool_available (allocator c)) Hinv Hh Hm Hd) as (c'&k&->&Hr). res_step.
  exists c'. split; [done|]. replace (pool_available (allocator c) + (num - pool_available (allocator c))) with num in Hr by lia.
  done.
Qed.
End Mem.
