(* ===== verification/BatchTake.v ===== *)
(** * Taking the slots of a batch

    What the allocation helpers of [allocation.py] do to the memory: they reclaim
    the shortfall from the tree and take whole pages from the allocator.  The
    pages come from the free list or from evicted nodes, no locked node is
    touched, and the allocation fails exactly when what is free and what is
    evictable together is too little. *)

From stdpp Require Import base tactics numbers list gmap strings.
From Stdlib Require Import ZArith Lia ZifyNat.
From S2P Require Import Prelude RadixKey TreeNode KvEvents EventQueue RadixCache RadixInv RadixPages RadixAcct.
From S2P Require Import RadixEvents RadixMatch RadixSpec RadixInsert RadixLock RadixEvict RadixContents.
From S2P Require Import Allocator AllocFree AllocCorrect AllocKernel AllocExtend PoolAlloc Requests ReqPool BatchAlloc BatchMem.

Lemma evictable_nonneg {A} (c : RadixCache A) φ : inv c φ → (0 ≤ evictable_size c)%Z.
Proof.
  intros Hi. unfold evictable_size. rewrite (ac_ev _ (in_acct _ _ Hi)). apply msum_nonneg.
  intros i n _. unfold ev_len. repeat case_match; lia.
Qed.

Lemma npages_1 n : npages 1 n = n.
Proof. unfold npages. rewrite Nat.div_1_r. lia. Qed.

Lemma news_1 pres seqs : get_num_new_pages_extend 1 seqs pres = sum_list (zip_with Nat.sub seqs pres).
Proof.
  unfold get_num_new_pages_extend. f_equal. apply zip_with_ext; [|done..]. intros. by rewrite !npages_1.
Qed.

Section Take.
Context {A : Type} `{PoolLaws A}.
Context (native_hash : RadixKey → option string → nat → list string).
Context (salt_digest : string → string).
Context (Hnative : ∀ k prior ps, 0 < ps → klen k mod ps = 0 →
  length (native_hash k prior ps) = klen k / ps ∧ Forall good_hash (native_hash k prior ps)).
Implicit Types (c : RadixCache A) (a : A).

(** The state of the cache that batch allocation starts from. *)
Record ready c (φ : node_id → list lunit) : Prop := {
  rd_inv : inv c φ;
  rd_hash : hash_inv c;
  rd_mem : tree_mem c;
  rd_on : disable c = false;
}.

(** The pages [fresh] left the memory of the cache. *)
Record taken c c' (φ : node_id → list lunit) (fresh : list Z) : Prop := {
  tk_ready : ready c' φ;
  tk_cfg : cfg c' = cfg c;
  tk_total : (total_free c' = total_free c - Z.of_nat (length fresh * page_size c))%Z;
  tk_nodup : NoDup fresh;
  tk_apart : ∀ q, q ∈ fresh → (q ∉ pool_pages (allocator c'))
    ∧ ∀ s, s ∈ slots (nodes c') → (s / Z.of_nat (page_size c))%Z ≠ q;
  tk_source : ∀ q, q ∈ fresh ++ pool_pages (allocator c') → q ∈ pool_pages (allocator c)
    ∨ ∃ s, s ∈ slots (nodes c) ∧ q = (s / Z.of_nat (page_size c))%Z;
  tk_locked : ∀ j n, nodes c !! j = Some n → (0 < lock_ref n)%Z → ∃ n', nodes c' !! j = Some n'
    ∧ lock_ref n' = lock_ref n ∧ key n' = key n ∧ value n' = value n ∧ parent n' = parent n;
  tk_pages : ∀ N Q vs, page_at (page_size c') (nodes c') φ N Q vs → page_at (page_size c) (nodes c) φ N Q vs;
  tk_protected : protected_size c' = protected_size c;
}.

Lemma take_reclaimed c c1 φ num a' fresh : ready c φ → reclaimed c c1 φ num →
  pool_keeps (allocator c1) a' → pool_pages (allocator c1) ≡ₚ fresh ++ pool_pages a' →
  taken c (set_allocator a' c1) φ fresh.
Proof.
  intros Hr Hc Hk Hp. pose proof Hc as [Hi Hh Hm Hcfg Hpool Htot Hprot _ (evd&Hev&Hevs&Hsl) Hlk Hpg].
  pose proof Hcfg as [= Hdis Hps _ _ _ _]. pose proof Hm as [Hok Hpsz Hw Hnd Hap].
  pose proof Hk as (Hok'&Hps'&Ht'). destruct (law_pool _ Hok) as (_&[Hndp _]&Hav).
  destruct (law_pool _ Hok') as (_&_&Hav'). rewrite Hp in Hndp. apply NoDup_app in Hndp as (Hnf&Hfa&_).
  split.
  - split; [by apply inv_set_allocator|done| |simpl; rewrite Hdis; apply Hr].
    split; simpl; [done|congruence|done..|]. intros s Hs. rewrite Ht'. destruct (Hap s Hs) as [? Hn]. split; [done|].
    intros Hin. apply Hn. rewrite Hp. set_solver.
  - done.
  - rewrite <-Htot. unfold total_free, evictable_size. simpl.
    rewrite Hav, Hav', Hps', Hp, length_app, Hpsz, Hps, Nat.mul_add_distr_r. lia.
  - done.
  - intros q Hq. split; [by apply Hfa|]. simpl. intros s Hs <-. destruct (Hap s Hs) as [_ Hn]. apply Hn.
    rewrite Hp, Hps. set_solver.
  - simpl. intros q Hq. rewrite <-Hp, Hev in Hq. apply elem_of_app in Hq as [Hq|Hq]; [right|by left].
    apply Hevs in Hq as (s&?&?). by exists s.
  - simpl. intros j n Hj Hl. destruct (Hlk j n Hj Hl) as (n'&?&?&?&?&?&_). by exists n'.
  - done.
  - done.
Qed.

(** The slots of one batch, taken with page size 1. *)
Lemma alloc_token_slots_spec c φ num : ready c φ → page_size c = 1 →
  if (total_free c <? Z.of_nat num)%Z
  then alloc_token_slots native_hash salt_digest num c = Raise RuntimeError
  else ∃ out c', alloc_token_slots native_hash salt_digest num c = Ok (c', out) ∧ length out = num ∧ taken c c' φ out.
Proof.
  intros Hr Hp1. pose proof Hr as [Hi Hh Hm Hd]. unfold alloc_token_slots.
  destruct (evict_from_tree_cache_spec native_hash salt_digest Hnative c φ num Hi Hh Hm Hd) as (c1&->&Hc). res_step.
  pose proof Hc as [Hi1 _ Hm1 Hcfg _ Htot _ Hen _ _ _]. pose proof Hcfg as [= _ Hps _ _ _ _].
  pose proof (law_alloc (allocator c1) num (tm_ok _ Hm1) ltac:(by rewrite (tm_ps _ Hm1), Hps)) as Hl.
  pose proof (evictable_nonneg c1 φ Hi1). unfold total_free in *.
  destruct (Z.ltb_spec (Z.of_nat (pool_available (allocator c)) + evictable_size c) (Z.of_nat num)),
    (Nat.ltb_spec (pool_available (allocator c1)) num); [|lia..|].
  - by destruct Hl as (a'&->&_).
  - destruct Hl as (out&a'&->&Hlen&Hk&Hpg). exists out, (set_allocator a' c1). split_and!; [done..|].
    by eapply take_reclaimed.
Qed.

(** Eviction leaves enough pages exactly when there were enough in all. *)
Lemma reclaimed_room c c1 φ num n : reclaimed c c1 φ num → n * page_size c ≤ num →
  (length (pool_pages (allocator c1)) <? n) = (total_free c <? Z.of_nat (n * page_size c))%Z.
Proof.
  intros [Hi1 _ Hm1 Hcfg _ Htot _ Hen _ _ _] Hn. pose proof Hcfg as [= _ Hps _ _ _ _].
  destruct (law_pool _ (tm_ok _ Hm1)) as (Hp0&_&Hav). rewrite (tm_ps _ Hm1), Hps in Hp0, Hav.
  pose proof (evictable_nonneg c1 φ Hi1). unfold total_free in *.
  destruct (Nat.ltb_spec (length (pool_pages (allocator c1))) n), (Z.ltb_spec (Z.of_nat (pool_available (allocator c)) + evictable_size c) (Z.of_nat (n * page_size c))); try done; exfalso; nia.
Qed.

(** The pages of a batch of rows that grow from [pres] to [seqs] tokens. *)
Definition grown (ps : nat) (rows : list (list Z)) (fresh : nat → list Z) (pres seqs : list nat) (i : nat) : list Z :=
  kv_row ps (rows !!! i ++ fresh i) (pres !!! i) (seqs !!! i - pres !!! i).
Definition fresh_sizes (ps : nat) (fresh : nat → list Z) (pres seqs : list nat) : Prop :=
  ∀ i, i < length pres → length (fresh i) = npages ps (seqs !!! i) - npages ps (pres !!! i).

Lemma alloc_paged_extend_spec c φ pres seqs last rows : ready c φ → 1 < page_size c →
  Forall2 le pres seqs → rows_at (page_size c) rows pres last →
  let n := get_num_new_pages_extend (page_size c) seqs pres in
  let slots := alloc_paged_token_slots_extend native_hash salt_digest pres seqs last (sum_list (zip_with Nat.sub seqs pres)) c in
  if (total_free c <? Z.of_nat (n * page_size c))%Z then slots = Raise RuntimeError
  else ∃ fresh c', slots = Ok (c', concat (grown (page_size c) rows fresh pres seqs <$> seq 0 (length pres)))
    ∧ taken c c' φ (concat (fresh <$> seq 0 (length pres))) ∧ fresh_sizes (page_size c) fresh pres seqs.
Proof.
  intros Hr Hp1 Hle Hrows n. pose proof Hr as [Hi Hh Hm Hd]. cbv zeta. unfold alloc_paged_token_slots_extend.
  rewrite (tm_ps _ Hm). set (num := sum_list _ + _).
  destruct (evict_from_tree_cache_spec native_hash salt_digest Hnative c φ num Hi Hh Hm Hd) as (c1&->&Hc). res_step.
  pose proof Hc as [Hi1 _ Hm1 Hcfg _ _ _ _ _ _ _]. pose proof Hcfg as [= _ Hps _ _ _ _].
  pose proof (tm_ps _ Hm1) as Hpp. rewrite Hps in Hpp.
  pose proof (law_extend (allocator c1) pres seqs last rows (tm_ok _ Hm1)) as Hl. cbv zeta in Hl. rewrite Hpp in Hl.
  specialize (Hl Hp1 Hle Hrows). fold n in Hl. rewrite (reclaimed_room c c1 φ num n Hc) in Hl.
  2:{ pose proof (news_bound (page_size c) pres seqs ltac:(lia) Hle) as Hb. unfold news, exts in Hb.
      fold (get_num_new_pages_extend (page_size c) seqs pres) n in Hb.
      unfold num. rewrite <-(Forall2_length _ _ _ Hle).
      pose proof (Nat.Div0.mul_div_le (sum_list (zip_with Nat.sub seqs pres)) (page_size c)). nia. }
  destruct (_ <? _)%Z; [by destruct Hl as (a'&->&_)|].
  destruct Hl as (fresh&a'&->&Hk&Hpg&Hlen). res_step. exists fresh, (set_allocator a' c1).
  split_and!; [done|by eapply take_reclaimed|done].
Qed.

Lemma alloc_paged_decode_spec c φ seqs last rows : ready c φ → 1 < page_size c → Forall (λ s, 0 < s) seqs →
  rows_at (page_size c) rows (pred <$> seqs) last →
  let n := get_num_new_pages_decode (page_size c) seqs in
  let slots := alloc_paged_token_slots_decode native_hash salt_digest seqs last c in
  if (total_free c <? Z.of_nat (n * page_size c))%Z then slots = Raise RuntimeError
  else ∃ fresh c', slots = Ok (c', (λ i, row_slot (page_size c) (rows !!! i ++ fresh i) (seqs !!! i - 1)) <$> seq 0 (length seqs))
    ∧ taken c c' φ (concat (fresh <$> seq 0 (length seqs)))
    ∧ (∀ i, i < length seqs → length (fresh i) = if (seqs !!! i) mod page_size c =? 1 then 1 else 0).
Proof.
  intros Hr Hp1 Hpos Hrows n. pose proof Hr as [Hi Hh Hm Hd]. cbv zeta. unfold alloc_paged_token_slots_decode.
  rewrite (tm_ps _ Hm). set (num := length seqs * page_size c).
  destruct (evict_from_tree_cache_spec native_hash salt_digest Hnative c φ num Hi Hh Hm Hd) as (c1&->&Hc). res_step.
  pose proof Hc as [Hi1 _ Hm1 Hcfg _ _ _ _ _ _ _]. pose proof Hcfg as [= _ Hps _ _ _ _].
  pose proof (tm_ps _ Hm1) as Hpp. rewrite Hps in Hpp.
  pose proof (law_decode (allocator c1) seqs last rows (tm_ok _ Hm1)) as Hl. cbv zeta in Hl. rewrite Hpp in Hl.
  specialize (Hl Hp1 Hpos Hrows). fold n in Hl. rewrite (reclaimed_room c c1 φ num n Hc) in Hl.
  2:{ apply Nat.mul_le_mono_r. unfold n, get_num_new_pages_decode. clear. induction seqs as [|s l IH]; [done|].
      cbn [fmap list_fmap length sum_list foldr]. fold (sum_list ((λ s, if s mod page_size c =? 1 then 1 else 0) <$> l)).
      case_match; lia. }
  destruct (_ <? _)%Z; [by destruct Hl as (a'&->&_)|].
  destruct Hl as (fresh&a'&->&Hk&Hpg&Hlen). res_step. exists fresh, (set_allocator a' c1).
  split_and!; [done|by eapply take_reclaimed|done].
Qed.

(** Both page sizes alike. *)
Definition extend_slots (pres seqs : list nat) (last : list Z) (num : nat) c : res (RadixCache A * list Z) :=
  if page_size c =? 1 then alloc_token_slots native_hash salt_digest num c
  else alloc_paged_token_slots_extend native_hash salt_digest pres seqs last num c.

Lemma extend_slots_spec c φ pres seqs last rows : ready c φ → Forall2 le pres seqs →
  rows_at (page_size c) rows pres last →
  let n := get_num_new_pages_extend (page_size c) seqs pres in
  let slots := extend_slots pres seqs last (sum_list (zip_with Nat.sub seqs pres)) c in
  if (total_free c <? Z.of_nat (n * page_size c))%Z then slots = Raise RuntimeError
  else ∃ fresh c', slots = Ok (c', concat (grown (page_size c) rows fresh pres seqs <$> seq 0 (length pres)))
    ∧ taken c c' φ (concat (fresh <$> seq 0 (length pres))) ∧ fresh_sizes (page_size c) fresh pres seqs.
Proof.
  intros Hr Hle Hrows n. cbv zeta. unfold extend_slots. pose proof (in_ps _ _ (rd_inv _ _ Hr)) as Hp0.
  destruct (Nat.eqb_spec (page_size c) 1) as [Hp1|Hp1]; [|by apply alloc_paged_extend_spec; [..|lia|done|done]].
  pose proof (alloc_token_slots_spec c φ (sum_list (zip_with Nat.sub seqs pres)) Hr Hp1) as Hs.
  assert (n = sum_list (zip_with Nat.sub seqs pres)) as Hn by (unfold n; rewrite Hp1; apply news_1).
  rewrite Hp1, Nat.mul_1_r, Hn. destruct (_ <? _)%Z; [done|]. destruct Hs as (out&c'&->&Hlen&Ht).
  rewrite Hp1 in Hrows. assert (sum_list (news 1 pres seqs) ≤ length out) as Hfree by (unfold n in Hn; rewrite Hp1 in Hn; unfold news; unfold get_num_new_pages_extend in Hn; lia).
  exists (new_pages 1 pres seqs out), c'.
  assert (concat (new_pages 1 pres seqs out <$> seq 0 (length pres)) = out) as Hcat.
  { rewrite concat_new_pages by (lia || done). apply take_ge. unfold page_start. rewrite take_ge; [|].
    - unfold news. fold (get_num_new_pages_extend 1 seqs pres). rewrite news_1. lia.
    - unfold news. rewrite length_zip_with. lia. }
  split_and!.
  - do 2 f_equal. rewrite <-Hcat at 1. f_equal. apply list_fmap_ext. intros ? i Hi%lookup_seq.
    destruct (Hrows i) as [Hrl _]; [lia|]. pose proof (length_new_pages 1 ltac:(lia) pres seqs out Hle Hfree i ltac:(lia)) as Hnl.
    rewrite !npages_1 in *. unfold grown. rewrite kv_row_1; [|rewrite length_app; lia].
    unfold pyslice. rewrite <-Hrl, drop_app_length, take_ge by lia. done.
  - by rewrite Hcat.
  - intros i Hi. by apply (length_new_pages 1 ltac:(lia) pres seqs out Hle Hfree).
Qed.
End Take.
