(* ===== verification/BatchPrefill.v ===== *)
(** * Memory for a prefill batch

    [alloc_for_extend] on a batch as [prepare_for_extend] sets it up: it fails
    exactly when the free and the evictable memory together is too little, and
    otherwise every request of the batch has a row of its own that starts with its
    prefix and goes on with slots of pages that nobody else holds. *)

From stdpp Require Import base tactics numbers list gmap strings.
From Stdlib Require Import ZArith Lia ZifyNat.
From S2P Require Import Prelude RadixKey TreeNode KvEvents EventQueue RadixCache RadixInv RadixPages RadixAcct.
From S2P Require Import RadixEvents RadixMatch RadixSpec RadixInsert RadixLock RadixEvict RadixContents.
From S2P Require Import Allocator AllocFree AllocCorrect AllocKernel AllocExtend PoolAlloc Requests ReqPool.
From S2P Require Import BatchAlloc BatchWrite BatchMem BatchTake.

(** ** Rows of pages *)

Lemma kv_row_app ps row a n m : kv_row ps row a n ++ kv_row ps row (a + n) m = kv_row ps row a (n + m).
Proof. unfold kv_row. by rewrite seq_app, fmap_app. Qed.

Lemma kv_row_grow ps row fresh n : 0 < ps → n ≤ length row * ps → kv_row ps (row ++ fresh) 0 n = kv_row ps row 0 n.
Proof.
  intros Hps Hn. unfold kv_row. apply list_fmap_ext. intros ? q [-> Hq]%lookup_seq. unfold row_slot.
  rewrite lookup_total_app_l; [done|]. apply Nat.Div0.div_lt_upper_bound. simpl. nia.
Qed.

Lemma row_grown ps row fresh pre s : 0 < ps → length row = npages ps pre → pre ≤ s →
  kv_row ps row 0 pre ++ kv_row ps (row ++ fresh) pre (s - pre) = kv_row ps (row ++ fresh) 0 s.
Proof.
  intros Hps Hlen Hle. pose proof (npages_bounds ps Hps pre).
  rewrite <-(kv_row_grow ps row fresh pre), kv_row_app by nia. f_equal. lia.
Qed.

Lemma cut_parts_concat (ls : list (list Z)) (front : list Z) :
  cut_parts (front ++ concat ls) (length front) (length <$> ls) = ls.
Proof.
  revert front. induction ls as [|l ls IH]; intros front; [done|]. cbn [fmap list_fmap cut_parts concat]. f_equal.
  - unfold pyslice. rewrite drop_app_length, take_app_le, take_ge by lia. done.
  - rewrite app_assoc, <-length_app. apply IH.
Qed.

(** ** The batch *)

(** A request that is about to run its prompt from the end of its prefix: [row] are
    the pages of the prefix. *)
Record extend_req_ok (ps ctx : nat) (row : list Z) (r : BatchReq) : Prop := {
  er_prefix : Req.prefix_indices (core r) = kv_row ps row 0 (length (Req.prefix_indices (core r)));
  er_row : length row = npages ps (length (Req.prefix_indices (core r)));
  er_start : (Req.extend_range (core r)).1 = length (Req.prefix_indices (core r));
  er_le : (Req.extend_range (core r)).1 ≤ (Req.extend_range (core r)).2;
  er_fill : (Req.extend_range (core r)).2 ≤ length (Req.full_untruncated_fill_ids (core r));
  er_ctx : (Req.extend_range (core r)).2 ≤ ctx;
}.

Section Batch.
Context (ps ctx : nat) (rows : list (list Z)) (b : ScheduleBatch).
Context (Hreqs : Forall2 (extend_req_ok ps ctx) rows (reqs b)).
Let b0 := prepare_extend_lens b.
Let ts := (λ r, Req.prefix_indices (core r)) <$> reqs b.

Lemma batch_req i r : reqs b !! i = Some r → extend_req_ok ps ctx (rows !!! i) r.
Proof.
  intros Hi. destruct (Forall2_lookup_r _ _ _ _ _ Hreqs Hi) as (row&Hr&He). by rewrite (list_lookup_total_correct _ _ _ Hr).
Qed.

Lemma batch_all : Forall (λ r, (Req.extend_range (core r)).1 = length (Req.prefix_indices (core r))
  ∧ (Req.extend_range (core r)).1 ≤ (Req.extend_range (core r)).2 ≤ length (Req.full_untruncated_fill_ids (core r))
  ∧ (Req.extend_range (core r)).2 ≤ ctx) (reqs b).
Proof.
  apply Forall_lookup. intros i r Hi. by destruct (batch_req i r Hi).
Qed.

Lemma prepared_le : Forall2 le (prefix_lens b0) (seq_lens b0).
Proof.
  unfold b0. simpl. apply Forall2_fmap, Forall_Forall2_diag. eapply Forall_impl; [apply batch_all|]. simpl. lia.
Qed.

Lemma prepared_ext : extend_lens b0 = zip_with Nat.sub (seq_lens b0) (prefix_lens b0).
Proof.
  pose proof batch_all as Hall. unfold b0. simpl. clear -Hall. induction Hall as [|r l Hr _ IH]; [done|]. cbn [fmap list_fmap zip_with]. f_equal; [lia|done].
Qed.

Lemma prepared_num : extend_num_tokens b0 = sum_list (extend_lens b0).
Proof.
  pose proof batch_all as Hall. unfold b0. simpl. f_equal. rewrite <-list_fmap_compose.
  clear -Hall. induction Hall as [|r l Hr _ IH]; [done|]. cbn [fmap list_fmap]. f_equal; [|done]. simpl.
  unfold Req.get_fill_ids. rewrite length_drop, length_take. lia.
Qed.

Lemma prepared_seq : seq_lens b0 = zip_with Nat.add (prefix_lens b0) (extend_lens b0).
Proof.
  pose proof batch_all as Hall. unfold b0. simpl. clear -Hall. induction Hall as [|r l Hr _ IH]; [done|]. cbn [fmap list_fmap zip_with]. f_equal; [lia|done].
Qed.

Lemma prepared_at i r : reqs b !! i = Some r →
  prefix_lens b0 !!! i = length (Req.prefix_indices (core r)) ∧ seq_lens b0 !!! i = (Req.extend_range (core r)).2
  ∧ extend_lens b0 !!! i = (Req.extend_range (core r)).2 - (Req.extend_range (core r)).1
  ∧ ts !!! i = Req.prefix_indices (core r).
Proof.
  intros Hi. unfold b0, ts. simpl. by split_and!; apply list_lookup_total_correct; rewrite list_lookup_fmap, Hi.
Qed.

Lemma prepared_rows : rows_at ps rows (prefix_lens b0) (last_locs ts).
Proof.
  intros i Hi. unfold b0 in Hi. simpl in Hi. rewrite length_fmap in Hi.
  destruct (lookup_lt_is_Some_2 (reqs b) i Hi) as [r Hr]. destruct (prepared_at i r Hr) as (Hp&_&_&Ht).
  destruct (batch_req i r Hr) as [Hpre Hrow _ _ _ _]. rewrite Hp. split; [done|]. intros Hpos.
  assert (last_locs ts !!! i = default (-1)%Z (last (ts !!! i))) as ->.
  { unfold last_locs. apply list_lookup_total_correct. rewrite list_lookup_fmap.
    rewrite (list_lookup_lookup_total_lt ts i) by (unfold ts; by rewrite length_fmap). done. }
  rewrite Ht, Hpre, last_lookup, length_kv_row. unfold kv_row. rewrite list_lookup_fmap, lookup_seq_lt by lia. simpl.
  f_equal. lia.
Qed.

Lemma prepared_fits n out idx : length idx = length (reqs b) → Forall (λ i, i < n) idx →
  length out = sum_list (extend_lens b0) →
  batch_fits n ctx out 0 idx (prefix_lens b0) (seq_lens b0) (extend_lens b0) ts.
Proof.
  intros Hl Hf Ho. split; [done| |apply prepared_seq|unfold b0; simpl; by rewrite length_fmap..| |lia].
  - unfold b0, ts. simpl. by rewrite <-list_fmap_compose.
  - unfold b0. simpl. apply Forall_fmap. eapply Forall_impl; [apply batch_all|]. simpl. lia.
Qed.

(** The slots of the batch are cut where the requests' parts meet. *)
Lemma grown_parts fresh : let parts := grown ps rows fresh (prefix_lens b0) (seq_lens b0) <$> seq 0 (length (reqs b)) in
  length (concat parts) = sum_list (extend_lens b0)
  ∧ ∀ i, i < length (reqs b) → cut_parts (concat parts) 0 (extend_lens b0) !!! i
      = grown ps rows fresh (prefix_lens b0) (seq_lens b0) i.
Proof.
  intros parts. assert (length <$> parts = extend_lens b0) as Hlens.
  { apply list_eq. intros i. unfold parts. rewrite list_lookup_fmap, list_lookup_fmap.
    destruct (decide (i < length (reqs b))) as [Hi|Hi].
    - rewrite lookup_seq_lt by done. cbn [fmap option_fmap option_map Nat.add]. unfold grown. rewrite length_kv_row.
      destruct (lookup_lt_is_Some_2 (reqs b) i Hi) as [r Hr]. destruct (prepared_at i r Hr) as (->&->&_).
      destruct (batch_req i r Hr) as [_ _ Hst _ _ _]. unfold b0. simpl. rewrite list_lookup_fmap, Hr. simpl. f_equal. lia.
    - rewrite lookup_seq_ge by lia. symmetry. apply lookup_ge_None. unfold b0. simpl. rewrite length_fmap. lia. }
  split.
  - rewrite <-Hlens. clear. induction parts as [|l ls IH]; [done|]. cbn [concat fmap list_fmap]. rewrite length_app, IH. done.
  - intros i Hi. pose proof (cut_parts_concat parts []) as Hc. cbn [app length] in Hc. rewrite <-Hlens, Hc. unfold parts. apply list_lookup_total_correct.
    by rewrite list_lookup_fmap, lookup_seq_lt.
Qed.
End Batch.

(** ** Rows of the request pool *)

Lemma rows_of_lookup rs i r : Forall (λ r, Req.req_pool_idx r ≠ None) rs → rs !! i = Some r →
  rows_of rs !! i = Req.req_pool_idx r.
Proof.
  intros Hall. revert i. induction Hall as [|r0 rs Hr0 _ IH]; intros i Hi; [done|]. unfold rows_of. cbn [omap list_omap].
  destruct (Req.req_pool_idx r0) as [j|] eqn:E; [|done]. destruct i as [|i]; simpl in *; [congruence|by apply IH].
Qed.

Lemma length_rows_of rs : Forall (λ r, Req.req_pool_idx r ≠ None) rs → length (rows_of rs) = length rs.
Proof.
  induction 1 as [|r rs Hr _ IH]; [done|]. unfold rows_of in *. cbn [omap list_omap].
  destruct (Req.req_pool_idx r); [|done]. simpl. by f_equal.
Qed.

Section Prefill.
Context {A : Type} `{PoolLaws A} {X : Type} `{!AuxCache X}.
Context (native_hash : RadixKey → option string → nat → list string).
Context (salt_digest : string → string).
Context (Hnative : ∀ k prior ps, 0 < ps → klen k mod ps = 0 →
  length (native_hash k prior ps) = klen k / ps ∧ Forall good_hash (native_hash k prior ps)).
Implicit Types (c : RadixCache A) (p : ReqToTokenPool X) (b : ScheduleBatch).

(** The auxiliary cache, if there is one, does not run out. *)
Definition aux_grows p : Prop :=
  ∀ x idx lens, aux_cache p = Some x → ∃ x', aux_alloc_to_lengths idx lens x = Ok x'.

(** The request pool has rows for the batch; [others] are the rows in use outside of it. *)
Record pool_ready p (rs : list Req.Req) (others : list nat) : Prop := {
  pr_wf : pool_wf p (rows_of rs ++ others);
  pr_rows : Forall (λ row, length row = max_context_len p) (req_to_token p);
  pr_reuse : forallb reuse_ok rs = true;
  pr_room : length (List.filter is_new rs) ≤ length (free_slots p);
  pr_aux : aux_grows p;
}.

(** The request pool after the batch got its rows. *)
Record rows_ready p (rs' : list Req.Req) (others : list nat) : Prop := {
  rr_wf : pool_wf p (rows_of rs' ++ others);
  rr_all : Forall (λ r, Req.req_pool_idx r ≠ None) rs';
  rr_nodup : NoDup (rows_of rs' ++ others);
  rr_bound : Forall (λ i, i < length (req_to_token p)) (rows_of rs');
}.

Lemma alloc_req_slots_spec p rs others : pool_ready p rs others →
  ∃ rs' p', alloc_req_slots rs p = Ok (rows_of rs', rs', p') ∧ rows_ready p' rs' others ∧ length rs' = length rs
    ∧ (∀ i r, rs !! i = Some r → Req.req_pool_idx r ≠ None → rs' !! i = Some r)
    ∧ req_to_token p' = req_to_token p ∧ max_context_len p' = max_context_len p ∧ aux_cache p' = aux_cache p.
Proof.
  intros [Hwf _ Hre Hroom _]. unfold alloc_req_slots.
  destruct (alloc_split p rs _ Hwf Hre Hroom) as (rs'&p'&new&->&Hwf'&Hperm&_&_&Hlen&Hall&Hkeep&_&Ht&Hm&Hx). res_step.
  exists rs', p'. split; [done|]. rewrite app_assoc, <-Hperm in Hwf'. split_and!; try done.
  destruct (pool_wf_NoDup _ _ Hwf') as [Hnd _]. apply NoDup_app in Hnd as (_&_&Hnd). split; try done.
  apply Forall_forall. intros i Hi. destruct Hwf' as [Hr _ ->].
  assert (i ∈ seq 1 (ReqPool.size p')) as Hin%elem_of_seq; [|lia]. rewrite <-Hr. set_solver.
Qed.

Lemma aux_grows_ok p idx lens : aux_grows p → ∃ p', alloc_aux_to_lengths idx lens p = Ok p'
  ∧ req_to_token p' = req_to_token p ∧ free_slots p' = free_slots p ∧ req_generation p' = req_generation p
  ∧ ReqPool.size p' = ReqPool.size p ∧ max_context_len p' = max_context_len p.
Proof.
  intros Ha. unfold alloc_aux_to_lengths. destruct (aux_cache p) as [x|] eqn:E; [|by exists p].
  destruct (Ha x idx lens E) as [x' ->]. res_step. by eexists.
Qed.

Lemma rows_ready_same p p' rs others : length (req_to_token p') = length (req_to_token p) → free_slots p' = free_slots p →
  req_generation p' = req_generation p → ReqPool.size p' = ReqPool.size p → rows_ready p rs others → rows_ready p' rs others.
Proof. intros E1 E2 E3 E4 [[Ha Hb Hc] ? ? ?]. split; [split; congruence|done|done|by rewrite E1]. Qed.

(** Request [i] of a batch holds a row of the pool that starts with the slots of its
    pages, up to its length, all of them allocated. *)
Definition holds_rows (ps : nat) p (pages : nat → list Z) (rs : list BatchReq) (lens : list nat) : Prop :=
  ∀ i r, rs !! i = Some r → ∃ j row, Req.req_pool_idx (core r) = Some j ∧ req_to_token p !! j = Some row
    ∧ take (lens !!! i) row = kv_row ps (pages i) 0 (lens !!! i)
    ∧ kv_allocated_len <$> kv r = Some (lens !!! i).

Definition with_lens (lens : list nat) (rs : list BatchReq) : list BatchReq :=
  imap (λ i r, match lens !! i with Some s => set_allocated s r | None => r end) rs.

Lemma with_lens_lookup lens rs i r : length lens = length rs → with_lens lens rs !! i = Some r →
  ∃ r0, rs !! i = Some r0 ∧ r = set_allocated (lens !!! i) r0.
Proof.
  intros Hl Hi. unfold with_lens in Hi. rewrite list_lookup_imap in Hi.
  destruct (rs !! i) as [r0|] eqn:E; [|done]. injection Hi as <-. exists r0. split; [done|].
  pose proof (lookup_lt_Some _ _ _ E). rewrite (list_lookup_lookup_total_lt lens i) by lia. done.
Qed.

Lemma cores_with_lens lens cores rs : length cores = length rs →
  core <$> with_lens lens (zip_with set_core cores rs) = cores.
Proof.
  intros Hl. apply list_eq. intros i. rewrite list_lookup_fmap. unfold with_lens. rewrite list_lookup_imap, lookup_zip_with.
  destruct (cores !! i) as [k|] eqn:Hk; simpl; [|done]. destruct (lookup_lt_is_Some_2 rs i) as [r ->].
  { rewrite <-Hl. by eapply lookup_lt_Some. }
  simpl. by destruct (lens !! i).
Qed.

Lemma holds_rows_filled ps p rows fresh b cores others :
  Forall2 (extend_req_ok ps (max_context_len p)) rows (reqs b) → 0 < ps →
  rows_ready p cores others → length cores = length (reqs b) →
  Forall (λ row, length row = max_context_len p) (req_to_token p) →
  let b0 := prepare_extend_lens b in
  let parts := grown ps rows fresh (prefix_lens b0) (seq_lens b0) <$> seq 0 (length (reqs b)) in
  holds_rows ps (set_table (fill_rows (req_to_token p) (row_starts (rows_of cores)
      ((λ r, Req.prefix_indices (core r)) <$> reqs b) (concat parts) 0 (extend_lens b0))) p)
    (λ i, rows !!! i ++ fresh i) (with_lens (seq_lens b0) (zip_with set_core cores (reqs b))) (seq_lens b0).
Proof.
  intros Hreqs Hps [_ Hall Hnd Hbd] Hlen Hst b0 parts i r Hi.
  apply with_lens_lookup in Hi as (r0&Hr0&->); [|unfold b0; simpl; rewrite length_fmap, length_zip_with; lia].
  apply lookup_zip_with_Some in Hr0 as (k&rb&->&Hk&Hrb).
  destruct (batch_req _ _ _ _ Hreqs i rb Hrb) as [Hpre Hrow Hstart Hle _ _].
  destruct (prepared_at b i rb Hrb) as (Hp&Hs&_&Ht). fold b0 in Hp, Hs.
  pose proof (rows_of_lookup _ _ _ Hall Hk) as Hj. destruct (Req.req_pool_idx k) as [j|] eqn:Ej;
    [|by apply (proj1 (Forall_lookup _ _) Hall _ _ Hk) in Ej].
  destruct (lookup_lt_is_Some_2 (req_to_token p) j) as [row Hrj]; [by eapply (proj1 (Forall_lookup _ _) Hbd)|].
  destruct (grown_parts ps _ rows b Hreqs fresh) as [Hcl Hcut]. fold b0 parts in Hcl, Hcut.
  apply NoDup_app in Hnd as (Hnd&_).
  eexists j, _. split; [done|]. cbn [set_table req_to_token]. split.
  { eapply filled_row; [|exact Hnd|exact Hj|exact Hrj]. apply (prepared_fits _ _ rows b Hreqs); [|exact Hbd|done].
    by rewrite length_rows_of. }
  split; [|by unfold set_allocated; simpl; destruct (kv rb)]. rewrite Hcut by (by eapply lookup_lt_Some).
  unfold grown. rewrite Ht, Hp, Hs. rewrite Hpre at 1. rewrite app_assoc, row_grown by (done || lia).
  rewrite take_app_le, take_ge by (rewrite length_kv_row; lia). done.
Qed.
Lemma alloc_page_size_eq dcp c : tree_mem c → alloc_page_size_of dcp c = page_size c.
Proof. intros Hm. unfold alloc_page_size_of. by rewrite (tm_ps _ Hm); destruct dcp. Qed.

(** The effect of [alloc_for_extend] when there is enough memory. *)
Record extended (c c' : RadixCache A) φ p p' (rows : list (list Z)) (fresh : nat → list Z) (b b' : ScheduleBatch)
    (others : list nat) : Prop := {
  ex_taken : taken c c' φ (concat (fresh <$> seq 0 (length (reqs b))));
  ex_sizes : fresh_sizes (page_size c) fresh (prefix_lens b) (seq_lens b);
  ex_len : length (reqs b') = length (reqs b);
  ex_pool : rows_ready p' (core <$> reqs b') others;
  ex_rows : holds_rows (page_size c) p' (λ i, rows !!! i ++ fresh i) (reqs b') (seq_lens b);
  ex_other : ∀ j, j ∉ rows_of (core <$> reqs b') → req_to_token p' !! j = req_to_token p !! j;
}.

Lemma alloc_for_extend_spec triton dcp b c φ p rows others :
  ready c φ → pool_ready p (core <$> reqs b) others →
  Forall2 (extend_req_ok (page_size c) (max_context_len p)) rows (reqs b) → is_dllm b = false →
  let b0 := prepare_extend_lens b in
  let n := get_num_new_pages_extend (page_size c) (seq_lens b0) (prefix_lens b0) in
  if (total_free c <? Z.of_nat (n * page_size c))%Z
  then alloc_for_extend native_hash salt_digest triton dcp b0 c p = Raise RuntimeError
  else ∃ fresh c' p' b' out, alloc_for_extend native_hash salt_digest triton dcp b0 c p
      = Ok (c', p', b', Ok (out, rows_of (core <$> reqs b'))) ∧ extended c c' φ p p' rows fresh b0 b' others.
Proof.
  intros Hr Hp Hreqs Hdl b0 n. unfold alloc_for_extend.
  change (is_dllm b0) with (is_dllm b). change (reqs b0) with (reqs b). rewrite Hdl. cbn [existsb].
  destruct (alloc_req_slots_spec p _ others Hp) as (cores&p1&->&Hrr&Hlen&_&Ht&Hm&Hx). res_step.
  rewrite length_fmap in Hlen. rewrite (alloc_page_size_eq dcp c (rd_mem _ _ Hr)).
  cbn [set_reqs extend_num_tokens prefix_lens seq_lens reqs extend_lens].
  fold b0. pose proof (prepared_le _ _ rows b Hreqs) as Hle. fold b0 in Hle.
  pose proof (extend_slots_spec native_hash salt_digest Hnative c φ (prefix_lens b0) (seq_lens b0)
    (last_locs ((λ r, Req.prefix_indices (core r)) <$> reqs b)) rows Hr Hle (prepared_rows _ _ rows b Hreqs)) as Hs.
  cbv zeta in Hs. fold n in Hs. unfold extend_slots in Hs.
  pose proof (prepared_num _ _ rows b Hreqs) as Hnum. pose proof (prepared_ext _ _ rows b Hreqs) as Hext. fold b0 in Hnum, Hext.
  rewrite <-Hext, <-Hnum in Hs. assert (length (prefix_lens b0) = length (reqs b)) as Hpl by apply length_fmap.
  rewrite Hpl in Hs. destruct (total_free c <? _)%Z; [by rewrite Hs|].
  destruct Hs as (fresh&c'&->&Htk&Hsz). res_step.
  assert (Forall (λ row, length row = max_context_len p1) (req_to_token p1)) as Hst by (rewrite Ht, Hm; apply Hp).
  rewrite <-Hm in Hreqs. pose proof (in_ps _ _ (rd_inv _ _ Hr)) as Hps.
  destruct (grown_parts (page_size c) _ rows b Hreqs fresh) as [Hcl _]. fold b0 in Hcl.
  rewrite write_cache_indices_fill; [|done|].
  2:{ apply (prepared_fits _ _ rows b Hreqs); [|apply Hrr|done]. rewrite length_rows_of; [done|apply Hrr]. }
  res_step. set (p2 := set_table _ p1).
  destruct (aux_grows_ok p2 (rows_of cores) (seq_lens b0)) as (p3&->&E1&E2&E3&E4&_).
  { intros x idx lens Hxx. apply (pr_aux _ _ _ Hp). by rewrite <-Hx. }
  fold (with_lens (seq_lens b0) (zip_with set_core cores (reqs b))).
  pose proof (cores_with_lens (seq_lens b0) cores (reqs b) Hlen) as Hcores.
  eexists fresh, c', p3, (set_reqs (with_lens (seq_lens b0) (zip_with set_core cores (reqs b))) b0), _. cbn [set_reqs reqs]. rewrite Hcores. split; [done|]. split; cbn [set_reqs reqs]; try done.
  - unfold with_lens. rewrite length_imap, length_zip_with. simpl. lia.
  - rewrite Hcores. eapply rows_ready_same; [..|exact Hrr]; rewrite ?E1, ?E2, ?E3, ?E4; try done. apply length_fill_rows.
  - intros i r Hi. destruct (holds_rows_filled (page_size c) p1 rows fresh b cores others Hreqs Hps Hrr Hlen Hst i r Hi) as (j&row&H2&H3&H4).
    exists j, row. rewrite E1. done.
  - rewrite Hcores. intros j Hj. rewrite E1. unfold p2. cbn [set_table req_to_token]. rewrite <-Ht.
    apply fill_rows_other. intros x Hxx. apply Hj. by eapply elem_of_zip_l.
Qed.

(** C8: [alloc_for_extend] on the batch [prepare_for_extend] sets up, for any page size
    and with the kernel or the loop: it raises the out-of-memory error exactly when the
    new pages do not fit in the free and the evictable memory together.  Otherwise the
    cache gives up exactly the new pages, each taken from the free list or from evicted
    nodes and apart from every page that is still free or in the tree, no locked node is
    touched, every request of the batch holds a row of its own, and the row starts with
    the request's prefix followed by slots of the new pages up to its new length, which
    is recorded as allocated; the rows of other requests do not change. *)
Theorem alloc_for_extend_ok triton dcp b c φ p rows others :
  ready c φ → pool_ready p (core <$> reqs b) others →
  Forall2 (extend_req_ok (page_size c) (max_context_len p)) rows (reqs b) → is_dllm b = false →
  let b0 := prepare_extend_lens b in
  let n := get_num_new_pages_extend (page_size c) (seq_lens b0) (prefix_lens b0) in
  if (total_free c <? Z.of_nat (n * page_size c))%Z
  then alloc_for_extend native_hash salt_digest triton dcp b0 c p = Raise RuntimeError
  else ∃ fresh c' p' b' out, alloc_for_extend native_hash salt_digest triton dcp b0 c p
      = Ok (c', p', b', Ok (out, rows_of (core <$> reqs b'))) ∧ extended c c' φ p p' rows fresh b0 b' others.
Proof. apply alloc_for_extend_spec. Qed.
End Prefill.
