(* ===== verification/BatchDecode.v ===== *)
(** * Memory for a decode batch

    [alloc_for_decode] with one token per request: a request needs a new page exactly
    when its length is a multiple of the page size; the step fails exactly when these
    pages do not fit, and otherwise every row grows by one slot. *)

From stdpp Require Import base tactics numbers list gmap strings.
From Stdlib Require Import ZArith Lia ZifyNat.
From S2P Require Import Prelude RadixKey TreeNode KvEvents EventQueue RadixCache RadixInv RadixPages RadixAcct.
From S2P Require Import RadixEvents RadixMatch RadixSpec RadixInsert RadixLock RadixEvict RadixContents.
From S2P Require Import Allocator AllocFree AllocCorrect AllocKernel AllocExtend PoolAlloc Requests ReqPool.
From S2P Require Import BatchAlloc BatchWrite BatchMem BatchTake BatchPrefill.

(** ** Counting pages *)

Definition needs_page (ps n : nat) : nat := if n mod ps =? 0 then 1 else 0.
Definition decode_need (ps : nat) (lens : list nat) : nat := sum_list (needs_page ps <$> lens).

Lemma needs_page_S ps n : 1 < ps → (if S n mod ps =? 1 then 1 else 0) = needs_page ps n.
Proof.
  intros Hps. unfold needs_page. pose proof (Nat.mod_upper_bound n ps ltac:(lia)) as Hr.
  assert (S n mod ps = if n mod ps =? ps - 1 then 0 else S (n mod ps)) as ->.
  { pose proof (Nat.div_mod_eq n ps). destruct (Nat.eqb_spec (n mod ps) (ps - 1)) as [He|Hne]; symmetry.
    - apply (Nat.mod_unique _ _ (S (n / ps))); nia.
    - apply (Nat.mod_unique _ _ (n / ps)); nia. }
  destruct (Nat.eqb_spec (n mod ps) (ps - 1)), (Nat.eqb_spec (n mod ps) 0); cbn [Nat.eqb];
    repeat case_match; rewrite ?Nat.eqb_eq, ?Nat.eqb_neq in *; lia.
Qed.

Lemma npages_S ps n : 0 < ps → npages ps (S n) = npages ps n + needs_page ps n.
Proof.
  intros Hps. destruct (decide (ps = 1)) as [->|Hp1].
  { rewrite !npages_1. unfold needs_page. rewrite Nat.mod_1_r. simpl. lia. }
  rewrite <-needs_page_S by lia. pose proof (npages_pred ps ltac:(lia) (S n) ltac:(lia)) as Hn.
  replace (S n - 1) with n in Hn by lia. pose proof (npages_mono ps Hps n (S n) ltac:(lia)). lia.
Qed.

Lemma decode_need_1 lens : decode_need 1 lens = length lens.
Proof.
  unfold decode_need. induction lens as [|n l IH]; [done|]. cbn [fmap list_fmap sum_list foldr length].
  unfold sum_list in IH. rewrite IH. unfold needs_page. rewrite Nat.mod_1_r. simpl. lia.
Qed.

(** ** Writing one slot per row *)

Section Points.
Context {X : Type} `{!AuxCache X}.
Implicit Types p : ReqToTokenPool X.

Definition set_point (t : list (list Z)) (pt : nat * nat * Z) : list (list Z) :=
  let '(i, col, v) := pt in alter (λ row, <[col := v]> row) i t.

Lemma write_points_ok points p :
  Forall (λ '(i, col, _), ∃ row, req_to_token p !! i = Some row ∧ col < length row) points →
  write_points points p = Ok (set_table (foldl set_point (req_to_token p) points) p).
Proof.
  revert p. induction points as [|[[i col] v] points IH]; intros p Hall; [by destruct p|].
  apply Forall_cons in Hall as [(row&Hrow&Hcol) Hall]. cbn [write_points]. unfold write_point. rewrite Hrow. res_step.
  destruct (Nat.ltb_spec col (length row)); [|lia]. res_step. rewrite IH.
  - cbn [foldl set_point req_to_token]. rewrite (alter_list_insert _ i row) by done. done.
  - simpl. eapply Forall_impl; [exact Hall|]. intros [[j col'] w] (row'&Hj&Hc).
    destruct (decide (i = j)) as [->|Hne].
    + exists (<[col := v]> row). rewrite list_lookup_insert_eq by (by eapply lookup_lt_Some). rewrite length_insert.
      split; [done|]. congruence.
    + exists row'. by rewrite list_lookup_insert_ne.
Qed.

Lemma length_set_points (t : list (list Z)) points : length (foldl set_point t points) = length t.
Proof.
  revert t. induction points as [|[[i col] v] l IH]; intros t; [done|]. cbn [foldl set_point]. rewrite IH. apply length_alter.
Qed.

Lemma set_points_other (t : list (list Z)) points j : (∀ col v, (j, col, v) ∉ points) →
  foldl set_point t points !! j = t !! j.
Proof.
  revert t. induction points as [|[[i col] v] points IH]; intros t Hj; [done|]. cbn [foldl].
  rewrite IH by (intros c w Hin; apply (Hj c w); by right). apply list_lookup_alter_ne. intros ->. apply (Hj col v). left.
Qed.

Lemma set_points_lookup (t : list (list Z)) idx cols vals k j col v : NoDup idx →
  idx !! k = Some j → cols !! k = Some col → vals !! k = Some v →
  foldl set_point t (zip (zip idx cols) vals) !! j = (λ row, <[col := v]> row) <$> t !! j.
Proof.
  intros Hnd. revert t k cols vals. induction Hnd as [|i idx Hi Hnd IH]; intros t k cols vals Hk Hc Hv; [done|].
  destruct cols as [|c0 cols], vals as [|v0 vals]; [done..|]. cbn [zip zip_with foldl].
  destruct k as [|k]; cbn in Hk, Hc, Hv; simplify_eq.
  - rewrite set_points_other; [apply list_lookup_alter_eq|]. intros c w Hin. apply Hi.
    eapply elem_of_zip_l. by eapply elem_of_zip_l.
  - rewrite (IH _ k) by done. cbn [set_point]. rewrite list_lookup_alter_ne; [done|]. intros ->. apply Hi. by eapply list_elem_of_lookup_2.
Qed.

Lemma write_at_ok idx cols vals p : length cols = length idx → length vals = length idx →
  Forall (λ '(i, col), ∃ row, req_to_token p !! i = Some row ∧ col < length row) (zip idx cols) →
  write_at idx cols vals p = Ok (set_table (foldl set_point (req_to_token p) (zip (zip idx cols) vals)) p).
Proof.
  intros Hc Hv Hall. unfold write_at. rewrite Hc, Nat.eqb_refl. cbn [negb].
  assert (length (zip idx cols) = length idx) as Hz by (rewrite length_zip_with; lia).
  assert (Forall (λ '(i, col, _), ∃ row, req_to_token p !! i = Some row ∧ col < length row) (zip (zip idx cols) vals)) as Hpts.
  { apply Forall_forall. intros [[i col] v] Hin. apply elem_of_zip_l in Hin. by apply (proj1 (Forall_forall _ _) Hall (i, col)). }
  rewrite Hz. destruct vals as [|v [|w vals]].
  - rewrite <-Hv. cbn [length Nat.eqb]. by apply write_points_ok.
  - rewrite <-Hv. by apply write_points_ok.
  - rewrite Hv, Nat.eqb_refl. by apply write_points_ok.
Qed.
End Points.

(** ** The new slots *)

Lemma concat_singles {B} (f : nat → B) l : concat ((λ i, [f i]) <$> l) = f <$> l.
Proof. induction l as [|x l IH]; [done|]. cbn [fmap list_fmap concat app]. by rewrite IH. Qed.

Section Slots.
Context {A : Type} `{PoolLaws A}.
Context (native_hash : RadixKey → option string → nat → list string).
Context (salt_digest : string → string).
Context (Hnative : ∀ k prior ps, 0 < ps → klen k mod ps = 0 →
  length (native_hash k prior ps) = klen k / ps ∧ Forall good_hash (native_hash k prior ps)).
Implicit Types (c : RadixCache A).

(** The pages of rows of the given lengths. *)
Definition row_pages (ps : nat) (pages : nat → list Z) (lens : list nat) : Prop :=
  ∀ i, i < length lens → length (pages i) = npages ps (lens !!! i).

(** The last slot of each row. *)
Definition row_lasts (ps : nat) (pages : nat → list Z) (lens : list nat) : list Z :=
  (λ i, row_slot ps (pages i) (lens !!! i - 1)) <$> seq 0 (length lens).

Definition next_lens (lens : list nat) : list nat := (λ s, s + 1) <$> lens.

Lemma next_lens_at lens i : i < length lens → next_lens lens !!! i = lens !!! i + 1.
Proof. exact (list_lookup_total_fmap (λ s, s + 1) lens i). Qed.

Lemma rows_at_next ps pages lens : row_pages ps pages lens →
  rows_at ps (pages <$> seq 0 (length lens)) (pred <$> next_lens lens) (row_lasts ps pages lens).
Proof.
  intros Hp. assert (pred <$> next_lens lens = lens) as ->.
  { unfold next_lens. rewrite <-list_fmap_compose. rewrite <-(list_fmap_id lens) at 2. apply list_fmap_ext.
    intros ? x _. simpl. lia. }
  intros i Hi. assert ((pages <$> seq 0 (length lens)) !!! i = pages i) as ->.
  { apply list_lookup_total_correct. by rewrite list_lookup_fmap, lookup_seq_lt. }
  split; [by apply Hp|]. intros _. apply list_lookup_total_correct. unfold row_lasts.
  by rewrite list_lookup_fmap, lookup_seq_lt.
Qed.

Definition decode_slots (lens : list nat) (last : list Z) c : res (RadixCache A * list Z) :=
  if page_size c =? 1 then alloc_token_slots native_hash salt_digest (length lens) c
  else alloc_paged_token_slots_decode native_hash salt_digest (next_lens lens) last c.

Lemma decode_slots_spec c φ lens pages : ready c φ → row_pages (page_size c) pages lens →
  let slots := decode_slots lens (row_lasts (page_size c) pages lens) c in
  if (total_free c <? Z.of_nat (decode_need (page_size c) lens * page_size c))%Z then slots = Raise RuntimeError
  else ∃ fresh c', slots = Ok (c', (λ i, row_slot (page_size c) (pages i ++ fresh i) (lens !!! i)) <$> seq 0 (length lens))
    ∧ taken c c' φ (concat (fresh <$> seq 0 (length lens)))
    ∧ row_pages (page_size c) (λ i, pages i ++ fresh i) (next_lens lens).
Proof.
  intros Hr Hp. pose proof (in_ps _ _ (rd_inv _ _ Hr)) as Hp0. cbv zeta. unfold decode_slots.
  destruct (Nat.eqb_spec (page_size c) 1) as [Hp1|Hp1].
  - pose proof (alloc_token_slots_spec native_hash salt_digest Hnative c φ (length lens) Hr Hp1) as Hs.
    rewrite Hp1, decode_need_1, Nat.mul_1_r. rewrite Hp1 in Hp. destruct (_ <? _)%Z; [done|].
    destruct Hs as (out&c'&->&Hlen&Ht).
    assert (concat ((λ i, [out !!! i]) <$> seq 0 (length lens)) = out) as Hcat.
    { rewrite concat_singles, <-Hlen. apply lookups_seq. }
    exists (λ i, [out !!! i]), c'. rewrite Hcat. split_and!; [|done|].
    + do 2 f_equal. rewrite <-(lookups_seq out) at 1. rewrite Hlen. apply list_fmap_ext. intros ? i [-> Hi]%lookup_seq.
      unfold row_slot. rewrite Nat.div_1_r, Nat.mod_1_r. cbn [Nat.add] in *.
      rewrite lookup_total_app_r, Hp, npages_1, Nat.sub_diag by (rewrite ?Hp, ?npages_1; done). simpl. lia.
    + intros i Hi. unfold next_lens in Hi. rewrite length_fmap in Hi. rewrite length_app, next_lens_at, npages_1, Hp, npages_1 by done.
      done.
  - pose proof (alloc_paged_decode_spec native_hash salt_digest Hnative c φ (next_lens lens) (row_lasts (page_size c) pages lens)
      (pages <$> seq 0 (length lens)) Hr ltac:(lia)) as Hs. cbv zeta in Hs.
    assert (get_num_new_pages_decode (page_size c) (next_lens lens) = decode_need (page_size c) lens) as Hn.
    { unfold get_num_new_pages_decode, decode_need, next_lens. f_equal. rewrite <-list_fmap_compose. apply list_fmap_ext.
      intros ? s _. simpl. rewrite Nat.add_1_r. apply needs_page_S. lia. }
    rewrite Hn in Hs. specialize (Hs ltac:(apply Forall_fmap, Forall_true; simpl; lia) (rows_at_next _ _ _ Hp)).
    destruct (_ <? _)%Z; [done|]. destruct Hs as (fresh&c'&->&Ht&Hf). 
    assert (length (next_lens lens) = length lens) as Hnl by apply length_fmap. rewrite Hnl in *.
    exists fresh, c'. split_and!; [|done|].
    + do 2 f_equal. apply list_fmap_ext. intros ? i [-> Hi]%lookup_seq. simpl. rewrite next_lens_at by done.
      rewrite Nat.add_sub. f_equal. f_equal. apply list_lookup_total_correct. by rewrite list_lookup_fmap, lookup_seq_lt.
    + intros i Hi. rewrite Hnl in Hi. rewrite length_app, Hp, Hf, next_lens_at, Nat.add_1_r, npages_S, needs_page_S by (done || lia). done.
Qed.
End Slots.

(** ** The step *)

Lemma decoded_row ps pages fresh row s : 0 < ps → take s row = kv_row ps pages 0 s → s < length row →
  length pages = npages ps s →
  take (s + 1) (<[s := row_slot ps (pages ++ fresh) s]> row) = kv_row ps (pages ++ fresh) 0 (s + 1).
Proof.
  intros Hps Ht Hs Hp. pose proof (npages_bounds ps Hps s).
  rewrite <-kv_row_app, kv_row_grow, <-Ht by nia. rewrite Nat.add_1_r.
  erewrite take_S_r by (by apply list_lookup_insert_eq). by rewrite take_insert_ge.
Qed.

Section Step.
Context {A : Type} `{PoolLaws A} {X : Type} `{!AuxCache X}.
Context (native_hash : RadixKey → option string → nat → list string).
Context (salt_digest : string → string).
Context (Hnative : ∀ k prior ps, 0 < ps → klen k mod ps = 0 →
  length (native_hash k prior ps) = klen k / ps ∧ Forall good_hash (native_hash k prior ps)).
Implicit Types (c : RadixCache A) (p : ReqToTokenPool X) (b : ScheduleBatch).

(** A running batch: every request holds a row filled up to its length, with room for
    one more token. *)
Record decode_ready (ps : nat) p (pages : nat → list Z) b (others : list nat) : Prop := {
  dr_rows : holds_rows ps p pages (reqs b) (seq_lens b);
  dr_idx : req_pool_indices b = rows_of (core <$> reqs b);
  dr_len : length (seq_lens b) = length (reqs b);
  dr_pages : row_pages ps pages (seq_lens b);
  dr_pos : Forall (λ s, 0 < s < max_context_len p) (seq_lens b);
  dr_pool : rows_ready p (core <$> reqs b) others;
  dr_table : Forall (λ row, length row = max_context_len p) (req_to_token p);
  dr_enc : encoder_lens b = None;
}.

Section Ready.
Context (ps : nat) p (pages : nat → list Z) b (others : list nat) (Hready : decode_ready ps p pages b others).

Lemma ready_row i r : reqs b !! i = Some r → ∃ j row, Req.req_pool_idx (core r) = Some j
  ∧ req_pool_indices b !! i = Some j ∧ req_to_token p !! j = Some row ∧ length row = max_context_len p
  ∧ 0 < seq_lens b !!! i < max_context_len p
  ∧ take (seq_lens b !!! i) row = kv_row ps (pages i) 0 (seq_lens b !!! i)
  ∧ kv_allocated_len <$> kv r = Some (seq_lens b !!! i).
Proof.
  destruct Hready as [Hrows Hidx Hlen _ Hpos [_ Hall _ _] Htab _]. intros Hi.
  destruct (Hrows i r Hi) as (j&row&Hj&Hrow&Ht&Hk).
  assert (0 < seq_lens b !!! i < max_context_len p) as Hs.
  { eapply (proj1 (Forall_lookup _ _) Hpos i). apply list_lookup_lookup_total_lt. rewrite Hlen. by eapply lookup_lt_Some. }
  exists j, row. split_and!; try done; try lia.
  - rewrite Hidx, <-Hj. apply rows_of_lookup; [done|]. by rewrite list_lookup_fmap, Hi.
  - by apply (proj1 (Forall_lookup _ _) Htab j).
Qed.

Lemma ready_idx_len : length (req_pool_indices b) = length (reqs b).
Proof. rewrite (dr_idx _ _ _ _ _ Hready), length_rows_of; [apply length_fmap|apply Hready]. Qed.

Lemma gather_last_ok : gather_last (req_to_token p) (req_pool_indices b) (seq_lens b)
  = Ok (row_lasts ps pages (seq_lens b)).
Proof.
  assert (∀ k, k ≤ length (reqs b) →
    gather_last (req_to_token p) (drop k (req_pool_indices b)) (drop k (seq_lens b))
    = Ok ((λ i, row_slot ps (pages i) (seq_lens b !!! i - 1)) <$> seq k (length (reqs b) - k))) as Hg.
  2:{ specialize (Hg 0 ltac:(lia)). rewrite !drop_0, Nat.sub_0_r in Hg. unfold row_lasts. by rewrite (dr_len _ _ _ _ _ Hready). }
  intros k Hk. remember (length (reqs b) - k) as d eqn:Hd. revert k Hk Hd. induction d as [|d IH]; intros k Hk Hd.
  { rewrite !drop_ge by (rewrite ?ready_idx_len, ?(dr_len _ _ _ _ _ Hready); lia). done. }
  destruct (lookup_lt_is_Some_2 (reqs b) k) as [r Hr]; [lia|].
  destruct (ready_row k r Hr) as (j&row&_&Hj&Hrow&Hl&Hpos&Ht&_).
  assert (seq_lens b !! k = Some (seq_lens b !!! k)) as Hs
    by (apply list_lookup_lookup_total_lt; rewrite (dr_len _ _ _ _ _ Hready); lia).
  rewrite (drop_S _ _ _ Hj), (drop_S _ _ _ Hs). cbn [gather_last]. rewrite Hrow. res_step.
  destruct (Nat.eqb_spec (seq_lens b !!! k) 0); [lia|].
  assert (row !! (seq_lens b !!! k - 1) = Some (row_slot ps (pages k) (seq_lens b !!! k - 1))) as ->.
  { rewrite <-(lookup_take_lt row (seq_lens b !!! k)) by lia. rewrite Ht. unfold kv_row.
    by rewrite list_lookup_fmap, lookup_seq_lt by lia. }
  res_step. rewrite (IH (S k)) by lia. done.
Qed.

Lemma grow_allocated_ok : ∃ rs', grow_allocated 1 (reqs b) = Ok rs' ∧ core <$> rs' = core <$> reqs b
  ∧ ∀ i r', rs' !! i = Some r' → ∃ r, reqs b !! i = Some r ∧ core r' = core r
      ∧ kv_allocated_len <$> kv r' = Some (seq_lens b !!! i + 1).
Proof.
  assert (∀ i r, reqs b !! i = Some r → kv_allocated_len <$> kv r = Some (seq_lens b !!! i)) as Hkv.
  { intros i r Hi. by destruct (ready_row i r Hi) as (?&?&?&?&?&?&?&?&?). }
  generalize (seq_lens b), Hkv. clear Hkv Hready. induction (reqs b) as [|r rs IH]; intros lens Hkv.
  { exists []. split_and!; [done..|]. done. }
  pose proof (Hkv 0 r eq_refl) as Hk0. destruct (kv r) as [k|] eqn:Ek; [|done]. injection Hk0 as Hk0.
  destruct (IH (tail lens)) as (rs'&He&Hc&Hrs).
  { intros i r' Hi. rewrite (Hkv (S i) r' Hi). by destruct lens; [destruct i|]. }
  cbn [grow_allocated]. rewrite Ek. res_step. rewrite He. res_step. eexists. split_and!; [done|by cbn; f_equal|].
  intros [|i] r' Hi; cbn in Hi.
  - injection Hi as <-. exists r. split_and!; [done..|]. simpl. by rewrite Hk0.
  - destruct (Hrs i r' Hi) as (r0&?&?&Hk). exists r0. split_and!; [done..|]. rewrite Hk. by destruct lens; [destruct i|].
Qed.
End Ready.

(** The effect of [alloc_for_decode] when there is enough memory. *)
Record decoded c c' φ p p' (pages fresh : nat → list Z) b b' (others : list nat) : Prop := {
  de_taken : taken c c' φ (concat (fresh <$> seq 0 (length (reqs b))));
  de_pages : row_pages (page_size c) (λ i, pages i ++ fresh i) (next_lens (seq_lens b));
  de_batch : b' = set_reqs (reqs b') b;
  de_cores : core <$> reqs b' = core <$> reqs b;
  de_rows : holds_rows (page_size c) p' (λ i, pages i ++ fresh i) (reqs b') (next_lens (seq_lens b));
  de_pool : rows_ready p' (core <$> reqs b') others;
  de_other : ∀ j, j ∉ rows_of (core <$> reqs b) → req_to_token p' !! j = req_to_token p !! j;
  de_width : max_context_len p' = max_context_len p;
}.

Lemma alloc_for_decode_spec dcp b c φ p pages others : ready c φ → aux_grows p →
  decode_ready (page_size c) p pages b others →
  if (total_free c <? Z.of_nat (decode_need (page_size c) (seq_lens b) * page_size c))%Z
  then alloc_for_decode native_hash salt_digest dcp 1 b c p = Raise RuntimeError
  else ∃ fresh c' p' b' out, alloc_for_decode native_hash salt_digest dcp 1 b c p = Ok (c', p', b', Ok out)
      ∧ decoded c c' φ p p' pages fresh b b' others.
Proof.
  intros Hr Ha Hd. unfold alloc_for_decode. rewrite (alloc_page_size_eq dcp c (rd_mem _ _ Hr)).
  rewrite (gather_last_ok _ _ _ _ _ Hd), Nat.mul_1_r. fold (next_lens (seq_lens b)). cbn [res_bind].
  pose proof (decode_slots_spec native_hash salt_digest Hnative c φ (seq_lens b) pages Hr (dr_pages _ _ _ _ _ Hd)) as Hs.
  cbv zeta in Hs. unfold decode_slots in Hs. destruct (total_free c <? _)%Z; [by rewrite Hs|].
  destruct Hs as (fresh&c'&->&Htk&Hpg). res_step. rewrite (dr_enc _ _ _ _ _ Hd).
  pose proof (dr_len _ _ _ _ _ Hd) as Hlen. pose proof (ready_idx_len _ _ _ _ _ Hd) as Hil.
  set (out := (λ i, row_slot (page_size c) (pages i ++ fresh i) (seq_lens b !!! i)) <$> seq 0 (length (seq_lens b))).
  assert (length out = length (seq_lens b)) as Hol by (unfold out; by rewrite length_fmap, length_seq).
  rewrite write_at_ok; [|lia..|].
  2:{ apply Forall_lookup. intros i [j s] Hi. apply lookup_zip_with_Some in Hi as (j'&s'&[= -> ->]&Hj&Hsi).
      destruct (lookup_lt_is_Some_2 (reqs b) i) as [r Hri]; [rewrite <-Hil; by eapply lookup_lt_Some|].
      destruct (ready_row _ _ _ _ _ Hd i r Hri) as (j''&row&_&Hj'&Hrow&Hl&Hpos&_).
      rewrite (list_lookup_total_correct _ _ _ Hsi) in Hpos. exists row. assert (j'' = j') as -> by congruence. split; [done|lia]. }
  res_step. set (p2 := set_table _ p).
  destruct (aux_grows_ok p2 (req_pool_indices b) (next_lens (seq_lens b))) as (p3&->&E1&E2&E3&E4&E5).
  { intros x idx lens Hx. by apply Ha. }
  destruct (grow_allocated_ok _ _ _ _ _ Hd) as (rs'&->&Hcores&Hrs). res_step.
  exists fresh, c', p3, (set_reqs rs' b), out. split; [done|]. split; try done.
  - by rewrite <-Hlen.
  - cbn [set_reqs reqs]. intros i r' Hi. destruct (Hrs i r' Hi) as (r&Hri&Hcr&Hk).
    destruct (ready_row _ _ _ _ _ Hd i r Hri) as (j&row&Hj&Hij&Hrow&Hl&Hpos&Ht&_).
    assert (i < length (seq_lens b)) as Hib by (rewrite Hlen; by eapply lookup_lt_Some).
    exists j, (<[seq_lens b !!! i := row_slot (page_size c) (pages i ++ fresh i) (seq_lens b !!! i)]> row).
    rewrite next_lens_at by done. split_and!; [by rewrite Hcr| | |done].
    + rewrite E1. unfold p2. cbn [set_table req_to_token].
      erewrite (set_points_lookup _ _ _ _ i j); [by rewrite Hrow| |done|by apply list_lookup_lookup_total_lt|].
      * rewrite (dr_idx _ _ _ _ _ Hd). destruct (dr_pool _ _ _ _ _ Hd) as [_ _ Hnd _]. by apply NoDup_app in Hnd as (?&_).
      * unfold out. by rewrite list_lookup_fmap, lookup_seq_lt.
    + apply decoded_row; [apply (in_ps _ _ (rd_inv _ _ Hr))|done|lia|]. by apply (dr_pages _ _ _ _ _ Hd).
  - cbn [set_reqs reqs]. rewrite Hcores. eapply rows_ready_same; [..|apply (dr_pool _ _ _ _ _ Hd)];
      rewrite ?E1, ?E2, ?E3, ?E4; try done. apply length_set_points.
  - intros j Hj. rewrite E1. unfold p2. cbn [set_table req_to_token]. apply set_points_other. intros col v Hin.
    apply Hj. rewrite <-(dr_idx _ _ _ _ _ Hd). eapply elem_of_zip_l. by eapply elem_of_zip_l.
Qed.
End Step.
