(* ===== verification/SwaWindow.v ===== *)
(** * Sliding windows and the chunk caches

    Which window slots a request gives back while it runs:
    [free_swa_out_of_window_slots] (src/python/sglang/srt/mem_cache/common.py) and
    [ScheduleBatch.maybe_evict_swa] (managers/schedule_batch.py); and what it gives back
    when it ends and no prefix is cached: [ChunkCache], [SWAChunkCache] and
    [PureSWAChunkCache] (mem_cache/chunk_cache.py).  The tree locks that
    [maybe_evict_swa] also releases belong to the radix variants and are not modelled. *)

From stdpp Require Import base tactics numbers list gmap strings.
From Stdlib Require Import ZArith Lia ZifyNat.
From S2P Require Import Prelude RadixKey TreeNode RadixCache Allocator Requests ReqPool RadixReq BatchAlloc SwaAlloc.

Local Open Scope nat_scope.

(** What the window code calls of an allocator. *)
Class WindowAllocator (A : Type) := {
  wa_free : list Z → A → res A;
  wa_free_swa : list Z → A → res A;
  wa_group_begin : A → A;
  wa_group_end : A → res A;
}.

#[export] Instance swa_window : WindowAllocator SwaAlloc := {|
  wa_free := Swa.free;
  wa_free_swa := Swa.free_swa;
  wa_group_begin := Swa.free_group_begin;
  wa_group_end := Swa.free_group_end;
|}.

#[export] Instance pure_window : WindowAllocator PureSwa.PureAlloc := {|
  wa_free := PureSwa.free;
  wa_free_swa l a := Ok (PureSwa.free_swa l a);
  wa_group_begin := PureSwa.free_group_begin;
  wa_group_end := PureSwa.free_group_end;
|}.

(** A request with the fields that only sliding windows use. *)
Record SwaReq := mkSwaReq {
  sreq : BatchReq;
  swa_evict_floor : nat;
  decode_batch_idx : nat;
  extend_batch_idx : nat;
}.

Definition set_evicted (e : nat) (r : SwaReq) : SwaReq :=
  match kv (sreq r) with
  | Some k => mkSwaReq (set_kv (Some (mkKv (kv_allocated_len k) e)) (sreq r)) (swa_evict_floor r)
                (decode_batch_idx r) (extend_batch_idx r)
  | None => r
  end.

Inductive forward_mode := DECODE | EXTEND | OTHER.

Section Window.
Context {A : Type} `{!WindowAllocator A} {X : Type} `{!AuxCache X}.
Implicit Types (a : A) (p : ReqToTokenPool X) (r : SwaReq).

(** The first position that may be evicted. *)
Definition evict_floor (page_size : nat) r : nat :=
  let prot := Req.cache_protected_len (core (sreq r)) in
  let floor := max prot (swa_evict_floor r) in
  if (1 <? page_size) && (prot <? floor) then (floor + page_size - 1) / page_size * page_size else floor.

Definition free_swa_out_of_window_slots r (pre_len : Z) (sliding_window_size page_size : nat)
    (is_chunk_cache : bool) (retain_floor : option Z) p a : res (SwaReq * A) :=
  match kv (sreq r) with
  | None => Ok (r, a)
  | Some k =>
      assert_ (Req.cache_protected_len (core (sreq r)) mod page_size =? 0) ;;!
      let evicted := max (swa_evicted_seqlen k) (evict_floor page_size r) in
      let evict_threshold := if is_chunk_cache then (pre_len - Z.of_nat sliding_window_size)%Z
                             else (pre_len - Z.of_nat (max sliding_window_size page_size))%Z in
      let evict_threshold := match retain_floor with
                             | Some f => if is_chunk_cache then evict_threshold else Z.min evict_threshold f
                             | None => evict_threshold
                             end in
      let new_swa_evicted := Z.to_nat (Z.max (Z.of_nat evicted) evict_threshold) in
      let new_swa_evicted := if 1 <? page_size then new_swa_evicted / page_size * page_size else new_swa_evicted in
      if evicted <? new_swa_evicted then
        let! row := req_row p (core (sreq r)) in
        let! a := wa_free_swa (pyslice row evicted new_swa_evicted) a in
        Ok (set_evicted new_swa_evicted r, a)
      else Ok (set_evicted evicted r, a)
  end.

(** The loop of [maybe_evict_swa]: [pre_lens] are the prefix lengths of the batch.  This is
    the case [release_leaf_lock = False]: the environment variable is off or, as in the
    chunk caches, the prefix cache has no [dec_swa_lock_only]. *)
Section Evict.
Context (mode : forward_mode) (supports_swa chunk_cache enable_overlap : bool) (sliding_window_size page_size : nat).
Context (eviction_interval chunked_prefill_size : Z) (retain_floor : SwaReq → option Z).

Definition evict_swa r (pre_len : Z) p a : res (SwaReq * A) :=
  free_swa_out_of_window_slots r pre_len sliding_window_size page_size chunk_cache (retain_floor r) p a.

Definition evict_one r (pre_len : option nat) p a : res (SwaReq * A) :=
  let interval := Z.max 1 eviction_interval in
  match mode with
  | DECODE =>
      let seqlen := Z.of_nat (Req.seqlen (core (sreq r))) in
      match kv (sreq r) with
      | Some k =>
          if (1 <=? decode_batch_idx r)
             && (Z.of_nat (swa_evicted_seqlen k) + interval <=? seqlen - 1 - Z.of_nat sliding_window_size)%Z
          then evict_swa r (seqlen - 1) p a else Ok (r, a)
      | None => Ok (r, a)
      end
  | EXTEND =>
      if chunk_cache then
        let! pre_len := res_of_option IndexError pre_len in
        if enable_overlap then
          if extend_batch_idx r <? 2 then Ok (r, a)
          else evict_swa r (if (0 <? chunked_prefill_size)%Z then Z.of_nat pre_len - chunked_prefill_size
                            else Z.of_nat pre_len)%Z p a
        else evict_swa r (Z.of_nat pre_len) p a
      else Ok (r, a)
  | OTHER => Ok (r, a)
  end.

Fixpoint evict_all (rs : list SwaReq) (pre_lens : list nat) p a : res (list SwaReq * A) :=
  match rs with
  | [] => Ok ([], a)
  | r :: rs =>
      let! (r, a) := evict_one r (head pre_lens) p a in
      let! (rs, a) := evict_all rs (drop 1 pre_lens) p a in
      Ok (r :: rs, a)
  end.

Definition maybe_evict_swa (rs : list SwaReq) (pre_lens : list nat) p a : res (list SwaReq * A) :=
  if supports_swa then
    let! (rs, a) := evict_all rs pre_lens p (wa_group_begin a) in
    let! a := wa_group_end a in
    Ok (rs, a)
  else Ok (rs, a).
End Evict.

(** ** The chunk caches *)

(** [ChunkCache.cache_finished_req] and, inherited, [SWAChunkCache]'s. *)
Definition chunk_cache_finished_req r (kv_len_to_handle : nat) p a : res A :=
  let! row := req_row p (core (sreq r)) in
  wa_free (pyslice row (Req.cache_protected_len (core (sreq r))) kv_len_to_handle) a.

(** [ChunkCache.cache_unfinished_req]. *)
Definition chunk_cache_unfinished_req r p : res SwaReq :=
  let! row := req_row p (core (sreq r)) in
  let k := core (sreq r) in
  let k := Req.set_prefix (Req.cache_protected_len k) (take (Req.extend_range k).2 row) (Req.last_node k) k in
  Ok (mkSwaReq (set_core k (sreq r)) (swa_evict_floor r) (decode_batch_idx r) (extend_batch_idx r)).

Definition pure_swa_cache_finished_req r (kv_len_to_handle : nat) p a : res A :=
  let! row := req_row p (core (sreq r)) in
  let kv_indices := take kv_len_to_handle row in
  let protected_len := Req.cache_protected_len (core (sreq r)) in
  let floor := swa_evict_floor r in
  match kv (sreq r) with
  | None => Raise AttributeError
  | Some k =>
      let evicted_seqlen := swa_evicted_seqlen k in
      if floor <? evicted_seqlen then
        let parts := (if protected_len <? floor then [pyslice kv_indices protected_len floor] else [])
          ++ (if evicted_seqlen <? kv_len_to_handle
              then [pyslice kv_indices (max evicted_seqlen protected_len) kv_len_to_handle] else []) in
        match parts with [] => Ok a | _ => wa_free (concat parts) a end
      else wa_free (drop protected_len kv_indices) a
  end.

End Window.
