(* ===== verification/SwaPure.v ===== *)
(** * Requests of models with sliding-window layers only

    One pool and no translation table: nothing but the bookkeeping of
    [PureSWAChunkCache] prevents a slot that left the window from being released again
    when the request ends. *)

From stdpp Require Import base tactics numbers list gmap sorting strings.
From Stdlib Require Import ZArith Lia ZifyNat.
From S2P Require Import Prelude RadixKey TreeNode RadixCache Allocator AllocFree AllocCorrect PoolAlloc.
From S2P Require Import Requests ReqPool RadixReq BatchAlloc SwaAlloc SwaInv SwaWindow.

Local Open Scope nat_scope.

Definition pure_ok (a : PureSwa.PureAlloc) : Prop :=
  sub_ok (PureSwa.pool a) ∧ ps (PureSwa.pool a) = 1 ∧ PureSwa.pure_not_in_group a = true.

(** [a'] is [a] with the slots [l] free. *)
Definition given_back (l : list Z) (a a' : PureSwa.PureAlloc) : Prop :=
  pure_ok a' ∧ num_pages (PureSwa.pool a') = num_pages (PureSwa.pool a)
  ∧ held (PureSwa.pool a') ≡ₚ l ++ held (PureSwa.pool a).

Lemma filter_positive n l : in_pool n l → List.filter (λ x, 0 <? x)%Z l = l.
Proof.
  intros [_ Hr]. induction l as [|x l IH]; [done|]. cbn [List.filter].
  destruct (Z.ltb_spec 0 x) as [_|Hx]; [f_equal; apply IH; intros y Hy; apply Hr; by right|].
  specialize (Hr x ltac:(by left)). lia.
Qed.

Lemma pure_free_swa l a : pure_ok a → in_pool (num_pages (PureSwa.pool a)) (l ++ held (PureSwa.pool a)) →
  given_back l a (PureSwa.free_swa l a).
Proof.
  intros (Hok&Hps&Hg) Hin. unfold PureSwa.free_swa. destruct (Nat.eqb_spec (length l) 0) as [Hz|_].
  { apply length_zero_iff_nil in Hz as ->. by split_and!. }
  rewrite Hg, (filter_positive (num_pages (PureSwa.pool a))) by (by apply in_pool_app in Hin as (?&_)).
  pose proof (sub_free_spec l (PureSwa.pool a) Hok) as Hs. unfold sub_free, freed_pages in Hs. rewrite Hps in Hs.
  cbn [Nat.eqb] in Hs. destruct (Hs ltac:(lia) Hin) as (?&((E1&E2&_)&_)&?).
  unfold given_back, pure_ok. cbn [PureSwa.pool PureSwa.pure_not_in_group]. rewrite E1, Hps. by split_and!.
Qed.

Lemma pure_free l a : pure_ok a → in_pool (num_pages (PureSwa.pool a)) (l ++ held (PureSwa.pool a)) →
  ∃ a', PureSwa.free l a = Ok a' ∧ given_back l a a'.
Proof.
  intros Hok Hin. pose proof (pure_free_swa l a Hok Hin) as Hs. unfold PureSwa.free.
  destruct (Nat.eqb_spec (length l) 0) as [Hz|_].
  { apply length_zero_iff_nil in Hz as ->. by exists a. }
  exists (PureSwa.free_swa l a). split; [|done]. destruct Hs as ((Hok'&_)&_).
  unfold PureSwa.available_size, assert_. by rewrite (proj2 (Nat.leb_le _ _)) by (by apply available_le).
Qed.

Lemma given_back_trans l1 l2 a a1 a2 : given_back l1 a a1 → given_back l2 a1 a2 → given_back (l1 ++ l2) a a2.
Proof.
  intros (_&E1&H1) (?&E2&H2). split_and!; [done|congruence|]. rewrite H2, H1, app_assoc. by rewrite (Permutation_app_comm l2).
Qed.

(** ** One request *)

Section Request.
Context {X : Type} `{!AuxCache X} (window : nat) (p : ReqToTokenPool X) (row : list Z) (len : nat).

(** Evictions at the given lengths, one after the other. *)
Fixpoint evictions (pre_lens : list Z) (r : SwaReq) (a : PureSwa.PureAlloc) : res (SwaReq * PureSwa.PureAlloc) :=
  match pre_lens with
  | [] => Ok (r, a)
  | pre_len :: pre_lens =>
      let! (r, a) := free_swa_out_of_window_slots r pre_len window 1 true None p a in
      evictions pre_lens r a
  end.

Local Abbreviation prot r := (Req.cache_protected_len (core (sreq r))).
Local Abbreviation shield r := (max (prot r) (swa_evict_floor r)).

(** The request [r], of which the slots between the shielded ones and [e] were evicted. *)
Record pure_req (a0 : PureSwa.PureAlloc) (r : SwaReq) (e : nat) (a : PureSwa.PureAlloc) : Prop := mkPureReq {
  pr_row : req_row p (core (sreq r)) = Ok row;
  pr_kv : swa_evicted_seqlen <$> kv (sreq r) = Some e;
  pr_prot : prot r ≤ len;
  pr_evicted : (e = 0 ∨ shield r ≤ e) ∧ (e ≤ shield r ∨ e ≤ len);
  pr_len : len ≤ length row;
  pr_live : in_pool (num_pages (PureSwa.pool a0)) (pyslice row (prot r) len ++ held (PureSwa.pool a0));
  pr_back : given_back (pyslice row (shield r) e) a0 a;
}.

(** Adjacent slices. *)
Lemma pyslice_app {B} (t : list B) b c d : b ≤ c → c ≤ d → pyslice t b c ++ pyslice t c d = pyslice t b d.
Proof.
  intros Hbc Hcd. unfold pyslice. rewrite <-(take_drop (c - b) (take (d - b) (drop b t))).
  rewrite take_take, Nat.min_l by lia. f_equal. rewrite skipn_firstn_comm, drop_drop. f_equal; [lia|f_equal; lia].
Qed.

Lemma pyslice_empty {B} (t : list B) b c : c ≤ b → pyslice t b c = [].
Proof. intros H. unfold pyslice. by replace (c - b) with 0 by lia. Qed.

Lemma pyslice_sublist {B} (t : list B) b c b' c' : b' ≤ b → c ≤ c' → pyslice t b c `sublist_of` pyslice t b' c'.
Proof.
  intros Hb Hc. destruct (decide (b ≤ c)); [|rewrite pyslice_empty by lia; apply sublist_nil_l].
  rewrite <-(pyslice_app t b' b c'), <-(pyslice_app t b c c') by lia. apply sublist_inserts_l, sublist_inserts_r. done.
Qed.

Lemma in_pool_submseteq k l l' : in_pool k l → l' ⊆+ l → in_pool k l'.
Proof.
  intros Hin [l2 Hp]%submseteq_Permutation. rewrite Hp in Hin. by apply in_pool_app in Hin as (?&_).
Qed.

(** The slots between two positions of the live part are not free yet. *)
Lemma live_part a0 r e a b c : pure_req a0 r e a → shield r ≤ b → e ≤ b → c ≤ len →
  in_pool (num_pages (PureSwa.pool a)) (pyslice row b c ++ held (PureSwa.pool a)).
Proof using.
  intros [_ _ Hp [_ Hel] _ Hl (_&->&Hh)] Hsb Heb Hc. rewrite Hh. eapply in_pool_submseteq; [done|].
  rewrite app_assoc. apply submseteq_app; [|done]. rewrite Permutation_app_comm. apply sublist_submseteq.
  destruct (decide (e ≤ shield r)) as [He|He].
  - rewrite (pyslice_empty row (shield r) e) by done. apply pyslice_sublist; lia.
  - destruct (decide (b < c)) as [Hbc|].
    + etrans; [apply sublist_app; [done|apply (pyslice_sublist row b c e c)]; lia|].
      rewrite pyslice_app by lia. apply pyslice_sublist; lia.
    + rewrite (pyslice_empty row b c), app_nil_r by lia. apply pyslice_sublist; lia.
Qed.

Lemma evict_step a0 r e a pre_len : pure_req a0 r e a → (pre_len ≤ Z.of_nat len)%Z →
  ∃ r' e' a', free_swa_out_of_window_slots r pre_len window 1 true None p a = Ok (r', a') ∧ pure_req a0 r' e' a'
    ∧ core (sreq r') = core (sreq r) ∧ swa_evict_floor r' = swa_evict_floor r.
Proof using.
  intros Hr Hpre. pose proof Hr as [Hrow Hkv Hp [He1 He2] Hlen Hl Hb]. unfold free_swa_out_of_window_slots.
  destruct (kv (sreq r)) as [k|] eqn:Ek; [|done]. injection Hkv as Hk. rewrite Nat.mod_1_r, Hk. cbn [Nat.eqb assert_ res_bind].
  assert (evict_floor 1 r = shield r) as -> by done. set (e0 := max e (shield r)). set (e1 := Z.to_nat _). change (1 <? 1) with false. cbv iota.
  assert (∀ x, core (sreq (set_evicted x r)) = core (sreq r) ∧ swa_evict_floor (set_evicted x r) = swa_evict_floor r
    ∧ swa_evicted_seqlen <$> kv (sreq (set_evicted x r)) = Some x) as Hset by (intros x; unfold set_evicted; by rewrite Ek).
  assert (∀ x a', e0 ≤ x → (x ≤ shield r ∨ x ≤ len) → given_back (pyslice row (shield r) x) a0 a' → pure_req a0 (set_evicted x r) x a') as Hnew.
  { intros x a' Hx Hxl Hga. destruct (Hset x) as (E1&E2&E3). constructor; rewrite ?E1, ?E2; try done. split; [right; lia|done]. }
  assert (pyslice row (shield r) e0 = pyslice row (shield r) e) as Ee0.
  { unfold e0. destruct (decide (e ≤ shield r)); [rewrite !pyslice_empty by lia; done|f_equal; lia]. }
  destruct (Nat.ltb_spec e0 e1) as [Hlt|Hge].
  - rewrite Hrow. res_step. cbn [wa_free_swa pure_window]. assert (e1 ≤ len) as Hel by (unfold e1 in *; lia).
    pose proof (pure_free_swa (pyslice row e0 e1) a (proj1 Hb) (live_part a0 r e a e0 e1 Hr ltac:(lia) ltac:(lia) Hel)) as Hf.
    res_step. exists (set_evicted e1 r), e1, (PureSwa.free_swa (pyslice row e0 e1) a). destruct (Hset e1) as (?&?&_).
    split_and!; [done| |done..]. apply Hnew; [lia|by right|]. rewrite <-(pyslice_app row (shield r) e0 e1) by lia.
    rewrite Ee0. by eapply given_back_trans.
  - exists (set_evicted e0 r), e0, a. destruct (Hset e0) as (?&?&_). split_and!; [done| |done..].
    apply Hnew; [lia|unfold e0; lia|by rewrite Ee0].
Qed.

Lemma evictions_spec pre_lens a0 r e a : pure_req a0 r e a → Forall (λ x, (x ≤ Z.of_nat len)%Z) pre_lens →
  ∃ r' e' a', evictions pre_lens r a = Ok (r', a') ∧ pure_req a0 r' e' a'
    ∧ core (sreq r') = core (sreq r) ∧ swa_evict_floor r' = swa_evict_floor r.
Proof using.
  revert r e a. induction pre_lens as [|x l IH]; intros r e a Hr Hl; [by exists r, e, a|].
  apply Forall_cons in Hl as [Hx Hl]. cbn [evictions].
  destruct (evict_step a0 r e a x Hr Hx) as (r1&e1&a1&->&Hr1&E1&E2). res_step.
  destruct (IH r1 e1 a1 Hr1 Hl) as (r'&e'&a'&->&?&?&?). exists r', e', a'. split_and!; congruence || done.
Qed.

(** The end of the request gives back what is left. *)
Lemma finish_spec a0 r e a : pure_req a0 r e a →
  ∃ a', pure_swa_cache_finished_req r len p a = Ok a' ∧ given_back (pyslice row (prot r) len) a0 a'.
Proof using.
  intros Hr. pose proof Hr as [Hrow Hkv Hp [He1 He2] Hlen Hl Hb]. unfold pure_swa_cache_finished_req. rewrite Hrow. res_step.
  destruct (kv (sreq r)) as [k|] eqn:Ek; [|done]. injection Hkv as ->.
  assert (∀ l, l ++ pyslice row (shield r) e ≡ₚ pyslice row (prot r) len →
    ∃ a', wa_free l a = Ok a' ∧ given_back (pyslice row (prot r) len) a0 a') as Hfin.
  { intros l Hperm. destruct Hb as (Hok&E&Hh).
    destruct (pure_free l a Hok) as (a'&Hf&Hg); [by rewrite E, Hh, app_assoc, Hperm|]. exists a'. split; [done|].
    destruct (given_back_trans _ _ a0 a a' (conj Hok (conj E Hh)) Hg) as (?&?&Hh'). split_and!; try done.
    rewrite Hh'. by rewrite (Permutation_app_comm (pyslice _ _ _) l), Hperm. }
  assert (∀ b c, c ≤ len → pyslice (take len row) b c = pyslice row b c) as Ht by (intros; by apply pyslice_take).
  destruct (Nat.ltb_spec (swa_evict_floor r) e) as [Hfe|Hfe]; cycle 1.
  { apply Hfin. rewrite (pyslice_empty row (shield r) e), app_nil_r by lia.
    by rewrite <-pyslice_drop_take by lia. }
  assert (shield r ≤ e) by lia. destruct (Nat.ltb_spec (prot r) (swa_evict_floor r)) as [Hpf|Hpf].
  - assert (shield r = swa_evict_floor r) as Es by lia. rewrite !Ht by lia. rewrite Es in *.
    destruct (Nat.ltb_spec e len) as [Hel|Hel]; cbn [app concat]; apply Hfin; rewrite ?app_nil_r.
    + replace (max e (prot r)) with e by lia. rewrite <-(pyslice_app row (prot r) (swa_evict_floor r) len), <-(pyslice_app row (swa_evict_floor r) e len) by lia.
      rewrite <-app_assoc. by rewrite (Permutation_app_comm (pyslice row e len)).
    + replace e with len by lia. by rewrite pyslice_app by lia.
  - assert (shield r = prot r) as Es by lia. rewrite Es in *. cbn [app].
    destruct (Nat.ltb_spec e len) as [Hel|Hel]; cbn [app concat].
    + apply Hfin. rewrite app_nil_r, Ht by lia. replace (max e (prot r)) with e by lia.
      rewrite (Permutation_app_comm (pyslice row e len)). by rewrite pyslice_app by lia.
    + assert (e = len) as -> by lia. by exists a.
Qed.
End Request.

(** C28: with sliding-window layers only, each slot of a request goes back to the pool
    exactly once: whatever evictions behind the window happen while it runs, and
    whether or not its prompt is shielded by [swa_evict_floor], every call returns and
    after [PureSWAChunkCache.cache_finished_req] exactly the slots behind its protected
    prefix have become free. *)
Theorem pure_swa_lifecycle {X : Type} `{!AuxCache X} (window len : nat) (p : ReqToTokenPool X) (row : list Z) (r : SwaReq)
    (k : ReqKvInfo) (a : PureSwa.PureAlloc) (pre_lens : list Z)
    (Hok : pure_ok a) (Hrow : req_row p (core (sreq r)) = Ok row) (Hkv : kv (sreq r) = Some k)
    (Hstart : swa_evicted_seqlen k = 0) (Hlen : Req.cache_protected_len (core (sreq r)) ≤ len ≤ length row)
    (Hlive : in_pool (num_pages (PureSwa.pool a))
               (pyslice row (Req.cache_protected_len (core (sreq r))) len ++ held (PureSwa.pool a)))
    (Hpre : Forall (λ x, (x ≤ Z.of_nat len)%Z) pre_lens) :
  ∃ r' a1 a', evictions window p pre_lens r a = Ok (r', a1)
    ∧ pure_swa_cache_finished_req r' len p a1 = Ok a' ∧ pure_ok a'
    ∧ held (PureSwa.pool a') ≡ₚ pyslice row (Req.cache_protected_len (core (sreq r))) len ++ held (PureSwa.pool a).
Proof.
  assert (pure_req p row len a r 0 a) as Hr.
  { constructor; try (done || lia). by rewrite Hkv; cbn; rewrite Hstart. }
  destruct (evictions_spec window p row len pre_lens a r 0 a Hr Hpre) as (r'&e'&a1&He&Hr'&Ec&_).
  destruct (finish_spec p row len a r' e' a1 Hr') as (a'&Hf&Hb&_&Hh). rewrite Ec in Hh. by exists r', a1, a'.
Qed.

(** Five tokens, the first two of them shielded, evicted twice behind a window of one. *)
#[local] Existing Instance no_aux.
Definition pure_core : Req.Req :=
  Req.mkReq (Some 1) 0 5 0 [1; 2; 3; 4; 5]%Z [] [] false (0, 5) None None None [] None false (-1).
Definition pure_demo : SwaReq := mkSwaReq (mkBatchReq pure_core (Some (mkKv 5 0)) [] 0 false false 8) 2 1 1.
Definition pure_table : ReqToTokenPool unit := mkPool 1 6 [replicate 6 0%Z; [1; 2; 3; 4; 5; 0]%Z] [] [0; 0]%Z None.
Definition pure_pool : PureSwa.PureAlloc := PureSwa.mkPure (Token.alloc 5 (Token.init 8 false)).2 true [].

Lemma pure_swa_lifecycle_witness : ∃ r' a1 a', evictions 1 pure_table [4; 5]%Z pure_demo pure_pool = Ok (r', a1)
  ∧ pure_swa_cache_finished_req r' 5 pure_table a1 = Ok a' ∧ pure_ok a'
  ∧ held (PureSwa.pool a') ≡ₚ [1; 2; 3; 4; 5; 6; 7; 8]%Z.
Proof.
  apply (pure_swa_lifecycle 1 5 pure_table [1; 2; 3; 4; 5; 0]%Z pure_demo (mkKv 5 0) pure_pool [4; 5]%Z).
  - split; [split_and!|split; reflexivity].
    + split; [split|reflexivity].
      * apply (bool_decide_eq_true_1 (NoDup _)). vm_compute. reflexivity.
      * apply Forall_forall. vm_compute. repeat constructor; discriminate.
    + reflexivity.
    + vm_compute. lia.
  - reflexivity.
  - reflexivity.
  - reflexivity.
  - simpl. lia.
  - split; [apply (bool_decide_eq_true_1 (NoDup _)); vm_compute; reflexivity|].
    apply Forall_forall. vm_compute. repeat constructor; discriminate.
  - repeat constructor; discriminate.
Defined.
