(* ===== verification/SwaLife.v ===== *)
(** * The life of a request under a sliding window

    Window slots are released behind the window while the request runs, and the rest
    with its full slots at the end: nothing inside the window is touched, and nothing is
    lost or released twice. *)

From stdpp Require Import base tactics numbers list gmap sorting strings.
From Stdlib Require Import ZArith Lia ZifyNat.
From S2P Require Import Prelude RadixKey TreeNode RadixCache Allocator AllocFree AllocCorrect AllocKernel AllocExtend PoolAlloc.
From S2P Require Import Requests ReqPool RadixReq BatchAlloc SwaAlloc SwaInv SwaFree SwaGrow SwaCorrect SwaWindow.

Local Open Scope nat_scope.

(** ** Rows of pages *)

(** The first [len] slots of the request's row lie in the pages [row]. *)
Definition holds_row {X} (n : nat) (p : ReqToTokenPool X) (r : SwaReq) (row : list Z) (len : nat) : Prop :=
  ∃ slots, req_row p (core (sreq r)) = Ok slots ∧ take len slots = kv_row n row 0 len ∧ len ≤ length row * n.

Lemma holds_row_slice {X} n (p : ReqToTokenPool X) r row len slots b e : 0 < n →
  req_row p (core (sreq r)) = Ok slots → take len slots = kv_row n row 0 len → e ≤ len →
  pyslice slots b e = kv_row n row b (e - b).
Proof.
  intros Hn _ Ht He. rewrite <-(pyslice_take slots b e len He), Ht. unfold pyslice. rewrite kv_row_drop.
  destruct (decide (b ≤ e)).
  - by rewrite kv_row_take by lia.
  - replace (e - b) with 0 by lia. done.
Qed.

Section Pages.
Context (n : nat) (Hn : 0 < n) (row : list Z) (Hnd : NoDup row).

(** Positions of the same row lie in the same page exactly when their page indices agree. *)
Lemma page_of_position q b k : b mod n = 0 → (b + k) mod n = 0 → b + k ≤ length row * n → q < length row * n →
  (row_slot n row q / Z.of_nat n)%Z ∈ Paged.page_ids n (kv_row n row b k) ↔ b ≤ q < b + k.
Proof using Hn Hnd.
  intros Hb Hk Hle Hq. rewrite row_slot_page by done. rewrite page_ids_kv_row by done. rewrite list_elem_of_fmap.
  pose proof (Nat.div_mod_eq b n) as Eb. pose proof (Nat.div_mod_eq (b + k) n) as Ek.
  pose proof (Nat.div_mod_eq q n) as Eq. pose proof (Nat.mod_upper_bound q n ltac:(lia)) as Uq. split.
  - intros (q'&E&Hq'%elem_of_seq). pose proof (Nat.div_mod_eq q' n) as Eq'. pose proof (Nat.mod_upper_bound q' n ltac:(lia)).
    assert (b / n ≤ q' / n < (b + k) / n) as Hd.
    { split; [apply Nat.Div0.div_le_mono; lia|apply Nat.Div0.div_lt_upper_bound; lia]. }
    assert (q / n = q' / n) as E2; [|rewrite <-E2 in Hd; clear Eq' E; nia].
    apply (NoDup_lookup row _ _ (row !!! (q / n)) Hnd); [|rewrite E]; apply list_lookup_lookup_total_lt; nia.
  - intros Hbq. exists q. split; [done|]. apply elem_of_seq. lia.
Qed.

Lemma kv_row_valid a b k : page_size a = n → b + k ≤ length row * n →
  (∀ f, f ∈ row → (0 ≤ f ≤ Z.of_nat (num_pages (full_attn_allocator a)))%Z) → slots_valid a (kv_row n row b k).
Proof using Hn.
  intros E Hle Hr x Hx. apply list_elem_of_fmap in Hx as (q&->&Hq%elem_of_seq). rewrite E, row_slot_page by done.
  apply Hr, list_elem_of_lookup_total_2. apply Nat.Div0.div_lt_upper_bound. lia.
Qed.

Lemma NoDup_kv_row_1 b k : n = 1 → b + k ≤ length row * n → NoDup (kv_row n row b k).
Proof using Hn Hnd.
  intros E Hle. rewrite E in *. rewrite kv_row_1 by lia. by apply NoDup_pyslice.
Qed.
End Pages.

(** ** Behind the window *)

(** Where [free_swa_out_of_window_slots] starts, and the position it evicts to. *)
Definition evict_start (n : nat) (r : SwaReq) (k : ReqKvInfo) : nat := max (swa_evicted_seqlen k) (evict_floor n r).
Definition evict_to (n window : nat) (chunk : bool) (retain : option Z) (r : SwaReq) (k : ReqKvInfo) (pre_len : Z) : nat :=
  let keep := if chunk then window else max window n in
  let threshold := (pre_len - Z.of_nat keep)%Z in
  let threshold := match retain with Some f => if chunk then threshold else Z.min threshold f | None => threshold end in
  let e := Z.to_nat (Z.max (Z.of_nat (evict_start n r k)) threshold) in
  max (evict_start n r k) (e / n * n).

Lemma evict_floor_aligned n r : 0 < n → Req.cache_protected_len (core (sreq r)) mod n = 0 →
  evict_floor n r mod n = 0 ∧ Req.cache_protected_len (core (sreq r)) ≤ evict_floor n r.
Proof.
  intros Hn Hp. unfold evict_floor. set (prot := Req.cache_protected_len _) in *. set (fl := max prot (swa_evict_floor r)).
  pose proof (npages_bounds n Hn fl) as Hb. unfold npages in Hb.
  destruct (Nat.ltb_spec 1 n); cbn [andb]; [|split; [replace n with 1 by lia; apply Nat.mod_1_r|lia]].
  destruct (Nat.ltb_spec prot fl); [|split; [by replace fl with prot by lia|lia]].
  split; [apply Nat.Div0.mod_mul|lia].
Qed.

Section EvictTo.
Context (n window : nat) (chunk : bool) (retain : option Z) (r : SwaReq) (k : ReqKvInfo) (pre_len : Z).
Context (Hn : 0 < n) (Hprot : Req.cache_protected_len (core (sreq r)) mod n = 0) (Hev : swa_evicted_seqlen k mod n = 0).
Local Abbreviation e0 := (evict_start n r k).
Local Abbreviation e1 := (evict_to n window chunk retain r k pre_len).

Lemma evict_start_aligned : e0 mod n = 0.
Proof using Hn Hprot Hev.
  unfold evict_start. destruct (evict_floor_aligned n r Hn Hprot) as [Hf _].
  destruct (Nat.max_spec (swa_evicted_seqlen k) (evict_floor n r)) as [[_ ->]|[_ ->]]; done.
Qed.

Lemma evict_to_aligned : e1 mod n = 0 ∧ e0 ≤ e1.
Proof using Hn Hprot Hev.
  unfold evict_to. set (e := Z.to_nat _). split; [|lia]. pose proof evict_start_aligned.
  destruct (Nat.max_spec e0 (e / n * n)) as [[_ ->]|[_ ->]]; [apply Nat.Div0.mod_mul|done].
Qed.

(** Nothing at or after [pre_len - window] is evicted. *)
Lemma evict_to_window : e0 < e1 → (Z.of_nat e1 ≤ pre_len - Z.of_nat window)%Z.
Proof using Hn Hprot Hev.
  unfold evict_to. set (e := Z.to_nat _). intros Hlt. assert (e / n * n ≤ e) by (pose proof (Nat.Div0.mul_div_le e n); lia).
  assert (e0 < e) as He by lia. unfold e in *. destruct chunk, retain; lia.
Qed.
End EvictTo.

(** A request whose KV is in the pages [row], filled to [len]; what was evicted ends on a
    page boundary. *)
Record windowed_req {X} (p : ReqToTokenPool X) (a : SwaAlloc) (r : SwaReq) (k : ReqKvInfo) (row : list Z) (len : nat) : Prop := mkWreq {
  wr_kv : kv (sreq r) = Some k;
  wr_row : holds_row (page_size a) p r row len;
  wr_nodup : NoDup row;
  wr_pages : ∀ f, f ∈ row → (1 ≤ f ≤ Z.of_nat (num_pages (full_attn_allocator a)))%Z;
  wr_prot : Req.cache_protected_len (core (sreq r)) mod page_size a = 0;
  wr_evicted : swa_evicted_seqlen k mod page_size a = 0;
}.

Lemma windowed_req_same {X} (p : ReqToTokenPool X) a a' r k row len : same_swa a a' →
  windowed_req p a r k row len → windowed_req p a' r k row len.
Proof. intros (E&((_&En&_)&_)&_) [??????]. by constructor; rewrite ?E, ?En. Qed.

Lemma windowed_req_evict {X} (p : ReqToTokenPool X) a r k row len e : e mod page_size a = 0 →
  windowed_req p a r k row len →
  windowed_req p a (set_evicted e r) (mkKv (kv_allocated_len k) e) row len
  ∧ core (sreq (set_evicted e r)) = core (sreq r) ∧ swa_evict_floor (set_evicted e r) = swa_evict_floor r.
Proof.
  intros He [Hk Hr ????]. unfold set_evicted. rewrite Hk. split; [|done].
  constructor; done.
Qed.

Section Evict.
Context {X : Type} `{!AuxCache X}.
Context (m : list (Z * Z)) (a : SwaAlloc) (H : hybrid m a).
Context (p : ReqToTokenPool X) (r : SwaReq) (k : ReqKvInfo) (row : list Z) (len : nat) (Hr : windowed_req p a r k row len).
Context (window : nat) (chunk : bool) (retain : option Z).
Local Abbreviation n := (page_size a).

Lemma evict_hybrid pre_len : (pre_len ≤ Z.of_nat len)%Z →
  let e0 := evict_start n r k in
  let e1 := evict_to n window chunk retain r k pre_len in
  ∃ a', free_swa_out_of_window_slots r pre_len window n chunk retain p a = Ok (set_evicted e1 r, a')
    ∧ hybrid (keep n (kv_row n row e0 (e1 - e0)) m) a' ∧ same_swa a a'
    ∧ full_attn_allocator a' = full_attn_allocator a ∧ cleared (kv_row n row e0 (e1 - e0)) a a'
    ∧ not_in_free_group a' = not_in_free_group a ∧ swa_free_group_full a' = swa_free_group_full a
    ∧ (not_in_free_group a = true → swa_free_group a' = swa_free_group a).
Proof using H Hr.
  intros Hpre e0 e1. pose proof (hy_ps m a H) as Hn. destruct Hr as [Hk (slots&Hs&Ht&Hlen) Hnd Hp Hprot Hev].
  destruct (evict_to_aligned n window chunk retain r k pre_len Hn Hprot Hev) as [Ha1 H01].
  pose proof (evict_to_window n window chunk retain r k pre_len Hn Hprot Hev) as Hwin. fold e0 e1 in H01, Hwin, Ha1.
  assert (∀ b j, b + j ≤ len → slots_valid a (kv_row n row b j) ∧ (n = 1 → NoDup (kv_row n row b j))) as Hval.
  { intros b j Hb. split; [|intros ?; apply NoDup_kv_row_1; (done || lia)].
    apply kv_row_valid; try done; [lia|]. intros f Hf. apply Hp in Hf. lia. }
  unfold free_swa_out_of_window_slots. rewrite Hk, Hprot. cbn [Nat.eqb assert_ res_bind].
  change (max (swa_evicted_seqlen k) (evict_floor n r)) with e0. cbv zeta.
  set (e := Z.to_nat _). set (e' := if 1 <? n then e / n * n else e).
  assert (e1 = max e0 (e / n * n)) as E1 by (unfold e1, evict_to, e; fold e0; by destruct chunk).
  assert (e' = e / n * n) as E'.
  { unfold e'. destruct (Nat.ltb_spec 1 n); [done|]. replace n with 1 by lia. rewrite Nat.div_1_r. lia. }
  rewrite E'. destruct (Nat.ltb_spec e0 (e / n * n)) as [Hlt|Hge].
  - replace (e / n * n) with e1 in * by lia. rewrite Hs. res_step.
    rewrite (holds_row_slice n p r row len slots e0 e1 Hn Hs Ht) by lia.
    destruct (Hval e0 (e1 - e0) ltac:(lia)) as [Hv Hv']. cbn [wa_free_swa swa_window].
    destruct (free_swa_spec m a H _ Hv Hv') as (a'&->&?&?&?&?&?&?&?). res_step. by exists a'.
  - replace e1 with e0 by lia. exists a. rewrite Nat.sub_diag. split_and!; try done.
    unfold keep. rewrite filter_all; [done|]. intros. apply not_elem_of_nil.
Qed.
End Evict.
