(* ===== verification/SwaTail.v ===== *)
(** * Preallocation on a decode server

    A decode server of a disaggregated deployment receives the KV of a prompt from a
    prefill server.  Full-attention layers get all of it, window layers only the tail
    that is still inside the window: [_swa_tail_len] and [alloc_for_decode_prealloc] of
    [src/python/sglang/srt/disaggregation/decode.py] over
    [SWATokenToKVPoolAllocator.alloc_extend_swa_tail].  The DSV4 variant of the allocator
    (an NPU backend) and HiSparse are not modelled. *)

From stdpp Require Import base tactics numbers list gmap sorting strings.
From Stdlib Require Import ZArith Lia ZifyNat.
From S2P Require Import Prelude RadixKey TreeNode RadixCache Allocator AllocFree AllocCorrect AllocKernel AllocExtend PoolAlloc.
From S2P Require Import Requests ReqPool RadixReq BatchAlloc SwaAlloc SwaInv SwaFree SwaGrow SwaCorrect SwaWindow SwaPure SwaLife.

Local Open Scope nat_scope.

(** ** The model *)

(** How many of [seq_len] tokens need window slots. *)
Definition swa_tail_len (uses_tail radix : bool) (window : option Z) (page_size seq_len : nat) : nat :=
  if negb uses_tail || (seq_len =? 0) then seq_len
  else match window with
       | None => seq_len
       | Some w =>
           if (w <=? 0)%Z then seq_len
           else
             let window_start := if radix
               then Z.max 0 (Z.of_nat seq_len - 1 - Z.max w (Z.of_nat page_size))
               else Z.max 0 (Z.of_nat seq_len - w) in
             let window_start := Z.to_nat window_start / page_size * page_size in
             seq_len - window_start
       end.

(** [full_empty] and [swa_empty] are the contents of the output tensors. *)
Definition alloc_for_decode_prealloc (full_empty swa_empty : list Z) (r : BatchReq)
    (fill_len delta_len prefix_len total_prefix_len : nat) (prefix_indices : list Z) (uses_swa_tail : bool)
    (tail_len : nat) (a : SwaAlloc) : res (option (list Z) * SwaAlloc * BatchReq) :=
  let r := set_kv (Some (match kv r with
                         | None => mkKv fill_len 0
                         | Some k => mkKv fill_len (swa_evicted_seqlen k)
                         end)) r in
  if page_size a =? 1 then
    let! (kv_loc, a) := Swa.alloc delta_len a in Ok (kv_loc, a, r)
  else
    let last_loc := if 0 <? prefix_len then drop (length prefix_indices - 1) prefix_indices else [(-1)%Z] in
    if uses_swa_tail then
      let! (kv_loc, a) := Swa.alloc_extend_swa_tail full_empty swa_empty [prefix_len] [fill_len] last_loc delta_len
                            tail_len a in
      assert_ ((tail_len <=? fill_len) && ((fill_len - tail_len) mod page_size a =? 0)) ;;!
      Ok (kv_loc, a, set_kv (Some (mkKv fill_len (fill_len - tail_len))) r)
    else
      let! (kv_loc, a) := Swa.alloc_extend full_empty swa_empty [total_prefix_len] [fill_len] last_loc delta_len a in
      Ok (kv_loc, a, r).

(** ** The tail *)

(** The tail starts on a page boundary and contains the window. *)
Lemma swa_tail_len_spec radix w n seq_len : 0 < n → (0 < w)%Z → 0 < seq_len →
  let tail := swa_tail_len true radix (Some w) n seq_len in
  0 < tail ≤ seq_len ∧ (seq_len - tail) mod n = 0 ∧ (Z.min (Z.of_nat seq_len) w ≤ Z.of_nat tail)%Z.
Proof.
  intros Hn Hw Hs tail. subst tail. unfold swa_tail_len. cbn [negb orb]. destruct (Nat.eqb_spec seq_len 0); [lia|].
  destruct (Z.leb_spec w 0); [lia|]. set (s := Z.to_nat _).
  assert (s < seq_len ∧ (Z.of_nat s ≤ Z.max 0 (Z.of_nat seq_len - w))%Z) as [Hlt Hle] by (unfold s; destruct radix; lia).
  pose proof (Nat.Div0.mul_div_le s n). replace (seq_len - (seq_len - s / n * n)) with (s / n * n) by lia.
  split_and!; [lia|lia|apply Nat.Div0.mod_mul|lia].
Qed.

Lemma index_fill_same t l x : Forall (λ i, in_tensor t i ∧ at_index t i = x) l → index_fill t l x = Ok t.
Proof.
  unfold index_fill. induction 1 as [|i l [Hi Hx] _ IH]; [done|]. cbn [length replicate scatter].
  rewrite tensor_pos_ok by done. res_step. rewrite list_insert_id; [done|]. unfold at_index in Hx. rewrite <-Hx.
  apply list_lookup_lookup_total_lt. unfold in_tensor in Hi. lia.
Qed.

Section Tail.
Context (m : list (Z * Z)) (a : SwaAlloc) (H : hybrid m a).
Local Abbreviation n := (page_size a).
Context (Hps : 1 < n) (row : list Z) (pre fill tail : nat).
Context (Hrow : length row = npages n pre) (Hpre : pre mod n = 0) (Htail : 0 < tail ≤ fill - pre) (Hal : (fill - tail) mod n = 0).
Context (F W : list Z) (HF : length F = npages n fill - npages n pre) (HW : length W = npages n tail).

(** The page pairs of the tail. *)
Definition tail_pairs : list (Z * Z) := zip (drop ((fill - tail) / n - pre / n) F) W.

Lemma page_counts : ∃ c d, fill = c * n + tail ∧ pre = d * n ∧ length row = d ∧ d ≤ c ∧ length F = c - d + npages n tail
  ∧ tail_pairs = zip (drop (c - d) F) W.
Proof using Hps Hrow Hpre Htail Hal HF HW.
  exists ((fill - tail) / n), (pre / n). pose proof (Nat.div_mod_eq (fill - tail) n) as E. pose proof (Nat.div_mod_eq pre n) as E2.
  assert (pre / n ≤ (fill - tail) / n) as Hle by (apply Nat.Div0.div_le_mono; lia).
  assert (∀ k, npages n (k * n) = k) as Hk.
  { intros k. unfold npages. replace (k * n + n - 1) with ((n - 1) + k * n) by lia. rewrite Nat.div_add, Nat.div_small by lia. lia. }
  assert (npages n pre = pre / n) as Ep by (rewrite E2, Hpre, Nat.add_0_r, Nat.mul_comm, Hk at 1; done).
  assert (npages n fill = (fill - tail) / n + npages n tail) as Ef.
  { unfold npages. replace (fill + n - 1) with ((tail + n - 1) + (fill - tail) / n * n) by lia. rewrite Nat.div_add by lia. lia. }
  split_and!; (lia || done).
Qed.

Lemma tail_slots_follow x y : (x, y) ∈ zip (kv_row n (row ++ F) (fill - tail) tail) (kv_row n W 0 tail) →
  follows a (tail_pairs ++ m) x y.
Proof using Hps Hrow Hpre Htail Hal HF HW.
  intros Hin. destruct page_counts as (c&d&Ec&Ed&Er&Hc&HFl&Et). clear Hpre Hal Hrow HF. apply list_elem_of_lookup in Hin as [j Hj].
  rewrite lookup_zip_with in Hj. unfold kv_row in Hj. rewrite !list_lookup_fmap in Hj.
  destruct (decide (j < tail)) as [Hlt|]; [|rewrite !lookup_seq_ge in Hj by lia; discriminate Hj].
  rewrite !lookup_seq_lt in Hj by lia. cbn in Hj. injection Hj as <- <-.
  pose proof (Nat.mod_upper_bound j n ltac:(lia)) as Hm.
  assert (j / n < npages n tail) as Hjn.
  { apply Nat.Div0.div_lt_upper_bound. pose proof (npages_bounds n ltac:(lia) tail). lia. }
  replace (fill - tail + j) with (j + c * n) by lia.
  assert (row_slot n (row ++ F) (j + c * n) = slot n ((row ++ F) !!! (j / n + c)) (j mod n)) as ->.
  { unfold row_slot, slot. by rewrite Nat.div_add, Nat.Div0.mod_add by lia. }
  change (row_slot n W j) with (slot n (W !!! (j / n)) (j mod n)). rewrite Et. clear Et Ec Ed Htail. revert Hjn. generalize (j / n), (j mod n), Hm. clear Hm. intros t o Ho Hjn.
  exists ((row ++ F) !!! (t + c)), (W !!! t), o. split_and!; [|done..].
  apply elem_of_app. left. rewrite lookup_total_app_r by lia.
  apply (zip_at _ _ t); [rewrite lookup_drop, Er; replace (c - d + t) with (t + c - d) by lia|]; apply list_lookup_lookup_total_lt; lia.
Qed.

Lemma tail_pairs_hit p w : (p, w) ∈ tail_pairs → ∃ j, j < n ∧ slot n p j ∈ kv_row n (row ++ F) (fill - tail) tail.
Proof using Hps Hrow Hpre Htail Hal HF HW.
  intros Hin. destruct page_counts as (c&d&Ec&Ed&Er&Hc&HFl&Et). clear Hpre Hal Hrow HF. rewrite Et in Hin.
  apply list_elem_of_lookup in Hin as [t Ht]. rewrite lookup_zip_with in Ht.
  destruct (drop (c - d) F !! t) as [p'|] eqn:Ep; [|done]. cbn in Ht.
  destruct (W !! t) as [w'|] eqn:Ew; [|done]. injection Ht as -> ->. rewrite lookup_drop in Ep.
  pose proof (lookup_lt_Some _ _ _ Ew) as Hlt. rewrite HW in Hlt. pose proof (npages_bounds n ltac:(lia) tail) as Hb.
  assert (t * n < tail) as Htn by (clear -Hlt Hb; nia). clear Et Hb.
  exists 0. split; [lia|]. unfold kv_row. apply list_elem_of_fmap. exists ((c + t) * n). split.
  - unfold row_slot, slot. rewrite Nat.div_mul, Nat.Div0.mod_mul by lia. rewrite lookup_total_app_r by lia.
    f_equal. f_equal. symmetry. apply list_lookup_total_correct. rewrite <-Ep, Er. f_equal. lia.
  - apply elem_of_seq. lia.
Qed.
End Tail.

(** A slot of a page without a window page. *)
Lemma unpaired_zero m a x : hybrid m a → slots_valid a [x] → (x / Z.of_nat (page_size a))%Z ∉ m.*1 → table a x = 0%Z.
Proof.
  intros H Hv Hni. destruct (slot_of m a H x) as [Ex Hj].
  destruct (hy_table m a H _ _ (Hv x ltac:(by left)) Hj) as [E|(w&Hin&_)]; [by rewrite Ex|].
  exfalso. apply Hni. by apply (list_elem_of_fmap_2 fst) in Hin.
Qed.

(** A slot that was assigned along the page map. *)
Lemma assigned_windowed m a x : hybrid m a → follows a m x (table a x) → windowed a x.
Proof.
  intros H (g&w&j&Hin&Hj&Ex&Et). pose proof (hybrid_dom m a H g w Hin). pose proof (hybrid_img_pos m a H g w Hin).
  split; [|rewrite Et; unfold slot; nia]. intros y ->%list_elem_of_singleton. rewrite Ex, slot_page by done. lia.
Qed.

(** One row, extended in one pool. *)
Lemma extend_one a pool row pre fill k out : 1 < page_size a → sub_ok pool → ps pool = page_size a → pre ≤ fill →
  length row = npages (page_size a) pre → k = npages (page_size a) fill - npages (page_size a) pre →
  k ≤ length (held pool) → length out = fill - pre →
  ∃ F pool', alloc_extend [pre] [fill] (last_slots (page_size a) [pre] (λ _, row)) (length out) (Some k) out pool
      = (Some (kv_row (page_size a) (row ++ F) pre (fill - pre)), pool')
    ∧ held pool ≡ₚ F ++ held pool' ∧ sub_ok pool' ∧ same_sub pool pool'
    ∧ length F = npages (page_size a) fill - npages (page_size a) pre.
Proof.
  intros Hps Hok Ep Hle Hrow Hk Hkl Hout.
  destruct (pools_extend a [pre] [fill] Hps ltac:(repeat constructor; lia) k pool (λ _, row) out Hok Ep) as (fresh&pool'&E&Hh&Hok'&Hs&Hf);
    [cbn; lia|done|intros [|i] Hi; [done|cbn in Hi; lia]|cbn; lia|].
  exists (fresh 0), pool'. unfold new_slots, fresh_all in *. cbn [length seq fmap list_fmap concat] in *.
  rewrite app_nil_r in *. split_and!; [done..|]. apply (Hf 0). cbn. lia.
Qed.

Lemma tail_hybrid m a row pre fill tail full_empty swa_empty : hybrid m a → 1 < page_size a →
  length row = npages (page_size a) pre → pre mod page_size a = 0 → 0 < tail ≤ fill - pre →
  (fill - tail) mod page_size a = 0 → length full_empty = fill - pre → length swa_empty = tail →
  let n := page_size a in
  let r := Swa.alloc_extend_swa_tail full_empty swa_empty [pre] [fill] (last_slots n [pre] (λ _, row)) (fill - pre) tail a in
  if (npages n fill - npages n pre <=? length (held (full_attn_allocator a))) && (npages n tail <=? length (held (swa_attn_allocator a)))
  then ∃ F W a', r = Ok (Some (kv_row n (row ++ F) pre (fill - pre)), a')
    ∧ hybrid (tail_pairs a pre fill tail F W ++ m) a' ∧ same_swa a a'
    ∧ not_in_free_group a' = not_in_free_group a ∧ swa_free_group a' = swa_free_group a
    ∧ held (full_attn_allocator a) ≡ₚ F ++ held (full_attn_allocator a')
    ∧ held (swa_attn_allocator a) ≡ₚ W ++ held (swa_attn_allocator a')
    ∧ (∀ q, fill - tail ≤ q < fill → windowed a' (row_slot n (row ++ F) q))
    ∧ (∀ q, pre ≤ q < fill - tail → table a' (row_slot n (row ++ F) q) = 0%Z)
    ∧ (∀ x, windowed a x → table a' x = table a x)
  else r = Ok (None, a).
Proof.
  intros H Hps Hrow Hpre Htail Hal Hfe Hse n r. subst r. unfold Swa.alloc_extend_swa_tail. fold n.
  destruct (Nat.ltb_spec 1 n); [|lia]. cbn [length Nat.eqb assert_ res_bind].
  destruct (Nat.leb_spec tail (fill - pre)); [|lia]. cbn [assert_ res_bind].
  unfold Swa.new_pages_available. fold n. rewrite (held_pages _ n (hy_psf m a H)), (held_pages _ n (hy_pss m a H)) by lia.
  unfold get_num_new_pages_extend. cbn [zip_with sum_list foldr]. rewrite Nat.add_0_r.
  change ((tail + n - 1) / n) with (npages n tail). fold n.
  destruct (_ <=? length (held (full_attn_allocator a))) eqn:Ef; cbn [andb negb]; [|done].
  destruct (_ <=? length (held (swa_attn_allocator a))) eqn:Es; cbn [negb]; [|done]. apply Nat.leb_le in Ef, Es.
  destruct (extend_one a (full_attn_allocator a) row pre fill _ full_empty Hps (hy_full _ _ H) (hy_psf _ _ H) ltac:(lia) Hrow eq_refl Ef Hfe)
    as (F&f&E&Hhf&Hokf&Hsf&HF). rewrite Hfe in E. fold n in E. rewrite E. destruct (Nat.eqb_spec tail 0); [lia|].
  assert (npages n 0 = 0) as E0 by (unfold npages; apply Nat.div_small; lia).
  destruct (extend_one a (swa_attn_allocator a) [] 0 tail (npages n tail) swa_empty Hps (hy_swa _ _ H) (hy_pss _ _ H) (Nat.le_0_l _))
    as (W&s&E2&Hhs&Hoks&Hss&HW); [by fold n; rewrite E0|by fold n; rewrite E0, Nat.sub_0_r|done|by rewrite Nat.sub_0_r|].
  rewrite Hse, Nat.sub_0_r in E2. change (last_slots (page_size a) [0] _) with [(-1)%Z] in E2. rewrite E2. cbn [app] in *.
  fold n in HW. rewrite E0, Nat.sub_0_r in HW.
  rewrite !length_kv_row. replace (drop (fill - pre - tail) (kv_row n (row ++ F) pre (fill - pre))) with (kv_row n (row ++ F) (fill - tail) tail).
  2:{ clear Hpre Hal. rewrite kv_row_drop. f_equal; lia. }
  replace (take (fill - pre - tail) (kv_row n (row ++ F) pre (fill - pre))) with (kv_row n (row ++ F) pre (fill - tail - pre)).
  2:{ clear Hpre Hal. rewrite kv_row_take by lia. f_equal. lia. }
  set (M := tail_pairs a pre fill tail F W).
  destruct (page_counts a Hps row pre fill tail Hrow Hpre Htail Hal F W HF HW) as (c&d&Ec&Ed&Er&Hc&HFl&Et). fold n in Ec, Ed, HFl.
  pose proof (tail_slots_follow m a Hps row pre fill tail Hrow Hpre Htail Hal F W HF HW) as Hfol.
  pose proof (tail_pairs_hit a Hps row pre fill tail Hrow Hpre Htail Hal F W HF HW) as Hhit. fold n M in Hfol, Hhit.
  clear Hpre Hal Hrow HF. subst fill.
  assert (HMl : length (drop (c - d) F) = length W) by (rewrite length_drop; lia).
  assert (M.*1 = drop (c - d) F) as EM1 by (unfold M; rewrite Et; apply fst_zip; lia).
  assert (M.*2 = W) as EM2 by (unfold M; rewrite Et; apply snd_zip; lia).
  assert (in_pool (num_pages (full_attn_allocator a)) (F ++ m.*1 ++ held f)) as HdomF.
  { rewrite Permutation_app_swap_app, <-Hhf. apply H. }
  assert (in_pool (num_pages (full_attn_allocator a)) ((M ++ m).*1 ++ held f)) as Hdom.
  { eapply in_pool_submseteq; [exact HdomF|]. rewrite fmap_app, EM1, <-app_assoc. apply submseteq_app; [|done].
    apply sublist_submseteq, sublist_drop. }
  destruct (hybrid_assign m a H M f s Hokf Hsf Hoks Hss Hdom ltac:(by rewrite EM2) (kv_row n (row ++ F) (c * n + tail - tail) tail) (kv_row n W 0 tail))
    as (t'&Ht&Hnew&Hzip&Hold); [by rewrite !length_kv_row|apply Hfol|apply Hhit|].
  pose proof (assign_keeps m a H M f s Hdom (kv_row n (row ++ F) (c * n + tail - tail) tail) (kv_row n W 0 tail) ltac:(by rewrite !length_kv_row) Hfol t' Hnew Hzip Hold) as Hkeep.
  rewrite (set_mapping_scatter a _ _ f s t') by (done || by rewrite !length_kv_row). res_step.
  set (a1 := set_mapping t' (set_pools f s a)) in *.
  assert (∀ q, pre ≤ q < c * n → slots_valid a1 [row_slot n (row ++ F) q]
    ∧ (row_slot n (row ++ F) q / Z.of_nat n)%Z ∉ (M ++ m).*1) as Hhead.
  { intros q Hq. assert (d ≤ q / n < c) as Hd.
    { split; [apply Nat.div_le_lower_bound; lia|apply Nat.Div0.div_lt_upper_bound; lia]. }
    assert ((row ++ F) !!! (q / n) = F !!! (q / n - d)) as Eq by (rewrite lookup_total_app_r by lia; by rewrite Er).
    assert (F !! (q / n - d) = Some (F !!! (q / n - d))) as Hlk by (apply list_lookup_lookup_total_lt; lia).
    pose proof HdomF as (HF1&_&Hdis)%in_pool_app. pose proof HF1 as [HndF HrF]. split.
    - intros x ->%list_elem_of_singleton. cbn [page_size a1 set_mapping set_pools full_attn_allocator]. fold n.
      rewrite row_slot_page, Eq by lia. rewrite (proj1 (proj2 (proj1 Hsf))).
      pose proof (HrF _ (list_elem_of_lookup_2 _ _ _ Hlk)). lia.
    - rewrite row_slot_page, Eq by lia. rewrite fmap_app, EM1. intros [Hin|Hin]%elem_of_app.
      + apply list_elem_of_lookup in Hin as [t Htt]. rewrite lookup_drop in Htt.
        pose proof (NoDup_lookup F _ _ _ HndF Hlk Htt). lia.
      + apply (Hdis _ (list_elem_of_lookup_2 _ _ _ Hlk)). apply elem_of_app. by left. }
  assert (∀ q, pre ≤ q < c * n → table a1 (row_slot n (row ++ F) q) = 0%Z) as Hzero.
  { intros q Hq. destruct (Hhead q Hq). by eapply unpaired_zero. }
  assert (∀ l, l = kv_row n (row ++ F) pre (c * n + tail - tail - pre) → Swa.clear_full_to_swa_mapping l a1 = Ok a1) as Hclear.
  { intros l ->. unfold Swa.clear_full_to_swa_mapping. destruct (_ =? 0); [done|]. rewrite index_fill_same; [done|].
    apply Forall_forall. intros x (q&->&Hq%elem_of_seq)%list_elem_of_fmap. destruct (Hhead q ltac:(lia)) as [Hv _].
    split; [|apply Hzero; lia]. apply (slots_in_table _ _ Hnew) in Hv. by inv Hv. }
  rewrite (Hclear _ eq_refl).
  exists F, W, a1. split; [by destruct (_ <? _)|]. split; [done|]. split; [done|]. split_and!; try done.
  - intros q Hq. apply (assigned_windowed (M ++ m) a1 _ Hnew). unfold table. cbn [full_to_swa_index_mapping a1 set_mapping].
    destruct (Hfol _ _ (Hzip (row_slot n (row ++ F) q) ltac:(apply list_elem_of_fmap; exists q; split; [done|apply elem_of_seq; lia]))) as (g&w&j&?&?&?&?).
    by exists g, w, j.
  - intros q Hq. apply Hzero. lia.
Qed.

(** ** Preallocation *)

(** The slice [prefix_indices[-1:]] of a row of [pre] slots. *)
Lemma last_loc_row n row pre : (if 0 <? pre then drop (length (kv_row n row 0 pre) - 1) (kv_row n row 0 pre) else [(-1)%Z])
  = last_slots n [pre] (λ _, row).
Proof.
  unfold last_slots. cbn. destruct pre as [|k]; [done|]. rewrite kv_row_drop, length_kv_row.
  replace (0 + (S k - 1)) with k by lia. replace (S k - (S k - 1)) with 1 by lia. cbn. by rewrite Nat.sub_0_r.
Qed.

Lemma set_kv_twice k k' r : set_kv k (set_kv k' r) = set_kv k r.
Proof. by destruct r. Qed.

(** C15: preallocation on a decode server gives a prompt of [fill] tokens (of which [pre], a
    number of whole pages before the tail, are in the cache already) full slots for
    everything that is missing and window slots for the tail only, when both pools have
    the pages: it returns, the pages come from the two pools and are used once, each of
    the last [w] positions of the prompt has a window slot, the positions before the tail
    that it allocates have none, what other requests have in the window is kept, and the
    request's [swa_evicted_seqlen] is the page-aligned start of the tail.  Otherwise it
    returns [None] and takes no page of either pool. *)
Theorem decode_prealloc_window (radix : bool) (w : Z) (m : list (Z * Z)) (a : SwaAlloc) (r : BatchReq) (row : list Z) (pre fill : nat)
    (full_empty swa_empty : list Z) (Hinv : hybrid m a) (Hps : 1 < page_size a) (Hw : (0 < w)%Z) (Hfill : 0 < fill)
    (Hrow : length row = npages (page_size a) pre) (Hpre : pre mod page_size a = 0)
    (Hcap : pre ≤ fill - swa_tail_len true radix (Some w) (page_size a) fill)
    (Hfe : length full_empty = fill - pre) (Hse : length swa_empty = swa_tail_len true radix (Some w) (page_size a) fill) :
  let n := page_size a in
  let tail := swa_tail_len true radix (Some w) n fill in
  let r' := set_kv (Some (mkKv fill (fill - tail))) r in
  let out := alloc_for_decode_prealloc full_empty swa_empty r fill (fill - pre) pre pre (kv_row n row 0 pre) true tail a in
  if (npages n fill - npages n pre <=? length (held (full_attn_allocator a))) && (npages n tail <=? length (held (swa_attn_allocator a)))
  then ∃ F W a', out = Ok (Some (kv_row n (row ++ F) pre (fill - pre)), a', r')
    ∧ held (full_attn_allocator a) ≡ₚ F ++ held (full_attn_allocator a')
    ∧ held (swa_attn_allocator a) ≡ₚ W ++ held (swa_attn_allocator a')
    ∧ hybrid (tail_pairs a pre fill tail F W ++ m) a'
    ∧ (fill - tail) mod n = 0
    ∧ (∀ q, (Z.of_nat fill - w ≤ Z.of_nat q)%Z → q < fill → windowed a' (row_slot n (row ++ F) q))
    ∧ (∀ q, pre ≤ q < fill - tail → table a' (row_slot n (row ++ F) q) = 0%Z)
    ∧ (∀ x, windowed a x → table a' x = table a x)
  else out = Ok (None, a, r').
Proof.
  intros n tail r' out. destruct (swa_tail_len_spec radix w n fill ltac:(lia) Hw Hfill) as (Ht&Hal&Hmin). fold tail in Ht, Hal, Hmin.
  fold n tail in Hcap, Hse. pose proof (tail_hybrid m a row pre fill tail full_empty swa_empty Hinv Hps Hrow Hpre ltac:(lia) Hal Hfe Hse) as Hx.
  fold n in Hx. subst out. unfold alloc_for_decode_prealloc. fold n. destruct (Nat.eqb_spec n 1); [lia|]. rewrite last_loc_row.
  assert (∀ a', page_size a' = n → assert_ ((tail <=? fill) && ((fill - tail) mod page_size a' =? 0)) = Ok tt) as Hassert.
  { intros a' ->. rewrite Hal. by destruct (Nat.leb_spec tail fill); [|lia]. }
  cbv zeta in Hx. destruct (_ && _).
  - destruct Hx as (F&W&a'&E&Hh&Hs&_&_&Hf&Hws&Hwin&Hz&Hk). rewrite E. res_step. rewrite Hassert by apply Hs. res_step.
    rewrite set_kv_twice. exists F, W, a'. split_and!; try done. intros q Hq1 Hq2. apply Hwin. lia.
  - rewrite Hx. res_step. rewrite Hassert by done. res_step. by rewrite set_kv_twice.
Qed.
