(* ===== verification/SwaSystem.v ===== *)
(** * Serving under a sliding window

    The hybrid allocator and the requests it serves without a prefix cache
    ([SWAChunkCache]), as a transition system: admission, decoding, eviction behind the
    window and the end of a request, in any order.  In every reachable state each page of
    either pool is in exactly one place. *)

From stdpp Require Import base tactics numbers list gmap sorting strings.
From Stdlib Require Import ZArith Lia ZifyNat.
From S2P Require Import Prelude RadixKey TreeNode RadixCache Allocator AllocFree AllocCorrect AllocKernel AllocExtend PoolAlloc.
From S2P Require Import Requests ReqPool RadixReq BatchAlloc SwaAlloc SwaInv SwaFree SwaGrow SwaCorrect SwaWindow SwaLife.

Local Open Scope nat_scope.

(** ** The system *)

(** A running request and the slots that its row of the request pool holds. *)
Record Running := mkRunning {
  running_req : SwaReq;
  row_slots : list Z;
}.
Definition Sys : Type := SwaAlloc * list Running.

(** [alloc_for_decode] counts the new slot in [kv_allocated_len]. *)
Definition grow_kv (r : SwaReq) : SwaReq :=
  match kv (sreq r) with
  | Some k => mkSwaReq (set_kv (Some (mkKv (kv_allocated_len k + 1) (swa_evicted_seqlen k))) (sreq r)) (swa_evict_floor r)
                (decode_batch_idx r) (extend_batch_idx r)
  | None => r
  end.
Definition add_slot (x : Running) (s : Z) : Running := mkRunning (grow_kv (running_req x)) (row_slots x ++ [s]).
Definition last_slot (x : Running) : Z := default (-1)%Z (last (row_slots x)).

Definition row_in_pool {X} (p : ReqToTokenPool X) (x : Running) : Prop :=
  ∃ l, req_row p (core (sreq (running_req x))) = Ok l ∧ take (length (row_slots x)) l = row_slots x.

Section System.
Context {X : Type} `{!AuxCache X} (window : nat).

Inductive step : Sys → Sys → Prop :=
  | step_admit a rs r len full_empty swa_empty slots a' :
      0 < len → kv (sreq r) = Some (mkKv len 0) → Req.cache_protected_len (core (sreq r)) = 0 →
      length full_empty = len → length swa_empty = len →
      Swa.alloc_extend full_empty swa_empty [0] [len] [(-1)%Z] len a = Ok (Some slots, a') →
      step (a, rs) (a', rs ++ [mkRunning r slots])
  | step_decode a rs full_empty swa_empty slots a' :
      length full_empty = length rs → length swa_empty = length rs →
      Swa.alloc_decode full_empty swa_empty ((λ x, S (length (row_slots x))) <$> rs) (last_slot <$> rs) a
        = Ok (Some slots, a') →
      step (a, rs) (a', zip_with add_slot rs slots)
  | step_evict a rs i x (p : ReqToTokenPool X) pre_len r' a' :
      rs !! i = Some x → row_in_pool p x → (pre_len ≤ Z.of_nat (length (row_slots x)))%Z →
      free_swa_out_of_window_slots (running_req x) pre_len window (page_size a) true None p a = Ok (r', a') →
      step (a, rs) (a', <[i := mkRunning r' (row_slots x)]> rs)
  | step_finish a rs i x (p : ReqToTokenPool X) a' :
      rs !! i = Some x → row_in_pool p x →
      chunk_cache_finished_req (running_req x) (length (row_slots x)) p a = Ok a' →
      step (a, rs) (a', delete i rs).

Inductive reachable (s0 : Sys) : Sys → Prop :=
  | reach_init : reachable s0 s0
  | reach_step s s' : reachable s0 s → step s s' → reachable s0 s'.
End System.

(** ** The invariant *)

(** The positions of a request that still have a window slot. *)
Definition live (n : nat) (r : SwaReq) (k : ReqKvInfo) (q : nat) : Prop := q < evict_floor n r ∨ swa_evicted_seqlen k ≤ q.
Global Instance live_dec n r k q : Decision (live n r k q) := _.

Lemma grow_kv_core r : core (sreq (grow_kv r)) = core (sreq r) ∧ swa_evict_floor (grow_kv r) = swa_evict_floor r.
Proof. unfold grow_kv. by destruct (kv (sreq r)). Qed.

Lemma grow_kv_floor n r : evict_floor n (grow_kv r) = evict_floor n r.
Proof. destruct (grow_kv_core r) as [E1 E2]. unfold evict_floor. by rewrite E1, E2. Qed.

Section Invariant.
Context {window : nat}.

Record run_ok (a : SwaAlloc) (k : ReqKvInfo) (x : Running) (row : list Z) : Prop := mkRunOk {
  ro_pos : 0 < length (row_slots x);
  ro_pages : length row = npages (page_size a) (length (row_slots x));
  ro_slots : row_slots x = kv_row (page_size a) row 0 (length (row_slots x));
  ro_prot : Req.cache_protected_len (core (sreq (running_req x))) = 0;
  ro_kv : kv (sreq (running_req x)) = Some k;
  ro_aligned : swa_evicted_seqlen k mod page_size a = 0;
  ro_last : swa_evicted_seqlen k ≤ evict_floor (page_size a) (running_req x) ∨ swa_evicted_seqlen k + window ≤ length (row_slots x);
  ro_live : ∀ q, q < length (row_slots x) → live (page_size a) (running_req x) k q →
    windowed a (row_slot (page_size a) row q);
  ro_alloc : kv_allocated_len k = length (row_slots x);
}.

(** The pages of a row that have a window page. *)
Definition live_pages (n : nat) (x : Running) (row : list Z) : list Z :=
  match kv (sreq (running_req x)) with
  | Some k => (λ j, row !!! j) <$> filter (λ j, live n (running_req x) k (j * n)) (seq 0 (length row))
  | None => []
  end.

Record sys_inv (m : list (Z * Z)) (rows : list (list Z)) (s : Sys) : Prop := mkSysInv {
  si_hybrid : hybrid m s.1;
  si_idle : idle s.1;
  si_ps : 1 < page_size s.1;
  si_runs : Forall2 (λ x row, ∃ k, run_ok s.1 k x row) s.2 rows;
  si_full : concat rows ++ held (full_attn_allocator s.1)
              ≡ₚ arange 1 (Z.of_nat (num_pages (full_attn_allocator s.1)) + 1);
  si_live : ∀ i x row k j, s.2 !! i = Some x → rows !! i = Some row → kv (sreq (running_req x)) = Some k →
    j < length row → row !!! j ∈ m.*1 ↔ live (page_size s.1) (running_req x) k (j * page_size s.1);
}.

Lemma elem_of_live_pages n x row k f : kv (sreq (running_req x)) = Some k →
  f ∈ live_pages n x row ↔ ∃ j, j < length row ∧ live n (running_req x) k (j * n) ∧ f = row !!! j.
Proof.
  intros Hk. unfold live_pages. rewrite Hk, list_elem_of_fmap. setoid_rewrite list_elem_of_filter.
  setoid_rewrite elem_of_seq. split.
  - intros (j&->&?&?). exists j. split_and!; [lia|done..].
  - intros (j&?&?&->). exists j. split_and!; [done..|lia|lia].
Qed.

Lemma rows_nodup m rows s : sys_inv m rows s → NoDup (concat rows)
  ∧ (∀ f, f ∈ concat rows → (1 ≤ f ≤ Z.of_nat (num_pages (full_attn_allocator s.1)))%Z ∧ f ∉ held (full_attn_allocator s.1)).
Proof.
  intros Hi. pose proof (NoDup_arange 1 (Z.of_nat (num_pages (full_attn_allocator s.1)) + 1)) as Hnd.
  rewrite <-(si_full m rows s Hi) in Hnd. apply NoDup_app in Hnd as (?&Hd&_). split; [done|]. intros f Hf.
  split; [|by apply Hd]. assert (f ∈ concat rows ++ held (full_attn_allocator s.1)) as Hin by (apply elem_of_app; by left).
  rewrite (si_full m rows s Hi) in Hin. apply elem_of_arange in Hin; lia.
Qed.

Lemma elem_of_concat (ls : list (list Z)) f : f ∈ concat ls ↔ ∃ i l, ls !! i = Some l ∧ f ∈ l.
Proof.
  rewrite list_elem_of_In, in_concat. setoid_rewrite <-list_elem_of_In. split.
  - intros (l&[i Hi]%list_elem_of_lookup&?). eauto.
  - intros (i&l&?%list_elem_of_lookup_2&?). eauto.
Qed.

(** Rows are disjoint and without repetition. *)
Lemma NoDup_concat_lookup (rows : list (list Z)) i row : NoDup (concat rows) → rows !! i = Some row → NoDup row.
Proof.
  intros Hnd Hi. apply list_elem_of_split_length in Hi as (l1&l2&->&_). rewrite concat_app in Hnd. cbn in Hnd.
  apply NoDup_app in Hnd as (_&_&Hnd). by apply NoDup_app in Hnd as (?&_).
Qed.

Lemma concat_disjoint (rows : list (list Z)) i j r1 r2 f : NoDup (concat rows) → rows !! i = Some r1 → rows !! j = Some r2 →
  f ∈ r1 → f ∈ r2 → i = j.
Proof.
  revert i j. induction rows as [|r rows IH]; intros i j Hnd Hi Hj H1 H2; [done|]. cbn in Hnd.
  apply NoDup_app in Hnd as (_&Hd&Hnd). destruct i as [|i], j as [|j]; cbn in Hi, Hj; [done| | |f_equal; by eapply IH].
  - injection Hi as ->. exfalso. apply (Hd f H1), elem_of_concat. by exists j, r2.
  - injection Hj as ->. exfalso. apply (Hd f H2), elem_of_concat. by exists i, r1.
Qed.

Lemma concat_delete (rows : list (list Z)) i row : rows !! i = Some row → concat rows ≡ₚ row ++ concat (delete i rows).
Proof.
  intros Hi. rewrite <-(take_drop_middle rows i row Hi) at 1. rewrite delete_take_drop, !concat_app. cbn [concat].
  apply Permutation_app_swap_app.
Qed.

Lemma concat_imap_app (g : nat → list Z) rows :
  concat (imap (λ i r, r ++ g i) rows) ≡ₚ concat (g <$> seq 0 (length rows)) ++ concat rows.
Proof.
  revert g. induction rows as [|r rows IH]; intros g; [done|]. cbn [imap length seq fmap list_fmap concat]. fold (imap (A := list Z) (B := list Z)).
  rewrite <-fmap_S_seq, <-list_fmap_compose. change (imap ((λ i r, r ++ g i) ∘ S) rows) with (imap (λ i r, r ++ (g ∘ S) i) rows).
  rewrite IH, <-(app_assoc r), (app_assoc (g 0)). apply Permutation_app_swap_app.
Qed.

(** ** Every step keeps it *)

Lemma run_ok_keep a a' k x row : same_swa a a' → run_ok a k x row →
  (∀ q, q < length (row_slots x) → live (page_size a) (running_req x) k q →
     windowed a (row_slot (page_size a) row q) → table a' (row_slot (page_size a) row q) = table a (row_slot (page_size a) row q)) →
  run_ok a' k x row.
Proof.
  intros Hs [?????????] Ht. pose proof Hs as (E&_). constructor; rewrite ?E; try done.
  intros q Hq Hl. destruct (ro_live0 q Hq Hl) as [Hv Hp]. split; [by apply (same_swa_valid a a')|].
  by rewrite Ht by done.
Qed.

(** Pages that lose their window slots: the map, seen from a row. *)
Lemma keep_live n m l f : f ∈ (keep n l m).*1 ↔ f ∈ m.*1 ∧ f ∉ Paged.page_ids n l.
Proof.
  unfold keep. rewrite !list_elem_of_fmap. setoid_rewrite list_elem_of_filter. naive_solver.
Qed.

Section Keep.
Context (m : list (Z * Z)) (rows : list (list Z)) (a : SwaAlloc) (rs : list Running).
Context (Hinv : sys_inv m rows (a, rs)).
Local Abbreviation n := (page_size a).

Lemma run_at i x : rs !! i = Some x → ∃ row k, rows !! i = Some row ∧ run_ok a k x row.
Proof using Hinv.
  intros Hi. destruct (Forall2_lookup_l _ _ _ _ _ (si_runs _ _ _ Hinv) Hi) as (row&Hr&k&?). eauto.
Qed.

Lemma run_windowed_req {X} (p : ReqToTokenPool X) i x row k : rs !! i = Some x → rows !! i = Some row → run_ok a k x row →
  row_in_pool p x → windowed_req p a (running_req x) k row (length (row_slots x)).
Proof using Hinv.
  intros Hi Hr Hok (l&Hl&Ht). destruct (rows_nodup _ _ _ Hinv) as [Hnd Hrange]. pose proof (hy_ps _ _ (si_hybrid _ _ _ Hinv)) as Hn.
  destruct Hok as [? Hp Hs Hprot ?????]. constructor; try done.
  - exists l. split_and!; [done|by rewrite Ht|]. pose proof (npages_bounds n Hn (length (row_slots x))). cbn in *. rewrite Hp. lia.
  - by eapply NoDup_concat_lookup.
  - intros f Hf. apply Hrange, elem_of_concat. eauto.
  - rewrite Hprot. apply Nat.Div0.mod_0_l.
Qed.

(** A page of another row is not a page of this one. *)
Lemma other_row i j row row' b k q : rows !! i = Some row → rows !! j = Some row' → i ≠ j → b + k ≤ length row * n →
  q < length row' * n → (row_slot n row' q / Z.of_nat n)%Z ∉ Paged.page_ids n (kv_row n row b k).
Proof using Hinv.
  intros Hi Hj Hne Hb Hq. pose proof (hy_ps _ _ (si_hybrid _ _ _ Hinv)) as Hn. cbn in Hn.
  rewrite row_slot_page, page_ids_kv_row, list_elem_of_fmap by done. intros (q'&E&Hq'%elem_of_seq).
  destruct (rows_nodup _ _ _ Hinv) as [Hnd _]. apply Hne.
  eapply (concat_disjoint rows i j row row' (row' !!! (q / n))); try done.
  - rewrite E. apply list_elem_of_lookup_total_2. apply Nat.Div0.div_lt_upper_bound. lia.
  - apply list_elem_of_lookup_total_2. apply Nat.Div0.div_lt_upper_bound. lia.
Qed.
Lemma page_position row j : j < length row → (row_slot n row (j * n) / Z.of_nat n)%Z = row !!! j.
Proof using Hinv.
  intros Hj. pose proof (hy_ps _ _ (si_hybrid _ _ _ Hinv)) as Hn. cbn in Hn.
  rewrite row_slot_page by done. by rewrite Nat.div_mul by lia.
Qed.

(** Other requests are not affected when the pages of one row lose their window slots. *)
Lemma others_keep i row b k a' : rows !! i = Some row → b + k ≤ length row * n → same_swa a a' →
  cleared (kv_row n row b k) a a' →
  ∀ j x row' k', i ≠ j → rs !! j = Some x → rows !! j = Some row' → run_ok a k' x row' → run_ok a' k' x row'.
Proof using Hinv.
  intros Hi Hb Hs Hc j x row' k' Hne Hj Hj' Hok. apply (run_ok_keep a a'); try done. intros q Hq Hl [Hv _].
  pose proof (hy_ps _ _ (si_hybrid _ _ _ Hinv)) as Hn. cbn in Hn.
  rewrite Hc by (apply Hv; by left). rewrite decide_False; [done|]. apply (other_row i j row row'); try done.
  rewrite (ro_pages _ _ _ _ Hok). pose proof (npages_bounds n Hn (length (row_slots x))). lia.
Qed.

Lemma others_live i row b k j row' t : rows !! i = Some row → b + k ≤ length row * n → i ≠ j → rows !! j = Some row' →
  t < length row' → row' !!! t ∉ Paged.page_ids n (kv_row n row b k).
Proof using Hinv.
  intros Hi Hb Hne Hj Ht. pose proof (hy_ps _ _ (si_hybrid _ _ _ Hinv)) as Hn. cbn in Hn.
  rewrite <-(page_position row' t Ht). apply (other_row i j row row'); try done. nia.
Qed.

End Keep.

(** The pages of a whole row. *)
Lemma freed_row n row len : 0 < n → 0 < len → length row = npages n len → NoDup row →
  freed_pages n (kv_row n row 0 len) ≡ₚ row.
Proof.
  intros Hn Hlen Hrow Hnd. pose proof (npages_bounds n Hn len) as Hb. rewrite <-Hrow in Hb.
  assert (covered n row 0 len = row) as Hc.
  { unfold covered. rewrite Nat.Div0.div_0_l, Nat.add_0_l, pyslice_0. apply take_ge. rewrite Hrow. unfold npages.
    replace (len + n - 1) with (len - 1 + 1 * n) by lia. rewrite Nat.div_add by lia. done. }
  unfold freed_pages. destruct (Nat.eqb_spec n 1) as [->|_].
  - rewrite kv_row_1 by lia. rewrite Nat.add_0_l, pyslice_0, take_ge by lia. done.
  - rewrite unique_covered, Hc by (done || lia). done.
Qed.

Section Steps.
Context {X : Type} `{!AuxCache X} (Hwin : 0 < window).

Lemma step_evict_inv m rows a rs i x (p : ReqToTokenPool X) pre_len r' a' : sys_inv m rows (a, rs) →
  rs !! i = Some x → row_in_pool p x → (pre_len ≤ Z.of_nat (length (row_slots x)))%Z →
  free_swa_out_of_window_slots (running_req x) pre_len window (page_size a) true None p a = Ok (r', a') →
  ∃ m', sys_inv m' rows (a', <[i := mkRunning r' (row_slots x)]> rs) ∧ same_swa a a'.
Proof using Hwin.
  intros Hinv Hi Hp Hpre He. pose proof (si_hybrid _ _ _ Hinv) as Hh. cbn in Hh. set (n := page_size a) in *.
  destruct (run_at _ _ _ _ Hinv i x Hi) as (row&k&Hr&Hok).
  pose proof (run_windowed_req _ _ _ _ Hinv p i x row k Hi Hr Hok Hp) as Hw.
  destruct (evict_hybrid m a Hh p _ k row _ Hw window true None pre_len Hpre) as (a1&E&Hh'&Hs&Hf&Hc&Hg&_&Hq).
  fold n in E, Hh', Hc. rewrite He in E. injection E as -> <-. set (e0 := evict_start n _ _) in *. set (e1 := evict_to _ _ _ _ _ _ _) in *.
  pose proof (hy_ps m a Hh) as Hn. fold n in Hn. pose proof Hw as [Hkv (l&_&_&Hlen) Hnd _ Hprot Hev]. fold n in Hlen, Hprot, Hev.
  destruct (evict_to_aligned n window true None _ k pre_len Hn Hprot Hev) as [Ha1 H01]. fold e0 e1 in Ha1, H01.
  pose proof (evict_start_aligned n _ k Hn Hprot Hev) as Ha0. fold e0 in Ha0.
  pose proof (evict_to_window n window true None _ k pre_len Hn Hprot Hev) as Hwi. fold e0 e1 in Hwi.
  assert (e1 ≤ length row * n ∨ e1 = e0) as He1 by (destruct (decide (e0 < e1)); [left; specialize (Hwi ltac:(done)); lia|right; lia]).
  assert (∃ b j, kv_row n row e0 (e1 - e0) = kv_row n row b j ∧ b mod n = 0 ∧ (b + j) mod n = 0 ∧ b + j ≤ length row * n
    ∧ ∀ q, b ≤ q < b + j ↔ e0 ≤ q < e1) as (b&j&Eb&Hb&Hbj&Hbl&Hbq).
  { destruct He1 as [?|He1]; [exists e0, (e1 - e0)|exists 0, 0].
    - split_and!; [done|done|by replace (e0 + (e1 - e0)) with e1 by lia|lia|lia].
    - rewrite He1, Nat.sub_diag. split_and!; [done|apply Nat.Div0.mod_0_l|apply Nat.Div0.mod_0_l|lia|lia]. }
  rewrite Eb in Hh', Hc. destruct (windowed_req_evict p a _ k row _ e1 Ha1 Hw) as ([Hkv' _ _ _ _ _]&Ecore&Efl).
  assert (evict_floor n (set_evicted e1 (running_req x)) = evict_floor n (running_req x)) as Eef by (unfold evict_floor; by rewrite Ecore, Efl).
  assert (e0 = max (swa_evicted_seqlen k) (evict_floor n (running_req x))) as Ee0 by done.
  destruct (Forall2_same_length_lookup (λ x row, ∃ k, run_ok a k x row) rs rows) as [Hfw _].
  destruct (Hfw (si_runs _ _ _ Hinv)) as [Hll _].
  exists (keep n (kv_row n row b j) m). split; [|done]. constructor; cbn [fst snd].
  - done.
  - destruct (si_idle _ _ _ Hinv) as [H1 H2]. cbn in H1, H2. split; [congruence|by rewrite Hq].
  - rewrite (proj1 Hs). apply (si_ps _ _ _ Hinv).
  - apply Forall2_same_length_lookup. rewrite length_insert. split; [done|]. intros i' x' row' Hx' Hr'.
    destruct (decide (i = i')) as [<-|Hne].
    + rewrite list_lookup_insert_eq in Hx' by (by eapply lookup_lt_Some). injection Hx' as <-. assert (row' = row) as -> by congruence.
      exists (mkKv (kv_allocated_len k) e1). destruct Hok as [?????????]. constructor; cbn [running_req row_slots]; rewrite ?(proj1 Hs), ?Ecore; try done.
      * cbn. fold n. fold n in ro_last0. rewrite Eef. destruct (decide (e0 < e1)) as [Hlt|]; [specialize (Hwi Hlt)|]; lia.
      * intros q Hq' Hl. unfold live in Hl. fold n in Hl. rewrite Eef in Hl. cbn in Hl.
        destruct (ro_live0 q Hq') as [Hv Ht]; [unfold live; fold n; lia|]. split; [by apply (same_swa_valid a a')|].
        fold n. rewrite Hc by (apply Hv; by left). rewrite decide_False; [done|]. fold n.
        rewrite page_of_position by (done || lia). rewrite Hbq. lia.
    + rewrite list_lookup_insert_ne in Hx' by done. destruct (run_at _ _ _ _ Hinv i' x' Hx') as (row2&k2&Hr2&Hok2).
      assert (row2 = row') as -> by congruence. exists k2. by eapply (others_keep m rows a rs Hinv i row b j a').
  - rewrite Hf. apply (si_full _ _ _ Hinv).
  - rewrite (proj1 Hs). fold n. intros i' x' row' k' t Hx' Hr' Hk' Ht. rewrite keep_live.
    destruct (decide (i = i')) as [<-|Hne].
    + rewrite list_lookup_insert_eq in Hx' by (by eapply lookup_lt_Some). injection Hx' as <-. assert (row' = row) as -> by congruence. cbn in Hk'.
      rewrite Hkv' in Hk'. injection Hk' as <-. cbn [running_req]. fold n.
      rewrite (si_live _ _ _ Hinv i x row k t) by done. cbn [fst snd]. fold n. unfold live. rewrite Eef. cbn.
      rewrite <-(page_position m rows a rs Hinv row t) by done. fold n.
      rewrite page_of_position by (done || nia). rewrite Hbq. lia.
    + rewrite list_lookup_insert_ne in Hx' by done. rewrite (si_live _ _ _ Hinv i' x' row' k' t) by done.
      cbn [fst snd]. fold n. pose proof (others_live m rows a rs Hinv i row b j i' row' t). naive_solver.
Qed.

Lemma step_finish_inv m rows a rs i x (p : ReqToTokenPool X) a' : sys_inv m rows (a, rs) →
  rs !! i = Some x → row_in_pool p x → chunk_cache_finished_req (running_req x) (length (row_slots x)) p a = Ok a' →
  ∃ m' rows', sys_inv m' rows' (a', delete i rs) ∧ same_swa a a'.
Proof using Hwin.
  intros Hinv Hi (l&Hl&Htl) He. pose proof (si_hybrid _ _ _ Hinv) as Hh. cbn in Hh. set (n := page_size a) in *.
  pose proof (hy_ps m a Hh) as Hn. fold n in Hn.
  destruct (run_at _ _ _ _ Hinv i x Hi) as (row&k&Hr&Hok). destruct (rows_nodup _ _ _ Hinv) as [Hnd Hrange].
  pose proof (NoDup_concat_lookup rows i row Hnd Hr) as Hndr.
  pose proof Hok as [Hpos Hpg Hsl Hprot _ _ _ _ _]. fold n in Hpg, Hsl.
  pose proof (freed_row n row _ Hn Hpos Hpg Hndr) as Hfr. rewrite <-Hsl in Hfr.
  unfold chunk_cache_finished_req in He. rewrite Hl in He. cbn [res_bind] in He.
  rewrite Hprot, pyslice_0, Htl in He. cbn [wa_free swa_window] in He.
  destruct (si_idle _ _ _ Hinv) as [Hi1 Hi2]. cbn in Hi1, Hi2.
  destruct (free_spec m a (row_slots x) Hh Hi1) as (a1&E&Hh'&Hs&Hc&Hg&Hq&Hheld).
  { fold n. rewrite Hfr. apply in_pool_app. split_and!; [split; [done|]|apply (hy_full _ _ Hh)|].
    - intros f Hf. apply Hrange, elem_of_concat. eauto.
    - intros f Hf. apply Hrange, elem_of_concat. eauto. }
  rewrite He in E. injection E as <-. fold n in Hheld. rewrite Hfr in Hheld.
  change (unmapped m a (row_slots x)) with (keep n (row_slots x) m) in Hh'. rewrite Hsl in Hh', Hc.
  assert (0 + length (row_slots x) ≤ length row * n) as Hbl by (pose proof (npages_bounds n Hn (length (row_slots x))); lia).
  destruct (Forall2_same_length_lookup (λ x row, ∃ k, run_ok a k x row) rs rows) as [Hfw _].
  destruct (Hfw (si_runs _ _ _ Hinv)) as [Hll _].
  assert (∀ (A : Type) (ls : list A) j y, delete i ls !! j = Some y → ∃ j', j' ≠ i ∧ ls !! j' = Some y
    ∧ ∀ (B : Type) (ks : list B), delete i ks !! j = ks !! j') as Hdel.
  { intros A ls j y Hj. destruct (decide (j < i)).
    - rewrite list_lookup_delete_lt in Hj by done. exists j. split_and!; [lia|done|]. intros. by rewrite list_lookup_delete_lt.
    - rewrite list_lookup_delete_ge in Hj by lia. exists (S j). split_and!; [lia|done|]. intros. rewrite list_lookup_delete_ge by lia. done. }
  exists (keep n (kv_row n row 0 (length (row_slots x))) m), (delete i rows). split; [|done]. constructor; cbn [fst snd].
  - done.
  - split; [done|by rewrite Hq].
  - rewrite (proj1 Hs). apply (si_ps _ _ _ Hinv).
  - apply Forall2_same_length_lookup. split.
    { rewrite !length_delete by (rewrite ?Hi, ?Hr; by eexists). by rewrite Hll. }
    intros j y row' Hy Hr'. destruct (Hdel _ _ _ _ Hy) as (j'&Hne&Hy'&Hsame). rewrite Hsame in Hr'.
    destruct (run_at _ _ _ _ Hinv j' y Hy') as (row2&k2&Hr2&Hok2). assert (row2 = row') as -> by congruence.
    exists k2. by eapply (others_keep m rows a rs Hinv i row 0 (length (row_slots x)) a').
  - rewrite Hheld. pose proof (si_full _ _ _ Hinv) as Hfull. cbn in Hfull. rewrite (concat_delete rows i row Hr) in Hfull.
    rewrite (proj1 (proj2 (proj1 (proj1 (proj2 Hs))))), <-Hfull, <-app_assoc. apply Permutation_app_swap_app.
  - rewrite (proj1 Hs). fold n. intros j y row' k' t Hy Hr' Hk' Ht. rewrite keep_live.
    destruct (Hdel _ _ _ _ Hy) as (j'&Hne&Hy'&Hsame). rewrite Hsame in Hr'.
    rewrite (si_live _ _ _ Hinv j' y row' k' t) by done. cbn [fst snd]. fold n.
    pose proof (others_live m rows a rs Hinv i row 0 (length (row_slots x)) j' row' t). naive_solver.
Qed.
End Steps.
End Invariant.
Global Arguments run_ok : clear implicits.
Global Arguments sys_inv : clear implicits.
