(* ===== verification/SwaReach.v ===== *)
(** * Reachable states of the window system

    Admission and decoding keep the invariant [sys_inv]; what it says of every
    reachable state. *)

From stdpp Require Import base tactics numbers list gmap sorting strings.
From Stdlib Require Import ZArith Lia ZifyNat.
From S2P Require Import Prelude RadixKey TreeNode RadixCache Allocator AllocFree AllocCorrect AllocKernel AllocExtend PoolAlloc.
From S2P Require Import Requests ReqPool RadixReq BatchAlloc SwaAlloc SwaInv SwaFree SwaGrow SwaCorrect SwaWindow SwaLife SwaSystem.

Local Open Scope nat_scope.

Section Reach.
Context (window : nat).

Section Grow.
Context (m : list (Z * Z)) (rows : list (list Z)) (a : SwaAlloc) (rs : list Running) (Hinv : sys_inv window m rows (a, rs)).
Context (pre_lens seq_lens : list nat) (rws : list (list Z)) (fresh freshw : nat → list Z) (a' : SwaAlloc).
Context (Hg : grown m a pre_lens seq_lens rws fresh freshw a').
Local Abbreviation n := (page_size a).
Local Abbreviation new := (fresh_all pre_lens fresh).

Lemma grown_dom f : f ∈ (new_pairs pre_lens fresh freshw ++ m).*1 ↔ f ∈ new ∨ f ∈ m.*1.
Proof using Hg.
  destruct Hg as (_&_&Hf&Hw&_). pose proof (length_fresh_all a pre_lens seq_lens fresh freshw Hf Hw).
  rewrite fmap_app, elem_of_app. unfold new_pairs. rewrite fst_zip by lia. done.
Qed.

(** The new pages are not in any row. *)
Lemma new_not_in_rows i row f : rows !! i = Some row → f ∈ row → f ∉ new.
Proof using Hg Hinv.
  intros Hi Hf Hin. destruct (rows_nodup _ _ _ Hinv) as [_ Hr]. destruct (Hr f) as [_ Hh]; [apply elem_of_concat; eauto|].
  apply Hh. cbn. destruct Hg as (_&_&_&_&->&_). apply elem_of_app. by left.
Qed.

Lemma grown_run k x row : run_ok window a k x row → run_ok window a' k x row.
Proof using Hg.
  intros Hok. destruct Hg as (_&Hs&_&_&_&_&_&Hk&_). apply (run_ok_keep a a'); [done..|]. auto.
Qed.

Lemma grown_idle : idle a'.
Proof using Hg Hinv.
  destruct Hg as (_&_&_&_&_&_&_&_&E1&E2), (si_idle _ _ _ Hinv) as [H1 H2]. cbn in *. split; congruence.
Qed.

Lemma grown_old_live i x row k j : rs !! i = Some x → rows !! i = Some row → kv (sreq (running_req x)) = Some k →
  j < length row → row !!! j ∈ (new_pairs pre_lens fresh freshw ++ m).*1 ↔ live n (running_req x) k (j * n).
Proof using Hg Hinv.
  intros Hi Hr Hk Hj. rewrite grown_dom. rewrite <-(si_live _ _ _ Hinv i x row k j) by done. split; [|by right].
  intros [Hin|]; [|done]. exfalso. eapply new_not_in_rows; [done| |done]. by apply list_elem_of_lookup_total_2.
Qed.
End Grow.

Lemma npages_0 n : 0 < n → npages n 0 = 0.
Proof. intros. unfold npages. apply Nat.div_small. lia. Qed.

Lemma step_admit_inv m rows a rs r len full_empty swa_empty slots a' : sys_inv window m rows (a, rs) →
  0 < len → kv (sreq r) = Some (mkKv len 0) → Req.cache_protected_len (core (sreq r)) = 0 →
  length full_empty = len → length swa_empty = len →
  Swa.alloc_extend full_empty swa_empty [0] [len] [(-1)%Z] len a = Ok (Some slots, a') →
  ∃ m' rows', sys_inv window m' rows' (a', rs ++ [mkRunning r slots]) ∧ same_swa a a'.
Proof.
  intros Hinv Hpos Hkv Hprot Hfe Hse He. pose proof (si_hybrid _ _ _ Hinv) as Hh. cbn in Hh.
  pose proof (hy_ps m a Hh) as Hn. set (n := page_size a) in *.
  pose proof (alloc_extend_hybrid m a Hh [0] [len] [[]]) as Hx.
  specialize (Hx ltac:(intros [|[]] Hi; cbn in Hi; [cbn; fold n; by rewrite npages_0; [split; [|lia]|]|lia..])).
  specialize (Hx (si_ps _ _ _ Hinv) ltac:(repeat constructor; lia) full_empty swa_empty).
  cbn [zip_with sum_list foldr length] in Hx. rewrite Nat.sub_0_r, Nat.add_0_r in Hx. specialize (Hx Hfe ltac:(congruence)).
  unfold extend_result in Hx. rewrite Hfe in Hx. change (last_slots _ [0] _) with [(-1)%Z] in Hx. rewrite He in Hx.
  destruct (_ && _); [|done]. destruct Hx as (fresh&freshw&a1&[= -> <-]&Hg). pose proof Hg as (Hh'&Hs&Hf&_&Hhf&_&Hw&_).
  unfold new_slots, fresh_all in *. cbn [length seq fmap list_fmap concat app] in *. rewrite app_nil_r in *.
  cbn [lookup_total list_lookup_total] in *. rewrite Nat.sub_0_r in *.
  assert (length (fresh 0) = npages n len) as Hfl by (rewrite (Hf 0) by (cbn; lia); cbn; fold n; rewrite npages_0 by done; lia).
  destruct (Forall2_same_length_lookup (λ x row, ∃ k, run_ok window a k x row) rs rows) as [Hfw _].
  destruct (Hfw (si_runs _ _ _ Hinv)) as [Hll _].
  exists (new_pairs [0] fresh freshw ++ m), (rows ++ [fresh 0]). split; [|done]. constructor; cbn [fst snd].
  - done.
  - by eapply grown_idle.
  - rewrite (proj1 Hs). apply (si_ps _ _ _ Hinv).
  - apply Forall2_app; [|constructor; [|done]].
    + eapply Forall2_impl; [apply (si_runs _ _ _ Hinv)|]. intros x row (k&Hk). exists k. by eapply grown_run.
    + exists (mkKv len 0). constructor; cbn [running_req row_slots]; rewrite ?(proj1 Hs), ?length_kv_row; try done; [apply Nat.Div0.mod_0_l|cbn; lia|].
      intros q Hq _. by apply (Hw 0); cbn; lia.
  - rewrite concat_app. cbn [concat]. rewrite app_nil_r, <-app_assoc, <-Hhf.
    rewrite (proj1 (proj2 (proj1 (proj1 (proj2 Hs))))). apply (si_full _ _ _ Hinv).
  - rewrite (proj1 Hs). fold n. intros i x row k j Hx Hr Hk Hj. apply lookup_app_Some in Hx as [Hx|[Hge Hx]].
    + rewrite lookup_app_l in Hr by (rewrite <-Hll; by eapply lookup_lt_Some). by eapply grown_old_live.
    + apply list_lookup_singleton_Some in Hx as [Hz <-]. cbn in Hk. rewrite Hkv in Hk. injection Hk as <-.
      rewrite lookup_app_r in Hr by lia. apply list_lookup_singleton_Some in Hr as [_ <-].
      rewrite (grown_dom m a [0] [len] [[]] fresh freshw a' Hg). split; [intros _; right; cbn; lia|intros _; left].
      unfold fresh_all. cbn. rewrite app_nil_r. by apply list_elem_of_lookup_total_2.
Qed.

Section DecodeStep.
Context (m : list (Z * Z)) (rows : list (list Z)) (a : SwaAlloc) (rs : list Running) (Hinv : sys_inv window m rows (a, rs)).
Local Abbreviation n := (page_size a).
Local Abbreviation seqs := ((λ x, S (length (row_slots x))) <$> rs).
Local Abbreviation pres := (pred <$> seqs).

Lemma running_lens i x : rs !! i = Some x →
  seqs !!! i = S (length (row_slots x)) ∧ pres !!! i = length (row_slots x) ∧ i < length pres.
Proof using.
  intros Hi. split_and!; [apply list_lookup_total_correct|apply list_lookup_total_correct|rewrite !length_fmap; by eapply lookup_lt_Some];
    by rewrite !list_lookup_fmap, Hi.
Qed.

Lemma decode_at i : i < length pres → ∃ x row k, rs !! i = Some x ∧ rows !! i = Some row ∧ run_ok window a k x row.
Proof using Hinv.
  rewrite !length_fmap. intros Hi. destruct (lookup_lt_is_Some_2 rs i Hi) as [x Hx].
  destruct (run_at _ _ _ _ Hinv i x Hx) as (row&k&?&?). eauto 6.
Qed.

(** The last slot of every running request is inside the window. *)
Lemma decode_windowed : 0 < window → rows_windowed a pres rows.
Proof using Hinv.
  intros Hwin i Hi. destruct (decode_at i Hi) as (x&row&k&Hx&Hr&Hok). destruct (running_lens i x Hx) as (_&->&_).
  rewrite (list_lookup_total_correct _ _ _ Hr). destruct Hok as [Hpos Hp _ _ _ _ Hl Hw _]. split; [done|]. intros _.
  apply Hw; [lia|]. unfold live. lia.
Qed.

Lemma decode_last : last_slots n pres (λ i, rows !!! i) = last_slot <$> rs.
Proof using Hinv.
  apply list_eq. intros i. unfold last_slots. rewrite !list_lookup_fmap. destruct (decide (i < length pres)) as [Hi|Hi].
  - destruct (decode_at i Hi) as (x&row&k&Hx&Hr&Hok). destruct (running_lens i x Hx) as (_&E&_).
    rewrite lookup_seq_lt, Hx by done. set (P := pres) in *. cbn. f_equal. rewrite E.
    rewrite (list_lookup_total_correct _ _ _ Hr). destruct Hok as [Hp _ Hs _ _ _ _ _ _].
    destruct (Nat.eqb_spec (length (row_slots x)) 0) as [?|_]; [lia|]. unfold last_slot. rewrite last_lookup.
    assert (row_slots x !! pred (length (row_slots x)) = Some (row_slot n row (length (row_slots x) - 1))) as ->; [|done].
    rewrite Hs at 2. unfold kv_row. rewrite list_lookup_fmap, lookup_seq_lt by lia. cbn. do 2 f_equal. lia.
  - rewrite lookup_seq_ge by lia. rewrite !length_fmap in Hi. by rewrite (lookup_ge_None_2 rs) by lia.
Qed.

Context (fresh freshw : nat → list Z) (a' : SwaAlloc) (Hg : grown m a pres seqs rows fresh freshw a').
Definition rows' : list (list Z) := imap (λ i row, row ++ fresh i) rows.

Lemma decode_run i x row k : rs !! i = Some x → rows !! i = Some row → run_ok window a k x row →
  run_ok window a' (mkKv (kv_allocated_len k + 1) (swa_evicted_seqlen k)) (add_slot x (row_slot n (row ++ fresh i) (length (row_slots x)))) (row ++ fresh i).
Proof using Hinv Hg.
  intros Hx Hr Hok. pose proof Hg as (_&Hs&Hf&_&_&_&Hw&Hkeep&_). destruct (running_lens i x Hx) as (E1&E2&Hi).
  pose proof (hy_ps m a (si_hybrid _ _ _ Hinv)) as Hn. cbn in Hn. pose proof Hok as [Hpos Hp Hsl Hprot Hk Hal Hla Hl Hall].
  specialize (Hf i Hi). rewrite E1, E2 in Hf.
  pose proof (npages_bounds n Hn (length (row_slots x))) as Hb. pose proof (npages_mono n Hn (length (row_slots x)) (S (length (row_slots x))) ltac:(lia)).
  assert (∀ q, q < length (row_slots x) → row_slot n (row ++ fresh i) q = row_slot n row q) as Hold.
  { intros q Hq. unfold row_slot. rewrite lookup_total_app_l; [done|]. rewrite Hp. apply Nat.Div0.div_lt_upper_bound. lia. }
  constructor; rewrite ?(proj1 Hs); cbn [running_req row_slots add_slot]; rewrite ?length_app, ?grow_kv_floor; cbn [length]; try done.
  - lia.
  - rewrite Nat.add_1_r. lia.
  - rewrite Nat.add_1_r. unfold kv_row at 1. rewrite seq_S, fmap_app. cbn [fmap list_fmap plus]. f_equal.
    rewrite Hsl at 1. unfold kv_row. apply list_fmap_ext. intros j q [-> Hq]%lookup_seq. symmetry. by apply Hold.
  - by rewrite (proj1 (grow_kv_core _)).
  - unfold grow_kv. by rewrite Hk.
  - cbn. lia.
  - intros q Hq Hlq. unfold live in Hlq. rewrite grow_kv_floor in Hlq. destruct (decide (q < length (row_slots x))) as [Hlt|Hge].
    + rewrite Hold by done. destruct (Hl q Hlt Hlq) as [Hv Ht]. split; [by apply (same_swa_valid a a')|]. by rewrite Hkeep.
    + assert (q = length (row_slots x)) as -> by lia. rewrite <-E2 at 1.
      specialize (Hw i (length (row_slots x)) Hi ltac:(lia)). rewrite (list_lookup_total_correct _ _ _ Hr) in Hw.
      by rewrite E2.
  - cbn. lia.
Qed.
End DecodeStep.

Lemma step_decode_inv m rows a rs full_empty swa_empty slots a' : 0 < window → sys_inv window m rows (a, rs) →
  length full_empty = length rs → length swa_empty = length rs →
  Swa.alloc_decode full_empty swa_empty ((λ x, S (length (row_slots x))) <$> rs) (last_slot <$> rs) a = Ok (Some slots, a') →
  ∃ m' rows', sys_inv window m' rows' (a', zip_with add_slot rs slots) ∧ same_swa a a'.
Proof.
  intros Hwin Hinv Hfe Hse He. pose proof (si_hybrid _ _ _ Hinv) as Hh. cbn in Hh. pose proof (hy_ps m a Hh) as Hn.
  set (n := page_size a) in *. set (seqs := (λ x, S (length (row_slots x))) <$> rs) in *.
  assert (Forall (λ s, 0 < s) seqs) as Hpos by (apply Forall_fmap, Forall_forall; cbn; lia).
  pose proof (alloc_decode_hybrid m a Hh seqs rows (decode_windowed _ _ _ _ Hinv Hwin) (si_ps _ _ _ Hinv) Hpos full_empty swa_empty) as Hx.
  specialize (Hx ltac:(unfold seqs; by rewrite length_fmap) ltac:(unfold seqs; by rewrite length_fmap)).
  pose proof (decode_last _ _ _ _ Hinv) as El. fold seqs in El. rewrite El, He in Hx. unfold decode_result in Hx.
  destruct (_ && _); [|destruct Hx as (?&Hx); discriminate Hx]. destruct Hx as (fresh&freshw&a1&[= -> <-]&Hg).
  pose proof Hg as (Hh'&Hs&Hf&_&Hhf&_). rewrite (new_slots_decode a seqs (si_ps _ _ _ Hinv) Hpos).
  destruct (Forall2_same_length_lookup (λ x row, ∃ k, run_ok window a k x row) rs rows) as [Hfw _].
  destruct (Hfw (si_runs _ _ _ Hinv)) as [Hll _].
  set (out := _ <$> seq 0 (length seqs)).
  assert (∀ i x row, rs !! i = Some x → rows !! i = Some row →
    zip_with add_slot rs out !! i = Some (add_slot x (row_slot n (row ++ fresh i) (length (row_slots x))))) as Hnew.
  { intros i x row Hx Hr. destruct (running_lens rs i x Hx) as (E1&_&Hi). rewrite length_fmap in Hi. fold seqs in E1, Hi.
    rewrite lookup_zip_with, Hx. cbn. unfold out. rewrite list_lookup_fmap, lookup_seq_lt by done. cbn. rewrite E1.
    rewrite (list_lookup_total_correct _ _ _ Hr). by rewrite Nat.sub_1_r. }
  assert (length (zip_with add_slot rs out) = length rs) as Hlz.
  { rewrite length_zip_with. unfold out, seqs. rewrite length_fmap, length_seq, length_fmap. lia. }
  assert (∀ i x', zip_with add_slot rs out !! i = Some x' → ∃ x row k, rs !! i = Some x ∧ rows !! i = Some row ∧ run_ok window a k x row
    ∧ x' = add_slot x (row_slot n (row ++ fresh i) (length (row_slots x)))) as Hold.
  { intros i x' Hx'. pose proof (lookup_lt_Some _ _ _ Hx') as Hi. rewrite Hlz in Hi. destruct (lookup_lt_is_Some_2 rs i Hi) as [x Hx].
    destruct (run_at _ _ _ _ Hinv i x Hx) as (row&k&Hr&Hok). exists x, row, k. rewrite (Hnew i x row Hx Hr) in Hx'. by injection Hx' as <-. }
  exists (new_pairs (pred <$> seqs) fresh freshw ++ m), (rows' rows fresh). unfold rows'. split; [|done]. constructor; cbn [fst snd].
  - done.
  - by eapply grown_idle.
  - rewrite (proj1 Hs). apply (si_ps _ _ _ Hinv).
  - apply Forall2_same_length_lookup. rewrite Hlz, length_imap. split; [done|]. intros i x' row' Hx' Hr'.
    rewrite list_lookup_imap in Hr'. destruct (Hold i x' Hx') as (x&row&k&Hx&Hr&Hok&->). rewrite Hr in Hr'. injection Hr' as <-.
    eexists. by eapply decode_run.
  - rewrite concat_imap_app, <-Hll, <-app_assoc. rewrite (proj1 (proj2 (proj1 (proj1 (proj2 Hs))))).
    rewrite <-(si_full _ _ _ Hinv). cbn [fst]. rewrite Hhf. unfold fresh_all, seqs. rewrite !length_fmap. apply Permutation_app_swap_app.
  - rewrite (proj1 Hs). fold n. intros i x' row' k' j Hx' Hr' Hk' Hj. rewrite list_lookup_imap in Hr'.
    destruct (Hold i x' Hx') as (x&row&k&Hx&Hr&Hok&->). rewrite Hr in Hr'. injection Hr' as <-. cbn [running_req add_slot] in *.
    assert (k' = mkKv (kv_allocated_len k + 1) (swa_evicted_seqlen k)) as ->.
    { unfold grow_kv in Hk'. rewrite (ro_kv _ _ _ _ Hok) in Hk'. cbn in Hk'. congruence. }
    change (live n (grow_kv (running_req x)) _ (j * n)) with
      (j * n < evict_floor n (grow_kv (running_req x)) ∨ swa_evicted_seqlen k ≤ j * n). rewrite grow_kv_floor.
    change (_ ∨ _) with (live n (running_req x) k (j * n)).
    destruct (decide (j < length row)) as [Hlt|Hge].
    + rewrite lookup_total_app_l by done. eapply grown_old_live; try done. apply (ro_kv _ _ _ _ Hok).
    + rewrite lookup_total_app_r by lia. rewrite length_app in Hj. rewrite (grown_dom m a _ _ _ fresh freshw a' Hg).
      destruct Hok as [_ Hp _ _ _ _ Hla _ _]. fold n in Hp, Hla. pose proof (npages_bounds n Hn (length (row_slots x))) as Hb.
      split; [intros _; unfold live|intros _; left].
      * assert (length (row_slots x) ≤ j * n) by nia. lia.
      * unfold fresh_all. apply elem_of_concat. exists i, (fresh i). destruct (running_lens rs i x Hx) as (_&_&Hi). fold seqs in Hi.
        rewrite list_lookup_fmap, lookup_seq_lt by done. split; [done|]. apply list_elem_of_lookup_total_2. lia.
Qed.
Lemma step_inv `{!AuxCache X} m rows s s' : 0 < window → sys_inv window m rows s → step (X := X) window s s' →
  ∃ m' rows', sys_inv window m' rows' s' ∧ same_swa s.1 s'.1.
Proof.
  intros Hwin Hinv Hstep. destruct Hstep as [a rs r len fe se|a rs fe se|a rs i x p|a rs i x p].
  - by apply (step_admit_inv m rows a rs r len fe se).
  - by apply (step_decode_inv m rows a rs fe se).
  - destruct (step_evict_inv Hwin m rows a rs i x p pre_len r' a') as (m'&?&?); eauto.
  - by apply (step_finish_inv Hwin m rows a rs i x p).
Qed.

Lemma reachable_inv `{!AuxCache X} size size_swa n sort s : 0 < window → 1 < n →
  reachable (X := X) window (Swa.init size size_swa n sort, []) s →
  ∃ m rows, sys_inv window m rows s ∧ same_swa (Swa.init size size_swa n sort) s.1.
Proof.
  intros Hwin Hn Hr. induction Hr as [|s s' _ (m&rows&Hinv&Hs) Hstep].
  - exists [], []. split; [|done]. destruct (init_hybrid size size_swa n sort ltac:(lia)) as [Hh Hi].
    constructor; cbn [fst snd]; try done.
    cbn [concat app]. pose proof (hy_full _ _ Hh) as Hf. unfold Swa.init, sub_init, held. cbn [full_attn_allocator].
    destruct (Nat.eqb_spec n 1); [lia|]. cbn. by rewrite app_nil_r.
  - destruct (step_inv m rows s s' Hwin Hinv Hstep) as (m'&rows'&?&?). exists m', rows'. split; [done|by etrans].
Qed.

(** The pages with a window page are the live pages of the rows. *)
Lemma live_pages_perm m rows s : sys_inv window m rows s → concat (zip_with (live_pages (page_size s.1)) s.2 rows) ≡ₚ m.*1.
Proof.
  intros Hinv. destruct (rows_nodup _ _ _ Hinv) as [Hnd _]. pose proof (si_runs _ _ _ Hinv) as Hruns.
  assert (∀ i x row, s.2 !! i = Some x → rows !! i = Some row → ∀ f,
    f ∈ live_pages (page_size s.1) x row ↔ ∃ j, j < length row ∧ row !!! j ∈ m.*1 ∧ f = row !!! j) as Hlive.
  { intros i x row Hx Hr f. destruct (run_at _ _ s.1 s.2 ltac:(by destruct s) i x Hx) as (row2&k&Hr2&Hok).
    assert (row2 = row) as -> by congruence. rewrite (elem_of_live_pages _ _ _ k) by apply Hok. split; intros (j&Hj&Hl&->); exists j;
      (split_and!; [done| |done]); eapply (si_live _ _ _ Hinv i x row k j); try done; apply Hok. }
  apply NoDup_Permutation.
  - clear -Hnd Hlive. revert Hnd Hlive. generalize (s.2). intros rs. revert rs. induction rows as [|row rows IH]; intros [|x rs] Hnd Hlive; try constructor.
    cbn [zip_with concat] in *. apply NoDup_app in Hnd as (Hr&Hd&Hnd). apply NoDup_app. split_and!.
    + unfold live_pages. destruct (kv _); [|constructor]. apply NoDup_fmap_2_strong; [|apply NoDup_filter, NoDup_seq].
      intros j j' [_ Hj%elem_of_seq]%list_elem_of_filter [_ Hj'%elem_of_seq]%list_elem_of_filter E.
      apply (NoDup_lookup row j j' (row !!! j) Hr); [|rewrite E]; apply list_lookup_lookup_total_lt; lia.
    + intros f Hf Hf'. destruct (Hlive 0 x row eq_refl eq_refl f) as [(j&Hj&_&->) _]; [done|].
      apply (Hd (row !!! j)); [by apply list_elem_of_lookup_total_2|].
      apply elem_of_concat in Hf' as (i&l&Hl&Hin). rewrite lookup_zip_with in Hl.
      destruct (rs !! i) as [x'|] eqn:Ex; [|done]. cbn in Hl. destruct (rows !! i) as [row'|] eqn:Er; [|done]. injection Hl as <-.
      destruct (Hlive (S i) x' row' Ex Er (row !!! j)) as [(j'&?&_&->) _]; [done|]. apply elem_of_concat. exists i, row'.
      split; [done|by apply list_elem_of_lookup_total_2].
    + apply IH; [done|]. intros i x' row' Hx' Hr'. by apply (Hlive (S i) x' row').
  - destruct (hy_dom _ _ (si_hybrid _ _ _ Hinv)) as [Hn _]. by apply NoDup_app in Hn as (?&_).
  - intros f. rewrite elem_of_concat. split.
    + intros (i&l&Hl&Hin). rewrite lookup_zip_with in Hl. destruct (s.2 !! i) as [x|] eqn:Ex; [|done]. cbn in Hl.
      destruct (rows !! i) as [row|] eqn:Er; [|done]. injection Hl as <-.
      by destruct (Hlive i x row Ex Er f) as [(j&_&?&->) _].
    + intros Hf. pose proof Hf as Hf'. apply list_elem_of_fmap in Hf as ([f' w]&->&Hin). cbn [fst] in *.
      destruct (hybrid_dom _ _ (si_hybrid _ _ _ Hinv) f' w Hin) as [Hr Hnh].
      assert (f' ∈ concat rows) as Hc.
      { assert (f' ∈ concat rows ++ held (full_attn_allocator s.1)) as Hx by (rewrite (si_full _ _ _ Hinv); apply elem_of_arange; lia).
        by apply elem_of_app in Hx as [?|?]. }
      apply elem_of_concat in Hc as (i&row&Hrow&Hfr). destruct (Forall2_lookup_r _ _ _ _ _ Hruns Hrow) as (x&Hx&_).
      exists i, (live_pages (page_size s.1) x row). rewrite lookup_zip_with, Hx. cbn. rewrite Hrow. split; [done|].
      apply (Hlive i x row Hx Hrow). apply list_elem_of_lookup in Hfr as [j Hj]. exists j.
      rewrite (list_lookup_total_correct _ _ _ Hj). split_and!; [by eapply lookup_lt_Some|done..].
Qed.
End Reach.
