(* ===== verification/SwaClaims.v ===== *)
(** * What sliding windows promise

    The theorems about eviction behind the window and about every reachable state of the
    window system, with a small hybrid pool as their witness. *)

From stdpp Require Import base tactics numbers list gmap sorting strings.
From Stdlib Require Import ZArith Lia ZifyNat.
From S2P Require Import Prelude RadixKey TreeNode RadixCache Allocator AllocFree AllocCorrect AllocKernel AllocExtend PoolAlloc.
From S2P Require Import Requests ReqPool RadixReq BatchAlloc SwaAlloc SwaInv SwaFree SwaGrow SwaCorrect SwaWindow SwaLife SwaTail SwaSystem SwaReach.

Local Open Scope nat_scope.

(** ** Eviction behind the window *)

Lemma evict_to_reaches n window (chunk : bool) r k pre_len : 0 < n →
  (pre_len - Z.of_nat (if chunk then window else max window n) < Z.of_nat (evict_to n window chunk None r k pre_len + n))%Z.
Proof.
  intros Hn. unfold evict_to. set (e := Z.to_nat _). pose proof (Nat.div_mod_eq e n). pose proof (Nat.mod_upper_bound e n ltac:(lia)).
  assert (pre_len - Z.of_nat (if chunk then window else max window n) ≤ Z.of_nat e)%Z by (unfold e; destruct chunk; lia). lia.
Qed.

(** The window pages that leave the page map are free afterwards. *)
Lemma released_windows m a l a' : hybrid m a → hybrid (keep (page_size a) l m) a' → idle a → idle a' → same_swa a a' →
  held (swa_attn_allocator a') ≡ₚ (mapped m a l).*2 ++ held (swa_attn_allocator a).
Proof.
  intros H H' [_ Hi] [_ Hi'] Hs. pose proof (hy_img _ _ H) as E. pose proof (hy_img _ _ H') as E'.
  unfold pending in *. rewrite Hi in E. rewrite Hi', (same_swa_windows _ _ Hs), <-E, (mapped_windows m a l) in E'.
  cbn [concat] in E'. rewrite !freed_pages_nil in E'. change (unmapped m a l) with (keep (page_size a) l m) in E'.
  cbn [app] in E'. rewrite <-app_assoc, Permutation_app_swap_app in E'. by apply Permutation_app_inv_l in E'.
Qed.

(** C14: eviction behind the window is exact.  [free_swa_out_of_window_slots] returns; it
    leaves the full pool as it is and the translation of every slot of the last
    [window] positions before [pre_len] and after, and of every slot of another
    request; the positions it evicts are whole pages between what was evicted (or
    shielded) before and the new [swa_evicted_seqlen], they have no window slot any
    more and their window pages are free; at most a page less than possible is
    evicted. *)
Theorem window_eviction_exact {X : Type} `{!AuxCache X} (m : list (Z * Z)) (a : SwaAlloc) (p : ReqToTokenPool X)
    (r : SwaReq) (k : ReqKvInfo) (row : list Z) (len window : nat) (chunk : bool) (pre_len : Z)
    (Hinv : hybrid m a) (Hidle : idle a) (Hr : windowed_req p a r k row len) (Hpre : (pre_len ≤ Z.of_nat len)%Z) :
  let n := page_size a in
  let e0 := evict_start n r k in
  ∃ r' a' e1, free_swa_out_of_window_slots r pre_len window n chunk None p a = Ok (r', a')
    ∧ swa_evicted_seqlen <$> kv (sreq r') = Some e1 ∧ e0 ≤ e1 ∧ e1 mod n = 0
    ∧ (pre_len - Z.of_nat (if chunk then window else max window n) < Z.of_nat (e1 + n))%Z
    ∧ full_attn_allocator a' = full_attn_allocator a
    ∧ (∀ q, q < len → (pre_len - Z.of_nat window ≤ Z.of_nat q)%Z → table a' (row_slot n row q) = table a (row_slot n row q))
    ∧ (∀ q, q < len → e0 ≤ q < e1 → table a' (row_slot n row q) = 0%Z)
    ∧ (∀ x, slots_valid a [x] → (x / Z.of_nat n)%Z ∉ row → table a' x = table a x)
    ∧ held (swa_attn_allocator a') ≡ₚ (mapped m a (kv_row n row e0 (e1 - e0))).*2 ++ held (swa_attn_allocator a)
    ∧ hybrid (keep n (kv_row n row e0 (e1 - e0)) m) a' ∧ idle a'.
Proof.
  intros n e0. pose proof (hy_ps m a Hinv) as Hn. fold n in Hn. pose proof Hidle as [Hi1 Hi2].
  destruct (evict_hybrid m a Hinv p r k row len Hr window chunk None pre_len Hpre) as (a'&He&Hh&Hs&Hf&Hc&Hg&_&Hq).
  fold n e0 in He, Hh, Hc. set (e1 := evict_to _ _ _ _ _ _ _) in *. destruct Hr as [Hk (slots&_&_&Hlen) Hnd Hpg Hprot Hev].
  fold n in Hlen, Hprot, Hev. destruct (evict_to_aligned n window chunk None r k pre_len Hn Hprot Hev) as [Ha1 H01].
  pose proof (evict_start_aligned n r k Hn Hprot Hev) as Ha0. pose proof (evict_to_window n window chunk None r k pre_len Hn Hprot Hev) as Hw.
  fold e0 e1 in H01, Ha1, Hw, Ha0.
  assert (∀ q, q < len → slots_valid a [row_slot n row q]) as Hval.
  { intros q Hq' x ->%list_elem_of_singleton. fold n. rewrite row_slot_page by done. assert (q / n < length row) as Hqn.
    { apply Nat.Div0.div_lt_upper_bound. lia. }
    pose proof (Hpg (row !!! (q / n)) ltac:(by apply list_elem_of_lookup_total_2)). lia. }
  assert (∀ q, q < len → (row_slot n row q / Z.of_nat n)%Z ∈ Paged.page_ids n (kv_row n row e0 (e1 - e0)) ↔ e0 ≤ q < e1) as Hpage.
  { intros q Hq'. destruct (decide (e0 = e1)) as [<-|Hne].
    - rewrite Nat.sub_diag. split; [by intros ?%elem_of_nil|lia].
    - specialize (Hw ltac:(lia)). rewrite page_of_position by (done || lia || by replace (e0 + (e1 - e0)) with e1 by lia). lia. }
  assert (idle a') as Hid by (split; [congruence|by rewrite Hq]).
  exists (set_evicted e1 r), a', e1. split_and!; try done.
  - unfold set_evicted. by rewrite Hk.
  - by apply evict_to_reaches.
  - intros q Hql Hqw. rewrite Hc by (apply (Hval q Hql); by left). rewrite decide_False; [done|]. fold n. rewrite Hpage by done. lia.
  - intros q Hql Hqe. rewrite Hc by (apply (Hval q Hql); by left). rewrite decide_True; [done|]. fold n. by apply Hpage.
  - intros x Hx Hni. rewrite Hc by (apply Hx; by left). rewrite decide_False; [done|]. fold n. rewrite page_ids_kv_row by done.
    intros (q&E&Hqs%elem_of_seq)%list_elem_of_fmap. apply Hni. rewrite E. apply list_elem_of_lookup_total_2.
    destruct (decide (e0 < e1)) as [Hlt|]; [specialize (Hw Hlt)|lia]. apply Nat.Div0.div_lt_upper_bound. lia.
  - by apply released_windows.
Qed.

(** ** Every reachable state *)

(** C13: under a sliding window no page is lost or shared, whatever the order of admissions,
    decode steps, evictions and ends of requests: in every reachable state each full
    page is free or in the row of exactly one running request, each window page is free
    or paired with exactly one page of a row, the pages that have a window page are the
    live ones of the rows, and each of the last [window] positions of a running request
    is translated to the slot of its window page at the same offset. *)
Theorem swa_serving_conserves {X : Type} `{!AuxCache X} (window size size_swa n : nat) (sort : bool) (a : SwaAlloc)
    (rs : list Running) (Hwin : 0 < window) (Hn : 1 < n)
    (Hreach : reachable (X := X) window (Swa.init size size_swa n sort, []) (a, rs)) :
  ∃ (m : list (Z * Z)) (rows : list (list Z)),
    concat rows ++ held (full_attn_allocator a) ≡ₚ arange 1 (Z.of_nat (size / n) + 1)
    ∧ m.*2 ++ held (swa_attn_allocator a) ≡ₚ arange 1 (Z.of_nat (size_swa / n) + 1)
    ∧ m.*1 ≡ₚ concat (zip_with (live_pages n) rs rows) ∧ length rows = length rs
    ∧ ∀ i x, rs !! i = Some x → ∃ row k, rows !! i = Some row ∧ kv (sreq (running_req x)) = Some k
        ∧ row_slots x = kv_row n row 0 (length (row_slots x))
        ∧ ∀ q, q < length (row_slots x) → length (row_slots x) ≤ q + window ∨ swa_evicted_seqlen k ≤ q →
            ∃ w, (row !!! (q / n), w) ∈ m ∧ table a (row_slots x !!! q) = slot n w (q mod n).
Proof.
  destruct (reachable_inv window size size_swa n sort (a, rs) Hwin Hn Hreach) as (m&rows&Hinv&Hs). cbn in Hs.
  pose proof (si_hybrid _ _ _ Hinv) as Hh. cbn in Hh. destruct Hs as (Ep&((_&Ef&_)&_)&((_&Ew&_)&_)). cbn [page_size Swa.init] in Ep.
  unfold Swa.init, sub_init in Ef, Ew. destruct (Nat.eqb_spec n 1); [lia|]. cbn in Ef, Ew.
  exists m, rows. split_and!.
  - rewrite (si_full _ _ _ Hinv). cbn. by rewrite Ef.
  - pose proof (hy_img _ _ Hh) as Hi. destruct (si_idle _ _ _ Hinv) as [_ Hq]. cbn in Hq. unfold pending in Hi. rewrite Hq in Hi. cbn [concat] in Hi.
    rewrite freed_pages_nil, Ew in Hi. done.
  - rewrite <-(live_pages_perm _ _ _ _ Hinv). cbn. by rewrite Ep.
  - symmetry. apply (Forall2_length _ _ _ (si_runs _ _ _ Hinv)).
  - intros i x Hx. destruct (run_at _ _ _ _ Hinv i x Hx) as (row&k&Hr&Hok). exists row, k.
    pose proof Hok as [Hpos Hp Hsl Hprot Hk Hal Hla Hlive _]. rewrite Ep in *. split_and!; [done..|]. intros q Hq Hqw.
    destruct (Hlive q Hq) as [Hv Ht]; [unfold live; lia|].
    assert (row_slots x !!! q = row_slot n row q) as ->.
    { rewrite Hsl at 1. apply list_lookup_total_correct. unfold kv_row. rewrite list_lookup_fmap, lookup_seq_lt by done. done. }
    pose proof (hy_table _ _ Hh (row !!! (q / n)) (q mod n)) as Htab. rewrite Ep in Htab.
    specialize (Hv _ ltac:(by left)). rewrite Ep, row_slot_page in Hv by lia.
    destruct (Htab Hv) as [E|(w&Hin&E)]; [apply Nat.mod_upper_bound; lia| |by exists w].
    change (slot n (row !!! (q / n)) (q mod n)) with (row_slot n row q) in E. lia.
Qed.

(** ** Witnesses *)

#[local] Existing Instance no_aux.

(** Eight full pages and four window pages of two slots; one request of five tokens. *)
Definition swa_start : SwaAlloc := Swa.init 16 8 2 false.
Definition swa_core : Req.Req :=
  Req.mkReq (Some 1) 0 5 0 [1; 2; 3; 4; 5]%Z [] [] false (0, 5) None None None [] None false (-1).
Definition swa_req : SwaReq := mkSwaReq (mkBatchReq swa_core (Some (mkKv 5 0)) [] 0 false false 8) 0 1 1.
Definition zeros5 : list Z := replicate 5 0%Z.
Definition swa_after : SwaAlloc :=
  match Swa.alloc_extend zeros5 zeros5 [0] [5] [(-1)%Z] 5 swa_start with Ok (_, a) => a | Raise _ => swa_start end.
Definition swa_running : Running := mkRunning swa_req [2; 3; 4; 5; 6]%Z.
Definition swa_table : ReqToTokenPool unit := mkPool 1 8 [replicate 8 0%Z; [2; 3; 4; 5; 6; 0; 0; 0]%Z] [] [0; 0]%Z None.

Lemma swa_admitted : reachable (X := unit) 2 (swa_start, []) (swa_after, [swa_running]).
Proof.
  eapply reach_step; [apply reach_init|].
  apply (step_admit 2 swa_start [] swa_req 5 zeros5 zeros5); [lia|reflexivity..|vm_compute; reflexivity].
Qed.

Lemma swa_serving_conserves_witness : ∃ (m : list (Z * Z)) (rows : list (list Z)),
  concat rows ++ held (full_attn_allocator swa_after) ≡ₚ arange 1 9 ∧ m.*2 ++ held (swa_attn_allocator swa_after) ≡ₚ arange 1 5
  ∧ length rows = 1.
Proof.
  destruct (swa_serving_conserves (X := unit) 2 16 8 2 false swa_after [swa_running] ltac:(lia) ltac:(lia) swa_admitted)
    as (m&rows&Hf&Hw&_&Hl&_).
  exists m, rows. split; [exact Hf|]. split; [exact Hw|exact Hl].
Defined.

Lemma window_eviction_exact_witness : ∃ r' a' e1,
  free_swa_out_of_window_slots swa_req 5 2 2 true None swa_table swa_after = Ok (r', a')
  ∧ swa_evicted_seqlen <$> kv (sreq r') = Some e1 ∧ idle a'.
Proof.
  destruct (reachable_inv 2 16 8 2 false (swa_after, [swa_running]) ltac:(lia) ltac:(lia) swa_admitted) as (m&rows&Hinv&_).
  destruct (run_at _ _ _ _ Hinv 0 swa_running eq_refl) as (row&k&Hr&Hok).
  assert (row_in_pool swa_table swa_running) as Hp by (eexists; split; reflexivity).
  destruct (window_eviction_exact m swa_after swa_table swa_req k row 5 2 true 5 (si_hybrid _ _ _ Hinv) (si_idle _ _ _ Hinv)
    (run_windowed_req _ _ _ _ Hinv swa_table 0 swa_running row k eq_refl Hr Hok Hp) ltac:(lia)) as (r'&a'&e1&He&Hk&_&_&_&_&_&_&_&_&_&Hi).
  exists r', a', e1. split; [exact He|]. split; [exact Hk|exact Hi].
Defined.

(** The request gives its first page of window slots back, and then everything. *)
Definition swa_ops : list release := [FreeSwa [2; 3]%Z; Free [2; 3; 4; 5; 6]%Z].

Lemma swa_free_group_deferred_witness : ∃ a1 a2, do_releases swa_ops swa_after = Ok a1
  ∧ (let! b := do_releases swa_ops (Swa.free_group_begin swa_after) in Swa.free_group_end b) = Ok a2
  ∧ held (swa_attn_allocator a2) ≡ₚ held (swa_attn_allocator a1).
Proof.
  destruct (reachable_inv 2 16 8 2 false (swa_after, [swa_running]) ltac:(lia) ltac:(lia) swa_admitted) as (m&rows&Hinv&_).
  assert (releases_ok swa_ops swa_after) as Hok.
  { split; [split|].
    - apply (bool_decide_eq_true_1 (NoDup _)). vm_compute. reflexivity.
    - apply Forall_forall. vm_compute. repeat constructor; discriminate.
    - assert (page_size swa_after = 2) as E by (vm_compute; reflexivity).
      assert (num_pages (full_attn_allocator swa_after) = 8) as En by (vm_compute; reflexivity).
      apply Forall_cons. split; [|apply Forall_cons; split; [|by apply Forall_nil]]; (split; [|by rewrite E]);
        unfold slots_valid; rewrite E, En; apply Forall_forall; cbn [unwindowed].
      + repeat (apply Forall_cons; split; [lia|]). by apply Forall_nil.
      + by apply Forall_nil. }
  destruct (swa_free_group_deferred m swa_after swa_ops (si_hybrid _ _ _ Hinv) (si_idle _ _ _ Hinv) Hok) as (a1&a2&E1&E2&_&_&_&Hw&_).
  exists a1, a2. split; [exact E1|]. split; [exact E2|exact Hw].
Defined.

(** A prompt of six tokens, the first two in the cache: with a window of two the tail is
    the last page. *)
Lemma decode_prealloc_window_witness : ∃ F a',
  alloc_for_decode_prealloc [0; 0; 0; 0]%Z [0; 0]%Z (sreq swa_req) 6 4 2 2 [2; 3]%Z true
    (swa_tail_len true false (Some 2%Z) 2 6) swa_after
  = Ok (Some (kv_row 2 (1%Z :: F) 2 4), a', set_kv (Some (mkKv 6 4)) (sreq swa_req))
  ∧ windowed a' (row_slot 2 (1%Z :: F) 4) ∧ table a' (row_slot 2 (1%Z :: F) 2) = 0%Z.
Proof.
  destruct (reachable_inv 2 16 8 2 false (swa_after, [swa_running]) ltac:(lia) ltac:(lia) swa_admitted) as (m&rows&Hinv&_).
  pose proof (decode_prealloc_window false 2 m swa_after (sreq swa_req) [1%Z] 2 6 [0; 0; 0; 0]%Z [0; 0]%Z (si_hybrid _ _ _ Hinv)
    ltac:(vm_compute; lia) ltac:(lia) ltac:(lia) eq_refl eq_refl ltac:(vm_compute; lia) eq_refl eq_refl) as H.
  assert ((npages 2 6 - npages 2 2 <=? length (held (full_attn_allocator swa_after)))
    && (npages 2 (swa_tail_len true false (Some 2%Z) 2 6) <=? length (held (swa_attn_allocator swa_after))) = true) as Hb
    by (vm_compute; reflexivity).
  assert (page_size swa_after = 2) as Ep by (vm_compute; reflexivity).
  cbv zeta in H. rewrite Ep, Hb in H. destruct H as (F&W&a'&E&_&_&_&_&Hwin&Hz&_).
  exists F, a'. split; [exact E|]. split; [apply Hwin; lia|]. apply Hz. vm_compute. lia.
Defined.

(** ** A decode step without window pages *)

(** Eight full pages and two window pages; the request below holds four tokens. *)
Definition narrow_after : res (option (list Z) * SwaAlloc) :=
  Swa.alloc_extend [0; 0; 0; 0]%Z [0; 0; 0; 0]%Z [0] [4] [(-1)%Z] 4 (Swa.init 16 4 2 false).

(** [alloc_decode], unlike [alloc_extend], does not ask both pools first: when the window
    pool is empty it returns [None] and the page it took from the full pool is in no
    free list and in no row. *)
Lemma swa_decode_leaks : ∃ loc a a', narrow_after = Ok (Some loc, a)
  ∧ Swa.alloc_decode [0]%Z [0]%Z [5] [5]%Z a = Ok (None, a')
  ∧ loc = [2; 3; 4; 5]%Z ∧ held (full_attn_allocator a) = [3; 4; 5; 6; 7; 8]%Z
  ∧ held (full_attn_allocator a') = [4; 5; 6; 7; 8]%Z ∧ held (swa_attn_allocator a') = [].
Proof. vm_compute. do 3 eexists. split_and!; reflexivity. Qed.
