(* ===== verification/SwaEvict.v ===== *)
(** * Eviction for a whole batch

    [ScheduleBatch.maybe_evict_swa] before a decode step: the loop over the batch inside
    a free group, the gate that waits for [eviction_interval] tokens, and what the
    window pool is left to hold for each request. *)

From stdpp Require Import base tactics numbers list gmap sorting strings.
From Stdlib Require Import ZArith Lia ZifyNat.
From S2P Require Import Prelude RadixKey TreeNode RadixCache Allocator AllocFree AllocCorrect AllocKernel AllocExtend PoolAlloc.
From S2P Require Import Requests ReqPool RadixReq BatchAlloc SwaAlloc SwaInv SwaFree SwaGrow SwaCorrect SwaWindow SwaLife SwaSystem SwaReach SwaClaims.

Local Open Scope nat_scope.

(** A request of the batch with its KV. *)
Record Held := mkHeld {
  h_req : SwaReq;
  h_kv : ReqKvInfo;
  h_row : list Z;
  h_len : nat;
}.
Definition h_pre (h : Held) : Z := (Z.of_nat (Req.seqlen (core (sreq (h_req h)))) - 1)%Z.

Section Batch.
Context {X : Type} `{!AuxCache X} (p : ReqToTokenPool X) (chunk overlap : bool) (window : nat) (interval cps : Z).

Definition held_ok (a : SwaAlloc) (h : Held) : Prop :=
  windowed_req p a (h_req h) (h_kv h) (h_row h) (h_len h) ∧ (h_pre h ≤ Z.of_nat (h_len h))%Z.

(** What eviction does to one request: bounded overhang, window kept. *)
Definition evicted_ok (n : nat) (h : Held) (r' : SwaReq) (a a' : SwaAlloc) : Prop :=
  ∃ e, swa_evicted_seqlen <$> kv (sreq r') = Some e
    ∧ (1 ≤ decode_batch_idx (h_req h) →
       (h_pre h - Z.of_nat e < Z.of_nat (if chunk then window else max window n) + Z.max (Z.of_nat n) (Z.max 1 interval))%Z)
    ∧ ∀ q, q < h_len h → (h_pre h - Z.of_nat window ≤ Z.of_nat q)%Z →
        table a' (row_slot n (h_row h) q) = table a (row_slot n (h_row h) q).

Local Abbreviation one n := (evict_one DECODE chunk overlap window n interval cps (λ _, None)).

Lemma evict_one_spec m b h pre : hybrid m b → held_ok b h →
  ∃ m' r' b', one (page_size b) (h_req h) pre p b = Ok (r', b') ∧ hybrid m' b' ∧ same_swa b b'
    ∧ full_attn_allocator b' = full_attn_allocator b ∧ not_in_free_group b' = not_in_free_group b
    ∧ swa_free_group_full b' = swa_free_group_full b
    ∧ (∀ x, slots_valid b [x] → (x / Z.of_nat (page_size b))%Z ∉ h_row h → table b' x = table b x)
    ∧ evicted_ok (page_size b) h r' b b'.
Proof using.
  intros H [Hw Hpre]. pose proof (hy_ps m b H) as Hn. set (n := page_size b) in *. unfold evict_one.
  pose proof Hw as [Hk (slots&_&_&Hlen) Hnd Hpg Hprot Hev]. fold n in Hlen, Hprot, Hev. rewrite Hk. fold (h_pre h).
  destruct (_ && _) eqn:Eg.
  - unfold evict_swa. destruct (evict_hybrid m b H p (h_req h) (h_kv h) (h_row h) (h_len h) Hw window chunk None (h_pre h) Hpre)
      as (b'&He&Hh&Hs&Hf&Hc&Hg&Hq&_). fold n in He, Hh, Hc. rewrite He.
    set (e0 := evict_start _ _ _) in *. set (e1 := evict_to _ _ _ _ _ _ _) in *.
    pose proof (evict_to_window n window chunk None (h_req h) (h_kv h) (h_pre h) Hn Hprot Hev) as Hwi. fold e0 e1 in Hwi.
    destruct (evict_to_aligned n window chunk None (h_req h) (h_kv h) (h_pre h) Hn Hprot Hev) as [Ha1 H01]. fold e0 e1 in H01, Ha1.
    pose proof (evict_start_aligned n (h_req h) (h_kv h) Hn Hprot Hev) as Ha0. fold e0 in Ha0.
    eexists _, (set_evicted e1 (h_req h)), b'. split; [done|]. split; [done|]. split; [done|]. split_and!; [done..| |].
    + intros x Hx Hni. rewrite Hc by (apply Hx; by left). rewrite decide_False; [done|]. fold n. rewrite page_ids_kv_row by done.
      intros (q&E&Hqs%elem_of_seq)%list_elem_of_fmap. apply Hni. rewrite E. apply list_elem_of_lookup_total_2.
      destruct (decide (e0 < e1)) as [Hlt|]; [specialize (Hwi Hlt)|lia]. apply Nat.Div0.div_lt_upper_bound. lia.
    + exists e1. split_and!.
      * unfold set_evicted. by rewrite Hk.
      * intros _. pose proof (evict_to_reaches n window chunk (h_req h) (h_kv h) (h_pre h) Hn) as Hr. fold e1 in Hr. lia.
      * intros q Hq' Hqw. assert (q < length (h_row h) * n) as Hql by lia.
        rewrite Hc. 2:{ fold n. rewrite row_slot_page by done. assert (q / n < length (h_row h)) by (apply Nat.Div0.div_lt_upper_bound; lia).
          pose proof (Hpg (h_row h !!! (q / n)) ltac:(by apply list_elem_of_lookup_total_2)). lia. }
        rewrite decide_False; [done|]. fold n. destruct (decide (e0 < e1)) as [Hlt|].
        -- specialize (Hwi Hlt). rewrite page_of_position by (done || lia || by replace (e0 + (e1 - e0)) with e1 by lia). lia.
        -- replace (e1 - e0) with 0 by lia. apply not_elem_of_nil.
  - exists m, (h_req h), b. split_and!; try done. exists (swa_evicted_seqlen (h_kv h)). split_and!; [by rewrite Hk| |done].
    intros Hd. rewrite (proj2 (Nat.leb_le 1 _) Hd) in Eg. cbn [andb] in Eg. apply Z.leb_gt in Eg.
    destruct chunk; lia.
Qed.

Local Abbreviation all n := (evict_all DECODE chunk overlap window n interval cps (λ _, None)).

Lemma held_ok_same a a' h : same_swa a a' → held_ok a h → held_ok a' h.
Proof using. intros Hs [??]. split; [by eapply windowed_req_same|done]. Qed.

Lemma row_page_in n row q : 0 < n → q < length row * n → (row_slot n row q / Z.of_nat n)%Z ∈ row.
Proof using.
  intros Hn Hq. rewrite row_slot_page by done. apply list_elem_of_lookup_total_2, Nat.Div0.div_lt_upper_bound. lia.
Qed.

Lemma evict_all_spec hs m b pre_lens : hybrid m b → Forall (held_ok b) hs → NoDup (concat (h_row <$> hs)) →
  ∃ m' rs' b', all (page_size b) (h_req <$> hs) pre_lens p b = Ok (rs', b') ∧ hybrid m' b' ∧ same_swa b b'
    ∧ full_attn_allocator b' = full_attn_allocator b ∧ not_in_free_group b' = not_in_free_group b
    ∧ swa_free_group_full b' = swa_free_group_full b
    ∧ (∀ x, slots_valid b [x] → (x / Z.of_nat (page_size b))%Z ∉ concat (h_row <$> hs) → table b' x = table b x)
    ∧ Forall2 (λ h r', evicted_ok (page_size b) h r' b b') hs rs'.
Proof using.
  revert m b pre_lens. induction hs as [|h hs IH]; intros m b pre_lens H Hok Hnd.
  { exists m, [], b. by split_and!. }
  apply Forall_cons in Hok as [Hh Hok]. cbn [fmap list_fmap concat evict_all] in *. apply NoDup_app in Hnd as (Hnd1&Hd&Hnd).
  destruct (evict_one_spec m b h (head pre_lens) H Hh) as (m1&r1&b1&->&H1&Hs1&Hf1&Hg1&Hq1&Ht1&Hev1). res_step.
  pose proof (proj1 Hs1) as Ep. destruct (IH m1 b1 (drop 1 pre_lens) H1) as (m2&rs'&b2&Hrun&H2&Hs2&Hf2&Hg2&Hq2&Ht2&Hev2);
    [eapply Forall_impl; [done|intros; by eapply held_ok_same]|done|]. rewrite Ep in Hrun, Ht2, Hev2. rewrite Hrun. res_step.
  pose proof (hy_ps m b H) as Hn.
  assert (∀ h' q, held_ok b h' → q < h_len h' → slots_valid b [row_slot (page_size b) (h_row h') q]
    ∧ (row_slot (page_size b) (h_row h') q / Z.of_nat (page_size b))%Z ∈ h_row h') as Hv.
  { intros h' q [[_ (sl&_&_&Hl) _ Hpg _ _] _] Hq. assert (q < length (h_row h') * page_size b) as Hql by lia.
    pose proof (row_page_in _ _ _ Hn Hql) as Hin. split; [|done]. intros x ->%list_elem_of_singleton. apply Hpg in Hin. lia. }
  exists m2, (r1 :: rs'), b2. split_and!; try done; [by etrans|congruence|congruence|congruence| |constructor].
  - intros x Hx [Hx1 Hx2]%not_elem_of_app. rewrite Ht2; [by apply Ht1|by apply (same_swa_valid b b1)|done].
  - destruct Hev1 as (e&He&Hbd&Hwin). exists e. split_and!; [done..|]. intros q Hq Hqw. destruct (Hv h q Hh Hq) as [Hv1 Hv2].
    rewrite Ht2; [by apply Hwin|by apply (same_swa_valid b b1)|]. by apply Hd.
  - apply Forall2_same_length_lookup. apply Forall2_same_length_lookup in Hev2 as [Hl Hev2]. split; [done|].
    intros i h' r' Hi Hi'. destruct (Hev2 i h' r' Hi Hi') as (e&He&Hbd&Hwin). exists e. split_and!; [done..|].
    intros q Hq Hqw. rewrite Hwin by done. pose proof (Forall_lookup_1 _ _ _ _ Hok Hi) as Hh'.
    destruct (Hv h' q Hh' Hq) as [Hv1 Hv2]. apply Ht1; [done|]. intros Hin. apply (Hd _ Hin), elem_of_concat.
    exists i, (h_row h'). by rewrite list_lookup_fmap, Hi.
Qed.
End Batch.


(** The request of five tokens, evicted behind a window of two. *)
#[local] Existing Instance no_aux.
