(* ===== verification/RadixWitness.v ===== *)
(** * Witnesses for the theorems about the radix cache

    A small concrete cache over the paged allocator, and for every theorem with
    hypotheses one application of it where they hold. *)

From stdpp Require Import base tactics numbers list gmap strings.
From Stdlib Require Import ZArith Lia ZifyNat.
From S2P Require Import Prelude RadixKey TreeNode KvEvents EventQueue RadixCache RadixInv RadixPages RadixAcct.
From S2P Require Import RadixEvents RadixMatch RadixSpec RadixInsert RadixLock RadixEvict RadixContents RadixCorrect.
From S2P Require Import Allocator Requests ReqPool RadixReq.

Definition demo_clock (n : nat) : Z := Z.of_nat n.
Definition demo_hash (k : RadixKey) (prior : option string) (ps : nat) : list string :=
  replicate (klen k / ps) "00".
Definition demo_digest (s : string) : string := s.

Lemma demo_hash_ok : ∀ k prior ps, 0 < ps → klen k mod ps = 0 →
  length (demo_hash k prior ps) = klen k / ps ∧ Forall good_hash (demo_hash k prior ps).
Proof.
  intros k prior ps _ _. unfold demo_hash. split; [apply length_replicate|].
  apply Forall_replicate. exists 0%Z. reflexivity.
Qed.

(** Pages of two tokens, events enabled. *)
Definition demo_blank : RadixCache KvAlloc :=
  mkCache false 2 false false LRUStrategy ∅ 0 0 0 0%Z 0%Z ∅
    (mkRecorder true 2 []) (Paged.init 16 2 false).
Definition demo_empty : RadixCache KvAlloc := reset demo_clock demo_blank.

Definition demo_key (toks : list Z) : RadixKey := radix_key toks None false None None.
Definition key_a : RadixKey := demo_key [1; 2; 3; 4; 5]%Z.
Definition key_b : RadixKey := demo_key [1; 2; 9; 9]%Z.
Definition slots_a : list Z := [2; 3; 4; 5; 6]%Z.

Definition state_of {B} (r : res (RadixCache KvAlloc * B)) : RadixCache KvAlloc :=
  match r with Ok (c, _) => c | Raise _ => demo_empty end.
Definition demo_one : RadixCache KvAlloc :=
  match cache_insert demo_clock demo_hash demo_digest key_a (Some slots_a) None false demo_empty with
  | Ok (c, _, _) => c
  | Raise _ => demo_empty
  end.

Lemma demo_empty_abs : abs demo_empty ∅.
Proof. apply reset_abs; [simpl; lia|done|constructor]. Qed.

Lemma demo_key_for c toks : key_for (A := KvAlloc) c (demo_key toks).
Proof. split; [apply radix_key_salt_ok|done]. Qed.

Definition map_one : PrefixMap :=
  spec_insert ∅ 2 (namespace key_a) (key_units demo_empty key_a) [2; 3; 4; 5]%Z.

Lemma demo_one_abs : abs demo_one map_one.
Proof.
  destruct demo_empty_abs as (φ&Hinv&Hh&HM).
  destruct (cache_insert_spec demo_clock demo_hash demo_digest demo_hash_ok demo_empty φ ∅ key_a
    (Some slots_a) None false Hinv Hh HM (demo_key_for _ _) eq_refl) as (c'&x&φ'&He&Hi).
  { vm_compute. lia. }
  unfold demo_one. rewrite He. exists φ'. split_and!; [apply Hi..|]. intros. apply Hi.
Qed.

Lemma reset_empties_witness : evictable_size demo_empty = 0%Z
  ∧ ∃ c', match_prefix demo_clock key_a demo_empty = Ok (c', empty_match_result demo_empty).
Proof.
  destruct (reset_empties demo_clock demo_blank key_a) as (_&He&_&_&_&Hm); [simpl; lia|done|constructor|].
  split; [exact He|]. apply Hm; [apply demo_key_for|done].
Defined.

Lemma match_prefix_refines_witness : ∃ c' r,
  match_prefix demo_clock key_b demo_one = Ok (c', r) ∧ device_indices r = [2; 3]%Z ∧ abs c' map_one.
Proof.
  destruct (match_prefix_refines demo_clock demo_one map_one key_b demo_one_abs (demo_key_for _ _) eq_refl)
    as (c'&r&He&Ha&Hd&_).
  exists c', r. split; [exact He|]. split; [|exact Ha]. rewrite Hd. vm_compute. reflexivity.
Defined.

Lemma insert_refines_witness : ∃ c' x,
  cache_insert demo_clock demo_hash demo_digest key_b (Some [8; 9; 10; 11]%Z) None false demo_one
    = Ok (c', 2, Some x) ∧ evictable_size c' = 6%Z.
Proof.
  destruct (insert_refines demo_clock demo_hash demo_digest demo_hash_ok demo_one map_one key_b
    [8; 9; 10; 11]%Z None false demo_one_abs (demo_key_for _ _) eq_refl) as (c'&x&He&_&_&_&Hev&_).
  { vm_compute. lia. }
  exists c', x. split; [exact He|]. rewrite Hev. vm_compute. reflexivity.
Defined.

Lemma insert_then_match_witness : ∃ c1 m x c2 r,
  cache_insert demo_clock demo_hash demo_digest key_b (Some [8; 9; 10; 11]%Z) None false demo_one
    = Ok (c1, m, x) ∧ match_prefix demo_clock key_b c1 = Ok (c2, r)
  ∧ device_indices r = [2; 3; 10; 11]%Z.
Proof.
  destruct (insert_then_match demo_clock demo_hash demo_digest demo_hash_ok demo_one map_one key_b
    [8; 9; 10; 11]%Z None false demo_one_abs (demo_key_for _ _) eq_refl) as (c1&m&x&c2&r&H1&H2&H3&_).
  { vm_compute. lia. }
  exists c1, m, x, c2, r. split; [exact H1|]. split; [exact H2|]. rewrite H3. vm_compute. reflexivity.
Defined.

Lemma evict_frees_witness : ∃ (c' : RadixCache KvAlloc) (freed : list (list Z)),
  evict demo_hash demo_digest 3 demo_one = Ok (c', length (concat freed))
  ∧ (3 ≤ length (concat freed) ∨ evictable_size c' = 0%Z).
Proof.
  destruct (evict_frees demo_hash demo_digest demo_hash_ok demo_one map_one 3 demo_one_abs eq_refl)
    as (c'&freed&He&_&_&Hd&_).
  exists c', freed. split; [exact He|exact Hd].
Defined.

(** The cache with its only leaf, node 1, locked. *)
Definition demo_locked : RadixCache KvAlloc := state_of (inc_lock_ref 1 demo_one).

Lemma demo_locked_abs : abs demo_locked map_one.
Proof.
  destruct demo_one_abs as (φ&Hinv&Hh&HM).
  destruct (inc_lock_ref_walked demo_one φ 1 Hinv eq_refl) as (c'&δ&He&Hw).
  { eexists. vm_compute. reflexivity. }
  destruct (walked_quiet demo_one φ c' _ 1 1 δ Hinv Hw) as (?&Hh'&Hp).
  { intros n Hn Hr. pose proof (ac_own _ (in_acct _ _ Hinv) 1 n Hn Hr). lia. }
  unfold demo_locked. rewrite He. exists φ. split_and!; auto. intros. by rewrite HM, Hp.
Qed.

Definition node_one : TreeNode := default (new_TreeNode 0 0 0) (nodes demo_locked !! 1).

Lemma evict_keeps_locked_witness : ∃ c' k n',
  evict demo_hash demo_digest 3 demo_locked = Ok (c', k) ∧ nodes c' !! 1 = Some n'
  ∧ contents c' !! (namespace key_a, [UTok 1; UTok 2]%Z) = Some [2; 3]%Z.
Proof.
  destruct (evict_keeps_locked demo_hash demo_digest demo_hash_ok demo_locked map_one 3 1 node_one
    [UTok 1; UTok 2]%Z [2; 3]%Z demo_locked_abs eq_refl) as (c'&k&n'&He&Hc&Hn&_).
  - vm_compute. reflexivity.
  - vm_compute. lia.
  - vm_compute. reflexivity.
  - exists [UTok 3; UTok 4]%Z. vm_compute. reflexivity.
  - vm_compute. reflexivity.
  - exists c', k, n'. split; [exact He|]. split; [exact Hn|exact Hc].
Defined.

Lemma lock_unlock_witness : ∃ c1, inc_lock_ref 1 demo_one = Ok (c1, (-4)%Z)
  ∧ dec_lock_ref 1 c1 = Ok (demo_one, 4%Z).
Proof.
  destruct (lock_unlock demo_one map_one 1 demo_one_abs eq_refl) as (c1&δ&He&_&_&_&_&_&_&Hd).
  { eexists. vm_compute. reflexivity. }
  assert (δ = -4)%Z as ->.
  { assert (match inc_lock_ref 1 demo_one with Ok (_, d) => d | Raise _ => 0%Z end = (-4)%Z) as E
      by (vm_compute; reflexivity).
    rewrite He in E. exact E. }
  exists c1. split; [exact He|exact Hd].
Defined.

Lemma store_publishes_chain_witness : ∃ ns' r' hz ph,
  record_store demo_hash demo_digest (nodes demo_one) 1 None (kv_events demo_one) = Ok (ns', r')
  ∧ length hz = 2
  ∧ queue_ops (queue r') = queue_ops (queue (kv_events demo_one)) ++ page_ops key_a GPU 2 0 ph hz.
Proof.
  destruct (store_publishes_chain demo_hash demo_digest demo_hash_ok demo_one map_one 1
    (default (new_TreeNode 0 0 0) (nodes demo_one !! 1)) demo_one_abs) as (ns'&r'&n'&hz&ph&He&_&_&Hl&_&Hq).
  - vm_compute. reflexivity.
  - vm_compute. lia.
  - vm_compute. reflexivity.
  - exists ns', r', hz, ph. split; [exact He|]. split; [exact Hl|]. rewrite Hq. f_equal.
    assert (iter (key (default (new_TreeNode 0 0 0) (nodes demo_one !! 1))) = UTok <$> [1; 2; 3; 4]%Z) as E
      by (vm_compute; reflexivity).
    clear He Hq. destruct hz as [|z1 [|z2 [|]]]; try discriminate Hl. reflexivity.
Defined.

(** ** Requests *)

Definition demo_row : list Z := [8; 9; 10; 11; 12; 0]%Z.
Definition demo_table : ReqToTokenPool unit :=
  mkPool 1 6 [[0; 0; 0; 0; 0; 0]%Z; demo_row] [] [0; 1]%Z None.
(** A request whose prompt shares its first page with [key_a]. *)
Definition demo_request : Req.Req :=
  Req.mkReq (Some 1) 0 0 0 [1; 2; 9; 9; 7]%Z [] [1; 2; 9; 9; 7]%Z false (0, 5) None None None [] (Some 0)
    false (-1).
Definition request_units : list lunit := UTok <$> [1; 2; 9; 9]%Z.

Lemma demo_request_holds : holds_prefix demo_one map_one demo_request demo_row request_units.
Proof.
  split; [|vm_compute; lia|reflexivity].
  exists 0, (default (new_TreeNode 0 0 0) (nodes demo_one !! 0)).
  split_and!; [reflexivity|vm_compute; reflexivity|vm_compute; reflexivity|].
  intros Hr. by vm_compute in Hr.
Qed.

(** The first page was stored already: its slots 8 and 9 are freed. *)
Lemma cache_finished_req_hands_over_witness : ∃ c',
  cache_finished_req demo_clock demo_hash demo_digest demo_request true 5 demo_table demo_one = Ok c'
  ∧ allocator c' = Paged.free_segments [([8; 9]%Z, 0); ([12]%Z, 4)] (allocator demo_one).
Proof.
  destruct (cache_finished_req_hands_over demo_clock demo_hash demo_digest demo_hash_ok demo_one map_one
    demo_table demo_request demo_row 5 demo_one_abs eq_refl eq_refl eq_refl)
    as (c'&He&_&_&Ha&_); [vm_compute; lia|exact demo_request_holds|].
  exists c'. split; [exact He|]. rewrite Ha. vm_compute. reflexivity.
Defined.

Lemma cache_unfinished_req_hands_over_witness : ∃ c' r' p',
  cache_unfinished_req demo_clock demo_hash demo_digest demo_request false demo_table demo_one
    = Ok (c', r', p')
  ∧ req_row p' r' = Ok [2; 3; 10; 11; 12; 0]%Z ∧ Req.cache_protected_len r' = 4.
Proof.
  destruct (cache_unfinished_req_hands_over demo_clock demo_hash demo_digest demo_hash_ok demo_one map_one
    demo_table demo_request demo_row false demo_one_abs eq_refl eq_refl)
    as (c'&r'&p'&He&_&_&_&_&[Hr _]&Hp&_); [vm_compute; lia|exact demo_request_holds|].
  exists c', r', p'. split; [exact He|]. split; [|exact Hp]. rewrite Hr. vm_compute. reflexivity.
Defined.
