(* ===== verification/InputBlocker.v ===== *)
(** * Blocking the scheduler's input

    [SchedulerInputBlocker] of [src/python/sglang/srt/managers/scheduler_input_blocker.py]
    and the barrier it waits on, [PollBasedBarrier] of
    [src/python/sglang/srt/utils/poll_based_barrier.py].  Requests that arrive
    while a rank is blocked are held back and released, in order, when every rank
    has been unblocked.  The collective [all_reduce(MIN)] of the barrier is the
    conjunction over the ranks; one rank sees the conjunction of the others as an
    argument. *)

From stdpp Require Import base tactics list.
From Stdlib Require Import Lia.
From S2P Require Import Prelude.

Inductive State := UNBLOCKED | BLOCKED | GLOBAL_UNBLOCK_BARRIER.
Global Instance State_eq_dec : EqDecision State.
Proof. solve_decision. Defined.

Inductive BlockReqType := BLOCK | UNBLOCK.

(** What a rank receives: a control message or any other request. *)
Inductive message (R : Type) :=
  | BlockReqInput (req_type : BlockReqType)
  | Payload (r : R).
Global Arguments BlockReqInput {_} _ : assert.
Global Arguments Payload {_} _ : assert.

Record SchedulerInputBlocker (R : Type) := mkBlocker {
  state : State;
  pending_reqs : list R;
  noop : bool;
  local_arrived : bool;
}.
Global Arguments mkBlocker {_} _ _ _ _ : assert.
Global Arguments state {_} _ : assert.
Global Arguments pending_reqs {_} _ : assert.
Global Arguments noop {_} _ : assert.
Global Arguments local_arrived {_} _ : assert.

Section Blocker.
Context {R : Type}.
Implicit Types b : SchedulerInputBlocker R.

Definition init (noop : bool) : SchedulerInputBlocker R := mkBlocker UNBLOCKED [] noop false.

Definition change_state (original target : State) b : res (SchedulerInputBlocker R) :=
  assert_ (bool_decide (state b = original)) ;;!
  Ok (mkBlocker target (pending_reqs b) (noop b) (local_arrived b)).

(** [PollBasedBarrier.local_arrive]. *)
Definition local_arrive b : res (SchedulerInputBlocker R) :=
  assert_ (negb (local_arrived b)) ;;!
  Ok (mkBlocker (state b) (pending_reqs b) (noop b) true).

(** [PollBasedBarrier._compute_global_arrived] and [poll_global_arrived];
    [others] is the minimum over the other ranks. *)
Definition compute_global_arrived (others : bool) b : bool := (noop b || local_arrived b) && others.
Definition poll_global_arrived (others : bool) b : SchedulerInputBlocker R * bool :=
  let output := local_arrived b && compute_global_arrived others b in
  (if output then mkBlocker (state b) (pending_reqs b) (noop b) false else b, output).

Definition execute_block_req b : res (SchedulerInputBlocker R) := change_state UNBLOCKED BLOCKED b.

Definition execute_unblock_req b : res (SchedulerInputBlocker R) :=
  let! b := change_state BLOCKED GLOBAL_UNBLOCK_BARRIER b in
  local_arrive b.

Definition handle_arrive_unblock_barrier b : res (SchedulerInputBlocker R * list R) :=
  let! b := change_state GLOBAL_UNBLOCK_BARRIER UNBLOCKED b in
  let output_reqs := pending_reqs b in
  Ok (mkBlocker (state b) [] (noop b) (local_arrived b), output_reqs).

Definition handle_recv_req (recv_req : message R) b : res (SchedulerInputBlocker R * list R) :=
  match recv_req with
  | BlockReqInput BLOCK => let! b := execute_block_req b in Ok (b, [])
  | BlockReqInput UNBLOCK => let! b := execute_unblock_req b in Ok (b, [])
  | Payload r =>
      if decide (state b = UNBLOCKED) then Ok (b, [r])
      else Ok (mkBlocker (state b) (pending_reqs b ++ [r]) (noop b) (local_arrived b), [])
  end.

Fixpoint handle_recv_reqs (recv_reqs : list (message R)) b : res (SchedulerInputBlocker R * list R) :=
  match recv_reqs with
  | [] => Ok (b, [])
  | m :: recv_reqs =>
      let! (b, out) := handle_recv_req m b in
      let! (b, out') := handle_recv_reqs recv_reqs b in
      Ok (b, out ++ out')
  end.

(** [handle]: [None] is what a rank without input passes ([noop]). *)
Definition handle (others : bool) (recv_reqs : option (list (message R))) b
    : res (SchedulerInputBlocker R * option (list R)) :=
  assert_ (Bool.eqb (bool_decide (recv_reqs = None)) (noop b)) ;;!
  let! (b, output_reqs) := handle_recv_reqs (default [] recv_reqs) b in
  let '(b, arrived) := poll_global_arrived others b in
  let! (b, output_reqs) :=
    if bool_decide (state b = GLOBAL_UNBLOCK_BARRIER) && arrived then
      let! (b, released) := handle_arrive_unblock_barrier b in
      Ok (b, output_reqs ++ released)
    else Ok (b, output_reqs) in
  Ok (b, if noop b then None else Some output_reqs).

(** The calls of [handle] in a run of one rank, with what the other ranks say. *)
Fixpoint run (steps : list (bool * list (message R))) b : res (SchedulerInputBlocker R * list R) :=
  match steps with
  | [] => Ok (b, [])
  | (others, msgs) :: steps =>
      let! (b, out) := handle others (Some msgs) b in
      let! (b, out') := run steps b in
      Ok (b, default [] out ++ out')
  end.

Definition payloads (msgs : list (message R)) : list R :=
  omap (λ m, match m with Payload r => Some r | BlockReqInput _ => None end) msgs.

(** Nothing is held back while unblocked, and a rank has arrived at the barrier
    exactly when it waits there. *)
Record blocker_wf b : Prop := {
  bw_pending : state b = UNBLOCKED → pending_reqs b = [];
  bw_arrived : local_arrived b = true ↔ state b = GLOBAL_UNBLOCK_BARRIER;
}.

Lemma init_wf n : blocker_wf (init n).
Proof. by split. Qed.

Lemma handle_recv_reqs_fifo msgs b b' out : blocker_wf b →
  handle_recv_reqs msgs b = Ok (b', out) →
  blocker_wf b' ∧ noop b' = noop b ∧ out ++ pending_reqs b' = pending_reqs b ++ payloads msgs.
Proof.
  revert b out. induction msgs as [|m msgs IH]; intros b out Hw; simpl.
  { intros [= <- <-]. by rewrite app_nil_r. }
  destruct (handle_recv_req m b) as [[b1 o1]|] eqn:Hm; [|done]. res_step.
  destruct (handle_recv_reqs msgs b1) as [[b2 o2]|] eqn:Hr; [|done]. res_step. intros [= <- <-].
  destruct Hw as [Hp Ha]. destruct m as [[]|r]; simpl in Hm.
  - unfold execute_block_req, change_state, assert_ in Hm. case_bool_decide as Hs; [|done].
    cbn [res_bind] in Hm. injection Hm as <- <-.
    assert (local_arrived b = false) as Hl by (destruct (local_arrived b); [destruct Ha; naive_solver congruence|done]).
    assert (blocker_wf (mkBlocker BLOCKED (pending_reqs b) (noop b) (local_arrived b))) as Hw1.
    { split; simpl; [done|]. rewrite Hl. naive_solver. }
    destruct (IH _ o2 Hw1 Hr) as (?&?&?). done.
  - unfold execute_unblock_req, change_state, local_arrive, assert_ in Hm. case_bool_decide as Hs; [|done].
    cbn [res_bind local_arrived] in Hm. destruct (negb (local_arrived b)); [|done]. cbn [res_bind] in Hm.
    injection Hm as <- <-. apply IH in Hr as (?&?&?); [done|by split].
  - case_decide as Hs; injection Hm as <- <-.
    + apply IH in Hr as (?&?&He); [|by split]. split_and!; [done..|].
      rewrite (Hp Hs) in *. simpl in *. by rewrite He.
    + apply IH in Hr as (?&?&He); [|by split]. split_and!; [done..|].
      simpl in *. by rewrite He, <-app_assoc.
Qed.

Lemma handle_fifo others msgs b b' out : blocker_wf b → handle others (Some msgs) b = Ok (b', out) →
  blocker_wf b' ∧ noop b' = noop b ∧ default [] out ++ pending_reqs b' = pending_reqs b ++ payloads msgs.
Proof.
  unfold handle. intros Hw. destruct (noop b) eqn:Hn; [by rewrite bool_decide_false by done|].
  rewrite bool_decide_false by done. cbn [assert_ Bool.eqb res_bind]. change (default [] (Some msgs)) with msgs.
  destruct (handle_recv_reqs msgs b) as [[b1 o1]|] eqn:Hr; [|done]. res_step.
  destruct (handle_recv_reqs_fifo msgs b b1 o1 Hw Hr) as (Hw1&Hn1&He). rewrite Hn in Hn1.
  unfold poll_global_arrived, compute_global_arrived. rewrite Hn1. cbn [orb].
  destruct (local_arrived b1) eqn:Hl, others; cbn [andb state].
  2-4: rewrite andb_false_r; cbn [res_bind noop]; rewrite ?Hn1; intros [= <- <-]; done.
  apply (bw_arrived _ Hw1) in Hl. rewrite bool_decide_true by done. cbn [andb].
  unfold handle_arrive_unblock_barrier, change_state. cbn [state]. rewrite bool_decide_true by done.
  cbn [assert_ res_bind noop pending_reqs state local_arrived]. rewrite ?Hn1. intros [= <- <-].
  cbn [default pending_reqs noop]. rewrite app_nil_r. done.
Qed.

(** ** The protocol, without queues *)

(** How control messages and the barrier move the state; [None] is a message
    that is out of order. *)
Definition proto_msg (m : message R) (s : State) : option State :=
  match m with
  | Payload _ => Some s
  | BlockReqInput BLOCK => if decide (s = UNBLOCKED) then Some BLOCKED else None
  | BlockReqInput UNBLOCK => if decide (s = BLOCKED) then Some GLOBAL_UNBLOCK_BARRIER else None
  end.
Fixpoint proto_msgs (msgs : list (message R)) (s : State) : option State :=
  match msgs with
  | [] => Some s
  | m :: msgs => proto_msg m s ≫= proto_msgs msgs
  end.
Definition proto_step (others : bool) (msgs : list (message R)) (s : State) : option State :=
  (λ s, if decide (s = GLOBAL_UNBLOCK_BARRIER) then (if others then UNBLOCKED else s) else s)
    <$> proto_msgs msgs s.
Fixpoint proto_run (steps : list (bool * list (message R))) (s : State) : option State :=
  match steps with
  | [] => Some s
  | (others, msgs) :: steps => proto_step others msgs s ≫= proto_run steps
  end.

Lemma handle_recv_reqs_proto msgs b : blocker_wf b →
  match proto_msgs msgs (state b) with
  | Some s => ∃ b' out, handle_recv_reqs msgs b = Ok (b', out) ∧ state b' = s
  | None => handle_recv_reqs msgs b = Raise AssertionError
  end.
Proof.
  revert b. induction msgs as [|m msgs IH]; intros b Hw; simpl; [by eauto|].
  assert (∀ b1 o1, handle_recv_req m b = Ok (b1, o1) → blocker_wf b1) as Hkeep.
  { intros b1 o1 Hm. assert (handle_recv_reqs [m] b = Ok (b1, o1 ++ [])) as Hr by (simpl; by rewrite Hm).
    by apply handle_recv_reqs_fifo in Hr as (?&_&_). }
  assert (match proto_msg m (state b) with
          | Some s => ∃ b1 o1, handle_recv_req m b = Ok (b1, o1) ∧ state b1 = s
          | None => handle_recv_req m b = Raise AssertionError
          end) as Hm.
  { destruct m as [[]|r]; simpl; unfold execute_block_req, execute_unblock_req, change_state.
    - destruct (decide (state b = UNBLOCKED)) as [Hs|Hs];
        [rewrite bool_decide_true by done|rewrite bool_decide_false by done]; simpl; eauto.
    - destruct (decide (state b = BLOCKED)) as [Hs|Hs];
        [rewrite bool_decide_true by done|rewrite bool_decide_false by done]; simpl; [|done].
      unfold local_arrive. simpl.
      assert (local_arrived b = false) as ->.
      { destruct (local_arrived b) eqn:E; [|done]. apply (bw_arrived _ Hw) in E. congruence. }
      simpl. eauto.
    - destruct (decide (state b = UNBLOCKED)); simpl; eauto. }
  destruct (proto_msg m (state b)) as [s|]; simpl; [|by rewrite Hm].
  destruct Hm as (b1&o1&Hm&<-). rewrite Hm. res_step. specialize (IH b1 (Hkeep _ _ Hm)).
  destruct (proto_msgs msgs (state b1)) as [s'|]; [|by rewrite IH].
  destruct IH as (b'&out&->&?). simpl. eauto.
Qed.

Lemma handle_proto others msgs b : blocker_wf b → noop b = false →
  match proto_step others msgs (state b) with
  | Some s => ∃ b' out, handle others (Some msgs) b = Ok (b', Some out) ∧ state b' = s
  | None => handle others (Some msgs) b = Raise AssertionError
  end.
Proof.
  intros Hw Hn. pose proof (handle_recv_reqs_proto msgs b Hw) as Hp. unfold proto_step, handle.
  rewrite Hn, bool_decide_false by done. cbn [assert_ Bool.eqb res_bind].
  change (default [] (Some msgs)) with msgs.
  destruct (proto_msgs msgs (state b)) as [s|]; simpl; [|by rewrite Hp].
  destruct Hp as (b1&o1&He&<-). rewrite He. res_step.
  destruct (handle_recv_reqs_fifo msgs b b1 o1 Hw He) as ([_ Ha]&Hn1&_). rewrite Hn in Hn1.
  unfold poll_global_arrived, compute_global_arrived. rewrite Hn1. cbn [orb].
  destruct (local_arrived b1) eqn:El; cbn [andb].
  - assert (state b1 = GLOBAL_UNBLOCK_BARRIER) as Es by by apply Ha. rewrite decide_True by done.
    destruct others; cbn [state andb].
    + rewrite bool_decide_true by done. cbn [andb].
      unfold handle_arrive_unblock_barrier, change_state. cbn [state]. rewrite bool_decide_true by done.
      cbn [assert_ res_bind noop]. rewrite ?Hn1. eauto.
    + rewrite andb_false_r. res_step. rewrite ?Hn1. eauto.
  - rewrite decide_False by (intros Es; apply Ha in Es; congruence).
    rewrite andb_false_r. res_step. rewrite ?Hn1. eauto.
Qed.

(** C34: over any run of a rank, the blocker follows the protocol exactly: it
    raises (an assertion) if and only if a control message comes out of order,
    and otherwise it ends in the protocol's state having neither lost, duplicated
    nor reordered a request: what it has handed out followed by what it still
    holds back is exactly what it received, and it holds nothing back when it is
    unblocked. *)
Theorem blocker_follows_protocol steps :
  match proto_run steps UNBLOCKED with
  | None => run steps (init false) = Raise AssertionError
  | Some s => ∃ b out, run steps (init false) = Ok (b, out) ∧ state b = s
      ∧ out ++ pending_reqs b = payloads (concat (snd <$> steps))
      ∧ (s = UNBLOCKED → out = payloads (concat (snd <$> steps)))
  end.
Proof.
  assert (∀ b, blocker_wf b → noop b = false →
    match proto_run steps (state b) with
    | None => run steps b = Raise AssertionError
    | Some s => ∃ b' out, run steps b = Ok (b', out) ∧ state b' = s ∧ blocker_wf b'
        ∧ out ++ pending_reqs b' = pending_reqs b ++ payloads (concat (snd <$> steps))
    end) as Hrun.
  { induction steps as [|[others msgs] steps IH]; intros b Hw Hn; simpl.
    { eexists _, _. split_and!; [done..|]. by rewrite app_nil_r. }
    pose proof (handle_proto others msgs b Hw Hn) as Hp.
    destruct (proto_step others msgs (state b)) as [s|]; simpl; [|by rewrite Hp].
    destruct Hp as (b1&o1&He&<-). rewrite He. res_step.
    destruct (handle_fifo others msgs b b1 (Some o1) Hw He) as (Hw1&Hn1&Hf).
    specialize (IH b1 Hw1 ltac:(congruence)). destruct (proto_run steps (state b1)) as [s'|]; [|by rewrite IH].
    destruct IH as (b'&out&->&?&?&Hf'). res_step. eexists _, _. split_and!; [done..|].
    cbn [default] in *. unfold payloads in *. rewrite omap_app, app_assoc, <-Hf, <-!app_assoc. by f_equal. }
  specialize (Hrun (init false) (init_wf false) eq_refl). simpl in Hrun.
  destruct (proto_run steps UNBLOCKED) as [s|]; [|done].
  destruct Hrun as (b&out&He&Hs&[Hp _]&Hf). exists b, out. split_and!; [done..|].
  intros Hu. rewrite <-Hf, Hp, app_nil_r by congruence. done.
Qed.
End Blocker.

(** ** All ranks in lockstep

    One scheduler iteration: every rank calls [handle] and the barrier takes the
    minimum over all ranks. *)
Section System.
Context {R : Type}.
Implicit Types b : SchedulerInputBlocker R.

Definition arrived_after (b : SchedulerInputBlocker R) (recv : list (message R)) : bool :=
  match handle_recv_reqs recv b with
  | Ok (b', _) => noop b' || local_arrived b'
  | Raise _ => false
  end.

Fixpoint system_step (all : bool) (ranks : list (SchedulerInputBlocker R * list (message R)))
    : res (list (SchedulerInputBlocker R)) :=
  match ranks with
  | [] => Ok []
  | (b, recv) :: ranks =>
      let! (b, _) := handle all (if noop b then None else Some recv) b in
      let! bs := system_step all ranks in
      Ok (b :: bs)
  end.
Definition system_handle (ranks : list (SchedulerInputBlocker R * list (message R)))
    : res (list (SchedulerInputBlocker R)) :=
  system_step (forallb (λ '(b, recv), arrived_after b recv) ranks) ranks.

Lemma handle_noop all b b' o : noop b = true → handle all None b = Ok (b', o) → noop b' = noop b.
Proof.
  unfold handle, poll_global_arrived. intros Hn. rewrite Hn. cbn [assert_ Bool.eqb res_bind bool_decide].
  rewrite bool_decide_true by done. cbn [assert_ Bool.eqb res_bind default handle_recv_reqs].
  destruct (local_arrived b && compute_global_arrived all b);
    cbn [state]; destruct (bool_decide (state b = GLOBAL_UNBLOCK_BARRIER)); cbn [andb];
    unfold handle_arrive_unblock_barrier, change_state; cbn [state];
    try (destruct (bool_decide _); cbn [assert_ res_bind noop]); try done;
    intros [= <- _]; done.
Qed.

(** C35: the ranks leave the barrier together: after a lockstep iteration, either
    no rank that waited or arrived at the barrier has been released, or every
    rank that takes input is unblocked; no rank is ever released while another
    one is still blocked. *)
Theorem ranks_unblock_together ranks bs :
  Forall (λ '(b, _), blocker_wf b) ranks → system_handle ranks = Ok bs →
  if forallb (λ '(b, recv), arrived_after b recv) ranks
  then Forall (λ b, noop b = false → state b = UNBLOCKED) bs
  else Forall2 (λ '(b, recv) b', noop b = false → proto_msgs recv (state b) = Some (state b')) ranks bs.
Proof.
  intros Hw. unfold system_handle.
  assert (∀ all bs, system_step all ranks = Ok bs →
    Forall2 (λ '(b, recv) b', noop b' = noop b ∧ (noop b = false →
      proto_step all recv (state b) = Some (state b')
      ∧ (arrived_after b recv = true → all = true → state b' = UNBLOCKED))) ranks bs) as Hstep.
  { intros all. induction Hw as [|[b recv] ranks Hb _ IH]; intros bs'; simpl; [by intros [= <-]|].
    destruct (noop b) eqn:Hn.
    - destruct (handle all None b) as [[b' o]|] eqn:He; [|done]. res_step.
      destruct (system_step all ranks) as [bs''|] eqn:E; [|done]. res_step. intros [= <-].
      constructor; [|by apply IH]. split; [by eapply handle_noop|congruence].
    - pose proof (handle_proto all recv b Hb Hn) as Hp.
      destruct (handle all (Some recv) b) as [[b' o]|] eqn:He; [|done]. res_step.
      destruct (system_step all ranks) as [bs''|] eqn:E; [|done]. res_step. intros [= <-].
      destruct (handle_fifo all recv b b' o Hb He) as (_&Hn'&_).
      constructor; [|by apply IH]. split; [congruence|]. intros _.
      destruct (proto_step all recv (state b)) as [s|] eqn:Ep; [|done].
      destruct Hp as (b''&out&Heq&<-); injection Heq as -> ->. split; [done|]. intros Harr ->.
      unfold arrived_after in Harr. destruct (handle_recv_reqs recv b) as [[b1 o1]|] eqn:Er; [|done].
      destruct (handle_recv_reqs_fifo recv b b1 o1 Hb Er) as ([_ Ha]&Hn1&_).
      rewrite Hn1, Hn in Harr. apply Ha in Harr.
      pose proof (handle_recv_reqs_proto recv b Hb) as Hpr. unfold proto_step in Ep.
      destruct (proto_msgs recv (state b)) as [s|]; [|done]. destruct Hpr as (b2&o2&Er2&<-).
      assert (b2 = b1) as -> by congruence. simpl in Ep. rewrite decide_True in Ep by done. congruence. }
  intros Hs. specialize (Hstep _ _ Hs). destruct (forallb _ ranks) eqn:Hall in Hstep |- *.
  - clear Hs Hw. revert Hall. induction Hstep as [|[b recv] b' ranks bs [Hn Hb] _ IH]; simpl; [constructor|].
    intros [Ha Hall]%andb_true_iff. constructor; [|by apply IH]. intros Hn'. apply Hb; congruence.
  - eapply Forall2_impl; [done|]. intros [b recv] b' [_ Hb] Hn. destruct (Hb Hn) as [Hp _].
    unfold proto_step in Hp. destruct (proto_msgs recv (state b)) as [s|]; [|done]. simpl in Hp.
    by destruct (decide (s = GLOBAL_UNBLOCK_BARRIER)).
Qed.
End System.

Lemma ranks_unblock_together_witness :
  Forall (λ b, noop b = false → state b = UNBLOCKED)
    [mkBlocker UNBLOCKED [] false false; mkBlocker UNBLOCKED ([] : list nat) false false].
Proof.
  exact (ranks_unblock_together (R := nat)
    [(mkBlocker GLOBAL_UNBLOCK_BARRIER [7] false true, [Payload 8]);
     (mkBlocker BLOCKED [9] false false, [BlockReqInput UNBLOCK])]
    [mkBlocker UNBLOCKED [] false false; mkBlocker UNBLOCKED [] false false]
    ltac:(repeat constructor; simpl; intros; done) eq_refl).
Defined.
