(* ===== verification/SchedControl.v ===== *)
(** * Small control loops of the scheduler

    Three policies that throttle the scheduler: when to poll for new requests
    ([SchedulerRecvSkipper], scheduler_components/recv_skipper.py), how many free
    slots to wait for before admitting prefills ([MinFreeSlotsDelayer],
    min_free_slots_delayer.py), and how much output to expect of running requests
    ([NewTokenRatioTracker], scheduler_components/new_token_ratio_tracker.py), all
    under [src/python/sglang/srt/managers/].  Floats are rationals; settings read
    from the environment are arguments. *)

From stdpp Require Import base tactics numbers list gmap.
From Stdlib Require Import ZArith Lia ZifyNat QArith Qminmax Qround Lqa.
From S2P Require Import Prelude.

(** ** When to receive *)

Module RecvSkipper.

Inductive ForwardMode :=
  | EXTEND | DECODE | MIXED | IDLE | TARGET_VERIFY | DRAFT_EXTEND_V2 | PREBUILT | SPLIT_PREFILL
  | DLLM_EXTEND.
Global Instance ForwardMode_eq_dec : EqDecision ForwardMode.
Proof. solve_decision. Defined.

(** [derive_forward_mode]: the gathered modes as a set. *)
Definition derive_forward_mode (gathered_modes : list ForwardMode) : option ForwardMode :=
  let active := filter (λ m, m ≠ IDLE ∧ m ≠ PREBUILT) gathered_modes in
  if decide (active = []) then None
  else if decide (filter (λ m, m ≠ DECODE ∧ m ≠ TARGET_VERIFY) active = []) then
    if decide (Forall (λ m, m = TARGET_VERIFY) active) then Some TARGET_VERIFY else Some DECODE
  else Some EXTEND.

(** The modes of the last batch that the skipper looks at. *)
Record ScheduleBatch := mkBatch {
  forward_mode : option ForwardMode;
  recv_skipper_forward_mode : option ForwardMode;
}.

Record SchedulerRecvSkipper := mkSkipper {
  use_synced_mode : bool;
  counter : Z;
  threshold : Z;
  default_weight : Z;
  weight_decode : Z;
  weight_target_verify : Z;
  weight_none : Z;
}.

Definition maybe_create (enable_dp_attention : bool) (recv_interval w_default w_decode w_verify w_none : Z)
    : option SchedulerRecvSkipper :=
  if (recv_interval <=? 1)%Z then None
  else Some (mkSkipper enable_dp_attention 0 recv_interval w_default w_decode w_verify w_none).

(** [self._weight_of_forward_mode.get(mode, self._default_weight)]. *)
Definition weight_of_forward_mode (mode : option ForwardMode) (s : SchedulerRecvSkipper) : Z :=
  match mode with
  | Some DECODE => weight_decode s
  | Some TARGET_VERIFY => weight_target_verify s
  | None => weight_none s
  | Some _ => default_weight s
  end.

Definition pick_mode (last_batch : option ScheduleBatch) (s : SchedulerRecvSkipper) : option ForwardMode :=
  match last_batch with
  | None => None
  | Some b => if use_synced_mode s then recv_skipper_forward_mode b else forward_mode b
  end.

Definition set_counter (c : Z) (s : SchedulerRecvSkipper) : SchedulerRecvSkipper :=
  mkSkipper (use_synced_mode s) c (threshold s) (default_weight s) (weight_decode s)
    (weight_target_verify s) (weight_none s).

Definition handle (last_batch : option ScheduleBatch) (s : SchedulerRecvSkipper)
    : SchedulerRecvSkipper * bool :=
  let last_weight := weight_of_forward_mode (pick_mode last_batch s) s in
  let counter := (counter s + last_weight)%Z in
  if (threshold s <=? counter)%Z then (set_counter 0 s, true) else (set_counter counter s, false).

Fixpoint handles (batches : list (option ScheduleBatch)) (s : SchedulerRecvSkipper)
    : SchedulerRecvSkipper * list bool :=
  match batches with
  | [] => (s, [])
  | b :: batches =>
      let '(s, r) := handle b s in
      let '(s, rs) := handles batches s in
      (s, r :: rs)
  end.

(** Positive weights and a counter below the threshold. *)
Record skipper_wf (s : SchedulerRecvSkipper) : Prop := {
  sw_counter : (0 <= counter s < threshold s)%Z;
  sw_weight : ∀ m, (1 <= weight_of_forward_mode m s)%Z;
}.

Lemma handle_wf b s : skipper_wf s → skipper_wf (handle b s).1 ∧ threshold (handle b s).1 = threshold s
  ∧ ((handle b s).2 = false → (counter s < counter (handle b s).1)%Z).
Proof.
  intros [Hc Hw]. pose proof (Hw (pick_mode b s)). unfold handle.
  assert (∀ c m, weight_of_forward_mode m (set_counter c s) = weight_of_forward_mode m s) as He
    by (by intros c [[]|]).
  destruct (Z.leb_spec (threshold s) (counter s + weight_of_forward_mode (pick_mode b s) s)); simpl;
    (split_and!; [split; [simpl; lia|intros m; rewrite He; apply Hw]|done|intros; (done || lia)]).
Qed.

(** The skipper never starves the input: as long as its weights are at least
    one, any [threshold] consecutive iterations contain one that receives, and
    its counter stays below the threshold. *)
Theorem recv_within_threshold s batches :
  skipper_wf s → (threshold s <= Z.of_nat (length batches))%Z →
  true ∈ (handles batches s).2 ∧ skipper_wf (handles batches s).1.
Proof.
  assert (∀ batches s, skipper_wf s → skipper_wf (handles batches s).1
    ∧ ((threshold s <= counter s + Z.of_nat (length batches))%Z → true ∈ (handles batches s).2)) as Hh.
  { clear. induction batches as [|b batches IH]; intros s Hw; simpl.
    { split; [done|]. pose proof (sw_counter _ Hw). lia. }
    destruct (handle_wf b s Hw) as (Hw1&Ht&Hlt). destruct (handle b s) as [s1 r] eqn:E. simpl in *.
    destruct (IH s1 Hw1) as [Hw2 Hin]. destruct (handles batches s1) as [s2 rs]. simpl in *.
    split; [done|]. intros Hle. destruct r; [set_solver|]. apply list_elem_of_further, Hin. specialize (Hlt eq_refl). lia. }
  intros Hw Hle. destruct (Hh batches s Hw) as [? Hin]. split; [|done]. apply Hin.
  pose proof (sw_counter _ Hw). lia.
Qed.

Lemma recv_within_threshold_witness :
  true ∈ (handles [None; None; None] (mkSkipper false 1 3 1000 1 1 1)).2.
Proof.
  apply (recv_within_threshold (mkSkipper false 1 3 1000 1 1 1) [None; None; None]); [|simpl; lia].
  split; [simpl; lia|]. intros [[]|]; simpl; lia.
Defined.

Lemma nil_ext (l l' : list ForwardMode) : (∀ m, m ∈ l ↔ m ∈ l') → (l = [] ↔ l' = []).
Proof. destruct l, l'; set_solver. Qed.

Lemma decide_ext' {P Q : Prop} `{!Decision P, !Decision Q} {A} (a a' b b' : A) :
  (P ↔ Q) → a = a' → b = b' → (if decide P then a else b) = (if decide Q then a' else b').
Proof. intros HPQ -> ->. by apply decide_ext. Qed.

(** The synced mode depends only on the set of modes the ranks reported, not
    on their order or multiplicity, and any rank that is prefilling makes the
    whole group receive promptly. *)
Theorem derive_forward_mode_set ms ms' :
  (∀ m, m ∈ ms ↔ m ∈ ms') →
  derive_forward_mode ms = derive_forward_mode ms'
  ∧ (∀ m, m ∈ ms → m ∉ [IDLE; PREBUILT; DECODE; TARGET_VERIFY] → derive_forward_mode ms = Some EXTEND).
Proof.
  intros Hm.
  assert (∀ P `{!∀ m : ForwardMode, Decision (P m)} m, m ∈ filter P ms ↔ m ∈ filter P ms') as Hf.
  { intros P ? m. rewrite !list_elem_of_filter. by rewrite Hm. }
  split.
  - unfold derive_forward_mode.
    apply decide_ext'; [by apply nil_ext|done|].
    apply decide_ext'; [|apply decide_ext'; [|done..]|done].
    + apply nil_ext. intros m. rewrite !(list_elem_of_filter (λ m, m ≠ DECODE ∧ _)). by rewrite Hf.
    + rewrite !Forall_forall. by setoid_rewrite Hf.
  - intros m Hin Hnot. unfold derive_forward_mode.
    rewrite decide_False by (intros He; apply (not_elem_of_nil m); rewrite <-He; apply list_elem_of_filter; set_solver).
    rewrite decide_False; [done|]. intros He. apply (not_elem_of_nil m). rewrite <-He.
    rewrite !list_elem_of_filter. set_solver.
Qed.

Lemma derive_forward_mode_set_witness : derive_forward_mode [DECODE; IDLE; MIXED] = Some EXTEND.
Proof.
  apply (proj2 (derive_forward_mode_set [DECODE; IDLE; MIXED] [MIXED; DECODE; IDLE; MIXED]
    ltac:(set_solver)) MIXED); set_solver.
Defined.
End RecvSkipper.

(** ** How many free slots to wait for *)

Module MinFreeSlots.

Definition resolve_min_free_slots (user_value : option Z) (max_running_requests : Z)
    (is_dflash_family : bool) : option Z :=
  let max_running_requests := Z.max 0 max_running_requests in
  match user_value with
  | Some v =>
      let threshold := Z.min v max_running_requests in
      if (1 <? threshold)%Z then Some threshold else None
  | None =>
      if is_dflash_family && (8 <=? max_running_requests)%Z
      then Some (Z.min 4 (Z.max 2 ((max_running_requests + 5) / 6)))
      else None
  end.

Definition should_delay (min_free_slots running_bs num_allocatable_reqs : Z) : bool :=
  (0 <? running_bs)%Z && (num_allocatable_reqs <? min_free_slots)%Z.

(** Waiting for free slots cannot deadlock admission: a resolved threshold is
    between 2 and the number of slots, so an engine with nothing running, or with
    all its slots free, is never delayed, while a single free slot of a busy
    engine always is. *)
Theorem min_free_slots_no_deadlock user_value max_running_requests is_dflash t :
  resolve_min_free_slots user_value max_running_requests is_dflash = Some t →
  (2 <= t <= max_running_requests)%Z
  ∧ (∀ free, should_delay t 0 free = false)
  ∧ (∀ running, should_delay t running max_running_requests = false)
  ∧ (∀ running, (0 < running)%Z → should_delay t running 1 = true).
Proof.
  intros Hr. assert (2 <= t <= max_running_requests)%Z as Ht.
  { unfold resolve_min_free_slots in Hr. destruct user_value as [v|].
    - destruct (Z.ltb_spec 1 (Z.min v (Z.max 0 max_running_requests))); [|done]. injection Hr as <-. lia.
    - destruct is_dflash; [|done]. cbn [andb] in Hr.
      destruct (Z.leb_spec 8 (Z.max 0 max_running_requests)); [|done]. injection Hr as <-. lia. }
  unfold should_delay. split_and!; [lia..|done| |]; intros running; [|intros ?].
  - destruct (Z.ltb_spec max_running_requests t); [lia|]. by rewrite andb_false_r.
  - destruct (Z.ltb_spec 0 running), (Z.ltb_spec 1 t); done || lia.
Qed.

Lemma min_free_slots_no_deadlock_witness : (2 <= 4 <= 32)%Z ∧ should_delay 4 3 32 = false.
Proof.
  destruct (min_free_slots_no_deadlock None 32 true 4 eq_refl) as (Hb&_&Hf&_). split; [exact Hb|apply Hf].
Defined.
End MinFreeSlots.

(** ** How much output to expect *)

Module NewTokenRatio.
Local Open Scope Q_scope.

Record NewTokenRatioTracker := mkTracker {
  init : Q;
  min : Q;
  decay : Q;
  current : Q;
}.

Definition from_config (init_new_token_ratio schedule_conservativeness min_new_token_ratio_factor : Q)
    (decay_steps : Z) : res NewTokenRatioTracker :=
  let init := Qmin (init_new_token_ratio * schedule_conservativeness) 1 in
  let min_ratio := Qmin (init * min_new_token_ratio_factor) 1 in
  if (decay_steps =? 0)%Z then Raise ZeroDivisionError
  else
    let decay := (init - min_ratio) / inject_Z decay_steps in
    Ok (mkTracker init min_ratio decay init).

Definition set_current (x : Q) (t : NewTokenRatioTracker) : NewTokenRatioTracker :=
  mkTracker (init t) (min t) (decay t) x.

Definition decay_step (t : NewTokenRatioTracker) : NewTokenRatioTracker :=
  set_current (Qmax (current t - decay t) (min t)) t.

Definition reset (t : NewTokenRatioTracker) : NewTokenRatioTracker := set_current (init t) t.

(** [estimate_new_token_ratio_after_retract]; a request is its number of decoded
    tokens and its [max_new_tokens]. *)
Definition estimate_new_token_ratio_after_retract (retract_decode_steps : Z) (reqs : list (nat * Z)) : Q :=
  let total_decoded_tokens := foldr (λ r acc, Z.of_nat r.1 + acc)%Z 0%Z reqs in
  let total_max_new_tokens := foldr (λ r acc, r.2 + acc)%Z 0%Z reqs in
  let new_estimate_ratio :=
    inject_Z (total_decoded_tokens + retract_decode_steps * Z.of_nat (length reqs))
    / inject_Z (total_max_new_tokens + 1) in
  Qmin 1 new_estimate_ratio.

Lemma from_config_wf i c f n t : 0 <= i * c → 0 <= f <= 1 → (0 < n)%Z → from_config i c f n = Ok t →
  0 <= min t ∧ min t <= init t ∧ init t <= 1 ∧ current t = init t
  ∧ decay t * inject_Z n == init t - min t.
Proof.
  unfold from_config. intros Hi Hf Hn. destruct (Z.eqb_spec n 0); [lia|]. intros [= <-]. simpl.
  set (a := Qmin (i * c) 1).
  assert (0 <= a <= 1) as Ha.
  { unfold a. destruct (Q.min_spec (i * c) 1) as [[? ->]|[? ->]]; lra. }
  assert (0 <= a * f <= a) as Hm by nra.
  assert (Qmin (a * f) 1 == a * f) as He by (apply Q.min_l; lra).
  split_and!; rewrite ?He; try lra; [done|]. field. intros Hz. unfold Qeq in Hz. simpl in Hz. lia.
Qed.

Definition decayed (n : nat) (t : NewTokenRatioTracker) : NewTokenRatioTracker := Nat.iter n decay_step t.

Lemma decayed_fields n t : min (decayed n t) = min t ∧ decay (decayed n t) = decay t ∧ init (decayed n t) = init t.
Proof. induction n as [|n IH]; [done|]. simpl. naive_solver. Qed.

Lemma decayed_current n t : 0 <= decay t → min t <= current t →
  current (decayed n t) == Qmax (current t - decay t * inject_Z (Z.of_nat n)) (min t).
Proof.
  intros Hd Hm. induction n as [|n IH].
  - assert (current t - decay t * inject_Z (Z.of_nat 0) == current t) as -> by (simpl; ring).
    rewrite Q.max_l by done. done.
  - destruct (decayed_fields n t) as (E1&E2&E3). change (decayed (S n) t) with (decay_step (decayed n t)).
    unfold decay_step. cbn [current set_current]. rewrite E1, E2, IH.
    rewrite Nat2Z.inj_succ. unfold Z.succ. rewrite inject_Z_plus. change (inject_Z 1) with 1.
    set (x := decay t * inject_Z (Z.of_nat n)).
    assert (decay t * (inject_Z (Z.of_nat n) + 1) == x + decay t) as -> by (unfold x; ring).
    destruct (Q.max_spec (current t - x) (min t)) as [[? ->]|[? ->]];
      destruct (Q.max_spec (current t - (x + decay t)) (min t)) as [[? ->]|[? ->]];
      destruct (Q.max_spec (min t - decay t) (min t)) as [[? E]|[? E]];
      destruct (Q.max_spec (current t - x - decay t) (min t)) as [[? E']|[? E']];
      rewrite ?E, ?E'; lra.
Qed.

(** The estimate of new tokens starts at the configured ratio, which is
    between 0 and 1, never leaves the interval from its minimum to its initial
    value while it decays, and reaches the minimum after exactly the configured
    number of steps (floats as exact rationals); a reset brings it back; the
    estimate after a retraction is a ratio in [0, 1] too. *)
Theorem new_token_ratio_decays i c f n t k :
  0 <= i * c → 0 <= f <= 1 → (0 < n)%Z → from_config i c f n = Ok t →
  (min t <= current (decayed k t) <= init t) ∧ 0 <= min t ∧ init t <= 1
  ∧ ((n <= Z.of_nat k)%Z → current (decayed k t) == min t)
  ∧ current (reset (decayed k t)) = init t
  ∧ (∀ steps reqs, (0 <= steps)%Z → Forall (λ r, 0 <= r.2)%Z reqs →
       0 <= estimate_new_token_ratio_after_retract steps reqs <= 1).
Proof.
  intros Hi Hf Hn Ht. destruct (from_config_wf i c f n t Hi Hf Hn Ht) as (H0&H1&H2&H3&H4).
  assert (0 < inject_Z n) as Hq by (change 0 with (inject_Z 0); by rewrite <-Zlt_Qlt).
  assert (0 <= decay t) as Hd by nra.
  pose proof (decayed_current k t Hd ltac:(rewrite H3; lra)) as Hc. rewrite H3 in Hc.
  assert (0 <= inject_Z (Z.of_nat k)) as Hk by (change 0 with (inject_Z 0); rewrite <-Zle_Qle; lia).
  assert (0 <= decay t * inject_Z (Z.of_nat k)) as Hdk by nra.
  split_and!.
  - rewrite Hc. apply Q.le_max_r.
  - rewrite Hc. apply Q.max_lub; lra.
  - done.
  - done.
  - intros Hle. rewrite Hc. apply Q.max_r.
    assert (inject_Z n <= inject_Z (Z.of_nat k)) by by rewrite <-Zle_Qle. nra.
  - simpl. apply decayed_fields.
  - intros steps reqs Hs Hr. unfold estimate_new_token_ratio_after_retract.
    split; [|apply Q.le_min_l]. apply Q.min_glb; [lra|].
    assert (∀ l : list (nat * Z), (0 <= foldr (λ r acc, Z.of_nat r.1 + acc) 0 l)%Z) as Hnn
      by (induction l; simpl; lia).
    assert (0 <= foldr (λ r acc, r.2 + acc) 0 reqs)%Z as Hmm by (induction Hr; simpl; lia).
    specialize (Hnn reqs). apply Qle_shift_div_l.
    + change 0 with (inject_Z 0). rewrite <-Zlt_Qlt. lia.
    + rewrite Qmult_0_l. change 0 with (inject_Z 0). rewrite <-Zle_Qle. nia.
Qed.

Lemma new_token_ratio_decays_witness :
  match from_config (7#10) 1 (14#100) 600 with
  | Ok t => current (decayed 600 t) == min t
  | Raise _ => False
  end.
Proof.
  destruct (from_config (7#10) 1 (14#100) 600) as [t|] eqn:E; [|discriminate].
  apply (new_token_ratio_decays (7#10) 1 (14#100) 600 t 600); try done; lra || lia.
Defined.
End NewTokenRatio.
