(* ===== verification/PrefillDelayer.v ===== *)
(** * The prefill delayer

    [src/python/sglang/srt/managers/prefill_delayer.py]: the data-parallel ranks
    gather who can prefill and decide together whether to admit prefills now or
    to wait.  The collective is a parameter ([torch.distributed]); the clock
    readings of a call are arguments; floats are rationals.  Logging and metrics
    are left out. *)

From stdpp Require Import base tactics numbers list.
From Stdlib Require Import ZArith Lia ZifyNat QArith Qround Lqa.
From S2P Require Import Prelude.

(** ** The recent batch sizes *)

(** [RecentPrefillBatchSizeTracker]: a deque with [maxlen]. *)
Record RecentPrefillBatchSizeTracker := mkRecent {
  window_size : nat;
  recent_attempt_sizes : list Z;
}.

Definition recent_init (window_size : Z) : res RecentPrefillBatchSizeTracker :=
  if (window_size <=? 0)%Z then Raise ValueError else Ok (mkRecent (Z.to_nat window_size) []).

Definition tracked_max_prefill_bs (t : RecentPrefillBatchSizeTracker) : Z :=
  match recent_attempt_sizes t with
  | [] => 0%Z
  | x :: l => foldl Z.max x l
  end.

Definition observe_attempt (attempted_prefill_bs : Z) (t : RecentPrefillBatchSizeTracker)
    : res (RecentPrefillBatchSizeTracker * Z) :=
  if (attempted_prefill_bs <=? 0)%Z then Raise ValueError
  else
    let q := recent_attempt_sizes t ++ [attempted_prefill_bs] in
    let t := mkRecent (window_size t) (drop (length q - window_size t) q) in
    Ok (t, tracked_max_prefill_bs t).

(** ** The negotiation *)

(** [_State]. *)
Record DelayState := mkDelay {
  delayed_count : Z;
  start_time : Q;
}.
Definition bump_delayed_count (s : DelayState) : DelayState :=
  mkDelay (delayed_count s + 1) (start_time s).

(** The row a rank contributes to the all-gather. *)
Record Info := mkInfo {
  prefillable : bool;
  token_watermark_force_allow : bool;
  running_batch : Z;
  max_prefill_bs : Z;
  waiting_queue_len : Z;
}.

Inductive Estimation := EstAll | EstNone | EstMixed.
Inductive Reason := token_watermark | delay | wait_timeout | wait_success | no_wait | no_reason.
Global Instance Reason_eq_dec : EqDecision Reason.
Proof. solve_decision. Defined.

Record NegotiateOutput := mkOutput {
  next_state : option DelayState;
  input_estimation : Estimation;
  output_allow : bool;
  output_reason : Reason;
  num_prefillable : Z;
  num_token_watermark_force_allow : Z;
  wait_forward_passes : Z;
  wait_seconds : Q;
}.

Record PrefillDelayer := mkDelayer {
  max_delay_passes : Z;
  token_usage_low_watermark : option Q;
  queue_min_ratio : option Q;
  max_delay_ms : Q;
  prefill_max_requests : option Z;
  dp_size : Z;
  enable_dp_attention : bool;
  curr_state : option DelayState;
  skip_first_delayer : bool;
}.

(** [__init__]; [use_nccl_env] is the environment flag of the NCCL all-gather. *)
Definition delayer_init (dp_size max_delay_passes : Z) (token_usage_low_watermark queue_min_ratio
    max_delay_ms : option Q) (prefill_max_requests : option Z)
    (enable_dp_attention disable_overlap_schedule use_nccl_env has_device_group : bool)
    : res PrefillDelayer :=
  (if disable_overlap_schedule || use_nccl_env then assert_ has_device_group else Ok tt) ;;!
  assert_ (negb disable_overlap_schedule) ;;!
  Ok (mkDelayer max_delay_passes token_usage_low_watermark queue_min_ratio (default 5000%Q max_delay_ms)
        prefill_max_requests dp_size enable_dp_attention None true).

Definition set_curr_state (s : option DelayState) (d : PrefillDelayer) : PrefillDelayer :=
  mkDelayer (max_delay_passes d) (token_usage_low_watermark d) (queue_min_ratio d) (max_delay_ms d)
    (prefill_max_requests d) (dp_size d) (enable_dp_attention d) s (skip_first_delayer d).
Definition clear_skip_first (d : PrefillDelayer) : PrefillDelayer :=
  mkDelayer (max_delay_passes d) (token_usage_low_watermark d) (queue_min_ratio d) (max_delay_ms d)
    (prefill_max_requests d) (dp_size d) (enable_dp_attention d) (curr_state d) false.

(** [int(x)] of a float: towards zero. *)
Definition int_of_float (x : Q) : Z := if Qle_bool 0 x then Qfloor x else Qceiling x.

(** [max().item()] of a gathered column; the group is never empty. *)
Definition col_max (f : Info → Z) (rows : list Info) : Z :=
  match rows with [] => 0%Z | r :: rows => foldl (λ m r, Z.max m (f r)) (f r) rows end.
Definition count (f : Info → bool) (rows : list Info) : Z := Z.of_nat (length (List.filter f rows)).

(** The clock readings of one call: for the wait, the timeout and a new state. *)
Record Clock := mkClock { t_wait : Q; t_elapsed : Q; t_start : Q }.

Section Negotiate.
(** [_gather_info]: what every rank sees after [all_gather_into_tensor]. *)
Context (gather : Info → list Info).

Definition queue_condition (d : PrefillDelayer) (prev_state : option DelayState) (now : Q)
    (running_max prefill_bs_max waiting_max : Z) : bool :=
  match queue_min_ratio d with
  | None => false
  | Some ratio =>
      if (0 <? running_max)%Z then
        let queue_capacity := default prefill_bs_max (prefill_max_requests d) in
        let queue_min_effective :=
          Z.min (int_of_float (inject_Z running_max * ratio)) queue_capacity in
        let cond := (0 <? queue_min_effective)%Z && (waiting_max <? queue_min_effective)%Z in
        match prev_state with
        | Some s => if cond && Qle_bool (max_delay_ms d) ((now - start_time s) * 1000) then false else cond
        | None => cond
        end
      else false
  end.

(** The bounded wait shared by the two branches that may delay. *)
Definition bounded_delay (d : PrefillDelayer) (prev_state : option DelayState) (clock : Clock)
    (out : option DelayState → bool → Reason → bool → NegotiateOutput) : NegotiateOutput :=
  let prev_delayed_count := match prev_state with Some s => delayed_count s | None => 0%Z end in
  if (prev_delayed_count <? max_delay_passes d - 1)%Z then
    let next_state := default (mkDelay 0 (t_start clock)) prev_state in
    out (Some (bump_delayed_count next_state)) false delay false
  else out None true wait_timeout true.

(** [_negotiate_should_allow_prefill_pure]; it may clear [skip_first_delayer]. *)
Definition negotiate_pure (d : PrefillDelayer) (prev_state : option DelayState) (clock : Clock)
    (local_prefillable : bool) (token_usage : Q)
    (running_batch max_prefill_bs max_running_requests waiting_queue_len : Z)
    : PrefillDelayer * NegotiateOutput :=
  let local_force :=
    local_prefillable && match token_usage_low_watermark d with
                         | Some x => negb (Qle_bool x token_usage)
                         | None => false
                         end in
  let rows := gather (mkInfo local_prefillable local_force running_batch max_prefill_bs
                        waiting_queue_len) in
  let status := if forallb prefillable rows then EstAll
                else if forallb (λ r, negb (prefillable r)) rows then EstNone else EstMixed in
  let exists_force := existsb token_watermark_force_allow rows in
  let wait_passes := match prev_state with Some s => delayed_count s | None => 0%Z end in
  let waited := match prev_state with Some s => (t_wait clock - start_time s)%Q | None => 0%Q end in
  let out (s : option DelayState) (allow : bool) (reason : Reason) (released : bool) :=
    mkOutput s status allow reason (count prefillable rows) (count token_watermark_force_allow rows)
      (if released then wait_passes else 0%Z) (if released then waited else 0%Q) in
  match status with
  | EstAll =>
      if exists_force then (d, out None true token_watermark true)
      else
        let max_running_requests :=
          if enable_dp_attention d then max_running_requests
          else ((max_running_requests + dp_size d - 1) / dp_size d)%Z in
        let running_max := col_max PrefillDelayer.running_batch rows in
        let prefill_bs_max := col_max PrefillDelayer.max_prefill_bs rows in
        let waiting_max := col_max PrefillDelayer.waiting_queue_len rows in
        let queue_cond := queue_condition d prev_state (t_elapsed clock) running_max prefill_bs_max
                            waiting_max in
        let slot_cond := (max_running_requests - running_max <? prefill_bs_max)%Z in
        let release := out None true (if prev_state is Some _ then wait_success else no_wait) true in
        if slot_cond || queue_cond then
          if skip_first_delayer d then (clear_skip_first d, release)
          else (d, bounded_delay d prev_state clock out)
        else (d, release)
  | EstNone => (d, out None true no_reason true)
  | EstMixed =>
      if exists_force then (d, out None true token_watermark true)
      else (d, bounded_delay d prev_state clock out)
  end.

Definition negotiate (d : PrefillDelayer) (clock : Clock) (local_prefillable : bool) (token_usage : Q)
    (running_batch max_prefill_bs max_running_requests waiting_queue_len : Z)
    : PrefillDelayer * NegotiateOutput :=
  let '(d, out) := negotiate_pure d (curr_state d) clock local_prefillable token_usage running_batch
                     max_prefill_bs max_running_requests waiting_queue_len in
  (set_curr_state (next_state out) d, out).

(** ** One scheduling pass *)

Record SinglePassExecutor := mkExecutor {
  prefill_delayer : PrefillDelayer;
  pass_token_usage : Q;
  result : option NegotiateOutput;
  attempted_prefill_bs : Z;
}.

Definition executor_init (d : PrefillDelayer) (token_usage : Q) : SinglePassExecutor :=
  mkExecutor d token_usage None 0.

Definition estimate_attempted_prefill_bs (e : SinglePassExecutor)
    (running_batch max_running_requests waiting_queue_len : Z) : Z :=
  let d := prefill_delayer e in
  let local_max_running_requests :=
    if enable_dp_attention d then max_running_requests
    else ((max_running_requests + dp_size d - 1) / dp_size d)%Z in
  let free_slots := Z.max (local_max_running_requests - running_batch) 1 in
  let non_empty_queue_len := Z.max waiting_queue_len 1 in
  Z.min non_empty_queue_len free_slots.

Definition negotiate_should_allow_prefill (clock : Clock) (local_prefillable : bool)
    (running_batch max_prefill_bs max_running_requests waiting_queue_len : Z) (e : SinglePassExecutor)
    : SinglePassExecutor * bool :=
  let attempted :=
    if local_prefillable
    then Z.max (attempted_prefill_bs e)
           (estimate_attempted_prefill_bs e running_batch max_running_requests waiting_queue_len)
    else attempted_prefill_bs e in
  match result e with
  | Some out => (mkExecutor (prefill_delayer e) (pass_token_usage e) (Some out) attempted, output_allow out)
  | None =>
      let '(d, out) := negotiate (prefill_delayer e) clock local_prefillable (pass_token_usage e)
                         running_batch max_prefill_bs max_running_requests waiting_queue_len in
      (mkExecutor d (pass_token_usage e) (Some out) attempted, output_allow out)
  end.

Definition finalize (clock : Clock) (actual_prefill_bs : Z) (e : SinglePassExecutor)
    : SinglePassExecutor * Z :=
  let e := match result e with
           | None => (negotiate_should_allow_prefill clock false 0 0 0 0 e).1
           | Some _ => e
           end in
  (e, if (actual_prefill_bs =? 0)%Z then attempted_prefill_bs e else actual_prefill_bs).
End Negotiate.

(** ** Properties *)

(** One call of the negotiation on one rank. *)
Record Round := mkRound {
  r_gather : Info → list Info;
  r_clock : Clock;
  r_prefillable : bool;
  r_token_usage : Q;
  r_running_batch : Z;
  r_max_prefill_bs : Z;
  r_max_running_requests : Z;
  r_waiting_queue_len : Z;
}.
Definition play (r : Round) (d : PrefillDelayer) : PrefillDelayer * NegotiateOutput :=
  negotiate (r_gather r) d (r_clock r) (r_prefillable r) (r_token_usage r) (r_running_batch r)
    (r_max_prefill_bs r) (r_max_running_requests r) (r_waiting_queue_len r).
Fixpoint verdicts (rounds : list Round) (d : PrefillDelayer) : list bool :=
  match rounds with
  | [] => []
  | r :: rounds => output_allow (play r d).2 :: verdicts rounds (play r d).1
  end.

Definition count_of (s : option DelayState) : Z := match s with Some s => delayed_count s | None => 0%Z end.

(** A call either releases and forgets the wait, or delays and counts it. *)
Lemma play_spec r d :
  let d' := (play r d).1 in
  let out := (play r d).2 in
  max_delay_passes d' = max_delay_passes d ∧ curr_state d' = next_state out
  ∧ ((output_allow out = true ∧ next_state out = None)
     ∨ (output_allow out = false ∧ count_of (next_state out) = (count_of (curr_state d) + 1)%Z
        ∧ (count_of (curr_state d) < max_delay_passes d - 1)%Z)).
Proof.
  unfold play, negotiate.
  assert (∀ out, (∀ s a re rel, output_allow (out s a re rel) = a ∧ next_state (out s a re rel) = s) →
    let o := bounded_delay d (curr_state d) (r_clock r) out in
    (output_allow o = true ∧ next_state o = None)
    ∨ (output_allow o = false ∧ count_of (next_state o) = (count_of (curr_state d) + 1)%Z
       ∧ (count_of (curr_state d) < max_delay_passes d - 1)%Z)) as Hb.
  { intros out Hout. unfold bounded_delay. fold (count_of (curr_state d)).
    destruct (Z.ltb_spec (count_of (curr_state d)) (max_delay_passes d - 1)); cbn zeta.
    - right. destruct (Hout (Some (bump_delayed_count (default (mkDelay 0 (t_start (r_clock r))) (curr_state d))))
        false delay false) as [-> ->]. destruct (curr_state d); simpl in *; lia.
    - left. apply Hout. }
  destruct (negotiate_pure _ _ _ _ _ _ _ _ _ _) as [d1 out] eqn:E. cbn [fst snd set_curr_state
    max_delay_passes curr_state].
  unfold negotiate_pure in E. cbn zeta in E.
  repeat match type of E with
    | context [match ?x with EstAll => _ | EstNone => _ | EstMixed => _ end] => destruct x
    | (if ?x then _ else _) = _ => destruct x
    end; injection E as <- <-; (split_and!; [done..|]); first [by left | by apply Hb].
Qed.

(** The count of a running wait stays below the bound. *)
Definition delayer_wf (d : PrefillDelayer) : Prop :=
  (0 <= count_of (curr_state d) <= Z.max 0 (max_delay_passes d - 1))%Z.

Lemma play_wf r d : delayer_wf d → delayer_wf (play r d).1.
Proof.
  unfold delayer_wf. intros Hw. destruct (play_spec r d) as (->&->&[(_&->)|(_&->&Hlt)]); simpl; lia.
Qed.

(** C32: waiting is bounded: whatever the ranks gather and however the clocks run,
    among any [max_delay_passes] consecutive negotiations (one, when the bound is
    not positive) at least one admits prefills, and the wait counter never
    exceeds its bound. *)
Theorem prefill_delay_bounded rounds d :
  delayer_wf d → (Z.max 1 (max_delay_passes d) <= Z.of_nat (length rounds))%Z →
  true ∈ verdicts rounds d ∧ delayer_wf (foldl (λ d r, (play r d).1) d rounds).
Proof.
  assert (∀ rounds d, delayer_wf d →
    (Z.max 1 (max_delay_passes d) <= count_of (curr_state d) + Z.of_nat (length rounds))%Z →
    true ∈ verdicts rounds d) as Hv.
  { clear. induction rounds as [|r rounds IH]; intros d Hw Hle; simpl in *.
    { unfold delayer_wf in Hw. lia. }
    pose proof (play_wf r d Hw) as Hw'. destruct (play_spec r d) as (Hm&Hs&[(Ha&_)|(Ha&Hc&_)]); rewrite Ha.
    - apply list_elem_of_here.
    - apply list_elem_of_further, IH; [done|]. rewrite Hm, Hs, Hc. lia. }
  intros Hw Hle. split; [apply Hv; [done|]; unfold delayer_wf in Hw; lia|].
  clear Hle Hv. revert d Hw. induction rounds as [|r rounds IH]; intros d Hw; simpl; [done|]. by apply IH, play_wf.
Qed.

Definition demo_delayer : PrefillDelayer := mkDelayer 2 None None 5000 None 1 true None false.
Definition mixed_round : Round :=
  mkRound (λ i, [i; mkInfo false false 0 0 0]) (mkClock 0 0 0) true 0 1 1 8 1.

Lemma prefill_delay_bounded_witness : verdicts [mixed_round; mixed_round] demo_delayer = [false; true]
  ∧ true ∈ verdicts [mixed_round; mixed_round] demo_delayer.
Proof.
  split; [reflexivity|].
  apply (prefill_delay_bounded [mixed_round; mixed_round] demo_delayer); vm_compute; intuition discriminate.
Defined.

(** Two ranks whose delayers differ at most in the start times of their waits. *)
Record agree (d1 d2 : PrefillDelayer) : Prop := {
  ag_cfg : set_curr_state None d1 = set_curr_state None d2;
  ag_count : delayed_count <$> curr_state d1 = delayed_count <$> curr_state d2;
}.

(** The same round seen by two ranks: one gathered table, and the same capacity. *)
Definition same_round (r1 r2 : Round) : Prop :=
  r_max_running_requests r1 = r_max_running_requests r2
  ∧ ∃ rows, (∀ i, r_gather r1 i = rows) ∧ (∀ i, r_gather r2 i = rows).

Lemma play_agree d1 d2 r1 r2 : agree d1 d2 → queue_min_ratio d1 = None → same_round r1 r2 →
  output_allow (play r1 d1).2 = output_allow (play r2 d2).2
  ∧ output_reason (play r1 d1).2 = output_reason (play r2 d2).2
  ∧ agree (play r1 d1).1 (play r2 d2).1 ∧ queue_min_ratio (play r1 d1).1 = None.
Proof.
  intros [Hcfg Hcnt] Hq (Hm&rows&G1&G2). injection Hcfg as C1 C2 C3 C4 C5 C6 C7 C8.
  assert (count_of (curr_state d1) = count_of (curr_state d2)) as Hco.
  { destruct (curr_state d1), (curr_state d2); simpl in *; congruence. }
  unfold play, negotiate, negotiate_pure. rewrite !G1, !G2, <-Hm. unfold queue_condition.
  rewrite Hq, <-C3, Hq. cbn zeta. unfold bounded_delay. fold (count_of (curr_state d1)).
  fold (count_of (curr_state d2)). rewrite <-Hco, <-C1, <-C6, <-C7, <-C8.
  assert (∀ st1 st2 : option DelayState, delayed_count <$> st1 = delayed_count <$> st2 →
    agree (set_curr_state st1 d1) (set_curr_state st2 d2)
    ∧ agree (set_curr_state st1 (clear_skip_first d1)) (set_curr_state st2 (clear_skip_first d2))) as Hag.
  { intros st1 st2 Hst. split; (split; [unfold set_curr_state; simpl; congruence|done]). }
  destruct (if forallb prefillable rows then EstAll else _).
  - destruct (existsb _ rows); cbn [fst snd next_state output_allow output_reason].
    { split_and!; try done; by apply Hag. }
    destruct (_ || false); [destruct (skip_first_delayer d1); [|destruct (_ <? _)%Z]|];
      cbn [fst snd next_state output_allow output_reason]; split_and!; try done;
      try (by apply Hag); destruct (curr_state d1), (curr_state d2); simpl in *; try done;
      apply Hag; simpl; congruence.
  - split_and!; try done; by apply Hag.
  - destruct (existsb _ rows); cbn [fst snd next_state output_allow output_reason].
    { split_and!; try done; by apply Hag. }
    destruct (_ <? _)%Z; cbn [fst snd next_state output_allow output_reason]; split_and!; try done;
      try (by apply Hag); destruct (curr_state d1), (curr_state d2); simpl in *; try done;
      apply Hag; simpl; congruence.
Qed.


