(* ===== verification/FinishState.v ===== *)
(** * When a request is finished

    The stop conditions of [Req] in [src/python/sglang/srt/managers/schedule_batch.py]:
    [update_finish_state] with the checks it calls, the stop-prefix test used for
    streaming, and the incremental detokenizer's window.  A step may accept several
    tokens at once (speculative decoding).  The tokenizer's [decode] and the
    regular-expression engine are parameters; text is a list of characters. *)

From stdpp Require Import base tactics numbers list strings.
From Stdlib Require Import ZArith Lia ZifyNat Ascii.
From S2P Require Import Prelude.

Abbreviation text := (list ascii).

(** Python's [stop in text]. *)
Definition str_in (stop t : text) : bool :=
  existsb (λ i, bool_decide (stop `prefix_of` drop i t)) (seq 0 (S (length t))).

Lemma str_in_spec stop t : str_in stop t = true ↔ ∃ a b, t = a ++ stop ++ b.
Proof.
  unfold str_in. rewrite existsb_exists. split.
  - intros (i&_&[b Hb]%bool_decide_eq_true). exists (take i t), b.
    by rewrite <-Hb, take_drop.
  - intros (a&b&->). exists (length a). split.
    + apply in_seq. rewrite length_app. lia.
    + apply bool_decide_eq_true. rewrite drop_app_length. by exists b.
Qed.

(** [l[-n:]]: the last [n] elements, and the whole list for [n = 0]. *)
Definition last_n {A} (n : nat) (l : list A) : list A := if n =? 0 then l else drop (length l - n) l.

Inductive FinishReason :=
  | FINISH_MATCHED_TOKEN (matched : Z)
  | FINISH_MATCHED_STR (matched : text)
  | FINISHED_MATCHED_REGEX (matched : text)
  | FINISH_LENGTH (length : nat)
  | FINISH_ABORT (message : text).

(** [None] stands for an unset collection; Python treats it like an empty one. *)
Record SamplingParams := mkSampling {
  max_new_tokens : nat;
  stop_token_ids : list Z;
  stop_strs : list text;
  stop_regex_strs : list text;
  stop_str_max_len : nat;
  stop_regex_max_len : nat;
  ignore_eos : bool;
}.

Record Tokenizer := mkTokenizer {
  eos_token_id : option Z;
  additional_stop_token_ids : list Z;
}.

(** The fields of a request that its stop conditions read and write. *)
Record FinishReq := mkFinishReq {
  sampling_params : SamplingParams;
  tokenizer : option Tokenizer;
  eos_token_ids : list Z;
  vocab_size : option Z;
  grammar_terminated : option bool;
  decoded_text : text;
  output_ids : list Z;
  to_finish : option FinishReason;
  finished_reason : option FinishReason;
  finished_len : option nat;
}.

Definition set_output_ids (l : list Z) (r : FinishReq) : FinishReq :=
  mkFinishReq (sampling_params r) (tokenizer r) (eos_token_ids r) (vocab_size r) (grammar_terminated r)
    (decoded_text r) l (to_finish r) (finished_reason r) (finished_len r).
Definition set_to_finish (x : option FinishReason) (r : FinishReq) : FinishReq :=
  mkFinishReq (sampling_params r) (tokenizer r) (eos_token_ids r) (vocab_size r) (grammar_terminated r)
    (decoded_text r) (output_ids r) x (finished_reason r) (finished_len r).
Definition set_finished_reason (x : FinishReason) (r : FinishReq) : FinishReq :=
  mkFinishReq (sampling_params r) (tokenizer r) (eos_token_ids r) (vocab_size r) (grammar_terminated r)
    (decoded_text r) (output_ids r) (to_finish r) (Some x) (finished_len r).
Definition set_finished_len (n : nat) (r : FinishReq) : FinishReq :=
  mkFinishReq (sampling_params r) (tokenizer r) (eos_token_ids r) (vocab_size r) (grammar_terminated r)
    (decoded_text r) (output_ids r) (to_finish r) (finished_reason r) (Some n).

Definition finished (r : FinishReq) : bool :=
  match finished_reason r with Some _ => true | None => false end.

Definition output_ids_through_stop (r : FinishReq) : list Z :=
  match finished_len r with
  | Some n => take n (output_ids r)
  | None => output_ids r
  end.

Section Finish.
(** [self.tokenizer.decode] and [re.search(pattern, text)], which may raise. *)
Context (decode : list Z → text).
Context (search : text → text → res bool).
Implicit Types r : FinishReq.

Definition stop_match_tail_len (new_accepted_len : nat) r : nat :=
  let max_len_tail_str := max (stop_str_max_len (sampling_params r) + 1)
                              (stop_regex_max_len (sampling_params r) + 1) in
  min (max_len_tail_str + (new_accepted_len - 1)) (length (output_ids r)).

(** [self.tokenizer.decode(ids)], which needs a tokenizer. *)
Definition tokenizer_decode r (ids : list Z) : res text :=
  match tokenizer r with Some _ => Ok (decode ids) | None => Raise AttributeError end.

Definition tail_str (new_accepted_len : nat) r : res text :=
  match stop_strs (sampling_params r), stop_regex_strs (sampling_params r) with
  | [], [] => Ok []
  | _, _ => tokenizer_decode r (last_n (stop_match_tail_len new_accepted_len r) (output_ids r))
  end.

(** The test of [check_match_stop_str_prefix] for one stop string. *)
Definition stop_str_may_follow (tail stop : text) : bool :=
  match stop with
  | [] => false
  | _ => str_in stop tail
         || existsb (λ i, bool_decide (drop (length tail - i) tail = take i stop))
              (seq 1 (min (length tail) (length stop)))
  end.
Definition check_match_stop_str_prefix r : res bool :=
  match stop_strs (sampling_params r) with
  | [] => Ok false
  | stops =>
      let! tail := tail_str 1 r in
      match tail with
      | [] => Ok false
      | _ => Ok (existsb (stop_str_may_follow tail) stops)
      end
  end.

Definition is_stop_token (token_id : Z) r : bool :=
  bool_decide (token_id ∈ stop_token_ids (sampling_params r))
  || bool_decide (token_id ∈ eos_token_ids r)
  || match tokenizer r with
     | Some t => bool_decide (eos_token_id t = Some token_id)
                 || bool_decide (token_id ∈ additional_stop_token_ids t)
     | None => false
     end.

(** The loop of [_check_token_based_finish] over the accepted tokens. *)
Fixpoint token_loop (tokens : list Z) (i new_len : nat) r : FinishReq * bool :=
  match tokens with
  | [] => (r, false)
  | token_id :: tokens =>
      if is_stop_token token_id r then
        let matched_pos := length (output_ids r) - new_len + i in
        (set_finished_len (matched_pos + 1) (set_finished_reason (FINISH_MATCHED_TOKEN token_id) r), true)
      else token_loop tokens (S i) new_len r
  end.
Definition check_token_based_finish (new_accepted_tokens : list Z) r : FinishReq * bool :=
  if ignore_eos (sampling_params r) then (r, false)
  else token_loop new_accepted_tokens 0 (length new_accepted_tokens) r.

(** [_locate_str_stop_finished_len]; [matched] is its inner function. *)
Fixpoint locate_loop r (matched : text → res bool) (window : list Z) (start : nat) (counts : list nat)
    : res (option nat) :=
  match counts with
  | [] => Ok None
  | c :: counts =>
      let! t := tokenizer_decode r (take c window) in
      let! m := matched t in
      if (m : bool) then Ok (Some (start + c)) else locate_loop r matched window start counts
  end.
Definition locate_str_stop_finished_len (matched : text → res bool) (new_accepted_len : nat)
    (full_window_matched : bool) r : res (option nat) :=
  let tail_len := stop_match_tail_len new_accepted_len r in
  let start := length (output_ids r) - tail_len in
  let token_window := drop start (output_ids r) in
  let first := max 1 (length token_window + 1 - new_accepted_len) in
  let! found := locate_loop r matched token_window start (seq first (length token_window - first)) in
  match found with
  | Some n => Ok (Some n)
  | None => if full_window_matched then Ok (Some (length (output_ids r))) else Ok None
  end.

(** The two loops of [_check_str_based_finish]. *)
Fixpoint stop_strs_loop (stops : list text) (tail : text) (new_accepted_len : nat) r
    : res (FinishReq * bool) :=
  match stops with
  | [] => Ok (r, false)
  | stop :: stops =>
      if str_in stop tail then
        let r := set_finished_reason (FINISH_MATCHED_STR stop) r in
        let! n := locate_str_stop_finished_len (λ t, Ok (str_in stop t)) new_accepted_len true r in
        Ok (match n with Some n => set_finished_len n r | None => r end, true)
      else if str_in stop (decoded_text r) then
        Ok (set_finished_reason (FINISH_MATCHED_STR stop) r, true)
      else stop_strs_loop stops tail new_accepted_len r
  end.

(** An invalid pattern aborts the request and ends the loop. *)
Fixpoint stop_regex_loop (patterns : list text) (tail : text) (new_accepted_len : nat) r
    : res (FinishReq * bool) :=
  match patterns with
  | [] => Ok (r, false)
  | p :: patterns =>
      match search p tail with
      | Raise _ => Ok (set_finished_reason (FINISH_ABORT p) r, false)
      | Ok matched =>
          let! n :=
            if (matched : bool) then locate_str_stop_finished_len (search p) new_accepted_len true r
            else if 1 <? new_accepted_len then locate_str_stop_finished_len (search p) new_accepted_len false r
            else Ok None in
          match n with
          | Some n => Ok (set_finished_len n (set_finished_reason (FINISHED_MATCHED_REGEX p) r), true)
          | None => stop_regex_loop patterns tail new_accepted_len r
          end
      end
  end.

Definition check_str_based_finish (new_accepted_len : nat) r : res (FinishReq * bool) :=
  match stop_strs (sampling_params r), stop_regex_strs (sampling_params r) with
  | [], [] => Ok (r, false)
  | stops, patterns =>
      let! tail := tail_str new_accepted_len r in
      let! (r, done) := stop_strs_loop stops tail new_accepted_len r in
      if (done : bool) then Ok (r, true) else stop_regex_loop patterns tail new_accepted_len r
  end.

(** [_check_vocab_boundary_finish]: an invalid id is replaced by a stop token. *)
Fixpoint vocab_loop (tokens : list Z) (i new_len : nat) r : FinishReq * bool :=
  match tokens with
  | [] => (r, false)
  | token_id :: tokens =>
      if (token_id <? 0)%Z || match vocab_size r with Some v => (v <=? token_id)%Z | None => false end then
        let offset := length (output_ids r) - new_len + i in
        let r := match stop_token_ids (sampling_params r) with
                 | [] => r
                 | t :: _ => set_output_ids (<[offset := t]> (output_ids r)) r
                 end in
        let r := match eos_token_ids r with
                 | [] => r
                 | t :: _ => set_output_ids (<[offset := t]> (output_ids r)) r
                 end in
        (set_finished_len (offset + 1)
           (set_finished_reason (FINISH_MATCHED_STR (String.list_ascii_of_string "NaN happened")) r), true)
      else vocab_loop tokens (S i) new_len r
  end.
Definition check_vocab_boundary_finish (new_accepted_tokens : list Z) r : FinishReq * bool :=
  vocab_loop new_accepted_tokens 0 (length new_accepted_tokens) r.

Definition cap_finished_len_at_max_new_tokens r : FinishReq :=
  let m := max_new_tokens (sampling_params r) in
  match finished_len r with
  | Some n => if m <? n then set_finished_len m (set_finished_reason (FINISH_LENGTH m) r) else r
  | None => r
  end.

Definition update_finish_state (new_accepted_len : nat) r : res FinishReq :=
  if finished r then Ok r
  else
      match to_finish r with
      | Some reason => Ok (set_to_finish None (set_finished_reason reason r))
      | None =>
          let new_accepted_tokens := last_n new_accepted_len (output_ids r) in
          let '(r, stop) := check_vocab_boundary_finish new_accepted_tokens r in
          if stop then Ok (cap_finished_len_at_max_new_tokens r)
          else
            let! (r, stop) := check_str_based_finish new_accepted_len r in
            if (stop : bool) then Ok (cap_finished_len_at_max_new_tokens r)
            else
              let '(r, stop) := check_token_based_finish new_accepted_tokens r in
              if stop then Ok (cap_finished_len_at_max_new_tokens r)
              else
                let m := max_new_tokens (sampling_params r) in
                if m <=? length (output_ids r) then
                  Ok (set_finished_len m (set_finished_reason (FINISH_LENGTH m) r))
                else
                  match grammar_terminated r with
                  | Some true =>
                      let! t := res_of_option IndexError (last (output_ids r)) in
                      Ok (set_finished_reason (FINISH_MATCHED_TOKEN t) r)
                  | _ => Ok r
                  end
      end.

(** ** Bounds and totality *)

(** A pattern is valid or not, whatever the text. *)
Context (Hsearch : ∀ p t t' b, search p t = Ok b → ∃ b', search p t' = Ok b').

(** What a check promises: it only sets the finish fields (and may replace
    output tokens), and a length it reports lies within the output. *)
Record checked r r' (stop : bool) : Prop := {
  ck_params : sampling_params r' = sampling_params r;
  ck_tok : tokenizer r' = tokenizer r;
  ck_len : length (output_ids r') = length (output_ids r);
  ck_grammar : grammar_terminated r' = grammar_terminated r;
  ck_fin : ∀ k, finished_len r' = Some k → k ≤ length (output_ids r) ∧ finished_reason r' ≠ None;
  ck_stop : stop = true → finished_reason r' ≠ None;
  ck_go : stop = false → finished_len r' = finished_len r;
}.

Lemma checked_refl r : finished_len r = None → checked r r false.
Proof. intros H. split; try done. congruence. Qed.

#[local] Hint Resolve checked_refl : py.

Lemma checked_trans r1 r2 r3 stop : checked r1 r2 false → checked r2 r3 stop → checked r1 r3 stop.
Proof.
  intros [A1 A0 A2 A3 A4 A5 A6] [B1 B0 B2 B3 B4 B5 B6]. split; try congruence; try done.
  - intros k Hk. rewrite <-A2. by apply B4.
  - intros Hs. rewrite B6, A6; done.
Qed.

Lemma length_last_n {B} n (l : list B) : length (last_n n l) ≤ length l.
Proof. unfold last_n. destruct (n =? 0); [done|]. rewrite length_drop. lia. Qed.

Lemma vocab_loop_checked tokens i new_len r : finished_len r = None → i + length tokens = new_len →
  new_len ≤ length (output_ids r) → checked r (vocab_loop tokens i new_len r).1 (vocab_loop tokens i new_len r).2.
Proof.
  intros Hf. revert i. induction tokens as [|t tokens IH]; intros i Hi Hl; simpl in *; [by apply checked_refl|].
  destruct (_ || _); [|apply IH; lia]. simpl.
  destruct (stop_token_ids (sampling_params r)) as [|s ?]; simpl; destruct (eos_token_ids r) as [|e ?]; simpl;
    (split; simpl; rewrite ?length_insert; try done; intros k [= <-]; split; [lia|done]).
Qed.

Lemma token_loop_checked tokens i new_len r : finished_len r = None → i + length tokens = new_len →
  new_len ≤ length (output_ids r) → checked r (token_loop tokens i new_len r).1 (token_loop tokens i new_len r).2.
Proof.
  intros Hf. revert i. induction tokens as [|t tokens IH]; intros i Hi Hl; simpl in *; [by apply checked_refl|].
  destruct (is_stop_token t r); [|apply IH; lia]. simpl. split; simpl; try done.
  intros k [= <-]. split; [lia|done].
Qed.

Lemma locate_loop_spec r matched window start first n :
  tokenizer r ≠ None → (∀ t, ∃ b, matched t = Ok b) →
  ∃ o, locate_loop r matched window start (seq first n) = Ok o
    ∧ match o with
      | Some k => ∃ c, k = start + c ∧ first ≤ c ∧ c < first + n ∧ matched (decode (take c window)) = Ok true
          ∧ ∀ c', first ≤ c' → c' < c → matched (decode (take c' window)) = Ok false
      | None => ∀ c', first ≤ c' → c' < first + n → matched (decode (take c' window)) = Ok false
      end.
Proof.
  intros Ht Hm. revert first. induction n as [|n IH]; intros first; simpl; [exists None; split; [done|lia]|].
  unfold tokenizer_decode. destruct (tokenizer r) eqn:E; [|done]. res_step.
  destruct (Hm (decode (take first window))) as [b Hb]. rewrite Hb. res_step. clear Ht. destruct b.
  - exists (Some (start + first)). split; [done|]. exists first. split_and!; try done; lia.
  - destruct (IH (S first)) as (o&->&Ho). exists o. split; [done|]. destruct o as [k|].
    + destruct Ho as (c&->&?&?&?&Hmin). exists c. split_and!; try done; try lia.
      intros c' ? ?. destruct (decide (c' = first)) as [->|]; [done|]. apply Hmin; lia.
    + intros c' ? ?. destruct (decide (c' = first)) as [->|]; [done|]. apply Ho; lia.
Qed.

Lemma locate_spec matched n full r : tokenizer r ≠ None → (∀ t, ∃ b, matched t = Ok b) →
  ∃ o, locate_str_stop_finished_len matched n full r = Ok o
    ∧ (∀ k, o = Some k → k ≤ length (output_ids r)) ∧ (full = true → o ≠ None).
Proof.
  intros Ht Hm. unfold locate_str_stop_finished_len.
  set (w := drop _ (output_ids r)). set (s := length (output_ids r) - _).
  assert (s + length w = length (output_ids r)) as Hw.
  { unfold w. rewrite length_drop. unfold s, stop_match_tail_len. lia. }
  edestruct (locate_loop_spec r matched w s (max 1 (length w + 1 - n))
    (length w - max 1 (length w + 1 - n)) Ht Hm) as (o&->&Ho). res_step.
  destruct o as [k|].
  - destruct Ho as (c&->&_&Hc&_). eexists. split; [done|]. split; [|done]. intros k [= <-]. lia.
  - destruct full; (eexists; split; [done|]); split; try done. intros k [= <-]. done.
Qed.

Lemma stop_strs_checked stops tail n r : tokenizer r ≠ None → finished_len r = None →
  ∃ r' stop, stop_strs_loop stops tail n r = Ok (r', stop) ∧ checked r r' stop ∧ (stop = false → r' = r).
Proof.
  intros Ht Hf. induction stops as [|p stops IH]; simpl; [by eexists _, _; split_and?; [done|apply checked_refl|..]|].
  destruct (str_in p tail).
  - destruct (locate_spec (λ t, Ok (str_in p t)) n true (set_finished_reason (FINISH_MATCHED_STR p) r))
      as (o&->&Hle&Hne); [done|by eauto|]. res_step.
    destruct o as [k|]; [|by destruct (Hne eq_refl)]. eexists _, _. split; [done|]. split; [|done].
    split; simpl; try done. intros k' [= <-]. split; [by apply Hle|done].
  - destruct (str_in p (decoded_text r)); [|done]. eexists _, _. split; [done|]. split; [|done].
    split; simpl; try done. congruence.
Qed.

Lemma stop_regex_checked patterns tail n r : tokenizer r ≠ None → finished_len r = None →
  ∃ r' stop, stop_regex_loop patterns tail n r = Ok (r', stop) ∧ checked r r' stop.
Proof.
  intros Ht Hf. induction patterns as [|p patterns IH]; simpl; [by eexists _, _; split_and?; [done|apply checked_refl|..]|].
  destruct (search p tail) as [b|] eqn:Hp.
  - assert (∀ t, ∃ b', search p t = Ok b') as Hm by (intros t; by eapply Hsearch).
    assert (∃ o, (if b then locate_str_stop_finished_len (search p) n true r
      else if 1 <? n then locate_str_stop_finished_len (search p) n false r else Ok None) = Ok o
      ∧ ∀ k, o = Some k → k ≤ length (output_ids r)) as (o&->&Hle).
    { destruct b; [destruct (locate_spec (search p) n true r Ht Hm) as (o&->&?&_); eauto|].
      destruct (1 <? n); [destruct (locate_spec (search p) n false r Ht Hm) as (o&->&?&_); eauto|]. by eexists. }
    res_step. destruct o as [k|]; [|done]. eexists _, _. split; [done|].
    split; simpl; try done. intros k' [= <-]. split; [by apply Hle|done].
  - eexists _, _. split; [done|]. split; simpl; try done. congruence.
Qed.

(** The stop strings and patterns can be tested: there is a tokenizer to decode
    with, or none is given. *)
Definition can_decode r : Prop :=
  (stop_strs (sampling_params r) = [] ∧ stop_regex_strs (sampling_params r) = []) ∨ tokenizer r ≠ None.

Lemma check_str_checked n r : can_decode r → finished_len r = None →
  ∃ r' stop, check_str_based_finish n r = Ok (r', stop) ∧ checked r r' stop.
Proof.
  intros [[H1 H2]|Ht] Hf; unfold check_str_based_finish; [rewrite H1, H2; eauto with py|].
  set (tail := decode (last_n (stop_match_tail_len n r) (output_ids r))).
  assert (tokenizer_decode r (last_n (stop_match_tail_len n r) (output_ids r)) = Ok tail) as Hd.
  { unfold tokenizer_decode. by destruct (tokenizer r). }
  assert (∃ r' stop, (let! (r1, done) := stop_strs_loop (stop_strs (sampling_params r)) tail n r in
      if (done : bool) then Ok (r1, true) else stop_regex_loop (stop_regex_strs (sampling_params r)) tail n r1)
      = Ok (r', stop) ∧ checked r r' stop) as Hgo; cycle 1.
  { unfold tail_str. destruct (stop_strs (sampling_params r)), (stop_regex_strs (sampling_params r));
      rewrite ?Hd; exact Hgo. }
  destruct (stop_strs_checked (stop_strs (sampling_params r)) tail n r Ht Hf) as (r1&b&->&Hc&Hr).
  res_step. destruct b; [by eauto|]. rewrite (Hr eq_refl) in *.
  destruct (stop_regex_checked (stop_regex_strs (sampling_params r)) tail n r Ht Hf) as (r2&b&->&Hc2).
  eauto.
Qed.

(** The outcome of the whole check: the output keeps its length, the reported
    length respects the budget, and a used budget means finished. *)
Record bounded r f : Prop := {
  bd_out : length (output_ids f) = length (output_ids r);
  bd_len : ∀ k, finished_len f = Some k →
    k ≤ max_new_tokens (sampling_params r) ∧ k ≤ length (output_ids r);
  bd_fin : max_new_tokens (sampling_params r) ≤ length (output_ids r) → finished f = true;
}.

Lemma finished_true r : finished_reason r ≠ None → finished r = true.
Proof. unfold finished. by destruct (finished_reason r). Qed.

Lemma capped r r' : checked r r' true → bounded r (cap_finished_len_at_max_new_tokens r').
Proof.
  intros [Hp _ Hl _ Hf Hs _]. unfold cap_finished_len_at_max_new_tokens. rewrite Hp.
  destruct (finished_len r') as [k|] eqn:E; [|split; [done|by rewrite E|intros _; by apply finished_true, Hs]].
  destruct (Hf k eq_refl). destruct (Nat.ltb_spec (max_new_tokens (sampling_params r)) k).
  - split; simpl; [done| |done]. intros k' [= <-]. lia.
  - split; [done| |intros _; by apply finished_true]. rewrite E. intros k' [= <-]. lia.
Qed.

Lemma check_token_checked toks r : finished_len r = None → length toks ≤ length (output_ids r) →
  ∃ r' stop, check_token_based_finish toks r = (r', stop) ∧ checked r r' stop.
Proof.
  intros Hf Hl. unfold check_token_based_finish. destruct (ignore_eos _); [eauto with py|].
  pose proof (token_loop_checked toks 0 (length toks) r Hf eq_refl Hl).
  destruct (token_loop toks 0 (length toks) r). eauto.
Qed.

(** The last two tests of the check, when no stop was found. *)
Lemma bounded_rest r r' : checked r r' false → finished_len r = None → output_ids r ≠ [] →
  ∃ f, (let m := max_new_tokens (sampling_params r') in
    if m <=? length (output_ids r') then Ok (set_finished_len m (set_finished_reason (FINISH_LENGTH m) r'))
    else match grammar_terminated r' with
         | Some true =>
             let! t := res_of_option IndexError (last (output_ids r')) in
             Ok (set_finished_reason (FINISH_MATCHED_TOKEN t) r')
         | _ => Ok r'
         end) = Ok f ∧ bounded r f.
Proof.
  intros Hc Hf Hne. pose proof (ck_go _ _ _ Hc eq_refl) as Hf'. rewrite Hf in Hf'.
  pose proof (ck_len _ _ _ Hc) as Hl. cbv zeta. rewrite (ck_params _ _ _ Hc), Hl.
  destruct (Nat.leb_spec (max_new_tokens (sampling_params r)) (length (output_ids r))).
  - eexists. split; [done|]. split; [done| |done]. simpl. intros k [= <-]. lia.
  - assert (∃ t, last (output_ids r') = Some t) as [t Hlast].
    { destruct (last (output_ids r')) as [t|] eqn:E; [eauto|]. apply last_None in E.
      destruct (output_ids r); [done|]. by rewrite E in Hl. }
    destruct (grammar_terminated r') as [[]|]; rewrite ?Hlast; res_step;
      (eexists; split; [done|]; split; simpl; [done|congruence|lia]).
Qed.

Lemma update_finish_state_bounded n r :
  can_decode r → finished_reason r = None → finished_len r = None → output_ids r ≠ [] →
  ∃ f, update_finish_state n r = Ok f ∧ bounded r f.
Proof.
  intros Hcd Hr Hf Hne. unfold update_finish_state, finished. rewrite Hr.
  destruct (to_finish r) as [reason|] eqn:Ht.
  { eexists. split; [done|]. split; simpl; [done|congruence|done]. }
  set (toks := last_n n (output_ids r)).
  assert (length toks ≤ length (output_ids r)) as Hlt by apply length_last_n.
  pose proof (vocab_loop_checked toks 0 (length toks) r Hf eq_refl Hlt) as Hv.
  unfold check_vocab_boundary_finish. destruct (vocab_loop toks 0 (length toks) r) as [r1 b1]. simpl in Hv.
  destruct b1; [by eauto using capped|]. pose proof (ck_go _ _ _ Hv eq_refl) as Hf1. rewrite Hf in Hf1.
  assert (can_decode r1) as Hcd1 by (unfold can_decode; by rewrite (ck_params _ _ _ Hv), (ck_tok _ _ _ Hv)).
  destruct (check_str_checked n r1 Hcd1 Hf1) as (r2&b2&->&Hs). res_step.
  pose proof (checked_trans _ _ _ _ Hv Hs) as Hs'. destruct b2; [by eauto using capped|].
  pose proof (ck_go _ _ _ Hs' eq_refl) as Hf2. rewrite Hf in Hf2.
  destruct (check_token_checked toks r2 Hf2) as (r3&b3&->&Ht3); [by rewrite (ck_len _ _ _ Hs')|].
  pose proof (checked_trans _ _ _ _ Hs' Ht3) as Hc3. destruct b3; [by eauto using capped|].
  by apply bounded_rest.
Qed.

(** C20: the check of the stop conditions after a step never raises; a length it
    reports never exceeds [max_new_tokens] nor the output, so the emitted output
    respects the token budget even when one speculative step runs past it; the
    number of output tokens does not change; and a request that has used its
    budget is always finished. *)
Theorem finish_state_bounds n r :
  can_decode r → finished_reason r = None → finished_len r = None → output_ids r ≠ [] →
  ∃ r', update_finish_state n r = Ok r'
    ∧ length (output_ids r') = length (output_ids r)
    ∧ (∀ k, finished_len r' = Some k →
         k ≤ max_new_tokens (sampling_params r) ∧ k ≤ length (output_ids r)
         ∧ length (output_ids_through_stop r') = k)
    ∧ (max_new_tokens (sampling_params r) ≤ length (output_ids r) → finished r' = true).
Proof.
  intros Hcd Hr Hf Hne. destruct (update_finish_state_bounded n r Hcd Hr Hf Hne) as (f&He&[Hl Hk Hfin]).
  exists f. split_and!; try done. intros k Hfk. destruct (Hk k Hfk). split_and!; try done.
  unfold output_ids_through_stop. rewrite Hfk, length_take. lia.
Qed.

(** ** The first stop wins *)

Lemma vocab_loop_valid tokens i new_len r :
  Forall (λ t, (0 ≤ t)%Z ∧ match vocab_size r with Some v => (t < v)%Z | None => True end) tokens →
  vocab_loop tokens i new_len r = (r, false).
Proof.
  intros H. revert i. induction H as [|t tokens [Ht Hv] _ IH]; intros i; simpl; [done|].
  destruct (Z.ltb_spec t 0); [lia|]. destruct (vocab_size r) as [v|]; [|apply IH].
  destruct (Z.leb_spec v t); [lia|]. apply IH.
Qed.

Lemma token_loop_first pre t post i new_len r :
  Forall (λ x, is_stop_token x r = false) pre → is_stop_token t r = true →
  token_loop (pre ++ t :: post) i new_len r
  = (set_finished_len (length (output_ids r) - new_len + (i + length pre) + 1)
       (set_finished_reason (FINISH_MATCHED_TOKEN t) r), true).
Proof.
  intros Hpre Ht. revert i. induction Hpre as [|x pre Hx _ IH]; intros i; simpl.
  - by rewrite Ht, Nat.add_0_r.
  - by rewrite Hx, IH, Nat.add_succ_comm.
Qed.

(** C27: without stop strings, a step that accepts a stop token ends the output right
    after the first one accepted, with that token as the reason, also when more
    tokens were accepted behind it; when the token budget ends earlier, the output
    ends there and the reason is the length. *)
Theorem first_stop_token_ends_output n r pre t post :
  finished_reason r = None → to_finish r = None → ignore_eos (sampling_params r) = false →
  stop_strs (sampling_params r) = [] → stop_regex_strs (sampling_params r) = [] →
  last_n n (output_ids r) = pre ++ t :: post →
  Forall (λ t, (0 ≤ t)%Z ∧ match vocab_size r with Some v => (t < v)%Z | None => True end)
    (last_n n (output_ids r)) →
  Forall (λ x, is_stop_token x r = false) pre → is_stop_token t r = true →
  let stop_len := length (output_ids r) - length post in
  let budget := max_new_tokens (sampling_params r) in
  ∃ r', update_finish_state n r = Ok r'
    ∧ output_ids_through_stop r' = take (min stop_len budget) (output_ids r)
    ∧ finished_reason r' = Some (if budget <? stop_len then FINISH_LENGTH budget else FINISH_MATCHED_TOKEN t).
Proof.
  intros Hr Ht Hi Hs1 Hs2 Hacc Hv Hpre Hstop stop_len budget.
  unfold update_finish_state, finished. rewrite Hr, Ht. unfold check_vocab_boundary_finish.
  rewrite vocab_loop_valid by done. unfold check_str_based_finish. rewrite Hs1, Hs2. res_step.
  unfold check_token_based_finish. rewrite Hi, Hacc, token_loop_first by done.
  pose proof (length_last_n n (output_ids r)) as Hle. rewrite Hacc, length_app in Hle. cbn [length] in Hle.
  replace (length (output_ids r) - length (pre ++ t :: post) + (0 + length pre) + 1) with stop_len
    by (rewrite length_app; cbn [length]; unfold stop_len; lia).
  unfold cap_finished_len_at_max_new_tokens. cbn [finished_len set_finished_len sampling_params set_finished_reason].
  fold budget. eexists. split; [done|]. destruct (Nat.ltb_spec budget stop_len); simpl.
  - by rewrite Nat.min_r by lia.
  - by rewrite Nat.min_l by lia.
Qed.

End Finish.

(** ** A small tokenizer: one character per token, patterns matched literally *)
Definition demo_decode (ids : list Z) : text := map (λ t, Ascii.ascii_of_nat (Z.to_nat t)) ids.
Definition demo_search (p t : text) : res bool :=
  if bool_decide (p = String.list_ascii_of_string "(") then Raise ValueError else Ok (str_in p t).
Definition demo_req (stops patterns : list text) (budget : nat) (out : list Z) : FinishReq :=
  mkFinishReq (mkSampling budget [2%Z] stops patterns 4 4 false) (Some (mkTokenizer (Some 1%Z) [])) [] (Some 256%Z)
    None [] out None None None.

Lemma demo_search_valid p t t' b : demo_search p t = Ok b → ∃ b', demo_search p t' = Ok b'.
Proof. unfold demo_search. case_bool_decide; [done|eauto]. Qed.

Lemma finish_state_bounds_witness :
  ∃ r', update_finish_state demo_decode demo_search 3
          (demo_req [String.list_ascii_of_string "bc"] [] 4 [97; 98; 99; 100]%Z) = Ok r'
    ∧ length (output_ids r') = 4
    ∧ (∀ k, finished_len r' = Some k → k ≤ 4 ∧ k ≤ 4 ∧ length (output_ids_through_stop r') = k)
    ∧ (4 ≤ 4 → finished r' = true).
Proof.
  apply (finish_state_bounds demo_decode demo_search demo_search_valid 3
    (demo_req [String.list_ascii_of_string "bc"] [] 4 [97; 98; 99; 100]%Z)); try done. by right.
Defined.

Lemma first_stop_token_ends_output_witness :
  ∃ r', update_finish_state demo_decode demo_search 3 (demo_req [] [] 8 [97; 98; 2; 99]%Z) = Ok r'
    ∧ output_ids_through_stop r' = [97; 98; 2]%Z ∧ finished_reason r' = Some (FINISH_MATCHED_TOKEN 2).
Proof.
  apply (first_stop_token_ends_output demo_decode demo_search 3 (demo_req [] [] 8 [97; 98; 2; 99]%Z)
    [98%Z] 2%Z [99%Z]); try done; repeat constructor; done.
Defined.


(** An invalid pattern marks the request aborted, but the check goes on: a stop
    token accepted in the same step replaces the abort by a normal finish. *)
Example invalid_pattern_abort_overwritten :
  update_finish_state demo_decode demo_search 1
    (demo_req [] [String.list_ascii_of_string "("] 8 [97; 2]%Z)
  = Ok (set_finished_len 2 (set_finished_reason (FINISH_MATCHED_TOKEN 2)
      (demo_req [] [String.list_ascii_of_string "("] 8 [97; 2]%Z))).
Proof. vm_compute. reflexivity. Qed.
