(* ===== verification/PySort.v ===== *)
(** * [list.sort] and [sorted]

    Python's sort is stable.  It is modelled by insertion from the right, with the
    comparison of the sort keys as a boolean; the lemmas give what the scheduler
    relies on: a permutation, in order, with equal keys in their old order. *)

From stdpp Require Import base tactics numbers list sorting.
From Stdlib Require Import ZArith QArith Lia Lqa.
From S2P Require Import Prelude.

Section Sort.
Context {A : Type} (le : A → A → bool).

Fixpoint insert_by (x : A) (l : list A) : list A :=
  match l with
  | [] => [x]
  | y :: l => if le x y then x :: y :: l else y :: insert_by x l
  end.
Definition sort_by (l : list A) : list A := foldr insert_by [] l.

Lemma insert_by_perm x l : insert_by x l ≡ₚ x :: l.
Proof.
  induction l as [|y l IH]; simpl; [done|]. destruct (le x y); [done|]. rewrite IH. constructor.
Qed.

Lemma sort_by_perm l : sort_by l ≡ₚ l.
Proof. induction l as [|x l IH]; simpl; [done|]. by rewrite insert_by_perm, IH. Qed.

(** Elements that all compare as equal keep their order. *)
Lemma sort_by_stable (P : A → Prop) `{∀ x, Decision (P x)} l :
  (∀ x y, P x → P y → le x y = true) → filter P (sort_by l) = filter P l.
Proof.
  intros HP.
  assert (∀ x l, filter P (insert_by x l) = filter P (x :: l)) as Hins.
  { intros x l'. induction l' as [|y l' IH]; simpl; [done|].
    destruct (le x y) eqn:E; [done|]. rewrite !filter_cons in *. rewrite IH.
    destruct (decide (P x)), (decide (P y)); try done. by rewrite HP in E. }
  induction l as [|x l IH]; simpl; [done|]. by rewrite Hins, !filter_cons, IH.
Qed.

Context (total : ∀ x y, le x y = false → le y x = true).
Context (trans : ∀ x y z, le x y = true → le y z = true → le x z = true).

Lemma insert_by_sorted x l :
  StronglySorted (λ a b, le a b = true) l → StronglySorted (λ a b, le a b = true) (insert_by x l).
Proof.
  induction 1 as [|y l Hl IH Hy]; simpl; [repeat constructor|].
  destruct (le x y) eqn:E.
  - constructor; [by constructor|]. constructor; [done|].
    eapply Forall_impl; [exact Hy|]. simpl. eauto.
  - constructor; [done|]. rewrite insert_by_perm. constructor; auto.
Qed.

Lemma sort_by_sorted l : StronglySorted (λ a b, le a b = true) (sort_by l).
Proof. induction l; simpl; [constructor|]. by apply insert_by_sorted. Qed.
End Sort.

(** ** Sort keys: numbers and pairs in lexicographic order *)
Definition key_le {A} (f : A → Z) (x y : A) : bool := (f x <=? f y)%Z.
Definition qkey_le {A} (f : A → Q) (x y : A) : bool := Qle_bool (f x) (f y).
Definition lex_le {A} (f g : A → Q) (x y : A) : bool :=
  if Qle_bool (f x) (f y) then if Qle_bool (f y) (f x) then Qle_bool (g x) (g y) else true else false.

Lemma Qle_bool_false x y : Qle_bool x y = false ↔ (y < x)%Q.
Proof. rewrite <-not_true_iff_false, Qle_bool_iff. split; [apply Qnot_le_lt|apply Qlt_not_le]. Qed.

Section Keys.
Context {A : Type} (h : A → Z).

Lemma key_le_total x y : key_le h x y = false → key_le h y x = true.
Proof. unfold key_le. rewrite Z.leb_gt, Z.leb_le. lia. Qed.
Lemma key_le_trans x y z : key_le h x y = true → key_le h y z = true → key_le h x z = true.
Proof. unfold key_le. rewrite !Z.leb_le. lia. Qed.
End Keys.

Section QKeys.
Context {A : Type} (f : A → Q).

Lemma qkey_le_total x y : qkey_le f x y = false → qkey_le f y x = true.
Proof. unfold qkey_le. rewrite Qle_bool_false, Qle_bool_iff. lra. Qed.
Lemma qkey_le_trans x y z : qkey_le f x y = true → qkey_le f y z = true → qkey_le f x z = true.
Proof. unfold qkey_le. rewrite !Qle_bool_iff. lra. Qed.

End QKeys.

Section LexKeys.
Context {A : Type} (f g : A → Q).

Lemma lex_le_spec x y :
  lex_le f g x y = true ↔ (f x < f y)%Q ∨ ((f x == f y)%Q ∧ (g x <= g y)%Q).
Proof.
  unfold lex_le.
  destruct (Qle_bool (f x) (f y)) eqn:E1; [|apply Qle_bool_false in E1; split; [done|intros [?|[? _]]; lra]].
  apply Qle_bool_iff in E1.
  destruct (Qle_bool (f y) (f x)) eqn:E2.
  - apply Qle_bool_iff in E2. rewrite Qle_bool_iff. split; [intros; right; split; [lra|done]|].
    intros [?|[_ ?]]; [lra|done].
  - apply Qle_bool_false in E2. split; [by left|done].
Qed.
Lemma lex_le_total x y : lex_le f g x y = false → lex_le f g y x = true.
Proof.
  rewrite <-not_true_iff_false, !lex_le_spec. intros H.
  destruct (Q_dec (f x) (f y)) as [[Hlt|Hlt]|Heq]; [by destruct H; left|by left|].
  right. split; [lra|]. destruct (Qlt_le_dec (g y) (g x)); [lra|]. destruct H. by right.
Qed.
Lemma lex_le_trans x y z : lex_le f g x y = true → lex_le f g y z = true → lex_le f g x z = true.
Proof. rewrite !lex_le_spec. intros [?|[??]] [?|[??]]; [left; lra..|right; split; lra]. Qed.
End LexKeys.
