(* ===== verification/Retract.v ===== *)
(** * Retraction

    When the next decode step does not fit in memory, the scheduler retracts running
    requests: [check_decode_mem], [retract_decode] and [release_req] of
    [src/python/sglang/srt/managers/schedule_batch.py], with [release_kv_cache] of
    mem_cache/common.py.  The plain radix cache: no Mamba state, no streaming
    session, no HiSparse.  With decode disaggregation the KV of a retracted request is
    first copied to the host; [backup] stands for that copy ([retraction_backup]), and
    is [None] without disaggregation. *)

From stdpp Require Import base tactics numbers list gmap strings.
From Stdlib Require Import ZArith QArith Lia ZifyNat.
From S2P Require Import Prelude RadixKey TreeNode RadixCache PySort Allocator AllocKernel PoolAlloc.
From S2P Require Import Requests ReqPool RadixReq BatchAlloc.
From S2P Require SchedControl.

Local Open Scope nat_scope.

(** ** The order of retraction *)

(** Python compares tuples lexicographically. *)
Fixpoint tuple_le (a b : list Z) : bool :=
  match a, b with
  | [], _ => true
  | _ :: _, [] => false
  | x :: a, y :: b => if (x <? y)%Z then true else if (y <? x)%Z then false else tuple_le a b
  end.

Definition maxsize : Z := 2 ^ 63 - 1.

Definition length_key (r : BatchReq) : list Z :=
  [Z.of_nat (length (Req.output_ids (core r))); (- Z.of_nat (length (Req.origin_input_ids (core r))))%Z].

Definition retraction_key (low_first : bool) (r : BatchReq) : list Z :=
  let priority_sign := if low_first then 1%Z else (-1)%Z in
  let priority := match Req.priority (core r) with
                  | Some x => x
                  | None => if low_first then maxsize else (- maxsize - 1)%Z
                  end in
  (priority * - priority_sign)%Z :: length_key r.

Definition order_key (by_priority low_first : bool) (r : BatchReq) : list Z :=
  if by_priority then retraction_key low_first r else length_key r.

(** A stable sort, largest key first. *)
Definition get_decode_retraction_order (by_priority low_first : bool) (rs : list BatchReq) : list nat :=
  let key_of i := match rs !! i with Some r => order_key by_priority low_first r | None => [] end in
  sort_by (λ i j, tuple_le (key_of j) (key_of i)) (seq 0 (length rs)).

(** ** Memory for the next step *)

Definition ceil_align (n a : nat) : nat := (n + a - 1) / a * a.

Fixpoint select (rs : list BatchReq) (idx : list nat) : res (list BatchReq) :=
  match idx with
  | [] => Ok []
  | i :: idx =>
      let! r := res_of_option IndexError (rs !! i) in
      let! l := select rs idx in
      Ok (r :: l)
  end.

(** [spec_reserve] is [get_alloc_reserve_per_decode()], for speculative decoding. *)
Fixpoint new_tokens_spec_v2 (spec_reserve page_size : nat) (rs : list BatchReq) : res nat :=
  match rs with
  | [] => Ok 0
  | r :: rs =>
      let! k := res_of_option AttributeError (kv r) in
      let x := Req.kv_committed_len (core r) + spec_reserve - kv_allocated_len k in
      let cur := kv_allocated_len k in
      let nxt := cur + x in
      let! total := new_tokens_spec_v2 spec_reserve page_size rs in
      Ok (ceil_align nxt page_size - ceil_align cur page_size + total)
  end.

Section Retract.
Context {A : Type} `{PoolAllocator A} {X : Type} `{!AuxCache X}.
Context (monotonic : nat → Z).
Context (native_hash : RadixKey → option string → nat → list string).
Context (salt_digest : string → string).
(** [SGLANG_RETRACT_DECODE_STEPS], the retraction policy and the serving flags. *)
Context (retract_decode_steps : nat) (by_priority low_first strip_thinking_cache : bool) (spec_reserve : option nat).
Context (backup : option (BatchReq → bool)).
Implicit Types (c : RadixCache A) (p : ReqToTokenPool X) (b : ScheduleBatch) (r : BatchReq).

Definition new_tokens_required_next_decode (selected : option (list nat)) b c : res nat :=
  let page_size := pool_page_size (allocator c) in
  let! requests := match selected with None => Ok (reqs b) | Some idx => select (reqs b) idx end in
  match spec_reserve with
  | None =>
      let new_pages := length (List.filter (λ r, Req.kv_committed_len (core r) mod page_size =? 0) requests) in
      Ok (new_pages * page_size)
  | Some reserve => new_tokens_spec_v2 reserve page_size requests
  end.

Definition check_decode_mem (selected : option (list nat)) b c : res (RadixCache A * bool) :=
  let! num_tokens := new_tokens_required_next_decode selected b c in
  let! c := evict_from_tree_cache native_hash salt_digest num_tokens c in
  Ok (c, num_tokens <=? pool_available (allocator c)).

(** ** Releasing a request *)

Definition effective_kv_committed_len r : nat :=
  if strip_thinking_cache && (0 <? reasoning_tokens r)
  then min (Req.kv_committed_len (core r)) (length (Req.origin_input_ids (core r)))
  else Req.kv_committed_len (core r).

Definition release_overallocated_kv_indices r (start_p end_p : nat) p c : res (RadixCache A) :=
  let page_size := pool_page_size (allocator c) in
  assert_ (bool_decide (spec_reserve ≠ None) || strip_thinking_cache || (start_p =? end_p)) ;;!
  let start_p := if 1 <? page_size then ceil_align start_p page_size else start_p in
  if start_p <? end_p then
    let! row := req_row p (core r) in
    Ok (set_allocator (free_segment (allocator c) (pyslice row start_p end_p) start_p) c)
  else Ok c.

Definition is_none {B} (o : option B) : bool := match o with None => true | Some _ => false end.

Definition release_kv_cache r (is_insert : bool) p c : res (RadixCache A * ReqToTokenPool X * BatchReq) :=
  assert_ (eqb (is_none (Req.req_pool_idx (core r))) (is_none (kv r))) ;;!
  match kv r with
  | None => Raise AssertionError
  | Some k =>
      let effective := effective_kv_committed_len r in
      let! c := cache_finished_req monotonic native_hash salt_digest (core r)
                  (is_insert && negb (skip_radix_cache_insert r)) effective p c in
      let! c := release_overallocated_kv_indices r effective (kv_allocated_len k) p c in
      let! (core', p) := ReqPool.free (core r) p in
      Ok (c, p, set_kv None (set_core core' r))
  end.

(** The fields that [reset_for_retract] resets; a request without an extend range has
    the empty one. *)
Definition reset_for_retract r : res BatchReq :=
  assert_ (is_none (kv r)) ;;!
  let k := core r in
  Ok (set_core (Req.mkReq (Req.req_pool_idx k) 0 0 0 (Req.origin_input_ids k)
        (if has_input_embeds r then [] else Req.output_ids k)
        (Req.full_untruncated_fill_ids k) (Req.fill_is_origin k) (0, 0) (Req.extra_key k) (Req.cache_salt k)
        (Req.priority k) [] None (Req.return_logprob k) (Req.logprob_start_len k)) r).

(** [false] when the backup failed and the request cannot be resumed. *)
Definition release_req r (remaining_req_count : nat) (offload_kv : bool) p c
    : res (RadixCache A * ReqToTokenPool X * BatchReq * bool) :=
  let backup_saved := match backup with Some f => if offload_kv then f r else true | None => true end in
  let! (c, p, r) := release_kv_cache r false p c in
  let num_tokens := remaining_req_count * retract_decode_steps in
  let! c := evict_from_tree_cache native_hash salt_digest num_tokens c in
  let! r := reset_for_retract r in
  Ok (c, p, r, backup_saved).

(** ** The loop *)

Record Retraction := mkRetraction {
  rt_cache : RadixCache A;
  rt_pool : ReqToTokenPool X;
  rt_reqs : list BatchReq;
  rt_kept : list nat;
  rt_retracted : list BatchReq;
  rt_abort : list BatchReq;
}.

(** The requests are shared objects: releasing one updates it in the batch. *)
Definition release_at (idx remaining : nat) (offload_kv : bool) b p c
    : res (RadixCache A * ReqToTokenPool X * ScheduleBatch * BatchReq * bool) :=
  let! r := res_of_option IndexError (reqs b !! idx) in
  let! (c, p, r, saved) := release_req r remaining offload_kv p c in
  Ok (c, p, set_reqs (<[idx := r]> (reqs b)) b, r, saved).

(** The indices are kept in reverse: the code pops from the end of the list. *)
Fixpoint retract_loop (first_iter : bool) (rev_indices : list nat) (retracted aborted : list BatchReq) b p c
    : res Retraction :=
  match rev_indices with
  | [] => Raise IndexError
  | idx :: rest =>
      let! (c, enough) :=
        if first_iter then Ok (c, false) else check_decode_mem (Some (reverse rev_indices)) b c in
      if (enough : bool) then Ok (mkRetraction c p (reqs b) rev_indices retracted aborted)
      else match rest with
           | [] => Ok (mkRetraction c p (reqs b) rev_indices retracted aborted)
           | _ :: _ =>
               let! (c, p, b, r, saved) := release_at idx (length rest) true b p c in
               if (saved : bool) then retract_loop false rest (retracted ++ [r]) aborted b p c
               else retract_loop false rest retracted (aborted ++ [r]) b p c
           end
  end.

(** The one request that is left does not fit either: abort it. *)
Definition abort_last (t : Retraction) b : res Retraction :=
  let b := set_reqs (rt_reqs t) b in
  if length (rt_kept t) <=? 1 then
    let! (c, enough) := check_decode_mem (Some (reverse (rt_kept t))) b (rt_cache t) in
    if (enough : bool) then
      Ok (mkRetraction c (rt_pool t) (rt_reqs t) (rt_kept t) (rt_retracted t) (rt_abort t))
    else match rt_kept t with
         | [] => Raise IndexError
         | last_idx :: rest =>
             let! (c, p, b, r, _) := release_at last_idx 0 false b (rt_pool t) c in
             Ok (mkRetraction c p (reqs b) rest (rt_retracted t) (rt_abort t ++ [r]))
         end
  else Ok t.

Definition gather {B} (l : list B) (idx : list nat) : list B := omap (λ i, l !! i) idx.

(** [filter_batch(keep_indices = ...)]. *)
Definition filter_keep (keep : list nat) b : ScheduleBatch :=
  if length keep =? 0 then set_reqs [] b
  else if length keep =? length (reqs b) then b
  else mkBatch (gather (reqs b) keep) (prefix_lens b) (extend_lens b) (gather (seq_lens b) keep)
         (extend_num_tokens b) (is_dllm b) (gather (req_pool_indices b) keep)
         ((λ l, gather l keep) <$> encoder_lens b).

Definition retract_decode b p c
    : res (RadixCache A * ReqToTokenPool X * ScheduleBatch * (list BatchReq * Q * list BatchReq)) :=
  let sorted_indices := get_decode_retraction_order by_priority low_first (reqs b) in
  let! t := retract_loop true (reverse sorted_indices) [] [] b p c in
  let! t := abort_last t b in
  let b := filter_keep (reverse (rt_kept t)) (set_reqs (rt_reqs t) b) in
  let new_estimate_ratio := SchedControl.NewTokenRatio.estimate_new_token_ratio_after_retract (Z.of_nat retract_decode_steps)
    ((λ r, (length (Req.output_ids (core r)), max_new_tokens r)) <$> reqs b) in
  Ok (rt_cache t, rt_pool t, b, (rt_retracted t, new_estimate_ratio, rt_abort t)).

Definition retract_all (rs : list BatchReq) p c : res (RadixCache A * ReqToTokenPool X * list BatchReq) :=
  foldl (λ acc r,
    let! (c, p, done) := acc in
    let! (c, p, r, _) := release_req r (length rs - length done) true p c in
    Ok (c, p, done ++ [r])) (Ok (c, p, [])) rs.
End Retract.
