(* ===== verification/ReleaseCorrect.v ===== *)
(** * Releasing the memory of a request

    [cache_finished_req] without insertion, and [release_kv_cache]: the pages of the
    row behind the protected prefix go back to the allocator, each once, the lock on
    the last node is given back and the row of the request pool is free again. *)

From stdpp Require Import base tactics numbers list gmap strings.
From Stdlib Require Import ZArith Lia ZifyNat.
From S2P Require Import Prelude RadixKey TreeNode KvEvents EventQueue RadixCache RadixInv RadixPages RadixAcct.
From S2P Require Import RadixEvents RadixMatch RadixSpec RadixInsert RadixLock RadixEvict RadixReq RadixContents.
From S2P Require Import Allocator AllocFree AllocCorrect AllocKernel AllocExtend PoolAlloc Requests ReqPool.
From S2P Require Import BatchAlloc BatchWrite BatchMem BatchTake BatchPrefill BatchDecode Retract.

(** ** The pages that are freed *)

Lemma touched_aligned ps (pg : list Z) a n : 0 < ps → touched ps pg (a * ps) n = pyslice pg a (a + npages ps n).
Proof.
  intros Hps. unfold touched, covered. destruct (Nat.eqb_spec n 0) as [->|Hn].
  { unfold npages. rewrite Nat.div_small by lia. unfold pyslice. rewrite Nat.add_0_r, Nat.sub_diag. done. }
  rewrite Nat.div_mul by lia. f_equal. replace (a * ps + n - 1) with (n - 1 + a * ps) by lia.
  rewrite Nat.div_add by lia. unfold npages. replace (n + ps - 1) with (n - 1 + 1 * ps) by lia.
  rewrite Nat.div_add by lia. lia.
Qed.

Lemma npages_mul ps k : 0 < ps → npages ps (k * ps) = k.
Proof. intros Hps. pose proof (npages_bounds ps Hps (k * ps)). nia. Qed.

Lemma npages_add ps k n : 0 < ps → npages ps (k * ps + n) = k + npages ps n.
Proof.
  intros Hps. unfold npages. replace (k * ps + n + ps - 1) with (n + ps - 1 + k * ps) by lia. rewrite Nat.div_add by lia. lia.
Qed.

Lemma req_key_aligned {A} (c : RadixCache A) r toks : 0 < page_size c → klen (req_key c r toks) mod page_size c = 0.
Proof.
  intros Hps. unfold req_key.
  destruct (page_aligned_spec (radix_key toks (Req.extra_key r) (is_eagle c) None (Req.cache_salt r)) (page_size c)
    ltac:(apply radix_key_salt_ok) Hps) as (Hit&_&_).
  rewrite <-length_iter, Hit, length_take, length_iter.
  pose proof (page_floor_le (page_size c) (klen (radix_key toks (Req.extra_key r) (is_eagle c) None (Req.cache_salt r)))).
  rewrite Nat.min_l by done. unfold page_floor. apply Nat.Div0.mod_mul.
Qed.

Lemma kv_row_slice ps pg s n a b : 0 < ps → a ≤ b ≤ n → pyslice (kv_row ps pg s n) a b = kv_row ps pg (s + a) (b - a).
Proof. intros Hps Hab. unfold pyslice. rewrite kv_row_drop, kv_row_take by lia. done. Qed.

Section Free.
Context {A : Type} `{PoolLaws A}.
Implicit Types a : A.

(** The pages behind the first [prot] tokens of a row. *)
Definition private (ps prot : nat) (pg : list Z) : list Z := drop (prot / ps) pg.

Lemma free_private a ps pg prot kl len : pool_ok a → pool_page_size a = ps → NoDup pg →
  length pg = npages ps len → prot mod ps = 0 → kl mod ps = 0 → prot ≤ kl ≤ len →
  in_pool (pool_total a) (private ps prot pg ++ pool_pages a) →
  let a' := free_segments a [(kv_row ps pg prot (kl - prot), prot); (kv_row ps pg kl (len - kl), kl)] in
  pool_keeps a a' ∧ pool_pages a' ≡ₚ private ps prot pg ++ pool_pages a.
Proof.
  intros Hok Hp Hnd Hlen Hprot Hkl Hle Hin. destruct (law_pool a Hok) as (Hps&_&_). rewrite Hp in Hps.
  pose proof (Nat.div_mod_eq prot ps) as Ep. pose proof (Nat.div_mod_eq kl ps) as Ek. rewrite Hprot, Nat.add_0_r in Ep.
  rewrite Hkl, Nat.add_0_r in Ek. set (u := prot / ps) in *. set (v := kl / ps) in *.
  assert (length (kv_row ps pg prot (kl - prot)) = kl - prot) as Hl1 by apply length_kv_row.
  pose proof (law_free_adjacent a (kv_row ps pg prot (kl - prot)) (kv_row ps pg kl (len - kl)) prot Hok) as Heq.
  rewrite Hl1, Hp in Heq. replace (prot + (kl - prot)) with kl in Heq by lia. cbv zeta. rewrite Heq by done. clear Heq.
  pose proof (npages_bounds ps Hps len) as Hb. assert (u ≤ v) by nia.
  assert (touched ps pg prot (kl - prot) = pyslice pg u v) as Ht1.
  { rewrite Ep, (Nat.mul_comm ps u), touched_aligned by done. f_equal.
    replace (kl - u * ps) with ((v - u) * ps) by nia. rewrite npages_mul by done. lia. }
  assert (touched ps pg kl (len - kl) = drop v pg) as Ht2.
  { rewrite Ek, (Nat.mul_comm ps v), touched_aligned by done. apply pyslice_to_end. rewrite Hlen.
    rewrite <-npages_add by done. apply npages_mono; [done|lia]. }
  assert (pyslice pg u v ++ drop v pg = private ps prot pg) as Hcat.
  { unfold private. fold u. rewrite pyslice_drop_take by done. rewrite <-(take_drop v pg) at 3. rewrite drop_app_le; [done|].
    rewrite length_take, Hlen. assert (u ≤ npages ps len) by nia. lia. }
  rewrite <-Hcat in Hin. rewrite <-(app_assoc (pyslice pg u v)) in Hin.
  assert (in_pool (pool_total a) (pyslice pg u v ++ pool_pages a)) as Hin1.
  { destruct Hin as [Hn Hr]. split; [|set_solver]. apply NoDup_app in Hn as (?&?&Hn2). apply NoDup_app in Hn2 as (?&?&?).
    apply NoDup_app. split_and!; [done|set_solver|done]. }
  destruct (law_free_segment a pg prot (kl - prot) Hok Hnd) as [(Hok1&Hp1&Ht') Hpg1];
    [rewrite Hp; lia|by rewrite Hp, Ht1|]. rewrite Hp in Hok1, Hp1, Ht', Hpg1. rewrite Ht1 in Hpg1.
  set (a1 := free_segment a (kv_row ps pg prot (kl - prot)) prot) in *.
  destruct (law_free_segment a1 pg kl (len - kl) Hok1 Hnd) as [(Hok2&Hp2&Ht2') Hpg2].
  { rewrite Hp1. nia. }
  { rewrite Hp1, Ht2, Ht'. destruct Hin as [Hn Hr]. split.
    - rewrite Hpg1, app_assoc, (Permutation_app_comm (drop v pg)), <-app_assoc. done.
    - intros q Hq. apply Hr. rewrite Hpg1 in Hq. set_solver. }
  rewrite Hp1 in Hok2, Hp2, Ht2', Hpg2. rewrite Ht2 in Hpg2.
  split; [split_and!; congruence|]. rewrite Hpg2, Hpg1, app_assoc, (Permutation_app_comm (drop v pg)). by rewrite Hcat.
Qed.
End Free.

(** ** One request *)

Section Release.
Context {A : Type} `{PoolLaws A} {X : Type} `{!AuxCache X}.
Context (monotonic : nat → Z).
Context (native_hash : RadixKey → option string → nat → list string).
Context (salt_digest : string → string).
Context (Hnative : ∀ k prior ps, 0 < ps → klen k mod ps = 0 →
  length (native_hash k prior ps) = klen k / ps ∧ Forall good_hash (native_hash k prior ps)).
Implicit Types (c : RadixCache A) (p : ReqToTokenPool X) (r : BatchReq).

(** The tokens of a request whose KV is stored. *)
Definition kv_tokens r : list Z :=
  take (Req.kv_committed_len (core r)) (Req.origin_input_ids (core r) ++ Req.output_ids (core r)).

(** A running request: [row] is its row of the pool, [pg] are the row's pages, and the
    protected prefix is a number of whole pages that belongs to the tree. *)
Record live_req c (row pg : list Z) r : Prop := {
  lv_row : take (Req.kv_committed_len (core r)) row = kv_row (page_size c) pg 0 (Req.kv_committed_len (core r));
  lv_len : Req.kv_committed_len (core r) ≤ length row;
  lv_pages : length pg = npages (page_size c) (Req.kv_committed_len (core r));
  lv_nodup : NoDup pg;
  lv_toks : length (kv_tokens r) = Req.kv_committed_len (core r);
  lv_kv : kv_allocated_len <$> kv r = Some (Req.kv_committed_len (core r));
  lv_aligned : Req.cache_protected_len (core r) mod page_size c = 0;
  lv_prot : Req.cache_protected_len (core r) ≤ klen (req_key c (core r) (kv_tokens r));
}.

(** What a release does to the cache: the lock of [x] and the pages [pgs] are given back. *)
Record released c c' (φ : node_id → list lunit) (x : node_id) (pgs : list Z) : Prop := {
  rs_ready : ready c' φ;
  rs_cfg : cfg c' = cfg c;
  rs_total : pool_total (allocator c') = pool_total (allocator c);
  rs_pool : pool_pages (allocator c') ≡ₚ pgs ++ pool_pages (allocator c);
  rs_slots : slots (nodes c') = slots (nodes c);
  rs_sum : (evictable_size c' + protected_size c' = evictable_size c + protected_size c)%Z;
  rs_nodes : ∀ j n, nodes c !! j = Some n → ∃ n', nodes c' !! j = Some n' ∧ value n' = value n
    ∧ (j ≠ root_node c → own (nodes c') n' = own (nodes c) n - (if decide (j = x) then 1 else 0))%Z;
  rs_back : ∀ j, is_Some (nodes c' !! j) → is_Some (nodes c !! j);
  rs_pages : ∀ N Q vs, page_at (page_size c') (nodes c') φ N Q vs ↔ page_at (page_size c) (nodes c) φ N Q vs;
}.

Lemma released_mem c c' pgs a' : tree_mem c → pool_keeps (allocator c) a' →
  pool_pages a' ≡ₚ pgs ++ pool_pages (allocator c) → allocator c' = a' → page_size c' = page_size c →
  (∀ s, s ∈ slots (nodes c) → (s / Z.of_nat (page_size c))%Z ∉ pgs) → slots (nodes c') = slots (nodes c) →
  (∀ j n', nodes c' !! j = Some n' → ∃ n, nodes c !! j = Some n ∧ value n' = value n) → tree_mem c'.
Proof.
  intros [Hok Hp Hw Hnd Hapart] (Hok'&Hp'&Ht') Hpg Hal Hpc Hap Hsl Hback. split; rewrite ?Hal, ?Hpc, ?Hsl; try done.
  - congruence.
  - intros j n' v Hj Hv. destruct (Hback j n' Hj) as (n&Hn&E). eapply Hw; [done|congruence].
  - intros s Hs. rewrite Ht', Hpg. destruct (Hapart s Hs). split; [done|]. intros [?|?]%elem_of_app; [|done]. by eapply Hap.
Qed.

Lemma finish_release c φ r p row pg x n : ready c φ → live_req c row pg r → req_row p (core r) = Ok row →
  Req.last_node (core r) = Some x → nodes c !! x = Some n → (x ≠ root_node c → 0 < own (nodes c) n)%Z →
  let pgs := private (page_size c) (Req.cache_protected_len (core r)) pg in
  in_pool (pool_total (allocator c)) (pgs ++ pool_pages (allocator c)) →
  (∀ s, s ∈ slots (nodes c) → (s / Z.of_nat (page_size c))%Z ∉ pgs) →
  ∃ c', cache_finished_req monotonic native_hash salt_digest (core r) false (Req.kv_committed_len (core r)) p c = Ok c'
    ∧ released c c' φ x pgs.
Proof.
  intros [Hi Hh Hm Hd] [Hrow Hlen Hpl Hnd Htok _ Hal Hprot] Hrr Hx Hn Hown pgs Hin Hap.
  pose proof (in_ps _ _ Hi) as Hps. destruct (req_key_spec c (core r) (kv_tokens r) Hps) as (_&_&_&_&Hkl).
  pose proof (req_key_aligned c (core r) (kv_tokens r) Hps) as Hka. rewrite Htok in Hkl.
  unfold cache_finished_req. rewrite Hrr, Hd. res_step. fold (kv_tokens r). rewrite Htok.
  set (kl := klen (req_key c (core r) (kv_tokens r))) in *. set (len := Req.kv_committed_len (core r)) in *.
  set (prot := Req.cache_protected_len (core r)) in *. rewrite Hx.
  replace (if disable_finished_insert c then false else false) with false by (by destruct (disable_finished_insert c)).
  res_step. rewrite Hrow. rewrite kv_row_slice, kv_row_drop by lia. rewrite Nat.add_0_l.
  destruct (free_private (allocator c) (page_size c) pg prot kl len) as (Hk&Hpg); try done; [apply Hm..|].
  set (a' := free_segments (allocator c) _) in *. pose proof Hk as (Hok'&Hp'&Ht').
  destruct (dec_lock_ref_walked (set_allocator a' c) φ x n) as (c'&δ&He&Hw); [by apply inv_set_allocator|done..|].
  destruct (walked_quiet (set_allocator a' c) φ c' _ x (-1) δ ltac:(by apply inv_set_allocator) Hw) as (Hi'&Hh'&Hpa).
  { intros n0 Hn0 Hxr. simpl in Hn0, Hxr. assert (n0 = n) as -> by congruence. specialize (Hown Hxr). simpl. lia. }
  rewrite He. res_step. exists c'. split; [done|]. pose proof (wk_relocked _ _ _ _ _ _ Hw) as Hrl.
  pose proof (rl_alloc _ _ _ _ Hrl) as Hal'. pose proof (rl_cfg _ _ _ _ Hrl) as Hcfg. pose proof Hcfg as [= Hdc Hpc _ _ _ _].
  simpl in Hal'. split; rewrite ?Hal'; try done.
  - split; [done|by apply Hh'| |by rewrite Hdc]. apply (released_mem c c' pgs a'); try done; [by rewrite (walked_slots _ _ _ _ _ _ Hw)|].
    intros j n' Hj. rewrite (rl_nodes _ _ _ _ Hrl) in Hj. simpl in Hj. destruct (nodes c !! j) as [m|]; [|done].
    injection Hj as <-. by exists m.
  - by rewrite (walked_slots _ _ _ _ _ _ Hw).
  - unfold evictable_size, protected_size. rewrite (wk_ev _ _ _ _ _ _ Hw), (wk_pr _ _ _ _ _ _ Hw). simpl. lia.
  - intros j m Hj. destruct (walked_node _ _ _ _ _ _ j m Hw Hj) as (m'&Hm'&Hv&Ho). exists m'. split_and!; [done| |].
    { rewrite (rl_nodes _ _ _ _ Hrl) in Hm'. simpl in Hm'. rewrite Hj in Hm'. by injection Hm' as <-. }
    intros Hjr. rewrite Ho by done. simpl. case_decide; lia.
  - intros j [m' Hj]. rewrite (rl_nodes _ _ _ _ Hrl) in Hj. simpl in Hj. destruct (nodes c !! j); [done|by discriminate Hj].
Qed.

(** The request pool with the row [j] free again. *)
Record row_freed p p' (j : nat) : Prop := {
  rf_table : req_to_token p' = req_to_token p;
  rf_free : free_slots p' = free_slots p ++ [j];
  rf_gen : req_generation p' = req_generation p;
  rf_size : ReqPool.size p' = ReqPool.size p;
  rf_ctx : max_context_len p' = max_context_len p;
}.

Lemma row_freed_wf p p' j held : row_freed p p' j → pool_wf p (j :: held) → pool_wf p' held.
Proof.
  intros [Ht Hf Hg Hs _] [Hr Hgl Htl]. split; rewrite ?Ht, ?Hf, ?Hg, ?Hs; try done. rewrite <-app_assoc. done.
Qed.

(** The request after it was taken off the batch: nothing of the KV is left in it. *)
Definition reset_req r : BatchReq :=
  let k := core r in
  set_kv None (set_core (Req.mkReq None 0 0 0 (Req.origin_input_ids k) (if has_input_embeds r then [] else Req.output_ids k)
    (Req.full_untruncated_fill_ids k) (Req.fill_is_origin k) (0, 0) (Req.extra_key k) (Req.cache_salt k)
    (Req.priority k) [] None (Req.return_logprob k) (Req.logprob_start_len k)) r).

Definition saved_by (backup : option (BatchReq → bool)) (offload : bool) r : bool :=
  match backup with Some f => if offload then f r else true | None => true end.

Lemma release_req_spec steps backup c φ r p j row pg x n num offload : ready c φ → live_req c row pg r →
  Req.req_pool_idx (core r) = Some j → req_to_token p !! j = Some row →
  Req.last_node (core r) = Some x → nodes c !! x = Some n → (x ≠ root_node c → 0 < own (nodes c) n)%Z →
  let pgs := private (page_size c) (Req.cache_protected_len (core r)) pg in
  in_pool (pool_total (allocator c)) (pgs ++ pool_pages (allocator c)) →
  (∀ s, s ∈ slots (nodes c) → (s / Z.of_nat (page_size c))%Z ∉ pgs) →
  ∃ c1 c' p', release_req monotonic native_hash salt_digest steps false None backup r num offload p c
      = Ok (c', p', reset_req r, saved_by backup offload r)
    ∧ released c c1 φ x pgs ∧ reclaimed c1 c' φ (num * steps) ∧ row_freed p p' j.
Proof.
  intros Hr Hl Hj Hrow Hx Hn Hown pgs Hin Hap. pose proof (lv_kv _ _ _ _ Hl) as Hkv.
  destruct (kv r) as [k|] eqn:Ek; [|done]. injection Hkv as Hkv.
  destruct (finish_release c φ r p row pg x n Hr Hl) as (c1&Hf&Hrel); try done.
  { unfold req_row. by rewrite Hj; simpl; rewrite Hrow. }
  pose proof (rs_ready _ _ _ _ _ Hrel) as [Hi1 Hh1 Hm1 Hd1].
  destruct (evict_from_tree_cache_spec native_hash salt_digest Hnative c1 φ (num * steps) Hi1 Hh1 Hm1 Hd1) as (c'&He&Hrc).
  unfold release_req, release_kv_cache. rewrite Ek, Hj. cbn [is_none eqb assert_ res_bind].
  unfold effective_kv_committed_len. cbn [andb]. rewrite Hf. res_step. unfold release_overallocated_kv_indices.
  rewrite Hkv, Nat.eqb_refl. cbn [bool_decide orb]. rewrite orb_true_r. cbn [assert_ res_bind].
  assert (Req.kv_committed_len (core r) ≤ (if 1 <? pool_page_size (allocator c1)
    then ceil_align (Req.kv_committed_len (core r)) (pool_page_size (allocator c1)) else Req.kv_committed_len (core r))) as Hca.
  { destruct (Nat.ltb_spec 1 (pool_page_size (allocator c1))); [|done]. apply npages_bounds. lia. }
  rewrite (proj2 (Nat.ltb_ge _ _) Hca).
  res_step. unfold ReqPool.free. rewrite Hj. res_step. rewrite He. res_step.
  eexists c1, c', _. split_and!; [unfold reset_req; by destruct r|done|done|done].
Qed.
End Release.
