(* ===== verification/RetractCorrect.v ===== *)
(** * Retraction is safe

    The invariant of a running batch ([running]): which pages and locks its requests
    hold.  Releasing a request and reclaiming memory from the tree preserve it, no
    memory is lost, and [retract_decode] ends with a batch whose next step fits. *)

From stdpp Require Import base tactics numbers list gmap strings sorting.
From Stdlib Require Import ZArith Lia ZifyNat.
From S2P Require Import Prelude RadixKey TreeNode KvEvents EventQueue RadixCache RadixInv RadixPages RadixAcct.
From S2P Require Import RadixEvents RadixMatch RadixSpec RadixInsert RadixLock RadixEvict RadixReq RadixContents.
From S2P Require Import Allocator AllocFree AllocCorrect AllocKernel AllocExtend PoolAlloc PySort Requests ReqPool.
From S2P Require Import BatchAlloc BatchWrite BatchMem BatchTake BatchPrefill BatchDecode Retract ReleaseCorrect.

Local Open Scope nat_scope.

Lemma filter_same (P Q : nat → Prop) `{∀ x, Decision (P x), ∀ x, Decision (Q x)} (l : list nat) :
  (∀ x, x ∈ l → P x ↔ Q x) → filter P l = filter Q l.
Proof.
  induction l as [|x l IH]; intros Hl; [done|]. rewrite !filter_cons. rewrite IH by (intros; apply Hl; by right).
  pose proof (Hl x ltac:(left)). by destruct (decide (P x)), (decide (Q x)); try tauto.
Qed.

Lemma omap_same {B C} (f g : B → option C) (l : list B) : (∀ x, x ∈ l → f x = g x) → omap f l = omap g l.
Proof.
  induction l as [|x l IH]; intros Hl; [done|]. cbn [omap list_omap]. rewrite (Hl x) by left.
  change (list_omap B C f l) with (omap f l). change (list_omap B C g l) with (omap g l).
  rewrite IH; [done|]. intros y Hy. apply Hl. by right.
Qed.

Lemma concat_perm (l1 l2 : list (list Z)) : l1 ≡ₚ l2 → concat l1 ≡ₚ concat l2.
Proof.
  induction 1 as [|x l1 l2 _ IH|x y l|l1 l2 l3 _ IH1 _ IH2]; cbn [concat]; [done|by rewrite IH| |by rewrite IH1].
  rewrite !app_assoc. f_equiv. apply Permutation_app_comm.
Qed.

Section Running.
Context {A : Type} `{PoolLaws A} {X : Type} `{!AuxCache X}.
Implicit Types (c : RadixCache A) (p : ReqToTokenPool X) (rs : list BatchReq) (L : list nat) (pages : nat → list Z).

Definition last_of rs (i : nat) : option node_id := r ← rs !! i; Req.last_node (core r).
Definition row_of rs (i : nat) : option nat := r ← rs !! i; Req.req_pool_idx (core r).
Definition private_of (ps : nat) rs pages (i : nat) : list Z :=
  match rs !! i with Some r => private ps (Req.cache_protected_len (core r)) (pages i) | None => [] end.
Definition privates (ps : nat) rs pages L : list Z := concat (private_of ps rs pages <$> L).
(** The locks of the batch on node [x]. *)
Definition locks_on rs L (x : node_id) : nat := length (filter (λ i, last_of rs i = Some x) L).

(** The requests [L] of the batch are running; [others] are the rows of the pool that
    are in use outside of the batch. *)
Record running c (φ : node_id → list lunit) p rs pages L (others : list nat) : Prop := {
  ru_ready : ready c φ;
  ru_nodup : NoDup L;
  ru_req : ∀ i, i ∈ L → ∃ r j row x, rs !! i = Some r ∧ Req.req_pool_idx (core r) = Some j
    ∧ req_to_token p !! j = Some row ∧ Req.last_node (core r) = Some x ∧ is_Some (nodes c !! x)
    ∧ 0 < Req.kv_committed_len (core r) < max_context_len p ∧ live_req c row (pages i) r;
  ru_private : in_pool (pool_total (allocator c)) (privates (page_size c) rs pages L ++ pool_pages (allocator c));
  ru_apart : ∀ s, s ∈ slots (nodes c) → (s / Z.of_nat (page_size c))%Z ∉ privates (page_size c) rs pages L;
  ru_locks : ∀ x n, nodes c !! x = Some n → x ≠ root_node c → (Z.of_nat (locks_on rs L x) ≤ own (nodes c) n)%Z;
  ru_pool : pool_wf p (omap (row_of rs) L ++ others);
  ru_table : Forall (λ row, length row = max_context_len p) (req_to_token p);
}.

(** Everything there is: free pages, pages of the tree, pages of the requests. *)
Definition memory c rs pages L : Z :=
  (Z.of_nat (pool_available (allocator c)) + evictable_size c + protected_size c
   + Z.of_nat (length (privates (page_size c) rs pages L) * page_size c))%Z.

Lemma live_req_cfg c c' row pg r : cfg c' = cfg c → live_req c row pg r → live_req c' row pg r.
Proof.
  intros [= _ Hp He _ _ _] [? ? ? ? ? ? ? Hk]. split; rewrite ?Hp; try done. unfold req_key in *. by rewrite Hp, He.
Qed.

Lemma own_below_lock c φ x n : inv c φ → nodes c !! x = Some n → (own (nodes c) n ≤ lock_ref n)%Z.
Proof.
  intros Hi Hx. unfold own, child_locks. assert (0 ≤ msum (λ _ ch, lock_at (nodes c) ch) (children n))%Z; [|lia].
  apply msum_nonneg. intros ck ch _. unfold lock_at. destruct (nodes c !! ch) as [m|] eqn:Hm; [|done].
  by apply (ac_lock _ (in_acct _ _ Hi) ch).
Qed.

Lemma locks_on_pos rs L i x : i ∈ L → last_of rs i = Some x → 0 < locks_on rs L x.
Proof.
  intros Hi Hx. unfold locks_on. assert (i ∈ filter (λ i, last_of rs i = Some x) L) as Hf by by apply list_elem_of_filter.
  destruct (filter _ L); [by apply not_elem_of_nil in Hf|simpl; lia].
Qed.

(** A node that a running request locks is locked. *)
Lemma running_locked c φ p rs pages L others i x n : running c φ p rs pages L others → i ∈ L →
  last_of rs i = Some x → nodes c !! x = Some n → (0 < lock_ref n)%Z.
Proof.
  intros Hr Hi Hx Hn. pose proof (rd_inv _ _ (ru_ready _ _ _ _ _ _ _ Hr)) as Hinv.
  destruct (decide (x = root_node c)) as [->|Hne]; [by apply (ac_root_lock _ (in_acct _ _ Hinv))|].
  pose proof (ru_locks _ _ _ _ _ _ _ Hr x n Hn Hne). pose proof (own_below_lock c φ x n Hinv Hn).
  pose proof (locks_on_pos rs L i x Hi Hx). lia.
Qed.

(** ** Reclaiming memory *)

Lemma reclaimed_ready c c' φ num : ready c φ → reclaimed c c' φ num → ready c' φ.
Proof.
  intros [_ _ _ Hd] Hrc. pose proof (rc_cfg _ _ _ _ Hrc) as [= E _ _ _ _ _]. split; [apply Hrc..|congruence].
Qed.

Lemma running_reclaimed c c' φ num p rs pages L others : running c φ p rs pages L others →
  reclaimed c c' φ num → running c' φ p rs pages L others.
Proof.
  intros Hru Hrc. pose proof Hru as [Hr Hnd Hreq [Hpn Hpr] Hap Hlk Hwf Htab].
  pose proof Hrc as [Hi' _ Hm' Hcfg (_&_&Ht) _ _ _ (evd&Hev&Hevs&Hsl) Hkeep _]. pose proof Hcfg as [= _ Hp _ _ _ Hroot].
  assert (∀ i x, i ∈ L → last_of rs i = Some x → ∃ n n', nodes c !! x = Some n ∧ nodes c' !! x = Some n'
    ∧ own (nodes c') n' = own (nodes c) n) as Hlast.
  { intros i x Hi Hx. destruct (Hreq i Hi) as (r&j&row&y&Hri&_&_&Hy&[n Hn]&_&_). unfold last_of in Hx. rewrite Hri in Hx.
    simpl in Hx. assert (y = x) as -> by congruence.
    destruct (Hkeep x n Hn) as (n'&?&_&_&_&_&?); [|by exists n, n'].
    eapply running_locked; [exact Hru|exact Hi| |exact Hn]. unfold last_of. by rewrite Hri. }
  split; rewrite ?Hp, ?Hroot, ?Ht; try done.
  - by eapply reclaimed_ready.
  - intros i Hi. destruct (Hreq i Hi) as (r&j&row&x&Hri&?&?&Hx&_&?&?).
    destruct (Hlast i x Hi) as (_&n'&_&Hn'&_); [unfold last_of; by rewrite Hri|].
    exists r, j, row, x. split_and!; try done; try lia. by eapply live_req_cfg.
  - destruct (law_pool _ (tm_ok _ Hm')) as (_&[Hnd' Hr']&_). rewrite Ht in Hr'.
    apply NoDup_app in Hpn as (Hn1&Hn2&_). split; [|set_solver]. apply NoDup_app. split_and!; [done| |done].
    intros q Hq. rewrite Hev, elem_of_app. intros [He|He]; [|by eapply Hn2].
    destruct (Hevs q He) as (s&Hs&->). by apply (Hap s).
  - intros s Hs. apply Hap. by apply Hsl.
  - intros x n' Hn' Hxr. destruct (decide (locks_on rs L x = 0)) as [Hz|Hz].
    { rewrite Hz. apply (ac_own _ (in_acct _ _ Hi') x n' Hn'). congruence. }
    unfold locks_on in *. destruct (filter (λ i, last_of rs i = Some x) L) as [|i l] eqn:Hf; [done|].
    assert (i ∈ filter (λ i, last_of rs i = Some x) L) as [Hix Hi]%list_elem_of_filter by (rewrite Hf; left).
    destruct (Hlast i x Hi Hix) as (n&n''&Hn&Hn''&Ho). assert (n'' = n') as -> by congruence. rewrite Ho.
    specialize (Hlk x n Hn Hxr). by rewrite Hf in Hlk.
Qed.

Lemma memory_reclaimed c c' φ num rs pages L : reclaimed c c' φ num → memory c' rs pages L = memory c rs pages L.
Proof.
  intros Hrc. pose proof (rc_cfg _ _ _ _ Hrc) as [= _ Hp _ _ _ _].
  pose proof (rc_total _ _ _ _ Hrc) as Ht. pose proof (rc_protected _ _ _ _ Hrc) as Hpr.
  unfold memory, total_free in *. rewrite Hp. lia.
Qed.

(** ** Releasing a request *)

Section Step.
Context (rs : list BatchReq) (pages : nat → list Z) (i : nat) (r : BatchReq) (L : list nat) (Hi : i ∉ L).
Let rs' := <[i := reset_req r]> rs.

Lemma step_lookup k : k ∈ L → rs' !! k = rs !! k.
Proof. intros Hk. apply list_lookup_insert_ne. by intros ->. Qed.

Lemma step_privates ps : privates ps rs' pages L = privates ps rs pages L.
Proof.
  unfold privates. f_equal. apply list_fmap_ext. intros ? k Hk%list_elem_of_lookup_2. unfold private_of.
  by rewrite step_lookup.
Qed.

Lemma step_locks x : locks_on rs' L x = locks_on rs L x.
Proof.
  unfold locks_on. f_equal. apply filter_same. intros k Hk. unfold last_of. by rewrite step_lookup.
Qed.

Lemma step_rows : omap (row_of rs') L = omap (row_of rs) L.
Proof.
  apply omap_same. intros k Hk. unfold row_of. by rewrite step_lookup.
Qed.
End Step.

Lemma running_released c c1 φ p p' rs pages i L others r j x : running c φ p rs pages (i :: L) others →
  rs !! i = Some r → Req.req_pool_idx (core r) = Some j → Req.last_node (core r) = Some x →
  released c c1 φ x (private (page_size c) (Req.cache_protected_len (core r)) (pages i)) → row_freed p p' j →
  running c1 φ p' (<[i := reset_req r]> rs) pages L others
  ∧ memory c1 (<[i := reset_req r]> rs) pages L = memory c rs pages (i :: L).
Proof.
  intros [Hr Hnd Hreq Hpriv Hap Hlk Hwf Htab] Hri Hj Hx Hrel Hrf. apply NoDup_cons in Hnd as [Hi Hnd].
  set (pgs := private (page_size c) (Req.cache_protected_len (core r)) (pages i)) in *.
  pose proof Hrel as [Hr1 Hcfg Ht Hpool Hsl Hsum Hnodes Hback _]. pose proof Hcfg as [= _ Hp _ _ _ Hroot].
  assert (privates (page_size c) rs pages (i :: L) = pgs ++ privates (page_size c) rs pages L) as Hpc.
  { unfold privates. cbn [fmap list_fmap concat]. unfold private_of at 1. by rewrite Hri. }
  rewrite Hpc in *. split.
  - split; rewrite ?Hp, ?Hroot, ?step_privates, ?step_rows by done; try done.
    + intros k Hk. destruct (Hreq k) as (rk&jk&rowk&xk&Hrk&?&?&Hxk&[n Hn]&?&?); [by right|].
      destruct (Hnodes xk n Hn) as (n'&Hn'&_). exists rk, jk, rowk, xk. rewrite (step_lookup rs i r L), (rf_table _ _ _ Hrf), (rf_ctx _ _ _ Hrf) by done.
      split_and!; try done; try lia. by eapply live_req_cfg.
    + rewrite Ht. destruct Hpriv as [Hn Hrg]. rewrite <-app_assoc in Hn. split.
      * rewrite Hpool, app_assoc, (Permutation_app_comm _ pgs), <-app_assoc. done.
      * intros q Hq. apply Hrg. rewrite Hpool in Hq. set_solver.
    + rewrite Hsl. intros s Hs. specialize (Hap s Hs). set_solver.
    + intros y n' Hn' Hyr. rewrite step_locks by done. destruct (Hback y ltac:(by eexists)) as [n Hn].
      destruct (Hnodes y n Hn) as (n''&Hn''&_&Ho). assert (n'' = n') as -> by congruence. rewrite Ho by done.
      specialize (Hlk y n Hn Hyr). unfold locks_on in *. rewrite filter_cons in Hlk.
      assert (last_of rs i = Some x) as Hl by (unfold last_of; by rewrite Hri).
      destruct (decide (last_of rs i = Some y)), (decide (y = x)); try congruence; simpl in Hlk; lia.
    + eapply row_freed_wf; [done|]. cbn [omap list_omap] in Hwf. unfold row_of in Hwf at 1. rewrite Hri in Hwf.
      cbn [mbind option_bind] in Hwf. by rewrite Hj in Hwf.
    + by rewrite (rf_table _ _ _ Hrf), (rf_ctx _ _ _ Hrf).
  - unfold memory. rewrite Hpc, Hp, step_privates, length_app by done.
    destruct (law_pool _ (tm_ok _ (rd_mem _ _ Hr))) as (_&_&->). destruct (law_pool _ (tm_ok _ (rd_mem _ _ Hr1))) as (_&_&->).
    rewrite (tm_ps _ (rd_mem _ _ Hr)), (tm_ps _ (rd_mem _ _ Hr1)), Hp, Hpool, length_app, !Nat.mul_add_distr_r. lia.
Qed.
End Running.

(** ** The loop *)

Definition committed (rs : list BatchReq) (i : nat) : nat :=
  match rs !! i with Some r => Req.kv_committed_len (core r) | None => 0 end.
(** The memory the next step of the requests [L] needs. *)
Definition step_need (ps : nat) (rs : list BatchReq) (L : list nat) : nat := decode_need ps (committed rs <$> L) * ps.

Lemma decode_need_perm ps l1 l2 : l1 ≡ₚ l2 → decode_need ps l1 = decode_need ps l2.
Proof.
  unfold decode_need, sum_list. induction 1; cbn [fmap list_fmap foldr]; lia.
Qed.

Lemma step_need_reverse ps rs L : step_need ps rs (reverse L) = step_need ps rs L.
Proof. unfold step_need. f_equal. apply decode_need_perm. by rewrite reverse_Permutation. Qed.

Lemma step_need_same ps rs rs' L : (∀ i, i ∈ L → rs' !! i = rs !! i) → step_need ps rs' L = step_need ps rs L.
Proof.
  intros Hs. unfold step_need. do 2 f_equal. apply list_fmap_ext. intros ? i Hi%list_elem_of_lookup_2.
  unfold committed. by rewrite Hs.
Qed.

Lemma select_ok rs sel : (∀ i, i ∈ sel → is_Some (rs !! i)) →
  ∃ l, select rs sel = Ok l ∧ (λ r, Req.kv_committed_len (core r)) <$> l = committed rs <$> sel.
Proof.
  induction sel as [|i sel IH]; intros Hs; [by exists []|].
  destruct (Hs i ltac:(left)) as [r Hr]. destruct IH as (l&He&Hl); [intros k Hk; apply Hs; by right|].
  cbn [select]. rewrite Hr, He. res_step. eexists. split; [done|]. cbn [fmap list_fmap]. unfold committed at 1. rewrite Hr.
  by f_equal.
Qed.

Lemma filter_need ps (l : list BatchReq) :
  length (List.filter (λ r, Req.kv_committed_len (core r) mod ps =? 0) l)
  = decode_need ps ((λ r, Req.kv_committed_len (core r)) <$> l).
Proof.
  unfold decode_need, sum_list. induction l as [|r l IH]; [done|]. cbn [List.filter fmap list_fmap foldr].
  unfold needs_page at 1. destruct (_ =? 0); cbn [length]; lia.
Qed.

Section Loop.
Context {A : Type} `{PoolLaws A} {X : Type} `{!AuxCache X}.
Context (monotonic : nat → Z).
Context (native_hash : RadixKey → option string → nat → list string).
Context (salt_digest : string → string).
Context (Hnative : ∀ k prior ps, 0 < ps → klen k mod ps = 0 →
  length (native_hash k prior ps) = klen k / ps ∧ Forall good_hash (native_hash k prior ps)).
Context (steps : nat) (backup : option (BatchReq → bool)) (pages : nat → list Z) (others : list nat) (φ : node_id → list lunit).
Implicit Types (c : RadixCache A) (p : ReqToTokenPool X) (b : ScheduleBatch) (L : list nat).

Lemma check_decode_mem_spec c p b L sel : running c φ p (reqs b) pages L others → (∀ i, i ∈ sel → i ∈ L) →
  ∃ c', check_decode_mem native_hash salt_digest None (Some sel) b c
      = Ok (c', step_need (page_size c) (reqs b) sel <=? pool_available (allocator c'))
    ∧ reclaimed c c' φ (step_need (page_size c) (reqs b) sel).
Proof.
  intros Hru Hsel. pose proof (ru_ready _ _ _ _ _ _ _ Hru) as [Hi Hh Hm Hd].
  destruct (select_ok (reqs b) sel) as (l&Hs&Hl).
  { intros i Hin. destruct (ru_req _ _ _ _ _ _ _ Hru i (Hsel i Hin)) as (r&_&_&_&Hr&_). by eexists. }
  unfold check_decode_mem, new_tokens_required_next_decode. rewrite Hs. res_step.
  rewrite (tm_ps _ Hm), filter_need, Hl. fold (step_need (page_size c) (reqs b) sel).
  destruct (evict_from_tree_cache_spec native_hash salt_digest Hnative c φ (step_need (page_size c) (reqs b) sel) Hi Hh Hm Hd)
    as (c'&->&Hrc). res_step. by exists c'.
Qed.

(** Releasing the request at the end of the list. *)
Lemma release_at_spec c p b i L offload num : running c φ p (reqs b) pages (i :: L) others →
  ∃ r c' p', reqs b !! i = Some r
    ∧ release_at monotonic native_hash salt_digest steps false None backup i num offload b p c
      = Ok (c', p', set_reqs (<[i := reset_req r]> (reqs b)) b, reset_req r, saved_by backup offload r)
    ∧ running c' φ p' (<[i := reset_req r]> (reqs b)) pages L others ∧ page_size c' = page_size c
    ∧ memory c' (<[i := reset_req r]> (reqs b)) pages L = memory c (reqs b) pages (i :: L).
Proof.
  intros Hru. destruct (ru_req _ _ _ _ _ _ _ Hru i ltac:(left)) as (r&j&row&x&Hr&Hj&Hrow&Hx&[n Hn]&_&Hl).
  assert (privates (page_size c) (reqs b) pages (i :: L)
    = private (page_size c) (Req.cache_protected_len (core r)) (pages i) ++ privates (page_size c) (reqs b) pages L) as Hpc.
  { unfold privates. cbn [fmap list_fmap concat]. unfold private_of at 1. by rewrite Hr. }
  destruct (release_req_spec monotonic native_hash salt_digest Hnative steps backup c φ r p j row (pages i) x n num offload)
    as (c1&c'&p'&He&Hrel&Hrc&Hrf); try done; [apply Hru|..].
  - intros Hxr. pose proof (ru_locks _ _ _ _ _ _ _ Hru x n Hn Hxr).
    pose proof (locks_on_pos (reqs b) (i :: L) i x ltac:(left) ltac:(unfold last_of; by rewrite Hr)). lia.
  - destruct (ru_private _ _ _ _ _ _ _ Hru) as [Hn1 Hr1]. rewrite Hpc, <-app_assoc in Hn1. split.
    + apply NoDup_app in Hn1 as (?&?&(?&?&?)%NoDup_app). apply NoDup_app. split_and!; [done|set_solver|done].
    + intros q Hq. apply Hr1. rewrite Hpc. set_solver.
  - intros s Hs. pose proof (ru_apart _ _ _ _ _ _ _ Hru s Hs) as Hap. rewrite Hpc in Hap. set_solver.
  - destruct (running_released c c1 φ p p' (reqs b) pages i L others r j x Hru Hr Hj Hx Hrel Hrf) as [Hru1 Hmem].
    exists r, c', p'. split; [done|]. unfold release_at. rewrite Hr. cbn [res_bind res_of_option]. rewrite He. res_step.
    split_and!; [done|by eapply running_reclaimed| |].
    + pose proof (rc_cfg _ _ _ _ Hrc) as [= _ E1 _ _ _ _]. pose proof (rs_cfg _ _ _ _ _ Hrel) as [= _ E2 _ _ _ _]. congruence.
    + rewrite <-Hmem. by eapply memory_reclaimed.
Qed.

Definition resets (rs : list BatchReq) (dropped : list nat) : list BatchReq := omap (λ i, reset_req <$> rs !! i) dropped.

(** What the loop, started on the requests [L] (in reverse), ends with: the requests at
    the front of [L] were released and the others are as they were. *)
Record retraction_of c rs L (ret ab : list BatchReq) (dropped : list nat) (t : Retraction (A := A) (X := X)) : Prop := {
  ro_run : running (rt_cache t) φ (rt_pool t) (rt_reqs t) pages (rt_kept t) others;
  ro_memory : memory (rt_cache t) (rt_reqs t) pages (rt_kept t) = memory c rs pages L;
  ro_split : L = dropped ++ rt_kept t;
  ro_same : ∀ i, i ∉ dropped → rt_reqs t !! i = rs !! i;
  ro_len : length (rt_reqs t) = length rs;
  ro_out : rt_retracted t ++ rt_abort t ≡ₚ (ret ++ ab) ++ resets rs dropped;
  ro_ps : page_size (rt_cache t) = page_size c;
}.

Lemma retraction_refl c c' p b L ret ab num : running c φ p (reqs b) pages L others → reclaimed c c' φ num →
  retraction_of c (reqs b) L ret ab [] (mkRetraction c' p (reqs b) L ret ab).
Proof.
  intros Hru Hrc. split; simpl; try done.
  - by eapply running_reclaimed.
  - by eapply memory_reclaimed.
  - by rewrite app_nil_r.
  - by pose proof (rc_cfg _ _ _ _ Hrc) as [= _ ? _ _ _ _].
Qed.

(** One more request was released before. *)
Lemma retraction_cons c c1 rs rs1 i L ret ab ret1 ab1 r dropped t : rs !! i = Some r → rs1 = <[i := reset_req r]> rs →
  i ∉ L → memory c1 rs1 pages L = memory c rs pages (i :: L) → page_size c1 = page_size c →
  ret1 ++ ab1 ≡ₚ (ret ++ ab) ++ [reset_req r] →
  retraction_of c1 rs1 L ret1 ab1 dropped t → retraction_of c rs (i :: L) ret ab (i :: dropped) t.
Proof.
  intros Hr -> Hi Hm Hp Hout [? Hmem Hsplit Hsame Hlen Hro Hps]. split; try done; try congruence.
  - by rewrite Hsplit.
  - intros k Hk. apply not_elem_of_cons in Hk as [Hne Hk]. rewrite Hsame by done. by apply list_lookup_insert_ne.
  - by rewrite Hlen, length_insert.
  - rewrite Hro, Hout. unfold resets. cbn [omap list_omap]. rewrite Hr. cbn [fmap option_fmap option_map].
    rewrite <-app_assoc. cbn [app]. do 2 f_equiv.
    erewrite omap_same; [done|]. intros k Hk. simpl. rewrite list_lookup_insert_ne; [done|]. intros ->. apply Hi.
    rewrite Hsplit. set_solver.
Qed.

(** Without a backup no request is aborted, and the loop stops when the rest fits or
    only one request is left. *)
Definition loop_done (first : bool) L (ab : list BatchReq) (dropped : list nat) (t : Retraction (A := A) (X := X)) : Prop :=
  rt_kept t ≠ [] ∧ (backup = None → rt_abort t = ab)
  ∧ (length (rt_kept t) = 1 ∨ step_need (page_size (rt_cache t)) (rt_reqs t) (rt_kept t) ≤ pool_available (allocator (rt_cache t)))
  ∧ (first = true → 1 < length L → dropped ≠ []).

Lemma retract_loop_spec L : ∀ first ret ab b p c, running c φ p (reqs b) pages L others → L ≠ [] →
  ∃ dropped t, retract_loop monotonic native_hash salt_digest steps false None backup first L ret ab b p c = Ok t
    ∧ retraction_of c (reqs b) L ret ab dropped t ∧ loop_done first L ab dropped t.
Proof.
  induction L as [|i L IH]; intros first ret ab b p c Hru Hne; [done|]. cbn [retract_loop].
  assert (∃ c1 enough num, (if first then Ok (c, false) else check_decode_mem native_hash salt_digest None (Some (reverse (i :: L))) b c)
    = Ok (c1, enough) ∧ reclaimed c c1 φ num
    ∧ (enough = true → first = false ∧ step_need (page_size c1) (reqs b) (i :: L) ≤ pool_available (allocator c1)))
    as (c1&enough&num&->&Hrc&Hen).
  { destruct first.
    - pose proof (ru_ready _ _ _ _ _ _ _ Hru) as [Hi Hh Hm _]. exists c, false, 0. split_and!; [done|apply reclaimed_refl; done || lia|done].
    - destruct (check_decode_mem_spec c p b (i :: L) (reverse (i :: L)) Hru (λ k, proj1 (elem_of_reverse k _))) as (c1&->&Hrc).
      eexists c1, _, _. split_and!; [done|exact Hrc|]. intros Hle%Nat.leb_le. split; [done|].
      pose proof (rc_cfg _ _ _ _ Hrc) as [= _ -> _ _ _ _]. by rewrite step_need_reverse in Hle. }
  res_step. pose proof (running_reclaimed _ _ _ _ _ _ _ _ _ Hru Hrc) as Hru1.
  pose proof (retraction_refl c c1 p b (i :: L) ret ab num Hru Hrc) as Hrefl.
  destruct enough.
  { destruct (Hen eq_refl) as [-> Hfit]. exists [], (mkRetraction c1 p (reqs b) (i :: L) ret ab). split_and!; [done..|]. split_and!; simpl; auto. }
  destruct L as [|k L].
  { exists [], (mkRetraction c1 p (reqs b) [i] ret ab). split_and!; [done..|]. split_and!; simpl; auto. lia. }
  destruct (release_at_spec c1 p b i (k :: L) true (length (k :: L)) Hru1)
    as (r&c2&p2&Hr&->&Hru2&Hps&Hmem). res_step.
  pose proof (ru_nodup _ _ _ _ _ _ _ Hru) as [Hi _]%NoDup_cons.
  assert (page_size c2 = page_size c) as Hpc by (pose proof (rc_cfg _ _ _ _ Hrc) as [= _ E _ _ _ _]; congruence).
  assert (memory c2 (<[i := reset_req r]> (reqs b)) pages (k :: L) = memory c (reqs b) pages (i :: k :: L)) as Hmc
    by (rewrite Hmem; by eapply memory_reclaimed).
  destruct (saved_by backup true r) eqn:Hsv.
  - destruct (IH false (ret ++ [reset_req r]) ab (set_reqs (<[i := reset_req r]> (reqs b)) b) p2 c2 Hru2 ltac:(done)) as (dr&t&He&Hro&Hdn).
    exists (i :: dr), t. split_and!; [done| |].
    + eapply retraction_cons; [exact Hr|reflexivity|exact Hi|exact Hmc|exact Hpc| |exact Hro].
      rewrite <-!app_assoc. f_equiv. apply Permutation_app_comm.
    + by destruct Hdn as (?&?&?&_); split_and!.
  - destruct (IH false ret (ab ++ [reset_req r]) (set_reqs (<[i := reset_req r]> (reqs b)) b) p2 c2 Hru2 ltac:(done)) as (dr&t&He&Hro&Hdn).
    exists (i :: dr), t. split_and!; [done| |].
    + eapply retraction_cons; [exact Hr|reflexivity|exact Hi|exact Hmc|exact Hpc| |exact Hro]. by rewrite app_assoc.
    + destruct Hdn as (?&Hab&?&_); split_and!; try done. intros E. unfold saved_by in Hsv. by rewrite E in Hsv.
Qed.

(** ** The last request *)

Lemma retraction_reclaim c rs L ret ab dropped t c' num : retraction_of c rs L ret ab dropped t →
  reclaimed (rt_cache t) c' φ num →
  retraction_of c rs L ret ab dropped (mkRetraction c' (rt_pool t) (rt_reqs t) (rt_kept t) (rt_retracted t) (rt_abort t)).
Proof.
  intros [Hru Hmem Hsp Hsame Hlen Hout Hps] Hrc. split; simpl; try done.
  - by eapply running_reclaimed.
  - rewrite <-Hmem. by eapply memory_reclaimed.
  - by pose proof (rc_cfg _ _ _ _ Hrc) as [= _ -> _ _ _ _].
Qed.

Lemma resets_app rs l1 l2 : resets rs (l1 ++ l2) = resets rs l1 ++ resets rs l2.
Proof. apply omap_app. Qed.

(** What [retract_decode] keeps fits, or nothing is kept. *)
Definition kept_fits (ab : list BatchReq) (t : Retraction (A := A) (X := X)) : Prop :=
  (rt_kept t = [] ∨ step_need (page_size (rt_cache t)) (rt_reqs t) (rt_kept t) ≤ pool_available (allocator (rt_cache t)))
  ∧ (backup = None → rt_kept t ≠ [] → rt_abort t = ab).

Lemma abort_last_spec first c b L ret ab dropped t : NoDup L → retraction_of c (reqs b) L ret ab dropped t →
  loop_done first L ab dropped t →
  ∃ dropped' t', abort_last monotonic native_hash salt_digest steps false None backup t b = Ok t'
    ∧ retraction_of c (reqs b) L ret ab dropped' t' ∧ kept_fits ab t' ∧ (dropped' = [] → dropped = []).
Proof.
  intros HL Hro (Hne&Hab&Hfit&_). unfold abort_last. destruct (Nat.leb_spec (length (rt_kept t)) 1) as [Hle|Hgt].
  2:{ exists dropped, t. split_and!; try done. split; [|by auto]. destruct Hfit; [lia|by right]. }
  destruct (rt_kept t) as [|i [|k l]] eqn:Hk; [done| |simpl in Hle; lia].
  pose proof Hro as [Hru Hmem Hsp Hsame Hlen Hout Hps]. rewrite Hk in Hru, Hmem, Hsp.
  destruct (check_decode_mem_spec (rt_cache t) (rt_pool t) (set_reqs (rt_reqs t) b) [i] (reverse [i]) Hru) as (c1&->&Hrc).
  { intros k Hin. by apply elem_of_reverse in Hin. }
  res_step. rewrite step_need_reverse. cbn [set_reqs reqs].
  pose proof (retraction_reclaim _ _ _ _ _ _ _ _ _ Hro Hrc) as Hro1. rewrite Hk in Hro1.
  pose proof (rc_cfg _ _ _ _ Hrc) as [= _ Hp1 _ _ _ _].
  destruct (Nat.leb_spec (step_need (page_size (rt_cache t)) (rt_reqs t) [i]) (pool_available (allocator c1))) as [Hen|_].
  { eexists dropped, _. split_and!; [done|exact Hro1| |done]. split; simpl; [right; by rewrite Hp1|by auto]. }
  destruct (release_at_spec c1 (rt_pool t) (set_reqs (rt_reqs t) b) i [] false 0 (ro_run _ _ _ _ _ _ _ Hro1))
    as (r&c2&p2&Hr&->&Hru2&Hps2&Hmem2). cbn [set_reqs reqs] in *. res_step.
  rewrite Hsp in HL. apply NoDup_app in HL as (_&Hdis&_). assert (i ∉ dropped) as Hi by (intros Hi; by apply (Hdis i Hi); left).
  eexists (dropped ++ [i]), _. split_and!; [done| |split; [by left|done]|by destruct dropped].
  split; cbn [rt_cache rt_pool rt_reqs rt_kept rt_retracted rt_abort set_reqs reqs]; try done; try congruence.
  - rewrite Hmem2, <-Hmem. by eapply memory_reclaimed.
  - by rewrite Hsp, app_nil_r.
  - intros k Hin. apply not_elem_of_app in Hin as [Hin Hne']. rewrite list_lookup_insert_ne by set_solver. by apply Hsame.
  - by rewrite length_insert.
  - rewrite app_assoc, Hout, resets_app, app_assoc. f_equiv. unfold resets. cbn [omap list_omap].
    rewrite Hsame in Hr by done. by rewrite Hr.
Qed.

(** ** The whole step *)

Lemma running_perm c p rs L L' : L ≡ₚ L' → running c φ p rs pages L others → running c φ p rs pages L' others.
Proof.
  intros Hp [Hr Hnd Hreq Hpriv Hap Hlk Hwf Htab].
  assert (privates (page_size c) rs pages L ≡ₚ privates (page_size c) rs pages L') as Hpp.
  { apply concat_perm. by rewrite Hp. }
  split; [done|by rewrite <-Hp|by intros i Hi; apply Hreq; rewrite Hp| | | | |done].
  - destruct Hpriv as [Hn Hrg]. split; [by rewrite <-Hpp|]. intros q. rewrite <-Hpp. apply Hrg.
  - intros s. rewrite <-Hpp. apply Hap.
  - intros x n Hn Hx. unfold locks_on in *. rewrite <-Hp. by apply Hlk.
  - by rewrite <-Hp.
Qed.
End Loop.
