(* ===== verification/RetractDecode.v ===== *)
(** * The decode step under memory pressure

    [retract_decode] as a whole, and its composition with the check before it and the
    allocation after it. *)

From stdpp Require Import base tactics numbers list gmap strings sorting.
From Stdlib Require Import ZArith Lia ZifyNat.
From S2P Require Import Prelude RadixKey TreeNode KvEvents EventQueue RadixCache RadixInv RadixPages RadixAcct.
From S2P Require Import RadixEvents RadixMatch RadixSpec RadixInsert RadixLock RadixEvict RadixReq RadixContents.
From S2P Require Import Allocator AllocFree AllocCorrect AllocKernel AllocExtend PoolAlloc PySort Requests ReqPool.
From S2P Require Import BatchAlloc BatchWrite BatchMem BatchTake BatchPrefill BatchDecode Retract ReleaseCorrect RetractCorrect.

Local Open Scope nat_scope.

(** ** The order of retraction *)

Lemma tuple_le_total a b : tuple_le a b = false → tuple_le b a = true.
Proof.
  revert b. induction a as [|x a IH]; intros [|y b]; simpl; try done.
  destruct (Z.ltb_spec x y), (Z.ltb_spec y x); try done; try lia. apply IH.
Qed.

Lemma tuple_le_trans a b c : tuple_le a b = true → tuple_le b c = true → tuple_le a c = true.
Proof.
  revert b c. induction a as [|x a IH]; intros [|y b] [|z c]; simpl; try done.
  destruct (Z.ltb_spec x y), (Z.ltb_spec y x); try done; try lia;
    destruct (Z.ltb_spec y z), (Z.ltb_spec z y); try done; try lia;
    destruct (Z.ltb_spec x z), (Z.ltb_spec z x); try done; try lia. apply IH.
Qed.

Definition keep_key (by_priority low_first : bool) (rs : list BatchReq) (i : nat) : list Z :=
  match rs !! i with Some r => order_key by_priority low_first r | None => [] end.

Section Order.
Context (by_priority low_first : bool) (rs : list BatchReq).

Lemma order_perm : get_decode_retraction_order by_priority low_first rs ≡ₚ seq 0 (length rs).
Proof. apply sort_by_perm. Qed.

(** Whoever comes first in the order is preferred. *)
Lemma order_prefers kept dropped i j : get_decode_retraction_order by_priority low_first rs = kept ++ dropped →
  i ∈ kept → j ∈ dropped → tuple_le (keep_key by_priority low_first rs j) (keep_key by_priority low_first rs i) = true.
Proof.
  intros Ho Hi Hj.
  assert (StronglySorted (λ i j, tuple_le (keep_key by_priority low_first rs j) (keep_key by_priority low_first rs i) = true)
    (kept ++ dropped)) as Hs.
  { rewrite <-Ho. apply sort_by_sorted; intros *; [apply tuple_le_total|]. intros H1 H2. by eapply tuple_le_trans. }
  clear Ho. induction kept as [|k kept IH]; [by apply not_elem_of_nil in Hi|].
  cbn [app] in Hs. apply StronglySorted_inv in Hs as [Hs Hall].
  apply elem_of_cons in Hi as [->|Hi]; [|by apply IH].
  apply (proj1 (Forall_forall _ _) Hall). set_solver.
Qed.
End Order.

(** ** Keeping a part of the batch *)

Lemma positions (l : list nat) : (λ k, l !!! k) <$> seq 0 (length l) = l.
Proof.
  apply list_eq. intros j. rewrite list_lookup_fmap. destruct (decide (j < length l)) as [Hj|Hj].
  - rewrite lookup_seq_lt by done. simpl. symmetry. by apply list_lookup_lookup_total_lt.
  - rewrite lookup_seq_ge by lia. symmetry. apply lookup_ge_None. lia.
Qed.

Lemma length_filter_fmap (P : nat → Prop) `{∀ x, Decision (P x)} (f : nat → nat) (l : list nat) :
  length (filter P (f <$> l)) = length (filter (λ k, P (f k)) l).
Proof.
  induction l as [|x l IH]; [done|]. cbn [fmap list_fmap]. rewrite !filter_cons. destruct (decide (P (f x))); simpl; by rewrite IH.
Qed.

Lemma omap_of_fmap (f : nat → nat) (g : nat → option nat) (l : list nat) : omap g (f <$> l) = omap (λ k, g (f k)) l.
Proof. induction l as [|x l IH]; [done|]. cbn [fmap list_fmap omap list_omap]. by destruct (g (f x)); rewrite <-IH. Qed.

Lemma gather_lookup {B} (l : list B) idx k i : (∀ j, j ∈ idx → is_Some (l !! j)) → idx !! k = Some i →
  gather l idx !! k = l !! i.
Proof.
  revert k. induction idx as [|j idx IH]; intros k Hs Hk; [done|]. unfold gather. cbn [omap list_omap].
  destruct (Hs j ltac:(left)) as [x Hx]. rewrite Hx. destruct k as [|k]; simpl in *; [congruence|].
  apply IH; [|done]. intros m Hm. apply Hs. by right.
Qed.

Lemma length_gather {B} (l : list B) idx : (∀ j, j ∈ idx → is_Some (l !! j)) → length (gather l idx) = length idx.
Proof.
  induction idx as [|j idx IH]; intros Hs; [done|]. unfold gather. cbn [omap list_omap].
  destruct (Hs j ltac:(left)) as [x Hx]. rewrite Hx. simpl. f_equal. apply IH. intros m Hm. apply Hs. by right.
Qed.

Lemma gather_same {B} (l l' : list B) idx : (∀ j, j ∈ idx → l' !! j = l !! j) → gather l' idx = gather l idx.
Proof. intros Hs. apply omap_same. done. Qed.

Lemma gather_one {B} (l : list B) : length l = 1 → gather l [0] = l.
Proof. destruct l as [|x [|]]; done. Qed.

Lemma gather_fmap {B C} (f : B → C) (l : list B) idx : gather (f <$> l) idx = f <$> gather l idx.
Proof.
  induction idx as [|i idx IH]; [done|]. unfold gather in *. cbn [omap list_omap]. rewrite list_lookup_fmap.
  destruct (l !! i); simpl; [by f_equal|done].
Qed.

Lemma gather_all {B} (l : list B) : gather l (seq 0 (length l)) = l.
Proof.
  assert (∀ j, j ∈ seq 0 (length l) → is_Some (l !! j)) as Hs.
  { intros j [_ Hj]%elem_of_seq. by apply lookup_lt_is_Some_2. }
  apply list_eq. intros k. destruct (decide (k < length l)) as [Hk|Hk].
  - rewrite (gather_lookup l _ k k); [done|done|]. by apply lookup_seq_lt.
  - rewrite (lookup_ge_None_2 l) by lia. apply lookup_ge_None_2. rewrite length_gather, length_seq by done. lia.
Qed.

Lemma rows_row_of rs i : Forall (λ r, Req.req_pool_idx (core r) ≠ None) rs → rows_of (core <$> rs) !! i = row_of rs i.
Proof.
  intros Hall. unfold row_of. destruct (rs !! i) as [r|] eqn:Hi.
  - simpl. apply rows_of_lookup; [by apply Forall_fmap|]. by rewrite list_lookup_fmap, Hi.
  - apply lookup_ge_None. apply lookup_ge_None in Hi. rewrite length_rows_of; [by rewrite length_fmap|by apply Forall_fmap].
Qed.

Lemma gather_rows rs idx : Forall (λ r, Req.req_pool_idx (core r) ≠ None) rs →
  gather (rows_of (core <$> rs)) idx = rows_of (core <$> gather rs idx).
Proof.
  intros Hall. induction idx as [|i idx IH]; [done|]. unfold gather in *. cbn [omap list_omap].
  rewrite (rows_row_of rs i Hall). unfold row_of.
  destruct (rs !! i) as [r|] eqn:Hi; simpl; [|exact IH]. pose proof (proj1 (Forall_lookup _ _) Hall i r Hi) as Hr. simpl in Hr.
  unfold rows_of in *. cbn [fmap list_fmap omap list_omap]. destruct (Req.req_pool_idx (core r)); [|done]. f_equal. exact IH.
Qed.

(** [filter_keep] with indices of the batch. *)
Lemma filter_keep_spec keep b : keep ≠ [] → (length keep = length (reqs b) → length (reqs b) = 1 ∧ keep = [0]) →
  length (seq_lens b) = length (reqs b) → length (req_pool_indices b) = length (reqs b) → encoder_lens b = None →
  reqs (filter_keep keep b) = gather (reqs b) keep ∧ seq_lens (filter_keep keep b) = gather (seq_lens b) keep
  ∧ req_pool_indices (filter_keep keep b) = gather (req_pool_indices b) keep ∧ encoder_lens (filter_keep keep b) = None.
Proof.
  intros Hne Hall Hs Hp He. unfold filter_keep. destruct (Nat.eqb_spec (length keep) 0) as [Hz|_].
  { by apply length_zero_iff_nil in Hz. }
  destruct (Nat.eqb_spec (length keep) (length (reqs b))) as [Heq|_]; simpl; [|by rewrite He].
  destruct (Hall Heq) as [H1 ->]. rewrite !gather_one by lia. done.
Qed.

Lemma select_gather rs idx : (∀ i, i ∈ idx → is_Some (rs !! i)) → select rs idx = Ok (gather rs idx).
Proof.
  induction idx as [|i idx IH]; intros Hs; [done|]. cbn [select]. destruct (Hs i ltac:(left)) as [r Hr]. rewrite Hr.
  res_step. rewrite IH by (intros; apply Hs; by right). res_step. unfold gather. cbn [omap list_omap]. by rewrite Hr.
Qed.

Lemma select_all rs : select rs (seq 0 (length rs)) = Ok rs.
Proof.
  rewrite select_gather, gather_all; [done|]. intros i [_ Hi]%elem_of_seq. by apply lookup_lt_is_Some_2.
Qed.

Section Batch.
Context {A : Type} `{PoolLaws A} {X : Type} `{!AuxCache X}.
Implicit Types (c : RadixCache A) (p : ReqToTokenPool X) (b : ScheduleBatch) (L : list nat).

(** A running batch whose arrays agree with its requests. *)
Record batch_running c φ p b (pages : nat → list Z) (others : list nat) : Prop := {
  br_run : running c φ p (reqs b) pages (seq 0 (length (reqs b))) others;
  br_seq : seq_lens b = (λ r, Req.kv_committed_len (core r)) <$> reqs b;
  br_idx : req_pool_indices b = rows_of (core <$> reqs b);
  br_enc : encoder_lens b = None;
}.


Section Reindex.
Context (rs : list BatchReq) (pages : nat → list Z) (kept : list nat) (Hkept : ∀ i, i ∈ kept → is_Some (rs !! i)).
Let rs2 := gather rs kept.
Let pages2 (k : nat) := pages (kept !!! k).

Lemma reindex_lookup k i : kept !! k = Some i → rs2 !! k = rs !! i.
Proof. by apply gather_lookup. Qed.

Lemma reindex_at k : k ∈ seq 0 (length kept) → rs2 !! k = rs !! (kept !!! k).
Proof. intros [_ Hk]%elem_of_seq. apply reindex_lookup. by apply list_lookup_lookup_total_lt. Qed.

Lemma reindex_privates ps : privates ps rs2 pages2 (seq 0 (length kept)) = privates ps rs pages kept.
Proof.
  unfold privates. f_equal. rewrite <-(positions kept) at 2. rewrite <-list_fmap_compose. apply list_fmap_ext.
  intros ? k Hk%list_elem_of_lookup_2. unfold private_of. simpl. by rewrite reindex_at.
Qed.

Lemma reindex_locks x : locks_on rs2 (seq 0 (length kept)) x = locks_on rs kept x.
Proof.
  unfold locks_on. rewrite <-(positions kept) at 2. rewrite length_filter_fmap. f_equal. apply filter_same.
  intros k Hk. unfold last_of. simpl. by rewrite reindex_at.
Qed.

Lemma reindex_rows : omap (row_of rs2) (seq 0 (length kept)) = omap (row_of rs) kept.
Proof.
  rewrite <-(positions kept) at 2. rewrite omap_of_fmap. apply omap_same. intros k Hk. unfold row_of. simpl.
  by rewrite reindex_at.
Qed.

Lemma running_reindex c φ p others : running c φ p rs pages kept others →
  running c φ p rs2 pages2 (seq 0 (length kept)) others.
Proof.
  intros [Hr Hnd Hreq Hpriv Hap Hlk Hwf Htab]. split; rewrite ?reindex_privates, ?reindex_rows; try done.
  - apply NoDup_seq.
  - intros k Hk. rewrite reindex_at by done. apply Hreq. apply list_elem_of_lookup_total_2. by apply elem_of_seq in Hk as [_ ?].
  - intros x n Hn Hx. rewrite reindex_locks. by apply Hlk.
Qed.

Lemma reindex_need ps : step_need ps rs2 (seq 0 (length kept)) = step_need ps rs kept.
Proof.
  unfold step_need. do 2 f_equal. rewrite <-(positions kept) at 2. rewrite <-list_fmap_compose. apply list_fmap_ext.
  intros ? k Hk%list_elem_of_lookup_2. unfold committed. simpl. by rewrite reindex_at.
Qed.

Lemma memory_reindex c : memory c rs2 pages2 (seq 0 (length kept)) = memory c rs pages kept.
Proof. unfold memory. by rewrite reindex_privates. Qed.
End Reindex.

Lemma batch_rows c φ p b pages others : batch_running c φ p b pages others →
  Forall (λ r, Req.req_pool_idx (core r) ≠ None) (reqs b).
Proof.
  intros [Hru _ _ _]. apply Forall_lookup. intros i r Hi.
  destruct (ru_req _ _ _ _ _ _ _ Hru i) as (r'&j&?&?&Hr'&Hj&_); [apply elem_of_seq; pose proof (lookup_lt_Some _ _ _ Hi); lia|].
  assert (r' = r) as -> by congruence. by rewrite Hj.
Qed.

(** The batch that is left. *)
Lemma kept_batch c c' φ p p' b pages others rs' kept : batch_running c φ p b pages others →
  running c' φ p' rs' pages kept others → (∀ i, i ∈ kept → rs' !! i = reqs b !! i) → length rs' = length (reqs b) →
  kept ≠ [] → (length kept = length (reqs b) → length (reqs b) = 1 ∧ kept = [0]) →
  let b' := filter_keep kept (set_reqs rs' b) in
  reqs b' = gather (reqs b) kept ∧ batch_running c' φ p' b' (λ k, pages (kept !!! k)) others
  ∧ memory c' (reqs b') (λ k, pages (kept !!! k)) (seq 0 (length kept)) = memory c' rs' pages kept.
Proof.
  intros Hb Hru Hsame Hlen Hne Hall b'. pose proof Hb as [_ Hseq Hidx Henc].
  assert (∀ i, i ∈ kept → is_Some (rs' !! i)) as Hsome.
  { intros i Hi. destruct (ru_req _ _ _ _ _ _ _ Hru i Hi) as (r&_&_&_&Hr&_). by eexists. }
  pose proof (batch_rows _ _ _ _ _ _ Hb) as Hrows.
  destruct (filter_keep_spec kept (set_reqs rs' b)) as (E1&E2&E3&E4); simpl; rewrite ?Hlen; try done.
  { by rewrite Hseq, length_fmap. }
  { rewrite Hidx, length_rows_of by (by apply Forall_fmap). by rewrite length_fmap. }
  fold b' in E1, E2, E3, E4. simpl in E1, E2, E3.
  assert (gather rs' kept = gather (reqs b) kept) as Hg by by apply gather_same.
  split_and!; [congruence| |by rewrite E1, memory_reindex].
  split; [|rewrite E2, Hseq, gather_fmap; congruence|rewrite E3, Hidx, gather_rows by done; congruence|done].
  rewrite E1. rewrite length_gather by done. by apply running_reindex.
Qed.

Lemma memory_perm c rs pages L L' : L ≡ₚ L' → memory c rs pages L = memory c rs pages L'.
Proof.
  intros Hp. unfold memory, privates. by rewrite (concat_perm (private_of _ rs pages <$> L) (private_of _ rs pages <$> L')) by by rewrite Hp.
Qed.


(** ** The next decode step *)

Lemma running_decode_ready c φ p b pages others : batch_running c φ p b pages others →
  decode_ready (page_size c) p pages b others.
Proof.
  intros Hb. pose proof (batch_rows _ _ _ _ _ _ Hb) as Hrows. destruct Hb as [Hru Hseq Hidx Henc].
  assert (∀ i r, reqs b !! i = Some r → seq_lens b !!! i = Req.kv_committed_len (core r)
    ∧ ∃ j row, Req.req_pool_idx (core r) = Some j ∧ req_to_token p !! j = Some row
      ∧ 0 < Req.kv_committed_len (core r) < max_context_len p ∧ live_req c row (pages i) r) as Hreq.
  { intros i r Hi. split; [rewrite Hseq; apply list_lookup_total_correct; by rewrite list_lookup_fmap, Hi|].
    destruct (ru_req _ _ _ _ _ _ _ Hru i) as (r'&j&row&_&Hr'&?&?&_&_&?&?);
      [apply elem_of_seq; pose proof (lookup_lt_Some _ _ _ Hi); lia|]. simplify_eq. by exists j, row. }
  assert (length (seq_lens b) = length (reqs b)) as Hlen by (by rewrite Hseq, length_fmap).
  assert (omap (row_of (reqs b)) (seq 0 (length (reqs b))) = rows_of (core <$> reqs b)) as Hom.
  { rewrite <-(gather_all (reqs b)) at 3. rewrite <-gather_rows by done. apply omap_same. intros i _. by rewrite rows_row_of. }
  pose proof (ru_pool _ _ _ _ _ _ _ Hru) as Hwf. rewrite Hom in Hwf.
  destruct (pool_wf_NoDup _ _ Hwf) as [Hnd _].
  split; try done.
  - intros i r Hi. destruct (Hreq i r Hi) as (->&j&row&Hj&Hrow&_&Hl). exists j, row. split_and!; [done..|apply Hl|apply Hl].
  - intros i Hi. rewrite Hlen in Hi. destruct (lookup_lt_is_Some_2 (reqs b) i Hi) as [r Hr].
    destruct (Hreq i r Hr) as (->&j&row&_&_&_&Hl). apply Hl.
  - apply Forall_lookup. intros i s Hi. rewrite Hseq, list_lookup_fmap in Hi. destruct (reqs b !! i) as [r|] eqn:Hr; [|done].
    injection Hi as <-. destruct (Hreq i r Hr) as (_&?&?&_&_&?&_). done.
  - split; [done|by apply Forall_fmap|by apply NoDup_app in Hnd as (_&_&?)|].
    apply Forall_forall. intros k Hk. destruct Hwf as [Hr _ ->].
    assert (k ∈ seq 1 (ReqPool.size p)) as Hin%elem_of_seq; [|lia]. rewrite <-Hr. set_solver.
  - apply Hru.
Qed.

(** The auxiliary cache never runs out. *)
Definition aux_total : Prop := ∀ (x : X) idx lens, ∃ x', aux_alloc_to_lengths idx lens x = Ok x'.


Lemma running_batch_reclaimed c c' φ p b pages others num : batch_running c φ p b pages others →
  reclaimed c c' φ num → batch_running c' φ p b pages others.
Proof. intros [Hru Hs Hi He] Hrc. split; [by eapply running_reclaimed|done..]. Qed.
End Batch.

Section Decode.
Context {A : Type} `{PoolLaws A} {X : Type} `{!AuxCache X}.
Context (native_hash : RadixKey → option string → nat → list string).
Context (salt_digest : string → string).
Context (Hnative : ∀ k prior ps, 0 < ps → klen k mod ps = 0 →
  length (native_hash k prior ps) = klen k / ps ∧ Forall good_hash (native_hash k prior ps)).
Implicit Types (c : RadixCache A) (p : ReqToTokenPool X) (b : ScheduleBatch) (L : list nat).

Lemma decode_allocates dcp c φ p b pages others : aux_total → batch_running c φ p b pages others →
  if (total_free c <? Z.of_nat (step_need (page_size c) (reqs b) (seq 0 (length (reqs b)))))%Z
  then alloc_for_decode native_hash salt_digest dcp 1 b c p = Raise RuntimeError
  else ∃ fresh c' p' b' out, alloc_for_decode native_hash salt_digest dcp 1 b c p = Ok (c', p', b', Ok out)
      ∧ decoded c c' φ p p' pages fresh b b' others.
Proof.
  intros Ha Hb. pose proof (running_decode_ready _ _ _ _ _ _ Hb) as Hd.
  pose proof (alloc_for_decode_spec native_hash salt_digest Hnative dcp b c φ p pages others) as Hs.
  assert (seq_lens b = committed (reqs b) <$> seq 0 (length (reqs b))) as Hseq.
  { rewrite (br_seq _ _ _ _ _ _ Hb). apply list_eq. intros i. rewrite !list_lookup_fmap.
    destruct (decide (i < length (reqs b))) as [Hi|Hi].
    - rewrite lookup_seq_lt by done. simpl. unfold committed. destruct (lookup_lt_is_Some_2 (reqs b) i Hi) as [r ->]. done.
    - rewrite lookup_seq_ge, lookup_ge_None_2 by lia. done. }
  unfold step_need. rewrite <-Hseq. apply Hs; [apply (br_run _ _ _ _ _ _ Hb)|intros x idx lens _; apply Ha|done].
Qed.

(** C9: [check_decode_mem] decides exactly whether the next decode step fits: it returns,
    only moves evictable pages to the free list, and when it says yes [alloc_for_decode]
    gives every request of the batch its next slot, in a new page exactly when the
    request's length is a multiple of the page size; when it says no [alloc_for_decode]
    raises the out-of-memory error. *)
Theorem check_decode_mem_exact dcp c φ p b pages others : aux_total → batch_running c φ p b pages others →
  ∃ c' enough, check_decode_mem native_hash salt_digest None None b c = Ok (c', enough)
    ∧ batch_running c' φ p b pages others
    ∧ memory c' (reqs b) pages (seq 0 (length (reqs b))) = memory c (reqs b) pages (seq 0 (length (reqs b)))
    ∧ if (enough : bool)
      then ∃ fresh c'' p' b' out, alloc_for_decode native_hash salt_digest dcp 1 b c' p = Ok (c'', p', b', Ok out)
        ∧ decoded c' c'' φ p p' pages fresh b b' others
      else alloc_for_decode native_hash salt_digest dcp 1 b c' p = Raise RuntimeError.
Proof.
  intros Ha Hb. pose proof (br_run _ _ _ _ _ _ Hb) as Hru. pose proof (ru_ready _ _ _ _ _ _ _ Hru) as [Hi Hh Hm Hd].
  set (need := step_need (page_size c) (reqs b) (seq 0 (length (reqs b)))).
  destruct (check_decode_mem_spec native_hash salt_digest Hnative pages others φ c p b _ (seq 0 (length (reqs b))) Hru) as (c'&Hc&Hrc).
  { done. }
  assert (check_decode_mem native_hash salt_digest None None b c
    = check_decode_mem native_hash salt_digest None (Some (seq 0 (length (reqs b)))) b c) as Heq.
  { unfold check_decode_mem, new_tokens_required_next_decode. by rewrite select_all. }
  rewrite Heq, Hc. pose proof (running_batch_reclaimed _ _ _ _ _ _ _ _ Hb Hrc) as Hb'.
  exists c', (need <=? pool_available (allocator c')). split_and!; [done|done|by eapply memory_reclaimed|].
  pose proof (decode_allocates dcp c' φ p b pages others Ha Hb') as Hdec.
  pose proof (rc_cfg _ _ _ _ Hrc) as [= _ Hp _ _ _ _]. rewrite Hp in Hdec. fold need in Hdec.
  pose proof (evictable_nonneg c' φ (rc_inv _ _ _ _ Hrc)) as Hev. pose proof (rc_enough _ _ _ _ Hrc) as Hen. fold need in Hen.
  unfold total_free in Hdec. destruct (Z.ltb_spec (Z.of_nat (pool_available (allocator c')) + evictable_size c') (Z.of_nat need)),
    (Nat.leb_spec need (pool_available (allocator c'))); try done; lia.
Qed.
End Decode.

(** ** The whole step *)

Section Step.
Context {A : Type} `{PoolLaws A} {X : Type} `{!AuxCache X}.
Context (monotonic : nat → Z).
Context (native_hash : RadixKey → option string → nat → list string).
Context (salt_digest : string → string).
Context (Hnative : ∀ k prior ps, 0 < ps → klen k mod ps = 0 →
  length (native_hash k prior ps) = klen k / ps ∧ Forall good_hash (native_hash k prior ps)).
Context (steps : nat) (by_priority low_first : bool) (backup : option (BatchReq → bool)).
Implicit Types (c : RadixCache A) (p : ReqToTokenPool X) (b : ScheduleBatch) (L : list nat).

(** What [retract_decode] leaves behind. *)
Record retracted c φ c' p' b b' (pages : nat → list Z) (others kept dropped : list nat) (ret ab : list BatchReq) : Prop := {
  re_order : get_decode_retraction_order by_priority low_first (reqs b) = kept ++ dropped;
  re_drops : 1 < length (reqs b) → dropped ≠ [];
  re_out : ret ++ ab ≡ₚ resets (reqs b) dropped;
  re_reqs : reqs b' = gather (reqs b) kept;
  re_ready : ready c' φ;
  re_run : kept ≠ [] → batch_running c' φ p' b' (λ k, pages (kept !!! k)) others;
  re_memory : memory c' (reqs b') (λ k, pages (kept !!! k)) (seq 0 (length kept))
    = memory c (reqs b) pages (seq 0 (length (reqs b)));
  re_ps : page_size c' = page_size c;
  re_fits : kept = [] ∨ step_need (page_size c) (reqs b) kept ≤ pool_available (allocator c');
  re_abort : backup = None → kept ≠ [] → ab = [];
}.

(** From the end of the loop to the end of the step. *)
Lemma retraction_final c φ p b pages others order dr t :
  batch_running c φ p b pages others → order = get_decode_retraction_order by_priority low_first (reqs b) →
  retraction_of pages others φ c (reqs b) (reverse order) [] [] dr t → kept_fits backup [] t →
  (1 < length (reqs b) → dr ≠ []) →
  retracted c φ (rt_cache t) (rt_pool t) b (filter_keep (reverse (rt_kept t)) (set_reqs (rt_reqs t) b)) pages others
    (reverse (rt_kept t)) (reverse dr) (rt_retracted t) (rt_abort t).
Proof.
  intros Hb Horder [Hru Hmem Hsp Hsame Hlen Hout Hps] [Hfit Hab] Hdr. set (kept := reverse (rt_kept t)).
  assert (order = kept ++ reverse dr) as Ho by (rewrite <-(reverse_involutive order), Hsp; apply reverse_app).
  assert (order ≡ₚ seq 0 (length (reqs b))) as Hperm by (rewrite Horder; apply order_perm).
  assert (NoDup order) as Hnd by (rewrite Hperm; apply NoDup_seq).
  assert (length kept + length dr = length (reqs b)) as Hlk.
  { apply Permutation_length in Hperm. rewrite Ho, length_app, length_reverse, length_seq in Hperm. done. }
  assert (∀ i, i ∈ kept → rt_reqs t !! i = reqs b !! i) as Hs.
  { intros i Hi. apply Hsame. intros Hd. rewrite Ho in Hnd. apply NoDup_app in Hnd as (_&Hdis&_). apply (Hdis i Hi).
    by apply elem_of_reverse. }
  assert (running (rt_cache t) φ (rt_pool t) (rt_reqs t) pages kept others) as Hruk.
  { eapply running_perm; [|exact Hru]. unfold kept. by rewrite reverse_Permutation. }
  assert (memory (rt_cache t) (rt_reqs t) pages kept = memory c (reqs b) pages (seq 0 (length (reqs b)))) as Hmk.
  { rewrite <-(memory_perm (rt_cache t) _ _ (rt_kept t) kept), Hmem by (unfold kept; by rewrite reverse_Permutation).
    apply memory_perm. by rewrite reverse_Permutation. }
  assert (rt_kept t ≠ [] → kept ≠ []) as Hkn.
  { intros Hn Hz. apply Hn. apply (f_equal reverse) in Hz. unfold kept in Hz. by rewrite reverse_involutive in Hz. }
  assert (reqs (filter_keep kept (set_reqs (rt_reqs t) b)) = gather (reqs b) kept
    ∧ (kept ≠ [] → batch_running (rt_cache t) φ (rt_pool t) (filter_keep kept (set_reqs (rt_reqs t) b)) (λ k, pages (kept !!! k)) others)
    ∧ memory (rt_cache t) (reqs (filter_keep kept (set_reqs (rt_reqs t) b))) (λ k, pages (kept !!! k)) (seq 0 (length kept))
      = memory (rt_cache t) (rt_reqs t) pages kept) as (E1&E2&E3).
  { destruct (decide (kept = [])) as [->|Hk]; [by split_and!|].
    destruct (kept_batch c (rt_cache t) φ p (rt_pool t) b pages others (rt_reqs t) kept) as (?&?&?); try done.
    intros Hl. assert (dr = []) as Hz by (apply length_zero_iff_nil; lia).
    assert (length (reqs b) = 1) as Hone by (destruct (decide (1 < length (reqs b))); [by destruct (Hdr ltac:(done))|];
      destruct kept; [done|]; simpl in Hl; lia).
    split; [done|]. rewrite Hz in Ho. cbn in Ho. rewrite app_nil_r in Ho. rewrite Ho, Hone in Hperm.
    by apply Permutation_singleton_r in Hperm. }
  split; try done.
  - by rewrite <-Ho.
  - intros Hgt Hz. apply (Hdr Hgt). apply (f_equal reverse) in Hz. by rewrite reverse_involutive in Hz.
  - rewrite Hout. cbn [app]. unfold resets. by rewrite reverse_Permutation.
  - apply Hru.
  - by rewrite E3.
  - destruct Hfit as [Hz|Hfit]; [left; unfold kept; by rewrite Hz|right]. unfold kept. rewrite step_need_reverse, <-Hps.
    rewrite <-(step_need_same _ (reqs b) (rt_reqs t)); [done|]. intros i Hi. apply Hs. unfold kept. by apply elem_of_reverse.
  - intros Hbk Hk. apply Hab; [done|]. intros Hz. apply Hk. unfold kept. by rewrite Hz.
Qed.

Lemma retract_decode_spec c φ p b pages others : batch_running c φ p b pages others → reqs b ≠ [] →
  ∃ c' p' b' ratio ret ab kept dropped,
    retract_decode monotonic native_hash salt_digest steps by_priority low_first false None backup b p c
      = Ok (c', p', b', (ret, ratio, ab))
    ∧ retracted c φ c' p' b b' pages others kept dropped ret ab
    ∧ (∀ i j, i ∈ kept → j ∈ dropped →
         tuple_le (keep_key by_priority low_first (reqs b) j) (keep_key by_priority low_first (reqs b) i) = true).
Proof.
  intros Hb Hne. pose proof (br_run _ _ _ _ _ _ Hb) as Hru0. unfold retract_decode.
  set (order := get_decode_retraction_order by_priority low_first (reqs b)).
  assert (order ≡ₚ seq 0 (length (reqs b))) as Hperm by apply order_perm.
  assert (length order = length (reqs b)) as Hol by (rewrite Hperm; apply length_seq).
  assert (running c φ p (reqs b) pages (reverse order) others) as Hru.
  { eapply running_perm; [|exact Hru0]. by rewrite reverse_Permutation. }
  destruct (retract_loop_spec monotonic native_hash salt_digest Hnative steps backup pages others φ (reverse order)
    true [] [] b p c Hru) as (dr0&t0&->&Hro0&Hdone).
  { intros Hz. apply (f_equal length) in Hz. rewrite length_reverse in Hz. by apply Hne, length_zero_iff_nil; rewrite <-Hol. }
  res_step. destruct (abort_last_spec monotonic native_hash salt_digest Hnative steps backup pages others φ true c b
    (reverse order) [] [] dr0 t0 (ru_nodup _ _ _ _ _ _ _ Hru) Hro0 Hdone) as (dr&t&->&Hro&Hfits&Himp).
  res_step. eexists _, _, _, _, _, _, (reverse (rt_kept t)), (reverse dr). split; [done|].
  assert (retracted c φ (rt_cache t) (rt_pool t) b (filter_keep (reverse (rt_kept t)) (set_reqs (rt_reqs t) b)) pages others
    (reverse (rt_kept t)) (reverse dr) (rt_retracted t) (rt_abort t)) as Hre.
  { apply (retraction_final c φ p b pages others order); try done. intros Hgt Hz. destruct Hdone as (_&_&_&Hd).
    rewrite length_reverse, Hol in Hd. by apply (Hd eq_refl Hgt), Himp. }
  split; [exact Hre|]. intros i j. apply order_prefers. apply Hre.
Qed.

End Step.
