(* ===== verification/MemCheck.v ===== *)
(** * The scheduler's memory self-checks

    [SchedulerPoolStatsObserver] and [SchedulerInvariantChecker]
    ([src/python/sglang/srt/managers/scheduler_components/pool_stats_observer.py] and
    [invariant_checker.py]): how full the pools are, whether what is free, cached and in
    use adds up to the size of the pool, and whether a page is in use and free at once.
    The checks of Mamba pools, streaming sessions and HiSparse are not modelled. *)

From stdpp Require Import base tactics numbers list gmap strings.
From Stdlib Require Import ZArith QArith Qminmax Lia ZifyNat.
From S2P Require Import Prelude RadixKey TreeNode RadixCache Allocator AllocFree PoolAlloc Requests ReqPool BatchAlloc.
From S2P Require Import Retract SwaAlloc.

Local Open Scope Z_scope.

(** ** What is observed *)

(** The counters of one pool: [available_size] of its allocator; [evictable_size],
    [protected_size] and [session_held_tokens] of the prefix cache. *)
Record Gauge := mkGauge {
  g_available : Z;
  g_evictable : Z;
  g_protected : Z;
  g_session_held : Z;
}.

(** One pool, or ([is_hybrid_swa]) a full pool and a window pool. *)
Inductive Gauges :=
  | Plain (g : Gauge)
  | HybridSwa (full swa : Gauge).

(** The memory that is observed, with the free lists of its allocators, the full pool
    first. *)
Class Monitored (S : Type) := {
  gauges : S → Gauges;
  free_lists : S → list (list Z);
  alloc_page_size : S → nat;
}.

Definition free_list (a : KvAlloc) : list Z :=
  if (length (release_pages a) =? 0)%nat then free_pages a else free_pages a ++ release_pages a.

(** The free list of an allocator, and that it is what the allocator holds. *)
Class FreeList (A : Type) := free_list_of : A → list Z.
#[export] Instance paged_free_list : FreeList KvAlloc := free_list.
#[export] Instance token_free_list : FreeList TokenAlloc := λ a, free_list (token_of a).

Class FreeListLaw (A : Type) `{!FreeList A, !PoolView A} : Prop := free_list_pages (a : A) : free_list_of a = pool_pages a.

Lemma free_list_held a : free_list a = held a.
Proof.
  unfold free_list, held. destruct (Nat.eqb_spec (length (release_pages a)) 0) as [Hz|_]; [|done].
  apply length_zero_iff_nil in Hz as ->. by rewrite app_nil_r.
Qed.
#[export] Instance paged_free_list_law : FreeListLaw KvAlloc := free_list_held.
#[export] Instance token_free_list_law : FreeListLaw TokenAlloc := λ a, free_list_held (token_of a).

#[export] Instance radix_monitored {A} `{PoolAllocator A, !FreeList A} : Monitored (RadixCache A) := {|
  gauges c := Plain (mkGauge (Z.of_nat (pool_available (allocator c))) (evictable_size c) (protected_size c) 0);
  free_lists c := [free_list_of (allocator c)];
  alloc_page_size c := pool_page_size (allocator c);
|}.

(** A hybrid allocator under a chunk cache, which neither caches nor protects anything. *)
#[export] Instance swa_monitored : Monitored SwaAlloc := {|
  gauges a := HybridSwa (mkGauge (Z.of_nat (Swa.full_available_size a)) 0 0 0)
                (mkGauge (Z.of_nat (Swa.swa_available_size a)) 0 0 0);
  free_lists a := [free_list (full_attn_allocator a); free_list (swa_attn_allocator a)];
  alloc_page_size a := SwaAlloc.page_size a;
|}.

(** [PoolStats]. *)
Record PoolStats := mkStats {
  full_num_used : Z;
  full_token_usage : Q;
  ps_full_available_size : Z;
  ps_full_evictable_size : Z;
  swa_stats : option (Z * Q * Z * Z);
}.

(** The checker: its configuration and its two counters of warnings. *)
Record Checker := mkChecker {
  ck_page_size : nat;
  full_tokens_per_layer : nat;
  swa_tokens_per_layer : nat;
  max_total_num_tokens : nat;
  dcp_enabled : bool;
  (** [SGLANG_ENABLE_STRICT_MEM_CHECK_DURING_IDLE] *)
  strict : bool;
  (** [SGLANG_CHECK_KV_PAGE_INVARIANTS] *)
  check_pages : bool;
  count_memory_leak_warnings : nat;
  count_req_pool_leak_warnings : nat;
}.

(** Python's true division of integers. *)
Definition pydiv (a : Z) (b : nat) : res Q :=
  if (b =? 0)%nat then Raise ZeroDivisionError else Ok (inject_Z a / inject_Z (Z.of_nat b))%Q.

Section Check.
Context {M : Type} `{!Monitored M} {X : Type}.
Implicit Types (k : Checker) (s : M) (p : ReqToTokenPool X) (rs : list BatchReq).

Definition get_token_info k (g : Gauge) : res PoolStats :=
  let num_used := Z.of_nat (max_total_num_tokens k) - (g_available g + g_evictable g) in
  let! token_usage := pydiv num_used (max_total_num_tokens k) in
  Ok (mkStats num_used token_usage (g_available g) (g_evictable g) None).

Definition get_swa_token_info k (full swa : Gauge) : res PoolStats :=
  let full_num_used := Z.of_nat (full_tokens_per_layer k) - (g_available full + g_evictable full) in
  let swa_num_used := Z.of_nat (swa_tokens_per_layer k) - (g_available swa + g_evictable swa) in
  let! (full_num_used, full_available_size, full_token_usage) :=
    if (full_tokens_per_layer k =? 0)%nat then Ok (0, 0, 0%Q)
    else let! u := pydiv full_num_used (full_tokens_per_layer k) in Ok (full_num_used, g_available full, u) in
  let! swa_token_usage := pydiv swa_num_used (swa_tokens_per_layer k) in
  Ok (mkStats full_num_used full_token_usage full_available_size (g_evictable full)
        (Some (swa_num_used, swa_token_usage, g_available swa, g_evictable swa))).

Definition get_pool_stats k s : res PoolStats :=
  match gauges s with
  | Plain g => get_token_info k g
  | HybridSwa full swa => get_swa_token_info k full swa
  end.

Definition get_kv_token_stats (t : PoolStats) : Z * Q :=
  match swa_stats t with
  | Some (used, usage, _, _) => (Z.max (full_num_used t) used, Qmax (full_token_usage t) usage)
  | None => (full_num_used t, full_token_usage t)
  end.

Definition get_max_pool_usage (t : PoolStats) : res Q :=
  let usage := match swa_stats t with
               | Some (_, usage, _, _) => Qmax (full_token_usage t) usage
               | None => full_token_usage t
               end in
  assert_ (Qle_bool 0 usage) ;;! Ok usage.

(** ** Leaks *)

(** [_check_pool_invariant] and the three checks below say whether there is a leak; the
    messages are not modelled. *)
Definition check_pool_invariant (available evictable protected session_held total uncached : Z) : bool :=
  negb (available + evictable + protected + session_held + uncached =? total).

Definition check_full_pool k s (t : PoolStats) (uncached : Z) : bool :=
  let check g total :=
    let dcp := dcp_enabled k && (1 <? alloc_page_size s)%nat in
    let n := Z.of_nat (alloc_page_size s) in
    let full_evictable_size := if dcp then (ps_full_evictable_size t + n - 1) / n * n else ps_full_evictable_size t in
    let leak := check_pool_invariant (ps_full_available_size t) full_evictable_size (g_protected g) (g_session_held g)
                  total uncached in
    if leak && dcp then false else leak in
  match gauges s with
  | Plain g => check g (Z.of_nat (max_total_num_tokens k))
  | HybridSwa full _ =>
      if (full_tokens_per_layer k =? 0)%nat then false else check full (Z.of_nat (full_tokens_per_layer k))
  end.

Definition check_swa_pool k s (t : PoolStats) (uncached : Z) : bool :=
  match gauges s, swa_stats t with
  | HybridSwa _ swa, Some (_, _, available, evictable) =>
      check_pool_invariant available evictable (g_protected swa) (g_session_held swa) (Z.of_nat (swa_tokens_per_layer k)) uncached
  | _, _ => false
  end.

(** ** What the batches hold *)

(** The batches that are looked at; [same] says that the running batch is the last batch. *)
Definition checked_batches (last : list BatchReq) (running : option (list BatchReq)) (same : bool) : list (list BatchReq) :=
  last :: match running with
          | Some rs => if negb same && negb (length rs =? 0)%nat then [rs] else []
          | None => []
          end.

(** The loop over the requests of the batches. *)
Fixpoint uncached_sizes (page_size : nat) (hybrid_swa : bool) rs (full swa : Z) : res (Z * Z) :=
  match rs with
  | [] => Ok (full, swa)
  | r :: rs =>
      match kv r with
      | None => uncached_sizes page_size hybrid_swa rs full swa
      | Some i =>
          let prot := Req.cache_protected_len (core r) in
          let! allocated_len :=
            if (1 <? page_size)%nat
            then assert_ (prot mod page_size =? 0)%nat ;;! Ok (ceil_align (kv_allocated_len i) page_size)
            else Ok (kv_allocated_len i) in
          uncached_sizes page_size hybrid_swa rs (full + (Z.of_nat allocated_len - Z.of_nat prot))
            (if hybrid_swa then swa + (Z.of_nat allocated_len - Z.of_nat (max prot (swa_evicted_seqlen i))) else swa)
      end
  end.

Definition get_total_uncached_sizes k s (last : list BatchReq) (running : option (list BatchReq)) (same : bool) : res (Z * Z) :=
  uncached_sizes (ck_page_size k) (match gauges s with HybridSwa _ _ => true | Plain _ => false end)
    (concat (checked_batches last running same)) 0 0.

(** ** Pages in use *)

Definition raise_error_or_warn (strict : bool) (count : nat) : res nat :=
  if strict then Raise ValueError else Ok (S count).

Definition warn_memory_leak k : res Checker :=
  let! n := raise_error_or_warn (strict k) (count_memory_leak_warnings k) in
  Ok (mkChecker (ck_page_size k) (full_tokens_per_layer k) (swa_tokens_per_layer k) (max_total_num_tokens k)
        (dcp_enabled k) (strict k) (check_pages k) n (count_req_pool_leak_warnings k)).

Definition warn_req_pool_leak k : res Checker :=
  let! n := raise_error_or_warn (strict k) (count_req_pool_leak_warnings k) in
  Ok (mkChecker (ck_page_size k) (full_tokens_per_layer k) (swa_tokens_per_layer k) (max_total_num_tokens k)
        (dcp_enabled k) (strict k) (check_pages k) (count_memory_leak_warnings k) n).

(** The rows that are in use, with their lengths. *)
Fixpoint page_owners (row_width : nat) rs : res (list (nat * nat)) :=
  match rs with
  | [] => Ok []
  | r :: rs =>
      match kv r with
      | None => page_owners row_width rs
      | Some i =>
          assert_ ((Req.kv_committed_len (core r) <=? kv_allocated_len i) && (kv_allocated_len i <=? row_width))%nat ;;!
          let! owners := page_owners row_width rs in
          Ok (match Req.req_pool_idx (core r) with
              | Some j => if (0 <? kv_allocated_len i)%nat then (j, kv_allocated_len i) :: owners else owners
              | None => owners
              end)
      end
  end.

(** [rtt[idx][mask] // page_size]. *)
Fixpoint owner_pages (page_size : nat) (rtt : list (list Z)) (owners : list (nat * nat)) : res (list Z) :=
  match owners with
  | [] => Ok []
  | (j, n) :: owners =>
      let! row := res_of_option IndexError (rtt !! j) in
      let! l := owner_pages page_size rtt owners in
      Ok (((λ x, x / Z.of_nat page_size) <$> take n row) ++ l)
  end.

(** Every sub-pool whose free list has a page twice is reported. *)
Fixpoint check_duplicates k (lists : list (list Z)) : res Checker :=
  match lists with
  | [] => Ok k
  | l :: lists =>
      let! k := if (length (unique l) =? length l)%nat then Ok k else warn_memory_leak k in
      check_duplicates k lists
  end.

Definition check_kv_page_invariants k (last : list BatchReq) p s : res Checker :=
  let! owners := page_owners (max_context_len p) last in
  match owners with
  | [] => Ok k
  | _ =>
      let! pages := owner_pages (ck_page_size k) (req_to_token p) owners in
      match free_lists s with
      | [] => Ok k
      | free :: _ =>
          let! k := check_duplicates k (free_lists s) in
          if forallb (λ q, negb (existsb (Z.eqb q) free)) pages then Ok k else warn_memory_leak k
      end
  end.

(** ** The checks of the scheduler *)

Definition self_check_during_busy k (last running : option (list BatchReq)) (same : bool) p s : res Checker :=
  match last with
  | None => Ok k
  | Some rs =>
      let! t := get_pool_stats k s in
      let! (full_uncached, swa_uncached) := get_total_uncached_sizes k s rs running same in
      assert_ (negb (check_full_pool k s t full_uncached)) ;;!
      assert_ (negb (check_swa_pool k s t swa_uncached)) ;;!
      if check_pages k then check_kv_page_invariants k rs p s else Ok k
  end.

(** A server that is not the decode side of a disaggregated deployment, whose pool has
    [pre_alloc_size] more rows. *)
Definition check_req_pool k p : res Checker :=
  if (length (free_slots p) =? size p)%nat then Ok k else warn_req_pool_leak k.

Definition check_all_pools k s (t : PoolStats) : bool := check_full_pool k s t 0 || check_swa_pool k s t 0.

(** The part of [Scheduler.on_idle] that looks for leaks. *)
Definition self_check_during_idle k p s : res Checker :=
  let! t := get_pool_stats k s in
  let! k := if check_all_pools k s t then warn_memory_leak k else Ok k in
  check_req_pool k p.

End Check.
