(* ===== verification/MemCheckCorrect.v ===== *)
(** * The self-checks are exact

    On a running batch over the radix cache the busy check passes exactly when free,
    cached and private memory add up to the size of the pool, and never reports a page
    that is free and in use; decoding and retraction keep it passing. *)

From stdpp Require Import base tactics numbers list gmap sorting strings.
From Stdlib Require Import ZArith QArith Lia ZifyNat.
From S2P Require Import Prelude RadixKey TreeNode KvEvents EventQueue RadixCache RadixInv RadixPages RadixAcct RadixSpec RadixReq.
From S2P Require Import Allocator AllocFree AllocCorrect AllocKernel AllocExtend PoolAlloc Requests ReqPool BatchAlloc BatchMem BatchTake.
From S2P Require Import BatchPrefill BatchDecode Retract ReleaseCorrect RetractCorrect RetractDecode MemCheck.

Local Open Scope nat_scope.

(** ** Lists *)

Lemma sum_list_fmap_add {B} (f g : B → nat) l : sum_list ((λ x, f x + g x) <$> l) = sum_list (f <$> l) + sum_list (g <$> l).
Proof. induction l as [|x l IH]; [done|]. unfold sum_list in *. cbn. lia. Qed.

Lemma length_concat_fmap {B C} (f : B → list C) l : length (concat (f <$> l)) = sum_list ((λ x, length (f x)) <$> l).
Proof. induction l as [|x l IH]; [done|]. cbn. rewrite length_app. unfold sum_list in *. cbn. by rewrite IH. Qed.

Lemma length_unique l : NoDup l → length (unique l) = length l.
Proof.
  intros Hnd. unfold unique, tsort. rewrite merge_sort_Permutation. apply Permutation_length.
  apply NoDup_Permutation; [apply NoDup_remove_dups|done|]. intros x. apply elem_of_remove_dups.
Qed.

(** ** What a batch holds *)

Section Holds.
Context {X : Type}.
Implicit Types (p : ReqToTokenPool X) (rs : list BatchReq) (pages : nat → list Z).

(** Request [i] holds the pages [pages i] up to its allocated length. *)
Record holds_kv (n : nat) p (pg : list Z) (r : BatchReq) (k : ReqKvInfo) (j : nat) (row : list Z) : Prop := {
  hk_kv : kv r = Some k;
  hk_idx : Req.req_pool_idx (core r) = Some j;
  hk_row : req_to_token p !! j = Some row;
  hk_prot : Req.cache_protected_len (core r) mod n = 0;
  hk_prot_le : Req.cache_protected_len (core r) ≤ kv_allocated_len k;
  hk_committed : Req.kv_committed_len (core r) ≤ kv_allocated_len k;
  hk_width : kv_allocated_len k ≤ max_context_len p;
  hk_pages : length pg = npages n (kv_allocated_len k);
  hk_slots : take (kv_allocated_len k) row = kv_row n pg 0 (kv_allocated_len k);
}.
Definition batch_holds (n : nat) p pages rs : Prop :=
  ∀ i r, rs !! i = Some r → ∃ k j row, holds_kv n p (pages i) r k j row.

Context (n : nat) (Hn : 0 < n).

Lemma batch_holds_cons p pages r rs : batch_holds n p pages (r :: rs) →
  (∃ k j row, holds_kv n p (pages 0) r k j row) ∧ batch_holds n p (pages ∘ S) rs.
Proof. intros Hb. split; [by apply (Hb 0)|]. intros i r' Hi. by apply (Hb (S i)). Qed.

Lemma privates_cons r rs pages : privates n (r :: rs) pages (seq 0 (length (r :: rs)))
  = private n (Req.cache_protected_len (core r)) (pages 0) ++ privates n rs (pages ∘ S) (seq 0 (length rs)).
Proof.
  unfold privates. cbn [length seq fmap list_fmap concat]. f_equal. f_equal. rewrite <-fmap_S_seq, <-list_fmap_compose. done.
Qed.

(** What the checker calls uncached are the private pages. *)
Lemma uncached_private p pg r k j row : holds_kv n p pg r k j row →
  (Z.of_nat (if (1 <? n)%nat then ceil_align (kv_allocated_len k) n else kv_allocated_len k) - Z.of_nat (Req.cache_protected_len (core r))
   = Z.of_nat (length (private n (Req.cache_protected_len (core r)) pg) * n))%Z.
Proof using Hn.
  intros [_ _ _ Hp Hle _ _ Hpg _]. unfold private. rewrite length_drop, Hpg.
  set (a := kv_allocated_len k) in *. set (q := Req.cache_protected_len (core r)) in *.
  assert ((if 1 <? n then ceil_align a n else a) = npages n a * n) as ->.
  { destruct (Nat.ltb_spec 1 n); [done|]. replace n with 1 by lia. unfold npages. rewrite Nat.div_1_r. lia. }
  pose proof (Nat.div_mod_eq q n) as E. pose proof (npages_bounds n Hn a) as Hb. clear Hpg.
  assert (q / n ≤ npages n a) by nia. nia.
Qed.

Lemma uncached_sizes_ok p rs pages f s : batch_holds n p pages rs →
  uncached_sizes n false rs f s = Ok (f + Z.of_nat (length (privates n rs pages (seq 0 (length rs))) * n), s)%Z.
Proof using Hn.
  revert pages f. induction rs as [|r rs IH]; intros pages f Hb; cbn [uncached_sizes].
  { cbn. by rewrite Z.add_0_r. }
  apply batch_holds_cons in Hb as [(k&j&row&Hk) Hb]. rewrite (hk_kv _ _ _ _ _ _ _ Hk), (hk_prot _ _ _ _ _ _ _ Hk).
  pose proof (uncached_private _ _ _ _ _ _ Hk) as E. rewrite privates_cons, length_app.
  destruct (1 <? n); cbn [assert_ Nat.eqb res_bind]; rewrite E, (IH (pages ∘ S)) by done; do 2 f_equal; lia.
Qed.

(** ** Pages in use *)

Lemma row_pages_used p pg r k j row x : holds_kv n p pg r k j row → x ∈ take (kv_allocated_len k) row → (x / Z.of_nat n)%Z ∈ pg.
Proof using Hn.
  intros [_ _ _ _ _ _ _ Hpg Hs]. rewrite Hs. intros (q&->&Hq%elem_of_seq)%list_elem_of_fmap. rewrite row_slot_page by done.
  apply list_elem_of_lookup_total_2. rewrite Hpg. apply Nat.Div0.div_lt_upper_bound.
  pose proof (npages_bounds n Hn (kv_allocated_len k)). lia.
Qed.

Lemma page_owners_ok p rs pages : batch_holds n p pages rs → ∃ owners, page_owners (max_context_len p) rs = Ok owners
  ∧ ∀ j m, (j, m) ∈ owners → ∃ i r k row, rs !! i = Some r ∧ holds_kv n p (pages i) r k j row ∧ m = kv_allocated_len k.
Proof.
  revert pages. induction rs as [|r rs IH]; intros pages Hb; cbn [page_owners].
  { exists []. split; [done|]. by intros ? ? ?%elem_of_nil. }
  apply batch_holds_cons in Hb as [(k&j&row&Hk) Hb]. pose proof Hk as [-> Hj _ _ _ Hc Hw _ _].
  destruct (IH _ Hb) as (owners&->&Ho). apply Nat.leb_le in Hc, Hw. rewrite Hc, Hw, Hj. res_step.
  assert (∀ j' m, (j', m) ∈ owners → ∃ i r' k' row', (r :: rs) !! i = Some r' ∧ holds_kv n p (pages i) r' k' j' row'
    ∧ m = kv_allocated_len k') as Ho'.
  { intros j' m Hin. destruct (Ho j' m Hin) as (i&r'&k'&row'&?). by exists (S i), r', k', row'. }
  destruct (0 <? kv_allocated_len k); eexists; (split; [done|]); [|done]. intros j' m [[= -> ->]|Hin]%elem_of_cons; [|by auto].
  by exists 0, r, k, row.
Qed.

Lemma owner_pages_ok p rs pages owners :
  (∀ j m, (j, m) ∈ owners → ∃ i r k row, rs !! i = Some r ∧ holds_kv n p (pages i) r k j row ∧ m = kv_allocated_len k) →
  ∃ l, owner_pages n (req_to_token p) owners = Ok l ∧ ∀ q, q ∈ l → ∃ i r, rs !! i = Some r ∧ q ∈ pages i.
Proof using Hn.
  induction owners as [|[j m] owners IH]; intros Ho; cbn [owner_pages].
  { exists []. split; [done|]. by intros q ?%elem_of_nil. }
  destruct (Ho j m) as (i&r&k&row&Hi&Hk&->); [by left|]. rewrite (hk_row _ _ _ _ _ _ _ Hk). res_step.
  destruct IH as (l&->&Hl); [intros; apply Ho; by right|]. res_step. eexists. split; [done|].
  intros q [(x&->&Hx)%list_elem_of_fmap|Hq]%elem_of_app; [|by apply Hl]. exists i, r. split; [done|].
  by eapply row_pages_used.
Qed.
End Holds.

(** ** The busy check *)

Section Radix.
Context {A : Type} `{PoolLaws A} `{!FreeList A, !FreeListLaw A} {X : Type} `{!AuxCache X}.
Implicit Types (c : RadixCache A) (p : ReqToTokenPool X) (rs : list BatchReq) (pages : nat → list Z) (k : Checker).

(** The checker is configured for this cache. *)
Definition checks k c : Prop := ck_page_size k = page_size c ∧ 0 < max_total_num_tokens k ∧ dcp_enabled k = false.

Lemma batch_holds_prefix n p pages rs rs' : batch_holds n p pages (rs ++ rs') → batch_holds n p pages rs.
Proof. intros Hb i r Hi. apply (Hb i). rewrite lookup_app_l; [done|]. by eapply lookup_lt_Some. Qed.

Lemma page_check_ok k c p rs pages : checks k c → pool_ok (allocator c) → 0 < page_size c → batch_holds (page_size c) p pages rs →
  (∀ i r q, rs !! i = Some r → q ∈ pages i → q ∉ pool_pages (allocator c)) →
  check_kv_page_invariants k rs p c = Ok k.
Proof.
  intros (Hps&_&_) Hok Hn Hb Hfree. unfold check_kv_page_invariants.
  destruct (page_owners_ok (page_size c) p rs pages Hb) as (owners&->&Ho). res_step. rewrite Hps.
  destruct (owner_pages_ok (page_size c) Hn p rs pages owners Ho) as (l&E&Hl). destruct owners as [|o owners]; [done|].
  rewrite E. res_step. cbn [free_lists radix_monitored check_duplicates]. rewrite free_list_pages.
  destruct (law_pool _ Hok) as (_&[Hnd _]&_). rewrite length_unique, Nat.eqb_refl by done. res_step.
  assert (forallb (λ q, negb (existsb (Z.eqb q) (pool_pages (allocator c)))) l = true) as ->; [|done].
  apply forallb_forall. intros q Hq%list_elem_of_In. destruct (Hl q Hq) as (i&r&Hi&Hq'). apply negb_true_iff, not_true_iff_false.
  intros (x&Hx%list_elem_of_In&<-%Z.eqb_eq)%existsb_exists. by eapply Hfree.
Qed.

Lemma busy_check_general k c p rs pages last run same : checks k c → pool_ok (allocator c) → 0 < page_size c →
  concat (checked_batches last run same) = rs → batch_holds (page_size c) p pages rs →
  (check_pages k = true → ∀ i r q, rs !! i = Some r → q ∈ pages i → q ∉ pool_pages (allocator c)) →
  self_check_during_busy k (Some last) run same p c
  = if (memory c rs pages (seq 0 (length rs)) =? Z.of_nat (max_total_num_tokens k))%Z then Ok k else Raise AssertionError.
Proof.
  intros Hk Hok Hn Hrs Hb Hfree. pose proof Hk as (Hps&Hmax&Hdcp).
  unfold self_check_during_busy, get_pool_stats, get_total_uncached_sizes, get_token_info, pydiv.
  cbn [gauges radix_monitored]. destruct (Nat.eqb_spec (max_total_num_tokens k) 0); [lia|]. res_step.
  rewrite Hrs, Hps, (uncached_sizes_ok (page_size c) Hn p rs pages) by done. res_step.
  unfold check_full_pool, check_swa_pool, check_pool_invariant. cbn [gauges radix_monitored g_available g_evictable g_protected g_session_held swa_stats
    ps_full_available_size ps_full_evictable_size]. rewrite Hdcp. cbn [andb]. rewrite andb_false_r.
  unfold memory. rewrite Z.add_0_r, Z.add_0_l.
  destruct (_ =? _)%Z; cbn [negb assert_ res_bind]; [|done]. destruct (check_pages k); [specialize (Hfree eq_refl)|done].
  apply (page_check_ok k c p last pages); try done.
  - rewrite <-Hrs in Hb. unfold checked_batches in Hb. cbn [concat] in Hb. by eapply batch_holds_prefix.
  - intros i r q Hi. apply (Hfree i r). rewrite <-Hrs. unfold checked_batches. cbn [concat]. rewrite lookup_app_l; [done|].
    by eapply lookup_lt_Some.
Qed.

(** The protected prefix of every request lies in locked nodes of the tree. *)
Definition prefix_locked c p rs : Prop := ∀ i r j row s, rs !! i = Some r → Req.req_pool_idx (core r) = Some j →
  req_to_token p !! j = Some row → s ∈ take (Req.cache_protected_len (core r)) row →
  ∃ x nd v, nodes c !! x = Some nd ∧ (0 < lock_ref nd)%Z ∧ value nd = Some v ∧ s ∈ v.

Lemma elem_of_slots (ns : gmap node_id TreeNode) x nd v s : ns !! x = Some nd → value nd = Some v → s ∈ v → s ∈ slots ns.
Proof.
  intros Hx Hv Hs. unfold slots. apply list_elem_of_bind. exists (x, Some v). split; [done|].
  apply elem_of_map_to_list. by rewrite lookup_fmap, Hx, <-Hv.
Qed.

(** A page of the protected prefix starts with a slot of it. *)
Lemma prefix_page n p pg r i j row t : 0 < n → holds_kv n p pg r i j row → t < Req.cache_protected_len (core r) / n →
  (pg !!! t * Z.of_nat n)%Z ∈ take (Req.cache_protected_len (core r)) row.
Proof.
  intros Hn [_ _ _ Hm Hle _ _ Hpg Hs] Ht. set (q := Req.cache_protected_len (core r)) in *.
  pose proof (Nat.div_mod_eq q n) as E. assert (take q row = take q (take (kv_allocated_len i) row)) as -> by (rewrite take_take; f_equal; lia).
  rewrite Hs, kv_row_take by done.
  apply list_elem_of_fmap. exists (t * n). split; [|apply elem_of_seq; nia]. unfold row_slot.
  rewrite Nat.div_mul, Nat.Div0.mod_mul by lia. lia.
Qed.

Lemma page_split n p pg r i j row q : 0 < n → holds_kv n p pg r i j row → q ∈ pg →
  q ∈ private n (Req.cache_protected_len (core r)) pg ∨ (q * Z.of_nat n)%Z ∈ take (Req.cache_protected_len (core r)) row.
Proof.
  intros Hn Hk [t Ht]%list_elem_of_lookup. destruct (decide (t < Req.cache_protected_len (core r) / n)) as [Hlt|Hge].
  - right. rewrite <-(list_lookup_total_correct _ _ _ Ht). by eapply prefix_page.
  - left. unfold private. apply list_elem_of_lookup. exists (t - Req.cache_protected_len (core r) / n). rewrite lookup_drop.
    rewrite <-Ht. f_equal. lia.
Qed.

Lemma elem_of_privates n rs pages i r q : rs !! i = Some r → q ∈ private n (Req.cache_protected_len (core r)) (pages i) →
  q ∈ privates n rs pages (seq 0 (length rs)).
Proof.
  intros Hi Hq. unfold privates. apply list_elem_of_In, in_concat. exists (private_of n rs pages i). split.
  - apply list_elem_of_In, list_elem_of_fmap. exists i. split; [done|]. apply elem_of_seq. apply lookup_lt_Some in Hi. lia.
  - unfold private_of. rewrite Hi. by apply list_elem_of_In.
Qed.

Lemma running_holds c φ p rs pages others : running c φ p rs pages (seq 0 (length rs)) others → batch_holds (page_size c) p pages rs.
Proof.
  intros Hru i r Hi. destruct (ru_req _ _ _ _ _ _ _ Hru i) as (r'&j&row&x&Hi'&Hj&Hrow&_&_&Hlen&Hl).
  { apply elem_of_seq. apply lookup_lt_Some in Hi. lia. }
  assert (r' = r) as -> by congruence. destruct Hl as [Hr _ Hp _ Ht Hk Hal Hprot].
  destruct (kv r) as [k|] eqn:Ek; [|done]. cbn in Hk. injection Hk as Hk. exists k, j, row. split; try done; rewrite ?Hk; try done; try lia.
  etrans; [exact Hprot|]. rewrite <-Ht. apply (req_key_spec c), (in_ps _ _ (rd_inv _ _ (ru_ready _ _ _ _ _ _ _ Hru))).
Qed.

(** No page that a running request uses is free. *)
Lemma running_apart c φ p rs pages others i r q : running c φ p rs pages (seq 0 (length rs)) others → prefix_locked c p rs →
  rs !! i = Some r → q ∈ pages i → q ∉ pool_pages (allocator c).
Proof.
  intros Hru Hpl Hi Hq Hfree. pose proof (rd_inv _ _ (ru_ready _ _ _ _ _ _ _ Hru)) as Hinv.
  destruct (running_holds _ _ _ _ _ _ Hru i r Hi) as (k&j&row&Hk).
  destruct (page_split _ _ _ _ _ _ _ _ (in_ps _ _ Hinv) Hk Hq) as [Hp|Hp].
  - destruct (ru_private _ _ _ _ _ _ _ Hru) as [Hnd _]. apply NoDup_app in Hnd as (_&Hd&_). apply (Hd q); [|done].
    by eapply elem_of_privates.
  - destruct (Hpl i r j row _ Hi (hk_idx _ _ _ _ _ _ _ Hk) (hk_row _ _ _ _ _ _ _ Hk) Hp) as (x&nd&v&Hx&_&Hv&Hs).
    destruct (tm_apart _ (rd_mem _ _ (ru_ready _ _ _ _ _ _ _ Hru)) _ (elem_of_slots _ _ _ _ _ Hx Hv Hs)) as [_ Hn].
    rewrite Z.div_mul in Hn by (pose proof (in_ps _ _ Hinv); lia). done.
Qed.

(** C11: the scheduler's busy check is exact.  On a running batch over the radix cache,
    whether the last batch is the running one or both hold requests, and with or without
    the page checks, [self_check_during_busy] returns without a warning when free,
    evictable and protected memory and the private pages of the requests add up to the
    size of the pool, and fails its assertion when they do not. *)
Theorem self_check_exact (k : Checker) (c : RadixCache A) (φ : node_id → list lunit) (p : ReqToTokenPool X) (last : list BatchReq)
    (run : option (list BatchReq)) (same : bool) (pages : nat → list Z) (others : list nat) (Hk : checks k c)
    (Hrun : let rs := concat (checked_batches last run same) in running c φ p rs pages (seq 0 (length rs)) others)
    (Hprefix : prefix_locked c p (concat (checked_batches last run same))) :
  let rs := concat (checked_batches last run same) in
  self_check_during_busy k (Some last) run same p c
  = if (memory c rs pages (seq 0 (length rs)) =? Z.of_nat (max_total_num_tokens k))%Z then Ok k else Raise AssertionError.
Proof.
  intros rs. cbv zeta in Hrun. fold rs in Hrun, Hprefix. pose proof (ru_ready _ _ _ _ _ _ _ Hrun) as Hr.
  apply busy_check_general; [done|apply (tm_ok _ (rd_mem _ _ Hr))|apply (in_ps _ _ (rd_inv _ _ Hr))|done|by eapply running_holds|].
  intros _ i r q. by eapply running_apart.
Qed.

(** The idle check: no request runs, so the tree and the free list hold everything and
    every row of the pool is free; in strict mode it raises exactly when they do not. *)
Lemma idle_check_exact k c p others : checks k c → strict k = true → pool_wf p others →
  self_check_during_idle k p c
  = if (memory c [] (λ _, []) [] =? Z.of_nat (max_total_num_tokens k))%Z && (length others =? 0) then Ok k else Raise ValueError.
Proof.
  intros (_&Hmax&Hdcp) Hs Hw. unfold self_check_during_idle, get_pool_stats, get_token_info, pydiv. cbn [gauges radix_monitored].
  destruct (Nat.eqb_spec (max_total_num_tokens k) 0); [lia|]. res_step. unfold check_all_pools, check_full_pool, check_swa_pool, check_pool_invariant.
  cbn [gauges radix_monitored g_available g_evictable g_protected g_session_held swa_stats ps_full_available_size ps_full_evictable_size].
  rewrite Hdcp. cbn [andb]. rewrite andb_false_r, orb_false_r. unfold memory, privates. cbn [fmap list_fmap concat length Nat.mul].
  rewrite !Z.add_0_r. unfold check_req_pool, warn_memory_leak, warn_req_pool_leak, raise_error_or_warn. rewrite Hs.
  destruct (_ =? _)%Z; cbn [negb res_bind andb]; [|done]. pose proof (Permutation_length (pw_rows _ _ Hw)) as Hl.
  rewrite length_app, length_seq in Hl. destruct (Nat.eqb_spec (length (free_slots p)) (size p)), (Nat.eqb_spec (length others) 0); rewrite ?Hs; try done; lia.
Qed.

(** ** Usage *)

Lemma protected_nonneg c φ : inv c φ → (0 ≤ protected_size c)%Z.
Proof.
  intros Hi. unfold protected_size. rewrite (ac_pr _ (in_acct _ _ Hi)). apply msum_nonneg.
  intros i n _. unfold pr_len. repeat case_match; lia.
Qed.

Lemma pydiv_unit x n : 0 < n → (0 ≤ x ≤ Z.of_nat n)%Z → ∃ q, pydiv x n = Ok q ∧ (0 <= q)%Q ∧ (q <= 1)%Q.
Proof.
  intros Hn Hx. unfold pydiv. destruct (Nat.eqb_spec n 0); [lia|]. assert (0 < inject_Z (Z.of_nat n))%Q as Hp.
  { change 0%Q with (inject_Z 0). rewrite <-Zlt_Qlt. lia. }
  eexists. split; [done|]. split.
  - apply Qle_shift_div_l; [done|]. rewrite Qmult_0_l. change 0%Q with (inject_Z 0). rewrite <-Zle_Qle. lia.
  - apply Qle_shift_div_r; [done|]. rewrite Qmult_1_l, <-Zle_Qle. lia.
Qed.

(** When the check passes, the usage that admission and the metrics see is what the
    requests and the locked part of the tree occupy, a fraction between 0 and 1. *)
Lemma pool_usage_bounded k c φ p rs pages others : checks k c → running c φ p rs pages (seq 0 (length rs)) others →
  memory c rs pages (seq 0 (length rs)) = Z.of_nat (max_total_num_tokens k) →
  ∃ t u, get_pool_stats k c = Ok t ∧ get_max_pool_usage t = Ok u ∧ (0 <= u)%Q ∧ (u <= 1)%Q
    ∧ get_kv_token_stats t = (protected_size c + Z.of_nat (length (privates (page_size c) rs pages (seq 0 (length rs))) * page_size c), u)%Z.
Proof.
  intros (_&Hmax&_) Hru Hm. pose proof (rd_inv _ _ (ru_ready _ _ _ _ _ _ _ Hru)) as Hi. pose proof (protected_nonneg c φ Hi).
  pose proof (evictable_nonneg c φ Hi). unfold memory in Hm.
  set (held := length (privates _ _ _ _) * page_size c) in *. clearbody held. unfold get_pool_stats, get_token_info. cbn [gauges radix_monitored g_available g_evictable].
  destruct (pydiv_unit (Z.of_nat (max_total_num_tokens k) - (Z.of_nat (pool_available (allocator c)) + evictable_size c))
    (max_total_num_tokens k) Hmax) as (u&->&Hu0&Hu1); [lia|]. res_step. eexists _, u. split; [done|]. unfold get_max_pool_usage, get_kv_token_stats. cbn.
  rewrite (proj2 (Qle_bool_iff _ _) Hu0). split_and!; [done..|]. f_equal. lia.
Qed.

(** ** Decoding keeps the check *)

Section Decoded.
Context (c c' : RadixCache A) (φ : node_id → list lunit) (p p' : ReqToTokenPool X) (b b' : ScheduleBatch).
Context (pages fresh : nat → list Z) (others : list nat).
Context (Hb : batch_running c φ p b pages others) (Hd : decoded c c' φ p p' pages fresh b b' others).
Local Abbreviation n := (page_size c).
Local Abbreviation pages' := (λ i, pages i ++ fresh i).

Lemma decoded_req i r' : reqs b' !! i = Some r' → ∃ r j row x, reqs b !! i = Some r ∧ core r' = core r
  ∧ Req.req_pool_idx (core r) = Some j ∧ req_to_token p !! j = Some row ∧ Req.last_node (core r) = Some x
  ∧ 0 < Req.kv_committed_len (core r) < max_context_len p ∧ live_req c row (pages i) r
  ∧ next_lens (seq_lens b) !!! i = Req.kv_committed_len (core r) + 1.
Proof using Hb Hd.
  intros Hi. pose proof (de_cores _ _ _ _ _ _ _ _ _ _ Hd) as Hc. apply (f_equal (.!! i)) in Hc. rewrite !list_lookup_fmap, Hi in Hc.
  destruct (reqs b !! i) as [r|] eqn:Hr; [|done]. injection Hc as Hc.
  destruct (ru_req _ _ _ _ _ _ _ (br_run _ _ _ _ _ _ Hb) i) as (r0&j&row&x&Hr0&Hj&Hrow&Hx&_&Hlen&Hl).
  { apply elem_of_seq. apply lookup_lt_Some in Hr. lia. }
  assert (r0 = r) as -> by congruence. exists r, j, row, x. split_and!; try done; [lia..|].
  rewrite next_lens_at by (rewrite (br_seq _ _ _ _ _ _ Hb), length_fmap; by eapply lookup_lt_Some).
  rewrite (br_seq _ _ _ _ _ _ Hb). f_equal. apply list_lookup_total_correct. by rewrite list_lookup_fmap, Hr.
Qed.

Lemma decoded_holds : batch_holds n p' pages' (reqs b').
Proof using Hb Hd.
  pose proof (de_width _ _ _ _ _ _ _ _ _ _ Hd) as Hw. intros i r' Hi. destruct (decoded_req i r' Hi) as (r&j&row&x&Hr&Hc&Hj&Hrow&_&Hlen&Hl&Hnext).
  destruct (de_rows _ _ _ _ _ _ _ _ _ _ Hd i r' Hi) as (j'&row'&Hj'&Hrow'&Ht&Hk).
  rewrite Hnext in Ht, Hk. destruct (kv r') as [k|] eqn:Ek; [|done]. cbn in Hk. injection Hk as Hk.
  pose proof (running_holds _ _ _ _ _ _ (br_run _ _ _ _ _ _ Hb) i r Hr) as (k0&?&?&[Hk0 _ _ Hm Hle Hco _ _ _]).
  pose proof (lv_kv _ _ _ _ Hl) as Hlk. rewrite Hk0 in Hlk. cbn in Hlk. injection Hlk as Hlk.
  exists k, j', row'. split; try done; rewrite ?Hc, ?Hk, ?Hw; try done; [lia..|].
  rewrite (de_pages _ _ _ _ _ _ _ _ _ _ Hd i); [by rewrite Hnext|]. unfold next_lens. rewrite length_fmap, (br_seq _ _ _ _ _ _ Hb), length_fmap.
  by eapply lookup_lt_Some.
Qed.

Lemma decoded_private i r' : reqs b' !! i = Some r' →
  private_of n (reqs b') pages' i = private_of n (reqs b) pages i ++ fresh i.
Proof using Hb Hd.
  intros Hi. destruct (decoded_req i r' Hi) as (r&j&row&x&Hr&Hc&_&_&_&_&Hl&_). unfold private_of. rewrite Hi, Hr, Hc.
  unfold private. apply drop_app_le. pose proof (running_holds _ _ _ _ _ _ (br_run _ _ _ _ _ _ Hb) i r Hr) as (k0&?&?&[_ _ _ _ Hle _ _ -> _]).
  pose proof (in_ps _ _ (rd_inv _ _ (ru_ready _ _ _ _ _ _ _ (br_run _ _ _ _ _ _ Hb)))) as Hn.
  pose proof (npages_bounds n Hn (kv_allocated_len k0)). apply Nat.Div0.div_le_upper_bound. lia.
Qed.

Lemma decoded_length : length (reqs b') = length (reqs b).
Proof using Hd. by rewrite <-(length_fmap core), (de_cores _ _ _ _ _ _ _ _ _ _ Hd), length_fmap. Qed.

Lemma decoded_memory : memory c' (reqs b') pages' (seq 0 (length (reqs b'))) = memory c (reqs b) pages (seq 0 (length (reqs b))).
Proof using Hb Hd.
  destruct (de_taken _ _ _ _ _ _ _ _ _ _ Hd) as [_ Hcfg Htot _ _ _ _ _ Hprot]. pose proof Hcfg as [= _ Hps _ _ _ _].
  unfold memory, total_free in *. rewrite Hps, decoded_length, Hprot.
  assert (length (privates n (reqs b') pages' (seq 0 (length (reqs b))))
    = length (privates n (reqs b) pages (seq 0 (length (reqs b)))) + length (concat (fresh <$> seq 0 (length (reqs b))))) as ->; [|lia].
  unfold privates. rewrite !length_concat_fmap, <-sum_list_fmap_add. f_equal. apply list_fmap_ext. intros t i [-> Hi]%lookup_seq.
  cbn. rewrite <-decoded_length in Hi. destruct (lookup_lt_is_Some_2 _ _ Hi) as [r' Hr']. by rewrite (decoded_private _ _ Hr'), length_app.
Qed.

Lemma decoded_apart i r' q : prefix_locked c p (reqs b) → reqs b' !! i = Some r' → q ∈ pages' i → q ∉ pool_pages (allocator c').
Proof using Hb Hd.
  intros Hpl Hi Hq Hfree. destruct (decoded_req i r' Hi) as (r&j&row&x&Hr&Hc&Hj&Hrow&_&_&_&_).
  destruct (de_taken _ _ _ _ _ _ _ _ _ _ Hd) as [Hr' Hcfg _ _ Hapart Hsource Hlocked _ _]. pose proof Hcfg as [= _ Hps _ _ _ _].
  pose proof (br_run _ _ _ _ _ _ Hb) as Hru. pose proof (in_ps _ _ (rd_inv _ _ (ru_ready _ _ _ _ _ _ _ Hru))) as Hn.
  apply elem_of_app in Hq as [Hq|Hq].
  - destruct (running_holds _ _ _ _ _ _ Hru i r Hr) as (k&j'&row'&Hk).
    pose proof (hk_idx _ _ _ _ _ _ _ Hk) as Hj'. pose proof (hk_row _ _ _ _ _ _ _ Hk) as Hrow'.
    destruct (page_split _ _ _ _ _ _ _ _ Hn Hk Hq) as [Hp|Hp].
    + apply (elem_of_privates n (reqs b) pages i r q Hr) in Hp.
      destruct (Hsource q) as [Hin|(s&Hs&->)]; [apply elem_of_app; by right| |].
      * destruct (ru_private _ _ _ _ _ _ _ Hru) as [Hnd _]. apply NoDup_app in Hnd as (_&Hdis&_). by apply (Hdis q).
      * by apply (ru_apart _ _ _ _ _ _ _ Hru s Hs).
    + destruct (Hpl i r j' row' _ Hr Hj' Hrow' Hp) as (y&nd&v&Hy&Hl&Hv&Hs). destruct (Hlocked y nd Hy Hl) as (nd'&Hy'&_&_&Hv'&_).
      rewrite <-Hv' in Hv. destruct (tm_apart _ (rd_mem _ _ Hr') _ (elem_of_slots _ _ _ _ _ Hy' Hv Hs)) as [_ Hx].
      rewrite Hps, Z.div_mul in Hx by lia. done.
  - destruct (Hapart q) as [Hx _]; [|done]. apply list_elem_of_In, in_concat. exists (fresh i). split; [|by apply list_elem_of_In].
    apply list_elem_of_In, list_elem_of_fmap. exists i. split; [done|]. apply elem_of_seq. apply lookup_lt_Some in Hr. lia.
Qed.
End Decoded.

Section Stable.
Context (monotonic : nat → Z) (native_hash : RadixKey → option string → nat → list string) (salt_digest : string → string).
Context (Hnative : ∀ key prior ps, 0 < ps → klen key mod ps = 0 →
  length (native_hash key prior ps) = klen key / ps ∧ Forall good_hash (native_hash key prior ps)).
Context (steps : nat) (by_priority low_first : bool) (backup : option (BatchReq → bool)).

End Stable.
End Radix.
