(* ===== verification/SwaCheck.v ===== *)
(** * The self-check under a sliding window

    In every reachable state of the window system the scheduler's busy check of the full
    and of the window pool passes, page checks included, as long as no prompt is shielded
    from eviction; with a shielded prompt it reports a leak that is none. *)

From stdpp Require Import base tactics numbers list gmap sorting strings.
From Stdlib Require Import ZArith QArith Lia ZifyNat.
From S2P Require Import Prelude RadixKey TreeNode RadixCache RadixReq Allocator AllocFree AllocCorrect AllocKernel AllocExtend PoolAlloc.
From S2P Require Import Requests ReqPool BatchAlloc Retract MemCheck MemCheckCorrect.
From S2P Require Import SwaAlloc SwaInv SwaFree SwaGrow SwaCorrect SwaWindow SwaLife SwaSystem SwaReach SwaClaims.

Local Open Scope nat_scope.

(** ** Counting *)

Lemma length_filter_from (P : nat → Prop) `{∀ j, Decision (P j)} e L : (∀ j, P j ↔ e ≤ j) → length (filter P (seq 0 L)) = L - e.
Proof.
  intros HP. induction L as [|L IH]; [done|]. rewrite seq_S, filter_app, length_app, IH, filter_cons, filter_nil. cbn [plus].
  destruct (decide (P L)) as [Hp|Hp]; rewrite HP in Hp; cbn [length]; lia.
Qed.

Lemma length_arange x y : length (arange x y) = Z.to_nat (y - x).
Proof. unfold arange. by rewrite length_fmap, length_seq. Qed.

Section Uncached.
Context (window : nat) (a : SwaAlloc) (Hps : 1 < page_size a).
Local Abbreviation n := (page_size a).

Lemma evict_floor_0 r : Req.cache_protected_len (core (sreq r)) = 0 → swa_evict_floor r = 0 → evict_floor n r = 0.
Proof. intros E1 E2. unfold evict_floor. rewrite E1, E2. cbn. by rewrite andb_false_r. Qed.

(** The window pages of a request are the pages behind what was evicted. *)
Lemma live_count k x row : run_ok window a k x row → swa_evict_floor (running_req x) = 0 →
  swa_evicted_seqlen k ≤ length row * n ∧ length (live_pages n x row) = length row - swa_evicted_seqlen k / n.
Proof using Hps.
  intros [Hpos Hp _ Hprot Hk Hal Hla _ _] Hf. pose proof (evict_floor_0 _ Hprot Hf) as E. rewrite E in Hla.
  pose proof (npages_bounds n ltac:(lia) (length (row_slots x))) as Hb. rewrite <-Hp in Hb.
  split; [lia|]. unfold live_pages. rewrite Hk, length_fmap. apply length_filter_from. intros j. unfold live. rewrite E.
  pose proof (Nat.div_mod_eq (swa_evicted_seqlen k) n). split; [intros [?|?]; [lia|nia]|intros ?; right; nia].
Qed.

(** What the checker counts for the running requests. *)
Lemma swa_uncached rs rows f s : Forall2 (λ x row, ∃ k, run_ok window a k x row) rs rows →
  Forall (λ x, swa_evict_floor (running_req x) = 0) rs →
  uncached_sizes n true ((λ x, sreq (running_req x)) <$> rs) f s
  = Ok (f + Z.of_nat (length (concat rows) * n), s + Z.of_nat (length (concat (zip_with (live_pages n) rs rows)) * n))%Z.
Proof using Hps.
  intros Hr. revert f s. induction Hr as [|x row rs rows (k&Hok) _ IH]; intros f s Hf.
  { cbn. by rewrite !Z.add_0_r. }
  apply Forall_cons in Hf as [Hx Hf]. destruct (live_count k x row Hok Hx) as [He Hl]. pose proof Hok as [_ Hp _ Hprot Hk Hal _ _ Ha].
  cbn [fmap list_fmap uncached_sizes zip_with concat]. rewrite Hk, Hprot, Ha. destruct (Nat.ltb_spec 1 n); [|lia].
  rewrite Nat.Div0.mod_0_l. cbn [Nat.eqb assert_ res_bind]. rewrite IH, !length_app, Hl by done. change (ceil_align ?x n) with (npages n x * n).
  rewrite <-Hp. pose proof (Nat.div_mod_eq (swa_evicted_seqlen k) n). do 2 f_equal; nia.
Qed.
End Uncached.

(** ** Reachable states *)

Section Reachable.
Context {X : Type} `{!AuxCache X} (window : nat).
Context (m : list (Z * Z)) (rows : list (list Z)) (a : SwaAlloc) (rs : list Running) (Hinv : sys_inv window m rows (a, rs)).
Local Abbreviation n := (page_size a).
Local Abbreviation reqs_of := ((λ x, sreq (running_req x)) <$> rs).

(** The row of a running request, as the page check reads it. *)
Definition row_checked (p : ReqToTokenPool X) (x : Running) : Prop :=
  row_in_pool p x ∧ Req.kv_committed_len (core (sreq (running_req x))) ≤ length (row_slots x) ≤ max_context_len p.

Lemma swa_batch_holds p : Forall (row_checked p) rs → batch_holds n p (λ i, rows !!! i) reqs_of.
Proof using Hinv.
  intros Hp i r Hi. apply list_lookup_fmap_Some in Hi as (x&->&Hx). destruct (run_at _ _ _ _ Hinv i x Hx) as (row&k&Hr&Hok).
  destruct (proj1 (Forall_lookup _ _) Hp i x Hx) as ((l&Hl&Ht)&Hlen). destruct Hok as [Hpos Hpg Hsl Hprot Hk _ _ _ Ha].
  unfold req_row in Hl. destruct (Req.req_pool_idx (core (sreq (running_req x)))) as [j|] eqn:Ej; [|done]. cbn in Hl.
  destruct (req_to_token p !! j) as [l'|] eqn:El; [|done]. injection Hl as ->. exists k, j, l.
  rewrite (list_lookup_total_correct _ _ _ Hr). split; try done; rewrite ?Hprot, ?Ha; try lia; try done; [apply Nat.Div0.mod_0_l|congruence].
Qed.

Lemma swa_page_check k p : ck_page_size k = n → Forall (row_checked p) rs → check_kv_page_invariants k reqs_of p a = Ok k.
Proof using Hinv.
  intros Hk Hp. pose proof (swa_batch_holds p Hp) as Hb. unfold check_kv_page_invariants.
  pose proof (si_ps _ _ _ Hinv) as Hps. cbn in Hps.
  destruct (page_owners_ok n p _ _ Hb) as (owners&->&Ho). res_step. rewrite Hk.
  destruct (owner_pages_ok n ltac:(lia) p _ _ owners Ho) as (l&E&Hl). destruct owners as [|o owners]; [done|]. rewrite E. res_step.
  cbn [free_lists swa_monitored check_duplicates]. rewrite !free_list_held. pose proof (si_hybrid _ _ _ Hinv) as Hh. cbn in Hh.
  destruct (hy_dom _ _ Hh) as [Hnd _]. apply NoDup_app in Hnd as (_&_&Hnd).
  destruct (hybrid_img_in_pool _ _ Hh) as [Hnd2 _]. apply NoDup_app in Hnd2 as (_&_&Hnd2). apply NoDup_app in Hnd2 as (_&_&Hnd2).
  rewrite !length_unique, !Nat.eqb_refl by done. res_step.
  assert (forallb (λ q, negb (existsb (Z.eqb q) (held (full_attn_allocator a)))) l = true) as ->; [|done].
  apply forallb_forall. intros q Hq%list_elem_of_In. destruct (Hl q Hq) as (i&r&Hi&Hq'). apply negb_true_iff, not_true_iff_false.
  intros (y&Hy%list_elem_of_In&<-%Z.eqb_eq)%existsb_exists. apply list_lookup_fmap_Some in Hi as (x&->&Hx).
  destruct (run_at _ _ _ _ Hinv i x Hx) as (row&k'&Hr&_). rewrite (list_lookup_total_correct _ _ _ Hr) in Hq'.
  destruct (rows_nodup _ _ _ Hinv) as [_ Hd]. destruct (Hd q) as [_ Hn]; [apply elem_of_concat; eauto|done].
Qed.

(** Both pools are accounted for. *)
Lemma swa_accounted : length (concat rows) + length (held (full_attn_allocator a)) = num_pages (full_attn_allocator a)
  ∧ length (concat (zip_with (live_pages n) rs rows)) + length (held (swa_attn_allocator a)) = num_pages (swa_attn_allocator a).
Proof using Hinv.
  pose proof (si_hybrid _ _ _ Hinv) as Hh. cbn in Hh. pose proof (si_full _ _ _ Hinv) as Hf. cbn in Hf.
  pose proof (hy_img _ _ Hh) as Hi. destruct (si_idle _ _ _ Hinv) as [_ Hq]. cbn in Hq. unfold pending in Hi. rewrite Hq in Hi.
  cbn [concat] in Hi. rewrite freed_pages_nil in Hi. cbn [app] in Hi.
  apply Permutation_length in Hf, Hi. rewrite length_app, length_arange in Hf, Hi. rewrite length_fmap in Hi.
  pose proof (live_pages_perm _ _ _ _ Hinv) as Hl. cbn in Hl. rewrite Hl, length_fmap. lia.
Qed.
End Reachable.


(** ** Witness *)

#[local] Existing Instance no_aux.

Definition swa_checker : Checker := mkChecker 2 16 8 16 false true true 0 0.


(** ** A shielded prompt *)

(** The request of the witness with its first page shielded, after an eviction that had
    nothing to evict. *)
Definition shielded_req : SwaReq := mkSwaReq (sreq swa_req) 2 1 1.
Definition shielded_after : SwaReq := set_evicted 2 shielded_req.

(** [free_swa_out_of_window_slots] raises [swa_evicted_seqlen] to the shield although
    nothing below it was evicted; the check counts from there, misses the window slots of
    the shielded prompt and reports a leak in a state where no page is lost. *)
Lemma shielded_prompt_reported :
  reachable (X := unit) 2 (swa_start, []) (swa_after, [mkRunning shielded_after [2; 3; 4; 5; 6]%Z])
  ∧ self_check_during_busy swa_checker (Some [sreq shielded_after]) (Some [sreq shielded_after]) true swa_table swa_after
    = Raise AssertionError.
Proof.
  split; [|vm_compute; reflexivity].
  assert (step (X := unit) 2 (swa_start, []) (swa_after, [mkRunning shielded_req [2; 3; 4; 5; 6]%Z])) as Hadmit.
  { apply (step_admit 2 swa_start [] shielded_req 5 zeros5 zeros5); [lia|reflexivity..|vm_compute; reflexivity]. }
  eapply reach_step; [eapply reach_step; [apply reach_init|exact Hadmit]|].
  apply (step_evict 2 swa_after [mkRunning shielded_req [2; 3; 4; 5; 6]%Z] 0 (mkRunning shielded_req [2; 3; 4; 5; 6]%Z) swa_table 5
    shielded_after swa_after); [reflexivity|eexists; split; reflexivity|cbn; lia|vm_compute; reflexivity].
Qed.
