(* ===== verification/PrefillAdder.v ===== *)
(** * Admission of prefill requests

    [PrefillAdder] of [src/python/sglang/srt/managers/schedule_policy.py]: the token
    budgets of one scheduling pass, and the operations that admit a request, a chunk
    of one, or preempt running requests.  Token counts are integers; the budgets that
    are scaled by the float [new_token_ratio] are exact rationals.  The tree cache and
    the allocator are used through the class [Pools]; the delayer is the one of
    [PrefillDelayer]. *)

From stdpp Require Import base tactics numbers list.
From Stdlib Require Import ZArith QArith Lia.
From S2P Require Import Prelude PySort PrefillDelayer.

Local Open Scope Z_scope.

(** ** The cache and the allocator, as the adder uses them *)

Record IncLockRefResult := mkLockResult {
  swa_uuid_for_lock : option Z;
  skip_lock_node_ids : list (nat * list Z);
}.
(** [DecLockRefParams] carries what the result of the acquisition carries. *)
Definition to_dec_params (r : IncLockRefResult) : IncLockRefResult := r.

Class Pools (node S : Type) := {
  available_size : S → Z;
  full_available_size : S → Z;
  swa_available_size : S → Z;
  size_swa : S → Z;
  evictable_size : S → Z;
  full_evictable_size : S → Z;
  swa_evictable_size : S → Z;
  mamba_evictable_size : S → Z;
  mamba_schedulable_size : S → Z;
  tree_cache_disable : S → bool;
  is_tree_cache : S → bool;
  inc_lock_ref : node → S → res (S * IncLockRefResult);
  dec_lock_ref : node → option IncLockRefResult → S → res S;
  init_load_back : node → Z → S → res (list Z * node * S);
}.

(** ** Data *)

(** The fields of [Req] that admission reads and writes; token arrays by length. *)
Record SchedReq (node : Type) := mkSchedReq {
  rid : Z;
  max_new_tokens : Z;
  ignore_eos : bool;
  origin_input_len : Z;
  output_len : Z;
  fill_len : Z;
  prefix_indices : list Z;
  last_node : node;
  best_match_node : node;
  host_hit_length : Z;
  storage_hit_length : Z;
  swa_host_hit_length : Z;
  mamba_host_hit_length : Z;
  mamba_pool_idx : option Z;
  retracted_stain : bool;
  dllm_incomplete : bool;
  priority : Z;
  wait_queue_entry_time : Q;
  req_finished : bool;
  cache_protected_len : Z;
  req_lock : IncLockRefResult;
  extend_range : option (Z * Z);
}.
Global Arguments mkSchedReq {_}.
Global Arguments rid {_}.
Global Arguments max_new_tokens {_}.
Global Arguments ignore_eos {_}.
Global Arguments origin_input_len {_}.
Global Arguments output_len {_}.
Global Arguments fill_len {_}.
Global Arguments prefix_indices {_}.
Global Arguments last_node {_}.
Global Arguments best_match_node {_}.
Global Arguments host_hit_length {_}.
Global Arguments storage_hit_length {_}.
Global Arguments swa_host_hit_length {_}.
Global Arguments mamba_host_hit_length {_}.
Global Arguments mamba_pool_idx {_}.
Global Arguments retracted_stain {_}.
Global Arguments dllm_incomplete {_}.
Global Arguments priority {_}.
Global Arguments wait_queue_entry_time {_}.
Global Arguments req_finished {_}.
Global Arguments cache_protected_len {_}.
Global Arguments req_lock {_}.
Global Arguments extend_range {_}.

Definition set_extend_range {node} (start stop : Z) (r : SchedReq node) : SchedReq node :=
  mkSchedReq (rid r) (max_new_tokens r) (ignore_eos r) (origin_input_len r) (output_len r) (fill_len r)
    (prefix_indices r) (last_node r) (best_match_node r) (host_hit_length r) (storage_hit_length r)
    (swa_host_hit_length r) (mamba_host_hit_length r) (mamba_pool_idx r) (retracted_stain r)
    (dllm_incomplete r) (priority r) (wait_queue_entry_time r) (req_finished r) (cache_protected_len r)
    (req_lock r) (Some (start, stop)).
(** The request after a load-back: prefix, node and protected length. *)
Definition set_loaded {node} (idx : list Z) (n : node) (r : SchedReq node) : SchedReq node :=
  mkSchedReq (rid r) (max_new_tokens r) (ignore_eos r) (origin_input_len r) (output_len r) (fill_len r)
    idx n (best_match_node r) (host_hit_length r) (storage_hit_length r)
    (swa_host_hit_length r) (mamba_host_hit_length r) (mamba_pool_idx r) (retracted_stain r)
    (dllm_incomplete r) (priority r) (wait_queue_entry_time r) (req_finished r) (Z.of_nat (length idx))
    (req_lock r) (extend_range r).
Definition set_req_lock {node} (l : IncLockRefResult) (r : SchedReq node) : SchedReq node :=
  mkSchedReq (rid r) (max_new_tokens r) (ignore_eos r) (origin_input_len r) (output_len r) (fill_len r)
    (prefix_indices r) (last_node r) (best_match_node r) (host_hit_length r) (storage_hit_length r)
    (swa_host_hit_length r) (mamba_host_hit_length r) (mamba_pool_idx r) (retracted_stain r)
    (dllm_incomplete r) (priority r) (wait_queue_entry_time r) (req_finished r) (cache_protected_len r)
    l (extend_range r).

Definition needs_host_load_back {node} (r : SchedReq node) : bool :=
  (0 <? host_hit_length r) || (0 <? swa_host_hit_length r) || (0 <? mamba_host_hit_length r).

Inductive AddReqResult := CONTINUE | NO_TOKEN | OTHER.

Global Instance AddReqResult_eq_dec : EqDecision AddReqResult.
Proof. solve_decision. Defined.

(** What does not change during a pass.  [dllm_block_size] is [None] outside
    diffusion models ([dllm_config is None]). *)
Record AdderConfig := mkConfig {
  page_size : Z;
  prefill_tile_block_m : Z;
  new_token_ratio : Q;
  dllm_block_size : option Z;
  is_hybrid_swa : bool;
  is_all_swa : bool;
  is_hybrid_ssm_cache : bool;
  mamba_slot_cost : Z;
  preemption_threshold : Z;
  dsa_prefill_cp_in_seq_split : bool;
  max_running_requests : option Z;
  prefill_max_requests : option Z;
  max_prefill_bs : Z;
  waiting_queue_len : Z;
  sliding_window_size : Z;
  IS_HIP : bool;
  PREFILL_TILE_BUDGET : Z;
  tile_mode_compact : bool;
  CLIP_MAX_NEW_TOKENS : Z;
}.

(** The budgets. *)
Record Budget := mkBudget {
  rem_input_tokens : Z;
  rem_chunk_tokens : option Z;
  rem_dllm_tokens : Z;
  rem_total_token_offset : Q;
  cur_rem_token_offset : Z;
  rem_swa_token_offset : Z;
  rem_mamba_slots : option Z;
}.

Record HitLog := mkHitLog {
  log_hit_tokens : Z;
  reprocessed_log_hit_tokens : Z;
  log_device_hit_tokens : Z;
  log_host_hit_tokens : Z;
  log_storage_hit_tokens : Z;
  log_input_tokens : Z;
  reprocessed_log_input_tokens : Z;
}.

Record PrefillAdder (node : Type) := mkAdder {
  config : AdderConfig;
  budget : Budget;
  hits : HitLog;
  req_states : option (list (Q * Z));
  can_run_list : list (SchedReq node);
  preempt_list : list (SchedReq node);
  new_chunked_req : option (SchedReq node);
  running_batch : option (list (SchedReq node));
  prefill_delayer_single_pass : option SinglePassExecutor;
}.
Global Arguments mkAdder {_}.
Global Arguments config {_}.
Global Arguments budget {_}.
Global Arguments hits {_}.
Global Arguments req_states {_}.
Global Arguments can_run_list {_}.
Global Arguments preempt_list {_}.
Global Arguments new_chunked_req {_}.
Global Arguments running_batch {_}.
Global Arguments prefill_delayer_single_pass {_}.

Definition set_budget {node} (b : Budget) (a : PrefillAdder node) : PrefillAdder node :=
  mkAdder (config a) b (hits a) (req_states a) (can_run_list a) (preempt_list a) (new_chunked_req a)
    (running_batch a) (prefill_delayer_single_pass a).
Definition set_hits {node} (h : HitLog) (a : PrefillAdder node) : PrefillAdder node :=
  mkAdder (config a) (budget a) h (req_states a) (can_run_list a) (preempt_list a) (new_chunked_req a)
    (running_batch a) (prefill_delayer_single_pass a).
Definition set_req_states {node} (l : list (Q * Z)) (a : PrefillAdder node) : PrefillAdder node :=
  mkAdder (config a) (budget a) (hits a) (Some l) (can_run_list a) (preempt_list a) (new_chunked_req a)
    (running_batch a) (prefill_delayer_single_pass a).
Definition append_can_run {node} (r : SchedReq node) (a : PrefillAdder node) : PrefillAdder node :=
  mkAdder (config a) (budget a) (hits a) (req_states a) (can_run_list a ++ [r]) (preempt_list a)
    (new_chunked_req a) (running_batch a) (prefill_delayer_single_pass a).
Definition set_new_chunked_req {node} (r : SchedReq node) (a : PrefillAdder node) : PrefillAdder node :=
  mkAdder (config a) (budget a) (hits a) (req_states a) (can_run_list a) (preempt_list a) (Some r)
    (running_batch a) (prefill_delayer_single_pass a).
Definition set_preempted {node} (running preempted : list (SchedReq node)) (a : PrefillAdder node)
    : PrefillAdder node :=
  mkAdder (config a) (budget a) (hits a) (req_states a) (can_run_list a) (preempt_list a ++ preempted)
    (new_chunked_req a) (Some running) (prefill_delayer_single_pass a).
Definition set_delayer {node} (e : SinglePassExecutor) (a : PrefillAdder node) : PrefillAdder node :=
  mkAdder (config a) (budget a) (hits a) (req_states a) (can_run_list a) (preempt_list a)
    (new_chunked_req a) (running_batch a) (Some e).
Definition set_rem_total_token_offset (x : Q) (b : Budget) : Budget :=
  mkBudget (rem_input_tokens b) (rem_chunk_tokens b) (rem_dllm_tokens b) x (cur_rem_token_offset b)
    (rem_swa_token_offset b) (rem_mamba_slots b).

(** ** Query tiles of an extend batch *)

Definition max_of (l : list Z) : Z := match l with [] => 0 | x :: l => foldr Z.max x l end.
Definition sum_of (l : list Z) : Z := foldr Z.add 0 l.

Record TileMetrics := mkTiles {
  request_count : Z;
  extend_lens : list Z;
  q_tiles_per_request : list Z;
  max_extend_len : Z;
  sum_extend_len : Z;
  legacy_q_tiles_per_head : Z;
  compact_q_tiles_per_head : Z;
  saved_q_tiles_per_head : Z;
  saved_q_tile_ratio : option Q;
}.

Definition estimate_prefill_extend_tile_metrics (lens : list Z) (block_m : Z) : TileMetrics :=
  let normalized_lens := map (Z.max 0) lens in
  let q_tiles := map (λ l, if 0 <? l then ceil_div l block_m else 0) normalized_lens in
  let legacy_tiles := match q_tiles with [] => 0 | _ => Z.of_nat (length q_tiles) * max_of q_tiles end in
  let compact_tiles := sum_of q_tiles in
  let saved_tiles := legacy_tiles - compact_tiles in
  mkTiles (Z.of_nat (length normalized_lens)) normalized_lens q_tiles (max_of normalized_lens)
    (sum_of normalized_lens) legacy_tiles compact_tiles saved_tiles
    (if legacy_tiles =? 0 then None else Some (inject_Z saved_tiles / inject_Z legacy_tiles)%Q).

(** [split_cached_prefix_by_tier]: (device, host, storage). *)
Definition split_cached_prefix_by_tier (prefix_len host_hit_len storage_hit_len : Z) : Z * Z * Z :=
  let storage := Z.min host_hit_len storage_hit_len in
  let host := host_hit_len - storage in
  let device := Z.max 0 (prefix_len - host_hit_len) in
  (device, host, storage).

Section Adder.
Context {node S : Type} `{P : Pools node S}.
(** The ranks' exchange and the clock readings of the delayer. *)
Context (gather : Info → list Info) (clock : Clock).
Implicit Types (a : PrefillAdder node) (s : S) (r req : SchedReq node).

Definition prefix_size req : Z := Z.of_nat (length (prefix_indices req)).
Definition cand_extend_len req : Z := fill_len req - prefix_size req.

(** ** What is left *)

Definition get_running_request_total_token_offset (cfg : AdderConfig) r : Q :=
  let ratio := if ignore_eos r then 1%Q else new_token_ratio cfg in
  (inject_Z (Z.min (max_new_tokens r - output_len r) (CLIP_MAX_NEW_TOKENS cfg)) * ratio)%Q.

Definition available_and_evictable (cfg : AdderConfig) s : Z :=
  if is_all_swa cfg then swa_available_size s + swa_evictable_size s
  else if is_hybrid_swa cfg then full_available_size s + full_evictable_size s
  else if is_hybrid_ssm_cache cfg then available_size s + full_evictable_size s
  else available_size s + evictable_size s.

Definition rem_total_tokens a s : Q :=
  (inject_Z (available_and_evictable (config a) s) - rem_total_token_offset (budget a))%Q.
Definition cur_rem_tokens a s : Z :=
  available_and_evictable (config a) s - cur_rem_token_offset (budget a).
Definition rem_swa_tokens a s : Z :=
  swa_available_size s + swa_evictable_size s - rem_swa_token_offset (budget a).

Definition ceil_paged_tokens a (tokens : Z) : Z := ceil_div tokens (page_size (config a)) * page_size (config a).

Definition swa_reserved_tokens a (extend_input_len max_new swa_host_hit : Z) : Z :=
  let window := sliding_window_size (config a) in
  let headroom := Z.min (extend_input_len + max_new) window in
  let reserved := headroom + page_size (config a) in
  if 0 <? swa_host_hit then reserved + ceil_paged_tokens a swa_host_hit else reserved.

Definition swa_budget_for_req a (extend_input_len max_new swa_host_hit : Z) : Z :=
  let alloc := match rem_chunk_tokens (budget a) with
               | Some c => Z.min extend_input_len c
               | None => extend_input_len
               end in
  Z.max (alloc - sliding_window_size (config a)) 0 + swa_reserved_tokens a extend_input_len max_new swa_host_hit.

Definition swa_new_tokens a req : Z :=
  Z.min (Z.max (max_new_tokens req - output_len req) 0) (CLIP_MAX_NEW_TOKENS (config a)).

Definition swa_chunk_cap a s (max_new swa_host_hit : Z) : Z :=
  let cap := rem_swa_tokens a s - swa_reserved_tokens a 0 max_new swa_host_hit in
  if cap <=? 0 then 0 else cap / page_size (config a) * page_size (config a).

Definition swa_req_never_fits a s (extend_input_len max_new swa_host_hit : Z) : bool :=
  size_swa s <=? swa_budget_for_req a extend_input_len max_new swa_host_hit.

Definition mamba_gap_budget_for_req a req : Z :=
  if negb (mamba_slot_cost (config a) =? 0) && bool_decide (mamba_pool_idx req = None)
  then mamba_slot_cost (config a) else 0.

Definition align_truncated_hybrid_chunk a (prefix_len chunk_len : Z) : Z :=
  if negb (is_hybrid_ssm_cache (config a)) || (page_size (config a) =? 1) then chunk_len
  else
    let stop := (prefix_len + chunk_len) / page_size (config a) * page_size (config a) in
    Z.max (stop - prefix_len) 0.

Definition budget_state a s : AddReqResult :=
  let no_token := Qle_bool (rem_total_tokens a s) 0 || (cur_rem_tokens a s <=? 0) in
  let no_token := if negb no_token && is_hybrid_swa (config a) then rem_swa_tokens a s <=? 0 else no_token in
  let no_token := match rem_mamba_slots (budget a) with
                  | Some n => if negb no_token then n <=? 0 else no_token
                  | None => no_token
                  end in
  if no_token then NO_TOKEN
  else if rem_input_tokens (budget a) <=? 0 then OTHER
  else
    match dllm_block_size (config a) with
    | Some _ => if rem_dllm_tokens (budget a) <=? 0 then OTHER else CONTINUE
    | None =>
        match rem_chunk_tokens (budget a) with
        | Some c => if c <=? 0 then OTHER else CONTINUE
        | None => CONTINUE
        end
    end.

(** ** A pass starts *)

(** [isinstance] tests and module constants are part of the configuration. *)
Definition adder_init (cfg : AdderConfig) (dllm_max_running_requests : Z) (running : option (list (SchedReq node)))
    (rem_input : Z) (rem_chunk : option Z) (num_mixed_decode_tokens : Z)
    (delayer : option SinglePassExecutor) s : PrefillAdder node :=
  let dllm := match dllm_block_size cfg with
              | Some b => dllm_max_running_requests * b
              | None => 0
              end in
  let rem_chunk := match rem_chunk with Some c => Some (c - num_mixed_decode_tokens) | None => None end in
  let total := match running with
               | Some reqs => (inject_Z num_mixed_decode_tokens
                               + foldr (λ r x, get_running_request_total_token_offset cfg r + x) 0 reqs)%Q
               | None => inject_Z num_mixed_decode_tokens
               end in
  let slots := if mamba_slot_cost cfg =? 0 then None
               else Some (mamba_schedulable_size s
                          + (if is_hybrid_ssm_cache cfg then mamba_evictable_size s else 0)) in
  mkAdder cfg (mkBudget (rem_input - num_mixed_decode_tokens) rem_chunk dllm total num_mixed_decode_tokens 0 slots)
    (mkHitLog 0 0 0 0 0 0 0) None [] [] None running delayer.

(** ** Charging a request *)

Definition log_hits (prefix_len extend_input_len : Z) (retracted : bool) (host_hit_len storage_hit_len : Z)
    (h : HitLog) : HitLog :=
  let hit := log_hit_tokens h + prefix_len in
  let input := log_input_tokens h + extend_input_len in
  if retracted then
    mkHitLog hit (reprocessed_log_hit_tokens h + prefix_len) (log_device_hit_tokens h)
      (log_host_hit_tokens h) (log_storage_hit_tokens h) input
      (reprocessed_log_input_tokens h + extend_input_len)
  else if 0 <? prefix_len then
    let '(device, host, storage) := split_cached_prefix_by_tier prefix_len host_hit_len storage_hit_len in
    mkHitLog hit (reprocessed_log_hit_tokens h) (log_device_hit_tokens h + device)
      (log_host_hit_tokens h + host) (log_storage_hit_tokens h + storage) input
      (reprocessed_log_input_tokens h)
  else mkHitLog hit (reprocessed_log_hit_tokens h) (log_device_hit_tokens h)
         (log_host_hit_tokens h) (log_storage_hit_tokens h) input (reprocessed_log_input_tokens h).

Definition update_prefill_budget (prefix_len extend_input_len max_new : Z) (retracted : bool)
    (mamba_gap_reserve host_hit_len storage_hit_len : Z) a : PrefillAdder node :=
  let b := budget a in
  let extend_input_len := ceil_paged_tokens a extend_input_len in
  let page_overhead := page_size (config a) in
  let total := (rem_total_token_offset b
                + inject_Z (extend_input_len + max_new + page_overhead + mamba_gap_reserve))%Q in
  let cur := cur_rem_token_offset b + (extend_input_len + page_overhead + mamba_gap_reserve) in
  let slots := match rem_mamba_slots b with
               | Some n => if mamba_gap_reserve =? 0 then Some n else Some (n - 1)
               | None => None
               end in
  let swa := if is_hybrid_swa (config a)
             then rem_swa_token_offset b + swa_budget_for_req a extend_input_len max_new 0
             else rem_swa_token_offset b in
  let '(dllm, chunk) :=
    match dllm_block_size (config a) with
    | Some _ => (rem_dllm_tokens b - extend_input_len, rem_chunk_tokens b)
    | None => (rem_dllm_tokens b,
               match rem_chunk_tokens b with Some c => Some (c - extend_input_len) | None => None end)
    end in
  set_hits (log_hits prefix_len extend_input_len retracted host_hit_len storage_hit_len (hits a))
    (set_budget (mkBudget (rem_input_tokens b - extend_input_len) chunk dllm total cur swa slots) a).

(** ** The tile budget of AMD devices *)

(** [getattr(req, "extend_input_len", 0)]: requests have no such attribute. *)
Definition admitted_extend_lens a : list Z := map (λ _, 0) (can_run_list a).

Definition candidate_tile_metrics a (candidate : Z) : TileMetrics :=
  estimate_prefill_extend_tile_metrics (admitted_extend_lens a ++ [candidate]) (prefill_tile_block_m (config a)).

Definition check_prefill_tile_budget a (candidate : Z) : option AddReqResult :=
  if negb (IS_HIP (config a)) || (PREFILL_TILE_BUDGET (config a) <=? 0) then None
  else
    match can_run_list a with
    | [] => None
    | _ =>
        let metrics := candidate_tile_metrics a candidate in
        let metric := if tile_mode_compact (config a) then compact_q_tiles_per_head metrics
                      else legacy_q_tiles_per_head metrics in
        if metric <=? PREFILL_TILE_BUDGET (config a) then None else Some OTHER
    end.

(** [negotiate_should_allow_prefill] on the pass's delayer, when there is one. *)
Definition negotiate_prefill a : res (PrefillAdder node * bool) :=
  match prefill_delayer_single_pass a with
  | None => Ok (a, true)
  | Some e =>
      let! reqs := res_of_option AttributeError (running_batch a) in
      let! limit := res_of_option TypeError (max_running_requests (config a)) in
      let '(e, allow) := negotiate_should_allow_prefill gather clock true (Z.of_nat (length reqs))
                           (max_prefill_bs (config a)) limit (waiting_queue_len (config a)) e in
      Ok (set_delayer e a, allow)
  end.

(** ** Diffusion models *)

Definition get_dllm_remain_tokens a s (block_size : Z) : Z :=
  let rem := Z.min (Z.min (rem_dllm_tokens (budget a)) block_size) (int_of_float (rem_total_tokens a s)) in
  if rem <=? 0 then rem_dllm_tokens (budget a) else rem.

Definition add_dllm_req (block_size : Z) req (prefix_len : Z) a : PrefillAdder node * SchedReq node :=
  let trunc_len := Z.min (rem_dllm_tokens (budget a)) block_size / page_size (config a)
                   * page_size (config a) in
  let req := set_extend_range prefix_len (prefix_len + trunc_len) req in
  (update_prefill_budget prefix_len trunc_len 0 (retracted_stain req) (mamba_gap_budget_for_req a req)
     (host_hit_length req) (storage_hit_length req) (append_can_run req a), req).

Definition add_dllm_staging_req req a s : res (PrefillAdder node * SchedReq node * AddReqResult) :=
  match dllm_block_size (config a) with
  | None => Raise AssertionError
  | Some block_size =>
      let rem := get_dllm_remain_tokens a s block_size in
      if rem <=? 0 then Ok (a, req, NO_TOKEN)
      else
        let cand := cand_extend_len req in
        if dllm_incomplete req && (rem <? cand) then Ok (a, req, NO_TOKEN)
        else
          let truncated := rem <? cand in
          let new_len := Z.min cand rem in
          let req := set_extend_range (prefix_size req) (prefix_size req + new_len) req in
          let max_new := if truncated then 0 else Z.min (max_new_tokens req) (CLIP_MAX_NEW_TOKENS (config a)) in
          let a := update_prefill_budget 0 new_len max_new (retracted_stain req)
                     (mamba_gap_budget_for_req a req) 0 0 (append_can_run req a) in
          Ok (a, req, if get_dllm_remain_tokens a s block_size <=? 0 then NO_TOKEN else CONTINUE)
  end.

(** ** The next chunk of a chunked request *)

(** The tokens the chunk may use; [None]: the request is parked. *)
Definition chunk_rem_tokens a s : res (option Z) :=
  match dllm_block_size (config a) with
  | Some block_size => Ok (Some (get_dllm_remain_tokens a s block_size))
  | None =>
      let! chunk := res_of_option TypeError (rem_chunk_tokens (budget a)) in
      let rem := Z.min chunk (int_of_float (rem_total_tokens a s)) in
      let rem := if is_hybrid_swa (config a)
                 then Z.min rem (rem_swa_tokens a s - page_size (config a)) else rem in
      if rem <=? 0 then Ok (if is_hybrid_swa (config a) then None else Some chunk)
      else Ok (Some rem)
  end.

(** The request is returned while it has more to prefill. *)
Definition add_chunked_req req a s : res (PrefillAdder node * SchedReq node * bool) :=
  let! rem := chunk_rem_tokens a s in
  match rem with
  | None => Ok (a, req, true)
  | Some rem =>
      let! (a, _) := negotiate_prefill a in
      let cand := cand_extend_len req in
      let truncated := rem <? cand in
      let new_len := Z.min cand rem in
      let new_len := if truncated then align_truncated_hybrid_chunk a (prefix_size req) new_len else new_len in
      if truncated && (new_len <=? 0) then Ok (a, req, true)
      else
        let req := set_extend_range (prefix_size req) (prefix_size req + new_len) req in
        let max_new := if truncated then 0 else Z.min (max_new_tokens req) (CLIP_MAX_NEW_TOKENS (config a)) in
        let a := update_prefill_budget 0 new_len max_new (retracted_stain req)
                   (mamba_gap_budget_for_req a req) 0 0 (append_can_run req a) in
        Ok (a, req, truncated)
  end.

(** ** Requests that ignore EOS, without a prefix cache *)

(** The pair [add_req_state] adds, if any. *)
Definition req_state (cfg : AdderConfig) r : option (Q * Z) :=
  let ratio := if ignore_eos r then 1%Q else new_token_ratio cfg in
  let tokens_left := (inject_Z (max_new_tokens r) * ratio - inject_Z (output_len r))%Q in
  if Qle_bool tokens_left 0 then None else Some (tokens_left, origin_input_len r + output_len r).

(** The index at which the loop [for i in range(len(req_states))] stops. *)
Fixpoint insert_index (tokens_left : Q) (states : list (Q * Z)) (i last : nat) : nat :=
  match states with
  | [] => last
  | st :: states => if Qle_bool tokens_left st.1 then i else insert_index tokens_left states (i + 1)%nat i
  end.
Definition insert_sort_state (st : Q * Z) (states : list (Q * Z)) : list (Q * Z) :=
  let i := insert_index st.1 states 0 0 in
  take i states ++ st :: drop i states.

Definition update_req_states a req : list (Q * Z) :=
  match req_states a with
  | None =>
      sort_by (qkey_le fst)
        (omap (req_state (config a)) (req :: default [] (running_batch a) ++ can_run_list a))
  | Some states =>
      match req_state (config a) req with
      | None => states
      | Some st => insert_sort_state st states
      end
  end.

(** The simulated decoding never runs out of tokens. *)
Fixpoint states_fit (cur_rem tokens_freed : Q) (states : list (Q * Z)) : bool :=
  match states with
  | [] => true
  | (tokens_left, tokens_occupied) :: rest =>
      let bs := inject_Z (Z.of_nat (length states)) in
      let min_free_tokens := (cur_rem + tokens_freed - tokens_left * bs)%Q in
      if Qle_bool min_free_tokens (1 * bs) then false
      else states_fit cur_rem (tokens_freed + inject_Z tokens_occupied) rest
  end.

(** The admission once the gates are passed. *)
Definition admit_ignore_eos req a s : res (PrefillAdder node * SchedReq node * AddReqResult) :=
  let cand := cand_extend_len req in
  let gap := mamba_gap_budget_for_req a req in
  match dllm_block_size (config a) with
  | Some block_size =>
      if rem_dllm_tokens (budget a) <=? 0 then Ok (a, req, OTHER)
      else
        match check_prefill_tile_budget a cand with
        | Some stop => Ok (a, req, stop)
        | None => let '(a, req) := add_dllm_req block_size req 0 a in Ok (a, req, budget_state a s)
        end
  | None =>
      if match rem_chunk_tokens (budget a) with Some c => cand <=? c | None => true end then
        match check_prefill_tile_budget a cand with
        | Some stop => Ok (a, req, stop)
        | None =>
            let req := set_extend_range (prefix_size req) (fill_len req) req in
            let a := update_prefill_budget 0 cand (Z.min (max_new_tokens req) (CLIP_MAX_NEW_TOKENS (config a)))
                       (retracted_stain req) gap 0 0 (append_can_run req a) in
            Ok (a, req, budget_state a s)
        end
      else
        let chunk := default 0 (rem_chunk_tokens (budget a)) in
        if chunk <=? 0 then Ok (a, req, OTHER)
        else
          let trunc_len := align_truncated_hybrid_chunk a (prefix_size req) chunk in
          if trunc_len <=? 0 then Ok (a, req, OTHER)
          else
            match check_prefill_tile_budget a trunc_len with
            | Some stop => Ok (a, req, stop)
            | None =>
                assert_ (prefix_size req =? 0) ;;!
                let req := set_extend_range (prefix_size req) (prefix_size req + trunc_len) req in
                let a := update_prefill_budget 0 trunc_len 0 (retracted_stain req) gap 0 0
                           (set_new_chunked_req req (append_can_run req a)) in
                Ok (a, req, budget_state a s)
            end
  end.

Definition add_one_req_ignore_eos req a s : res (PrefillAdder node * SchedReq node * AddReqResult) :=
  let cand := cand_extend_len req in
  let paged_input := ceil_paged_tokens a cand + mamba_gap_budget_for_req a req in
  if (cur_rem_tokens a s <? paged_input) || negb (Qle_bool (inject_Z paged_input) (rem_total_tokens a s))
  then Ok (a, req, NO_TOKEN)
  else if is_hybrid_swa (config a)
          && (rem_swa_tokens a s <? swa_budget_for_req a cand (swa_new_tokens a req) 0)
  then Ok (a, req, NO_TOKEN)
  else
    let a := set_req_states (update_req_states a req) a in
    if negb (is_hybrid_swa (config a))
       && negb (states_fit (inject_Z (cur_rem_tokens a s - ceil_paged_tokens a cand)) 0 (default [] (req_states a)))
    then Ok (a, req, NO_TOKEN)
    else
      let! (a, allow) := negotiate_prefill a in
      if (allow : bool) then admit_ignore_eos req a s else Ok (a, req, OTHER).

(** ** One waiting request *)

(** The SWA gate: [None] rejects; otherwise the limit for the chunk. *)
Definition swa_gate a s req (real_input_tokens : Z) (limit : option Z) : option (option Z) :=
  if negb (is_hybrid_swa (config a)) then Some limit
  else
    let new := swa_new_tokens a req in
    let host := swa_host_hit_length req in
    if rem_swa_tokens a s <=? swa_budget_for_req a real_input_tokens new host then
      if negb (swa_req_never_fits a s real_input_tokens new host) then None
      else
        let swa_cap := swa_chunk_cap a s new host in
        match rem_chunk_tokens (budget a) with
        | None => None
        | Some c => if swa_cap <=? 0 then None else Some (Some (Z.min c swa_cap))
        end
    else Some limit.

Definition req_inc_lock_ref a req s : res (SchedReq node * S) :=
  let! (s, result) := inc_lock_ref (last_node req) s in
  let uuid := if is_hybrid_swa (config a) then swa_uuid_for_lock result
              else swa_uuid_for_lock (req_lock req) in
  Ok (set_req_lock (mkLockResult uuid []) req, s).

Definition load_back req s : res (SchedReq node * S) :=
  if needs_host_load_back req then
    let! (new_indices, n, s) := init_load_back (best_match_node req) (host_hit_length req) s in
    Ok (set_loaded (prefix_indices req ++ new_indices) n req, s)
  else Ok (req, s).

(** The length of a truncated chunk; [None] when nothing can be prefilled. *)
Definition truncate_chunk a req (limit : Z) (truncation_align_size : option Z) : option Z :=
  let p := page_size (config a) in
  let trunc_len := limit / p * p in
  if trunc_len <=? 0 then None
  else
    let aligned := match truncation_align_size with
                   | Some t => if trunc_len <? t then None else Some (t * (trunc_len / t))
                   | None => Some trunc_len
                   end in
    match aligned with
    | None => None
    | Some trunc_len =>
        let now_input_len := (trunc_len + prefix_size req) / p * p in
        let trunc_len := now_input_len - prefix_size req in
        if trunc_len <=? 0 then None else Some trunc_len
    end.

Abbreviation admission := (PrefillAdder node * SchedReq node * S * option AddReqResult)%type.

(** Append the request, take its lock and charge it. *)
Definition admit_range (start stop charged max_new : Z) (chunked : bool) req a s : res admission :=
  let req := set_extend_range start stop req in
  let! (req', s) := req_inc_lock_ref a req s in
  let a := append_can_run req' a in
  let a := if chunked then set_new_chunked_req req' a else a in
  Ok (update_prefill_budget start charged max_new (retracted_stain req) (mamba_gap_budget_for_req a req)
        (host_hit_length req) (storage_hit_length req) a, req', s, None).

(** The body of the [with self._lock_node(...)] block after the negotiation;
    [Some res] is an early return. *)
Definition admit_one_req req (limit truncation_align_size : option Z) a s : res admission :=
  let! (req, s) := load_back req s in
  let prefix_len := prefix_size req in
  let input_tokens := ceil_paged_tokens a (cand_extend_len req) in
  if match rem_chunk_tokens (budget a) with Some _ => false | None => true end
     && negb (bool_decide (can_run_list a = []))
     && (rem_input_tokens (budget a) <=? input_tokens)
  then Ok (a, req, s, Some OTHER)
  else
    match dllm_block_size (config a) with
    | Some block_size =>
        if rem_dllm_tokens (budget a) <=? 0 then Ok (a, req, s, Some OTHER)
        else
          assert_ (bool_decide (truncation_align_size = None)) ;;!
          match check_prefill_tile_budget a input_tokens with
          | Some stop => Ok (a, req, s, Some stop)
          | None =>
              let trunc_len := Z.min (rem_dllm_tokens (budget a)) block_size / page_size (config a)
                               * page_size (config a) in
              admit_range prefix_len (prefix_len + trunc_len) trunc_len 0 false req a s
          end
    | None =>
        if match limit with Some l => input_tokens <=? l | None => true end then
          match check_prefill_tile_budget a input_tokens with
          | Some stop => Ok (a, req, s, Some stop)
          | None =>
              admit_range prefix_len (fill_len req) input_tokens
                (Z.min (max_new_tokens req) (CLIP_MAX_NEW_TOKENS (config a))) false req a s
          end
        else
          match truncate_chunk a req (default 0 limit) truncation_align_size with
          | None => Ok (a, req, s, Some OTHER)
          | Some trunc_len =>
              match check_prefill_tile_budget a trunc_len with
              | Some stop => Ok (a, req, s, Some stop)
              | None => admit_range prefix_len (prefix_len + trunc_len) trunc_len 0 true req a s
              end
          end
    end.

(** The [with] block: the gates again under the lock, then the admission. *)
Definition locked_admission req (total_tokens real_input_tokens : Z) (limit truncation_align_size : option Z) a s
    : res admission :=
  if Qle_bool (rem_total_tokens a s) (inject_Z total_tokens) then Ok (a, req, s, Some NO_TOKEN)
  else
    match swa_gate a s req real_input_tokens limit with
    | None => Ok (a, req, s, Some NO_TOKEN)
    | Some limit =>
        let! (a, allow) := negotiate_prefill a in
        if (allow : bool) then admit_one_req req limit truncation_align_size a s
        else Ok (a, req, s, Some OTHER)
    end.

Definition add_one_req req (truncation_align_size : option Z) a s
    : res (PrefillAdder node * SchedReq node * S * AddReqResult) :=
  if dsa_prefill_cp_in_seq_split (config a) && negb (bool_decide (can_run_list a = []))
  then Ok (a, req, s, OTHER)
  else if match prefill_max_requests (config a) with
          | Some x => x <=? Z.of_nat (length (can_run_list a))
          | None => false
          end
  then Ok (a, req, s, OTHER)
  else if ignore_eos req && tree_cache_disable s then
    let! (a, req, r) := add_one_req_ignore_eos req a s in Ok (a, req, s, r)
  else
    let max_new := Z.min (Z.max (max_new_tokens req - output_len req) 0) (CLIP_MAX_NEW_TOKENS (config a)) in
    let cand := cand_extend_len req in
    let total_tokens := cand + max_new + page_size (config a) + mamba_gap_budget_for_req a req in
    let real_input_tokens := ceil_paged_tokens a (cand - host_hit_length req) in
    if Qle_bool (rem_total_tokens a s) (inject_Z total_tokens) then Ok (a, req, s, NO_TOKEN)
    else
      match swa_gate a s req real_input_tokens (rem_chunk_tokens (budget a)) with
      | None => Ok (a, req, s, NO_TOKEN)
      | Some limit =>
          if match rem_chunk_tokens (budget a) with Some _ => false | None => true end
             && negb (bool_decide (can_run_list a = []))
             && (rem_input_tokens (budget a) <=? real_input_tokens)
          then Ok (a, req, s, OTHER)
          else
            let lock := last_node req in
            let! (s, result) := inc_lock_ref lock s in
            let params := if is_tree_cache s then Some (to_dec_params result) else None in
            let! (a, req, s, early) :=
              locked_admission req total_tokens real_input_tokens limit truncation_align_size a s in
            let! s := dec_lock_ref lock params s in
            Ok (a, req, s, match early with Some r => r | None => budget_state a s end)
      end.

(** ** Preemption *)

(** Take running requests, most preemptible first, until enough is freed. *)
Fixpoint pick_preemptible (cfg : AdderConfig) req (sign : Z) (to_remove : Q) (sorted : list (SchedReq node))
    : list (SchedReq node) * Q :=
  match sorted with
  | [] => ([], to_remove)
  | r :: sorted =>
      if preemption_threshold cfg <? (priority req - priority r) * (- sign) then
        let to_remove := (to_remove - get_running_request_total_token_offset cfg r)%Q in
        if Qle_bool to_remove 0 then ([r], to_remove)
        else let '(picked, x) := pick_preemptible cfg req sign to_remove sorted in (r :: picked, x)
      else ([], to_remove)
  end.

(** The calls [release_req(i, remaining, server_args)], in order. *)
Fixpoint release_calls (picked : list Z) (reqs : list (SchedReq node)) (i n_reqs released : nat) : list (nat * nat) :=
  match reqs with
  | [] => []
  | r :: reqs =>
      if bool_decide (rid r ∈ picked)
      then (i, (n_reqs - (released + 1))%nat) :: release_calls picked reqs (i + 1) n_reqs (released + 1)
      else release_calls picked reqs (i + 1) n_reqs released
  end.

Definition preempt_to_schedule req (low_priority_values_first : bool) a s
    : res (PrefillAdder node * list (nat * nat) * bool) :=
  let sign := if low_priority_values_first then 1 else -1 in
  let! reqs := res_of_option AttributeError (running_batch a) in
  let valid := List.filter (λ r, negb (bool_decide (rid r ∈ map rid (preempt_list a))) && negb (req_finished r)) reqs in
  let sorted := sort_by (lex_le (λ r, inject_Z (priority r * (- sign))) (λ r, - wait_queue_entry_time r)%Q) valid in
  let to_remove := (inject_Z (cand_extend_len req + Z.min (max_new_tokens req) (CLIP_MAX_NEW_TOKENS (config a)))
                    - rem_total_tokens a s)%Q in
  let '(picked, to_remove) := pick_preemptible (config a) req sign to_remove sorted in
  if bool_decide (picked = []) || negb (Qle_bool to_remove 0) then Ok (a, [], false)
  else
    let ids := map rid picked in
    let freed := foldr (λ r x, (get_running_request_total_token_offset (config a) r + x)%Q) 0%Q
                   (List.filter (λ r, bool_decide (rid r ∈ ids)) reqs) in
    let b := budget a in
    let a := set_budget (set_rem_total_token_offset (rem_total_token_offset b - freed)%Q b) a in
    Ok (set_preempted (List.filter (λ r, negb (bool_decide (rid r ∈ ids))) reqs) picked a,
        release_calls ids reqs 0 (length reqs) 0, true).
End Adder.
