(* ===== verification/AdderBudget.v ===== *)
(** * A prefill pass stays within the memory

    The cache promises through [PoolsLaws] what taking and releasing locks does to
    its sizes.  Against that interface: the counters of [PrefillAdder] are exactly
    the sum of what the admitted requests were charged, and after any sequence of
    [add_one_req] calls the pages the admitted requests are about to allocate fit in
    the available and evictable memory. *)

From stdpp Require Import base tactics numbers list.
From Stdlib Require Import ZArith QArith Lia Lqa.
From S2P Require Import Prelude PySort PrefillDelayer PrefillAdder.

Local Open Scope Z_scope.

(** The sizes and flags admission reads. *)
Definition sizes {node S} `{Pools node S} (s : S) :=
  (available_size s, full_available_size s, swa_available_size s, size_swa s, evictable_size s,
   full_evictable_size s, swa_evictable_size s, tree_cache_disable s, is_tree_cache s).

(** A lock on a valid node can be taken; releasing it restores the sizes.  A second
    lock on the same node changes no size, and keeps the node locked when the first
    one is released. *)
Class PoolsLaws (node S : Type) `{P : Pools node S} := {
  pools_wf : S → Prop;
  valid_node : S → node → Prop;
  lock_law : ∀ s n, pools_wf s → valid_node s n →
    ∃ s1 r1, inc_lock_ref n s = Ok (s1, r1)
      ∧ tree_cache_disable s1 = tree_cache_disable s
      ∧ (∀ p, ∃ s0, dec_lock_ref n p s1 = Ok s0 ∧ pools_wf s0 ∧ sizes s0 = sizes s
           ∧ ∀ m, valid_node s m → valid_node s0 m)
      ∧ (∃ s2 r2, inc_lock_ref n s1 = Ok (s2, r2) ∧ sizes s2 = sizes s1
           ∧ ∀ p, ∃ s3, dec_lock_ref n p s2 = Ok s3 ∧ pools_wf s3 ∧ sizes s3 = sizes s1
               ∧ ∀ m, valid_node s m → valid_node s3 m);
}.

Section Budget.
Context {node S : Type} `{PL : PoolsLaws node S}.
Context (gather : Info → list Info) (clock : Clock).
Implicit Types (a : PrefillAdder node) (s : S) (r req : SchedReq node).

Definition ext_len r : Z := match extend_range r with Some (x, y) => y - x | None => 0 end.
(** The pages the request is about to fill, in tokens. *)
Definition pages_of a r : Z := ceil_paged_tokens a (ext_len r).
Definition total_pages a : Z := sum_of (map (pages_of a) (can_run_list a)).
Definition charge_of a r : Z := pages_of a r + page_size (config a) + mamba_gap_budget_for_req a r.

(** The counters are exactly what was charged on top of [base]. *)
Record booked (base : Z) a : Prop := {
  bk_cur : cur_rem_token_offset (budget a) = base + sum_of (map (charge_of a) (can_run_list a));
  bk_total : (inject_Z (cur_rem_token_offset (budget a)) <= rem_total_token_offset (budget a))%Q;
}.

Definition fits (base : Z) a s : Prop := base + total_pages a ≤ available_and_evictable (config a) s.

(** An autoregressive (non-diffusion) configuration; with a delayer, what its
    negotiation reads is there. *)
Record adder_ok a : Prop := {
  ok_page : 0 < page_size (config a);
  ok_clip : 0 ≤ CLIP_MAX_NEW_TOKENS (config a);
  ok_cost : 0 ≤ mamba_slot_cost (config a);
  ok_ar : dllm_block_size (config a) = None;
  ok_delayer : prefill_delayer_single_pass a = None
    ∨ (running_batch a ≠ None ∧ max_running_requests (config a) ≠ None);
}.

(** A waiting request with no host hit to load back. *)
Record req_ok s req : Prop := {
  rq_node : valid_node s (last_node req);
  rq_new : 0 ≤ max_new_tokens req;
  rq_host : needs_host_load_back req = false;
  rq_prefix : tree_cache_disable s = true → prefix_indices req = [];
}.

Lemma ceil_paged_bounds a x : 0 < page_size (config a) →
  x ≤ ceil_paged_tokens a x < x + page_size (config a).
Proof. intros. unfold ceil_paged_tokens, ceil_div. lia. Qed.
Lemma ceil_paged_mono a x y : 0 < page_size (config a) → x ≤ y → ceil_paged_tokens a x ≤ ceil_paged_tokens a y.
Proof.
  intros. unfold ceil_paged_tokens, ceil_div.
  apply Z.mul_le_mono_nonneg_r; [lia|]. apply Z.opp_le_mono. rewrite !Z.opp_involutive.
  apply Z.div_le_mono; lia.
Qed.
Lemma ceil_paged_idem a x : 0 < page_size (config a) →
  ceil_paged_tokens a (ceil_paged_tokens a x) = ceil_paged_tokens a x.
Proof.
  intros. unfold ceil_paged_tokens, ceil_div. f_equal.
  rewrite <-Z.mul_opp_l, Z.div_mul by lia. lia.
Qed.

Lemma gap_nonneg a req : adder_ok a → 0 ≤ mamba_gap_budget_for_req a req.
Proof. intros [? ? ? ? ?]. unfold mamba_gap_budget_for_req. destruct (_ && _); lia. Qed.

Lemma sum_of_app l1 l2 : sum_of (l1 ++ l2) = sum_of l1 + sum_of l2.
Proof. unfold sum_of. induction l1; simpl; lia. Qed.

Lemma pages_le_charge a (l : list (SchedReq node)) : adder_ok a →
  sum_of (map (pages_of a) l) ≤ sum_of (map (charge_of a) l).
Proof.
  intros Hok. induction l as [|r l IH]; simpl; [lia|]. pose proof (gap_nonneg a r Hok).
  pose proof (ok_page a Hok). unfold charge_of at 1. unfold sum_of in *. simpl. lia.
Qed.

Lemma available_sizes cfg s s' : sizes s' = sizes s →
  available_and_evictable cfg s' = available_and_evictable cfg s.
Proof. unfold sizes. intros [= H1 H2 H3 H4 H5 H6 H7 H8 H9]. unfold available_and_evictable. by rewrite H1, H2, H3, H5, H6, H7. Qed.

Lemma charge_config a a' r : config a' = config a → charge_of a' r = charge_of a r ∧ pages_of a' r = pages_of a r.
Proof.
  intros H. unfold charge_of, pages_of, ceil_paged_tokens, mamba_gap_budget_for_req. by rewrite H.
Qed.

Lemma sum_charge_config a a' (l : list (SchedReq node)) : config a' = config a →
  sum_of (map (charge_of a') l) = sum_of (map (charge_of a) l)
  ∧ sum_of (map (pages_of a') l) = sum_of (map (pages_of a) l).
Proof. intros H. split; f_equal; apply map_ext; intros r; by destruct (charge_config a a' r H). Qed.

(** The effect of the charge on the counters that bound the memory. *)
Lemma update_prefill_budget_eq pl charged max_new rs gap hl sl a :
  let a' := update_prefill_budget pl charged max_new rs gap hl sl a in
  let x := ceil_paged_tokens a charged + page_size (config a) + gap in
  config a' = config a ∧ can_run_list a' = can_run_list a
  ∧ prefill_delayer_single_pass a' = prefill_delayer_single_pass a ∧ running_batch a' = running_batch a
  ∧ cur_rem_token_offset (budget a') = cur_rem_token_offset (budget a) + x
  ∧ rem_total_token_offset (budget a') =
      (rem_total_token_offset (budget a) + inject_Z (ceil_paged_tokens a charged + max_new + page_size (config a) + gap))%Q.
Proof. unfold update_prefill_budget. destruct (dllm_block_size (config a)); by split_and!. Qed.

(** Charging a request that was appended books exactly its pages and overhead. *)
Lemma booked_update base a a1 r pl charged max_new rs gap hl sl :
  booked base a → 0 ≤ max_new →
  config a1 = config a → budget a1 = budget a → can_run_list a1 = can_run_list a ++ [r] →
  gap = mamba_gap_budget_for_req a r → ceil_paged_tokens a charged = pages_of a r →
  booked base (update_prefill_budget pl charged max_new rs gap hl sl a1).
Proof.
  intros [Hc Ht] Hm Hcfg Hb Hl -> Hch.
  destruct (update_prefill_budget_eq pl charged max_new rs (mamba_gap_budget_for_req a r) hl sl a1)
    as (E1&E2&_&_&E3&E4). cbv zeta in *.
  assert (ceil_paged_tokens a1 charged = pages_of a r) as Hch1 by (rewrite <-Hch; unfold ceil_paged_tokens; by rewrite Hcfg).
  rewrite Hch1, Hcfg, Hb in E3, E4. rewrite Hcfg in E1. split.
  - rewrite E3, E2, Hl. destruct (sum_charge_config a _ (can_run_list a ++ [r]) E1) as [-> _].
    rewrite map_app, sum_of_app, Hc. simpl. unfold charge_of at 3. lia.
  - rewrite E3, E4, !inject_Z_plus in *. assert (inject_Z 0 <= inject_Z max_new)%Q by (by rewrite <-Zle_Qle). change (inject_Z 0) with 0%Q in *. lra.
Qed.

Lemma negotiate_prefill_ok a : adder_ok a →
  ∃ a' allow, negotiate_prefill gather clock a = Ok (a', allow) ∧ config a' = config a ∧ budget a' = budget a
    ∧ can_run_list a' = can_run_list a ∧ adder_ok a'.
Proof.
  intros Hok. unfold negotiate_prefill. destruct (prefill_delayer_single_pass a) as [e|] eqn:E; [|by eauto 10].
  destruct (ok_delayer a Hok) as [?|[Hr Hm]]; [congruence|].
  destruct (running_batch a) as [reqs|] eqn:Er; [|done]. destruct (max_running_requests (config a)) as [m|] eqn:Em; [|done].
  res_step. destruct (negotiate_should_allow_prefill _ _ _ _ _ _ _ _) as [e' allow].
  eexists _, _. split; [done|]. split_and!; try done.
  destruct Hok. split; try done. right. simpl. by rewrite Er, Em.
Qed.
(** ** One admission *)

(** [a'] is [a] with the requests [new] admitted and booked. *)
Record after (base : Z) a a' (new : list (SchedReq node)) : Prop := {
  af_booked : booked base a';
  af_config : config a' = config a;
  af_list : can_run_list a' = can_run_list a ++ new;
  af_ok : adder_ok a';
}.

Lemma after_refl base a : adder_ok a → booked base a → after base a a [].
Proof. intros. split; try done. by rewrite app_nil_r. Qed.

Lemma after_same base a a1 a' new : config a1 = config a → can_run_list a1 = can_run_list a →
  after base a1 a' new → after base a a' new.
Proof. intros H1 H2 [? ? ? ?]. split; try done; congruence. Qed.

Lemma same_booked base a a1 : config a1 = config a → budget a1 = budget a →
  can_run_list a1 = can_run_list a → booked base a → booked base a1.
Proof.
  intros H1 H2 H3 [? ?]. split; rewrite H2; [|done]. rewrite H3.
  by destruct (sum_charge_config a a1 (can_run_list a) H1) as [-> _].
Qed.

Lemma same_ok a a1 : config a1 = config a → running_batch a1 = running_batch a →
  prefill_delayer_single_pass a1 = prefill_delayer_single_pass a → adder_ok a → adder_ok a1.
Proof. intros H1 H2 H3 []. split; by rewrite ?H1, ?H2, ?H3. Qed.

(** Appending a request and charging it. *)
Lemma after_update base a a1 r pl charged max_new rs gap hl sl :
  adder_ok a → booked base a → 0 ≤ max_new →
  config a1 = config a → budget a1 = budget a → can_run_list a1 = can_run_list a ++ [r] →
  running_batch a1 = running_batch a →
  prefill_delayer_single_pass a1 = prefill_delayer_single_pass a →
  gap = mamba_gap_budget_for_req a r → ceil_paged_tokens a charged = pages_of a r →
  after base a (update_prefill_budget pl charged max_new rs gap hl sl a1) [r].
Proof.
  intros Hok Hb Hm H1 H2 H3 H4 H5 Hg Hc.
  destruct (update_prefill_budget_eq pl charged max_new rs gap hl sl a1) as (E1&E2&E3&E4&_). cbv zeta in *.
  split; [by eapply booked_update|congruence|congruence|]. eapply (same_ok a); congruence.
Qed.

#[local] Hint Resolve after_refl same_ok same_booked : py.

Lemma admit_range_spec base start stop charged max_new chunked req a s s2 lk :
  adder_ok a → booked base a → 0 ≤ max_new → inc_lock_ref (last_node req) s = Ok (s2, lk) →
  ceil_paged_tokens a charged = ceil_paged_tokens a (stop - start) →
  ∃ a' r', admit_range start stop charged max_new chunked req a s = Ok (a', r', s2, None)
    ∧ after base a a' [r'] ∧ extend_range r' = Some (start, stop) ∧ prefix_indices r' = prefix_indices req
    ∧ new_chunked_req a' = if chunked then Some r' else new_chunked_req a.
Proof.
  intros Hok Hb Hm Hinc Hc. unfold admit_range, req_inc_lock_ref.
  cbn [last_node set_extend_range]. rewrite Hinc. res_step. eexists _, _. split; [done|].
  split; [|split_and!; [done|done|]].
  - destruct chunked; eapply after_update; done.
  - unfold update_prefill_budget. destruct chunked; simpl; by destruct (dllm_block_size (config a)).
Qed.

Lemma truncate_chunk_spec a req limit align n : 0 < page_size (config a) →
  (∀ t, align = Some t → 0 < t) → truncate_chunk a req limit align = Some n →
  0 < n ≤ limit / page_size (config a) * page_size (config a) ∧ (page_size (config a) | prefix_size req + n).
Proof.
  intros Hp Hal. unfold truncate_chunk. set (p := page_size (config a)) in *.
  assert (∀ x, (x / p * p) ≤ x) as Hfl by (intros; lia).
  set (x := limit / p * p). destruct (Z.leb_spec x 0); [done|].
  assert (∀ y, y ≤ x → (if (y + prefix_size req) / p * p - prefix_size req <=? 0 then None
      else Some ((y + prefix_size req) / p * p - prefix_size req)) = Some n →
      0 < n ≤ x ∧ (p | prefix_size req + n)) as Hy.
  { intros y Hy. destruct (Z.leb_spec ((y + prefix_size req) / p * p - prefix_size req) 0); [done|].
    intros [= <-]. pose proof (Hfl (y + prefix_size req)). split; [lia|].
    exists ((y + prefix_size req) / p). lia. }
  destruct align as [t|]; [destruct (Z.ltb_spec x t); [done|]|]; apply Hy; [|lia].
  apply Z.mul_div_le, (Hal t eq_refl).
Qed.

Lemma clip_nonneg a x : adder_ok a → 0 ≤ x → 0 ≤ Z.min x (CLIP_MAX_NEW_TOKENS (config a)).
Proof. intros []. lia. Qed.

(** The admission under the lock, without load-back: rejected with nothing
    changed, or booked with at most the pages the request asked for. *)
Lemma admit_one_req_spec base req limit align a s s2 lk :
  adder_ok a → booked base a → needs_host_load_back req = false → 0 ≤ max_new_tokens req →
  (∀ t, align = Some t → 0 < t) → inc_lock_ref (last_node req) s = Ok (s2, lk) →
  ∃ a' r' s' early, admit_one_req req limit align a s = Ok (a', r', s', early)
    ∧ match early with
      | Some _ => a' = a ∧ s' = s
      | None => s' = s2 ∧ after base a a' [r'] ∧ pages_of a r' ≤ ceil_paged_tokens a (cand_extend_len req)
      end.
Proof.
  intros Hok Hb Hh Hn Hal Hinc. unfold admit_one_req, load_back. rewrite Hh. res_step.
  pose proof (ok_page a Hok) as Hp. rewrite (ok_ar a Hok).
  destruct (_ && _ && _); [by eexists _, _, _, (Some _)|]. destruct (match limit with Some _ => _ | None => _ end) eqn:El.
  - destruct (check_prefill_tile_budget a _); [by eexists _, _, _, (Some _)|].
    edestruct (admit_range_spec base (prefix_size req) (fill_len req)) as (a'&r'&->&Haf&He&_);
      [done|done|by apply clip_nonneg|done| |].
    { rewrite ceil_paged_idem by done. done. }
    eexists _, _, _, None. split; [done|]. split_and!; try done. unfold pages_of, ext_len. by rewrite He.
  - destruct limit as [l|]; [|done]. apply Z.leb_gt in El. cbn [default].
    destruct (truncate_chunk a req _ align) as [n|] eqn:Et; [|by eexists _, _, _, (Some _)].
    apply truncate_chunk_spec in Et as [[Hn0 Hnl] _]; [|done|done]. assert (l / page_size (config a) * page_size (config a) ≤ l) by lia.
    destruct (check_prefill_tile_budget a n); [by eexists _, _, _, (Some _)|].
    edestruct (admit_range_spec base (prefix_size req) (prefix_size req + n) n 0) as (a'&r'&->&Haf&He&_);
      [done|done|done|done|f_equal; lia|].
    eexists _, _, _, None. split; [done|]. split_and!; try done. unfold pages_of, ext_len. rewrite He.
    rewrite <-(ceil_paged_idem a (cand_extend_len req)) by done. apply ceil_paged_mono; [done|]. unfold default in *. simpl in *. lia.
Qed.
Lemma align_le a x y : 0 < page_size (config a) → 0 ≤ y → align_truncated_hybrid_chunk a x y ≤ y.
Proof. intros. unfold align_truncated_hybrid_chunk. destruct (_ || _); lia. Qed.

Lemma admit_ignore_eos_spec base req a s :
  adder_ok a → booked base a → 0 ≤ max_new_tokens req → prefix_indices req = [] →
  ∃ a' req' res, admit_ignore_eos req a s = Ok (a', req', res)
    ∧ (a' = a ∨ (after base a a' [req'] ∧ pages_of a req' ≤ ceil_paged_tokens a (cand_extend_len req))).
Proof.
  intros Hok Hb Hn Hpre. unfold admit_ignore_eos. rewrite (ok_ar a Hok). pose proof (ok_page a Hok) as Hp.
  assert (prefix_size req = 0) as Hps by (unfold prefix_size; by rewrite Hpre).
  destruct (match rem_chunk_tokens (budget a) with Some _ => _ | None => _ end) eqn:Ec.
  - destruct (check_prefill_tile_budget a _); [by eauto 10|]. eexists _, _, _. split; [done|]. right.
    split; [|by unfold pages_of, ext_len; simpl]. eapply after_update; try done. by apply clip_nonneg.
  - destruct (rem_chunk_tokens (budget a)) as [c|]; [|done]. cbn [default]. apply Z.leb_gt in Ec.
    unfold default, id. destruct (Z.leb_spec c 0); [by eauto 10|].
    pose proof (align_le a (prefix_size req) c Hp ltac:(lia)) as Hle.
    set (n := align_truncated_hybrid_chunk a (prefix_size req) c) in *.
    destruct (Z.leb_spec n 0); [by eauto 10|]. destruct (check_prefill_tile_budget a n); [by eauto 10|].
    rewrite Hps. cbn [assert_ Z.eqb res_bind]. eexists _, _, _. split; [done|]. right. split.
    + eapply after_update; try done. unfold pages_of, ext_len. simpl. f_equal. lia.
    + unfold pages_of, ext_len. simpl. apply ceil_paged_mono; lia.
Qed.

Lemma fits_admitted base a a' r s : adder_ok a → booked base a → after base a a' [r] →
  cur_rem_token_offset (budget a) + pages_of a r ≤ available_and_evictable (config a) s → fits base a' s.
Proof.
  intros Hok [Hc _] [_ Hcfg Hl _] Hle. unfold fits, total_pages. rewrite Hl, Hcfg.
  destruct (sum_charge_config a a' (can_run_list a ++ [r]) Hcfg) as [_ ->].
  rewrite map_app, sum_of_app. pose proof (pages_le_charge a (can_run_list a) Hok). simpl. lia.
Qed.

Lemma fits_same base a a' s s' : after base a a' [] → sizes s' = sizes s → fits base a s → fits base a' s'.
Proof.
  intros [_ Hcfg Hl _] Hs. unfold fits, total_pages. rewrite Hl, app_nil_r, Hcfg, (available_sizes _ _ _ Hs).
  by destruct (sum_charge_config a a' (can_run_list a) Hcfg) as [_ ->].
Qed.

(** The outcome of [add_one_req]: nothing admitted and the sizes as before, or
    one more request that fits. *)
Record added (base : Z) a s a' s' : Prop := {
  ad_wf : pools_wf s';
  ad_valid : ∀ m, valid_node s m → valid_node s' m;
  ad_disable : tree_cache_disable s' = tree_cache_disable s;
  ad_after : ∃ new, after base a a' new
    ∧ ((new = [] ∧ sizes s' = sizes s) ∨ ((∃ r, new = [r]) ∧ fits base a' s'));
}.

Lemma added_same base a s a' : pools_wf s → after base a a' [] → added base a s a' s.
Proof. intros. split; try done. exists []. split; [done|by left]. Qed.

#[local] Hint Resolve added_same : py.

Lemma add_ignore_eos_added base req a s :
  adder_ok a → booked base a → pools_wf s → 0 ≤ max_new_tokens req → prefix_indices req = [] →
  ∃ a' req' res, add_one_req_ignore_eos gather clock req a s = Ok (a', req', res) ∧ added base a s a' s.
Proof.
  intros Hok Hb Hwf Hn Hpre. unfold add_one_req_ignore_eos. pose proof (after_refl base a Hok Hb) as Hrefl.
  destruct (_ || _) eqn:Egate; [by eauto 10 with py|]. apply orb_false_iff in Egate as [Ecur _].
  apply Z.ltb_ge in Ecur. destruct (_ && _); [by eauto 10 with py|]. cbv zeta.
  set (a1 := set_req_states (update_req_states a req) a).
  assert (adder_ok a1) as Hok1 by by apply (same_ok a).
  assert (booked base a1) as Hb1 by by apply (same_booked base a).
  assert (after base a a1 []) as Haf1 by (split; try done; by rewrite app_nil_r).
  destruct (_ && _); [by eauto 10 with py|].
  destruct (negotiate_prefill_ok a1 Hok1) as (a2&allow&->&E1&E2&E3&Hok2). res_step.
  assert (booked base a2) as Hb2 by by apply (same_booked base a1).
  assert (after base a a2 []) as Haf2 by (split; try done; by rewrite E3, app_nil_r).
  destruct allow; [|by eauto 10 with py].
  destruct (admit_ignore_eos_spec base req a2 s Hok2 Hb2 Hn Hpre) as (a'&req'&res&->&[->|[Haf Hpg]]);
    [by eauto 10 with py|].
  eexists _, _, _. split; [done|]. split; try done. exists [req']. split; [by eapply after_same|]. right.
  split; [by eauto|]. eapply fits_admitted; [exact Hok2|done..|].
  rewrite E1, E2. unfold cur_rem_tokens in Ecur. change (config a1) with (config a). change (budget a1) with (budget a).
  assert (ceil_paged_tokens a2 (cand_extend_len req) = ceil_paged_tokens a (cand_extend_len req)) as Hce
    by (unfold ceil_paged_tokens; by rewrite E1).
  pose proof (gap_nonneg a req Hok). lia.
Qed.
(** The gate on [rem_total_tokens] leaves room for the pages of the request. *)
Lemma gate_room base a s req total : adder_ok a → booked base a →
  cand_extend_len req + page_size (config a) ≤ total →
  Qle_bool (rem_total_tokens a s) (inject_Z total) = false →
  cur_rem_token_offset (budget a) + ceil_paged_tokens a (cand_extend_len req)
    ≤ available_and_evictable (config a) s.
Proof.
  intros Hok [_ Ht] Hle Hg%Qle_bool_false. unfold rem_total_tokens in Hg.
  assert (inject_Z total + inject_Z (cur_rem_token_offset (budget a))
          < inject_Z (available_and_evictable (config a) s))%Q as H by lra.
  rewrite <-inject_Z_plus, <-Zlt_Qlt in H.
  pose proof (ceil_paged_bounds a (cand_extend_len req) (ok_page a Hok)). lia.
Qed.

(** The block under the temporary lock. *)
Lemma locked_admission_spec base req total real limit align a s s2 lk :
  adder_ok a → booked base a → needs_host_load_back req = false → 0 ≤ max_new_tokens req →
  (∀ t, align = Some t → 0 < t) → inc_lock_ref (last_node req) s = Ok (s2, lk) →
  cand_extend_len req + page_size (config a) ≤ total →
  ∃ a' r' s' early, locked_admission gather clock req total real limit align a s = Ok (a', r', s', early)
    ∧ match early with
      | Some _ => after base a a' [] ∧ s' = s
      | None => s' = s2 ∧ after base a a' [r'] ∧ (sizes s2 = sizes s → fits base a' s)
      end.
Proof.
  intros Hok Hb Hh Hn Hal Hinc Htot. unfold locked_admission. pose proof (after_refl base a Hok Hb) as Hrefl.
  destruct (Qle_bool _ _) eqn:Egate; [by eexists _, _, _, (Some _)|].
  pose proof (gate_room base a s req total Hok Hb Htot Egate) as Hroom.
  destruct (swa_gate a s req real limit) as [limit'|]; [|by eexists _, _, _, (Some _)].
  destruct (negotiate_prefill_ok a Hok) as (a2&allow&->&E1&E2&E3&Hok2). res_step.
  assert (booked base a2) as Hb2 by by apply (same_booked base a).
  assert (after base a a2 []) as Haf2 by (split; try done; by rewrite E3, app_nil_r).
  destruct allow; [|by eexists _, _, _, (Some _)].
  destruct (admit_one_req_spec base req limit' align a2 s s2 lk Hok2 Hb2 Hh Hn Hal Hinc)
    as (a'&r'&s'&early&->&He). eexists _, _, _, early. split; [done|]. destruct early.
  - by destruct He as [-> ->].
  - destruct He as (->&Haf&Hpg). split_and!; [done|by eapply after_same|]. intros _.
    eapply fits_admitted; [exact Hok2|done..|]. rewrite E1, E2.
    assert (ceil_paged_tokens a2 (cand_extend_len req) = ceil_paged_tokens a (cand_extend_len req)) as Hce
      by (unfold ceil_paged_tokens; by rewrite E1). lia.
Qed.

Lemma fits_sizes base a s s' : sizes s' = sizes s → fits base a s → fits base a s'.
Proof. intros Hs. unfold fits. by rewrite (available_sizes _ _ _ Hs). Qed.

Lemma sizes_disable s s' : sizes s' = sizes s → tree_cache_disable s' = tree_cache_disable s.
Proof. unfold sizes. by intros [= _ _ _ _ _ _ _ -> _]. Qed.

Lemma add_one_req_added base req align a s :
  adder_ok a → booked base a → pools_wf s → req_ok s req → (∀ t, align = Some t → 0 < t) →
  ∃ a' req' s' res, add_one_req gather clock req align a s = Ok (a', req', s', res) ∧ added base a s a' s'.
Proof.
  intros Hok Hb Hwf [Hnode Hn Hh Hpre] Hal. unfold add_one_req. pose proof (after_refl base a Hok Hb) as Hrefl.
  pose proof (added_same base a s a Hwf Hrefl) as Hsame.
  destruct (_ && _); [by eauto 10|]. destruct (match prefill_max_requests (config a) with Some _ => _ | None => _ end);
    [by eauto 10|].
  destruct (ignore_eos req && tree_cache_disable s) eqn:Eig.
  { apply andb_true_iff in Eig as [_ Ed].
    destruct (add_ignore_eos_added base req a s Hok Hb Hwf Hn (Hpre Ed)) as (a'&req'&res&->&Had).
    res_step. by eauto 10. }
  destruct (Qle_bool _ _); [by eauto 10|].
  destruct (swa_gate a s req _ _) as [limit|]; [|by eauto 10]. destruct (_ && _ && _); [by eauto 10|].
  destruct (lock_law s (last_node req) Hwf Hnode) as (s1&lk1&->&Hdis&Hundo&(s2&lk2&Hinc2&Hsz2&Hrel)). res_step.
  edestruct (locked_admission_spec base req) as (a'&r'&s'&early&->&He); try done.
  { pose proof (gap_nonneg a req Hok). pose proof (ok_clip a Hok). lia. }
  res_step. destruct early as [e|].
  - destruct He as [Haf ->]. destruct (Hundo (if is_tree_cache s1 then Some (to_dec_params lk1) else None))
      as (s0&->&Hwf0&Hsz0&Hval0). res_step. eexists _, _, _, _. split; [done|].
    split; [done|done|by apply sizes_disable|]. exists []. split; [done|by left].
  - destruct He as (->&Haf&Hf). destruct (Hrel (if is_tree_cache s1 then Some (to_dec_params lk1) else None))
      as (s3&->&Hwf3&Hsz3&Hval3). res_step. eexists _, _, _, _. split; [done|].
    split; [done|done|rewrite <-Hdis; by apply sizes_disable|]. exists [r']. split; [done|]. right. split; [by eauto|].
    apply (fits_sizes _ _ s1); auto.
Qed.
(** A new pass is booked at the tokens of the mixed decode batch. *)
Lemma adder_init_booked cfg dmax running inp chunk mixed delayer s :
  0 ≤ CLIP_MAX_NEW_TOKENS cfg → (0 <= new_token_ratio cfg)%Q →
  Forall (λ r, output_len r ≤ max_new_tokens r) (default [] running) →
  booked mixed (adder_init cfg dmax running inp chunk mixed delayer s).
Proof.
  intros Hclip Hratio Hrun. split; unfold adder_init; cbn [budget cur_rem_token_offset rem_total_token_offset can_run_list].
  { simpl. lia. }
  destruct running as [reqs|]; [|apply Qle_refl]. simpl in Hrun.
  assert (0 <= foldr (λ r x, get_running_request_total_token_offset cfg r + x) 0 reqs)%Q; [|lra].
  induction Hrun as [|r reqs Hr _ IH]; simpl; [apply Qle_refl|].
  assert (0 <= get_running_request_total_token_offset cfg r)%Q; [|lra].
  unfold get_running_request_total_token_offset. apply Qmult_le_0_compat.
  - change 0%Q with (inject_Z 0). rewrite <-Zle_Qle. lia.
  - by destruct (ignore_eos r).
Qed.

(** The waiting requests in order, until one of them does not continue. *)
Fixpoint admit_waiting (align : option Z) (waiting : list (SchedReq node)) a s : res (PrefillAdder node * S) :=
  match waiting with
  | [] => Ok (a, s)
  | req :: waiting =>
      let! (a, _, s, result) := add_one_req gather clock req align a s in
      match result with CONTINUE => admit_waiting align waiting a s | _ => Ok (a, s) end
  end.


(** C31: when the remaining chunk budget truncates a request, the chunk that is
    admitted is not empty, is within the budget, is a proper part of what is left to
    prefill, and ends on a page boundary; the request is remembered as the chunked
    one. *)
Theorem truncated_chunk_is_partial req limit align a s a' req' s' :
  0 < page_size (config a) → dllm_block_size (config a) = None → (∀ t, align = Some t → 0 < t) →
  admit_one_req req limit align a s = Ok (a', req', s', None) → new_chunked_req a' ≠ new_chunked_req a →
  ∃ n l, limit = Some l ∧ extend_range req' = Some (prefix_size req', prefix_size req' + n)
    ∧ 0 < n ≤ l ∧ n < cand_extend_len req' ∧ (page_size (config a) | prefix_size req' + n)
    ∧ new_chunked_req a' = Some req'.
Proof.
  intros Hp Hd Hal. unfold admit_one_req. destruct (load_back req s) as [[req0 s0]|]; [|done]. res_step.
  rewrite Hd. destruct (_ && _ && _); [done|].
  assert (∀ start stop charged mx chunked, admit_range start stop charged mx chunked req0 a s0 = Ok (a', req', s', None) →
    extend_range req' = Some (start, stop) ∧ prefix_indices req' = prefix_indices req0 ∧ fill_len req' = fill_len req0
    ∧ new_chunked_req a' = if chunked then Some req' else new_chunked_req a) as Hadm.
  { intros start stop charged mx chunked. unfold admit_range, req_inc_lock_ref.
    destruct (inc_lock_ref _ s0) as [[s2 lk]|]; [|done]. res_step. intros [= <- <- <-]. split_and!; try done.
    unfold update_prefill_budget. destruct chunked; simpl; by rewrite Hd. }
  destruct (match limit with Some _ => _ | None => _ end) eqn:El.
  { destruct (check_prefill_tile_budget a _); [done|]. intros H%Hadm. by destruct H as (_&_&_&->). }
  destruct limit as [l|]; [|done]. apply Z.leb_gt in El. unfold default, id.
  destruct (truncate_chunk a req0 l align) as [n|] eqn:Et; [|done].
  apply truncate_chunk_spec in Et as [[Hn0 Hnl] Hpg]; [|done|done].
  destruct (check_prefill_tile_budget a n); [done|]. intros H%Hadm _. destruct H as (He&Hpi&Hfl&Hc).
  assert (prefix_size req' = prefix_size req0) as Hps by (unfold prefix_size; by rewrite Hpi).
  exists n, l. rewrite Hps. split_and!; try done; [lia|].
  unfold cand_extend_len in *. rewrite Hps, Hfl.
  pose proof (ceil_paged_bounds a (fill_len req0 - prefix_size req0) Hp) as [_ Hub].
  unfold ceil_paged_tokens in *. set (k := ceil_div _ _) in *. set (p := page_size (config a)) in *.
  assert (l / p < k) as Hk by (apply Z.div_lt_upper_bound; lia).
  assert (l / p * p ≤ (k - 1) * p) by (apply Z.mul_le_mono_nonneg_r; lia). lia.
Qed.
End Budget.
