(* ===== verification/AdderRadix.v ===== *)
(** * The radix cache behind the prefill adder

    [RadixCache] over the paged allocator implements the interface [Pools], and its
    locks satisfy [PoolsLaws]; the theorems about a prefill pass therefore hold for
    the cache and the allocator of this development. *)

From stdpp Require Import base tactics numbers list gmap strings.
From Stdlib Require Import ZArith QArith Lia ZifyNat.
From S2P Require Import Prelude RadixKey TreeNode KvEvents EventQueue RadixCache RadixInv RadixPages RadixAcct.
From S2P Require Import RadixMatch RadixSpec RadixInsert RadixLock Allocator RadixContents RadixCorrect RadixWitness.
From S2P Require PrefillAdder AdderBudget.
From S2P Require Import PrefillDelayer.
Import PrefillAdder AdderBudget.

(** The plain cache has no SWA, Mamba or host tier: those sizes are the defaults of
    [BasePrefixCache], and [init_load_back] is not implemented. *)
Global Instance radix_pools : Pools node_id (RadixCache KvAlloc) := {|
  PrefillAdder.available_size c := Z.of_nat (Allocator.available_size (allocator c));
  full_available_size _ := 0%Z;
  swa_available_size _ := 0%Z;
  size_swa _ := 0%Z;
  PrefillAdder.evictable_size c := RadixCache.evictable_size c;
  full_evictable_size _ := 0%Z;
  swa_evictable_size _ := 0%Z;
  mamba_evictable_size _ := 0%Z;
  mamba_schedulable_size _ := 0%Z;
  tree_cache_disable c := disable c;
  is_tree_cache _ := true;
  PrefillAdder.inc_lock_ref n c :=
    let! (c, _) := RadixCache.inc_lock_ref n c in Ok (c, mkLockResult None []);
  PrefillAdder.dec_lock_ref n _ c := let! (c, _) := RadixCache.dec_lock_ref n c in Ok c;
  init_load_back _ _ _ := Raise NotImplementedError;
|}.

Abbreviation cache := (RadixCache KvAlloc).
Implicit Types c : cache.

(** The nodes whose lock counts a lock of [x] changes. *)
Definition path c x : list node_id := walk (S (size (nodes c))) (nodes c) (root_node c) x.

(** One more lock on a node. *)
Lemma inc_step c φ x : inv c φ → disable c = false → is_Some (nodes c !! x) →
  ∃ c1 δ, RadixCache.inc_lock_ref x c = Ok (c1, δ) ∧ inv c1 φ ∧ relocked c c1 (path c x) 1
    ∧ ∀ n1, nodes c1 !! x = Some n1 → x ≠ root_node c1 → (0 < own (nodes c1) n1)%Z.
Proof.
  intros Hinv Hd [n Hx]. destruct (inc_lock_ref_walked c φ x Hinv Hd) as (c1&δ&He&Hw); [by eexists|].
  pose proof Hw as [Hr _ _ _ Hown]. pose proof (rl_cfg _ _ _ _ Hr) as [= _ _ _ _ _ Hroot].
  destruct (walked_quiet c φ c1 _ x 1 δ Hinv Hw) as (Hinv1&_).
  { intros m Hm Hxr. pose proof (ac_own _ (in_acct _ _ Hinv) x m Hm Hxr). lia. }
  eexists _, _. split_and!; try done. intros n1 Hn1 Hxr. rewrite Hroot in Hxr.
  rewrite (Hown x n n1), decide_True by done. pose proof (ac_own _ (in_acct _ _ Hinv) x n Hx Hxr). lia.
Qed.

(** One lock less. *)
Lemma dec_step c φ x : inv c φ → disable c = false → is_Some (nodes c !! x) →
  (∀ n, nodes c !! x = Some n → x ≠ root_node c → 0 < own (nodes c) n)%Z →
  ∃ c1 δ, RadixCache.dec_lock_ref x c = Ok (c1, δ) ∧ inv c1 φ ∧ relocked c c1 (path c x) (-1).
Proof.
  intros Hinv Hd [n Hx] Hown. destruct (dec_lock_ref_walked c φ x n Hinv Hd Hx) as (c1&δ&He&Hw); [by apply Hown|].
  destruct (walked_quiet c φ c1 _ x (-1) δ Hinv Hw) as (Hinv1&_).
  { intros m Hm Hxr. specialize (Hown m Hm Hxr). lia. }
  eexists _, _. split_and!; try done. by destruct Hw.
Qed.

Lemma relocked_dom c c1 ws d : relocked c c1 ws d → dom (nodes c1) = dom (nodes c).
Proof.
  intros H. apply set_eq. intros j. rewrite !elem_of_dom, (rl_nodes _ _ _ _ H), fmap_is_Some. done.
Qed.

Lemma relocked_path c c1 ws d x : relocked c c1 ws d → path c1 x = path c x.
Proof.
  intros H. pose proof (rl_cfg _ _ _ _ H) as [= _ _ _ _ _ Hroot]. unfold path.
  rewrite <-!size_dom, (relocked_dom _ _ _ _ H), Hroot.
  apply walk_shape, (relocked_shape _ _ _ _ H).
Qed.

(** Releasing what was taken restores the lock counts. *)
Lemma relocked_cancel c c1 c2 ws : relocked c c1 ws 1 → relocked c1 c2 ws (-1) → nodes c2 = nodes c.
Proof.
  intros H1 H2. apply map_eq. intros j. rewrite (rl_nodes _ _ _ _ H2), (rl_nodes _ _ _ _ H1).
  destruct (nodes c !! j) as [n|]; simpl; [|done]. f_equal. destruct n. unfold set_lock_ref. simpl.
  f_equal. case_decide; lia.
Qed.

Lemma same_nodes_evictable c c' φ φ' : inv c φ → inv c' φ' → cfg c' = cfg c → nodes c' = nodes c →
  evictable_size_ c' = evictable_size_ c.
Proof.
  intros Hi Hi' Hc Hn. pose proof Hc as [= _ _ _ _ _ Hroot].
  rewrite (ex_ev _ (acct_exact _ (in_acct _ _ Hi))), (ex_ev _ (acct_exact _ (in_acct _ _ Hi'))).
  by rewrite Hn, Hroot.
Qed.

(** A second lock on the same path makes nothing else unevictable. *)
Lemma relocked_twice c c1 c2 ws φ : inv c φ → inv c1 φ → inv c2 φ →
  relocked c c1 ws 1 → relocked c1 c2 ws 1 → evictable_size_ c2 = evictable_size_ c1.
Proof.
  intros Hi Hi1 Hi2 H1 H2. pose proof (rl_cfg _ _ _ _ H2) as [= _ _ _ _ _ Hroot].
  rewrite (ex_ev _ (acct_exact _ (in_acct _ _ Hi1))), (ex_ev _ (acct_exact _ (in_acct _ _ Hi2))), Hroot.
  apply msum_ext; [by eapply relocked_dom|]. intros j n2 n1 Hn2 Hn1. unfold ev_len.
  destruct (decide (j = root_node c1)); [done|].
  rewrite (rl_nodes _ _ _ _ H2), Hn1 in Hn2. simpl in Hn2. injection Hn2 as <-.
  rewrite (rl_nodes _ _ _ _ H1) in Hn1. destruct (nodes c !! j) as [n0|] eqn:Hn0; [|done].
  simpl in Hn1. injection Hn1 as <-.
  pose proof (ex_lock _ (acct_exact _ (in_acct _ _ Hi)) j n0 Hn0) as Hl. simpl.
  destruct (decide (j ∈ ws)); [|by rewrite !Z.add_0_r].
  destruct (Z.eqb_spec (lock_ref n0 + 1 + 1) 0), (Z.eqb_spec (lock_ref n0 + 1) 0); lia.
Qed.

Lemma radix_sizes c c' : cfg c' = cfg c → allocator c' = allocator c →
  evictable_size_ c' = evictable_size_ c → sizes c' = sizes c.
Proof. intros Hc Ha H. injection Hc as Hd _ _ _ _ _. unfold sizes. simpl. unfold RadixCache.evictable_size. by rewrite Hd, Ha, H. Qed.

Definition radix_wf c : Prop := disable c = true ∨ ∃ φ, inv c φ.

Lemma radix_lock_law c x : radix_wf c → is_Some (nodes c !! x) →
  ∃ c1 r1, PrefillAdder.inc_lock_ref x c = Ok (c1, r1)
    ∧ tree_cache_disable c1 = tree_cache_disable c
    ∧ (∀ p, ∃ c0, PrefillAdder.dec_lock_ref x p c1 = Ok c0 ∧ radix_wf c0 ∧ sizes c0 = sizes c
         ∧ ∀ m, is_Some (nodes c !! m) → is_Some (nodes c0 !! m))
    ∧ (∃ c2 r2, PrefillAdder.inc_lock_ref x c1 = Ok (c2, r2) ∧ sizes c2 = sizes c1
         ∧ ∀ p, ∃ c3, PrefillAdder.dec_lock_ref x p c2 = Ok c3 ∧ radix_wf c3 ∧ sizes c3 = sizes c1
             ∧ ∀ m, is_Some (nodes c !! m) → is_Some (nodes c3 !! m)).
Proof.
  intros Hwf Hx. destruct (disable c) eqn:Hd.
  { exists c, (mkLockResult None []). simpl. unfold RadixCache.inc_lock_ref, RadixCache.dec_lock_ref. rewrite Hd. simpl.
    split_and!; [done|done|by intros _; exists c|]. exists c, (mkLockResult None []). rewrite Hd. simpl.
    split_and!; [done|done|by intros _; exists c]. }
  destruct Hwf as [?|[φ Hinv]]; [congruence|].
  destruct (inc_step c φ x Hinv Hd Hx) as (c1&δ1&He1&Hi1&Hr1&Hown1).
  pose proof (rl_cfg _ _ _ _ Hr1) as Hc1. pose proof (relocked_dom _ _ _ _ Hr1) as Hdom1.
  assert (is_Some (nodes c1 !! x)) as Hx1 by (apply elem_of_dom; rewrite Hdom1; by apply elem_of_dom).
  assert (disable c1 = false) as Hd1 by (injection Hc1; congruence).
  destruct (dec_step c1 φ x Hi1 Hd1 Hx1 Hown1) as (c0&δ0&He0&Hi0&Hr0). rewrite (relocked_path _ _ _ _ x Hr1) in Hr0.
  destruct (inc_step c1 φ x Hi1 Hd1 Hx1) as (c2&δ2&He2&Hi2&Hr2&Hown2).
  pose proof (rl_cfg _ _ _ _ Hr2) as Hc2. pose proof (relocked_dom _ _ _ _ Hr2) as Hdom2.
  assert (is_Some (nodes c2 !! x)) as Hx2 by (apply elem_of_dom; rewrite Hdom2; by apply elem_of_dom).
  assert (disable c2 = false) as Hd2 by (injection Hc2; congruence).
  destruct (dec_step c2 φ x Hi2 Hd2 Hx2 Hown2) as (c3&δ3&He3&Hi3&Hr3). rewrite (relocked_path _ _ _ _ x Hr2) in Hr3.
  exists c1, (mkLockResult None []). simpl. rewrite He1, He0, He2. simpl. split_and!; [done|congruence| |].
  - intros _. pose proof (relocked_cancel _ _ _ _ Hr1 Hr0) as Hn. pose proof (rl_cfg _ _ _ _ Hr0) as Hc0.
    exists c0. split_and!; [done|right; by eauto| |by rewrite Hn].
    apply radix_sizes; [congruence|by rewrite (rl_alloc _ _ _ _ Hr0), (rl_alloc _ _ _ _ Hr1)|].
    by eapply same_nodes_evictable; [exact Hinv|exact Hi0|congruence|].
  - exists c2, (mkLockResult None []). split_and!; [done| |].
    + apply radix_sizes; [done|by rewrite (rl_alloc _ _ _ _ Hr2)|]. rewrite (relocked_path _ _ _ _ x Hr1) in Hr2.
      by eapply (relocked_twice c c1 c2).
    + intros _. rewrite He3. simpl. pose proof (relocked_cancel _ _ _ _ Hr2 Hr3) as Hn.
      pose proof (rl_cfg _ _ _ _ Hr3) as Hc3. exists c3. split_and!; [done|right; by eauto| |].
      * apply radix_sizes; [congruence|by rewrite (rl_alloc _ _ _ _ Hr3), (rl_alloc _ _ _ _ Hr2)|].
        by eapply same_nodes_evictable; [exact Hi1|exact Hi3|congruence|].
      * intros m. rewrite Hn, <-!elem_of_dom, Hdom1. done.
Qed.

Global Instance radix_pools_laws : PoolsLaws node_id cache := {|
  pools_wf := radix_wf;
  valid_node c x := is_Some (nodes c !! x);
  lock_law := radix_lock_law;
|}.

(** ** A pass over two requests on the small cache *)

Definition demo_config : AdderConfig :=
  mkConfig 2 64 1 None false false false 0 0 false None None 8 1 0 false 0 true 4096.
Definition demo_cand (id : Z) (fill new : Z) (prefix : list Z) (n : node_id) : SchedReq node_id :=
  mkSchedReq id new false fill 0 fill prefix n n 0 0 0 0 None false false 0 0 false 0 (mkLockResult None []) None.
Definition demo_waiting : list (SchedReq node_id) :=
  [demo_cand 1 5 1 [2; 3; 4; 5]%Z 1; demo_cand 2 7 1 [] 0].
Definition demo_adder : PrefillAdder node_id := adder_init demo_config 0 None 100 (Some 8%Z) 0 None demo_one.
Definition demo_gather (i : Info) : list Info := [i].

Lemma demo_one_wf : radix_wf demo_one.
Proof. right. destruct demo_one_abs as (φ&?&_). by exists φ. Qed.


(** Both are admitted: the first whole, the second cut to the rest of the chunk
    budget and to a whole page. *)
Example demo_pass_admits :
  match admit_waiting demo_gather (mkClock 0 0 0) None demo_waiting demo_adder demo_one with
  | Ok (a', _) => map extend_range (can_run_list a')
  | Raise _ => []
  end = [Some (4, 5); Some (0, 6)]%Z.
Proof. vm_compute. reflexivity. Qed.

Definition demo_chunked : res (PrefillAdder node_id * SchedReq node_id * cache * option AddReqResult) :=
  admit_one_req (demo_cand 2 9 2 [] 0) (Some 5%Z) None demo_adder demo_one.

Lemma demo_chunked_ok :
  match demo_chunked with
  | Ok (a', _, _, None) => match new_chunked_req a' with Some _ => true | None => false end
  | _ => false
  end = true.
Proof. vm_compute. reflexivity. Qed.

Lemma truncated_chunk_is_partial_witness :
  ∃ a' req' c', demo_chunked = Ok (a', req', c', None)
    ∧ ∃ n l, Some 5%Z = Some l ∧ extend_range req' = Some (prefix_size req', (prefix_size req' + n)%Z)
        ∧ (0 < n ≤ l)%Z ∧ (n < cand_extend_len req')%Z ∧ (page_size (config demo_adder) | prefix_size req' + n)%Z
        ∧ new_chunked_req a' = Some req'.
Proof.
  pose proof demo_chunked_ok as Hok.
  destruct demo_chunked as [[[[a' req'] c'] [e|]]|] eqn:Hx; [discriminate Hok| |discriminate Hok].
  exists a', req', c'. split; [reflexivity|].
  apply (truncated_chunk_is_partial (demo_cand 2 9 2 [] 0) (Some 5%Z) None demo_adder demo_one a' req' c');
    [reflexivity|reflexivity|discriminate|unfold demo_chunked in Hx; exact Hx|].
  intros Heq. rewrite Heq in Hok. discriminate Hok.
Defined.
