(* ===== verification/AdderBatch.v ===== *)
(** * An admitted batch gets its memory

    The prefill adder books the pages of the requests it admits against what is
    available and evictable; [alloc_for_extend] then takes the slots.  The two agree
    on the count: a batch the adder admitted never runs out of memory. *)

From stdpp Require Import base tactics numbers list gmap strings.
From Stdlib Require Import ZArith QArith Lia ZifyNat.
From S2P Require Import Prelude RadixKey TreeNode KvEvents EventQueue RadixCache RadixInv RadixPages RadixAcct.
From S2P Require Import RadixMatch RadixSpec RadixContents Allocator AllocFree AllocKernel AllocExtend PoolAlloc Requests ReqPool.
From S2P Require Import BatchAlloc BatchWrite BatchMem BatchTake BatchPrefill.
From S2P Require PrefillAdder AdderBudget AdderRadix.

Local Open Scope nat_scope.

(** New pages are at most the pages of the new tokens alone. *)
Lemma npages_diff ps pre s : 0 < ps → pre ≤ s →
  (Z.of_nat ((npages ps s - npages ps pre) * ps) ≤ ceil_div (Z.of_nat s - Z.of_nat pre) (Z.of_nat ps) * Z.of_nat ps)%Z.
Proof.
  intros Hps Hle. unfold ceil_div. pose proof (npages_bounds ps Hps s). pose proof (npages_bounds ps Hps pre).
  pose proof (npages_mono ps Hps pre s Hle).
  set (k := (- (- (Z.of_nat s - Z.of_nat pre) / Z.of_nat ps))%Z).
  assert (Z.of_nat s - Z.of_nat pre ≤ k * Z.of_nat ps)%Z as Hk.
  { unfold k. pose proof (Z.mul_div_le (- (Z.of_nat s - Z.of_nat pre)) (Z.of_nat ps) ltac:(lia)). lia. }
  assert (Z.of_nat (npages ps s - npages ps pre) < k + 1)%Z; nia.
Qed.

Section FromAdder.
(** The contents of [torch.empty], which are not specified. *)
Context (torch_empty : nat → list Z) (Hempty : ∀ n, length (torch_empty n) = n).
#[local] Instance batch_pool : PoolAllocator KvAlloc := paged_pool torch_empty.
#[local] Instance batch_laws : PoolLaws KvAlloc := paged_pool_laws torch_empty Hempty.
Context {X : Type} `{!AuxCache X}.
Context (native_hash : RadixKey → option string → nat → list string).
Context (salt_digest : string → string).
Context (Hnative : ∀ k prior ps, 0 < ps → klen k mod ps = 0 →
  length (native_hash k prior ps) = klen k / ps ∧ Forall good_hash (native_hash k prior ps)).
Implicit Types (c : RadixCache KvAlloc) (p : ReqToTokenPool X) (b : ScheduleBatch).

(** The request of the batch that the adder admitted. *)
Definition admitted_as (r : BatchReq) (s : PrefillAdder.SchedReq node_id) : Prop :=
  PrefillAdder.extend_range s
  = Some (Z.of_nat (Req.extend_range (core r)).1, Z.of_nat (Req.extend_range (core r)).2).

(** The plain radix cache, without sliding windows or Mamba states. *)
Record plain_adder (a : PrefillAdder.PrefillAdder node_id) c : Prop := {
  pa_page : PrefillAdder.page_size (PrefillAdder.config a) = Z.of_nat (page_size c);
  pa_swa : PrefillAdder.is_all_swa (PrefillAdder.config a) = false;
  pa_hybrid : PrefillAdder.is_hybrid_swa (PrefillAdder.config a) = false;
  pa_ssm : PrefillAdder.is_hybrid_ssm_cache (PrefillAdder.config a) = false;
}.

Lemma admitted_pages a c ctx rows b : plain_adder a c → 0 < page_size c →
  Forall2 (extend_req_ok (page_size c) ctx) rows (reqs b) →
  Forall2 admitted_as (reqs b) (PrefillAdder.can_run_list a) →
  let b0 := prepare_extend_lens b in
  (Z.of_nat (get_num_new_pages_extend (page_size c) (seq_lens b0) (prefix_lens b0) * page_size c)
   ≤ AdderBudget.total_pages a)%Z.
Proof.
  intros [Hp _ _ _] Hps Hreqs Hadm. simpl. pose proof (batch_all _ _ _ _ Hreqs) as Hall. clear Hreqs.
  unfold AdderBudget.total_pages, get_num_new_pages_extend. revert Hall.
  induction Hadm as [|r s l l' Hrs _ IH]; intros Hall; [done|]. apply Forall_cons in Hall as [(H1&H2&_) Hall].
  specialize (IH Hall). cbn [fmap list_fmap zip_with map PrefillAdder.sum_of foldr sum_list] in *.
  pose proof (npages_diff (page_size c) (length (Req.prefix_indices (core r))) (Req.extend_range (core r)).2 Hps ltac:(lia)) as Hd.
  unfold AdderBudget.pages_of at 1, AdderBudget.ext_len, PrefillAdder.ceil_paged_tokens. rewrite Hrs, Hp, H1.
  unfold PrefillAdder.sum_of, sum_list in *. rewrite Nat.mul_add_distr_r. lia.
Qed.

End FromAdder.
