(* ===== verification/BatchWitness.v ===== *)
(** * Witnesses for the theorems about batches

    The small cache with two pages in its tree and two free pages, a request pool of
    three rows, and two requests. *)

From stdpp Require Import base tactics numbers list gmap strings.
From Stdlib Require Import ZArith Lia ZifyNat.
From S2P Require Import Prelude RadixKey TreeNode KvEvents EventQueue RadixCache RadixInv RadixPages RadixAcct RadixMatch RadixSpec.
From S2P Require Import RadixContents RadixWitness Allocator AllocFree AllocCorrect AllocKernel PoolAlloc Requests ReqPool.
From S2P Require Import BatchAlloc BatchWrite BatchMem BatchTake BatchPrefill AdderBatch.
From S2P Require PrefillAdder AdderBudget AdderRadix.

#[local] Existing Instance no_aux.
Definition demo_zeros (n : nat) : list Z := replicate n 0%Z.
Lemma demo_zeros_length n : length (demo_zeros n) = n.
Proof. apply length_replicate. Qed.
#[local] Instance demo_batch_pool : PoolAllocator KvAlloc := paged_pool demo_zeros.
#[local] Instance demo_batch_laws : PoolLaws KvAlloc := paged_pool_laws demo_zeros demo_zeros_length.

Ltac all_in := repeat first [apply Forall_nil; exact I | apply Forall_cons; split; [simpl; lia|]].

(** ** Writing rows *)

Definition demo_rows : ReqToTokenPool unit := mkPool 3 6 (replicate 4 (replicate 6 0%Z)) [1; 2; 3] [0; 0; 0; 0]%Z None.

Lemma write_cache_indices_triton_witness :
  write_cache_indices true [7; 8; 9]%Z [2; 1] [1; 0] [2; 2] [1; 2] [[5]; []]%Z demo_rows
  = write_cache_indices false [7; 8; 9]%Z [2; 1] [1; 0] [2; 2] [1; 2] [[5]; []]%Z demo_rows
  ∧ ∃ p', write_cache_indices true [7; 8; 9]%Z [2; 1] [1; 0] [2; 2] [1; 2] [[5]; []]%Z demo_rows = Ok p'
      ∧ req_to_token p' !! 2 = Some [5; 7; 0; 0; 0; 0]%Z.
Proof.
  destruct (write_cache_indices_triton [7; 8; 9]%Z [2; 1] [1; 0] [2; 2] [1; 2] [[5]; []]%Z demo_rows) as (E&p'&Hp&Hrow&_).
  - repeat constructor.
  - split; try reflexivity; all_in; simpl; lia.
  - split; [exact E|]. exists p'. split; [exact Hp|].
    etransitivity; [apply (Hrow ltac:(by apply (bool_decide_eq_true_1 _); vm_compute) 0 2 (replicate 6 0%Z) eq_refl eq_refl)|].
    vm_compute. reflexivity.
Defined.

(** ** A prefill batch *)

Definition demo_pages : KvAlloc := set_free [3; 4]%Z [] (Paged.init 8 2 false).
Definition demo_mem : RadixCache KvAlloc := set_allocator demo_pages demo_one.

(** [tree_mem] by evaluation. *)
Definition heads (ps : nat) (v : list Z) : list Z :=
  (λ k, (v !!! (k * ps)%nat / Z.of_nat ps)%Z) <$> seq 0 (length v / ps).
Definition whole_node (ps : nat) (n : TreeNode) : bool :=
  match value n with Some v => bool_decide (v = whole ps (heads ps v)) | None => true end.
Definition apart_slot (c : RadixCache KvAlloc) (s : Z) : bool :=
  let q := (s / Z.of_nat (page_size c))%Z in
  bool_decide (1 ≤ q ≤ Z.of_nat (num_pages (allocator c)))%Z && bool_decide (q ∉ held (allocator c)).

Lemma tree_mem_check (c : RadixCache KvAlloc) : paged_ok (allocator c) → ps (allocator c) = page_size c →
  bool_decide (map_Forall (λ _ n, whole_node (page_size c) n = true) (nodes c)) = true →
  bool_decide (NoDup (slots (nodes c))) = true → forallb (apart_slot c) (slots (nodes c)) = true → tree_mem c.
Proof.
  intros Hok Hps Hw Hnd Hap. apply bool_decide_eq_true_1 in Hw, Hnd. split; [done..| |done|].
  - intros i n v Hi Hv. pose proof (Hw i n Hi) as Hn. unfold whole_node in Hn. rewrite Hv in Hn.
    apply bool_decide_eq_true_1 in Hn. eauto.
  - intros s Hs. rewrite forallb_forall in Hap. specialize (Hap s (proj1 (list_elem_of_In _ _) Hs)).
    unfold apart_slot in Hap. apply andb_true_iff in Hap as [H1 H2]. by apply bool_decide_eq_true_1 in H1, H2.
Qed.

Lemma demo_pages_ok : paged_ok demo_pages.
Proof.
  split_and!; [|done|vm_compute; lia]. split; [|done]. split; [by apply (bool_decide_eq_true_1 _); vm_compute|].
  intros q Hq. apply (proj1 (Forall_forall (λ q, 1 ≤ q ≤ Z.of_nat (num_pages demo_pages))%Z (held demo_pages))); [|done].
  by apply (bool_decide_eq_true_1 _); vm_compute.
Qed.

Lemma demo_mem_ready : ∃ φ, ready demo_mem φ.
Proof.
  destruct demo_one_abs as (φ&Hinv&Hh&_). exists φ. split; [by apply inv_set_allocator|exact Hh| |done].
  apply tree_mem_check; [apply demo_pages_ok|vm_compute; reflexivity..].
Qed.

Definition demo_extend (toks : list Z) : BatchReq :=
  mkBatchReq (Req.mkReq None 0 0 0 toks [] toks false (0, length toks) None None None [] None false (-1)) None [] 0 false false 8.
Definition demo_batch : ScheduleBatch := mkBatch [demo_extend [1; 2; 3]%Z; demo_extend [7; 8]%Z] [] [] [] 0 false [] None.

Lemma demo_batch_ok : Forall2 (extend_req_ok 2 6) [[]; []] (reqs demo_batch).
Proof. repeat constructor; simpl; lia. Qed.

Lemma demo_rows_ready : pool_ready demo_rows (core <$> reqs demo_batch) [].
Proof. split; try done; [repeat constructor|simpl; lia]. Qed.

(** Three pages are needed and two are free: the two pages of the tree are evicted. *)
Lemma alloc_for_extend_ok_witness : ∃ φ fresh c' p' b' out,
  alloc_for_extend demo_hash demo_digest true false (prepare_extend_lens demo_batch) demo_mem demo_rows
    = Ok (c', p', b', Ok (out, rows_of (core <$> reqs b')))
  ∧ extended demo_mem c' φ demo_rows p' [[]; []] fresh (prepare_extend_lens demo_batch) b' [].
Proof.
  destruct demo_mem_ready as [φ Hr]. exists φ.
  pose proof (alloc_for_extend_ok demo_hash demo_digest demo_hash_ok true false demo_batch demo_mem φ demo_rows [[]; []] []
    Hr demo_rows_ready demo_batch_ok eq_refl) as Hx. cbv zeta in Hx.
  replace (total_free demo_mem <? _)%Z with false in Hx by (vm_compute; reflexivity). exact Hx.
Defined.

(** The adder with the two requests admitted. *)
Definition demo_admitted : PrefillAdder.PrefillAdder node_id :=
  PrefillAdder.append_can_run (PrefillAdder.set_extend_range 0 2 (AdderRadix.demo_cand 2 2 1 [] 0))
    (PrefillAdder.append_can_run (PrefillAdder.set_extend_range 0 3 (AdderRadix.demo_cand 1 3 1 [] 0))
       AdderRadix.demo_adder).

