(* ===== verification/RetractWitness.v ===== *)
(** * Witnesses for decoding and retraction

    The small cache with two pages in its tree and no free page, and two running
    requests with two pages and one page of their own. *)

From stdpp Require Import base tactics numbers list gmap strings.
From Stdlib Require Import ZArith Lia ZifyNat.
From S2P Require Import Prelude RadixKey TreeNode KvEvents EventQueue RadixCache RadixInv RadixPages RadixAcct RadixMatch RadixSpec.
From S2P Require Import RadixReq RadixContents RadixWitness Allocator AllocFree AllocCorrect AllocKernel PoolAlloc Requests ReqPool.
From S2P Require Import BatchAlloc BatchWrite BatchMem BatchTake BatchPrefill BatchDecode BatchWitness.
From S2P Require Import Retract ReleaseCorrect RetractCorrect RetractDecode.

#[local] Existing Instance no_aux.
#[local] Instance retract_pool : PoolAllocator KvAlloc := paged_pool demo_zeros.
#[local] Instance retract_laws : PoolLaws KvAlloc := paged_pool_laws demo_zeros demo_zeros_length.

Definition full_pages : KvAlloc := set_free [] [] (Paged.init 10 2 false).
Definition full_mem : RadixCache KvAlloc := set_allocator full_pages demo_one.
Definition full_rows : ReqToTokenPool unit :=
  mkPool 3 6 [[0; 0; 0; 0; 0; 0]; [6; 7; 8; 9; 0; 0]; [10; 11; 0; 0; 0; 0]; [0; 0; 0; 0; 0; 0]]%Z [3] [0; 1; 1; 0]%Z None.
Definition run_req (row : nat) (len : nat) (toks : list Z) : BatchReq :=
  mkBatchReq (Req.mkReq (Some row) 0 len 0 toks [] toks false (0, len) None None None [] (Some 0) false (-1))
    (Some (mkKv len 0)) [] 0 false false 8.
Definition run_batch : ScheduleBatch :=
  mkBatch [run_req 1 4 [1; 2; 9; 9; 7]%Z; run_req 2 2 [4; 4; 4]%Z] [] [] [4; 2] 0 false [1; 2] None.
Definition run_pages (i : nat) : list Z := match i with 0 => [3; 4]%Z | _ => [5]%Z end.

Lemma full_mem_ready : ∃ φ, ready full_mem φ.
Proof.
  destruct demo_one_abs as (φ&Hinv&Hh&_). exists φ. split; [by apply inv_set_allocator|exact Hh| |done].
  apply tree_mem_check; [|vm_compute; reflexivity..].
  split_and!; [|done|vm_compute; lia]. split; [|done]. split; [constructor|]. by intros q Hq%not_elem_of_nil.
Qed.

Lemma run_req_live row pg i len toks : len ≤ length toks → length pg = npages 2 len → NoDup pg → len ≤ length row →
  take len row = kv_row 2 pg 0 len → live_req full_mem row pg (run_req i len toks).
Proof.
  intros Hlen Hpg Hnd Hrow Htake. split; try done; simpl; [|lia]. unfold kv_tokens. simpl. rewrite app_nil_r, length_take. lia.
Qed.

Lemma run_batch_running : ∃ φ, batch_running full_mem φ full_rows run_batch run_pages [].
Proof.
  destruct full_mem_ready as [φ Hr]. exists φ. split; [|done..]. split.
  - exact Hr.
  - apply NoDup_seq.
  - intros i Hi%elem_of_seq. simpl in Hi. destruct i as [|[|i]]; [| |lia].
    + eexists _, _, _, _. split_and!; try reflexivity; [vm_compute; by eexists|simpl; lia..|].
      apply run_req_live; try reflexivity; [simpl; lia|by apply (bool_decide_eq_true_1 _); vm_compute|simpl; lia].
    + eexists _, _, _, _. split_and!; try reflexivity; [vm_compute; by eexists|simpl; lia..|].
      apply run_req_live; try reflexivity; [simpl; lia|by apply (bool_decide_eq_true_1 _); vm_compute|simpl; lia].
  - split; [by apply (bool_decide_eq_true_1 _); vm_compute|].
    apply (Forall_forall (λ q, 1 ≤ q ≤ 5)%Z). by apply (bool_decide_eq_true_1 _); vm_compute.
  - apply (Forall_forall (λ s, (s / 2)%Z ∉ [3; 4; 5]%Z)). by apply (bool_decide_eq_true_1 _); vm_compute.
  - intros x n Hn Hx. replace (locks_on (reqs run_batch) _ x) with 0;
      [apply (ac_own _ (in_acct _ _ (rd_inv _ _ Hr)) x n Hn Hx)|].
    unfold locks_on. simpl. change (root_node full_mem) with 0 in Hx.
    rewrite !filter_cons, filter_nil. unfold last_of. simpl. repeat case_decide; [congruence..|done].
  - split; [exact (Permutation_middle [1; 2] [] 3)|done..].
  - repeat constructor.
Qed.

Lemma no_aux_total : aux_total (X := unit).
Proof. intros x idx lens. by exists x. Qed.

(** Both requests are at the end of a page and nothing is free: the tree's pages are
    evicted, and the step fits. *)
Lemma check_decode_mem_exact_witness : ∃ φ c' fresh c'' p' b' out,
  check_decode_mem demo_hash demo_digest None None run_batch full_mem = Ok (c', true)
  ∧ alloc_for_decode demo_hash demo_digest false 1 run_batch c' full_rows = Ok (c'', p', b', Ok out)
  ∧ decoded c' c'' φ full_rows p' run_pages fresh run_batch b' [].
Proof.
  destruct run_batch_running as [φ Hb]. exists φ.
  destruct (check_decode_mem_exact demo_hash demo_digest demo_hash_ok false full_mem φ full_rows run_batch run_pages []
    no_aux_total Hb) as (c'&enough&Hc&_&_&Hd).
  assert (enough = true) as ->.
  { transitivity (match check_decode_mem demo_hash demo_digest None None run_batch full_mem with Ok (_, e) => e | Raise _ => false end);
      [by rewrite Hc|vm_compute; reflexivity]. }
  destruct Hd as (fresh&c''&p'&b'&out&Ha&Hd). exists c', fresh, c'', p', b', out. split; [exact Hc|]. split; [exact Ha|exact Hd].
Defined.


Example run_batch_retracts :
  match retract_decode demo_clock demo_hash demo_digest 20 false false false None None run_batch full_rows full_mem with
  | Ok (_, p', b', (ret, _, ab)) => (req_pool_indices b', length ret, length ab, free_slots p') = ([2], 1, 0, [3; 1])
  | Raise _ => False
  end.
Proof. vm_compute. reflexivity. Qed.
