(* ===== verification/MemCheckWitness.v ===== *)
(** * Witnesses for the self-checks

    The running batch of the retraction witnesses: five pages of two tokens, two in the
    tree and three in the rows of two requests. *)

From stdpp Require Import base tactics numbers list gmap strings.
From Stdlib Require Import ZArith QArith Lia ZifyNat.
From S2P Require Import Prelude RadixKey TreeNode RadixCache RadixReq RadixWitness Allocator AllocFree AllocKernel PoolAlloc Requests ReqPool.
From S2P Require Import BatchAlloc BatchMem BatchWitness Retract RetractCorrect RetractDecode RetractWitness MemCheck MemCheckCorrect.

Local Open Scope nat_scope.

#[local] Existing Instance no_aux.
#[local] Instance check_pool : PoolAllocator KvAlloc := paged_pool demo_zeros.
#[local] Instance check_laws : PoolLaws KvAlloc := paged_pool_laws demo_zeros demo_zeros_length.

Definition run_checker (pages : bool) : Checker := mkChecker 2 0 0 10 false true pages 0 0.

Lemma run_prefix_locked : prefix_locked full_mem full_rows (reqs run_batch).
Proof. intros [|[|i]] r j row s Hi _ _ Hs; cbn in Hi; [injection Hi as <-..|done]; by apply elem_of_nil in Hs. Qed.

Lemma self_check_exact_witness :
  self_check_during_busy (run_checker true) (Some (reqs run_batch)) (Some (reqs run_batch)) true full_rows full_mem
  = Ok (run_checker true).
Proof.
  destruct run_batch_running as [φ Hb].
  rewrite (self_check_exact (run_checker true) full_mem φ full_rows (reqs run_batch) (Some (reqs run_batch)) true run_pages []).
  - vm_compute. reflexivity.
  - split_and!; [reflexivity|cbn; lia|reflexivity].
  - exact (br_run _ _ _ _ _ _ Hb).
  - exact run_prefix_locked.
Defined.

