(* ===== verification/MemoryHazards.v ===== *)
(** * Two ways a page is freed while it is in use

    Concrete runs of the modelled code that end in a state where a page is on the free
    list of the allocator although the tree or a running request still holds it. *)

From stdpp Require Import base tactics numbers list gmap strings.
From Stdlib Require Import ZArith Lia ZifyNat.
From S2P Require Import Prelude RadixKey TreeNode KvEvents EventQueue RadixCache RadixInv RadixPages RadixAcct RadixSpec.
From S2P Require Import RadixReq RadixWitness Allocator AllocFree AllocKernel PoolAlloc Requests ReqPool.
From S2P Require Import BatchAlloc BatchMem BatchWitness Retract RetractWitness.

#[local] Instance hazard_pool : PoolAllocator KvAlloc := paged_pool demo_zeros.

(** ** Stripping the thinking of a resumed request *)

Section Strip.
#[local] Existing Instance no_aux.

(** An empty cache over four pages of two tokens; the request below holds pages 1 to 3. *)
Definition strip_cache : RadixCache KvAlloc := set_allocator (set_free [4]%Z [] (Paged.init 8 2 false)) demo_empty.
Definition strip_rows : ReqToTokenPool unit := mkPool 1 6 [[0; 0; 0; 0; 0; 0]; [2; 3; 4; 5; 6; 0]]%Z [] [0; 1]%Z None.

(** A request that was retracted while it was thinking and is prefilled again: its prompt
    is [1; 2] and [3; 4; 9] are output tokens, all of them part of the new prefill. *)
Definition strip_req : Req.Req :=
  Req.mkReq (Some 1) 0 5 0 [1; 2]%Z [3; 4; 9]%Z [1; 2; 3; 4; 9]%Z false (0, 5) None None None [] (Some 0) false (-1).

(** The prefill result is cached, then the request finishes. *)
Definition strip_run : res (RadixCache KvAlloc * ReqToTokenPool unit * BatchReq) :=
  let! (c, k, p) := cache_unfinished_req demo_clock demo_hash demo_digest strip_req false strip_rows strip_cache in
  release_kv_cache demo_clock demo_hash demo_digest true None
    (mkBatchReq k (Some (mkKv 5 0)) [] 3 false false 8) true p c.

(** With [strip_thinking_cache], a request whose protected prefix reaches into its
    output (it was retracted and prefilled again) frees a page that the tree still
    stores: after [cache_unfinished_req] and [release_kv_cache] the page of slots 4 and 5
    is both in the tree and on the free list. *)
Theorem strip_thinking_frees_tree_page :
  match strip_run with
  | Ok (c, _, _) => 4%Z ∈ slots (nodes c) ∧ 5%Z ∈ slots (nodes c) ∧ 2%Z ∈ held (allocator c)
  | Raise _ => False
  end.
Proof. vm_compute. split_and!; repeat constructor. Qed.
End Strip.

(** ** Rolling back a decode step *)

(** An auxiliary cache that is full. *)
Definition full_aux : AuxCache unit :=
  {| aux_free x _ := x; aux_clear x := x; aux_reset_allocator x := x; dense_capacity _ := 0%Z;
     aux_alloc_to_lengths _ _ _ := Raise RuntimeError |}.
#[local] Existing Instance full_aux.

Definition rollback_rows : ReqToTokenPool unit :=
  mkPool 1 6 [[0; 0; 0; 0; 0; 0]; [6; 7; 8; 0; 0; 0]]%Z [] [0; 1]%Z (Some tt).
(** One request with three tokens in the pages 3 and 4. *)
Definition rollback_batch : ScheduleBatch :=
  mkBatch [run_req 1 3 [1; 2; 9; 9]%Z] [] [] [3] 0 false [1] None.

(** When the auxiliary cache fails, [alloc_for_decode] gives the new slots back with
    [free], which frees whole pages: a slot in the middle of a page takes the page of the
    request's earlier tokens with it.  Here the request's third token is in page 4, which
    ends up on the free list while the row still refers to it. *)
Theorem decode_rollback_frees_live_page :
  match alloc_for_decode demo_hash demo_digest false 1 rollback_batch full_mem rollback_rows with
  | Ok (c, p, _, Raise _) =>
      4%Z ∈ held (allocator c) ∧ (4%Z ∉ held (allocator full_mem))
      ∧ take 3 <$> req_to_token p !! 1 = Some (kv_row 2 [3; 4]%Z 0 3)
  | _ => False
  end.
Proof. vm_compute. split_and!; [repeat constructor|inversion 1|reflexivity]. Qed.
