(* ===== verification/AdderPreempt.v ===== *)
(** * Preemption, the EOS-free estimate and the tile budget

    Further properties of [PrefillAdder]: what a committed preemption guarantees,
    when the ordered insertion of the EOS-free estimate keeps its order, and what
    the tile budget counts. *)

From stdpp Require Import base tactics numbers list sorting.
From Stdlib Require Import ZArith QArith Lia Lqa.
From S2P Require Import Prelude PySort PrefillDelayer PrefillAdder.

Local Open Scope Z_scope.

Definition qsum {A} (f : A → Q) (l : list A) : Q := foldr (λ x s, (f x + s)%Q) 0%Q l.

Lemma qsum_perm {A} (f : A → Q) l1 l2 : l1 ≡ₚ l2 → (qsum f l1 == qsum f l2)%Q.
Proof. induction 1 as [|x l1 l2 _ IH|x y l|l1 l2 l3 _ IH1 _ IH2]; simpl; lra. Qed.

Lemma filter_picked {node} (reqs picked : list (SchedReq node)) :
  NoDup (map rid reqs) → NoDup picked → (∀ r, r ∈ picked → r ∈ reqs) →
  List.filter (λ r, bool_decide (rid r ∈ map rid picked)) reqs ≡ₚ picked.
Proof.
  intros Hnd Hp Hsub.
  assert (∀ r v, r ∈ reqs → v ∈ reqs → rid r = rid v → r = v) as Hinj.
  { clear Hp Hsub. induction reqs as [|x reqs IH]; intros r v Hr Hv E; [by apply not_elem_of_nil in Hr|].
    simpl in Hnd. apply NoDup_cons in Hnd as [Hx Hnd].
    assert (∀ y, y ∈ reqs → rid y ≠ rid x) as Hne.
    { intros y Hy Hyx. apply Hx. rewrite <-Hyx. by apply list_elem_of_fmap_2. }
    apply elem_of_cons in Hr as [->|Hr]; apply elem_of_cons in Hv as [->|Hv]; auto; exfalso; by eapply Hne. }
  apply NoDup_Permutation; [|done|].
  - clear Hinj Hsub. induction reqs as [|x reqs IH]; simpl; [constructor|].
    simpl in Hnd. apply NoDup_cons in Hnd as [Hx Hnd]. destruct (bool_decide _); [|by apply IH].
    constructor; [|by apply IH]. rewrite list_elem_of_In, filter_In, <-list_elem_of_In. intros [Hin _].
    apply Hx. by apply list_elem_of_fmap_2.
  - intros r. rewrite (list_elem_of_In (List.filter _ _)), filter_In, bool_decide_eq_true, <-list_elem_of_In. split.
    + intros [Hr (v&E&Hv)%list_elem_of_fmap]. by rewrite (Hinj r v) by auto.
    + intros Hr. split; [by apply Hsub|]. by apply list_elem_of_fmap_2.
Qed.

Section Preempt.
Context {node S : Type} `{P : Pools node S}.
Implicit Types (a : PrefillAdder node) (s : S) (r req : SchedReq node).

(** What [req] needs, and what a running request is estimated to use. *)
Definition needed a req : Q :=
  inject_Z (cand_extend_len req + Z.min (max_new_tokens req) (CLIP_MAX_NEW_TOKENS (config a))).
Definition offset_of (cfg : AdderConfig) r : Q := get_running_request_total_token_offset cfg r.

(** The priority of [req] exceeds that of [r] by more than the threshold. *)
Definition outranks (cfg : AdderConfig) (low_first : bool) req r : Prop :=
  preemption_threshold cfg < (priority req - priority r) * (if low_first then -1 else 1).

Lemma pick_preemptible_spec cfg req (low : bool) x sorted picked y :
  pick_preemptible cfg req (if low then 1 else -1) x sorted = (picked, y) →
  picked `prefix_of` sorted ∧ Forall (outranks cfg low req) picked ∧ (y == x - qsum (offset_of cfg) picked)%Q.
Proof.
  revert x picked y. induction sorted as [|r sorted IH]; intros x picked y; simpl.
  { intros [= <- <-]. split_and!; [done|constructor|simpl; lra]. }
  destruct (Z.ltb_spec (preemption_threshold cfg) ((priority req - priority r) * - (if low then 1 else -1))) as [Hp|].
  2: { intros [= <- <-]. split_and!; [apply prefix_nil|constructor|simpl; lra]. }
  assert (outranks cfg low req r) as Hr by (unfold outranks; by destruct low).
  destruct (Qle_bool _ 0).
  { intros [= <- <-]. split_and!; [by exists sorted|by repeat constructor|simpl; unfold offset_of; lra]. }
  destruct (pick_preemptible cfg req _ _ sorted) as [l z] eqn:E. intros [= <- <-].
  apply IH in E as ([post ->]&Hall&Hz). split_and!; [by exists post|by constructor|].
  simpl. unfold offset_of in *. lra.
Qed.

Lemma release_calls_remaining ids (reqs : list (SchedReq node)) i n k :
  map snd (release_calls ids reqs i n k)
  = map (λ j, (n - (j + 1))%nat) (seq k (length (List.filter (λ r, bool_decide (rid r ∈ ids)) reqs))).
Proof.
  revert i k. induction reqs as [|r reqs IH]; intros i k; simpl; [done|].
  destruct (bool_decide _); simpl; [|apply IH]. f_equal. rewrite IH. by rewrite Nat.add_1_r.
Qed.

Lemma partition_perm {A} (f : A → bool) (l : list A) :
  l ≡ₚ List.filter (λ x, negb (f x)) l ++ List.filter f l.
Proof.
  induction l as [|x l IH]; simpl; [done|]. destruct (f x); simpl; [|by rewrite <-IH].
  rewrite <-Permutation_middle. by rewrite <-IH.
Qed.

End Preempt.

(** ** The EOS-free estimate *)

Abbreviation states_sorted := (StronglySorted (λ x y : Q * Z, qkey_le fst x y = true)).

Lemma insert_index_found x states i last : Exists (λ st, Qle_bool x st.1 = true) states →
  ∃ pre y post, states = pre ++ y :: post ∧ Forall (λ st, Qle_bool x st.1 = false) pre
    ∧ Qle_bool x y.1 = true ∧ insert_index x states i last = (i + length pre)%nat.
Proof.
  intros H. revert i last. induction states as [|st states IH]; intros i last; [by apply Exists_nil in H|].
  simpl. destruct (Qle_bool x st.1) eqn:E.
  - exists [], st, states. split_and!; [done|constructor|done|simpl; lia].
  - apply Exists_cons in H as [?|H]; [congruence|].
    destruct (IH H (i + 1)%nat i) as (pre&y&post&->&Hpre&Hy&->). exists (st :: pre), y, post.
    split_and!; [done|by constructor|done|simpl; lia].
Qed.

Lemma insert_index_none x states i last : ¬ Exists (λ st, Qle_bool x st.1 = true) states →
  insert_index x states i last = match states with [] => last | _ => (i + (length states - 1))%nat end.
Proof.
  revert i last. induction states as [|st states IH]; intros i last H; simpl; [done|].
  destruct (Qle_bool x st.1) eqn:E; [by destruct H; left|].
  rewrite IH by (intros ?; apply H; by right). destruct states; simpl; lia.
Qed.

(** C40: inserting the state of one more request keeps the list in order exactly
    when the list is empty or holds an entry with at least as many tokens left;
    a request with the most tokens left is put before the last entry, out of
    order. *)
Theorem insert_sort_state_sorted_iff st states : states_sorted states →
  states_sorted (insert_sort_state st states)
  ↔ states = [] ∨ Exists (λ x, Qle_bool st.1 x.1 = true) states.
Proof.
  intros Hs. unfold insert_sort_state. split.
  - intros Hins. destruct states as [|x0 l0] using rev_ind; [by left|]. clear IHl0. right.
    destruct (decide (Exists (λ x, Qle_bool st.1 x.1 = true) (l0 ++ [x0]))) as [?|Hn]; [done|].
    rewrite insert_index_none in Hins by done. exfalso. apply Hn.
    assert ((match l0 ++ [x0] with [] => 0 | _ :: _ => 0 + (length (l0 ++ [x0]) - 1) end)%nat = length l0) as Hi
      by (rewrite length_app; destruct l0; simpl; lia).
    rewrite Hi, take_app_length, drop_app_length in Hins.
    apply Exists_app. right. left.
    apply StronglySorted_app_1_r in Hins. apply StronglySorted_inv in Hins as [_ Hx].
    by apply Forall_cons in Hx as [? _].
  - intros [->|He]; [repeat constructor|].
    destruct (insert_index_found st.1 states 0 0 He) as (pre&y&post&->&Hpre&Hy&->). cbn [Nat.add].
    rewrite take_app_length, drop_app_length.
    assert (StronglySorted (λ x y, qkey_le fst x y = true) (insert_by (qkey_le fst) st (pre ++ y :: post))) as H
      by (apply insert_by_sorted; [apply qkey_le_total|apply qkey_le_trans|done]).
    assert (∀ l, Forall (λ x, Qle_bool st.1 x.1 = false) l →
      insert_by (qkey_le fst) st (l ++ y :: post) = l ++ st :: y :: post) as Hl.
    { intros l. induction 1 as [|z l Hz _ IH]; simpl; unfold qkey_le at 1; [by rewrite Hy|by rewrite Hz, IH]. }
    by rewrite Hl in H.
Qed.

(** The first estimate of a pass is in order. *)
Lemma first_req_states_sorted {node} (a : PrefillAdder node) req : req_states a = None →
  states_sorted (update_req_states a req).
Proof.
  intros H. unfold update_req_states. rewrite H.
  apply sort_by_sorted; [apply qkey_le_total|apply qkey_le_trans].
Qed.

(** The insertion that follows can lose the order. *)
Example insert_sort_state_out_of_order :
  insert_sort_state (5%Q, 1) [(1%Q, 1); (2%Q, 1)] = [(1%Q, 1); (5%Q, 1); (2%Q, 1)].
Proof. reflexivity. Qed.

(** ** The tile budget *)

Lemma compact_of_zeros (n : nat) (x block_m : Z) :
  compact_q_tiles_per_head (estimate_prefill_extend_tile_metrics (replicate n 0 ++ [x]) block_m)
  = if 0 <? x then ceil_div x block_m else 0.
Proof.
  simpl. induction n as [|n IH]; simpl.
  - destruct (Z.ltb_spec 0 x), (Z.ltb_spec 0 (Z.max 0 x)); rewrite ?Z.max_r by lia; lia.
  - by rewrite Z.add_0_l.
Qed.

(** The requests already admitted have no tiles in the compact budget: a batch
    passes the check whenever its last candidate alone does. *)
Lemma tile_budget_ignores_admitted {node} (a : PrefillAdder node) x :
  IS_HIP (config a) = true → 0 < PREFILL_TILE_BUDGET (config a) → tile_mode_compact (config a) = true →
  can_run_list a ≠ [] → 0 < x →
  check_prefill_tile_budget a x
  = if ceil_div x (prefill_tile_block_m (config a)) <=? PREFILL_TILE_BUDGET (config a) then None else Some OTHER.
Proof.
  intros H1 H2 H3 H4 Hx. unfold check_prefill_tile_budget, candidate_tile_metrics, admitted_extend_lens.
  rewrite H1, H3. destruct (Z.leb_spec (PREFILL_TILE_BUDGET (config a)) 0); [lia|]. cbn [negb orb].
  destruct (can_run_list a) as [|r l] eqn:E; [done|]. rewrite <-E.
  replace (map (λ _, 0) (can_run_list a)) with (replicate (length (can_run_list a)) 0)
    by (clear; induction (can_run_list a); simpl; congruence).
  rewrite compact_of_zeros. destruct (Z.ltb_spec 0 x); [done|lia].
Qed.

(** ** Witnesses: a pool of free tokens without a tree *)
Definition counter_pools : Pools unit Z := {|
  available_size s := s;
  full_available_size s := s;
  swa_available_size s := s;
  size_swa s := s;
  evictable_size _ := 0;
  full_evictable_size _ := 0;
  swa_evictable_size _ := 0;
  mamba_evictable_size _ := 0;
  mamba_schedulable_size _ := 0;
  tree_cache_disable _ := true;
  is_tree_cache _ := false;
  inc_lock_ref _ s := Ok (s, mkLockResult None []);
  dec_lock_ref _ _ s := Ok s;
  init_load_back _ _ _ := Raise NotImplementedError;
|}.

Definition prio_req (id prio fill new : Z) : SchedReq unit :=
  mkSchedReq id new false fill 0 fill [] tt tt 0 0 0 0 None false false prio 0 false 0 (mkLockResult None []) None.
Definition prio_config : AdderConfig :=
  mkConfig 1 64 1 None false false false 0 2 false None None 8 1 0 false 0 true 4096.
Definition prio_running : list (SchedReq unit) := [prio_req 1 0 4 8; prio_req 2 9 4 8; prio_req 3 1 4 8].
Definition prio_adder : PrefillAdder unit :=
  adder_init (P := counter_pools) prio_config 0 (Some prio_running) 100 None 0 None 30.


Lemma insert_sort_state_sorted_iff_witness :
  states_sorted (insert_sort_state (3%Q, 1) [(1%Q, 1); (4%Q, 1)])
  ↔ [(1%Q, 1); (4%Q, 1)] = [] ∨ Exists (λ x, Qle_bool 3 x.1 = true) [(1%Q, 1); (4%Q, 1)].
Proof. apply (insert_sort_state_sorted_iff (3%Q, 1)). repeat constructor. Defined.
