(* ===== verification/SchedulePolicy.v ===== *)
(** * The order of the waiting queue

    [SchedulePolicy] of [src/python/sglang/srt/managers/schedule_policy.py]: the
    choice of the policy, the prefix matching of the waiting requests with in-batch
    prefix caching, and the sorts.  Both trees are the radix cache of this
    development; [random.shuffle] and the order of a node's children (the insertion
    order of a dict) are parameters. *)

From stdpp Require Import base tactics numbers list gmap strings sorting.
From Stdlib Require Import ZArith QArith Lia ZifyNat.
From S2P Require Import Prelude RadixKey TreeNode KvEvents EventQueue RadixCache Requests PySort.

Local Open Scope nat_scope.

Inductive CacheAwarePolicy := LPM | DFS_WEIGHT.
Inductive CacheAgnosticPolicy := FCFS | LOF | RANDOM | ROUTING_KEY.
Inductive Policy := Aware (p : CacheAwarePolicy) | Agnostic (p : CacheAgnosticPolicy).

Global Instance Policy_eq_dec : EqDecision Policy.
Proof. assert (EqDecision CacheAwarePolicy) by solve_decision.
  assert (EqDecision CacheAgnosticPolicy) by solve_decision. solve_decision. Defined.

(** [CacheAwarePolicy(policy)] and [CacheAgnosticPolicy(policy)]. *)
Definition aware_of_string (s : string) : option CacheAwarePolicy :=
  if decide (s = "lpm") then Some LPM else if decide (s = "dfs-weight") then Some DFS_WEIGHT else None.
Definition agnostic_of_string (s : string) : option CacheAgnosticPolicy :=
  if decide (s = "fcfs") then Some FCFS else if decide (s = "lof") then Some LOF
  else if decide (s = "random") then Some RANDOM else if decide (s = "routing-key") then Some ROUTING_KEY
  else None.

Definition validate_and_adjust_policy (policy : string) (tree_disabled : bool) : res Policy :=
  match aware_of_string policy with
  | Some p => if tree_disabled then Ok (Agnostic FCFS) else Ok (Aware p)
  | None => match agnostic_of_string policy with
            | Some p => Ok (Agnostic p)
            | None => Raise ValueError
            end
  end.

(** A waiting request: the fields of [Req] the policies use. *)
Record QReq := mkQReq {
  core : Req.Req;
  rid : Z;
  priority : Z;
  max_new_tokens : Z;
  wait_queue_entry_time : Q;
  routing_key : option string;
  num_matched_prefix_tokens : Z;
}.

Definition prompt_ids (r : QReq) : list Z := Req.origin_input_ids (core r) ++ Req.output_ids (core r).
Definition queue_key (r : QReq) : RadixKey :=
  radix_key (prompt_ids r) (Req.extra_key (core r)) false None (Req.cache_salt (core r)).

Definition set_match (idx : list Z) (n : node_id) (matched : Z) (r : QReq) : QReq :=
  mkQReq (Req.set_prefix (Req.cache_protected_len (core r)) idx (Some n) (core r)) (rid r) (priority r)
    (max_new_tokens r) (wait_queue_entry_time r) (routing_key r) matched.

(** [zero_match_result]. *)
Definition zero_match_result {A} (c : RadixCache A) (m : MatchResult) : MatchResult :=
  mkMatchResult (take 0 (device_indices m)) (root_node c) (root_node c) (root_node c).

Definition IN_BATCH_PREFIX_CACHING_CHECK_THRESHOLD : nat := 32.
Definition IN_BATCH_PREFIX_CACHING_DEPRIORITIZE_THRESHOLD : nat := 32.

(** ** Sorts *)

(** A deprioritized request has the key [inf], after every finite one. *)
Definition sort_by_longest_prefix (deprioritized : list Z) (q : list QReq) : list QReq :=
  let out r := bool_decide (rid r ∈ deprioritized) in
  sort_by (lex_le (λ r, if out r then 1 else 0)%Q
                  (λ r, if out r then 0 else inject_Z (- num_matched_prefix_tokens r))%Q) q.

Definition sort_by_longest_output (enable_priority : bool) (sign : Z) (q : list QReq) : list QReq :=
  if enable_priority
  then sort_by (lex_le (λ r, inject_Z (priority r * sign)) (λ r, inject_Z (- max_new_tokens r))) q
  else sort_by (key_le (λ r, (- max_new_tokens r)%Z)) q.

Definition sort_by_priority_and_fcfs (sign : Z) (q : list QReq) : list QReq :=
  sort_by (lex_le (λ r, inject_Z (priority r * sign)) wait_queue_entry_time) q.

(** [Counter(r.routing_key for r in running if r.routing_key)]. *)
Definition nonempty_key (r : QReq) : option string :=
  match routing_key r with Some "" => None | k => k end.
Definition routing_counts (running : list QReq) : gmap string Z :=
  foldl (λ m k, <[k := (default 0 (m !! k) + 1)%Z]> m) ∅ (omap nonempty_key running).
Definition routing_sort_key (counts : gmap string Z) (r : QReq) : Z * Z * string :=
  match nonempty_key r with
  | Some k => match counts !! k with
              | Some n => (0, - n, k)%Z
              | None => (1, 0, k)%Z
              end
  | None => (1, 0, "")%Z
  end.
Definition routing_le (counts : gmap string Z) (r1 r2 : QReq) : bool :=
  let '(a1, b1, k1) := routing_sort_key counts r1 in
  let '(a2, b2, k2) := routing_sort_key counts r2 in
  if (a1 =? a2)%Z then if (b1 =? b2)%Z then String.leb k1 k2 else (b1 <? b2)%Z else (a1 <? a2)%Z.
Definition sort_by_routing_key (running : list QReq) (q : list QReq) : list QReq :=
  let counts := routing_counts running in
  if bool_decide (counts = ∅) then q else sort_by (routing_le counts) q.

(** The allocator of the simulated tree: there is none. *)
Global Instance no_allocator : KvAllocator unit := {| free_segment _ _ _ := tt; free_segments _ _ := tt |}.

Section Policy.
Context {A : Type} `{!KvAllocator A}.
Context (monotonic : nat → Z) (native_hash : RadixKey → option string → nat → list string)
  (salt_digest : string → string).
Context (shuffle : list QReq → list QReq) (child_order : TreeNode → list node_id).
(** [SGLANG_RADIX_FORCE_MISS]. *)
Context (FORCE_MISS : bool).

(** [RadixCache.create_simulated()] as [SchedulePolicy.__init__] calls it. *)
Definition create_simulated : RadixCache unit :=
  reset monotonic (mkCache false 1 false false LRUStrategy ∅ 0 0 0 0%Z 0%Z ∅ (mkRecorder false 1 []) tt).

(** [match_prefix_for_req] on a radix cache, which has no host tier. *)
Definition match_prefix_for_req (r : QReq) (c : RadixCache A) : res (RadixCache A * QReq) :=
  let! (c, m) := match_prefix monotonic (queue_key r) c in
  let m := if FORCE_MISS then zero_match_result c m else m in
  let max_len := Req.compute_max_prefix_len (Z.of_nat (length (prompt_ids r))) (core r) in
  Ok (c, set_match (device_indices m) (last_device_node m)
           (Z.min (Z.of_nat (length (device_indices m))) max_len) r).

Fixpoint match_all (q : list QReq) (c : RadixCache A) : res (RadixCache A * list QReq) :=
  match q with
  | [] => Ok (c, [])
  | r :: q =>
      let! (c, r) := match_prefix_for_req r c in
      let! (c, q) := match_all q c in
      Ok (c, r :: q)
  end.

(** In-batch prefix caching for one request: is it deprioritized? *)
Definition in_batch_check (r : QReq) (w : RadixCache unit) : res (RadixCache unit * bool) :=
  if length (Req.prefix_indices (core r)) <=? IN_BATCH_PREFIX_CACHING_CHECK_THRESHOLD then
    let! (w, m) := match_prefix monotonic (queue_key r) w in
    let m := if FORCE_MISS then zero_match_result w m else m in
    if IN_BATCH_PREFIX_CACHING_DEPRIORITIZE_THRESHOLD <=? length (device_indices m) then Ok (w, true)
    else
      let! (w, _, _) := cache_insert monotonic native_hash salt_digest (queue_key r)
                          (Some (replicate (length (prompt_ids r)) 0%Z)) None false w in
      Ok (w, false)
  else Ok (w, false).

(** The loop of [_compute_prefix_matches]. *)
Fixpoint prefix_matches (q : list QReq) (c : RadixCache A) (w : RadixCache unit)
    : res (RadixCache A * RadixCache unit * list QReq * list Z) :=
  match q with
  | [] => Ok (c, w, [], [])
  | r :: q =>
      let! (c, r) := match_prefix_for_req r c in
      let! (w, out) := in_batch_check r w in
      let! (c, w, q, deprioritized) := prefix_matches q c w in
      Ok (c, w, r :: q, if (out : bool) then rid r :: deprioritized else deprioritized)
  end.
Definition compute_prefix_matches (q : list QReq) (c : RadixCache A) (w : RadixCache unit)
    : res (RadixCache A * RadixCache unit * list QReq * list Z) :=
  prefix_matches q c (reset monotonic w).

(** ** Depth-first weights *)

Fixpoint calc_weight (fuel : nat) (c : RadixCache A) (i : node_id) (weights : gmap node_id Z)
    : res (gmap node_id Z) :=
  match fuel with
  | 0 => Raise OutOfFuel
  | S fuel =>
      let! n := get_node c i in
      foldl (λ acc child,
               let! w := acc in
               let! w := calc_weight fuel c child w in
               Ok (<[i := (default 0 (w !! i) + default 0 (w !! child))%Z]> w))
        (Ok weights) (child_order n)
  end.

Fixpoint get_dfs_priority (fuel : nat) (c : RadixCache A) (i : node_id) (weights : gmap node_id Z)
    (reqs_at : node_id → list QReq) : res (list QReq) :=
  match fuel with
  | 0 => Raise OutOfFuel
  | S fuel =>
      let! n := get_node c i in
      let children := sort_by (key_le (λ ch, (- default 0 (weights !! ch))%Z)) (child_order n) in
      let! out := foldl (λ acc child,
                           let! q := acc in
                           let! q' := get_dfs_priority fuel c child weights reqs_at in
                           Ok (q ++ q'))
                    (Ok []) children in
      Ok (out ++ reqs_at i)
  end.

(** The requests whose last node is [i], in queue order. *)
Definition last_node_to_reqs (q : list QReq) (i : node_id) : list QReq :=
  List.filter (λ r, bool_decide (Req.last_node (core r) = Some i)) q.

Definition sort_by_dfs_weight (q : list QReq) (c : RadixCache A) : res (list QReq) :=
  let weights := foldl (λ w r, match Req.last_node (core r) with
                               | Some i => <[i := Z.of_nat (length (last_node_to_reqs q i))]> w
                               | None => w
                               end) ∅ q in
  let fuel := S (size (nodes c)) in
  let! weights := calc_weight fuel c (root_node c) weights in
  get_dfs_priority fuel c (root_node c) weights (last_node_to_reqs q).

(** ** The policy object *)

Record SchedulePolicy := mkPolicy {
  policy : Policy;
  enable_priority_scheduling : bool;
  priority_sign : Z;
  supports_fast_match_prefix : bool;
  is_decode_worker : bool;
}.

Definition determine_active_policy (s : SchedulePolicy) (q : list QReq) : Policy :=
  if bool_decide (policy s = Aware LPM) && (128 <? length q) then Agnostic FCFS else policy s.

Definition is_aware (p : Policy) : bool := match p with Aware _ => true | Agnostic _ => false end.

Definition waiting_queue_prefix_matched (s : SchedulePolicy) (q : list QReq) : bool :=
  is_aware (determine_active_policy s q) || supports_fast_match_prefix s.

Definition calc_priority (s : SchedulePolicy) (running : option (list QReq)) (q : list QReq)
    (c : RadixCache A) (w : RadixCache unit) : res (RadixCache A * RadixCache unit * list QReq) :=
  let p := determine_active_policy s q in
  let! (c, q) :=
    if negb (is_aware p) && supports_fast_match_prefix s && negb (is_decode_worker s)
    then match_all q c else Ok (c, q) in
  if decide (policy s = Agnostic FCFS) then
    Ok (c, w, if enable_priority_scheduling s then sort_by_priority_and_fcfs (priority_sign s) q else q)
  else
    match p with
    | Aware a =>
        let! (c, w, q, deprioritized) := compute_prefix_matches q c w in
        match a with
        | LPM => Ok (c, w, sort_by_longest_prefix deprioritized q)
        | DFS_WEIGHT => let! q := sort_by_dfs_weight q c in Ok (c, w, q)
        end
    | Agnostic FCFS => Ok (c, w, q)
    | Agnostic LOF => Ok (c, w, sort_by_longest_output (enable_priority_scheduling s) (priority_sign s) q)
    | Agnostic RANDOM => Ok (c, w, shuffle q)
    | Agnostic ROUTING_KEY =>
        Ok (c, w, match running with Some reqs => sort_by_routing_key reqs q | None => q end)
    end.
End Policy.
