(* ===== verification/PolicyCorrect.v ===== *)
(** * Correctness of the scheduling policies

    The simulated tree of [_compute_prefix_matches] implements a direct
    specification of in-batch prefix caching, and [calc_priority] reorders the queue
    (never losing or duplicating a request) into the order its policy promises. *)

From stdpp Require Import base tactics numbers list gmap strings sorting.
From Stdlib Require Import ZArith QArith Lia Lqa ZifyNat.
From S2P Require Import Prelude RadixKey TreeNode KvEvents EventQueue RadixCache RadixInv RadixPages RadixAcct.
From S2P Require Import RadixMatch RadixSpec RadixInsert RadixCorrect Requests PySort SchedulePolicy.

Local Open Scope nat_scope.

(** ** The specification of in-batch prefix caching *)

(** [r0] starts with the first 32 tokens of [r], in the same namespace. *)
Definition shares (r r0 : QReq) : bool :=
  bool_decide (namespace (queue_key r) = namespace (queue_key r0)
               ∧ IN_BATCH_PREFIX_CACHING_DEPRIORITIZE_THRESHOLD ≤ length (prompt_ids r)
               ∧ take IN_BATCH_PREFIX_CACHING_DEPRIORITIZE_THRESHOLD (prompt_ids r) `prefix_of` prompt_ids r0).

(** A request that hardly matches the cache is deprioritized when an earlier such
    request of the queue, not itself deprioritized, starts the same way. *)
Fixpoint spec_deprioritized (kept q : list QReq) : list Z :=
  match q with
  | [] => []
  | r :: q =>
      let small := length (Req.prefix_indices (core r)) <=? IN_BATCH_PREFIX_CACHING_CHECK_THRESHOLD in
      if small && existsb (shares r) kept then rid r :: spec_deprioritized kept q
      else spec_deprioritized (if small then r :: kept else kept) q
  end.

Definition units (r : QReq) : list lunit := UTok <$> prompt_ids r.

Lemma prefix_fmap_UTok (l1 l2 : list Z) : (UTok <$> l1) `prefix_of` (UTok <$> l2) ↔ l1 `prefix_of` l2.
Proof.
  split; [|intros [k ->]; rewrite fmap_app; by eexists].
  intros [k Hk]. apply fmap_app_inv in Hk as (a&b&Ha&_&->).
  apply list_fmap_eq_inj in Ha as ->; [by eexists|]. by intros ?? [= ->].
Qed.

Lemma queue_key_for {A} (c : RadixCache A) r : key_for c (queue_key r).
Proof. split; [apply radix_key_salt_ok|done]. Qed.

Lemma queue_units {A} (c : RadixCache A) r : page_size c = 1 → is_eagle c = false →
  key_units c (queue_key r) = units r.
Proof.
  intros Hp He. unfold key_units, cache_key, maybe_to_bigram_view. rewrite Hp, He. simpl.
  unfold page_aligned, iter, raw_len, units, queue_key, radix_key. simpl. by rewrite Nat.eqb_refl.
Qed.

Section PrefixMatches.
Context {A : Type} `{!KvAllocator A}.
Context (monotonic : nat → Z) (native_hash : RadixKey → option string → nat → list string)
  (salt_digest : string → string).
Context (Hnative : ∀ k prior ps, 0 < ps → klen k mod ps = 0 →
  length (native_hash k prior ps) = klen k / ps ∧ Forall good_hash (native_hash k prior ps)).

(** What a lookup of a waiting request returns. *)
Lemma match_step {B} (c : RadixCache B) M r : abs c M → disable c = false →
  ∃ c' m, match_prefix monotonic (queue_key r) c = Ok (c', m) ∧ abs c' M ∧ cfg c' = cfg c
    ∧ device_indices m = spec_match M (page_size c) (namespace (queue_key r)) (key_units c (queue_key r)).
Proof.
  intros (φ&Hinv&Hh&HM) Hd.
  destruct (match_prefix_quiet monotonic c φ (queue_key r) Hinv (queue_key_for c r) Hd)
    as (c'&φ'&m&n&He&Hq&Hre&Hlo).
  exists c', m. split_and!; [done|by eapply abs_quiet|apply Hq|].
  rewrite <-(quiet_page_size _ _ _ _ Hq). symmetry.
  eapply (spec_match_reached monotonic c' φ' M); [apply Hq| |done|done].
  intros. rewrite HM. symmetry. apply Hq.
Qed.

(** The simulated tree holds the prefixes of the requests kept so far. *)
Record holds_kept (w : RadixCache unit) (kept : list QReq) : Prop := {
  hk_page : page_size w = 1;
  hk_eagle : is_eagle w = false;
  hk_on : disable w = false;
  hk_map : ∃ M, abs w M ∧ ∀ N Q, is_Some (M !! (N, Q)) ↔
    ∃ r0, r0 ∈ kept ∧ N = namespace (queue_key r0) ∧ Q ≠ [] ∧ Q `prefix_of` units r0;
}.

Lemma spec_insert_dom (M : PrefixMap) N K v N' Q :
  is_Some (spec_insert M 1 N K v !! (N', Q)) ↔
  is_Some (M !! (N', Q)) ∨ (N' = N ∧ Q ≠ [] ∧ Q `prefix_of` K).
Proof.
  unfold spec_insert. rewrite lookup_union_is_Some. apply or_iff_compat_l. unfold spec_pages.
  rewrite <-elem_of_dom, dom_list_to_map_L, elem_of_list_to_set, list_elem_of_fmap. split.
  - intros ([[N0 Q0] v0]&[= -> ->]&(j&[= -> -> ->]&Hj%elem_of_seq)%list_elem_of_fmap).
    rewrite Nat.div_1_r in Hj. unfold page_prefix. split_and!; [done| |apply prefix_take].
    intros H%(f_equal length). rewrite length_take in H. simpl in H. lia.
  - intros (->&HQ&HK). destruct Q as [|u Q]; [done|]. pose proof (prefix_length _ _ HK) as Hl. simpl in Hl.
    exists (N, u :: Q, pyslice v (length Q * 1) (length Q * 1 + 1)). split; [done|].
    apply list_elem_of_fmap. exists (length Q). split.
    + f_equal. f_equal. unfold page_prefix. destruct HK as [k ->].
      rewrite take_app_length'; [done|simpl; lia].
    + apply elem_of_seq. rewrite Nat.div_1_r. lia.
Qed.
(** The lookup in the simulated tree finds 32 tokens exactly when some kept
    request shares them. *)
Lemma kept_hit w kept r : holds_kept w kept →
  ∃ w' m, match_prefix monotonic (queue_key r) w = Ok (w', m) ∧ holds_kept w' kept
    ∧ (IN_BATCH_PREFIX_CACHING_DEPRIORITIZE_THRESHOLD <=? length (device_indices m)) = existsb (shares r) kept.
Proof.
  intros [Hp He Hd (M&(φ&Hinv&Hh&HM)&Hdom)].
  destruct (match_prefix_quiet monotonic w φ (queue_key r) Hinv (queue_key_for w r) Hd)
    as (w'&φ'&m&n&Hm&Hq&Hre&Hlo).
  pose proof (qu_cfg _ _ _ _ Hq) as [= Hd' Hp' He' _ _ _].
  exists w', m. split_and!; [done| |].
  - split; [congruence..|]. exists M. split; [by eapply abs_quiet|done].
  - set (T := IN_BATCH_PREFIX_CACHING_DEPRIORITIZE_THRESHOLD).
    destruct Hre as [_ _ Hle _ Hlen Hpg]. rewrite Hp', Hp in Hpg. unfold longest in Hlo. rewrite Hp', Hp in Hlo.
    rewrite (queue_units w r Hp He) in Hle, Hpg, Hlo. rewrite Hlen.
    assert (∀ Q, (∃ vs, page_at (page_size w') (nodes w') φ' (namespace (queue_key r)) Q vs) ↔
      is_Some (M !! (namespace (queue_key r), Q))) as Hat.
    { intros Q. split.
      - intros [vs Hvs]. exists vs. apply HM. by apply (qu_pages _ _ _ _ Hq).
      - intros [vs Hvs]. exists vs. apply (qu_pages _ _ _ _ Hq). by apply HM. }
    rewrite Hp', Hp in Hat. apply eq_bool_prop_intro. split.
    + intros Ht%Is_true_true%Nat.leb_le. apply Is_true_true, existsb_exists.
      destruct (proj1 (Hat (take T (units r)))) as [vs Hvs].
      { eexists. unfold T. apply (Hpg 31). unfold T, IN_BATCH_PREFIX_CACHING_DEPRIORITIZE_THRESHOLD in Ht. lia. }
      destruct (proj1 (Hdom _ _) (ex_intro _ vs Hvs)) as (r0&Hr0&HN&_&Hpre).
      exists r0. split; [by apply list_elem_of_In|]. apply bool_decide_eq_true.
      split_and!; [done|unfold units in Hle; rewrite length_fmap in Hle; fold T; lia|].
      unfold units in Hpre. rewrite <-fmap_take in Hpre. by apply prefix_fmap_UTok.
    + intros (r0&Hr0&(HN&HT&Hpre)%bool_decide_eq_true)%Is_true_true%existsb_exists.
      apply Is_true_true, Nat.leb_le. fold T in HT, Hpre. destruct (decide (T ≤ n)) as [?|Hn]; [done|]. exfalso.
      assert (length (units r) = length (prompt_ids r)) as Hul by (unfold units; apply length_fmap).
      destruct (proj2 (Hat (take (n + 1) (units r)))) as [vs Hvs]; [|by apply (Hlo ltac:(lia) vs)].
      apply Hdom. exists r0. split_and!; [by apply list_elem_of_In|done| |].
      * intros H%(f_equal length). rewrite length_take in H. simpl in H. lia.
      * unfold units. rewrite <-fmap_take. apply prefix_fmap_UTok.
        etrans; [|exact Hpre]. replace (n + 1) with (min (n + 1) T) by lia. rewrite <-take_take. apply prefix_take.
Qed.

Lemma in_batch_check_spec w kept r : holds_kept w kept →
  let small := length (Req.prefix_indices (core r)) <=? IN_BATCH_PREFIX_CACHING_CHECK_THRESHOLD in
  ∃ w', in_batch_check monotonic native_hash salt_digest false r w = Ok (w', small && existsb (shares r) kept)
    ∧ holds_kept w' (if small && existsb (shares r) kept then kept else if small then r :: kept else kept).
Proof.
  intros Hk small. unfold in_batch_check. fold small. destruct small; cbn [andb]; [|by eauto].
  destruct (kept_hit w kept r Hk) as (w1&m&->&Hk1&Hhit). res_step. rewrite Hhit.
  destruct (existsb (shares r) kept); [by eauto|].
  destruct Hk1 as [Hp He Hd (M&(φ&Hinv&Hh&HM)&Hdom)].
  destruct (cache_insert_spec monotonic native_hash salt_digest Hnative w1 φ M (queue_key r)
    (Some (replicate (length (prompt_ids r)) 0%Z)) None false Hinv Hh HM (queue_key_for w1 r) Hd)
    as (w2&x&φ2&->&Hi).
  { simpl. rewrite length_replicate, <-length_iter. fold (key_units w1 (queue_key r)).
    rewrite queue_units by done. unfold units. by rewrite length_fmap. }
  res_step. eexists. split; [done|]. destruct Hi as [Hi2 Hh2 _ _ Hpg [= Hd2 Hp2 He2 _ _ _] _ _ _ _ _ _].
  split; [congruence..|]. eexists. split; [exists φ2; split_and!; [done..|exact Hpg]|].
  intros N Q. rewrite Hp, spec_insert_dom, Hdom, queue_units by done. setoid_rewrite elem_of_cons. naive_solver.
Qed.
(** [r'] is [r] after its lookup in the cache [c] that stores [M]: it has the slots
    of its longest stored prefix and a node of the cache. *)
Definition matched (M : PrefixMap) (c c' : RadixCache A) (r r' : QReq) : Prop :=
  let hit := spec_match M (page_size c) (namespace (queue_key r)) (key_units c (queue_key r)) in
  ∃ n, is_Some (nodes c' !! n)
    ∧ r' = set_match hit n
        (Z.min (Z.of_nat (length hit)) (Req.compute_max_prefix_len (Z.of_nat (length (prompt_ids r))) (core r))) r.

Lemma cfg_units (c c1 : RadixCache A) r : cfg c1 = cfg c → key_units c1 (queue_key r) = key_units c (queue_key r).
Proof. intros [= _ Hp He _ _ _]. unfold key_units, cache_key. by rewrite Hp, He. Qed.

Lemma match_prefix_for_req_spec c M r : abs c M → disable c = false →
  ∃ c' r', match_prefix_for_req monotonic false r c = Ok (c', r') ∧ abs c' M ∧ cfg c' = cfg c
    ∧ matched M c c' r r' ∧ ∀ i, is_Some (nodes c !! i) → is_Some (nodes c' !! i).
Proof.
  intros (φ&Hinv&Hh&HM) Hd. unfold match_prefix_for_req.
  destruct (match_prefix_quiet monotonic c φ (queue_key r) Hinv (queue_key_for c r) Hd)
    as (c'&φ'&m&n&->&Hq&Hre&Hlo). res_step.
  eexists _, _. split; [done|]. split_and!; [by eapply abs_quiet|apply Hq| |].
  - exists (last_device_node m). destruct (re_in _ _ _ _ _ _ _ _ _ Hre) as (nm&Hnm&_). split; [by eexists|].
    rewrite <-(quiet_page_size _ _ _ _ Hq).
    erewrite (spec_match_reached monotonic c' φ' M); [done|apply Hq| |done|done].
    intros. rewrite HM. symmetry. apply Hq.
  - intros i [ni Hi]. destruct (qu_nodes _ _ _ _ Hq i ni Hi) as (_&n'&?&_). by eexists.
Qed.

Lemma prefix_matches_spec q c M w kept : abs c M → disable c = false → holds_kept w kept →
  ∃ c' w' q', prefix_matches monotonic native_hash salt_digest false q c w
      = Ok (c', w', q', spec_deprioritized kept q')
    ∧ Forall2 (matched M c c') q q' ∧ abs c' M ∧ cfg c' = cfg c
    ∧ (∀ i, is_Some (nodes c !! i) → is_Some (nodes c' !! i)).
Proof.
  revert c w kept. induction q as [|r q IH]; intros c w kept Habs Hd Hk; cbn [prefix_matches].
  { eexists _, _, []. split_and!; try done. }
  destruct (match_prefix_for_req_spec c M r Habs Hd) as (c1&r1&->&Habs1&Hcfg1&Hm1&Hn1). res_step.
  destruct (in_batch_check_spec w kept r1 Hk) as (w1&->&Hk1). res_step.
  edestruct (IH c1 w1) as (c'&w'&q'&->&Hq'&Habs'&Hcfg'&Hn'); [done|by injection Hcfg1; congruence|exact Hk1|].
  res_step. eexists _, _, (r1 :: q'). split.
  { cbn [spec_deprioritized]. by destruct (_ && _). }
  split_and!; [|done|congruence|auto]. constructor.
  - destruct Hm1 as (n&Hn&->). exists n. split; [by apply Hn'|done].
  - eapply Forall2_impl; [exact Hq'|]. intros x y (n&Hn&->). exists n. split; [done|].
    rewrite (cfg_units c c1 x Hcfg1). by injection Hcfg1 as _ -> _ _ _ _.
Qed.

(** A tree made by [create_simulated], whatever it holds. *)
Record simulated (w : RadixCache unit) : Prop := {
  si_page : page_size w = 1;
  si_eagle : is_eagle w = false;
  si_on : disable w = false;
  si_rec : rec_page_size (kv_events w) = 1;
  si_wf : recorder_wf (kv_events w);
}.

Lemma reset_holds_nothing w : simulated w → holds_kept (reset monotonic w) [].
Proof.
  intros [Hp He Hd Hr Hw]. split; [done..|]. exists ∅. split.
  - apply reset_abs; [lia|congruence|done].
  - intros N Q. rewrite lookup_empty. split; [by intros [? ?]|]. intros (r0&Hr0&_). by apply not_elem_of_nil in Hr0.
Qed.

End PrefixMatches.
