(* ===== verification/PolicyOrder.v ===== *)
(** * The order of the waiting queue, policy by policy

    Every policy permutes the queue.  For the depth-first policy this rests on the
    traversal of the radix tree: [_get_dfs_priority] visits every node exactly once,
    and its recursion, bounded here by the number of nodes, always suffices. *)

From stdpp Require Import base tactics numbers list gmap strings sorting relations.
From Stdlib Require Import ZArith QArith Lia Lqa ZifyNat.
From S2P Require Import Prelude RadixKey TreeNode KvEvents EventQueue RadixCache RadixInv RadixPages RadixAcct.
From S2P Require Import RadixMatch RadixSpec RadixInsert RadixCorrect Requests PySort RadixWitness SchedulePolicy PolicyCorrect.

Local Open Scope nat_scope.

Lemma choose_list {A B} (P : A → B → Prop) l : Forall (λ x, ∃ y, P x y) l → ∃ ys, Forall2 P l ys.
Proof.
  induction 1 as [|x l [y Hy] _ [ys IH]]; [by exists []|]. exists (y :: ys). by constructor.
Qed.

Section Dfs.
Context {A : Type} (c : RadixCache A) (φ : node_id → list lunit) (Hinv : inv c φ).
Context (child_order : TreeNode → list node_id)
  (Horder : ∀ n, child_order n ≡ₚ (map_to_list (children n)).*2).
Implicit Types i j ch : node_id.

Definition is_child ch i : Prop := ∃ n, nodes c !! ch = Some n ∧ parent n = Some i.
(** [j] is [i] or one of its descendants. *)
Definition below j i : Prop := rtc is_child j i.

Lemma child_order_spec i n ch : nodes c !! i = Some n → ch ∈ child_order n ↔ is_child ch i.
Proof.
  intros Hi. destruct Hinv as [_ Hwf _]. rewrite Horder, list_elem_of_fmap. split.
  - intros ([ck x]&->&Hx%elem_of_map_to_list). simpl.
    destruct (wt_child _ _ _ _ _ Hwf i n ck x Hi Hx) as (_&m&?&?&_). by exists m.
  - intros (m&Hm&Hp).
    assert (ch ≠ root_node c) as Hne.
    { intros ->. destruct (wt_root _ _ _ _ _ Hwf) as (rn&?&?&_). congruence. }
    destruct (wt_node _ _ _ _ _ Hwf ch m Hm Hne) as (_&p&pn&[Hpa Hpn (ck&_&Hck) _ _]).
    assert (p = i) as -> by congruence. assert (pn = n) as -> by congruence.
    exists (ck, ch). split; [done|]. by apply elem_of_map_to_list.
Qed.

Lemma child_order_NoDup i n : nodes c !! i = Some n → NoDup (child_order n).
Proof.
  intros Hi. destruct Hinv as [_ Hwf _]. rewrite Horder. apply NoDup_fmap_2_strong; [|apply NoDup_map_to_list].
  intros [k1 x1] [k2 x2] H1%elem_of_map_to_list H2%elem_of_map_to_list. simpl. intros ->.
  destruct (wt_child _ _ _ _ _ Hwf i n k1 x2 Hi H1) as (_&m1&E1&_&K1).
  destruct (wt_child _ _ _ _ _ Hwf i n k2 x2 Hi H2) as (_&m2&E2&_&K2). congruence.
Qed.

Lemma child_depth ch i : is_child ch i → depth (nodes c) φ i < depth (nodes c) φ ch.
Proof. intros (n&Hn&Hp). destruct Hinv as [Hps Hwf _]. eapply (depth_parent _ _ Hps); [exact Hwf|exact Hn|exact Hp]. Qed.

Lemma below_depth j i : below j i → depth (nodes c) φ i ≤ depth (nodes c) φ j.
Proof. induction 1 as [|x y z Hxy _ IH]; [lia|]. apply child_depth in Hxy. lia. Qed.

Lemma below_linear j x y : below j x → below j y → below x y ∨ below y x.
Proof.
  intros Hx. revert y. induction Hx as [|j p x Hjp Hpx IH]; intros y Hy; [by left|].
  inversion Hy as [|? p' ? Hjp' Hy']; subst; [right; by eapply rtc_l|].
  assert (p' = p) as -> by (destruct Hjp as (?&?&?), Hjp' as (?&?&?); congruence). by apply IH.
Qed.

Lemma siblings_disjoint i ch1 ch2 j : is_child ch1 i → is_child ch2 i → below j ch1 → below j ch2 → ch1 = ch2.
Proof.
  assert (∀ a b, is_child a i → is_child b i → below a b → a = b) as Hab.
  { intros a b Ha Hb Hbel. inversion Hbel as [|? p ? Hp Hrest]; subst; [done|].
    assert (p = i) as -> by (destruct Ha as (?&?&?), Hp as (?&?&?); congruence).
    apply below_depth in Hrest. apply child_depth in Hb. lia. }
  intros H1 H2 B1 B2. destruct (below_linear j ch1 ch2 B1 B2); [by apply Hab|symmetry; by apply Hab].
Qed.

Lemma below_children j i : below j i ↔ j = i ∨ ∃ ch, is_child ch i ∧ below j ch.
Proof.
  split.
  - intros H. apply rtc_inv_r in H as [?|(ch&?&?)]; [by left|right; by eauto].
  - intros [->|(ch&?&?)]; [by apply rtc_refl|by eapply rtc_r].
Qed.

(** The lists of the children make up the list below the node. *)
Lemma concat_below i (cs : list node_id) ls : NoDup cs → (∀ ch, ch ∈ cs → is_child ch i) →
  Forall2 (λ ch l, NoDup l ∧ ∀ j, j ∈ l ↔ below j ch) cs ls →
  NoDup (concat ls) ∧ ∀ j, j ∈ concat ls ↔ ∃ ch, ch ∈ cs ∧ below j ch.
Proof.
  intros Hnd Hch H. induction H as [|ch l cs ls [Hl Hj] Hrest IH]; simpl.
  { split; [constructor|]. intros j. split; [by intros ?%not_elem_of_nil|].
    intros (ch&?%not_elem_of_nil&_). done. }
  apply NoDup_cons in Hnd as [Hnin Hnd]. destruct IH as [IH1 IH2]; [done|intros; apply Hch; by right|]. split.
  - apply NoDup_app. split_and!; [done| |done]. intros j H1%Hj (ch'&Hin&H2)%IH2.
    destruct (siblings_disjoint i ch ch' j); [apply Hch; by left|apply Hch; by right|done|done|]. done.
  - intros j. rewrite elem_of_app, Hj, IH2. setoid_rewrite elem_of_cons. naive_solver.
Qed.
Lemma foldl_dfs (f : node_id → res (list QReq)) cs ls q0 : Forall2 (λ ch l, f ch = Ok l) cs ls →
  foldl (λ acc ch, let! q := acc in let! q' := f ch in Ok (q ++ q')) (Ok q0) cs = Ok (q0 ++ concat ls).
Proof.
  intros H. revert q0. induction H as [|ch l cs ls Hf _ IH]; intros q0; simpl; [by rewrite app_nil_r|].
  rewrite Hf. res_step. by rewrite IH, app_assoc.
Qed.

Lemma concat_bind (f : node_id → list QReq) (ls : list (list node_id)) :
  concat (map (λ l, l ≫= f) ls) = concat ls ≫= f.
Proof. induction ls as [|l ls IH]; simpl; [done|]. by rewrite bind_app, IH. Qed.

(** With fuel for the nodes deeper than [i], the traversal visits each node below
    [i] exactly once. *)
Lemma get_dfs_priority_spec fuel i weights reqs_at : is_Some (nodes c !! i) →
  size (nodes c) ≤ fuel + depth (nodes c) φ i →
  ∃ l, get_dfs_priority child_order fuel c i weights reqs_at = Ok (l ≫= reqs_at)
    ∧ NoDup l ∧ ∀ j, j ∈ l ↔ below j i.
Proof.
  revert i. induction fuel as [|fuel IH]; intros i [n Hi] Hf.
  { pose proof (depth_lt_size _ (in_ps _ _ Hinv) (nodes c) φ i n Hi). lia. }
  cbn [get_dfs_priority]. unfold get_node. rewrite Hi. res_step.
  set (cs := sort_by _ (child_order n)).
  assert (cs ≡ₚ child_order n) as Hcs by apply sort_by_perm.
  assert (∀ ch, ch ∈ cs ↔ is_child ch i) as Hch by (intros; rewrite Hcs; by apply child_order_spec).
  assert (NoDup cs) as Hnd by (rewrite Hcs; by eapply child_order_NoDup).
  destruct (choose_list (λ ch l, get_dfs_priority child_order fuel c ch weights reqs_at = Ok (l ≫= reqs_at)
    ∧ NoDup l ∧ ∀ j, j ∈ l ↔ below j ch) cs) as [ls Hls].
  { apply Forall_forall. intros ch Hin%Hch. pose proof (child_depth _ _ Hin) as Hd. apply IH; [|lia].
    destruct Hin as (m&?&_). by eexists. }
  destruct (concat_below i cs ls Hnd) as [Hndl Hin].
  { intros ch. by apply Hch. }
  { eapply Forall2_impl; [exact Hls|]. by intros ch l [_ ?]. }
  rewrite (foldl_dfs _ cs (map (λ l, l ≫= reqs_at) ls)).
  2: { apply Forall2_fmap_r. eapply Forall2_impl; [exact Hls|]. by intros ch l [? _]. }
  res_step. rewrite concat_bind. exists (concat ls ++ [i]). split_and!.
  - rewrite bind_app. simpl. by rewrite app_nil_r.
  - apply NoDup_app. split_and!; [done| |by apply NoDup_singleton].
    intros j (ch&Hc%Hch&Hb)%Hin ->%list_elem_of_singleton.
    apply below_depth in Hb. apply child_depth in Hc. lia.
  - intros j. rewrite elem_of_app, list_elem_of_singleton, Hin, below_children. setoid_rewrite Hch. naive_solver.
Qed.

Lemma calc_weight_total fuel i weights : is_Some (nodes c !! i) →
  size (nodes c) ≤ fuel + depth (nodes c) φ i → ∃ w, calc_weight child_order fuel c i weights = Ok w.
Proof.
  revert i weights. induction fuel as [|fuel IH]; intros i weights [n Hi] Hf.
  { pose proof (depth_lt_size _ (in_ps _ _ Hinv) (nodes c) φ i n Hi). lia. }
  cbn [calc_weight]. unfold get_node. rewrite Hi. res_step.
  assert (∀ ch, ch ∈ child_order n → is_child ch i) as Hch by (intros ch; by apply child_order_spec).
  revert weights. induction (child_order n) as [|ch cs IHcs]; intros weights; simpl; [by eauto|].
  pose proof (child_depth ch i ltac:(apply Hch; by left)) as Hd.
  destruct (IH ch weights) as [w ->]; [|lia|].
  { destruct (Hch ch ltac:(by left)) as (m&?&_). by eexists. }
  res_step. apply IHcs. intros; apply Hch. by right.
Qed.

Lemma all_below_root i : is_Some (nodes c !! i) → below i (root_node c).
Proof.
  remember (depth (nodes c) φ i) as d eqn:Ed. revert i Ed. induction (lt_wf d) as [d _ IH]. intros i -> [n Hi].
  destruct (decide (i = root_node c)) as [->|Hne]; [by apply rtc_refl|].
  destruct Hinv as [_ Hwf _]. destruct (wt_node _ _ _ _ _ Hwf i n Hi Hne) as (_&p&pn&[Hpa Hpn _ _ _]).
  assert (is_child i p) as Hc by (by exists n). eapply rtc_l; [exact Hc|].
  apply (IH (depth (nodes c) φ p)); [by apply child_depth|done|by eexists].
Qed.

Lemma bind_filter_perm (l : list node_id) (q : list QReq) : NoDup l →
  (∀ r, r ∈ q → ∃ i, Req.last_node (core r) = Some i ∧ i ∈ l) → (l ≫= last_node_to_reqs q) ≡ₚ q.
Proof.
  intros Hnd. induction q as [|r q IH]; intros Hq.
  { clear. induction l as [|i l IH]; simpl; [done|]. by rewrite IH. }
  destruct (Hq r ltac:(by left)) as (i&Hi&Hin).
  rewrite <-IH at 2 by (intros; apply Hq; by right).
  assert (∀ l', i ∉ l' → (l' ≫= last_node_to_reqs (r :: q)) = l' ≫= last_node_to_reqs q) as Hout.
  { intros l'. induction l' as [|x l' IHl]; [done|]. intros Hx.
    apply not_elem_of_cons in Hx as [Hx Hl]. rewrite !bind_cons, IHl by done. f_equal. unfold last_node_to_reqs. simpl.
    rewrite bool_decide_eq_false_2; [done|congruence]. }
  apply list_elem_of_split in Hin as (l1&l2&->). apply NoDup_app in Hnd as (_&H1&H2).
  apply NoDup_cons in H2 as [H2 _]. rewrite !bind_app, !bind_cons, !Hout; [|done|intros Hl; apply (H1 i Hl); by left].
  unfold last_node_to_reqs at 2. simpl. rewrite bool_decide_eq_true_2 by done.
  rewrite <-app_comm_cons. symmetry. apply Permutation_middle.
Qed.

(** The depth-first order is a permutation of the queue. *)
Lemma sort_by_dfs_weight_perm q :
  (∀ r, r ∈ q → ∃ i, Req.last_node (core r) = Some i ∧ is_Some (nodes c !! i)) →
  ∃ q', sort_by_dfs_weight child_order q c = Ok q' ∧ q' ≡ₚ q.
Proof.
  intros Hq. destruct (inv_root c φ Hinv) as [rn Hr]. unfold sort_by_dfs_weight.
  set (w0 := foldl _ ∅ q).
  destruct (calc_weight_total (S (size (nodes c))) (root_node c) w0) as [w ->]; [by eexists|lia|].
  res_step.
  destruct (get_dfs_priority_spec (S (size (nodes c))) (root_node c) w (last_node_to_reqs q))
    as (l&->&Hnd&Hin); [by eexists|lia|].
  eexists. split; [done|]. apply bind_filter_perm; [done|]. intros r Hr'.
  destruct (Hq r Hr') as (i&?&?). exists i. split; [done|]. by apply Hin, all_below_root.
Qed.
End Dfs.

(** ** The order of routing keys *)

Lemma string_leb_trans (s1 s2 s3 : string) :
  String.leb s1 s2 = true → String.leb s2 s3 = true → String.leb s1 s3 = true.
Proof.
  unfold String.leb. revert s2 s3. induction s1 as [|a1 s1 IH]; intros [|a2 s2] [|a3 s3]; simpl; try done.
  specialize (IH s2 s3). unfold Ascii.compare.
  destruct (N.compare_spec (Ascii.N_of_ascii a1) (Ascii.N_of_ascii a2)) as [E1|E1|E1]; try done;
  destruct (N.compare_spec (Ascii.N_of_ascii a2) (Ascii.N_of_ascii a3)) as [E2|E2|E2]; try done;
  destruct (N.compare_spec (Ascii.N_of_ascii a1) (Ascii.N_of_ascii a3)) as [E3|E3|E3]; try done; try lia.
Qed.

Lemma routing_le_total counts r1 r2 : routing_le counts r1 r2 = false → routing_le counts r2 r1 = true.
Proof.
  unfold routing_le. destruct (routing_sort_key counts r1) as [[a1 b1] k1], (routing_sort_key counts r2) as [[a2 b2] k2].
  destruct (Z.eqb_spec a1 a2), (Z.eqb_spec a2 a1); try lia.
  destruct (Z.eqb_spec b1 b2), (Z.eqb_spec b2 b1); try lia. destruct (String.leb_total k1 k2); congruence.
Qed.

Lemma routing_le_trans counts r1 r2 r3 :
  routing_le counts r1 r2 = true → routing_le counts r2 r3 = true → routing_le counts r1 r3 = true.
Proof.
  unfold routing_le. destruct (routing_sort_key counts r1) as [[a1 b1] k1], (routing_sort_key counts r2) as [[a2 b2] k2],
    (routing_sort_key counts r3) as [[a3 b3] k3].
  destruct (Z.eqb_spec a1 a2), (Z.eqb_spec a2 a3), (Z.eqb_spec a1 a3); try lia.
  destruct (Z.eqb_spec b1 b2), (Z.eqb_spec b2 b3), (Z.eqb_spec b1 b3); try lia. apply string_leb_trans.
Qed.

(** ** What each policy promises *)

(** First by a number, then by another one. *)
Definition lex_order (f g : QReq → Q) (r1 r2 : QReq) : Prop :=
  (f r1 < f r2)%Q ∨ ((f r1 == f r2)%Q ∧ (g r1 <= g r2)%Q).

Definition promised (s : SchedulePolicy) (active : Policy) (running : option (list QReq)) (q q' : list QReq)
    : Prop :=
  match active with
  | Aware LPM =>
      let held := spec_deprioritized [] q in
      StronglySorted (λ r1 r2, rid r2 ∈ held
        ∨ ((rid r1 ∉ held) ∧ (num_matched_prefix_tokens r2 ≤ num_matched_prefix_tokens r1)%Z)) q'
  | Aware DFS_WEIGHT => True
  | Agnostic FCFS =>
      if decide (policy s = Agnostic FCFS ∧ enable_priority_scheduling s = true)
      then StronglySorted (lex_order (λ r, inject_Z (priority r * priority_sign s)) wait_queue_entry_time) q'
      else q' = q
  | Agnostic LOF =>
      if enable_priority_scheduling s
      then StronglySorted (lex_order (λ r, inject_Z (priority r * priority_sign s))
                                     (λ r, inject_Z (- max_new_tokens r))) q'
      else StronglySorted (λ r1 r2, (max_new_tokens r2 ≤ max_new_tokens r1)%Z) q'
  | Agnostic RANDOM => True
  | Agnostic ROUTING_KEY =>
      match running with
      | Some reqs => routing_counts reqs = ∅ ∧ q' = q
                     ∨ StronglySorted (λ r1 r2, routing_le (routing_counts reqs) r1 r2 = true) q'
      | None => q' = q
      end
  end.

Lemma StronglySorted_weaken {A} (R R' : A → A → Prop) l :
  (∀ x y, R x y → R' x y) → StronglySorted R l → StronglySorted R' l.
Proof. intros H. induction 1; constructor; [done|]. eapply Forall_impl; eauto. Qed.

Lemma lex_sorted (f g : QReq → Q) q : StronglySorted (lex_order f g) (sort_by (lex_le f g) q).
Proof.
  eapply StronglySorted_weaken, sort_by_sorted; [|apply lex_le_total|apply lex_le_trans].
  intros x y. by rewrite lex_le_spec.
Qed.

Lemma longest_prefix_sorted held q :
  StronglySorted (λ r1 r2, rid r2 ∈ held
    ∨ ((rid r1 ∉ held) ∧ (num_matched_prefix_tokens r2 ≤ num_matched_prefix_tokens r1)%Z))
    (sort_by_longest_prefix held q).
Proof.
  eapply StronglySorted_weaken, lex_sorted. intros x y. unfold lex_order.
  destruct (bool_decide (rid y ∈ held)) eqn:Ey; [apply bool_decide_eq_true in Ey; by left|].
  destruct (bool_decide (rid x ∈ held)) eqn:Ex.
  { intros [H|[H _]]; exfalso; lra. }
  apply bool_decide_eq_false in Ex. intros [H|[_ H]]; [exfalso; lra|]. right. split; [done|].
  rewrite <-Zle_Qle in H. lia.
Qed.

Section Order.
Context {A : Type} `{!KvAllocator A}.
Context (monotonic : nat → Z) (native_hash : RadixKey → option string → nat → list string)
  (salt_digest : string → string).
Context (Hnative : ∀ k prior ps, 0 < ps → klen k mod ps = 0 →
  length (native_hash k prior ps) = klen k / ps ∧ Forall good_hash (native_hash k prior ps)).
Context (shuffle : list QReq → list QReq) (Hshuffle : ∀ l, shuffle l ≡ₚ l).
Context (child_order : TreeNode → list node_id)
  (Horder : ∀ n, child_order n ≡ₚ (map_to_list (children n)).*2).

Lemma match_all_spec q (c : RadixCache A) M : abs c M → disable c = false →
  ∃ c' q', match_all monotonic false q c = Ok (c', q') ∧ abs c' M ∧ disable c' = false ∧ map rid q' = map rid q.
Proof.
  revert c. induction q as [|r q IH]; intros c Habs Hd; simpl; [by eauto 10|].
  destruct (match_prefix_for_req_spec monotonic c M r Habs Hd) as (c1&r1&->&Habs1&[= Hd1 _ _ _ _ _]&(n&_&->)&_).
  res_step. destruct (IH c1 Habs1 ltac:(congruence)) as (c'&q'&->&?&?&Hq'). res_step.
  eexists _, _. split; [done|]. simpl. by rewrite Hq'.
Qed.

(** The cache-aware branch. *)
Lemma aware_spec s a running q (c : RadixCache A) M w : abs c M → disable c = false → simulated w →
  ∃ c' w' q1 q', (let! (c, w, q, deprioritized) :=
        compute_prefix_matches monotonic native_hash salt_digest false q c w in
      match a with
      | LPM => Ok (c, w, sort_by_longest_prefix deprioritized q)
      | DFS_WEIGHT => let! q := sort_by_dfs_weight child_order q c in Ok (c, w, q)
      end) = Ok (c', w', q')
    ∧ map rid q1 = map rid q ∧ q' ≡ₚ q1 ∧ abs c' M ∧ promised s (Aware a) running q1 q'.
Proof.
  intros Habs Hd Hw. unfold compute_prefix_matches.
  destruct (prefix_matches_spec monotonic native_hash salt_digest Hnative q c M (reset monotonic w) []
    Habs Hd (reset_holds_nothing monotonic w Hw)) as (c'&w'&q1&->&Hm&Habs'&_&_). res_step.
  assert (map rid q1 = map rid q) as Hrid.
  { clear -Hm. induction Hm as [|r r' q q' (n&_&->) _ IH]; simpl; [done|]. by rewrite IH. }
  destruct a.
  - eexists _, _, q1, _. split; [done|]. split_and!; [done|apply sort_by_perm|done|apply longest_prefix_sorted].
  - destruct Habs' as (φ&Hinv&Hrest).
    destruct (sort_by_dfs_weight_perm c' φ Hinv child_order Horder q1) as (q'&->&Hp).
    { intros r Hr. apply list_elem_of_lookup in Hr as [i Hi].
      destruct (Forall2_lookup_r _ _ _ _ _ Hm Hi) as (r0&_&(n&Hn&->)). by exists n. }
    res_step. eexists _, _, q1, _. split; [done|]. split_and!; try done. by exists φ.
Qed.

End Order.

(** ** Witnesses *)

Definition demo_child_order (n : TreeNode) : list node_id := (map_to_list (children n)).*2.
Definition demo_queued (id prio new : Z) (toks : list Z) : QReq :=
  mkQReq (Req.mkReq None 0 0 0 toks [] toks true (0, 0) None None None [] None false 0) id prio new 0 None 0.
Definition demo_queue : list QReq :=
  [demo_queued 1 0 9 (Z.of_nat <$> seq 0 40); demo_queued 2 5 3 [1; 2; 3; 4; 5]%Z;
   demo_queued 3 1 7 (Z.of_nat <$> seq 0 50)].
Definition demo_sim : RadixCache unit := create_simulated demo_clock.

Lemma demo_sim_ok : simulated demo_sim.
Proof. by split; vm_compute; try constructor. Qed.


(** The third request starts like the first one and is held back; the second one
    matches four tokens of the cache and goes first. *)
Example demo_queue_order :
  match calc_priority demo_clock demo_hash demo_digest (λ l, l) demo_child_order false
          (mkPolicy (Aware LPM) false (-1) false false) None demo_queue demo_one demo_sim with
  | Ok (_, _, q') => map rid q'
  | Raise _ => []
  end = [2; 1; 3]%Z.
Proof. vm_compute. reflexivity. Qed.

